(* ===== verification/_CoqProject ===== *)
-Q . S2P
Prelude.v
Effects.v
Floats.v
Clock.v
Types.v
Status.v
Protocol.v
Sequence.v
FaultLatch.v
Decimal.v
XmlConfig.v
XmlSpec.v
Rounding.v
Discovery.v
SampleQueue.v
QueueSpec.v
Transport.v
Client.v
Worker.v
WorkerSafety.v
Backoff.v
Lifecycle.v
LifecycleSpec.v
FirstSample.v
Handle.v
LockOrder.v
Locks.v
NativeClient.v
Bindings.v
Conversion.v
PyClient.v
PyClientSafety.v
PyLiveness.v
PyDelivery.v
PyLossless.v
PyNative.v
Legacy.v
System.v
