(* ===== verification/Prelude.v ===== *)
(** * Verification of the netft client: core, binding and Python package

    pyNetFT reads force/torque samples from an ATI NetFT sensor. The C++ core
    (core/) discovers the sensor's calibration over HTTP, opens a UDP session, decodes
    and accounts for every RDT record, scales it, and hands samples to a callback from a
    worker thread that recovers from faults by policy. The binding (bindings/python/)
    puts a bounded queue between that callback and the Python readers, and the package
    (src/pynetft/) iterates over that queue or calls a callback from a thread of its own.
    This library models that code, file by file, and proves what it promises.

    ** How C++ is modelled

    A pure function returns a [Res]: a value, an exception, or undefined behaviour
    ([UB]), so that the absence of undefined behaviour is a theorem. Integers are [Z]
    with their wrap-around ([wrap_u]) or overflow check ([checked_i]) written out;
    [double] and [long double] are SpecFloat values of the width each platform gives
    them (class [Clock.Platform]). Methods that mutate state are computations [M S A]
    ([Effects]): state passing with exceptions, and [None] for a loop out of fuel. A
    critical section is one step; before each lock, and before each load of an atomic,
    a scheduler gives the other threads arbitrary steps, so that theorems hold for
    every interleaving. The kernel, the clock, libcurl, the callback and thread
    creation answer from arguments of the model, with any answers their documentation
    allows. Memory is sequentially consistent.

    ** Files

    - [Prelude], [Effects], [Floats]: outcomes, machine integers, bytes, record updates;
      the effect monad with its rules for partial and total correctness; binary64 and
      long double arithmetic with the bounds on rounding the components need.
    - [Clock]: core/src/detail/time.hpp. [Types]: core/src/types.cpp and types.hpp.
      [Status]: core/src/status.cpp. [Protocol]: core/src/detail/protocol.cpp.
      [Sequence]: core/src/detail/sequence.cpp. [FaultLatch]: fault_latch.cpp.
    - [Decimal], [XmlConfig]: core/src/detail/xml_config.cpp. [XmlSpec]: documents as
      trees, the reference the scanner is compared with, and the sensor's own document.
      [Rounding]: the guard that parses in round-to-nearest, over the floating-point
      environment. [Discovery]: core/src/discovery.cpp over libcurl as a parameter
      ([Discovery.CurlEnv]), with the log of the calls made to it.
    - [Transport]: udp_transport_posix.cpp and udp_transport_windows.cpp over a kernel.
      The class [UdpTransportOps] has the operations the client calls, [UdpTransportLaws]
      what it relies on; both platforms are instances of both.
    - [Client]: the data and critical sections of core/src/detail/client_impl.cpp.
      [Worker]: its thread, run() and all it calls, over the transport interface and a
      scheduler. [WorkerSafety]: the worker's invariant and its proofs. [Backoff]: the
      delays between its sessions. [Lifecycle]: start(), stop() and the end of the worker
      as a step relation over any number of threads, with the mutex, the condition
      variable and spurious wake-ups. [LifecycleSpec]: the slot it refines. [FirstSample]:
      the condition variable of the first sample, which waiters, start(), stop() and the
      back-off of the worker share.
    - [Handle]: core/src/client.cpp, the destructor on any thread and the deferred
      destroyer, over one [Lifecycle] machine per client.
    - [SampleQueue]: bindings/python/sample_queue.cpp. [QueueSpec]: the bounded FIFO it
      refines, and its condition variable. [NativeClient]:
      bindings/python/native_client.cpp, and the wait for the first sample of the core.
      [Bindings]: the tables of bind_types.cpp and module.cpp.
    - [Conversion]: src/pynetft/types.py, _conversion.py and exceptions.py, and the
      construction of a client; texts are decoded as UTF-8. [PyClient]: client.py as a labelled step relation over any
      number of Python threads and dispatchers, on an abstract native client.
      [PyClientSafety]: its invariant and its safety. [PyLiveness]: progress and the
      report of failures. [PyDelivery] and [PyLossless]: histories of what the worker pushes, readers take and Python gets.
      [PyNative]: [NativeClient] refines that abstract native client. [Legacy]: _legacy.py
      over a [PyClient] state.
    - [LockOrder]: programs that lock, wait and join, a check that excludes deadlock, and
      its transfer from the program of a class to those of its objects. [Locks]: the
      programs of every function of core/, bindings/python/ and client.py, the interpreter
      lock, events and joins included, for any number of clients.
    - [System]: worker, callback, queue and readers composed.

    ** What is proved

    - Worker: under every interleaving no undefined behaviour, no escaping exception, the
      session and the socket released at the end, and termination after stop(); it ends
      without a fault only when asked to, and its fault is the one its policy and the last
      session give.
      The reconnect delays have a closed form although they are computed in floating
      point.
    - Life cycle: one worker at a time, no self-join, refinement of an abstract slot, no
      deadlock, with one exception that is exhibited: a lost wake-up of start(). A waiter
      for the first sample is always notified; the back-off of the worker can miss a stop,
      which is exhibited too.
    - Locks: over all clients and threads, mutexes, events, joins and the interpreter lock,
      a thread can go on or waits for one that can, and nobody waits with the interpreter
      lock or a mutex of the data.
    - Destruction: a client is freed only when nothing is left of it, never by its own
      worker; deferred clients are served once, in order, and each within a bounded number
      of steps.
    - Data path: which records are delivered and how each is counted, the rate limit and
      the reported rates, exact and finite scaling, calibration revisions, a start that
      fails leaves no trace, the first fault wins.
    - Wire formats: decoder exactness and round trips, loss accounting across wrap-around,
      restart detection, status words, unit names.
    - Discovery: bounded responses, what a success means (with exactly one transfer), the
      proper use and release of libcurl's objects on every path, timer conversions (with the one
      platform where the conversion is undefined). The parser is total, equals a
      reference on document trees, reads back what a sensor writes, and does not depend
      on the caller's floating-point environment.
    - Transport: termination of receive and no leaked descriptor, on both platforms.
    - System: what a reader gets was decoded from a datagram, scaled with a validated
      calibration, is well typed, and comes in the order of delivery.
    - Binding: conservation and order of queued samples, refinement of a bounded FIFO, no
      forgotten reader, readers that never cross a restart, termination of reads, start
      and stop of the binding, faithful enumerations and attributes.
    - Python client: what reaches Python was pushed in the same run, in order and at most
      once, and what a reader takes while its run lasts reaches Python; callbacks never
      overlap, callback and iterator delivery exclude each other, stop() ends delivery, no
      method deadlocks or goes round without end, failures of a run reach whoever asks,
      failed starts leave no trace, conversions lose nothing and fail only for text that is
      not UTF-8. The native client refines what client.py takes it for. A generator of an
      earlier run can take a sample of the next one, and a product name that is not UTF-8
      makes health() raise; both are exhibited.

    ** Bounds and fuel

    The XML scan has the length of its input as fuel. The transport's poll loop makes one
    poll per clock reading, so one more than the readings left ([horizon]) suffices. The
    worker's loops get one pass per yield: a stop at yield [K] ends them within [K + 1]
    passes. A timed read of the binding needs one pass per clock reading up to the one at
    which the timeout has passed. The other theorems on loops quantify over the fuel.

    ** Not modelled

    Allocation failures, the test hooks, weak memory orders, and the bodies of libcurl,
    the kernel, pybind11, the interpreter and the standard libraries. One client at a time
    in [PyClient]: callbacks that call another client's methods are the program's own
    affair there. In [Locks] they may, as long as the clients whose callbacks call others
    are in some order, and threads of the program do not wait for each other by other means;
    destructors run by the interpreter's garbage collector count as calls of their own. The
    re-exports of __init__.py, the build and the tools have no
    logic of the client. *)

From Stdlib Require Import ZArith Lia Ascii String Strings.Byte.
From stdpp Require Export base list strings pretty.
#[export] Set Default Goal Selector "!".

Open Scope Z_scope.
Declare Scope netft_scope.
Delimit Scope netft_scope with netft.

(** ** Outcomes of C++ code

    A C++ call returns a value, throws, or has undefined behaviour. [UB] is a
    value of the model so that its absence is a theorem about the code. *)

(** The exception classes the sources throw; [non_std] is what [catch (...)]
    sees beyond [std::exception]. *)
Inductive exn_class :=
  | invalid_argument
  | runtime_error
  | logic_error
  | DiscoveryError
  | ProtocolError
  | NotConnectedError
  | non_std.

Record exn := Exn { exn_kind : exn_class; what : string }.

Inductive Res (A : Type) :=
  | Ok (a : A)
  | Throw (e : exn)
  | UB.
Arguments Ok {A} a.
Arguments Throw {A} e.
Arguments UB {A}.

#[export] Instance exn_class_eq_dec : EqDecision exn_class.
Proof. solve_decision. Defined.
#[export] Instance exn_eq_dec : EqDecision exn.
Proof. solve_decision. Defined.
#[export] Instance Res_eq_dec {A} `{EqDecision A} : EqDecision (Res A).
Proof. solve_decision. Defined.

#[export] Instance Res_ret : MRet Res := fun A a => Ok a.
#[export] Instance Res_bind : MBind Res := fun A B f m =>
  match m with Ok a => f a | Throw e => Throw e | UB => UB end.
#[export] Instance Res_fmap : FMap Res := fun A B f m =>
  match m with Ok a => Ok (f a) | Throw e => Throw e | UB => UB end.

Definition throw {A} (k : exn_class) (msg : string) : Res A := Throw (Exn k msg).

(** A handler for every exception whose class satisfies [p]. *)
Definition catch {A} (p : exn_class → bool) (m : Res A) (h : exn → Res A) : Res A :=
  match m with
  | Throw e => if p (exn_kind e) then h e else Throw e
  | r => r
  end.

Definition is_Ok {A} (r : Res A) : bool := match r with Ok _ => true | _ => false end.
Definition is_UB {A} (r : Res A) : bool := match r with UB => true | _ => false end.

Lemma bind_Ok_inv {A B} (m : Res A) (f : A → Res B) b :
  m ≫= f = Ok b ↔ ∃ a, m = Ok a ∧ f a = Ok b.
Proof. destruct m; simpl; split; intros; destruct_and?; simplify_eq; firstorder congruence. Qed.

Lemma bind_not_UB {A B} (m : Res A) (f : A → Res B) :
  m ≠ UB → (∀ a, m = Ok a → f a ≠ UB) → m ≫= f ≠ UB.
Proof. destruct m; simpl; intros ? H; [by apply H|done|done]. Qed.

Lemma fmap_not_UB {A B} (m : Res A) (f : A → B) : m ≠ UB → f <$> m ≠ UB.
Proof. by destruct m. Qed.

(** ** Machine integers: a [w]-bit value is a [Z] kept in range *)

Definition wrap_u (w z : Z) : Z := z mod 2 ^ w.
Definition wrap_i (w z : Z) : Z := (z + 2 ^ (w - 1)) mod 2 ^ w - 2 ^ (w - 1).
Definition is_u (w z : Z) : Prop := 0 ≤ z < 2 ^ w.
Definition is_i (w z : Z) : Prop := - 2 ^ (w - 1) ≤ z < 2 ^ (w - 1).

(** Signed arithmetic of width [w]: a result out of range is undefined. *)
Definition checked_i (w z : Z) : Res Z :=
  if (- 2 ^ (w - 1) <=? z) && (z <? 2 ^ (w - 1)) then Ok z else UB.

Notation "'u32' z" := (wrap_u 32 z) (at level 10) : netft_scope.
Notation "'u64' z" := (wrap_u 64 z) (at level 10) : netft_scope.

#[export] Instance is_u_dec w z : Decision (is_u w z).
Proof. unfold is_u. apply _. Defined.
#[export] Instance is_i_dec w z : Decision (is_i w z).
Proof. unfold is_i. apply _. Defined.

Create HintDb netft.

Lemma wrap_u_range w z : 0 ≤ w → is_u w (wrap_u w z).
Proof. intros. unfold is_u, wrap_u. apply Z.mod_pos_bound. lia. Qed.

Lemma wrap_u_small w z : is_u w z → wrap_u w z = z.
Proof. unfold is_u, wrap_u. intros. by apply Z.mod_small. Qed.

Lemma checked_i_ok w z : is_i w z → checked_i w z = Ok z.
Proof.
  unfold is_i, checked_i. intros [H1 H2].
  by rewrite (proj2 (Z.leb_le _ _) H1), (proj2 (Z.ltb_lt _ _) H2).
Qed.

#[export] Hint Resolve wrap_u_range wrap_u_small checked_i_ok : netft.

(** ** Bytes *)

Definition byte_val (b : byte) : Z := Z.of_N (Byte.to_N b).

(** [static_cast<std::uint8_t>]: the low eight bits. *)
Definition byte_of_Z (z : Z) : byte :=
  default x00 (Byte.of_N (Z.to_N (wrap_u 8 z))).

Lemma byte_val_range b : 0 ≤ byte_val b < 256.
Proof. unfold byte_val. pose proof (Byte.to_N_bounded b). lia. Qed.

Lemma byte_val_of_Z z : byte_val (byte_of_Z z) = wrap_u 8 z.
Proof.
  unfold byte_val, byte_of_Z.
  assert (H : 0 ≤ wrap_u 8 z < 256) by (apply (wrap_u_range 8); lia).
  destruct (Byte.of_N (Z.to_N (wrap_u 8 z))) as [b|] eqn:E; simpl.
  - apply Byte.to_of_N in E. lia.
  - apply Byte.of_N_None_iff in E. lia.
Qed.

Lemma byte_of_Z_val b : byte_of_Z (byte_val b) = b.
Proof.
  unfold byte_of_Z. rewrite wrap_u_small by apply byte_val_range.
  unfold byte_val. by rewrite N2Z.id, Byte.of_to_N.
Qed.

#[export] Hint Resolve byte_val_range : netft.

(** ** Strings *)

(** [std::string::c_str] as a C string: what precedes the first NUL. *)
Fixpoint c_str (s : string) : string :=
  match s with
  | EmptyString => EmptyString
  | String c rest => if Ascii.eqb c zero then EmptyString else String c (c_str rest)
  end.

(** ** Bit operations on disjoint ranges are additions *)

Lemma lor_shiftl_add a b k :
  0 ≤ k → 0 ≤ b < 2 ^ k → Z.lor (Z.shiftl a k) b = a * 2 ^ k + b.
Proof.
  intros Hk Hb. rewrite <-Z.shiftl_mul_pow2 by done.
  rewrite <-Z.add_lor_land.
  assert (Z.land (Z.shiftl a k) b = 0) as ->; [|lia].
  apply Z.bits_inj'. intros i Hi. rewrite Z.land_spec, Z.bits_0.
  destruct (decide (i < k)).
  - by rewrite Z.shiftl_spec_low.
  - replace b with (b mod 2 ^ k) by (by apply Z.mod_small).
    rewrite (Z.mod_pow2_bits_high b k i) by lia. apply andb_false_r.
Qed.

Lemma shiftr_div a k : 0 ≤ k → Z.shiftr a k = a / 2 ^ k.
Proof. intros. by apply Z.shiftr_div_pow2. Qed.

(** ** Lists *)

(** The last [n] elements. *)
Definition lastn {A} (n : nat) (l : list A) : list A := drop (length l - n) l.

Lemma lastn_all {A} n (l : list A) : (length l ≤ n)%nat → lastn n l = l.
Proof. intros. unfold lastn. by replace (length l - n)%nat with 0%nat by lia. Qed.

Lemma length_lastn {A} n (l : list A) : length (lastn n l) = Nat.min n (length l).
Proof. unfold lastn. rewrite length_drop. lia. Qed.

Lemma Forall_snoc {A} (Q : A → Prop) l x : Forall Q l → Q x → Forall Q (l ++ [x]).
Proof. intros. apply Forall_app_2; [done|]. by constructor. Qed.

(** ** Field updates of records

    [r <| f := v |>] is the struct assignment [r.f = v]. A record type gives its
    eta-expansion once, as an [Eta] instance; the setter of a field is found by
    abstracting the field's projection in it. *)

Class Eta (R : Type) := eta_expand : R → R.
Class Setter {R E : Type} (getter : R → E) := update_field : (E → E) → R → R.
Arguments update_field {R E} getter {_} f r /.

Ltac find_setter getter :=
  let f := fresh "f" in
  let r := fresh "r" in
  intros f r;
  let R := type of r in
  let inst := constr:(_ : Eta R) in
  let inst := eval hnf in inst in
  let body := eval cbv beta in (inst r) in
  let ctx := eval pattern (getter r) in body in
  lazymatch ctx with
  | ?h _ => let t := eval cbv beta in (h (f (getter r))) in exact t
  end.

#[export] Hint Extern 1 (Setter ?getter) => find_setter getter : typeclass_instances.

Notation "r <| g := v |>" := (update_field g (λ _, v) r)
  (at level 1, left associativity, g at level 9, v at level 99) : netft_scope.
Notation "r <| g ::= f |>" := (update_field g f r)
  (at level 1, left associativity, g at level 9, f at level 99) : netft_scope.
Open Scope netft_scope.

(** ** Tactics *)

(** Inverts the monadic hypotheses [m ≫= f = Ok _] of the context. *)
Ltac res_inv :=
  repeat match goal with
  | H : mbind _ _ = Ok _ |- _ => apply bind_Ok_inv in H as (?&?&?)
  | H : Ok _ = Ok _ |- _ => injection H as H
  | H : Throw _ = Ok _ |- _ => discriminate H
  | H : throw _ _ = Ok _ |- _ => discriminate H
  | H : UB = Ok _ |- _ => discriminate H
  end; simplify_eq/=.

(** Linear arithmetic with division and modulo by constants. *)
Ltac mod_lia := Z.to_euclidean_division_equations; lia.

(** Case analysis on the conditionals and matches of the goal. *)
Ltac split_ifs := repeat (case_match; simplify_eq/=; try done).
