(* ===== verification/Effects.v ===== *)
(** * Effectful code: state, exceptions and unbounded loops

    A C++ method is a computation [M S A] over the state [S] it mutates. A throw
    keeps the mutations made so far, as in C++. [None] is running out of the fuel
    of a loop: theorems about results come with theorems that enough fuel exists. *)

From Stdlib Require Import ZArith Lia.
From S2P Require Import Prelude.

Definition M (S A : Type) : Type := S → option (Res A * S).

#[export] Instance M_ret {S} : MRet (M S) := λ A a s, Some (Ok a, s).
#[export] Instance M_bind {S} : MBind (M S) := λ A B f m s,
  match m s with
  | Some (Ok a, s') => f a s'
  | Some (Throw e, s') => Some (Throw e, s')
  | Some (UB, s') => Some (UB, s')
  | None => None
  end.

Definition get {S} : M S S := λ s, Some (Ok s, s).
Definition modify {S} (f : S → S) : M S () := λ s, Some (Ok (), f s).
Definition lift {S A} (r : Res A) : M S A := λ s, Some (r, s).
Definition m_throw {S A} (k : exn_class) (msg : string) : M S A := lift (throw k msg).
Definition out_of_fuel {S A} : M S A := λ _, None.

(** [try { m } catch] of the classes satisfying [p]. *)
Definition m_catch {S A} (p : exn_class → bool) (m : M S A) (h : exn → M S A) : M S A := λ s,
  match m s with
  | Some (Throw e, s') => if p (exn_kind e) then h e s' else Some (Throw e, s')
  | r => r
  end.

(** [catch (const std::exception &)] and [catch (...)]. *)
Definition std_exception (k : exn_class) : bool := negb (bool_decide (k = non_std)).
Definition any_exception (k : exn_class) : bool := true.

(** Running a computation on a component of the state. *)
Definition on_field {S T A} (proj : S → T) (inj : T → S → S) (m : M T A) : M S A := λ s,
  match m (proj s) with
  | Some (r, t) => Some (r, inj t s)
  | None => None
  end.

(** ** Partial and total correctness *)

(** Every result of [m] from [s] satisfies [Q]. *)
Definition safe {S A} (m : M S A) (s : S) (Q : Res A → S → Prop) : Prop :=
  match m s with Some (r, s') => Q r s' | None => True end.

(** [m] returns from [s], and its result satisfies [Q]. *)
Definition returns {S A} (m : M S A) (s : S) (Q : Res A → S → Prop) : Prop :=
  match m s with Some (r, s') => Q r s' | None => False end.

Section rules.
Context {S : Type}.
Implicit Types s : S.

Lemma returns_safe {A} (m : M S A) s Q : returns m s Q → safe m s Q.
Proof. unfold returns, safe. by destruct (m s) as [[r s']|]. Qed.

Lemma safe_mono {A} (m : M S A) s (Q R : Res A → S → Prop) :
  safe m s Q → (∀ r s', Q r s' → R r s') → safe m s R.
Proof. unfold safe. destruct (m s) as [[r s']|]; auto. Qed.

Lemma returns_mono {A} (m : M S A) s (Q R : Res A → S → Prop) :
  returns m s Q → (∀ r s', Q r s' → R r s') → returns m s R.
Proof. unfold returns. destruct (m s) as [[r s']|]; auto. Qed.

Lemma returns_and_safe {A} (m : M S A) s (Q R : Res A → S → Prop) :
  returns m s Q → safe m s R → returns m s (λ r s', Q r s' ∧ R r s').
Proof. unfold returns, safe. destruct (m s) as [[r s']|]; auto. Qed.

Lemma safe_bind {A B} (m : M S A) (f : A → M S B) s Q :
  safe m s (λ (r : Res A) s', match r with
                    | Ok a => safe (f a) s' Q
                    | Throw e => Q (Throw e) s'
                    | UB => Q UB s'
                    end) → safe (m ≫= f) s Q.
Proof.
  unfold safe, mbind, M_bind. destruct (m s) as [[[a|e|] s']|]; auto.
Qed.

Lemma returns_bind {A B} (m : M S A) (f : A → M S B) s Q :
  returns m s (λ (r : Res A) s', match r with
                       | Ok a => returns (f a) s' Q
                       | Throw e => Q (Throw e) s'
                       | UB => Q UB s'
                       end) → returns (m ≫= f) s Q.
Proof.
  unfold returns, mbind, M_bind. destruct (m s) as [[[a|e|] s']|]; auto.
Qed.

Lemma safe_catch {A} (p : exn_class → bool) (m : M S A) (h : exn → M S A) s Q :
  safe m s (λ (r : Res A) s', match r with
                    | Throw e => if p (exn_kind e) then safe (h e) s' Q else Q (Throw e) s'
                    | r => Q r s'
                    end) → safe (m_catch p m h) s Q.
Proof.
  unfold safe, m_catch. destruct (m s) as [[[a|e|] s']|]; auto. by destruct (p (exn_kind e)).
Qed.

Lemma returns_catch {A} (p : exn_class → bool) (m : M S A) (h : exn → M S A) s Q :
  returns m s (λ (r : Res A) s', match r with
                       | Throw e => if p (exn_kind e) then returns (h e) s' Q else Q (Throw e) s'
                       | r => Q r s'
                       end) → returns (m_catch p m h) s Q.
Proof.
  unfold returns, m_catch. destruct (m s) as [[[a|e|] s']|]; auto. by destruct (p (exn_kind e)).
Qed.

Lemma returns_get s (Q : Res S → S → Prop) : Q (Ok s) s → returns get s Q.
Proof. done. Qed.
Lemma returns_modify f s (Q : Res () → S → Prop) : Q (Ok ()) (f s) → returns (modify f) s Q.
Proof. done. Qed.
Lemma returns_lift {A} (r : Res A) s Q : Q r s → returns (lift r) s Q.
Proof. done. Qed.
Lemma returns_ret {A} (a : A) s (Q : Res A → S → Prop) : Q (Ok a) s → returns (mret a) s Q.
Proof. done. Qed.
End rules.

(** Partial or total correctness, for lemmas that hold of both. *)
Definition exec (total : bool) {S A} (m : M S A) (s : S) (Q : Res A → S → Prop) : Prop :=
  match m s with Some (r, s') => Q r s' | None => total = false end.

Section exec.
Context {S : Type} (total : bool).
Implicit Types s : S.

Lemma exec_returns {A} (m : M S A) s Q : returns m s Q → exec total m s Q.
Proof. unfold returns, exec. by destruct (m s) as [[r s']|]. Qed.

Lemma exec_safe {A} (m : M S A) s Q : exec false m s Q → safe m s Q.
Proof. unfold safe, exec. by destruct (m s) as [[r s']|]. Qed.

Lemma exec_total {A} (m : M S A) s Q : exec true m s Q → returns m s Q.
Proof. unfold returns, exec. by destruct (m s) as [[r s']|]. Qed.

Lemma exec_mono {A} (m : M S A) s (Q R : Res A → S → Prop) :
  exec total m s Q → (∀ r s', Q r s' → R r s') → exec total m s R.
Proof. unfold exec. destruct (m s) as [[r s']|]; auto. Qed.

(** What is shown of an outcome may use that it is the outcome. *)
Lemma exec_eqn {A} (m : M S A) s (Q R : Res A → S → Prop) :
  exec total m s Q → (∀ r s', m s = Some (r, s') → Q r s' → R r s') → exec total m s R.
Proof. unfold exec. destruct (m s) as [[r s']|]; auto. Qed.

Lemma exec_bind {A B} (m : M S A) (f : A → M S B) s Q :
  exec total m s (λ (r : Res A) s',
    match r with
    | Ok a => exec total (f a) s' Q
    | Throw e => Q (Throw e) s'
    | UB => Q UB s'
    end) → exec total (m ≫= f) s Q.
Proof. unfold exec, mbind, M_bind. destruct (m s) as [[[a|e|] s']|]; auto. Qed.

Lemma exec_catch {A} (p : exn_class → bool) (m : M S A) (h : exn → M S A) s Q :
  exec total m s (λ (r : Res A) s',
    match r with
    | Throw e => if p (exn_kind e) then exec total (h e) s' Q else Q (Throw e) s'
    | r => Q r s'
    end) → exec total (m_catch p m h) s Q.
Proof.
  unfold exec, m_catch. destruct (m s) as [[[a|e|] s']|]; auto. by destruct (p (exn_kind e)).
Qed.
End exec.

(** Runs the straight-line prefix of a computation of the goal. *)
Ltac m_step :=
  lazymatch goal with
  | |- returns (mbind _ _) _ _ => apply returns_bind
  | |- returns (m_catch _ _ _) _ _ => apply returns_catch
  | |- returns get _ _ => apply returns_get; cbv beta iota
  | |- returns (modify _) _ _ => apply returns_modify; cbv beta iota
  | |- returns (lift _) _ _ => apply returns_lift; cbv beta iota
  | |- returns (m_throw _ _) _ _ => apply returns_lift; unfold throw; cbv beta iota
  | |- returns (mret _) _ _ => apply returns_ret; cbv beta iota
  | |- safe (mbind _ _) _ _ => apply safe_bind
  | |- safe (m_catch _ _ _) _ _ => apply safe_catch
  | |- safe get _ _ => apply returns_safe, returns_get; cbv beta iota
  | |- safe (modify _) _ _ => apply returns_safe, returns_modify; cbv beta iota
  | |- safe (lift _) _ _ => apply returns_safe, returns_lift; cbv beta iota
  | |- safe (m_throw _ _) _ _ => apply returns_safe, returns_lift; unfold throw; cbv beta iota
  | |- safe (mret _) _ _ => apply returns_safe, returns_ret; cbv beta iota
  end.

(** Case analysis on the first conditional of the running computation. *)
Ltac branch :=
  match goal with
  | |- returns (if ?b then _ else _) _ _ => destruct b eqn:?
  | |- safe (if ?b then _ else _) _ _ => destruct b eqn:?
  end.
