(* ===== verification/Floats.v ===== *)
(** * C++ floating point

    [double] is IEEE binary64 and [long double] one of the three formats the
    supported platforms give it; both are the standard library's [spec_float]
    with round-to-nearest-even operations, so every definition computes. The
    lemmas bound mantissas and exponents of rounded results with integer
    arithmetic only; they carry the no-overflow theorems of the components. *)

From Stdlib Require Import ZArith Lia.
From Corelib Require Import SpecFloat.
From S2P Require Import Prelude.

Module Fp.

Abbreviation double := spec_float.

#[export] Instance spec_float_eq_dec : EqDecision spec_float.
Proof. solve_decision. Defined.

(** ** Operations of [double] *)

Definition d_mul : double → double → double := SFmul 53 1024.
Definition d_div : double → double → double := SFdiv 53 1024.
Definition d_add : double → double → double := SFadd 53 1024.
Definition d_sub : double → double → double := SFsub 53 1024.
Definition d_lt : double → double → bool := SFltb.
Definition d_le : double → double → bool := SFleb.
Definition d_eq : double → double → bool := SFeqb.

(** Conversion of an integer, rounded to nearest. *)
Definition d_of_Z (z : Z) : double := binary_normalize 53 1024 z 0 false.

(** [m * 2 ^ e] for literals. *)
Definition d_lit (m e : Z) : double := binary_normalize 53 1024 m e false.

(** A literal [n / d], the decimal literals of the sources. *)
Definition d_ratio (n d : Z) : double := d_div (d_of_Z n) (d_of_Z d).

Definition d_max : double := SFmax_float 53 1024.
Definition d_epsilon : double := d_lit 1 (-52).

Definition isfinite (x : spec_float) : bool :=
  match x with S754_zero _ | S754_finite _ _ _ => true | _ => false end.

(** The type invariant of [double]: a canonical representation. *)
Definition d_valid (x : double) : Prop := valid_binary 53 1024 x = true.

#[export] Instance d_valid_dec x : Decision (d_valid x).
Proof. unfold d_valid. apply _. Defined.

(** [std::min] and [std::max] on [double]. *)
Definition d_min (a b : double) : double := if d_lt b a then b else a.
Definition d_max2 (a b : double) : double := if d_lt a b then b else a.

(** ** [long double]: x87 extended on x86-64 Linux and macOS, binary128 on
    AArch64 Linux, binary64 on Windows and on Apple silicon *)

Inductive ld_format := LdBinary64 | LdExtended | LdBinary128.

Definition ld_prec (f : ld_format) : Z :=
  match f with LdBinary64 => 53 | LdExtended => 64 | LdBinary128 => 113 end.
Definition ld_emax (f : ld_format) : Z :=
  match f with LdBinary64 => 1024 | LdExtended | LdBinary128 => 16384 end.

Definition l_mul (f : ld_format) : spec_float → spec_float → spec_float :=
  SFmul (ld_prec f) (ld_emax f).
Definition l_div (f : ld_format) : spec_float → spec_float → spec_float :=
  SFdiv (ld_prec f) (ld_emax f).
Definition l_of_Z (f : ld_format) (z : Z) : spec_float :=
  binary_normalize (ld_prec f) (ld_emax f) z 0 false.

(** [static_cast<long double>] of a [double]. *)
Definition l_of_double (f : ld_format) (x : double) : spec_float :=
  match x with
  | S754_finite s m e => binary_normalize (ld_prec f) (ld_emax f) (cond_Zopp s (Zpos m)) e s
  | _ => x
  end.

(** ** Integral parts *)

(** Truncation towards zero of a finite value; [None] for infinities and NaN. *)
Definition sf_trunc (x : spec_float) : option Z :=
  match x with
  | S754_zero _ => Some 0
  | S754_finite s m e => Some (cond_Zopp s (Z.shiftl (Zpos m) e))
  | _ => None
  end.

(** Least integer not below a finite value. *)
Definition sf_ceil_Z (x : spec_float) : option Z :=
  match x with
  | S754_zero _ => Some 0
  | S754_finite false m e =>
    Some (if 0 <=? e then Zpos m * 2 ^ e else - (- Zpos m / 2 ^ (- e)))
  | S754_finite true m e =>
    Some (if 0 <=? e then - Zpos m * 2 ^ e else - (Zpos m / 2 ^ (- e)))
  | _ => None
  end.

(** [std::ceil] in the format [(prec, emax)]. *)
Definition sf_ceil (prec emax : Z) (x : spec_float) : spec_float :=
  match x with
  | S754_finite s _ _ =>
    match sf_ceil_Z x with
    | Some z => binary_normalize prec emax z 0 s
    | None => x
    end
  | _ => x
  end.

(** A floating-integral conversion to a signed [w]-bit type: undefined when the
    truncated value does not fit. *)
Definition sf_to_i (w : Z) (x : spec_float) : Res Z :=
  match sf_trunc x with Some z => checked_i w z | None => UB end.

(** ** Digits *)

Lemma digits2_pos_bounds m :
  2 ^ (Zpos (digits2_pos m) - 1) ≤ Zpos m < 2 ^ Zpos (digits2_pos m).
Proof.
  induction m as [m IH|m IH|]; cbn [digits2_pos]; [| |vm_compute; intuition congruence].
  all: rewrite Pos2Z.inj_succ.
  all: replace (Z.succ (Zpos (digits2_pos m)) - 1) with (Z.succ (Zpos (digits2_pos m) - 1)) by lia.
  all: rewrite !Z.pow_succ_r by lia; lia.
Qed.

Lemma Zdigits2_upper m : 0 ≤ m → m < 2 ^ Zdigits2 m.
Proof. destruct m; simpl; intros; [lia|apply digits2_pos_bounds|lia]. Qed.

Lemma Zdigits2_nonneg m : 0 ≤ Zdigits2 m.
Proof. destruct m; simpl; lia. Qed.

Lemma Zdigits2_lower m : 0 < m → 2 ^ (Zdigits2 m - 1) ≤ m.
Proof. destruct m; simpl; intros; [lia|apply digits2_pos_bounds|lia]. Qed.

Lemma Zdigits2_le m k : 0 ≤ k → 0 ≤ m < 2 ^ k → Zdigits2 m ≤ k.
Proof.
  intros Hk [H0 H]. destruct (decide (m = 0)) as [->|]; [done|].
  pose proof (Zdigits2_lower m). 
  assert (Zdigits2 m - 1 < k); [|lia].
  apply (Z.pow_lt_mono_r_iff 2); lia.
Qed.

Lemma Zdigits2_gt m k : 0 ≤ k → 2 ^ k ≤ m → k < Zdigits2 m.
Proof.
  intros Hk H. assert (0 < 2 ^ k) by lia. pose proof (Zdigits2_upper m).
  apply (Z.pow_lt_mono_r_iff 2); [lia|apply Zdigits2_nonneg|lia].
Qed.

(** ** Comparisons of positive finite values *)

Lemma SFltb_pos_false m e M E :
  SFltb (S754_finite false m e) (S754_finite false M E) = false →
  E < e ∨ (e = E ∧ Zpos M ≤ Zpos m).
Proof.
  unfold SFltb, SFcompare. destruct (Z.compare_spec e E) as [->| |]; [|done|lia].
  change (Pos.compare_cont Eq m M) with (m ?= M)%positive.
  destruct (Pos.compare_spec m M); intros; try done; right; lia.
Qed.

Lemma SFleb_pos_false m e M E :
  SFleb (S754_finite false M E) (S754_finite false m e) = false →
  e < E ∨ (e = E ∧ Zpos m < Zpos M).
Proof.
  unfold SFleb, SFcompare. destruct (Z.compare_spec E e) as [->| |]; [|done|lia].
  change (Pos.compare_cont Eq M m) with (M ?= m)%positive.
  destruct (Pos.compare_spec M m); intros; try done; right; lia.
Qed.

Lemma shiftl_mono m e k : 0 ≤ m → e ≤ k → Z.shiftl m e ≤ Z.shiftl m k.
Proof.
  intros Hm He. destruct (decide (0 ≤ e)).
  - rewrite !Z.shiftl_mul_pow2 by lia. apply Z.mul_le_mono_nonneg_l; [done|].
    apply Z.pow_le_mono_r; lia.
  - replace e with (- - e) by lia. rewrite Z.shiftl_opp_r, Z.shiftr_div_pow2 by lia.
    destruct (decide (0 ≤ k)).
    + rewrite Z.shiftl_mul_pow2 by lia.
      apply Z.div_le_upper_bound; [lia|].
      assert (1 ≤ 2 ^ (- e) * 2 ^ k); [|nia].
      rewrite <-Z.pow_add_r by lia. lia.
    + replace k with (- - k) by lia. rewrite Z.shiftl_opp_r, Z.shiftr_div_pow2 by lia.
      replace (- e) with (- k + (k - e)) by lia. rewrite Z.pow_add_r, <-Z.div_div by lia.
      apply Z.div_le_upper_bound; [lia|].
      assert (0 ≤ m / 2 ^ (- k)) by (apply Z.div_pos; lia).
      assert (1 ≤ 2 ^ (k - e)) by lia. nia.
Qed.

(** Truncations of two floats, the second with all [prec] digits, compare like the
    floats. *)
Lemma shiftl_below prec m e p E :
  0 < prec → Zpos m < 2 ^ prec → 2 ^ (prec - 1) ≤ Zpos p →
  e < E ∨ (e = E ∧ Zpos m < Zpos p) →
  Z.shiftl (Zpos m) e ≤ Z.shiftl (Zpos p) E ∧
  (0 ≤ E → Z.shiftl (Zpos m) e < Z.shiftl (Zpos p) E).
Proof.
  intros Hprec Hm Hp [He|[-> Hlt]].
  - assert (H : Zpos m < 2 * Zpos p).
    { replace prec with (Z.succ (prec - 1)) in Hm by lia. rewrite Z.pow_succ_r in Hm; lia. }
    assert (H1 : Z.shiftl (Zpos m) e ≤ Z.shiftl (Zpos m) (E - 1)) by (apply shiftl_mono; lia).
    destruct (decide (1 ≤ E)) as [HE|HE].
    + rewrite (Z.shiftl_mul_pow2 _ (E - 1)) in H1 by lia.
      assert (Z.shiftl (Zpos p) E = 2 * Zpos p * 2 ^ (E - 1)) as HpE.
      { rewrite Z.shiftl_mul_pow2 by lia. rewrite <-Z.mul_assoc, (Z.mul_comm 2), <-Z.mul_assoc.
        f_equal. rewrite Z.mul_comm, <-Z.pow_succ_r by lia. f_equal. lia. }
      assert (Zpos m * 2 ^ (E - 1) < 2 * Zpos p * 2 ^ (E - 1)) by (apply Z.mul_lt_mono_pos_r; lia).
      lia.
    + replace (E - 1) with (- (1 - E)) in H1 by lia.
      rewrite Z.shiftl_opp_r, Z.shiftr_div_pow2 in H1 by lia.
      assert (H2 : Zpos m / 2 ^ (1 - E) ≤ Z.shiftl (Zpos p) E).
      { replace E with (- - E) at 2 by lia. rewrite Z.shiftl_opp_r, Z.shiftr_div_pow2 by lia.
        replace (1 - E) with (Z.succ (- E)) by lia. rewrite Z.pow_succ_r by lia.
        rewrite <-Z.div_div by lia. apply Z.div_le_mono; [lia|]. mod_lia. }
      split; [lia|]. intros HE0. assert (E = 0) as -> by lia.
      rewrite Z.shiftl_0_r in *. change (2 ^ (1 - 0)) with 2 in H1. mod_lia.
  - destruct (decide (0 ≤ E)).
    + rewrite !Z.shiftl_mul_pow2 by lia.
      assert (Zpos m * 2 ^ E < Zpos p * 2 ^ E) by (apply Z.mul_lt_mono_pos_r; lia). lia.
    + split; [|lia]. replace E with (- - E) by lia.
      rewrite !Z.shiftl_opp_r, !Z.shiftr_div_pow2 by lia. apply Z.div_le_mono; lia.
Qed.

(** A nonnegative value below a positive bound with all [prec] digits truncates to
    an integer not above the bound's truncation. *)
Lemma trunc_under prec x p E :
  0 < prec → isfinite x = true → SFltb x (S754_zero false) = false →
  SFleb (S754_finite false p E) x = false → 2 ^ (prec - 1) ≤ Zpos p →
  (∀ s m e, x = S754_finite s m e → Zpos m < 2 ^ prec) →
  ∃ z, sf_trunc x = Some z ∧ 0 ≤ z ≤ Z.shiftl (Zpos p) E.
Proof.
  intros Hprec Hf H0 Hmax Hp Hd.
  assert (0 ≤ Z.shiftl (Zpos p) E) by (by apply Z.shiftl_nonneg).
  destruct x as [s|s| |[] m e]; [by exists 0|done..|].
  specialize (Hd false m e eq_refl). eexists. split; [done|]. cbn [cond_Zopp].
  split; [by apply Z.shiftl_nonneg|]. apply SFleb_pos_false in Hmax.
  by destruct (shiftl_below prec m e p E).
Qed.

(** ** Right shifts with sticky bits *)

Lemma shr_1_m mrs : 0 ≤ shr_m mrs → shr_m (shr_1 mrs) = shr_m mrs / 2.
Proof.
  destruct mrs as [m r s]. destruct m as [|[p|p|]|]; simpl; intros; mod_lia.
Qed.

Lemma iter_shr_1_m p mrs :
  0 ≤ shr_m mrs → shr_m (SpecFloat.iter_pos shr_1 p mrs) = shr_m mrs / 2 ^ Zpos p.
Proof.
  revert mrs. induction p as [p IH|p IH|]; intros mrs H; cbn [SpecFloat.iter_pos].
  - assert (0 ≤ shr_m (shr_1 mrs)) by (rewrite shr_1_m by done; apply Z.div_pos; lia).
    rewrite IH; [|rewrite IH by done; apply Z.div_pos; lia].
    rewrite IH, shr_1_m, !Z.div_div by lia. f_equal.
    rewrite <-!Z.pow_add_r, <-Z.pow_succ_r by lia. f_equal. lia.
  - rewrite IH; [|rewrite IH by done; apply Z.div_pos; lia].
    rewrite IH, Z.div_div by lia. f_equal. rewrite <-Z.pow_add_r by lia. f_equal. lia.
  - by apply shr_1_m.
Qed.

Lemma shr_m_of_loc m l : shr_m (shr_record_of_loc m l) = m.
Proof. by destruct l as [|[]]. Qed.

Lemma shr_spec mrs e n :
  0 ≤ shr_m mrs →
  shr_m (fst (shr mrs e n)) = shr_m mrs / 2 ^ Z.max 0 n ∧
  snd (shr mrs e n) = e + Z.max 0 n.
Proof.
  intros H. destruct n; cbn [shr fst snd Z.max Z.compare].
  - rewrite Z.div_1_r. lia.
  - by rewrite iter_shr_1_m.
  - rewrite Z.div_1_r. lia.
Qed.

Lemma round_nearest_even_bounds m l :
  m ≤ round_nearest_even m l ≤ m + 1.
Proof. destruct l as [|[]]; simpl; try case_match; lia. Qed.

(** The quotient computed by a division, with exponents made nonnegative. *)
Lemma SFdiv_core_quotient prec emax m1 e1 m2 e2 q e' l :
  0 < m1 → 0 < m2 → SFdiv_core_binary prec emax m1 e1 m2 e2 = (q, e', l) →
  e' = Z.min (fexp prec emax (Zdigits2 m1 + e1 - (Zdigits2 m2 + e2))) (e1 - e2) ∧
  q = m1 * 2 ^ (e1 - e2 - e') / m2.
Proof.
  intros H1 H2. unfold SFdiv_core_binary.
  set (e := Z.min _ _). set (m' := match _ with Z0 => m1 | _ => _ end).
  assert (Hm : m' = m1 * 2 ^ (e1 - e2 - e)).
  { unfold m'. destruct (e1 - e2 - e) eqn:E; [lia| |unfold e in E; lia].
    rewrite Z.shiftl_mul_pow2; lia. }
  destruct (Z.div_eucl m' m2) as [q' r'] eqn:D. intros E. simplify_eq.
  split; [done|]. rewrite <-Hm. unfold Z.div. by rewrite D.
Qed.

(** ** Rounding, for any format *)

Section rounding.
Context (prec emax : Z) (Hprec : 1 < prec) (Hemax : prec < emax).

Lemma shr_fexp_spec m e l :
  0 ≤ m →
  let k := Z.max 0 (fexp prec emax (Zdigits2 m + e) - e) in
  shr_m (fst (shr_fexp prec emax m e l)) = m / 2 ^ k ∧
  snd (shr_fexp prec emax m e l) = e + k.
Proof.
  intros H k. unfold shr_fexp.
  destruct (shr_spec (shr_record_of_loc m l) e
    (fexp prec emax (Zdigits2 m + e) - e)) as [-> ->]; rewrite ?shr_m_of_loc; done.
Qed.

Lemma shr_fexp_lt m e l :
  0 ≤ m →
  0 ≤ shr_m (fst (shr_fexp prec emax m e l)) < 2 ^ prec ∧
  emin prec emax ≤ snd (shr_fexp prec emax m e l).
Proof.
  intros H. destruct (shr_fexp_spec m e l H) as [-> ->].
  set (k := Z.max 0 (fexp prec emax (Zdigits2 m + e) - e)).
  assert (Zdigits2 m ≤ k + prec) by (unfold k, fexp; lia).
  split; [|unfold k, fexp; lia].
  split; [apply Z.div_pos; lia|]. apply Z.div_lt_upper_bound; [lia|].
  rewrite <-Z.pow_add_r by lia.
  eapply Z.lt_le_trans; [by apply Zdigits2_upper|]. apply Z.pow_le_mono_r; lia.
Qed.

(** No shift is needed for a mantissa of at most [prec] digits. *)
Lemma shr_fexp_id m e :
  0 ≤ m < 2 ^ prec → emin prec emax ≤ e →
  shr_m (fst (shr_fexp prec emax m e loc_Exact)) = m ∧
  snd (shr_fexp prec emax m e loc_Exact) = e.
Proof.
  intros H He. destruct (shr_fexp_spec m e loc_Exact) as [-> ->]; [lia|].
  assert (Zdigits2 m ≤ prec) by (apply Zdigits2_le; lia).
  replace (Z.max 0 (fexp prec emax (Zdigits2 m + e) - e)) with 0 by (unfold fexp; lia).
  rewrite Z.div_1_r. lia.
Qed.

Lemma Zdigits2_pow2 k : 0 ≤ k → Zdigits2 (2 ^ k) = k + 1.
Proof.
  intros Hk. pose proof (Zdigits2_gt (2 ^ k) k Hk).
  assert (Zdigits2 (2 ^ k) ≤ k + 1); [|lia].
  apply Zdigits2_le; [lia|]. rewrite Z.pow_add_r by lia. lia.
Qed.

Lemma shr_fexp_carry e :
  emin prec emax ≤ e →
  shr_m (fst (shr_fexp prec emax (2 ^ prec) e loc_Exact)) = 2 ^ (prec - 1) ∧
  snd (shr_fexp prec emax (2 ^ prec) e loc_Exact) = e + 1.
Proof.
  intros He. destruct (shr_fexp_spec (2 ^ prec) e loc_Exact) as [-> ->]; [lia|].
  rewrite Zdigits2_pow2 by lia.
  replace (Z.max 0 (fexp prec emax (prec + 1 + e) - e)) with 1 by (unfold fexp; lia).
  split; [|lia]. rewrite <-Z.pow_sub_r by lia. done.
Qed.

(** A finite or overflowed result of the given mantissa and exponent. *)
Definition pack (s : bool) (m e : Z) : spec_float :=
  match m with
  | Zpos p => if e <=? emax - prec then S754_finite s p e else S754_infinity s
  | Z0 => S754_zero s
  | Zneg _ => S754_nan
  end.

(** The result of rounding: the mantissa [m1] is the truncated quotient by a
    power of two, fits in [prec] digits, and is incremented at most once. *)
Lemma binary_round_aux_view s mx ex lx :
  0 ≤ mx →
  let k := Z.max 0 (fexp prec emax (Zdigits2 mx + ex) - ex) in
  let m1 := mx / 2 ^ k in
  ∃ m2, m1 ≤ m2 ≤ m1 + 1 ∧ 0 ≤ m1 < 2 ^ prec ∧ emin prec emax ≤ ex + k ∧
    binary_round_aux prec emax s mx ex lx =
      if decide (m2 = 2 ^ prec) then pack s (2 ^ (prec - 1)) (ex + k + 1)
      else pack s m2 (ex + k).
Proof.
  intros H k m1. unfold binary_round_aux.
  pose proof (shr_fexp_spec mx ex lx H) as [E1 E2].
  pose proof (shr_fexp_lt mx ex lx H) as [B1 B2].
  destruct (shr_fexp prec emax mx ex lx) as [mrs' e'] eqn:E. simpl in *.
  pose proof (round_nearest_even_bounds (shr_m mrs') (loc_of_shr_record mrs')) as B3.
  set (m2 := round_nearest_even (shr_m mrs') (loc_of_shr_record mrs')) in *.
  exists m2. fold k in E1, E2. fold m1 in E1. rewrite E1 in B1, B3. rewrite E2 in B2.
  split; [done|]. split; [done|]. split; [done|].
  rewrite E2 in *. case_decide as D.
  - rewrite D. destruct (shr_fexp_carry (ex + k) B2) as [F1 F2].
    destruct (shr_fexp prec emax (2 ^ prec) (ex + k) loc_Exact) as [mrs'' e''].
    simpl in *. by rewrite F1, F2.
  - destruct (shr_fexp_id m2 (ex + k)) as [F1 F2]; [lia|done|].
    destruct (shr_fexp prec emax m2 (ex + k) loc_Exact) as [mrs'' e''].
    simpl in *. by rewrite F1, F2.
Qed.

Lemma pack_digits s m e s' p e' :
  0 ≤ m < 2 ^ prec → pack s m e = S754_finite s' p e' → Zpos p < 2 ^ prec ∧ s' = s.
Proof. unfold pack. intros. destruct m; simplify_eq. case_match; simplify_eq. split; [lia|done]. Qed.

(** A rounded finite result has at most [prec] digits and the requested sign. *)
Lemma binary_round_aux_digits s mx ex lx s' p e :
  0 ≤ mx → binary_round_aux prec emax s mx ex lx = S754_finite s' p e →
  Zpos p < 2 ^ prec ∧ s' = s.
Proof.
  intros H E. destruct (binary_round_aux_view s mx ex lx H) as (m2 & B & B1 & _ & V).
  rewrite V in E. case_decide.
  - eapply pack_digits; [|done]. split; [lia|]. apply Z.pow_lt_mono_r; lia.
  - eapply pack_digits; [|done]. lia.
Qed.

(** Rounding never makes a NaN. *)
Lemma binary_round_aux_not_nan s mx ex lx :
  0 ≤ mx → binary_round_aux prec emax s mx ex lx ≠ S754_nan.
Proof.
  intros H. destruct (binary_round_aux_view s mx ex lx H) as (m2 & B & B1 & _ & ->).
  assert (∀ m e, 0 ≤ m → pack s m e ≠ S754_nan).
  { intros m e Hm. unfold pack. destruct m; [done| |lia]. by case_match. }
  case_decide; auto with lia.
Qed.

(** No overflow: a value below the largest finite one rounds to a finite one. *)
Lemma binary_round_aux_finite s mx ex lx :
  0 ≤ mx → ex ≤ emax - prec → mx < (2 ^ prec - 1) * 2 ^ (emax - prec - ex) →
  isfinite (binary_round_aux prec emax s mx ex lx) = true.
Proof.
  intros H He Hlt. destruct (binary_round_aux_view s mx ex lx H) as (m2 & B & B1 & B2 & V).
  set (k := Z.max 0 (fexp prec emax (Zdigits2 mx + ex) - ex)) in *.
  assert (Hd : Zdigits2 mx ≤ emax - ex).
  { apply Zdigits2_le; [lia|]. split; [done|]. eapply Z.lt_trans; [exact Hlt|].
    replace (emax - ex) with (prec + (emax - prec - ex)) by lia.
    rewrite Z.pow_add_r by lia. apply Z.mul_lt_mono_pos_r; lia. }
  assert (Hk : ex + k ≤ emax - prec) by (unfold k, fexp, emin; lia).
  assert (Hfin : ∀ m e, 0 ≤ m → e ≤ emax - prec → isfinite (pack s m e) = true).
  { intros m e Hm Hme. unfold pack. destruct m; [done| |lia].
    by rewrite (proj2 (Z.leb_le _ _) Hme). }
  rewrite V. case_decide as D; [|apply Hfin; lia].
  apply Hfin; [lia|]. enough (ex + k ≠ emax - prec) by lia. intros Hek.
  assert (mx / 2 ^ k < 2 ^ prec - 1); [|lia].
  apply Z.div_lt_upper_bound; [lia|].
  replace k with (emax - prec - ex) by lia. lia.
Qed.

(** ** Canonical results *)

Lemma pack_valid s m e :
  0 ≤ m → (0 < m → fexp prec emax (Zdigits2 m + e) = e) →
  valid_binary prec emax (pack s m e) = true.
Proof.
  intros Hm Hc. unfold pack. destruct m as [|p|]; [done| |lia].
  destruct (e <=? emax - prec) eqn:He; [|done]. simpl. unfold bounded, canonical_mantissa.
  simpl in Hc. rewrite Hc by lia. by rewrite Z.eqb_refl, He.
Qed.

(** Rounding gives a canonical float when the input exponent is not above the
    one its digits call for. *)
Lemma binary_round_aux_valid s mx ex lx :
  0 ≤ mx → ex ≤ fexp prec emax (Zdigits2 mx + ex) →
  valid_binary prec emax (binary_round_aux prec emax s mx ex lx) = true.
Proof.
  intros H He. destruct (binary_round_aux_view s mx ex lx H) as (m2 & B & B1 & B2 & ->).
  rewrite Z.max_r in * by lia.
  replace (ex + (fexp prec emax (Zdigits2 mx + ex) - ex))
    with (fexp prec emax (Zdigits2 mx + ex)) in * by lia.
  set (e1 := fexp prec emax (Zdigits2 mx + ex)) in *.
  case_decide as D.
  { apply pack_valid; [lia|]. intros _. rewrite Zdigits2_pow2 by lia.
    unfold fexp. lia. }
  apply pack_valid; [lia|]. intros Hm2.
  assert (Hd2 : Zdigits2 m2 ≤ prec) by (apply Zdigits2_le; lia).
  destruct (decide (e1 = emin prec emax)) as [Ee|Ee]; [unfold fexp; lia|].
  assert (Hn : e1 = Zdigits2 mx + ex - prec) by (unfold e1, fexp in *; lia).
  enough (prec - 1 < Zdigits2 m2) by (unfold fexp; lia).
  apply Zdigits2_gt; [lia|].
  transitivity (mx / 2 ^ (e1 - ex)); [|lia].
  assert (0 < mx).
  { destruct (decide (mx = 0)) as [->|]; [|lia]. rewrite Z.div_0_l in B, B1 by lia.
    destruct (decide (0 < Zdigits2 0)); [done|]. unfold e1, fexp, emin in *. simpl in *. lia. }
  apply Z.div_le_lower_bound; [lia|]. rewrite <-Z.pow_add_r by lia.
  etransitivity; [|by apply Zdigits2_lower]. apply Z.pow_le_mono_r; lia.
Qed.

(** ** Exact results *)

Lemma binary_round_aux_exact s m e :
  0 ≤ m < 2 ^ prec → emin prec emax ≤ e →
  binary_round_aux prec emax s m e loc_Exact = pack s m e.
Proof.
  intros H He. unfold binary_round_aux.
  assert (Zdigits2 m ≤ prec) by (apply Zdigits2_le; lia).
  assert (Hk : fexp prec emax (Zdigits2 m + e) - e ≤ 0) by (unfold fexp; lia).
  assert (Hs : shr_fexp prec emax m e loc_Exact = (shr_record_of_loc m loc_Exact, e)).
  { unfold shr_fexp, shr. case_match; [done|lia|done]. }
  rewrite Hs. cbn [shr_record_of_loc loc_of_shr_record round_nearest_even shr_m].
  rewrite Hs. by destruct m.
Qed.

Lemma Pos_iter_xO m d : Zpos (Pos.iter xO m d) = Zpos m * 2 ^ Zpos d.
Proof.
  induction d as [|d IH] using Pos.peano_ind; [simpl; lia|].
  rewrite Pos.iter_succ, Pos2Z.inj_succ, Z.pow_succ_r by lia. lia.
Qed.

Lemma shl_align_spec m e e' :
  e' ≤ e → Zpos (fst (shl_align m e e')) = Zpos m * 2 ^ (e - e') ∧ snd (shl_align m e e') = e'.
Proof.
  intros H. unfold shl_align. destruct (e' - e) eqn:E; cbn [fst snd]; [|lia|].
  - replace (e - e') with 0 by lia. lia.
  - rewrite Pos_iter_xO. split; [|done]. do 2 f_equal. lia.
Qed.

(** A mantissa of at most [prec] digits is converted without rounding. *)
Lemma binary_round_exact s m e :
  Zpos (digits2_pos m) ≤ prec → emin prec emax ≤ e → Zpos (digits2_pos m) + e ≤ emax →
  ∃ p, let e' := fexp prec emax (Zpos (digits2_pos m) + e) in
    binary_round prec emax s m e = S754_finite s p e' ∧ e' ≤ e ∧
    Zpos p = Zpos m * 2 ^ (e - e').
Proof.
  intros Hd He Hm. set (e' := fexp prec emax (Zpos (digits2_pos m) + e)).
  assert (He' : e' ≤ e) by (unfold e', fexp; lia).
  unfold binary_round. fold e'.
  pose proof (shl_align_spec m e e' He') as [E1 E2].
  destruct (shl_align m e e') as [mz ez]. simpl in E1, E2. subst ez.
  exists mz. split; [|done]. rewrite binary_round_aux_exact; [| |unfold e', fexp; lia].
  - simpl. rewrite (proj2 (Z.leb_le _ _)); [done|]. unfold e', fexp, emin. lia.
  - split; [lia|]. rewrite E1. pose proof (digits2_pos_bounds m).
    apply Z.lt_le_trans with (2 ^ Zpos (digits2_pos m) * 2 ^ (e - e')).
    + apply Z.mul_lt_mono_pos_r; lia.
    + rewrite <-Z.pow_add_r by lia. apply Z.pow_le_mono_r; [lia|]. unfold e', fexp. lia.
Qed.

(** Digits of products, quotients and conversions. *)
Lemma SFmul_digits x y s p e :
  SFmul prec emax x y = S754_finite s p e → Zpos p < 2 ^ prec.
Proof.
  unfold SFmul. intros H. destruct x, y; simplify_eq.
  by apply binary_round_aux_digits in H as [? _].
Qed.

Lemma binary_normalize_digits z e sz s p e' :
  binary_normalize prec emax z e sz = S754_finite s p e' → Zpos p < 2 ^ prec.
Proof.
  unfold binary_normalize, binary_round. intros H. destruct z; [done| |];
    destruct (shl_align _ _ _); by apply binary_round_aux_digits in H as [? _].
Qed.

Lemma SFdiv_core_nonneg m1 e1 m2 e2 :
  0 < m1 → 0 < m2 → 0 ≤ fst (fst (SFdiv_core_binary prec emax m1 e1 m2 e2)).
Proof.
  intros H1 H2. unfold SFdiv_core_binary.
  set (m' := match _ with Z0 => m1 | _ => _ end).
  assert (0 ≤ m').
  { unfold m'. case_match; [lia| |lia]. apply Z.shiftl_nonneg. lia. }
  pose proof (Z.div_pos m' m2) as Hd. unfold Z.div in Hd.
  destruct (Z.div_eucl m' m2). simpl. lia.
Qed.

Lemma SFdiv_digits x y s p e :
  SFdiv prec emax x y = S754_finite s p e → Zpos p < 2 ^ prec.
Proof.
  unfold SFdiv. intros H. destruct x as [| | |sx mx ex], y as [| | |sy my ey]; simplify_eq.
  pose proof (SFdiv_core_nonneg (Zpos mx) ex (Zpos my) ey) as Hn.
  destruct (SFdiv_core_binary prec emax (Zpos mx) ex (Zpos my) ey) as [[q e'] l].
  apply binary_round_aux_digits in H as [? _]; [done|]. simpl in Hn. lia.
Qed.

(** ** Signs *)

(** Not NaN and not below zero. *)
Definition sf_nonneg (x : spec_float) : bool :=
  match x with
  | S754_zero _ => true
  | S754_infinity s => negb s
  | S754_finite s _ _ => negb s
  | S754_nan => false
  end.

Lemma binary_round_aux_nonneg mx ex lx :
  0 ≤ mx → sf_nonneg (binary_round_aux prec emax false mx ex lx) = true.
Proof.
  intros H. destruct (binary_round_aux_view false mx ex lx H) as (m2 & B & B1 & _ & ->).
  assert (∀ m e, 0 ≤ m → sf_nonneg (pack false m e) = true).
  { intros m e Hm. unfold pack. destruct m; [done| |lia]. by case_match. }
  case_decide; auto with lia.
Qed.

Lemma binary_normalize_nonneg z e s :
  0 ≤ z → sf_nonneg (binary_normalize prec emax z e s) = true.
Proof.
  intros. unfold binary_normalize, binary_round. destruct z; [done| |lia].
  destruct (shl_align _ _ _). by apply binary_round_aux_nonneg.
Qed.

Lemma SFmul_nonneg x y :
  isfinite x = true → isfinite y = true → sf_nonneg x = true → sf_nonneg y = true →
  sf_nonneg (SFmul prec emax x y) = true.
Proof.
  destruct x as [| | |[]], y as [| | |[]]; try done; intros.
  by apply binary_round_aux_nonneg.
Qed.

Lemma SFmul_nonneg_pos x m e :
  sf_nonneg x = true → sf_nonneg (SFmul prec emax x (S754_finite false m e)) = true.
Proof.
  destruct x as [|[]| |[]]; try done; intros. by apply binary_round_aux_nonneg.
Qed.

Lemma SFdiv_nonneg x m e :
  isfinite x = true → sf_nonneg x = true →
  sf_nonneg (SFdiv prec emax x (S754_finite false m e)) = true.
Proof.
  destruct x as [| | |[] mx ex]; try done; intros. simpl.
  pose proof (SFdiv_core_nonneg (Zpos mx) ex (Zpos m) e) as Hn.
  destruct (SFdiv_core_binary prec emax (Zpos mx) ex (Zpos m) e) as [[q e'] l].
  apply binary_round_aux_nonneg. simpl in Hn. lia.
Qed.

(** [std::ceil] keeps a nonnegative value nonnegative and rounds to the format. *)
Lemma sf_ceil_nonneg x : sf_nonneg x = true → sf_nonneg (sf_ceil prec emax x) = true.
Proof.
  destruct x as [| | |[] m e]; try done. intros _. unfold sf_ceil, sf_ceil_Z.
  apply binary_normalize_nonneg. destruct (Z.leb_spec 0 e); [lia|].
  pose proof (Z.div_le_upper_bound (- Zpos m) (2 ^ (- e)) 0). lia.
Qed.

Lemma sf_ceil_digits x s p e :
  sf_ceil prec emax x = S754_finite s p e → Zpos p < 2 ^ prec.
Proof.
  destruct x as [| | |[] m' e']; try done; unfold sf_ceil, sf_ceil_Z;
    apply binary_normalize_digits.
Qed.

Lemma binary_round_valid s m e : valid_binary prec emax (binary_round prec emax s m e) = true.
Proof.
  unfold binary_round. set (e' := fexp prec emax (Zpos (digits2_pos m) + e)).
  destruct (decide (e' ≤ e)) as [He|He].
  - pose proof (shl_align_spec m e e' He) as [E1 E2].
    destruct (shl_align m e e') as [mz ez]. simpl in E1, E2. subst ez.
    apply binary_round_aux_valid; [lia|].
    assert (Hd : Zpos (digits2_pos m) + (e - e') ≤ Zdigits2 (Zpos mz)).
    { pose proof (Zdigits2_gt (Zpos mz) (Zpos (digits2_pos m) - 1 + (e - e'))). 
      pose proof (digits2_pos_bounds m).
      enough (2 ^ (Zpos (digits2_pos m) - 1 + (e - e')) ≤ Zpos mz) by lia.
      rewrite E1, Z.pow_add_r by lia. apply Z.mul_le_mono_nonneg_r; lia. }
    unfold e', fexp in *. lia.
  - unfold shl_align. destruct (e' - e) eqn:E; [lia| |lia].
    apply binary_round_aux_valid; [lia|]. simpl Zdigits2. fold e'. lia.
Qed.

Lemma binary_normalize_valid z e s :
  valid_binary prec emax (binary_normalize prec emax z e s) = true.
Proof. destruct z; [done|apply binary_round_valid..]. Qed.

(** A quotient of canonical precision, for any two positive integers. *)
Lemma SFdiv_core_valid s m1 e1 m2 e2 q e' l :
  0 < m1 → 0 < m2 → SFdiv_core_binary prec emax m1 e1 m2 e2 = (q, e', l) →
  valid_binary prec emax (binary_round_aux prec emax s q e' l) = true.
Proof.
  intros H1 H2 E. pose proof (SFdiv_core_nonneg m1 e1 m2 e2 H1 H2) as Hq.
  rewrite E in Hq. simpl in Hq.
  apply SFdiv_core_quotient in E as [He ->]; [|done..].
  apply binary_round_aux_valid; [done|]. set (k := e1 - e2 - e') in *.
  pose proof (Zdigits2_lower m1 H1). pose proof (Zdigits2_upper m2 ltac:(lia)).
  pose proof (Zdigits2_nonneg m2).
  enough (Hd : Zdigits2 m1 + k - Zdigits2 m2 ≤ Zdigits2 (m1 * 2 ^ k / m2)) by (unfold fexp in *; lia).
  destruct (decide (Zdigits2 m1 + k - Zdigits2 m2 ≤ 0)) as [|Hpos].
  { pose proof (Zdigits2_nonneg (m1 * 2 ^ k / m2)). lia. }
  enough (Zdigits2 m1 + k - Zdigits2 m2 - 1 < Zdigits2 (m1 * 2 ^ k / m2)) by lia.
  apply Zdigits2_gt; [lia|]. apply Z.div_le_lower_bound; [lia|].
  assert (0 ≤ Zdigits2 m1 - 1) by (destruct m1; simpl; lia).
  transitivity (2 ^ (Zdigits2 m1 - 1) * 2 ^ k); [|apply Z.mul_le_mono_nonneg_r; lia].
  transitivity (2 ^ Zdigits2 m2 * 2 ^ (Zdigits2 m1 + k - Zdigits2 m2 - 1)).
  - apply Z.mul_le_mono_nonneg_r; lia.
  - rewrite <-!Z.pow_add_r by lia. apply Z.pow_le_mono_r; lia.
Qed.

End rounding.

(** Exact value of a converted integer of at most 53 bits: its mantissa has 53
    digits. *)
Lemma d_of_Z_exact z :
  0 < Z.abs z < 2 ^ 53 →
  ∃ p e, d_of_Z z = S754_finite (z <? 0) p e ∧ e = Zdigits2 z - 53 ∧
    Zpos p = Z.abs z * 2 ^ (- e).
Proof.
  intros H. unfold d_of_Z, binary_normalize.
  assert (Hd : Zdigits2 z = Zdigits2 (Z.abs z)) by (by destruct z).
  assert (Zdigits2 (Z.abs z) ≤ 53) by (apply Zdigits2_le; lia).
  destruct z as [|m|m]; [simpl in H; lia| |]; simpl Z.abs in *; simpl Zdigits2 in *.
  - destruct (binary_round_exact 53 1024 ltac:(lia) ltac:(lia) false m 0) as (p & E & _ & V);
      [lia|unfold emin; lia|lia|].
    assert (Hf : fexp 53 1024 (Zpos (digits2_pos m) + 0) = Zpos (digits2_pos m) - 53)
      by (unfold fexp, emin; lia).
    rewrite Hf in *. exists p. eexists. split; [exact E|]. split; [done|]. rewrite V. f_equal.
  - destruct (binary_round_exact 53 1024 ltac:(lia) ltac:(lia) true m 0) as (p & E & _ & V);
      [lia|unfold emin; lia|lia|].
    assert (Hf : fexp 53 1024 (Zpos (digits2_pos m) + 0) = Zpos (digits2_pos m) - 53)
      by (unfold fexp, emin; lia).
    rewrite Hf in *. exists p. eexists. split; [exact E|]. split; [done|]. rewrite V. f_equal.
Qed.

(** A 64-bit integer converts to a finite [double]. *)
Lemma d_of_Z_finite z : Z.abs z < 2 ^ 64 → isfinite (d_of_Z z) = true.
Proof.
  intros H. destruct (decide (Z.abs z < 2 ^ 53)) as [Hs|Hs].
  { destruct (decide (z = 0)) as [->|]; [done|].
    destruct (d_of_Z_exact z) as (p & e & -> & _); [lia|done]. }
  assert (Hb : ∀ s m, Zpos m < 2 ^ 64 → 2 ^ 53 ≤ Zpos m →
            isfinite (binary_round 53 1024 s m 0) = true).
  { intros s m Hm Hl. unfold binary_round.
    assert (53 < Zpos (digits2_pos m)) by (apply (Zdigits2_gt (Zpos m) 53); lia).
    unfold shl_align. destruct (fexp 53 1024 (Zpos (digits2_pos m) + 0) - 0) eqn:E;
      [unfold fexp, emin in E; lia| |unfold fexp, emin in E; lia].
    apply binary_round_aux_finite; [lia|lia|lia|lia|].
    eapply Z.lt_trans; [exact Hm|]. by vm_compute. }
  unfold d_of_Z, binary_normalize. destruct z as [|m|m]; [done| |]; apply Hb; lia.
Qed.

(** The converted integer's mantissa has at most 53 digits. *)
Lemma d_of_Z_digits n p :
  0 < Z.abs n < 2 ^ 53 → Zpos p = Z.abs n * 2 ^ (- (Zdigits2 n - 53)) →
  Zdigits2 (Zpos p) ≤ 53.
Proof.
  intros Hn Hp. assert (Hdn : Zdigits2 n = Zdigits2 (Z.abs n)) by (by destruct n).
  apply Zdigits2_le; [lia|]. split; [lia|]. rewrite Hp, Hdn.
  pose proof (Zdigits2_upper (Z.abs n)).
  assert (Zdigits2 (Z.abs n) ≤ 53) by (apply Zdigits2_le; lia).
  replace (2 ^ 53) with (2 ^ Zdigits2 (Z.abs n) * 2 ^ (- (Zdigits2 (Z.abs n) - 53))).
  - apply Z.mul_lt_mono_pos_r; lia.
  - rewrite <-Z.pow_add_r by (try apply Zdigits2_nonneg; lia). f_equal. lia.
Qed.

(** The exponent of the quotient stays in range under the same bound. *)
Lemma count_quotient_exponent n mc ec :
  0 < Z.abs n → -1045 ≤ ec →
  Z.abs n * 2 ^ 74 < (2 ^ 53 - 1) * Zpos mc * 2 ^ (ec + 1045) →
  Zdigits2 n - (Zdigits2 (Zpos mc) + ec) ≤ 1024.
Proof.
  intros Hn0 Hec Hlt. assert (Hdn : Zdigits2 n = Zdigits2 (Z.abs n)) by (by destruct n).
  rewrite Hdn. pose proof (Zdigits2_lower (Z.abs n) ltac:(lia)).
  pose proof (Zdigits2_upper (Zpos mc) ltac:(lia)).
  pose proof (Zdigits2_nonneg (Zpos mc)).
  enough (2 ^ (Zdigits2 (Z.abs n) - 1 + 74) < 2 ^ (53 + Zdigits2 (Zpos mc) + (ec + 1045))) as Hp2.
  { apply Z.pow_lt_mono_r_iff in Hp2; lia. }
  assert (0 < Zdigits2 (Z.abs n)) by (destruct (Z.abs n) eqn:?; simpl; lia).
  rewrite !Z.pow_add_r by lia.
  eapply Z.le_lt_trans; [|eapply Z.lt_le_trans; [exact Hlt|]].
  - apply Z.mul_le_mono_nonneg_r; lia.
  - apply Z.mul_le_mono_nonneg_r; [lia|]. apply Z.mul_le_mono_nonneg; lia.
Qed.

(** Dividing a raw count by a scale factor does not overflow when the scale is
    above [count / DBL_MAX], stated with integers: the scale is
    [mc * 2 ^ ec], [DBL_MAX] is [(2 ^ 53 - 1) * 2 ^ 971]. *)
Lemma d_div_count_finite n sc mc ec :
  Z.abs n < 2 ^ 53 → -1045 ≤ ec →
  Z.abs n * 2 ^ 74 < (2 ^ 53 - 1) * Zpos mc * 2 ^ (ec + 1045) →
  isfinite (d_div (d_of_Z n) (S754_finite sc mc ec)) = true.
Proof.
  intros Hn Hec Hlt. destruct (decide (n = 0)) as [->|Hn0]; [done|].
  destruct (d_of_Z_exact n) as (p & en & -> & Hen & Hp); [lia|].
  unfold d_div, SFdiv.
  destruct (SFdiv_core_binary 53 1024 (Zpos p) en (Zpos mc) ec) as [[q e'] l] eqn:E.
  pose proof (SFdiv_core_nonneg 53 1024 (Zpos p) en (Zpos mc) ec ltac:(lia) ltac:(lia)) as Hq0.
  rewrite E in Hq0. apply SFdiv_core_quotient in E as [He' Hq]; [|lia|lia].
  pose proof (d_of_Z_digits n p ltac:(lia) ltac:(congruence)) as Hdp.
  pose proof (count_quotient_exponent n mc ec ltac:(lia) Hec Hlt) as Hd.
  assert (Hn53 : Zdigits2 n ≤ 53).
  { replace (Zdigits2 n) with (Zdigits2 (Z.abs n)) by (by destruct n). apply Zdigits2_le; lia. }
  apply binary_round_aux_finite; [lia|lia|exact Hq0| |].
  - rewrite He', Hen. unfold fexp, emin. lia.
  - assert (He971 : e' ≤ 971) by (rewrite He', Hen; unfold fexp, emin; lia).
    assert (0 ≤ en - ec - e') by lia.
    rewrite Hq. apply Z.div_lt_upper_bound; [lia|]. rewrite Hp, <-Z.mul_assoc, <-Z.pow_add_r by lia.
    replace (- en + (en - ec - e')) with (- ec - e') by lia.
    apply (Z.mul_lt_mono_pos_r (2 ^ (ec + 1045))); [lia|].
    rewrite <-Z.mul_assoc, <-Z.pow_add_r by lia.
    replace (- ec - e' + (ec + 1045)) with (74 + (971 - e')) by lia.
    rewrite Z.pow_add_r by lia.
    replace (1024 - 53 - e') with (971 - e') by lia.
    apply (Z.mul_lt_mono_pos_r (2 ^ (971 - e'))) in Hlt; [|lia]. lia.
Qed.

End Fp.
