(* ===== verification/Clock.v ===== *)
(** * Checked steady-clock arithmetic: core/src/detail/time.hpp

    [std::chrono::steady_clock] counts nanoseconds in a signed 64-bit integer, so
    a time point or tick count is a [Z]. Durations given by the user are [double]
    seconds and are converted through [long double], whose format depends on the
    platform: the development is parametric in the class [Platform]. *)

From Stdlib Require Import ZArith Lia.
From Corelib Require Import SpecFloat.
From S2P Require Import Prelude Floats.
Import Fp.

Module Clock.

(** The supported platforms (README, "Installation"), with the two ABI facts the
    code depends on. *)
Inductive platform_id := LinuxX86_64 | LinuxAArch64 | MacX86_64 | MacArm64 | WindowsX86_64.

Class Platform := platform : platform_id.

Definition long_double `{P : Platform} : ld_format :=
  match platform with
  | LinuxX86_64 | MacX86_64 => LdExtended
  | LinuxAArch64 => LdBinary128
  | MacArm64 | WindowsX86_64 => LdBinary64
  end.

Definition long_bits `{P : Platform} : Z :=
  match platform with WindowsX86_64 => 32 | _ => 64 end.

(** [std::numeric_limits<long>::max()]. *)
Definition long_max `{P : Platform} : Z := 2 ^ (long_bits - 1) - 1.

(** [SteadyClock::duration::max().count()] and [time_point::max()]. *)
Definition ticks_max : Z := 2 ^ 63 - 1.

(** [SteadyClock::period::den]. *)
Definition period_den : Z := 1000000000.

(** [std::chrono::duration<double>] of a tick count. *)
Definition seconds_of_ticks (ticks : Z) : double := d_div (d_of_Z ticks) (d_of_Z period_den).

Section clock.
Context `{P : Platform}.

(** Source: core/src/detail/time.hpp:11-19, [checked_duration]. *)
Definition checked_duration (duration : double) : Res Z :=
  let ticks := l_div long_double
                 (l_mul long_double (l_of_double long_double duration)
                                    (l_of_Z long_double period_den))
                 (l_of_Z long_double 1) in
  if negb (isfinite ticks) || SFltb ticks (l_of_Z long_double 0)
     || SFleb (l_of_Z long_double ticks_max) ticks
  then throw invalid_argument "duration is outside the supported steady-clock range"
  else sf_to_i 64 ticks.

(** Source: core/src/detail/time.hpp:21-28, [checked_deadline]. *)
Definition checked_deadline (origin : Z) (duration : double) : Res Z :=
  ticks ← checked_duration duration;
  latest ← checked_i 64 (ticks_max - ticks);
  if origin >? latest
  then throw invalid_argument "deadline is outside the supported steady-clock range"
  else checked_i 64 (origin + ticks).

(** ** Range of the conversion *)

Lemma seconds_of_ticks_nonneg ticks :
  0 ≤ ticks ≤ ticks_max → sf_nonneg (seconds_of_ticks ticks) = true.
Proof.
  intros H. unfold seconds_of_ticks, d_div.
  assert (∃ m e, d_of_Z period_den = S754_finite false m e) as (m & e & ->)
    by (eexists _, _; by vm_compute).
  apply SFdiv_nonneg; [lia| |apply binary_normalize_nonneg; lia].
  apply d_of_Z_finite. unfold ticks_max in H. lia.
Qed.

(** [static_cast<long double>(bound)] as a canonical float: its mantissa has all
    the digits of the format, and it is [bound] or, in binary64, [bound + 1]. *)
Lemma l_of_Z_bound bound :
  bound = 2 ^ 63 - 1 ∨ bound = long_max →
  ∃ p E, l_of_Z long_double bound = S754_finite false p E ∧
    2 ^ (ld_prec long_double - 1) ≤ Zpos p ∧
    (Z.shiftl (Zpos p) E = bound ∨ (0 ≤ E ∧ Z.shiftl (Zpos p) E = bound + 1)).
Proof.
  unfold long_max, long_bits, long_double, platform.
  intros H. destruct P; destruct H as [->| ->];
    (eexists _, _; split; [by vm_compute|]; split; [by vm_compute|]);
    first [left; by vm_compute | right; split; by vm_compute].
Qed.

(** A nonnegative value strictly below a bound of the clock or of [long], of at
    most the format's precision, truncates to an integer within the bound. *)
Lemma trunc_below bound x :
  bound = 2 ^ 63 - 1 ∨ bound = long_max →
  isfinite x = true → SFltb x (l_of_Z long_double 0) = false →
  SFleb (l_of_Z long_double bound) x = false →
  (∀ s p e, x = S754_finite s p e → Zpos p < 2 ^ ld_prec long_double) →
  ∃ z, sf_trunc x = Some z ∧ 0 ≤ z ≤ bound.
Proof.
  intros Hb Hf H0 Hmax Hd.
  destruct (l_of_Z_bound bound) as (p & E & HL & Hp & HE); [done|].
  rewrite HL in Hmax. assert (0 ≤ bound) by (unfold long_max, long_bits in Hb; destruct Hb as [->| ->]; [lia|by case_match]).
  destruct x as [s|s| |s m e]; [by exists 0|done|done|].
  destruct s; [by destruct (long_double)|]. specialize (Hd false m e eq_refl).
  eexists. split; [done|]. cbn [cond_Zopp]. split; [by apply Z.shiftl_nonneg|].
  apply SFleb_pos_false in Hmax.
  destruct (shiftl_below (ld_prec long_double) m e p E) as [Hle Hlt]; [|done..|lia].
  by destruct (long_double).
Qed.

Lemma ld_format_ok : 1 < ld_prec long_double ∧ ld_prec long_double < ld_emax long_double.
Proof. unfold long_double, platform. by destruct P. Qed.

(** The conversion is total on every platform's [long double]: it never casts an
    unrepresentable value, and it either returns a count in [0, INT64_MAX] or
    throws [invalid_argument]. *)
Lemma checked_duration_cases d :
  (∃ t, checked_duration d = Ok t ∧ 0 ≤ t ≤ ticks_max) ∨
  (∃ msg, checked_duration d = throw invalid_argument msg).
Proof.
  unfold checked_duration.
  set (ticks := l_div _ _ _). destruct (isfinite ticks) eqn:Hf; [|by right; eexists].
  destruct (SFltb ticks (l_of_Z long_double 0)) eqn:H0; [by right; eexists|].
  destruct (SFleb (l_of_Z long_double ticks_max) ticks) eqn:Hm; [by right; eexists|]. left.
  destruct ld_format_ok.
  destruct (trunc_below ticks_max ticks) as (z & Hz & Hr); [by left|exact Hf|exact H0|exact Hm| |].
  { intros s p e E. by eapply (SFdiv_digits _ (ld_emax long_double)). }
  exists z. split; [|done]. simpl. unfold sf_to_i. rewrite Hz.
  apply checked_i_ok. unfold is_i, ticks_max in *. lia.
Qed.

(** A deadline from a clock reading: in range, or an exception. *)
Lemma checked_deadline_cases origin d :
  0 ≤ origin ≤ ticks_max →
  (∃ t, checked_duration d = Ok t ∧ checked_deadline origin d = Ok (origin + t) ∧
        origin ≤ origin + t ≤ ticks_max) ∨
  (∃ msg, checked_deadline origin d = throw invalid_argument msg).
Proof.
  intros Ho. unfold checked_deadline.
  destruct (checked_duration_cases d) as [(t & -> & Ht)|[msg ->]]; [|by right; eexists].
  unfold ticks_max in *. cbn [mbind Res_bind].
  rewrite (checked_i_ok 64 (2 ^ 63 - 1 - t)) by (unfold is_i; lia). cbn [mbind Res_bind].
  destruct (origin >? 2 ^ 63 - 1 - t) eqn:E; [by right; eexists|]. left.
  exists t. rewrite checked_i_ok by (unfold is_i; lia). split_and!; [done|done|lia|lia].
Qed.

(** For every [double], NaN and infinities included, and every [long double]
    format, a deadline is computed without an out-of-range cast or signed
    overflow whenever the origin is a clock reading (nonnegative, 64-bit): it is
    the origin plus the duration's ticks and fits the clock, or
    [invalid_argument] is thrown. *)
Theorem checked_deadline_total origin d :
  0 ≤ origin ≤ ticks_max →
  (∃ t, checked_duration d = Ok t ∧ checked_deadline origin d = Ok (origin + t) ∧
        origin ≤ origin + t ≤ ticks_max) ∨
  (∃ msg, checked_deadline origin d = throw invalid_argument msg).
Proof. apply checked_deadline_cases. Qed.

End clock.

Lemma checked_deadline_total_witness :
  0 ≤ 5 ≤ ticks_max ∧
  ∃ t, checked_deadline (P:=LinuxX86_64) 5 (d_ratio 1 10) = Ok (5 + t) ∧ t = 100000000.
Proof.
  split; [vm_compute; split; discriminate|].
  destruct (checked_deadline_total (P:=LinuxX86_64) 5 (d_ratio 1 10)) as [(t & E & H & _)|[msg H]];
    [vm_compute; split; discriminate| |vm_compute in H; discriminate H].
  exists t. split; [exact H|]. vm_compute in E. by injection E as <-.
Defined.

End Clock.
