(* ===== verification/Types.v ===== *)
(** * Public data types and validation: core/include/netft/types.hpp, core/src/types.cpp

    Every enumeration and struct is a module with the source's constructors and
    field names, so [FaultCode.Timeout] is [FaultCode::Timeout] and
    [Config.rdt_port c] is [c.rdt_port]. A [double] field is a [spec_float], a
    fixed-width integer a [Z], a time point the clock's nanosecond count. *)

From Stdlib Require Import ZArith Lia Ascii String.
From Corelib Require Import SpecFloat.
From S2P Require Import Prelude Floats Clock.
Import Fp Clock.

Module ForceUnit.
(** Source: core/include/netft/types.hpp:14-14, [ForceUnit]. *)
Inductive ForceUnit :=
  | Unknown
  | PoundForce
  | Newton
  | KiloPoundForce
  | KiloNewton
  | KilogramForce.
#[global] Instance ForceUnit_eq_dec : EqDecision ForceUnit.
Proof. solve_decision. Defined.
End ForceUnit.
Abbreviation ForceUnit := ForceUnit.ForceUnit.

Module TorqueUnit.
(** Source: core/include/netft/types.hpp:15-23, [TorqueUnit]. *)
Inductive TorqueUnit :=
  | Unknown
  | PoundForceInch
  | PoundForceFoot
  | NewtonMeter
  | NewtonMillimeter
  | KilogramForceCentimeter
  | KiloNewtonMeter.
#[global] Instance TorqueUnit_eq_dec : EqDecision TorqueUnit.
Proof. solve_decision. Defined.
End TorqueUnit.
Abbreviation TorqueUnit := TorqueUnit.TorqueUnit.

Module CalibrationSource.
(** Source: core/include/netft/types.hpp:24-24, [CalibrationSource]. *)
Inductive CalibrationSource :=
  | Sensor
  | Override.
#[global] Instance CalibrationSource_eq_dec : EqDecision CalibrationSource.
Proof. solve_decision. Defined.
End CalibrationSource.
Abbreviation CalibrationSource := CalibrationSource.CalibrationSource.

Module RecoveryPolicy.
(** Source: core/include/netft/types.hpp:25-25, [RecoveryPolicy]. *)
Inductive RecoveryPolicy :=
  | Reconnect
  | FailStop.
#[global] Instance RecoveryPolicy_eq_dec : EqDecision RecoveryPolicy.
Proof. solve_decision. Defined.
End RecoveryPolicy.
Abbreviation RecoveryPolicy := RecoveryPolicy.RecoveryPolicy.

Module ClientState.
(** Source: core/include/netft/types.hpp:26-26, [ClientState]. *)
Inductive ClientState :=
  | Stopped
  | Connecting
  | Streaming
  | Backoff
  | Faulted.
#[global] Instance ClientState_eq_dec : EqDecision ClientState.
Proof. solve_decision. Defined.
End ClientState.
Abbreviation ClientState := ClientState.ClientState.

Module FaultCode.
(** Source: core/include/netft/types.hpp:27-37, [FaultCode]. *)
Inductive FaultCode :=
  | None
  | SensorConfiguration
  | Timeout
  | Socket
  | SeriousStatus
  | FtStall
  | FtBackward
  | MalformedStorm
  | Callback.
#[global] Instance FaultCode_eq_dec : EqDecision FaultCode.
Proof. solve_decision. Defined.
End FaultCode.
Abbreviation FaultCode := FaultCode.FaultCode.

Module Calibration.
(** Source: core/include/netft/types.hpp:39-44, [Calibration]. *)
Record Calibration := {
  counts_per_force_unit : double;
  counts_per_torque_unit : double;
  force_unit : ForceUnit;
  torque_unit : TorqueUnit
}.
#[global] Instance Calibration_eta : Eta Calibration := λ r,
  {| counts_per_force_unit := counts_per_force_unit r;
     counts_per_torque_unit := counts_per_torque_unit r; force_unit := force_unit r;
     torque_unit := torque_unit r |}.
#[global] Instance Calibration_eq_dec : EqDecision Calibration.
Proof. solve_decision. Defined.
End Calibration.
Abbreviation Calibration := Calibration.Calibration.

Module SensorConfiguration.
(** Source: core/include/netft/types.hpp:46-51, [SensorConfiguration]. *)
Record SensorConfiguration := {
  product_name : string;
  calibration : Calibration;
  source : CalibrationSource;
  revision : Z
}.
#[global] Instance SensorConfiguration_eta : Eta SensorConfiguration := λ r,
  {| product_name := product_name r; calibration := calibration r; source := source r;
     revision := revision r |}.
#[global] Instance SensorConfiguration_eq_dec : EqDecision SensorConfiguration.
Proof. solve_decision. Defined.
End SensorConfiguration.
Abbreviation SensorConfiguration := SensorConfiguration.SensorConfiguration.

Module Config.
(** Source: core/include/netft/types.hpp:53-66, [Config]. *)
Record Config := {
  sensor_host : string;
  rdt_port : Z;
  http_port : Z;
  receive_timeout : double;
  configuration_connect_timeout : double;
  configuration_timeout : double;
  reconnect_initial_delay : double;
  reconnect_max_delay : double;
  sample_rate_limit_hz : double;
  deliver_samples_with_error_status : bool;
  recovery_policy : RecoveryPolicy;
  calibration_override : option Calibration
}.
#[global] Instance Config_eta : Eta Config := λ r,
  {| sensor_host := sensor_host r; rdt_port := rdt_port r; http_port := http_port r;
     receive_timeout := receive_timeout r;
     configuration_connect_timeout := configuration_connect_timeout r;
     configuration_timeout := configuration_timeout r;
     reconnect_initial_delay := reconnect_initial_delay r;
     reconnect_max_delay := reconnect_max_delay r;
     sample_rate_limit_hz := sample_rate_limit_hz r;
     deliver_samples_with_error_status := deliver_samples_with_error_status r;
     recovery_policy := recovery_policy r; calibration_override := calibration_override r |}.
#[global] Instance Config_eq_dec : EqDecision Config.
Proof. solve_decision. Defined.

(** Source: core/include/netft/types.hpp:54-65, [Config]: the member initialisers. *)
Definition default_Config : Config :=
  {| sensor_host := "192.168.1.1"; rdt_port := 49152; http_port := 80;
     receive_timeout := d_ratio 1 10;
     configuration_connect_timeout := d_ratio 1 2;
     configuration_timeout := d_of_Z 1;
     reconnect_initial_delay := d_ratio 1 4;
     reconnect_max_delay := d_of_Z 5;
     sample_rate_limit_hz := d_of_Z 0;
     deliver_samples_with_error_status := false;
     recovery_policy := RecoveryPolicy.Reconnect;
     calibration_override := None |}.
End Config.
Abbreviation Config := Config.Config.

Module Sample.
(** Source: core/include/netft/types.hpp:68-76, [Sample]. [std::array] members are lists of the array's length. *)
Record Sample := {
  rdt_sequence : Z;
  ft_sequence : Z;
  status : Z;
  raw_wrench : list Z;
  force : list double;
  torque : list double;
  force_unit : ForceUnit;
  torque_unit : TorqueUnit;
  configuration_revision : Z;
  received_at : Z
}.
#[global] Instance Sample_eta : Eta Sample := λ r,
  {| rdt_sequence := rdt_sequence r; ft_sequence := ft_sequence r; status := status r;
     raw_wrench := raw_wrench r; force := force r; torque := torque r;
     force_unit := force_unit r; torque_unit := torque_unit r;
     configuration_revision := configuration_revision r; received_at := received_at r |}.
#[global] Instance Sample_eq_dec : EqDecision Sample.
Proof. solve_decision. Defined.
End Sample.
Abbreviation Sample := Sample.Sample.

Module HealthSnapshot.
(** Source: core/include/netft/types.hpp:78-96, [HealthSnapshot]. *)
Record HealthSnapshot := {
  state : ClientState;
  fault_code : FaultCode;
  sensor_host : string;
  rdt_port : Z;
  sensor_configuration : option SensorConfiguration;
  last_rdt_sequence : option Z;
  last_ft_sequence : option Z;
  last_status : Z;
  receive_rate_hz : double;
  delivery_rate_hz : double;
  received_count : Z;
  delivered_count : Z;
  rate_limited_count : Z;
  device_error_count : Z;
  warning_count : Z;
  lost_count : Z;
  duplicate_count : Z;
  out_of_order_count : Z;
  malformed_count : Z;
  reconnect_count : Z;
  timeout_count : Z;
  callback_error_count : Z;
  ft_stall_count : Z;
  ft_backward_count : Z;
  ft_restart_count : Z;
  calibration_change_count : Z;
  last_record_age : option double;
  last_error : string;
  last_ft_progress : string
}.
#[global] Instance HealthSnapshot_eta : Eta HealthSnapshot := λ r,
  {| state := state r; fault_code := fault_code r; sensor_host := sensor_host r;
     rdt_port := rdt_port r; sensor_configuration := sensor_configuration r;
     last_rdt_sequence := last_rdt_sequence r; last_ft_sequence := last_ft_sequence r;
     last_status := last_status r; receive_rate_hz := receive_rate_hz r;
     delivery_rate_hz := delivery_rate_hz r; received_count := received_count r;
     delivered_count := delivered_count r; rate_limited_count := rate_limited_count r;
     device_error_count := device_error_count r; warning_count := warning_count r;
     lost_count := lost_count r; duplicate_count := duplicate_count r;
     out_of_order_count := out_of_order_count r; malformed_count := malformed_count r;
     reconnect_count := reconnect_count r; timeout_count := timeout_count r;
     callback_error_count := callback_error_count r; ft_stall_count := ft_stall_count r;
     ft_backward_count := ft_backward_count r; ft_restart_count := ft_restart_count r;
     calibration_change_count := calibration_change_count r;
     last_record_age := last_record_age r; last_error := last_error r;
     last_ft_progress := last_ft_progress r |}.
#[global] Instance HealthSnapshot_eq_dec : EqDecision HealthSnapshot.
Proof. solve_decision. Defined.

(** Source: core/include/netft/types.hpp:79-95, [HealthSnapshot]: the member initialisers. *)
Definition default_HealthSnapshot : HealthSnapshot :=
  {| state := ClientState.Stopped; fault_code := FaultCode.None;
     sensor_host := ""; rdt_port := 0; sensor_configuration := None;
     last_rdt_sequence := None; last_ft_sequence := None; last_status := 0;
     receive_rate_hz := d_of_Z 0; delivery_rate_hz := d_of_Z 0;
     received_count := 0; delivered_count := 0; rate_limited_count := 0;
     device_error_count := 0; warning_count := 0; lost_count := 0;
     duplicate_count := 0; out_of_order_count := 0; malformed_count := 0;
     reconnect_count := 0; timeout_count := 0; callback_error_count := 0;
     ft_stall_count := 0; ft_backward_count := 0; ft_restart_count := 0;
     calibration_change_count := 0; last_record_age := None;
     last_error := ""; last_ft_progress := "unknown" |}.
End HealthSnapshot.
Abbreviation HealthSnapshot := HealthSnapshot.HealthSnapshot.

Module Types.

Section validation.
Context `{P : Platform}.

(** [std::isspace] in the "C" locale. *)
Definition isspace (c : ascii) : bool :=
  let n := Z.of_N (N_of_ascii c) in (n =? 32) || ((9 <=? n) && (n <=? 13)).

(** Source: core/src/types.cpp:13-17, [is_blank]. *)
Definition is_blank (value : string) : bool :=
  String.eqb value "" || forallb isspace (list_ascii_of_string value).

(** Source: core/src/types.cpp:19-23, [require_positive_finite]. *)
Definition require_positive_finite (name : string) (value : double) : Res () :=
  if negb (isfinite value) || d_le value (d_of_Z 0)
  then throw invalid_argument (name +:+ " must be finite and positive")
  else Ok ().

(** Source: core/src/types.cpp:25-37, [require_safe_timeout]. [now] is the clock
    reading the deadline check takes. *)
Definition require_safe_timeout (now : Z) (name : string) (value : double) (http : bool)
    : Res () :=
  _ ← require_positive_finite name value;
  ticks ← checked_duration value;
  if ticks <=? 0
  then throw invalid_argument (name +:+ " is below the steady-clock resolution")
  else
    _ ← checked_deadline now value;
    if http && SFleb (l_of_Z long_double long_max)
                     (sf_ceil (ld_prec long_double) (ld_emax long_double)
                        (l_mul long_double (l_of_double long_double value)
                                           (l_of_Z long_double 1000)))
    then throw invalid_argument (name +:+ " is outside the HTTP timer range")
    else Ok ().

(** Source: core/src/types.cpp:39-43, [require_port]. *)
Definition require_port (name : string) (value : Z) : Res () :=
  if (value <? 1) || (65535 <? value)
  then throw invalid_argument (name +:+ " must be in the range 1..65535")
  else Ok ().

(** Source: core/src/types.cpp:49-51, [require_safe_count]: the constants
    [magnitude] and [minimum]. *)
Definition magnitude : double := SFopp (d_of_Z (- 2 ^ 31)).
Definition minimum_count : double :=
  d_mul (d_div magnitude d_max) (d_add (d_of_Z 1) d_epsilon).

(** Source: core/src/types.cpp:45-55, [require_safe_count]. *)
Definition require_safe_count (name : string) (value : double) : Res () :=
  _ ← require_positive_finite name value;
  if d_lt value minimum_count
  then throw invalid_argument (name +:+ " cannot represent the full raw count range")
  else Ok ().

(** Source: core/src/types.cpp:59-66, [validate]. *)
Definition validate_calibration (c : Calibration) : Res () :=
  _ ← require_safe_count "counts_per_force_unit" (Calibration.counts_per_force_unit c);
  _ ← require_safe_count "counts_per_torque_unit" (Calibration.counts_per_torque_unit c);
  if bool_decide (Calibration.force_unit c = ForceUnit.Unknown)
     || bool_decide (Calibration.torque_unit c = TorqueUnit.Unknown)
  then throw invalid_argument "calibration units must be known"
  else Ok ().

(** Source: core/src/types.cpp:68-89, [validate]. [now i] is the [i]-th clock
    reading taken during the call. *)
Definition validate_config (now : nat → Z) (c : Config) : Res () :=
  if is_blank (Config.sensor_host c)
  then throw invalid_argument "sensor_host must not be blank"
  else
    _ ← require_port "rdt_port" (Config.rdt_port c);
    _ ← require_port "http_port" (Config.http_port c);
    _ ← require_safe_timeout (now 0%nat) "receive_timeout" (Config.receive_timeout c) false;
    _ ← require_safe_timeout (now 1%nat) "configuration_connect_timeout"
          (Config.configuration_connect_timeout c) true;
    _ ← require_safe_timeout (now 2%nat) "configuration_timeout"
          (Config.configuration_timeout c) true;
    _ ← require_safe_timeout (now 3%nat) "reconnect_initial_delay"
          (Config.reconnect_initial_delay c) false;
    _ ← require_safe_timeout (now 4%nat) "reconnect_max_delay"
          (Config.reconnect_max_delay c) false;
    if d_lt (Config.reconnect_max_delay c) (Config.reconnect_initial_delay c)
    then throw invalid_argument
           "reconnect_max_delay must not be below reconnect_initial_delay"
    else if negb (isfinite (Config.sample_rate_limit_hz c))
            || d_lt (Config.sample_rate_limit_hz c) (d_of_Z 0)
    then throw invalid_argument "sample_rate_limit_hz must be finite and non-negative"
    else match Config.calibration_override c with
         | Some calibration => validate_calibration calibration
         | None => Ok ()
         end.

(** What an accepted timeout guarantees. *)
Lemma require_safe_timeout_inv now name value http u :
  require_safe_timeout now name value http = Ok u →
  isfinite value = true ∧ d_le value (d_of_Z 0) = false ∧
  (∃ ticks, checked_duration value = Ok ticks ∧ 0 < ticks) ∧
  (http = true →
   SFleb (l_of_Z long_double long_max)
     (sf_ceil (ld_prec long_double) (ld_emax long_double)
        (l_mul long_double (l_of_double long_double value) (l_of_Z long_double 1000))) = false).
Proof.
  unfold require_safe_timeout, require_positive_finite. intros H.
  destruct (isfinite value) eqn:Hf; [|done]. destruct (d_le value (d_of_Z 0)) eqn:Hp; [done|].
  cbn [negb orb mbind Res_bind] in H.
  destruct (checked_duration value) as [ticks|e|]; [|done..]. cbn [mbind Res_bind] in H.
  destruct (Z.leb_spec ticks 0); [done|].
  destruct (checked_deadline now value); [|done..]. cbn [mbind Res_bind] in H.
  split; [done|]. split; [done|]. split; [by exists ticks|]. intros ->.
  by match type of H with (if true && ?b then _ else _) = _ => destruct b end.
Qed.

(** What an accepted configuration guarantees. *)
Lemma validate_config_inv now c :
  validate_config now c = Ok () →
  is_blank (Config.sensor_host c) = false ∧
  (1 ≤ Config.rdt_port c ≤ 65535) ∧ (1 ≤ Config.http_port c ≤ 65535) ∧
  require_safe_timeout (now 0%nat) "receive_timeout" (Config.receive_timeout c) false = Ok () ∧
  require_safe_timeout (now 1%nat) "configuration_connect_timeout"
    (Config.configuration_connect_timeout c) true = Ok () ∧
  require_safe_timeout (now 2%nat) "configuration_timeout"
    (Config.configuration_timeout c) true = Ok () ∧
  require_safe_timeout (now 3%nat) "reconnect_initial_delay"
    (Config.reconnect_initial_delay c) false = Ok () ∧
  require_safe_timeout (now 4%nat) "reconnect_max_delay"
    (Config.reconnect_max_delay c) false = Ok () ∧
  d_lt (Config.reconnect_max_delay c) (Config.reconnect_initial_delay c) = false ∧
  isfinite (Config.sample_rate_limit_hz c) = true ∧
  d_lt (Config.sample_rate_limit_hz c) (d_of_Z 0) = false ∧
  (∀ cal, Config.calibration_override c = Some cal → validate_calibration cal = Ok ()).
Proof.
  unfold validate_config. intros H. destruct (is_blank _); [done|].
  unfold require_port in H.
  destruct (Z.ltb_spec (Config.rdt_port c) 1); [done|].
  destruct (Z.ltb_spec 65535 (Config.rdt_port c)); [done|].
  destruct (Z.ltb_spec (Config.http_port c) 1); [done|].
  destruct (Z.ltb_spec 65535 (Config.http_port c)); [done|].
  cbn [orb mbind Res_bind] in H.
  repeat match type of H with
  | mbind _ ?m = Ok _ =>
    let E := fresh "E" in destruct m as [[]|?|] eqn:E; [|done..]; cbn [mbind Res_bind] in H
  end.
  destruct (d_lt (Config.reconnect_max_delay c) _); [done|].
  destruct (isfinite (Config.sample_rate_limit_hz c)); [|done].
  destruct (d_lt (Config.sample_rate_limit_hz c) _); [done|].
  cbn [negb orb] in H. split_and!; try done; try lia. intros cal Hc. by rewrite Hc in H.
Qed.

End validation.

(** ** Names of the enumerators *)

(** Source: core/src/types.cpp:91-107, [to_string]. *)
Definition ForceUnit_to_string (unit : ForceUnit) : string :=
  match unit with
  | ForceUnit.PoundForce => "lbf"
  | ForceUnit.Newton => "N"
  | ForceUnit.KiloPoundForce => "klbf"
  | ForceUnit.KiloNewton => "kN"
  | ForceUnit.KilogramForce => "kgf"
  | ForceUnit.Unknown => "unknown"
  end.

(** Source: core/src/types.cpp:109-127, [to_string]. *)
Definition TorqueUnit_to_string (unit : TorqueUnit) : string :=
  match unit with
  | TorqueUnit.PoundForceInch => "lbf-in"
  | TorqueUnit.PoundForceFoot => "lbf-ft"
  | TorqueUnit.NewtonMeter => "N-m"
  | TorqueUnit.NewtonMillimeter => "N-mm"
  | TorqueUnit.KilogramForceCentimeter => "kgf-cm"
  | TorqueUnit.KiloNewtonMeter => "kN-m"
  | TorqueUnit.Unknown => "unknown"
  end.

(** The first candidate whose name is [value]: the loop of the two parsers. *)
Fixpoint first_named {U} (name : U → string) (units : list U) (value : string) : option U :=
  match units with
  | [] => None
  | u :: rest => if String.eqb (name u) value then Some u else first_named name rest value
  end.

(** Source: core/src/types.cpp:129-138, [force_unit_from_string]. *)
Definition force_unit_from_string (value : string) : option ForceUnit :=
  first_named ForceUnit_to_string
    [ForceUnit.Unknown; ForceUnit.PoundForce; ForceUnit.Newton; ForceUnit.KiloPoundForce;
     ForceUnit.KiloNewton; ForceUnit.KilogramForce] value.

(** Source: core/src/types.cpp:140-150, [torque_unit_from_string]. *)
Definition torque_unit_from_string (value : string) : option TorqueUnit :=
  first_named TorqueUnit_to_string
    [TorqueUnit.Unknown; TorqueUnit.PoundForceInch; TorqueUnit.PoundForceFoot;
     TorqueUnit.NewtonMeter; TorqueUnit.NewtonMillimeter; TorqueUnit.KilogramForceCentimeter;
     TorqueUnit.KiloNewtonMeter] value.

(** Source: core/src/types.cpp:152-166, [to_string]. *)
Definition ClientState_to_string (state : ClientState) : string :=
  match state with
  | ClientState.Stopped => "stopped"
  | ClientState.Connecting => "connecting"
  | ClientState.Streaming => "streaming"
  | ClientState.Backoff => "backoff"
  | ClientState.Faulted => "faulted"
  end.

(** Source: core/src/types.cpp:168-190, [to_string]. *)
Definition FaultCode_to_string (code : FaultCode) : string :=
  match code with
  | FaultCode.None => "none"
  | FaultCode.SensorConfiguration => "sensor_configuration"
  | FaultCode.Timeout => "timeout"
  | FaultCode.Socket => "socket"
  | FaultCode.SeriousStatus => "serious_status"
  | FaultCode.FtStall => "ft_stall"
  | FaultCode.FtBackward => "ft_backward"
  | FaultCode.MalformedStorm => "malformed_storm"
  | FaultCode.Callback => "callback"
  end.

(** ** Units: parsing inverts printing *)

Lemma first_named_Some {U} (name : U → string) units value u :
  first_named name units value = Some u → name u = value.
Proof.
  induction units as [|v units IH]; simpl; [done|].
  destruct (String.eqb_spec (name v) value); naive_solver.
Qed.

(** Unit names round trip. Every force and torque unit is parsed back from the
    name it is printed as, and a string parses to a unit only if it is exactly
    that unit's name. *)
Theorem unit_names_roundtrip :
  (∀ u s, force_unit_from_string s = Some u ↔ s = ForceUnit_to_string u) ∧
  (∀ u s, torque_unit_from_string s = Some u ↔ s = TorqueUnit_to_string u).
Proof.
  split; intros u s; (split; [intros H; symmetry; by eapply first_named_Some|]);
    intros ->; by destruct u.
Qed.

(** ** Accepted calibrations scale every raw count to a finite number *)

Lemma minimum_count_value : minimum_count = S754_finite false 4503599627370498 (-1045).
Proof. by vm_compute. Qed.

(** What a scale factor that passed [require_safe_count] looks like. *)
Lemma require_safe_count_inv name c :
  d_valid c → require_safe_count name c = Ok () →
  ∃ m e, c = S754_finite false m e ∧ -1045 ≤ e ∧
    4503599627370498 ≤ Zpos m * 2 ^ (e + 1045).
Proof.
  intros Hv H. unfold require_safe_count, require_positive_finite in H.
  destruct (negb (isfinite c) || d_le c (d_of_Z 0)) eqn:Hp; [done|]. cbn [mbind Res_bind] in H.
  destruct (d_lt c minimum_count) eqn:Hm; [done|].
  rewrite minimum_count_value in Hm.
  destruct c as [s|s| |[] m e]; try discriminate Hp.
  exists m, e. split; [done|].
  unfold d_valid in Hv. simpl in Hv. unfold bounded, canonical_mantissa in Hv.
  apply andb_prop in Hv as [Hc _]. apply Z.eqb_eq in Hc. unfold fexp, emin in Hc.
  apply SFltb_pos_false in Hm as [Hlt|[-> Hm]]; [|simpl; lia].
  split; [lia|]. pose proof (digits2_pos_bounds m).
  replace (Zpos (digits2_pos m)) with 53 in * by lia.
  assert (2 ^ 1 ≤ 2 ^ (e + 1045)) by (apply Z.pow_le_mono_r; lia). nia.
Qed.

Lemma scaled_count_finite c n :
  d_valid c → require_safe_count "" c = Ok () → is_i 32 n →
  isfinite (d_div (d_of_Z n) c) = true.
Proof.
  intros Hv Hc Hn. destruct (require_safe_count_inv _ _ Hv Hc) as (m & e & -> & He & Hm).
  unfold is_i in Hn. apply d_div_count_finite; [lia|done|].
  assert (Z.abs n ≤ 2 ^ 31) by lia. nia.
Qed.

Lemma require_safe_count_name name name' c :
  require_safe_count name c = Ok () → require_safe_count name' c = Ok ().
Proof.
  unfold require_safe_count, require_positive_finite.
  destruct (negb (isfinite c) || d_le c (d_of_Z 0)); [done|]. cbn [mbind Res_bind].
  by destruct (d_lt c minimum_count).
Qed.

(** A calibration accepted by [validate] scales every 32-bit raw count, of
    either sign and INT32_MIN included, to a finite [double] in both force and
    torque: the division in the sample path cannot overflow or produce NaN. *)
Theorem validated_calibration_scales_finite c n :
  d_valid (Calibration.counts_per_force_unit c) →
  d_valid (Calibration.counts_per_torque_unit c) →
  validate_calibration c = Ok () → is_i 32 n →
  isfinite (d_div (d_of_Z n) (Calibration.counts_per_force_unit c)) = true ∧
  isfinite (d_div (d_of_Z n) (Calibration.counts_per_torque_unit c)) = true.
Proof.
  intros Hf Ht H Hn. unfold validate_calibration in H. res_inv.
  match goal with
  | H1 : require_safe_count _ _ = Ok ?x, H2 : require_safe_count _ _ = Ok ?y |- _ =>
    destruct x, y; apply (require_safe_count_name _ "") in H1, H2
  end.
  eauto using scaled_count_finite.
Qed.

(** The smallest accepted scale is the tightest case of the theorem. *)
Definition tight_calibration : Calibration :=
  {| Calibration.counts_per_force_unit := minimum_count;
     Calibration.counts_per_torque_unit := minimum_count;
     Calibration.force_unit := ForceUnit.Newton;
     Calibration.torque_unit := TorqueUnit.NewtonMeter |}.

Lemma validated_calibration_scales_finite_witness :
  validate_calibration tight_calibration = Ok () ∧
  isfinite (d_div (d_of_Z (- 2 ^ 31)) minimum_count) = true.
Proof.
  split; [reflexivity|].
  apply (validated_calibration_scales_finite tight_calibration (- 2 ^ 31));
    [reflexivity|reflexivity|reflexivity|].
  vm_compute; split; congruence.
Defined.

End Types.
