(* ===== verification/Status.v ===== *)
(** * Device status words: core/include/netft/status.hpp, core/src/status.cpp *)

From Stdlib Require Import ZArith Lia Ascii String.
From S2P Require Import Prelude.

Module Status.

(** Source: core/include/netft/status.hpp:10-10, [StatusSeverity]. *)
Inductive StatusSeverity := SeverityOk | SeverityWarn | SeverityError.

#[global] Instance StatusSeverity_eq_dec : EqDecision StatusSeverity.
Proof. solve_decision. Defined.

(** Source: core/src/status.cpp:9-40, [kStatusBits]. *)
Definition kStatusBits : list (Z * string) :=
  [ (0x80000000, "error summary");
    (0x40000000, "CPU or RAM error");
    (0x20000000, "digital board error");
    (0x10000000, "analog board error");
    (0x08000000, "serial link communication error");
    (0x04000000, "program memory verification error");
    (0x02000000, "halted due to configuration errors");
    (0x01000000, "settings validation error");
    (0x00800000, "configuration incompatible with calibration");
    (0x00400000, "network communication failure");
    (0x00200000, "CAN communication error");
    (0x00100000, "RDT communication error");
    (0x00080000, "EtherNet/IP protocol failure");
    (0x00040000, "DeviceNet protocol failure");
    (0x00020000, "transducer saturation or A/D error");
    (0x00010000, "monitor condition latched");
    (0x00004000, "watchdog timeout error");
    (0x00002000, "stack check error");
    (0x00001000, "serial EEPROM I2C failure");
    (0x00000800, "serial flash SPI failure");
    (0x00000400, "analog board watchdog timeout");
    (0x00000200, "excessive strain gage excitation current");
    (0x00000100, "insufficient strain gage excitation current");
    (0x00000080, "artificial analog ground out of range");
    (0x00000040, "analog board power supply too high");
    (0x00000020, "analog board power supply too low");
    (0x00000010, "serial link data unavailable");
    (0x00000008, "reference voltage or power monitoring error");
    (0x00000004, "internal temperature error");
    (0x00000002, "HTTP protocol failure") ]%string.

(** Source: core/src/status.cpp:44-49, [classify_status]. *)
Definition classify_status (status : Z) : StatusSeverity :=
  if status =? 0 then SeverityOk
  else if status =? 0x80010000 then SeverityWarn else SeverityError.

(** Source: core/src/status.cpp:57-65, [decode_status]: the loop over the table,
    with the text accumulated so far. *)
Fixpoint append_names (bits : list (Z * string)) (status : Z) (result : string) : string :=
  match bits with
  | [] => result
  | (mask, name) :: rest =>
    if negb (Z.land status mask =? 0) then
      let result := if String.eqb result "" then result else (result +:+ ", ") in
      append_names rest status (result +:+ name)
    else append_names rest status result
  end.

(** Source: core/src/status.cpp:51-66, [decode_status]. *)
Definition decode_status (status : Z) : string :=
  if status =? 0 then "healthy" else append_names kStatusBits status "".

(** ** The text names exactly the documented bits that are set *)

(** Names of the set bits, in table order. *)
Definition set_names (bits : list (Z * string)) (status : Z) : list string :=
  (filter (λ b, Z.land status b.1 ≠ 0) bits).*2.

Lemma string_app_nil_r s : s +:+ "" = s.
Proof. induction s as [|c s IH]; [done|]. by apply (f_equal (String c)). Qed.

Lemma string_app_assoc s t u : (s +:+ t) +:+ u = s +:+ (t +:+ u).
Proof. induction s as [|c s IH]; [done|]. by apply (f_equal (String c)). Qed.

Lemma concat_snoc sep l x :
  String.concat sep (l ++ [x]) =
  match l with [] => x | _ => String.concat sep l +:+ sep +:+ x end.
Proof.
  induction l as [|y l IH]; [done|]. destruct l as [|z l]; [done|].
  change (String.concat sep ((y :: z :: l) ++ [x]))
    with (y +:+ sep +:+ String.concat sep ((z :: l) ++ [x])).
  rewrite IH. change (String.concat sep (y :: z :: l)) with (y +:+ sep +:+ String.concat sep (z :: l)).
  by rewrite !string_app_assoc.
Qed.

Lemma concat_eqb_empty sep l :
  Forall (λ n, n ≠ "") l → String.eqb (String.concat sep l) "" = bool_decide (l = []).
Proof.
  intros [|x l' Hx _]; [done|]. rewrite bool_decide_eq_false_2 by done.
  apply String.eqb_neq. destruct x; [done|]. by destruct l'.
Qed.

Lemma set_names_cons mask name bits status :
  set_names ((mask, name) :: bits) status =
  if Z.land status mask =? 0 then set_names bits status else name :: set_names bits status.
Proof.
  unfold set_names. rewrite filter_cons. cbn [fst].
  destruct (Z.eqb_spec (Z.land status mask) 0).
  - by rewrite decide_False by (by intros []).
  - by rewrite decide_True.
Qed.

(** The loop joins the names found so far with those still to come. *)
Lemma append_names_spec bits status found :
  Forall (λ n, n ≠ "") found → Forall (λ b, b.2 ≠ "") bits →
  append_names bits status (String.concat ", " found) =
  String.concat ", " (found ++ set_names bits status).
Proof.
  intros Hf Hb. revert found Hf. induction Hb as [|[mask name] bits Hn _ IH]; intros found Hf.
  { cbn. by rewrite app_nil_r. }
  cbn [append_names]. rewrite set_names_cons.
  destruct (Z.land status mask =? 0) eqn:E; cbn [negb]; [by apply IH|].
  rewrite cons_middle, app_assoc.
  rewrite <-(IH (found ++ [name])) by (apply Forall_app; split; [done|by constructor]).
  f_equal. rewrite concat_snoc, concat_eqb_empty by done.
  destruct found; [done|]. by rewrite bool_decide_eq_false_2, string_app_assoc by done.
Qed.

(** The diagnostic text of a nonzero status word is the comma-separated list of
    the names of exactly those documented bits that are set, in table order, with
    no leading or trailing separator; zero is healthy. *)
Theorem decode_status_names status :
  decode_status status =
  if decide (status = 0) then "healthy"
  else String.concat ", " (set_names kStatusBits status).
Proof.
  unfold decode_status. destruct (Z.eqb_spec status 0) as [->|Hs]; [done|].
  rewrite decide_False by done.
  apply (append_names_spec kStatusBits status []); repeat constructor; discriminate.
Qed.

(** Severity in terms of the table. A status is a warning exactly when the
    only documented or undocumented bits set are the error summary and the
    latched monitor condition; any other nonzero word is an error, and the table
    holds thirty distinct single-bit masks. *)
Theorem classify_status_bits status :
  is_u 32 status →
  (classify_status status = SeverityOk ↔ ∀ i, Z.testbit status i = false) ∧
  (classify_status status = SeverityWarn ↔
     ∀ i, Z.testbit status i = bool_decide (i = 31 ∨ i = 16)) ∧
  NoDup kStatusBits.*1 ∧ Forall (λ b, ∃ i, 1 ≤ i < 32 ∧ b.1 = 2 ^ i) kStatusBits.
Proof.
  intros Hs. unfold classify_status.
  split_and!.
  - destruct (Z.eqb_spec status 0) as [->|Hne].
    + split; [|done]. intros _ i. apply Z.bits_0.
    + split; [by case_match|]. intros H. destruct Hne. apply Z.bits_inj_0. exact H.
  - assert (Hb : ∀ i, Z.testbit 0x80010000 i = bool_decide (i = 31 ∨ i = 16)).
    { intros i. change 0x80010000 with (Z.lor (2 ^ 31) (2 ^ 16)).
      rewrite Z.lor_spec, !Z.pow2_bits_eqb by lia.
      destruct (Z.eqb_spec 31 i), (Z.eqb_spec 16 i); symmetry; simpl;
        [by apply bool_decide_eq_true_2; lia..|apply bool_decide_eq_false_2; lia]. }
    split.
    + destruct (Z.eqb_spec status 0); [done|].
      destruct (Z.eqb_spec status 0x80010000) as [->|]; [done|discriminate].
    + intros H. assert (status = 0x80010000) as ->; [|done].
      apply Z.bits_inj. intros i. by rewrite H, Hb.
  - apply (bool_decide_unpack _). by vm_compute.
  - repeat (constructor; [
      match goal with |- ∃ i, _ ∧ ?v = _ =>
        let l := eval vm_compute in (Z.log2 v) in exists l; split; [lia|reflexivity] end|]).
    constructor.
Qed.

(** Status words mean what the table says. The text of a nonzero word is the
    comma-separated list of the names of exactly those documented bits that are set, in
    table order (zero is healthy); a word is ok exactly when no bit is set and a warning
    exactly when bits 31 and 16 are the only ones; the table holds distinct single-bit
    masks. *)
Theorem status_words_exact status :
  is_u 32 status →
  decode_status status =
    (if decide (status = 0) then "healthy"
     else String.concat ", " (set_names kStatusBits status)) ∧
  (classify_status status = SeverityOk ↔ ∀ i, Z.testbit status i = false) ∧
  (classify_status status = SeverityWarn ↔
     ∀ i, Z.testbit status i = bool_decide (i = 31 ∨ i = 16)) ∧
  NoDup kStatusBits.*1 ∧ Forall (λ b, ∃ i, 1 ≤ i < 32 ∧ b.1 = 2 ^ i) kStatusBits.
Proof. intros Hs. split; [apply decode_status_names|by apply classify_status_bits]. Qed.

Lemma status_words_exact_witness :
  is_u 32 0x80010000 ∧ classify_status 0x80010000 = SeverityWarn.
Proof.
  split; [vm_compute; split; congruence|].
  destruct (status_words_exact 0x80010000) as (_ & _ & [_ H] & _);
    [vm_compute; split; congruence|].
  apply H. intros i. change 0x80010000 with (Z.lor (2 ^ 31) (2 ^ 16)).
  rewrite Z.lor_spec, !Z.pow2_bits_eqb by lia.
  destruct (Z.eqb_spec 31 i), (Z.eqb_spec 16 i); symmetry; simpl;
    [by apply bool_decide_eq_true_2; lia..|apply bool_decide_eq_false_2; lia].
Defined.

End Status.
