(* ===== verification/Protocol.v ===== *)
(** * The RDT wire protocol: core/src/detail/protocol.{hpp,cpp}

    Request encoding and record decoding on byte buffers. A buffer is a
    [list byte]; a pointer into it is the buffer and an offset, and a read past
    its end is [UB], so memory safety of the decoder is a theorem. *)

From Stdlib Require Import ZArith Lia Strings.Byte.
From S2P Require Import Prelude.

Module Rdt.

(** Source: core/src/detail/protocol.hpp:10-16, [Command]. *)
Inductive Command :=
  | StopStreaming
  | StartRealtime
  | StartBuffered
  | ResetConditionLatch
  | SetSoftwareBias.

(** Source: core/src/detail/protocol.hpp:11-15, [Command]: the enumerators'
    [std::uint16_t] values. *)
Definition command_value (c : Command) : Z :=
  match c with
  | StopStreaming => 0x0000
  | StartRealtime => 0x0002
  | StartBuffered => 0x0003
  | ResetConditionLatch => 0x0041
  | SetSoftwareBias => 0x0042
  end.

#[global] Instance Command_eq_dec : EqDecision Command.
Proof. solve_decision. Defined.

(** Source: core/src/detail/protocol.hpp:18-21, [RawRecord]. *)
Record RawRecord := {
  rdt_sequence : Z; ft_sequence : Z; status : Z;      (* std::uint32_t *)
  fx : Z; fy : Z; fz : Z; tx : Z; ty : Z; tz : Z      (* std::int32_t *)
}.

#[global] Instance RawRecord_eq_dec : EqDecision RawRecord.
Proof. solve_decision. Defined.

(** One byte of the buffer behind a pointer. *)
Definition read_byte (data : list byte) (off : nat) : Res Z :=
  match data !! off with Some b => Ok (byte_val b) | None => UB end.

(** Source: core/src/detail/protocol.cpp:8-12, [read_u32]. *)
Definition read_u32 (data : list byte) (off : nat) : Res Z :=
  b0 ← read_byte data off;
  b1 ← read_byte data (off + 1);
  b2 ← read_byte data (off + 2);
  b3 ← read_byte data (off + 3);
  Ok (Z.lor (Z.lor (Z.lor (wrap_u 32 (Z.shiftl b0 24)) (wrap_u 32 (Z.shiftl b1 16)))
                   (wrap_u 32 (Z.shiftl b2 8))) b3).

(** Source: core/src/detail/protocol.cpp:14-20, [read_i32]. [~value] is taken
    at 32 bits and the signed negation and subtraction must not overflow. *)
Definition read_i32 (data : list byte) (off : nat) : Res Z :=
  value ← read_u32 data off;
  if value <=? 0x7fffffff then checked_i 32 value
  else
    complement ← checked_i 32 (wrap_u 32 (Z.lnot value));
    negated ← checked_i 32 (- complement);
    checked_i 32 (negated - 1).

(** Source: core/src/detail/protocol.cpp:24-29, [encode_request]. *)
Definition encode_request (command : Command) (count : Z) : list byte :=
  let value := command_value command in
  [ x12; x34; byte_of_Z (Z.shiftr value 8); byte_of_Z value;
    byte_of_Z (Z.shiftr count 24); byte_of_Z (Z.shiftr count 16);
    byte_of_Z (Z.shiftr count 8); byte_of_Z count ].

(** Source: core/src/detail/protocol.cpp:31-41, [decode_record]. [None] is the
    null pointer. *)
Definition decode_record (data : option (list byte)) (size : Z) : Res RawRecord :=
  if negb (size =? 36) then
    throw ProtocolError ("RDT record must be exactly 36 bytes, received " +:+ pretty size)
  else
    match data with
    | None => throw ProtocolError "RDT record data must not be null"
    | Some data =>
      rdt ← read_u32 data 0; ft ← read_u32 data 4; st ← read_u32 data 8;
      f1 ← read_i32 data 12; f2 ← read_i32 data 16; f3 ← read_i32 data 20;
      t1 ← read_i32 data 24; t2 ← read_i32 data 28; t3 ← read_i32 data 32;
      Ok {| rdt_sequence := rdt; ft_sequence := ft; status := st;
            fx := f1; fy := f2; fz := f3; tx := t1; ty := t2; tz := t3 |}
    end.

(** ** Reference encoder of records

    Source: tests/integration/fake_sensor.py:27-33, [record]: the sensor's side
    of the protocol, nine big-endian words. *)

Definition be32 (z : Z) : list byte :=
  [ byte_of_Z (z / 2 ^ 24); byte_of_Z (z / 2 ^ 16); byte_of_Z (z / 2 ^ 8); byte_of_Z z ].

Definition encode_record (r : RawRecord) : list byte :=
  be32 (rdt_sequence r) ++ be32 (ft_sequence r) ++ be32 (status r) ++
  be32 (fx r) ++ be32 (fy r) ++ be32 (fz r) ++ be32 (tx r) ++ be32 (ty r) ++ be32 (tz r).

(** The C++ type of a record, as a predicate on the model's. *)
Definition record_wf (r : RawRecord) : Prop :=
  is_u 32 (rdt_sequence r) ∧ is_u 32 (ft_sequence r) ∧ is_u 32 (status r) ∧
  is_i 32 (fx r) ∧ is_i 32 (fy r) ∧ is_i 32 (fz r) ∧
  is_i 32 (tx r) ∧ is_i 32 (ty r) ∧ is_i 32 (tz r).

#[global] Instance record_wf_dec r : Decision (record_wf r).
Proof. unfold record_wf. apply _. Defined.

(** ** Words *)

(** The four bytes at [off], as the reference reads them. *)
Definition word_at (data : list byte) (off : nat) : option Z :=
  b0 ← data !! off; b1 ← data !! (off + 1)%nat;
  b2 ← data !! (off + 2)%nat; b3 ← data !! (off + 3)%nat;
  Some (byte_val b0 * 2 ^ 24 + byte_val b1 * 2 ^ 16 + byte_val b2 * 2 ^ 8 + byte_val b3).

Definition to_signed (z : Z) : Z := if z <=? 0x7fffffff then z else z - 2 ^ 32.

Lemma read_u32_spec data off :
  read_u32 data off = match word_at data off with Some z => Ok z | None => UB end.
Proof.
  unfold read_u32, word_at, read_byte. repeat (case_match; simplify_eq/=; try done).
  f_equal.
  repeat match goal with |- context [byte_val ?b] =>
    lazymatch goal with H : 0 ≤ byte_val b < 256 |- _ => fail | _ =>
      pose proof (byte_val_range b) end end.
  rewrite !wrap_u_small by (unfold is_u; rewrite Z.shiftl_mul_pow2 by lia; lia).
  rewrite <-!Z.lor_assoc.
  rewrite (lor_shiftl_add _ (byte_val _) 8), (lor_shiftl_add _ _ 16), (lor_shiftl_add _ _ 24);
    lia.
Qed.

Lemma word_at_range data off z : word_at data off = Some z → is_u 32 z.
Proof.
  unfold word_at, is_u. intros H.
  destruct (data !! off) as [b0|], (data !! (off + 1)%nat) as [b1|],
    (data !! (off + 2)%nat) as [b2|], (data !! (off + 3)%nat) as [b3|]; simplify_eq/=.
  pose proof (byte_val_range b0). pose proof (byte_val_range b1).
  pose proof (byte_val_range b2). pose proof (byte_val_range b3). lia.
Qed.

Lemma word_at_is_Some data off :
  (off + 4 ≤ length data)%nat → ∃ z, word_at data off = Some z ∧ is_u 32 z.
Proof.
  intros H. unfold word_at.
  destruct (lookup_lt_is_Some_2 data off) as [b0 ->]; [lia|].
  destruct (lookup_lt_is_Some_2 data (off + 1)) as [b1 ->]; [lia|].
  destruct (lookup_lt_is_Some_2 data (off + 2)) as [b2 ->]; [lia|].
  destruct (lookup_lt_is_Some_2 data (off + 3)) as [b3 ->]; [lia|].
  simpl. eexists. split; [done|]. unfold is_u.
  pose proof (byte_val_range b0). pose proof (byte_val_range b1).
  pose proof (byte_val_range b2). pose proof (byte_val_range b3). lia.
Qed.

Lemma read_i32_spec data off :
  read_i32 data off =
  match word_at data off with Some z => Ok (to_signed z) | None => UB end.
Proof.
  unfold read_i32. rewrite read_u32_spec.
  destruct (word_at data off) as [z|] eqn:E; [|done]. apply word_at_range in E.
  unfold is_u in E. simpl. unfold to_signed. case_match; [rewrite checked_i_ok; [done|]; unfold is_i; lia|].
  assert (Hc : wrap_u 32 (Z.lnot z) = 2 ^ 32 - 1 - z).
  { unfold wrap_u, Z.lnot. mod_lia. }
  rewrite Hc, !checked_i_ok; [simpl; rewrite !checked_i_ok; [simpl; rewrite !checked_i_ok|]|];
    unfold is_i; try f_equal; lia.
Qed.

Lemma to_signed_range z : is_u 32 z → is_i 32 (to_signed z).
Proof. unfold is_u, is_i, to_signed. case_match; lia. Qed.

Lemma to_signed_wrap z : is_i 32 z → to_signed (wrap_u 32 z) = z.
Proof.
  unfold is_i, to_signed, wrap_u. intros. case_match; mod_lia.
Qed.

Lemma wrap_to_signed z : is_u 32 z → wrap_u 32 (to_signed z) = z.
Proof.
  unfold is_u, to_signed, wrap_u. intros. case_match; mod_lia.
Qed.

Lemma length_be32 z : length (be32 z) = 4%nat.
Proof. done. Qed.

Lemma length_encode_record r : length (encode_record r) = 36%nat.
Proof. done. Qed.

Lemma be32_value z :
  byte_val (byte_of_Z (z / 2 ^ 24)) * 2 ^ 24 + byte_val (byte_of_Z (z / 2 ^ 16)) * 2 ^ 16
    + byte_val (byte_of_Z (z / 2 ^ 8)) * 2 ^ 8 + byte_val (byte_of_Z z) = wrap_u 32 z.
Proof. rewrite !byte_val_of_Z. unfold wrap_u. mod_lia. Qed.

(** The byte at bit [k] of a word only depends on the word's low 32 bits. *)
Lemma byte_of_Z_wrap z k :
  0 ≤ k ≤ 24 → byte_of_Z (wrap_u 32 z / 2 ^ k) = byte_of_Z (z / 2 ^ k).
Proof.
  intros Hk. unfold byte_of_Z. do 3 f_equal. unfold wrap_u.
  apply Z.bits_inj'. intros i Hi. destruct (decide (i < 8)).
  - rewrite !Z.mod_pow2_bits_low, !Z.div_pow2_bits by lia.
    apply Z.mod_pow2_bits_low. lia.
  - by rewrite !Z.mod_pow2_bits_high by lia.
Qed.

Lemma be32_wrap z : be32 (wrap_u 32 z) = be32 z.
Proof.
  unfold be32. rewrite !byte_of_Z_wrap by lia.
  pose proof (byte_of_Z_wrap z 0) as H. rewrite !Z.div_1_r in H. by rewrite H by lia.
Qed.

Lemma be32_to_signed z : is_u 32 z → be32 (to_signed z) = be32 z.
Proof. intros. by rewrite <-be32_wrap, wrap_to_signed. Qed.

Lemma be32_word data off z :
  word_at data off = Some z → be32 z = take 4 (drop off data).
Proof.
  unfold word_at. intros H.
  destruct (data !! off) as [b0|] eqn:E0, (data !! (off + 1)%nat) as [b1|] eqn:E1,
    (data !! (off + 2)%nat) as [b2|] eqn:E2, (data !! (off + 3)%nat) as [b3|] eqn:E3;
    simplify_eq/=.
  assert (drop off data = b0 :: b1 :: b2 :: b3 :: drop (off + 4) data) as ->.
  { rewrite (drop_S data b0 off E0).
    rewrite (drop_S data b1 (S off)) by (by rewrite <-E1; f_equal; lia).
    rewrite (drop_S data b2 (S (S off))) by (by rewrite <-E2; f_equal; lia).
    rewrite (drop_S data b3 (S (S (S off)))) by (by rewrite <-E3; f_equal; lia).
    repeat f_equal. lia. }
  cbn [take]. unfold be32.
  pose proof (byte_val_range b0). pose proof (byte_val_range b1).
  pose proof (byte_val_range b2). pose proof (byte_val_range b3).
  repeat f_equal; match goal with |- byte_of_Z ?e = ?b =>
    transitivity (byte_of_Z (byte_val b)); [|apply byte_of_Z_val] end;
    unfold byte_of_Z; do 3 f_equal; unfold wrap_u; mod_lia.
Qed.

(** [decode_record] in terms of the nine words of the datagram. *)
Lemma decode_record_words data :
  decode_record (Some data) 36 =
  match word_at data 0, word_at data 4, word_at data 8, word_at data 12, word_at data 16,
        word_at data 20, word_at data 24, word_at data 28, word_at data 32 with
  | Some a, Some b, Some c, Some d, Some e, Some f, Some g, Some h, Some i =>
    Ok {| rdt_sequence := a; ft_sequence := b; status := c;
          fx := to_signed d; fy := to_signed e; fz := to_signed f;
          tx := to_signed g; ty := to_signed h; tz := to_signed i |}
  | _, _, _, _, _, _, _, _, _ => UB
  end.
Proof.
  unfold decode_record. rewrite !read_u32_spec, !read_i32_spec.
  change (negb (36 =? 36)) with false. cbv iota.
  repeat (match goal with |- context [word_at data ?o] =>
    destruct (word_at data o); [|reflexivity] end).
  reflexivity.
Qed.

(** C12: a 36-byte RDT datagram carrying any well-typed record decodes to that
    record, whatever follows it in the receive buffer: the decoder inverts the
    sensor's big-endian encoding, two's complement fields included. *)
Theorem decode_encode_record r rest :
  record_wf r → decode_record (Some (encode_record r ++ rest)) 36 = Ok r.
Proof.
  intros (H1 & H2 & H3 & H4 & H5 & H6 & H7 & H8 & H9).
  rewrite decode_record_words.
  cbn [word_at encode_record be32 app lookup list_lookup mbind option_bind Nat.add].
  rewrite !be32_value, !to_signed_wrap, !wrap_u_small by done. by destruct r.
Qed.

Lemma decode_encode_record_witness :
  decode_record (Some (encode_record
    {| rdt_sequence := 4294967295; ft_sequence := 7; status := 0x80010000;
       fx := -1; fy := -2147483648; fz := 2147483647; tx := 0; ty := -256; tz := 255 |}
    ++ [x00; xff])) 36
  = Ok {| rdt_sequence := 4294967295; ft_sequence := 7; status := 0x80010000;
          fx := -1; fy := -2147483648; fz := 2147483647; tx := 0; ty := -256; tz := 255 |}.
Proof. apply decode_encode_record. vm_compute. intuition congruence. Defined.

(** The decoder on a whole datagram: a well-typed record or a [ProtocolError]. *)
Lemma decode_record_outcome data :
  match decode_record (Some data) (Z.of_nat (length data)) with
  | Ok r => record_wf r ∧ length data = 36%nat
  | Throw e => exn_kind e = ProtocolError ∧ length data ≠ 36%nat
  | UB => False
  end.
Proof.
  destruct (decide (Z.of_nat (length data) = 36)) as [E|Hne].
  2: { unfold decode_record. rewrite (proj2 (Z.eqb_neq _ _) Hne). simpl. split; [done|lia]. }
  rewrite E, decode_record_words.
  repeat match goal with |- context [word_at data ?o] =>
    let z := fresh "z" in let E := fresh "E" in let R := fresh "R" in
    destruct (word_at_is_Some data o) as (z & E & R); [lia|]; rewrite E; clear E end.
  split; [|lia]. unfold record_wf; simpl. eauto 20 using to_signed_range.
Qed.

(** The words of a datagram of at least 36 bytes, at the record's offsets. *)
Lemma take_36_words (data : list byte) :
  take 36 data =
  take 4 (drop 0 data) ++ take 4 (drop 4 data) ++ take 4 (drop 8 data) ++
  take 4 (drop 12 data) ++ take 4 (drop 16 data) ++ take 4 (drop 20 data) ++
  take 4 (drop 24 data) ++ take 4 (drop 28 data) ++ take 4 (drop 32 data).
Proof.
  assert (H : ∀ n m, take (n + m) data = take n data ++ take m (drop n data)).
  { intros n m. rewrite <-(take_drop n (take (n + m) data)).
    rewrite take_take, Nat.min_l by lia. by rewrite skipn_firstn_comm, Nat.add_comm, Nat.add_sub. }
  change 36%nat with (32 + 4)%nat. rewrite H.
  change 32%nat with (28 + 4)%nat at 1. rewrite H. change 28%nat with (24 + 4)%nat at 1. rewrite H.
  change 24%nat with (20 + 4)%nat at 1. rewrite H. change 20%nat with (16 + 4)%nat at 1. rewrite H.
  change 16%nat with (12 + 4)%nat at 1. rewrite H. change 12%nat with (8 + 4)%nat at 1. rewrite H.
  change 8%nat with (4 + 4)%nat at 1. rewrite H. by rewrite <-!app_assoc.
Qed.

(** Memory safety and exactness of the decoder. On a buffer that really holds
    the [size] bytes it is told about, it never reads out of bounds and never
    overflows a signed operation; it returns a record exactly for 36-byte
    datagrams, that record is well typed, and re-encoding it gives back the
    datagram; every other size is a [ProtocolError]. *)
Theorem decode_record_exact data size :
  0 ≤ size ≤ Z.of_nat (length data) →
  (size = 36 ∧ ∃ r, decode_record (Some data) size = Ok r ∧ record_wf r ∧
     encode_record r = take 36 data) ∨
  (size ≠ 36 ∧ ∃ msg, decode_record (Some data) size = throw ProtocolError msg).
Proof.
  intros Hs. destruct (decide (size = 36)) as [->|Hne].
  2: { right. split; [done|]. unfold decode_record.
       rewrite (proj2 (Z.eqb_neq _ _) Hne). by eexists. }
  left. split; [done|]. rewrite decode_record_words.
  repeat match goal with |- context [word_at data ?o] =>
    let z := fresh "z" in let E := fresh "E" in let R := fresh "R" in
    destruct (word_at_is_Some data o) as (z & E & R); [lia|]; rewrite E;
    apply be32_word in E end.
  eexists. split; [done|]. split.
  - unfold record_wf; simpl. eauto 20 using to_signed_range.
  - unfold encode_record; simpl rdt_sequence; simpl ft_sequence; simpl status;
    simpl fx; simpl fy; simpl fz; simpl tx; simpl ty; simpl tz.
    rewrite !be32_to_signed by done. rewrite take_36_words. congruence.
Qed.

Lemma decode_record_exact_witness :
  0 ≤ 36 ≤ Z.of_nat (length (replicate 40 xff)) ∧
  ∃ r, decode_record (Some (replicate 40 xff)) 36 = Ok r ∧ fx r = -1.
Proof.
  split; [vm_compute; split; discriminate|].
  destruct (decode_record_exact (replicate 40 xff) 36) as [(_ & r & H & _)|[H _]];
    [vm_compute; split; discriminate| |done].
  exists r. split; [done|]. vm_compute in H. by injection H as <-.
Defined.

(** ** Requests *)

(** Source: tests/integration/fake_sensor.py:22-24, [_REQUEST]: the sensor's
    reading of a request, magic, command and count. *)
Definition parse_request (bs : list byte) : option (Z * Z * Z) :=
  match bs with
  | [m0; m1; c0; c1; n0; n1; n2; n3] =>
    Some (byte_val m0 * 2 ^ 8 + byte_val m1, byte_val c0 * 2 ^ 8 + byte_val c1,
          byte_val n0 * 2 ^ 24 + byte_val n1 * 2 ^ 16 + byte_val n2 * 2 ^ 8 + byte_val n3)
  | _ => None
  end.

(** Every request the client sends is the eight bytes the sensor reads as
    magic [0x1234], the command's code and the full 32-bit count. *)
Theorem encode_request_parses c count :
  is_u 32 count →
  parse_request (encode_request c count) = Some (0x1234, command_value c, count).
Proof.
  intros H. unfold parse_request, encode_request.
  rewrite !byte_val_of_Z, !shiftr_div by lia.
  assert (Hc : wrap_u 8 (count / 2 ^ 24) * 2 ^ 24 + wrap_u 8 (count / 2 ^ 16) * 2 ^ 16
    + wrap_u 8 (count / 2 ^ 8) * 2 ^ 8 + wrap_u 8 count = count).
  { rewrite <-!byte_val_of_Z, be32_value. by apply wrap_u_small. }
  rewrite Hc. by destruct c.
Qed.

Lemma encode_request_parses_witness :
  is_u 32 4000000000 ∧
  parse_request (encode_request SetSoftwareBias 4000000000) = Some (0x1234, 0x42, 4000000000).
Proof.
  split; [vm_compute; split; congruence|].
  apply encode_request_parses. vm_compute; split; congruence.
Defined.

End Rdt.
