(* ===== verification/Sequence.v ===== *)
(** * Sequence trackers: core/src/detail/sequence.{hpp,cpp}

    Both trackers classify a 32-bit counter that wraps. Their correctness is
    stated against the unwrapped counter: an unbounded index whose low 32 bits
    the device sends. *)

From Stdlib Require Import ZArith Lia.
From S2P Require Import Prelude.

Module Sequence.

(** Source: core/src/detail/sequence.hpp:7-7, [SequenceKind]. *)
Inductive SequenceKind := RdtFirst | Contiguous | Gap | Duplicate | OutOfOrder.

(** Source: core/src/detail/sequence.hpp:9-12, [SequenceObservation]. *)
Record SequenceObservation := { kind : SequenceKind; gap : Z }.

(** Source: core/src/detail/sequence.hpp:14-24, [RdtSequenceTracker]. *)
Record RdtSequenceTracker := { rdt_has_last : bool; rdt_previous : Z }.

(** Source: core/src/detail/sequence.hpp:22-23, [RdtSequenceTracker]: the member
    initialisers. *)
Definition rdt_init : RdtSequenceTracker := {| rdt_has_last := false; rdt_previous := 0 |}.

(** Source: core/src/detail/sequence.hpp:26-26, [FtSequenceKind]. *)
Inductive FtSequenceKind := FtFirst | FtForward | FtStall | FtBackward | FtRestart.

(** Source: core/src/detail/sequence.hpp:32-44, [FtSequenceTracker]. *)
Record FtSequenceTracker := {
  ft_has_last : bool; ft_previous : Z;
  has_restart_candidate : bool; restart_candidate : Z
}.

(** Source: core/src/detail/sequence.hpp:40-43, [FtSequenceTracker]: the member
    initialisers. *)
Definition ft_init : FtSequenceTracker :=
  {| ft_has_last := false; ft_previous := 0;
     has_restart_candidate := false; restart_candidate := 0 |}.

#[global] Instance RdtSequenceTracker_eta : Eta RdtSequenceTracker := λ r,
  {| rdt_has_last := rdt_has_last r; rdt_previous := rdt_previous r |}.
#[global] Instance FtSequenceTracker_eta : Eta FtSequenceTracker := λ r,
  {| ft_has_last := ft_has_last r; ft_previous := ft_previous r;
     has_restart_candidate := has_restart_candidate r;
     restart_candidate := restart_candidate r |}.
#[global] Instance SequenceKind_eq_dec : EqDecision SequenceKind.
Proof. solve_decision. Defined.
#[global] Instance SequenceObservation_eq_dec : EqDecision SequenceObservation.
Proof. solve_decision. Defined.
#[global] Instance FtSequenceKind_eq_dec : EqDecision FtSequenceKind.
Proof. solve_decision. Defined.
#[global] Instance RdtSequenceTracker_eq_dec : EqDecision RdtSequenceTracker.
Proof. solve_decision. Defined.
#[global] Instance FtSequenceTracker_eq_dec : EqDecision FtSequenceTracker.
Proof. solve_decision. Defined.

(** Source: core/src/detail/sequence.cpp:6-7, [kRestartLowMax] and
    [kRestartMinBaseline]. *)
Definition kRestartLowMax : Z := 0x0000ffff.
Definition kRestartMinBaseline : Z := kRestartLowMax + 1.

(** Source: core/src/detail/sequence.cpp:11-28, [RdtSequenceTracker::observe]. *)
Definition rdt_observe (t : RdtSequenceTracker) (current : Z)
    : RdtSequenceTracker * SequenceObservation :=
  if negb (rdt_has_last t) then
    (t <| rdt_has_last := true |> <| rdt_previous := current |>,
     {| kind := RdtFirst; gap := 0 |})
  else
    let delta := wrap_u 32 (current - rdt_previous t) in
    if delta =? 0 then (t, {| kind := Duplicate; gap := 0 |})
    else if delta <? 0x80000000 then
      (t <| rdt_previous := current |>,
       if delta =? 1 then {| kind := Contiguous; gap := 0 |}
       else {| kind := Gap; gap := wrap_u 32 (delta - 1) |})
    else (t, {| kind := OutOfOrder; gap := 0 |}).

(** Source: core/src/detail/sequence.cpp:30-30, [RdtSequenceTracker::reset]. *)
Definition rdt_reset (t : RdtSequenceTracker) : RdtSequenceTracker :=
  t <| rdt_has_last := false |>.

(** Source: core/src/detail/sequence.cpp:32-32, [FtSequenceTracker::begin_session]. *)
Definition begin_session (t : FtSequenceTracker) : FtSequenceTracker :=
  t <| has_restart_candidate := false |>.

(** Source: core/src/detail/sequence.cpp:34-65, [FtSequenceTracker::observe]. *)
Definition ft_observe (t : FtSequenceTracker) (current : Z)
    : FtSequenceTracker * FtSequenceKind :=
  if negb (ft_has_last t) then
    (t <| ft_has_last := true |> <| ft_previous := current |>, FtFirst)
  else if current =? ft_previous t then
    (t <| has_restart_candidate := false |>, FtStall)
  else
    let delta := wrap_u 32 (current - ft_previous t) in
    if delta <? 0x80000000 then
      (t <| ft_previous := current |> <| has_restart_candidate := false |>, FtForward)
    else
      let candidate_delta := wrap_u 32 (current - restart_candidate t) in
      if (kRestartMinBaseline <=? ft_previous t) && has_restart_candidate t
         && (restart_candidate t <=? kRestartLowMax) && (current <=? kRestartLowMax)
         && (0 <? candidate_delta) && (candidate_delta <? 0x80000000)
      then (t <| ft_previous := current |> <| has_restart_candidate := false |>, FtRestart)
      else (t <| restart_candidate := current |> <| has_restart_candidate := true |>, FtBackward).

(** ** The unwrapped counter *)

(** The serial distance between two indices less than half a turn apart. *)
Lemma wrap_distance n p :
  -2 ^ 31 < n - p < 2 ^ 31 →
  wrap_u 32 (wrap_u 32 n - wrap_u 32 p) =
  if decide (p ≤ n) then n - p else n - p + 2 ^ 32.
Proof.
  intros H. unfold wrap_u. rewrite <-Zminus_mod. case_decide.
  - apply Z.mod_small. lia.
  - symmetry. apply (Z.mod_unique _ _ (-1)); lia.
Qed.

(** The tracker has last accepted the record of unwrapped index [p]. *)
Definition rdt_at (t : RdtSequenceTracker) (p : Z) : Prop :=
  rdt_has_last t = true ∧ rdt_previous t = wrap_u 32 p.

(** What the tracker should say about index [n] after accepting [p]. *)
Definition rdt_spec (p n : Z) : SequenceObservation :=
  if decide (n = p) then {| kind := Duplicate; gap := 0 |}
  else if decide (n < p) then {| kind := OutOfOrder; gap := 0 |}
  else if decide (n = p + 1) then {| kind := Contiguous; gap := 0 |}
  else {| kind := Gap; gap := n - p - 1 |}.

Lemma rdt_observe_at t p n :
  rdt_at t p → -2 ^ 31 < n - p < 2 ^ 31 →
  (rdt_observe t (wrap_u 32 n)).2 = rdt_spec p n ∧
  rdt_at (rdt_observe t (wrap_u 32 n)).1 (Z.max p n).
Proof.
  intros [Hl Hp] Hd. unfold rdt_observe, rdt_spec. rewrite Hl, Hp. cbn [negb].
  rewrite wrap_distance by done.
  destruct (decide (n = p)) as [->|Hne].
  { rewrite decide_True by lia. replace (p - p) with 0 by lia. cbn [Z.eqb fst snd].
    split; [done|]. rewrite Z.max_id. by split. }
  destruct (decide (n < p)) as [Hlt|Hge].
  { rewrite decide_False by lia.
    rewrite (proj2 (Z.eqb_neq _ 0)), (proj2 (Z.ltb_ge _ _)) by lia.
    split; [done|]. rewrite Z.max_l by lia. by split. }
  rewrite decide_True by lia.
  rewrite (proj2 (Z.eqb_neq _ 0)), (proj2 (Z.ltb_lt _ _)) by lia.
  split.
  - destruct (decide (n = p + 1)) as [->|].
    + by rewrite (proj2 (Z.eqb_eq _ 1)) by lia.
    + rewrite (proj2 (Z.eqb_neq _ 1)) by lia. cbn [snd]. f_equal.
      apply wrap_u_small. unfold is_u. lia.
  - rewrite Z.max_r by lia. by split.
Qed.

(** ** A whole stream *)

(** The tracker run over a stream of received sequence numbers. *)
Fixpoint rdt_run (t : RdtSequenceTracker) (received : list Z)
    : RdtSequenceTracker * list SequenceObservation :=
  match received with
  | [] => (t, [])
  | c :: rest =>
    let '(t', o) := rdt_observe t c in
    let '(t'', os) := rdt_run t' rest in (t'', o :: os)
  end.

(** Every index of the stream is less than half a turn from the highest before. *)
Fixpoint near_front (p : Z) (indices : list Z) : Prop :=
  match indices with
  | [] => True
  | n :: rest => -2 ^ 31 < n - p < 2 ^ 31 ∧ near_front (Z.max p n) rest
  end.

Definition total_gap (os : list SequenceObservation) : Z :=
  foldr (λ o acc, gap o + acc) 0 os.

Definition is_forward (o : SequenceObservation) : bool :=
  match kind o with Contiguous | Gap => true | _ => false end.

Definition forward_count (os : list SequenceObservation) : Z :=
  Z.of_nat (length (List.filter is_forward os)).

Lemma rdt_spec_advance p n :
  Z.max p n = p + gap (rdt_spec p n) + (if is_forward (rdt_spec p n) then 1 else 0).
Proof. unfold rdt_spec, is_forward. repeat case_decide; cbn; lia. Qed.

Lemma rdt_run_at t p indices :
  rdt_at t p → near_front p indices →
  rdt_at (rdt_run t (wrap_u 32 <$> indices)).1 (foldl Z.max p indices) ∧
  foldl Z.max p indices =
    p + total_gap (rdt_run t (wrap_u 32 <$> indices)).2
      + forward_count (rdt_run t (wrap_u 32 <$> indices)).2.
Proof.
  revert t p. induction indices as [|n rest IH]; intros t p Ht Hn.
  { unfold total_gap, forward_count. cbn. split; [done|lia]. }
  destruct Hn as [Hd Hn]. destruct (rdt_observe_at t p n Ht Hd) as [Ho Ht'].
  cbn [fmap list_fmap rdt_run foldl].
  destruct (rdt_observe t (wrap_u 32 n)) as [t' o]. cbn [fst snd] in *. subst o.
  specialize (IH t' (Z.max p n) Ht' Hn) as [IH1 IH2].
  destruct (rdt_run t' (wrap_u 32 <$> rest)) as [t'' os]. cbn [fst snd] in *.
  split; [done|]. rewrite IH2. pose proof (rdt_spec_advance p n).
  unfold forward_count, total_gap. cbn [foldr List.filter].
  destruct (is_forward (rdt_spec p n)); cbn [length]; lia.
Qed.

(** C27: loss accounting across wrap-around. Over any stream of RDT indices (starting
    anywhere, wrapping any number of times, reordered and duplicated arbitrarily
    as long as each is less than 2^31 from the newest seen), the gaps reported
    add up to exactly the number of indices up to the newest one that were
    skipped: newest = first + forward records + lost records. *)
Theorem rdt_lost_accounting t first indices :
  near_front first indices →
  ∃ t' o os,
    rdt_run (rdt_reset t) (wrap_u 32 <$> first :: indices) = (t', o :: os) ∧
    kind o = RdtFirst ∧
    foldl Z.max first indices = first + total_gap os + forward_count os.
Proof.
  intros Hn. cbn [fmap list_fmap rdt_run].
  set (t1 := {| rdt_has_last := true; rdt_previous := wrap_u 32 first |}).
  destruct (rdt_run_at t1 first indices) as [_ H]; [by split|done|].
  change (rdt_observe (rdt_reset t) (wrap_u 32 first)) with (t1, {| kind := RdtFirst; gap := 0 |}).
  cbv iota.
  destruct (rdt_run t1 (wrap_u 32 <$> indices)) as [t' os]. by eexists _, _, _.
Qed.

Lemma rdt_lost_accounting_witness :
  near_front (2 ^ 32 - 1) [2 ^ 32 + 2; 2 ^ 32 + 1; 2 ^ 32 + 2; 2 ^ 32 + 3] ∧
  ∃ t' o os,
    rdt_run (rdt_reset rdt_init)
      (wrap_u 32 <$> [2 ^ 32 - 1; 2 ^ 32 + 2; 2 ^ 32 + 1; 2 ^ 32 + 2; 2 ^ 32 + 3])
      = (t', o :: os) ∧
    kind o = RdtFirst ∧ 2 ^ 32 + 3 = 2 ^ 32 - 1 + total_gap os + forward_count os.
Proof.
  split; [vm_compute; intuition congruence|].
  apply (rdt_lost_accounting rdt_init (2 ^ 32 - 1)
    [2 ^ 32 + 2; 2 ^ 32 + 1; 2 ^ 32 + 2; 2 ^ 32 + 3]).
  vm_compute; intuition congruence.
Defined.

(** ** The FT tracker *)

(** The counter is backward of the baseline: more than half a turn ahead of it. *)
Definition backward_of (t : FtSequenceTracker) (c : Z) : Prop :=
  0x80000000 ≤ wrap_u 32 (c - ft_previous t).

(** The type invariant of the tracker. *)
Definition ft_wf (t : FtSequenceTracker) : Prop :=
  is_u 32 (ft_previous t) ∧ is_u 32 (restart_candidate t).

(** The conditions of the restart branch. *)
Definition restart_confirmed (t : FtSequenceTracker) (c : Z) : Prop :=
  kRestartMinBaseline ≤ ft_previous t ∧ has_restart_candidate t = true ∧
  restart_candidate t < c ∧ c ≤ kRestartLowMax.

(** The branches of [ft_observe], with the wrapped comparison of the candidate
    replaced by the plain one it amounts to. *)
Lemma ft_observe_cases t c :
  ft_wf t → is_u 32 c →
  ft_observe t c =
  if negb (ft_has_last t) then
    (t <| ft_has_last := true |> <| ft_previous := c |>, FtFirst)
  else if decide (c = ft_previous t) then (t <| has_restart_candidate := false |>, FtStall)
  else if decide (wrap_u 32 (c - ft_previous t) < 0x80000000) then
    (t <| ft_previous := c |> <| has_restart_candidate := false |>, FtForward)
  else if decide (kRestartMinBaseline ≤ ft_previous t ∧ has_restart_candidate t = true ∧
                  restart_candidate t < c ∧ c ≤ kRestartLowMax) then
    (t <| ft_previous := c |> <| has_restart_candidate := false |>, FtRestart)
  else (t <| restart_candidate := c |> <| has_restart_candidate := true |>, FtBackward).
Proof.
  unfold ft_wf, is_u. intros [Hp Hr] Hc. unfold ft_observe.
  destruct (ft_has_last t); [|done]. cbn [negb].
  destruct (Z.eqb_spec c (ft_previous t)); [by rewrite decide_True|rewrite decide_False by done].
  destruct (Z.ltb_spec (wrap_u 32 (c - ft_previous t)) 0x80000000);
    [by rewrite decide_True|rewrite decide_False by lia].
  destruct (has_restart_candidate t); rewrite ?andb_true_r, ?andb_false_r;
    [|by rewrite decide_False by (by intros (_ & ? & _))].
  unfold kRestartMinBaseline, kRestartLowMax in *.
  case_decide as D.
  - destruct D as (D1 & _ & D2 & D3). unfold wrap_u. rewrite (Z.mod_small (c - restart_candidate t)) by lia.
    by rewrite !(proj2 (Z.leb_le _ _)), !(proj2 (Z.ltb_lt _ _)) by lia.
  - case_match eqn:E; [|done]. exfalso. rewrite !andb_true_iff in E.
    unfold wrap_u in E. destruct E as [[[[E1 E2] E3] E4] E5].
    apply D. split_and!; [lia|done| |lia].
    destruct (decide (restart_candidate t ≤ c)); [|mod_lia].
    rewrite Z.mod_small in E4 by lia. lia.
Qed.

Lemma ft_observe_wf t c : ft_wf t → is_u 32 c → ft_wf (ft_observe t c).1.
Proof.
  intros Ht Hc. rewrite ft_observe_cases by done. destruct Ht.
  repeat case_match; split; done.
Qed.

(** Recovery from a device restart. When the baseline is above 0xffff and the
    device comes back counting from low values, the first low record is reported
    [Backward] and leaves the baseline alone; the second, strictly larger, is
    reported [Restart] and becomes the new baseline, after which every record
    less than half a turn ahead is [Forward]: exactly one record is lost to the
    restart. *)
Theorem ft_restart_recovery t c1 c2 c3 :
  ft_wf t → ft_has_last t = true → has_restart_candidate t = false →
  kRestartMinBaseline ≤ ft_previous t →
  0 ≤ c1 → c1 < c2 → c2 ≤ kRestartLowMax → backward_of t c1 → backward_of t c2 →
  is_u 32 c3 → 0 < wrap_u 32 (c3 - c2) < 0x80000000 →
  let '(t1, k1) := ft_observe t c1 in
  let '(t2, k2) := ft_observe t1 c2 in
  let '(t3, k3) := ft_observe t2 c3 in
  k1 = FtBackward ∧ ft_previous t1 = ft_previous t ∧
  k2 = FtRestart ∧ ft_previous t2 = c2 ∧
  k3 = FtForward ∧ ft_previous t3 = c3.
Proof.
  unfold backward_of. intros Ht Hl Hc Hb H0 H12 H2 Hb1 Hb2 Hu3 Hf.
  assert (Hu : is_u 32 c1 ∧ is_u 32 c2) by (unfold is_u, kRestartLowMax in *; lia).
  destruct Hu as [Hu1 Hu2], Ht as [Hp Hr], t as [hl p hc cand]. cbn in *. subst hl hc.
  unfold kRestartMinBaseline in *.
  assert (c1 ≠ p ∧ c2 ≠ p) as [Hn1 Hn2] by (unfold kRestartLowMax in *; lia).
  rewrite ft_observe_cases by (first [done | by split]). cbn.
  rewrite (decide_False (P:=c1 = p)), (decide_False (P:=_ < 2147483648)), decide_False
    by (lia || (by intros (_ & ? & _))).
  rewrite ft_observe_cases by (first [done | by split]). cbn.
  rewrite (decide_False (P:=c2 = p)), (decide_False (P:=_ < 2147483648)), decide_True
    by (lia || split_and!; done || lia).
  rewrite ft_observe_cases by (first [done | by split]). cbn.
  assert (Hn3 : c3 ≠ c2) by (intros ->; rewrite Z.sub_diag in Hf; by destruct Hf).
  by rewrite decide_False, decide_True by (done || lia).
Qed.

Lemma ft_restart_recovery_witness :
  let t := {| ft_has_last := true; ft_previous := 1000000;
              has_restart_candidate := false; restart_candidate := 0 |} in
  ft_wf t ∧
  let '(t1, k1) := ft_observe t 3 in
  let '(t2, k2) := ft_observe t1 4 in
  let '(t3, k3) := ft_observe t2 5 in
  k1 = FtBackward ∧ ft_previous t1 = ft_previous t ∧
  k2 = FtRestart ∧ ft_previous t2 = 4 ∧ k3 = FtForward ∧ ft_previous t3 = 5.
Proof.
  split; [vm_compute; intuition congruence|].
  apply (ft_restart_recovery {| ft_has_last := true; ft_previous := 1000000;
    has_restart_candidate := false; restart_candidate := 0 |} 3 4 5);
    vm_compute; intuition congruence.
Defined.

(** A restart is never reported on a single record or across sessions. Whatever
    the state, a [Restart] needs a candidate recorded by an earlier [Backward]
    observation with no [First], [Stall], [Forward], [Restart] or new session in
    between, and the baseline moves on [First], [Forward] and [Restart] only. *)
Theorem ft_restart_needs_candidate t c :
  ft_wf t → is_u 32 c →
  (let '(t', k) := ft_observe t c in
   (k = FtRestart → restart_confirmed t c) ∧
   (has_restart_candidate t' = true → ft_has_last t = true → k = FtBackward) ∧
   (k = FtBackward → has_restart_candidate t' = true ∧ restart_candidate t' = c) ∧
   (k = FtStall ∨ k = FtBackward → ft_previous t' = ft_previous t) ∧
   (k = FtFirst ∨ k = FtForward ∨ k = FtRestart → ft_previous t' = c)) ∧
  (ft_observe (begin_session t) c).2 ≠ FtRestart.
Proof.
  intros Ht Hc. split.
  - rewrite ft_observe_cases by done. unfold restart_confirmed.
    destruct (ft_has_last t); cbn [negb]; [|cbn; intuition congruence].
    repeat (case_decide; [cbn; intuition congruence|]). cbn. intuition congruence.
  - rewrite ft_observe_cases by (first [exact Ht | exact Hc]).
    destruct t as [[] p hc cand]; cbn; [|done].
    repeat case_match; destruct_and?; done.
Qed.

Lemma ft_restart_needs_candidate_witness :
  ft_wf ft_init ∧ (ft_observe (begin_session ft_init) 5).2 ≠ FtRestart.
Proof.
  split; [vm_compute; intuition congruence|].
  apply (ft_restart_needs_candidate ft_init 5); vm_compute; intuition congruence.
Defined.

End Sequence.
