(* ===== verification/FaultLatch.v ===== *)
(** * The fault latch: core/src/detail/fault_latch.{hpp,cpp}

    The latch is one atomic [FaultCode]; [publish] is a compare-exchange from
    [None] under the data mutex, so the first fault wins until [reset]. *)

From Stdlib Require Import ZArith Lia String.
From S2P Require Import Prelude Floats Clock Types.

Module FaultLatch.

(** Source: core/src/detail/fault_latch.hpp:11-25, [FaultLatch]. *)
Record FaultLatch := { code_ : FaultCode }.

(** Source: core/src/detail/fault_latch.hpp:24-24, [code_]: its initialiser. *)
Definition latch_init : FaultLatch := {| code_ := FaultCode.None |}.

(** Source: core/src/detail/fault_latch.cpp:7-23, [FaultLatch::publish]. The
    result is the latch, the health snapshot and whether the fault was latched. *)
Definition publish (l : FaultLatch) (code : FaultCode) (message : string)
    (health : HealthSnapshot) : FaultLatch * HealthSnapshot * bool :=
  if bool_decide (code_ l = FaultCode.None) then
    ({| code_ := code |},
     health <| HealthSnapshot.state := ClientState.Faulted |>
            <| HealthSnapshot.fault_code := code |>
            <| HealthSnapshot.last_error := message |>, true)
  else (l, health, false).

(** Source: core/src/detail/fault_latch.cpp:25-25, [FaultLatch::reset]. *)
Definition reset (l : FaultLatch) : FaultLatch := {| code_ := FaultCode.None |}.

(** Source: core/src/detail/fault_latch.cpp:27-29, [FaultLatch::faulted]. *)
Definition faulted (l : FaultLatch) : bool := bool_decide (code_ l ≠ FaultCode.None).

(** Source: core/src/detail/fault_latch.cpp:31-31, [FaultLatch::code]. *)
Definition code (l : FaultLatch) : FaultCode := code_ l.

#[global] Instance FaultLatch_eq_dec : EqDecision FaultLatch.
Proof. solve_decision. Defined.

(** A sequence of publications, from any threads: the data mutex makes each one
    atomic. *)
Fixpoint publish_all (l : FaultLatch) (h : HealthSnapshot)
    (faults : list (FaultCode * string)) : FaultLatch * HealthSnapshot * list bool :=
  match faults with
  | [] => (l, h, [])
  | (c, m) :: rest =>
    let '(l', h', b) := publish l c m h in
    let '(l'', h'', bs) := publish_all l' h' rest in (l'', h'', b :: bs)
  end.

Lemma publish_all_latched l h faults :
  faulted l = true →
  publish_all l h faults = (l, h, replicate (length faults) false).
Proof.
  intros Hf. induction faults as [|[c m] rest IH]; [done|]. cbn [publish_all].
  unfold publish. unfold faulted in Hf. apply bool_decide_eq_true in Hf.
  rewrite bool_decide_eq_false_2 by done. by rewrite IH.
Qed.

(** First fault wins. Whatever faults are published after a reset and in
    whatever order, only the first one is latched and reported: the latch and the
    health snapshot keep its code and message, and every later publication is
    refused without changing either. *)
Theorem first_fault_wins l h c m rest :
  c ≠ FaultCode.None →
  publish_all (reset l) h ((c, m) :: rest) =
    ({| code_ := c |},
     h <| HealthSnapshot.state := ClientState.Faulted |>
       <| HealthSnapshot.fault_code := c |>
       <| HealthSnapshot.last_error := m |>,
     true :: replicate (length rest) false).
Proof.
  intros Hc. cbn [publish_all]. unfold publish, reset. cbn [code_].
  rewrite bool_decide_eq_true_2 by done.
  rewrite publish_all_latched; [done|]. unfold faulted. by apply bool_decide_eq_true_2.
Qed.

Lemma first_fault_wins_witness :
  (publish_all latch_init HealthSnapshot.default_HealthSnapshot
     [(FaultCode.Timeout, "a"); (FaultCode.Socket, "b")]).1.1
  = {| code_ := FaultCode.Timeout |}.
Proof.
  pose proof (first_fault_wins latch_init HealthSnapshot.default_HealthSnapshot
    FaultCode.Timeout "a" [(FaultCode.Socket, "b"%string)]) as H.
  unfold reset in H. unfold latch_init. rewrite H; [reflexivity|discriminate].
Defined.

End FaultLatch.
