(* ===== verification/Decimal.v ===== *)
(** * Reading a [double] from a stream in the classic locale

    What [std::istream >> double] (no whitespace skipping, "C" locale, libstdc++'s
    decimal grammar) followed by an end-of-input check accepts, and the value it
    stores: the decimal literal correctly rounded to binary64, as [strtod] gives it
    in round-to-nearest mode. Overflow sets the fail bit. *)

From Stdlib Require Import ZArith Lia Ascii String.
From Corelib Require Import SpecFloat.
From S2P Require Import Prelude Floats.
Import Fp.

Module Decimal.

Local Open Scope char_scope.

Definition digit_value (c : ascii) : option Z :=
  let n := Z.of_N (N_of_ascii c) in
  if ((48 <=? n) && (n <=? 57))%Z then Some (n - 48)%Z else None.

Definition is_digit (c : ascii) : bool :=
  match digit_value c with Some _ => true | None => false end.

(** The longest prefix of digits and what follows it. *)
Fixpoint span_digits (s : list ascii) : list ascii * list ascii :=
  match s with
  | c :: s' => if is_digit c then let '(ds, r) := span_digits s' in (c :: ds, r) else ([], s)
  | [] => ([], [])
  end.

Definition digits_value (ds : list ascii) : Z :=
  foldl (λ acc c, acc * 10 + default 0%Z (digit_value c))%Z 0%Z ds.

(** An optional sign; [true] for minus. *)
Definition read_sign (s : list ascii) : bool * list ascii :=
  match s with
  | c :: s' =>
    if Ascii.eqb c "-" then (true, s') else if Ascii.eqb c "+" then (false, s') else (false, s)
  | [] => (false, [])
  end.

(** The exponent part, which must end the input. *)
Definition read_exponent (s : list ascii) : option Z :=
  match s with
  | [] => Some 0%Z
  | c :: s' =>
    if Ascii.eqb c "e" || Ascii.eqb c "E" then
      let '(neg, s'') := read_sign s' in
      let '(ds, r) := span_digits s'' in
      match ds, r with
      | _ :: _, [] => Some (if neg then - digits_value ds else digits_value ds)%Z
      | _, _ => None
      end
    else None
  end.

(** A complete literal: sign, significand digits and decimal exponent. *)
Record literal := { negative : bool; significand : Z; exponent10 : Z }.

Definition read_literal (s : list ascii) : option literal :=
  let '(neg, s) := read_sign s in
  let '(int_part, s) := span_digits s in
  let '(frac_part, s) :=
    match s with
    | c :: s' => if Ascii.eqb c "." then span_digits s' else ([], s)
    | [] => ([], [])
    end in
  match int_part ++ frac_part with
  | [] => None
  | ds =>
    e ← read_exponent s;
    Some {| negative := neg; significand := digits_value ds;
            exponent10 := (e - Z.of_nat (length frac_part))%Z |}
  end.

(** The correctly rounded value. *)
Definition literal_value (l : literal) : double :=
  match significand l with
  | Zpos m =>
    if (0 <=? exponent10 l)%Z then
      binary_round 53 1024 (negative l) (m * Z.to_pos (10 ^ exponent10 l)) 0
    else
      let '(q, e, loc) :=
        SFdiv_core_binary 53 1024 (Zpos m) 0 (10 ^ (- exponent10 l)) 0 in
      binary_round_aux 53 1024 (negative l) q e loc
  | _ => S754_zero (negative l)
  end.

(** [input >> result] consumed everything and the fail bit is clear. *)
Definition extract_double (s : list ascii) : option double :=
  l ← read_literal s;
  let v := literal_value l in
  if isfinite v then Some v else None.

Lemma literal_value_valid l : d_valid (literal_value l).
Proof.
  unfold d_valid, literal_value. destruct (significand l) as [|m|m]; [done| |done].
  destruct (Z.leb_spec 0 (exponent10 l)); [by apply binary_round_valid|].
  destruct (SFdiv_core_binary _ _ _ _ _ _) as [[q e] loc] eqn:E.
  apply SFdiv_core_valid with (m1 := Zpos m) (e1 := 0%Z) (m2 := (10 ^ (- exponent10 l))%Z)
    (e2 := 0%Z); [lia|lia|apply Z.pow_pos_nonneg; lia|exact E].
Qed.

Lemma extract_double_valid s v : extract_double s = Some v → d_valid v ∧ isfinite v = true.
Proof.
  unfold extract_double. destruct (read_literal s) as [l|]; [|done]. simpl.
  destruct (isfinite (literal_value l)) eqn:E; [|done]. intros [= <-].
  split; [apply literal_value_valid|done].
Qed.

Example extract_1000000 : extract_double (list_ascii_of_string "1000000") = Some (d_of_Z 1000000).
Proof. by vm_compute. Qed.
Example extract_exp : extract_double (list_ascii_of_string "-12.5e-1") = Some (d_ratio (-5) 4).
Proof. by vm_compute. Qed.
Example extract_tenth : extract_double (list_ascii_of_string ".1") = Some (d_ratio 1 10).
Proof. by vm_compute. Qed.
Example extract_rejects :
  Forall (λ s, extract_double (list_ascii_of_string s) = None)
    [""; "."; "1e"; "1e+"; "1.2.3"; "0x10"; "inf"; "nan"; "1,000"; "1 "; "1e999"]%string.
Proof. repeat constructor; by vm_compute. Qed.

End Decimal.
