(* ===== verification/XmlConfig.v ===== *)
(** * Sensor configuration documents: core/src/detail/xml_config.{hpp,cpp}

    The hand-written scanner of the sensor's XML and the conversion of its fields
    to a [SensorConfiguration]. A [std::string_view] is a [list ascii]; positions
    are indices into the document; [npos] is [None]. *)

From Stdlib Require Import ZArith Lia Ascii String.
From Corelib Require Import SpecFloat.
From S2P Require Import Prelude Floats Clock Types Decimal.
Import Fp.

Module XmlConfig.

Abbreviation view := (list ascii).
Definition txt (s : string) : view := list_ascii_of_string s.

(** ** [std::string_view] *)

Definition substr (v : view) (pos n : nat) : view := take n (drop pos v).
Definition substr_from (v : view) (pos : nat) : view := drop pos v.

(** Does [v] start with [p]? *)
Fixpoint starts_with (p v : view) : bool :=
  match p, v with
  | [], _ => true
  | a :: p', b :: v' => Ascii.eqb a b && starts_with p' v'
  | _ :: _, [] => false
  end.

Fixpoint find_offset (p v : view) : option nat :=
  if starts_with p v then Some 0%nat
  else match v with [] => None | _ :: v' => S <$> find_offset p v' end.

(** [v.find(p, pos)]. *)
Definition find (v p : view) (pos : nat) : option nat :=
  (λ i, pos + i)%nat <$> find_offset p (drop pos v).

(** [v.find_first_of(set)]. *)
Fixpoint find_first_of (v set : view) : option nat :=
  match v with
  | [] => None
  | c :: v' => if existsb (Ascii.eqb c) set then Some 0%nat else S <$> find_first_of v' set
  end.

(** ** Constants and characters *)

(** Source: core/src/detail/xml_config.cpp:17-17, [kMaximumFieldLength]. *)
Definition kMaximumFieldLength : nat := 128.

(** Source: core/src/detail/xml_config.cpp:18-19, [kRequiredTags]. *)
Definition kRequiredTags : list string := ["prodname"; "cfgcpf"; "cfgcpt"; "scfgfu"; "scfgtu"]%string.

(** Source: core/src/detail/xml_config.cpp:21-24, [is_ascii_whitespace]. *)
Definition is_ascii_whitespace (c : ascii) : bool :=
  Ascii.eqb c " " || Ascii.eqb c "009" || Ascii.eqb c "010" || Ascii.eqb c "013"
  || Ascii.eqb c "012" || Ascii.eqb c "011".

(** [" \t\r\n\f\v"], the separators of a tag name. *)
Definition whitespace : view := [" "; "009"; "013"; "010"; "012"; "011"]%char.

Fixpoint skip_whitespace (v : view) : view :=
  match v with
  | c :: v' => if is_ascii_whitespace c then skip_whitespace v' else v
  | [] => []
  end.

(** Source: core/src/detail/xml_config.cpp:26-34, [trim_ascii_whitespace]. *)
Definition trim_ascii_whitespace (v : view) : view :=
  reverse (skip_whitespace (reverse (skip_whitespace v))).

Fixpoint tag_index_from (i : nat) (tags : list string) (name : view) : option nat :=
  match tags with
  | [] => None
  | t :: rest => if bool_decide (name = txt t) then Some i else tag_index_from (S i) rest name
  end.

(** Source: core/src/detail/xml_config.cpp:36-43, [required_tag_index]; [None] is
    the result -1. *)
Definition required_tag_index (name : view) : option nat := tag_index_from 0 kRequiredTags name.

(** Source: core/src/detail/xml_config.cpp:47-58, [find_tag_end]: the loop over
    the characters from [position] on, with the open quote if any. *)
Fixpoint find_tag_end_loop (rest : view) (position : nat) (quote : option ascii) : option nat :=
  match rest with
  | [] => None
  | c :: rest' =>
    match quote with
    | Some q => find_tag_end_loop rest' (S position) (if Ascii.eqb c q then None else quote)
    | None =>
      if Ascii.eqb c "'" || Ascii.eqb c "034" then find_tag_end_loop rest' (S position) (Some c)
      else if Ascii.eqb c ">" then Some position
      else find_tag_end_loop rest' (S position) None
    end
  end.

(** Source: core/src/detail/xml_config.cpp:45-60, [find_tag_end]. *)
Definition find_tag_end (xml : view) (start : nat) : Res nat :=
  match find_tag_end_loop (drop start xml) start None with
  | Some position => Ok position
  | None => throw DiscoveryError "sensor configuration contains unterminated markup"
  end.

(** ** The scanner *)

(** Source: core/src/detail/xml_config.cpp:62-65, [OpenElement]. *)
Record OpenElement := { name : view; required_index : option nat }.

(** The local variables of [extract_required_fields]; [elements] has the
    innermost open element first. *)
Record Scan := {
  fields : list view;
  seen : list bool;
  elements : list OpenElement;
  position : nat
}.

#[export] Instance Scan_eta : Eta Scan := λ r,
  {| fields := fields r; seen := seen r; elements := elements r; position := position r |}.

Definition scan_init : Scan :=
  {| fields := replicate 5 []; seen := replicate 5 false; elements := []; position := 0 |}.

(** Source: core/src/detail/xml_config.cpp:109-114, [append_required_text]. *)
Definition append_required_text (st : Scan) (text : view) : Scan :=
  match elements st with
  | {| required_index := Some i |} :: _ => st <| fields ::= alter (λ f, f ++ text) i |>
  | _ => st
  end.

Definition malformed_nesting {A} : Res A :=
  throw DiscoveryError "sensor configuration contains malformed element nesting".
Definition malformed_markup {A} : Res A :=
  throw DiscoveryError "sensor configuration contains malformed markup".
Definition field_error {A} (index : nat) (msg : string) : Res A :=
  throw DiscoveryError
    ("sensor configuration field '" +:+ default "" (kRequiredTags !! index) +:+ msg).

(** Source: core/src/detail/xml_config.cpp:166-175, [extract_required_fields]: a
    closing tag; [tag] starts with '/'. *)
Definition close_tag (tag : view) (end_ : nat) (st : Scan) : Res Scan :=
  let nm := trim_ascii_whitespace (substr_from tag 1) in
  match elements st with
  | e :: outer =>
    if bool_decide (nm = []) || bool_decide (find_first_of nm (whitespace ++ ["/"%char]) ≠ None)
       || negb (bool_decide (name e = nm))
    then malformed_nesting
    else Ok (st <| elements := outer |> <| position := (end_ + 1)%nat |>)
  | [] => malformed_nesting
  end.

(** Source: core/src/detail/xml_config.cpp:177-203, [extract_required_fields]: an
    opening or self-closing tag. *)
Definition open_tag (tag : view) (end_ : nat) (st : Scan) : Res Scan :=
  let self_closing := bool_decide (last tag = Some "/"%char) in
  let tag := if self_closing then trim_ascii_whitespace (substr tag 0 (length tag - 1)) else tag in
  let nm := match find_first_of tag whitespace with
            | Some name_end => substr tag 0 name_end
            | None => tag
            end in
  if bool_decide (nm = []) || bool_decide (head nm = Some "/"%char) then malformed_markup
  else
    let required := required_tag_index nm in
    match elements st with
    | {| required_index := Some _ |} :: _ =>
      throw DiscoveryError "sensor configuration fields must contain text only"
    | _ =>
      st ← match required with
           | Some index =>
             if default false (seen st !! index)
             then field_error index "' must appear exactly once"
             else Ok (st <| seen ::= <[index := true]> |>)
           | None => Ok st
           end;
      let st := if self_closing then st
                else st <| elements ::= cons {| name := nm; required_index := required |} |> in
      Ok (st <| position := (end_ + 1)%nat |>)
    end.

(** Source: core/src/detail/xml_config.cpp:131-203, [extract_required_fields]: the markup
    that starts at [markup], after the text before it was appended. *)
Definition scan_markup (xml : view) (markup : nat) (st : Scan) : Res Scan :=
  if bool_decide (substr xml markup 4 = txt "<!--") then
    match find xml (txt "-->") (markup + 4) with
    | None => throw DiscoveryError "sensor configuration contains an unterminated comment"
    | Some end_ => Ok (st <| position := (end_ + 3)%nat |>)
    end
  else if bool_decide (substr xml markup 9 = txt "<![CDATA[") then
    match find xml (txt "]]>") (markup + 9) with
    | None => throw DiscoveryError "sensor configuration contains unterminated CDATA"
    | Some end_ =>
      Ok ((append_required_text st (substr xml (markup + 9) (end_ - markup - 9)))
            <| position := (end_ + 3)%nat |>)
    end
  else if bool_decide (substr xml markup 2 = txt "<?") then
    match find xml (txt "?>") (markup + 2) with
    | None => throw DiscoveryError "sensor configuration contains unterminated markup"
    | Some end_ => Ok (st <| position := (end_ + 2)%nat |>)
    end
  else if bool_decide (substr xml markup 2 = txt "<!") then
    throw DiscoveryError "sensor configuration contains unsupported markup"
  else
    end_ ← find_tag_end xml (markup + 1);
    let tag := trim_ascii_whitespace (substr xml (markup + 1) (end_ - markup - 1)) in
    match tag with
    | [] => malformed_markup
    | c :: _ => if Ascii.eqb c "/" then close_tag tag end_ st else open_tag tag end_ st
    end.

(** Source: core/src/detail/xml_config.cpp:122-204, [extract_required_fields]: one
    iteration of the loop, for a position before the end. *)
Definition scan_step (xml : view) (st : Scan) : Res Scan :=
  match find xml (txt "<") (position st) with
  | None =>
    Ok ((append_required_text st (substr_from xml (position st)))
          <| position := length xml |>)
  | Some markup =>
    scan_markup xml markup
      (append_required_text st (substr xml (position st) (markup - position st)))
  end.

(** Source: core/src/detail/xml_config.cpp:122-204, [extract_required_fields]: the
    loop; [None] when the fuel runs out. *)
Fixpoint scan_loop (fuel : nat) (xml : view) (st : Scan) : option (Res Scan) :=
  if (length xml <=? position st)%nat then Some (Ok st)
  else match fuel with
  | O => None
  | S fuel =>
    match scan_step xml st with
    | Ok st' => scan_loop fuel xml st'
    | Throw e => Some (Throw e)
    | UB => Some UB
    end
  end.

(** Source: core/src/detail/xml_config.cpp:209-229, [extract_required_fields]: the
    final checks of one field. *)
Definition check_field (index : nat) (was_seen : bool) (field : view) : Res view :=
  if negb was_seen then
    if (index =? 0)%nat then Ok (txt "ATI Net F/T")
    else field_error index "' must appear exactly once"
  else
    let value := trim_ascii_whitespace field in
    if bool_decide (value = []) then field_error index "' is empty"
    else if (kMaximumFieldLength <? length value)%nat then field_error index "' is too long"
    else Ok value.

Fixpoint check_fields (index : nat) (seen : list bool) (fields : list view) : Res (list view) :=
  match seen, fields with
  | s :: seen', f :: fields' =>
    v ← check_field index s f;
    vs ← check_fields (S index) seen' fields';
    Ok (v :: vs)
  | _, _ => Ok []
  end.

(** Source: core/src/detail/xml_config.cpp:116-231, [extract_required_fields]. *)
Definition extract_required_fields (xml : view) : Res (list view) :=
  match scan_loop (length xml) xml scan_init with
  | None => UB
  | Some r =>
    st ← r;
    if bool_decide (elements st ≠ []) then malformed_nesting
    else check_fields 0 (seen st) (fields st)
  end.

(** ** The fields' values *)

(** Source: core/src/detail/xml_config.cpp:233-245, [parse_positive_count]. *)
Definition parse_positive_count (value : view) (tag : string) : Res double :=
  let failure := throw DiscoveryError
    ("sensor configuration field '" +:+ tag +:+ "' must be a finite positive number") in
  if bool_decide (value = []) || bool_decide (head value = Some "+"%char) then failure
  else match Decimal.extract_double value with
  | None => failure
  | Some result =>
    if negb (isfinite result) || d_le result (d_of_Z 0) then failure else Ok result
  end.

(** Source: core/src/detail/xml_config.cpp:247-258, [normalize_torque_spelling]. *)
Definition normalize_torque_spelling (value : string) : string :=
  if String.eqb value "Nm" then "N-m"
  else if String.eqb value "Nmm" then "N-mm"
  else if String.eqb value "kg-cm" then "kgf-cm"
  else value.

(** Source: core/src/detail/xml_config.cpp:260-266, [parse_force_unit]. *)
Definition parse_force_unit (value : string) : Res ForceUnit :=
  match Types.force_unit_from_string value with
  | None | Some ForceUnit.Unknown =>
    throw DiscoveryError "sensor configuration contains an unknown force unit"
  | Some unit => Ok unit
  end.

(** Source: core/src/detail/xml_config.cpp:268-274, [parse_torque_unit]. *)
Definition parse_torque_unit (value : string) : Res TorqueUnit :=
  match Types.torque_unit_from_string (normalize_torque_spelling value) with
  | None | Some TorqueUnit.Unknown =>
    throw DiscoveryError "sensor configuration contains an unknown torque unit"
  | Some unit => Ok unit
  end.

Definition field_text (fields : list view) (i : nat) : string :=
  string_of_list_ascii (default [] (fields !! i)).

(** Source: core/src/detail/xml_config.cpp:278-294, [parse_sensor_configuration]. *)
Definition parse_sensor_configuration (xml : view) : Res SensorConfiguration :=
  fields ← extract_required_fields xml;
  cpf ← parse_positive_count (default [] (fields !! 1%nat)) "cfgcpf";
  cpt ← parse_positive_count (default [] (fields !! 2%nat)) "cfgcpt";
  fu ← parse_force_unit (field_text fields 3);
  tu ← parse_torque_unit (field_text fields 4);
  let calibration := {| Calibration.counts_per_force_unit := cpf;
                        Calibration.counts_per_torque_unit := cpt;
                        Calibration.force_unit := fu; Calibration.torque_unit := tu |} in
  _ ← catch (λ k, bool_decide (k = invalid_argument))
        (Types.validate_calibration calibration)
        (λ e, throw DiscoveryError (what e));
  Ok {| SensorConfiguration.product_name := field_text fields 0;
        SensorConfiguration.calibration := calibration;
        SensorConfiguration.source := CalibrationSource.Sensor;
        SensorConfiguration.revision := 1 |}.

(** ** Positions found are in range *)

Lemma find_offset_bound p v i : find_offset p v = Some i → (i + length p ≤ length v)%nat.
Proof.
  revert i. induction v as [|c v IH]; intros i.
  - destruct p; simpl; [|done]. intros [= <-]. simpl. lia.
  - cbn [find_offset]. destruct (starts_with p (c :: v)) eqn:E.
    + intros [= <-]. clear IH. revert E. generalize (c :: v). clear c v.
      induction p as [|a p IH]; intros [|b v]; simpl; try done; try lia.
      intros [_ H]%andb_true_iff. specialize (IH v H). lia.
    + destruct (find_offset p v) as [j|]; [|done]. intros [= <-].
      specialize (IH j eq_refl). simpl. lia.
Qed.

Lemma find_bound v p pos i :
  p ≠ [] → find v p pos = Some i → (pos ≤ i ∧ i + length p ≤ length v)%nat.
Proof.
  unfold find. intros Hp H. destruct (find_offset p (drop pos v)) as [j|] eqn:E; [|done].
  injection H as <-. apply find_offset_bound in E. rewrite length_drop in E.
  destruct p; simpl in *; [done|]. lia.
Qed.

Lemma find_tag_end_loop_bound rest pos q e :
  find_tag_end_loop rest pos q = Some e → (pos ≤ e)%nat.
Proof.
  revert pos q. induction rest as [|c rest IH]; intros pos q; [done|]. cbn [find_tag_end_loop].
  destruct q; [intros ?%IH; lia|].
  repeat case_match; [intros ?%IH; lia|intros [= <-]; lia|intros ?%IH; lia].
Qed.

Lemma append_required_text_position st text : position (append_required_text st text) = position st.
Proof. unfold append_required_text. by repeat case_match. Qed.

(** ** One iteration: it advances, or throws [DiscoveryError] *)

(** The outcome is a value satisfying [Q] or a [DiscoveryError]. *)
Definition ok_or_discovery_error {A} (Q : A → Prop) (r : Res A) : Prop :=
  match r with Ok a => Q a | Throw e => exn_kind e = DiscoveryError | UB => False end.

Lemma ode_bind {A B} (Q : A → Prop) (R : B → Prop) (m : Res A) (f : A → Res B) :
  ok_or_discovery_error Q m → (∀ a, Q a → ok_or_discovery_error R (f a)) →
  ok_or_discovery_error R (m ≫= f).
Proof. destruct m; simpl; auto. Qed.

Lemma ode_impl {A} (Q R : A → Prop) (m : Res A) :
  ok_or_discovery_error Q m → (∀ a, Q a → R a) → ok_or_discovery_error R m.
Proof. destruct m; simpl; auto. Qed.

Lemma close_tag_advances tag end_ st :
  ok_or_discovery_error (λ st', position st' = (end_ + 1)%nat) (close_tag tag end_ st).
Proof. unfold close_tag. by repeat case_match. Qed.

Lemma open_tag_advances tag end_ st :
  ok_or_discovery_error (λ st', position st' = (end_ + 1)%nat) (open_tag tag end_ st).
Proof.
  unfold open_tag. repeat case_match; simplify_eq/=; done.
Qed.

Lemma scan_step_advances xml st :
  (position st < length xml)%nat →
  ok_or_discovery_error (λ st', (position st < position st')%nat) (scan_step xml st).
Proof.
  intros Hp. unfold scan_step, scan_markup.
  destruct (find xml (txt "<") (position st)) as [markup|] eqn:Hm;
    [|simpl; done].
  apply find_bound in Hm as [Hm _]; [|done].
  case_match; [|case_match; [|case_match; [|case_match; [done|]]]].
  - destruct (find xml (txt "-->") (markup + 4)) as [e|] eqn:He; [|done].
    apply find_bound in He as [He _]; [simpl; lia|done].
  - destruct (find xml (txt "]]>") (markup + 9)) as [e|] eqn:He; [|done].
    apply find_bound in He as [He _]; [simpl; lia|done].
  - destruct (find xml (txt "?>") (markup + 2)) as [e|] eqn:He; [|done].
    apply find_bound in He as [He _]; [simpl; lia|done].
  - eapply (ode_bind (λ e, (markup + 1 ≤ e)%nat)).
    { unfold find_tag_end. case_match eqn:E; [|done]. simpl. by eapply find_tag_end_loop_bound. }
    intros e He. case_match; [done|].
    case_match; (eapply ode_impl; [apply close_tag_advances || apply open_tag_advances|]);
      cbn beta; intros st' ->; lia.
Qed.

(** The loop ends within as many iterations as characters are left. *)
Lemma scan_loop_total fuel xml st :
  (length xml - position st ≤ fuel)%nat →
  ∃ r, scan_loop fuel xml st = Some r ∧
    ok_or_discovery_error (λ st', (length xml ≤ position st')%nat) r.
Proof.
  revert st. induction fuel as [|fuel IH]; intros st Hf; cbn [scan_loop].
  { rewrite (proj2 (Nat.leb_le _ _)) by lia. eexists. split; [done|]. simpl. lia. }
  destruct (Nat.leb_spec (length xml) (position st)) as [|Hp]; [by eexists|].
  pose proof (scan_step_advances xml st Hp) as Ha.
  destruct (scan_step xml st) as [st'|e|]; simpl in Ha; [apply IH; lia|by eexists|done].
Qed.

(** ** Five fields throughout *)

Definition five (st : Scan) : Prop := length (fields st) = 5%nat ∧ length (seen st) = 5%nat.

Lemma append_required_text_five st text : five st → five (append_required_text st text).
Proof.
  intros [Hf Hs]. unfold append_required_text.
  destruct (elements st) as [|[n [i|]] outer]; [by split| |by split].
  split; simpl; [by rewrite length_alter|done].
Qed.

Lemma scan_step_five xml st st' : five st → scan_step xml st = Ok st' → five st'.
Proof.
  intros H5 E. unfold scan_step, scan_markup in E. destruct (find xml _ _) as [markup|].
  2: { injection E as <-. by apply (append_required_text_five st). }
  set (st0 := append_required_text st _) in *.
  assert (H0 : five st0) by (by apply append_required_text_five). clearbody st0.
  repeat case_match; simplify_eq; [exact H0|by apply append_required_text_five|exact H0|].
  res_inv. case_match; [done|]. case_match.
  - unfold close_tag in *. repeat case_match; simplify_eq; exact H0.
  - unfold open_tag in *. destruct H0 as [Hf Hs].
    repeat case_match; simplify_eq/=; split; simpl; rewrite ?length_insert; done.
Qed.

Lemma scan_loop_five fuel xml st st' :
  five st → scan_loop fuel xml st = Some (Ok st') → five st'.
Proof.
  revert st. induction fuel as [|fuel IH]; intros st H5; cbn [scan_loop]; case_match; try done.
  { by intros [= <-]. } { by intros [= <-]. }
  destruct (scan_step xml st) as [st1|e|] eqn:E; [|done..].
  intros H1. eapply IH; [|exact H1]. by eapply scan_step_five.
Qed.

(** A field that passed the final checks. *)
Definition field_ok (v : view) : Prop := v ≠ [] ∧ (length v ≤ kMaximumFieldLength)%nat.

Lemma check_fields_ok i seen fields :
  ok_or_discovery_error
    (λ vs, Forall field_ok vs ∧ length vs = Nat.min (length seen) (length fields))
    (check_fields i seen fields).
Proof.
  revert i fields. induction seen as [|b seen IH]; intros i [|f fields]; try done.
  cbn [check_fields]. eapply (ode_bind field_ok).
  - unfold check_field. repeat case_match; simpl; try done.
    + split; [done|]. unfold kMaximumFieldLength. simpl. lia.
    + split; [by eapply bool_decide_eq_false_1|]. by apply Nat.ltb_ge.
  - intros v Hv. eapply ode_bind; [apply IH|]. intros vs [Hvs Hl]. simpl.
    split; [by constructor|]. by rewrite Hl.
Qed.

Lemma extract_required_fields_ok xml :
  ok_or_discovery_error (λ vs, Forall field_ok vs ∧ length vs = 5%nat)
    (extract_required_fields xml).
Proof.
  unfold extract_required_fields.
  destruct (scan_loop_total (length xml) xml scan_init) as (r & E & Hr); [lia|].
  rewrite E. destruct r as [st|e|]; [|done..]. cbn [mbind Res_bind].
  case_match; [done|]. eapply ode_impl; [apply check_fields_ok|]. cbn beta.
  intros vs [Hvs ->]. split; [done|].
  destruct (scan_loop_five (length xml) xml scan_init st) as [-> ->]; done.
Qed.

Lemma parse_positive_count_ok v tag :
  ok_or_discovery_error d_valid (parse_positive_count v tag).
Proof.
  unfold parse_positive_count. case_match; [done|].
  destruct (Decimal.extract_double v) as [x|] eqn:E; [|done]. case_match; [done|].
  by apply Decimal.extract_double_valid in E as [? _].
Qed.

Lemma parse_units_ok fu tu :
  ok_or_discovery_error (λ u, u ≠ ForceUnit.Unknown) (parse_force_unit fu) ∧
  ok_or_discovery_error (λ u, u ≠ TorqueUnit.Unknown) (parse_torque_unit tu).
Proof. unfold parse_force_unit, parse_torque_unit. split; by repeat case_match. Qed.

(** An exception of [validate] on a calibration is an [invalid_argument]. *)
Lemma validate_calibration_outcome c :
  match Types.validate_calibration c with
  | Ok () => True | Throw e => exn_kind e = invalid_argument | UB => False
  end.
Proof.
  unfold Types.validate_calibration, Types.require_safe_count, Types.require_positive_finite.
  repeat (match goal with |- context [if ?b then _ else _] => destruct b end; try done).
Qed.

(** What every accepted document guarantees. *)
Definition configuration_ok (c : SensorConfiguration) : Prop :=
  let cal := SensorConfiguration.calibration c in
  SensorConfiguration.product_name c ≠ "" ∧
  (String.length (SensorConfiguration.product_name c) ≤ kMaximumFieldLength)%nat ∧
  d_valid (Calibration.counts_per_force_unit cal) ∧
  d_valid (Calibration.counts_per_torque_unit cal) ∧
  Types.validate_calibration cal = Ok () ∧
  SensorConfiguration.source c = CalibrationSource.Sensor ∧
  SensorConfiguration.revision c = 1.

(** The parser in the framework of the previous section. *)
Lemma parse_sensor_configuration_outcome xml :
  ok_or_discovery_error configuration_ok (parse_sensor_configuration xml).
Proof.
  unfold parse_sensor_configuration.
  eapply ode_bind; [apply extract_required_fields_ok|]. intros vs [Hvs Hlen].
  eapply ode_bind; [apply parse_positive_count_ok|]. intros cpf Hcpf.
  eapply ode_bind; [apply parse_positive_count_ok|]. intros cpt Hcpt.
  eapply ode_bind; [apply (parse_units_ok _ "")|]. intros fu Hfu.
  eapply ode_bind; [apply (parse_units_ok "")|]. intros tu Htu.
  cbv zeta. set (cal := Calibration.Build_Calibration cpf cpt fu tu).
  pose proof (validate_calibration_outcome cal) as Hv. unfold catch.
  destruct (Types.validate_calibration cal) as [[]|e|] eqn:E; [| |done].
  2: { rewrite Hv. simpl. done. }
  simpl. unfold configuration_ok. simpl. destruct vs as [|v0 vs]; [done|].
  apply Forall_cons in Hvs as [[Hne Hl] _]. unfold field_text. simpl.
  split_and!; try done.
  - destruct v0; done.
  - etransitivity; [|exact Hl]. clear. induction v0; simpl; lia.
Qed.

(** The configuration parser is total on arbitrary bytes. It always terminates,
    never has undefined behaviour, and ends in exactly one of two ways: a
    configuration whose name is nonempty and bounded and whose calibration
    passes validation, or a [DiscoveryError] (never any other exception). *)
Theorem parse_sensor_configuration_total xml :
  (∃ c, parse_sensor_configuration xml = Ok c ∧ configuration_ok c) ∨
  (∃ msg, parse_sensor_configuration xml = throw DiscoveryError msg).
Proof.
  pose proof (parse_sensor_configuration_outcome xml) as H.
  destruct (parse_sensor_configuration xml) as [c|[k m]|]; simpl in H; [|subst k|done]; eauto.
Qed.

(** Source: tests/integration/fake_sensor.py:44-54, [_Configuration.xml]: the
    document of the default test sensor. *)
Definition sensor_document : string :=
  "<?xml version=" +:+ String "034" "1.0" +:+ String "034" "?><netft>" +:+
  "<prodname>ATI Net F/T</prodname><cfgcpf>1000000</cfgcpf>" +:+
  "<cfgcpt>1000000</cfgcpt><scfgfu>N</scfgfu><scfgtu>N-m</scfgtu></netft>".

Example sensor_document_parses :
  parse_sensor_configuration (txt sensor_document) =
  Ok {| SensorConfiguration.product_name := "ATI Net F/T";
        SensorConfiguration.calibration :=
          {| Calibration.counts_per_force_unit := d_of_Z 1000000;
             Calibration.counts_per_torque_unit := d_of_Z 1000000;
             Calibration.force_unit := ForceUnit.Newton;
             Calibration.torque_unit := TorqueUnit.NewtonMeter |};
        SensorConfiguration.source := CalibrationSource.Sensor;
        SensorConfiguration.revision := 1 |}.
Proof. by vm_compute. Qed.

End XmlConfig.
