(* ===== verification/XmlSpec.v ===== *)
(** * A reference for the configuration scanner

    [XmlConfig] models the scanner of core/src/detail/xml_config.cpp: one pass over the
    characters with a position and a stack of open elements. Here a document is a tree;
    [visit] says on the tree, without positions or a stack, what the scanner is meant to
    collect, and the scanner run on the rendering of any tree computes exactly that, its
    errors included. *)

From Stdlib Require Import ZArith Lia Ascii String.
From Corelib Require Import SpecFloat.
From S2P Require Import Prelude Floats Clock Types Decimal XmlConfig.
Import Fp XmlConfig.

Module XmlSpec.

(** ** Documents *)

Inductive node :=
  | Text (v : view)
  | Comment (v : view)
  | CData (v : view)
  | Instruction (v : view)
  | Element (nm : view) (attributes : list (view * view)) (children : list node)
  | Empty (nm : view) (attributes : list (view * view)).

Section node_ind.
Variable P : node → Prop.
Hypothesis HText : ∀ v, P (Text v).
Hypothesis HComment : ∀ v, P (Comment v).
Hypothesis HCData : ∀ v, P (CData v).
Hypothesis HInstruction : ∀ v, P (Instruction v).
Hypothesis HElement : ∀ nm attributes children, Forall P children → P (Element nm attributes children).
Hypothesis HEmpty : ∀ nm attributes, P (Empty nm attributes).

Fixpoint node_nested_ind (n : node) : P n :=
  match n with
  | Text v => HText v
  | Comment v => HComment v
  | CData v => HCData v
  | Instruction v => HInstruction v
  | Element nm attributes children =>
    HElement nm attributes children
      ((fix go l : Forall P l :=
          match l with [] => Forall_nil_2 P | n :: l => Forall_cons_2 P n l (node_nested_ind n) (go l) end)
         children)
  | Empty nm attributes => HEmpty nm attributes
  end.
End node_ind.

Definition render_attribute (a : view * view) : view :=
  txt " " ++ a.1 ++ ["="; "034"]%char ++ a.2 ++ ["034"%char].

Definition render_attributes (l : list (view * view)) : view := concat (render_attribute <$> l).

Fixpoint render (n : node) : view :=
  match n with
  | Text v => v
  | Comment v => txt "<!--" ++ v ++ txt "-->"
  | CData v => txt "<![CDATA[" ++ v ++ txt "]]>"
  | Instruction v => txt "<?" ++ v ++ txt "?>"
  | Element nm attributes children =>
    txt "<" ++ (nm ++ render_attributes attributes) ++ txt ">" ++
    concat (render <$> children) ++ txt "</" ++ nm ++ txt ">"
  | Empty nm attributes => txt "<" ++ (nm ++ render_attributes attributes ++ txt "/") ++ txt ">"
  end.

Definition render_all (doc : list node) : view := concat (render <$> doc).

(** ** Lexical conditions: what a writer of XML respects *)

(** A character of a name. *)
Definition name_char (c : ascii) : bool :=
  negb (is_ascii_whitespace c) &&
  negb (existsb (Ascii.eqb c) ["/"; ">"; "<"; "'"; "034"; "!"; "?"]%char).

Definition name_ok (nm : view) : bool := negb (bool_decide (nm = [])) && forallb name_char nm.

(** The terminator [p] of a section first occurs after its content [v]. *)
Definition ends_at (p v : view) : bool := bool_decide (find_offset p (v ++ p) = Some (length v)).

Definition attribute_ok (a : view * view) : bool :=
  name_ok a.1 && forallb (λ c, negb (Ascii.eqb c "034")) a.2.

Fixpoint lexical (n : node) : bool :=
  match n with
  | Text v => forallb (λ c, negb (Ascii.eqb c "<")) v
  | Comment v => ends_at (txt "-->") v
  | CData v => ends_at (txt "]]>") v
  | Instruction v => ends_at (txt "?>") v
  | Element nm attributes children =>
    name_ok nm && forallb attribute_ok attributes && forallb lexical children
  | Empty nm attributes => name_ok nm && forallb attribute_ok attributes
  end.

(** ** The reference *)

(** The text of the five fields, and which of them have occurred. *)
Definition Collected : Type := list view * list bool.

Definition nothing : Collected := (replicate 5 [], replicate 5 false).

(** Text inside the field [inside], if it is in one. *)
Definition put (inside : option nat) (text : view) (c : Collected) : Collected :=
  match inside with
  | Some i => (alter (λ f, f ++ text) i c.1, c.2)
  | None => c
  end.

(** An element opens inside the field [inside]. *)
Definition enter (inside : option nat) (nm : view) (c : Collected) : Res Collected :=
  match inside with
  | Some _ => throw DiscoveryError "sensor configuration fields must contain text only"
  | None =>
    match required_tag_index nm with
    | Some i =>
      if default false (c.2 !! i) then field_error i "' must appear exactly once"
      else Ok (c.1, <[i := true]> c.2)
    | None => Ok c
    end
  end.

Section visit_all.
Variable visit : option nat → node → Collected → Res Collected.

Fixpoint visit_list (inside : option nat) (l : list node) (c : Collected) : Res Collected :=
  match l with
  | [] => Ok c
  | n :: l => c ← visit inside n c; visit_list inside l c
  end.
End visit_all.

Fixpoint visit (inside : option nat) (n : node) (c : Collected) : Res Collected :=
  match n with
  | Text v | CData v => Ok (put inside v c)
  | Comment _ | Instruction _ => Ok c
  | Element nm _ children =>
    c ← enter inside nm c; visit_list visit (required_tag_index nm) children c
  | Empty nm _ => enter inside nm c
  end.

Definition visit_all : option nat → list node → Collected → Res Collected := visit_list visit.

(** What the fields of a document are. *)
Definition document_fields (doc : list node) : Res (list view) :=
  '(fields, seen) ← visit_all None doc nothing; check_fields 0 seen fields.

(** ** The loop without fuel *)

(** The scan from [st] to the end. *)
Definition scan_all (xml : view) (st : Scan) : Res Scan :=
  match scan_loop (length xml) xml st with Some r => r | None => UB end.

Lemma scan_loop_fuel f1 f2 xml st :
  (length xml - position st ≤ f1)%nat → (length xml - position st ≤ f2)%nat →
  scan_loop f1 xml st = scan_loop f2 xml st.
Proof.
  revert f2 st. induction f1 as [|f1 IH]; intros [|f2] st H1 H2; cbn [scan_loop]; try done;
    destruct (Nat.leb_spec (length xml) (position st)) as [|Hp]; try done; try lia.
  pose proof (scan_step_advances xml st Hp) as Ha.
  destruct (scan_step xml st) as [st'|e|]; simpl in Ha; [apply IH; lia|done|done].
Qed.

Lemma scan_all_end xml st : (length xml ≤ position st)%nat → scan_all xml st = Ok st.
Proof.
  intros H. unfold scan_all. destruct (length xml) eqn:E; cbn [scan_loop];
    rewrite (proj2 (Nat.leb_le _ _)) by lia; done.
Qed.

Lemma scan_all_step xml st :
  (position st < length xml)%nat → scan_all xml st = (st' ← scan_step xml st; scan_all xml st').
Proof.
  intros H. unfold scan_all at 1. destruct (length xml) as [|k] eqn:E; [lia|]. cbn [scan_loop].
  rewrite (proj2 (Nat.leb_gt _ _)) by lia.
  pose proof (scan_step_advances xml st) as Ha. rewrite E in Ha. specialize (Ha H).
  destruct (scan_step xml st) as [st'|e|]; simpl in Ha; [|done|done]. cbn [mbind Res_bind].
  unfold scan_all. rewrite (scan_loop_fuel k (length xml)) by lia. done.
Qed.

Lemma extract_required_fields_all xml :
  extract_required_fields xml =
  (st ← scan_all xml scan_init;
   if bool_decide (elements st ≠ []) then malformed_nesting
   else check_fields 0 (seen st) (fields st)).
Proof.
  unfold extract_required_fields, scan_all.
  destruct (scan_loop_total (length xml) xml scan_init) as (r & -> & _); [lia|done].
Qed.

(** ** Searching in a document *)

Lemma starts_with_app p v : starts_with p (p ++ v) = true.
Proof. induction p as [|a p IH]; simpl; [done|]. by rewrite Ascii.eqb_refl. Qed.

Lemma starts_with_inv p v : starts_with p v = true → ∃ rest, v = p ++ rest.
Proof.
  revert v. induction p as [|a p IH]; intros v; simpl; [by exists v|].
  destruct v as [|b v]; [done|]. intros [->%Ascii.eqb_eq H]%andb_true_iff.
  destruct (IH v H) as [rest ->]. by exists rest.
Qed.

Lemma starts_with_extend p v rest : starts_with p v = true → starts_with p (v ++ rest) = true.
Proof. intros [r ->]%starts_with_inv. rewrite <-app_assoc. apply starts_with_app. Qed.

(** A proper prefix too short to contain [p] decides as any extension of the same
    length does. *)
Lemma starts_with_same p v rest :
  (length p ≤ length v)%nat → starts_with p (v ++ rest) = starts_with p v.
Proof.
  revert v. induction p as [|a p IH]; intros v Hl; [done|]. destruct v as [|b v]; simpl in *; [lia|].
  rewrite IH by lia. done.
Qed.

(** The first occurrence does not depend on what follows it. *)
Lemma find_offset_extend p v rest i :
  find_offset p v = Some i → find_offset p (v ++ rest) = Some i.
Proof.
  revert i. induction v as [|c v IH]; intros i H.
  - destruct p; simpl in H; [|done]. injection H as <-. by destruct rest.
  - pose proof (find_offset_bound _ _ _ H) as Hb. cbn [find_offset] in H.
    cbn [app find_offset]. destruct (starts_with p (c :: v)) eqn:E.
    + injection H as <-. change (c :: v ++ rest) with ((c :: v) ++ rest).
      by rewrite starts_with_extend.
    + destruct (find_offset p v) as [j|] eqn:Ej; [|done]. injection H as <-.
      change (c :: v ++ rest) with ((c :: v) ++ rest).
      rewrite starts_with_same, E by (simpl in *; lia). by rewrite (IH j).
Qed.

(** Finding a single character. *)
Lemma find_offset_char c v rest :
  forallb (λ x, negb (Ascii.eqb x c)) v = true →
  find_offset [c] (v ++ rest) = (λ i, length v + i)%nat <$> find_offset [c] rest.
Proof.
  induction v as [|x v IH]; intros H.
  - simpl. by destruct (find_offset [c] rest).
  - simpl in H. apply andb_true_iff in H as [Hx Hv]. specialize (IH Hv). cbn [app find_offset].
    assert (starts_with [c] (x :: v ++ rest) = false) as ->.
    { simpl. rewrite Ascii.eqb_sym. by destruct (Ascii.eqb x c). }
    rewrite IH. by destruct (find_offset [c] rest).
Qed.

Lemma find_at xml pos piece rest p i :
  drop pos xml = piece ++ rest → find_offset p piece = Some i → find xml p pos = Some (pos + i)%nat.
Proof. intros Hd Hf. unfold find. by rewrite Hd, (find_offset_extend _ _ _ _ Hf). Qed.

Lemma drop_further {xml : view} {pos : nat} {a rest : view} :
  drop pos xml = a ++ rest → drop (pos + length a) xml = rest.
Proof. intros H. by rewrite <-drop_drop, H, drop_app_length. Qed.

Lemma drop_lt (xml : view) pos c rest : drop pos xml = c :: rest → (pos < length xml)%nat.
Proof.
  intros H. assert (length (drop pos xml) = S (length rest)) as E by (by rewrite H).
  rewrite length_drop in E. lia.
Qed.

Lemma substr_at (xml : view) pos a rest : drop pos xml = a ++ rest → substr xml pos (length a) = a.
Proof. intros H. unfold substr. by rewrite H, take_app_length. Qed.

(** ** States *)

Definition collected (st : Scan) : Collected := (fields st, seen st).

(** The field the innermost open element is. *)
Definition top (st : Scan) : option nat :=
  match elements st with e :: _ => required_index e | [] => None end.

(** The state after [n] more characters, with [c] collected. *)
Definition advance (c : Collected) (n : nat) (st : Scan) : Scan :=
  {| fields := c.1; seen := c.2; elements := elements st; position := (position st + n)%nat |}.

Lemma put_nothing inside c : put inside [] c = c.
Proof.
  destruct c as [f s], inside as [i|]; simpl; [|done]. f_equal.
  apply list_alter_id. intros x. by rewrite app_nil_r.
Qed.

Lemma put_put inside a b c : put inside b (put inside a c) = put inside (a ++ b) c.
Proof.
  destruct c as [f s], inside as [i|]; simpl; [|done]. f_equal.
  apply list_eq. intros j. destruct (decide (i = j)) as [->|].
  - rewrite !list_lookup_alter_eq. destruct (f !! j); simpl; [|done]. by rewrite app_assoc.
  - by rewrite !list_lookup_alter_ne.
Qed.

Lemma append_required_text_put st v :
  append_required_text st v = advance (put (top st) v (collected st)) 0 st.
Proof.
  destruct st as [f s els p]. unfold append_required_text, advance, top, put, collected; cbn.
  rewrite Nat.add_0_r. by destruct els as [|[n [i|]] outer].
Qed.

Lemma advance_advance c1 n1 c2 n2 st : advance c2 n2 (advance c1 n1 st) = advance c2 (n1 + n2) st.
Proof. unfold advance; cbn. by rewrite Nat.add_assoc. Qed.

Lemma advance_none st : advance (collected st) 0 st = st.
Proof. destruct st. unfold advance; cbn. by rewrite Nat.add_0_r. Qed.

(** A tag is handled whatever the position before it was. *)
Lemma close_tag_position tag e c n n' st :
  close_tag tag e (advance c n st) = close_tag tag e (advance c n' st).
Proof. unfold close_tag. cbn [elements advance]. by destruct (elements st). Qed.

Lemma open_tag_position tag e c n n' st :
  open_tag tag e (advance c n st) = open_tag tag e (advance c n' st).
Proof.
  unfold open_tag. set (t := if bool_decide (last tag = _) then _ else _). cbv zeta.
  set (nm := match find_first_of t _ with Some _ => _ | None => _ end). clearbody t nm.
  destruct (_ || _); [done|]. cbn [elements advance].
  destruct (elements st) as [|[m [i|]] outer]; [|done|];
    (destruct (required_tag_index nm) as [j|]; cbn [seen advance];
     [destruct (default false _); [done|]|]; by destruct (bool_decide (last tag = _))).
Qed.

Lemma scan_markup_position xml markup c n n' st :
  scan_markup xml markup (advance c n st) = scan_markup xml markup (advance c n' st).
Proof.
  unfold scan_markup. destruct (bool_decide (_ = txt "<!--")); [done|].
  destruct (bool_decide (_ = txt "<![CDATA[")).
  { destruct (find _ _ _); [|done]. by rewrite !append_required_text_put. }
  destruct (bool_decide (_ = txt "<?")); [done|]. destruct (bool_decide (_ = txt "<!")); [done|].
  destruct (find_tag_end _ _) as [e| |]; [|done|done]. cbn [mbind Res_bind].
  destruct (trim_ascii_whitespace _) as [|x t]; [done|].
  destruct (Ascii.eqb x "/"); [apply close_tag_position|apply open_tag_position].
Qed.

(** ** Text *)

Lemma scan_text xml st v rest :
  forallb (λ x, negb (Ascii.eqb x "<")) v = true → drop (position st) xml = v ++ rest →
  scan_all xml st = scan_all xml (advance (put (top st) v (collected st)) (length v) st).
Proof.
  intros Hv Hd. destruct v as [|c v]; [by rewrite put_nothing, advance_none|].
  pose proof (drop_lt _ _ _ _ Hd) as Hlt. pose proof (drop_further Hd) as Hr.
  set (u := c :: v) in *. set (st' := advance _ _ st).
  rewrite scan_all_step by done. unfold scan_step. change (txt "<") with ["<"%char].
  assert (position st' = position st + length u)%nat as Ep by done.
  assert (length xml = position st + length u + length rest)%nat as El.
  { rewrite <-Hr, length_drop. assert (length (drop (position st) xml) = length (u ++ rest)) as E by (by rewrite Hd).
    rewrite length_drop, length_app in E. lia. }
  unfold find. rewrite Hd, find_offset_char by done.
  destruct (find_offset ["<"%char] rest) as [j|] eqn:Ej; cbv beta iota delta [fmap option_fmap option_map].
  - pose proof (find_offset_bound _ _ _ Ej) as Hj. simpl in Hj.
    rewrite (scan_all_step xml st') by lia. f_equal.
    unfold scan_step, find. change (txt "<") with ["<"%char]. rewrite Ep, Hr, Ej. cbv beta iota delta [fmap option_fmap option_map].
    rewrite !append_required_text_put. unfold st'. rewrite advance_advance.
    replace (position st + (length u + j))%nat with (position st + length u + j)%nat by lia.
    change (top (advance ?c ?k st)) with (top st).
    rewrite (scan_markup_position _ _ _ (length u + 0) 0). do 2 f_equal.
    unfold substr. rewrite Hd, Hr. change (collected (advance ?c _ _)) with (c.1, c.2).
    rewrite <-surjective_pairing, put_put. f_equal.
    rewrite take_app. f_equal; [rewrite take_ge; [done|lia]|f_equal; lia].
  - destruct rest as [|x rest].
    + cbn [mbind Res_bind]. rewrite append_required_text_put.
      rewrite !scan_all_end by (simpl in *; lia). unfold substr_from. rewrite Hd, app_nil_r.
      unfold st', advance; cbn. f_equal. f_equal. simpl in El. lia.
    + rewrite (scan_all_step xml st') by (simpl in *; lia). unfold scan_step, find.
      change (txt "<") with ["<"%char]. rewrite Ep, Hr, Ej. cbn [mbind Res_bind].
      rewrite !append_required_text_put. unfold substr_from. rewrite Hd, Hr.
      unfold st'. rewrite advance_advance. change (top (advance ?c ?k st)) with (top st).
      change (collected (advance ?c _ _)) with (c.1, c.2).
      by rewrite <-surjective_pairing, put_put.
Qed.

(** ** Sections: comments, CDATA and instructions *)

Lemma scan_at xml st rest :
  drop (position st) xml = "<"%char :: rest →
  scan_all xml st = (st' ← scan_markup xml (position st) st; scan_all xml st').
Proof.
  intros Hd. rewrite scan_all_step by (by eapply drop_lt). f_equal. unfold scan_step.
  rewrite (find_at xml (position st) ["<"%char] rest _ 0), Nat.add_0_r, Nat.sub_diag by done.
  by rewrite append_required_text_put, put_nothing, advance_none.
Qed.

Lemma find_section xml pos o v p rest :
  drop pos xml = o ++ v ++ p ++ rest → ends_at p v = true →
  find xml p (pos + length o) = Some (pos + length o + length v)%nat.
Proof.
  intros Hd He%bool_decide_eq_true. eapply find_at; [|exact He].
  rewrite (drop_further Hd). by rewrite app_assoc.
Qed.

Lemma substr_head (xml : view) pos a rest n :
  drop pos xml = a ++ rest → n = length a → substr xml pos n = a.
Proof. intros Hd ->. by eapply substr_at. Qed.

Lemma scan_comment xml st v rest :
  drop (position st) xml = txt "<!--" ++ v ++ txt "-->" ++ rest → ends_at (txt "-->") v = true →
  scan_all xml st = scan_all xml (advance (collected st) (length (render (Comment v))) st).
Proof.
  intros Hd He. rewrite (scan_at _ _ _ Hd). unfold scan_markup.
  rewrite (substr_head _ _ _ _ 4 Hd) by done. rewrite bool_decide_eq_true_2 by done.
  change (position st + 4)%nat with (position st + length (txt "<!--"))%nat.
  rewrite (find_section _ _ (txt "<!--") v _ rest Hd He). cbn [mbind Res_bind]. f_equal.
  destruct st; unfold advance; cbn. f_equal. rewrite length_app. simpl. lia.
Qed.

Lemma substr_not xml pos a rest n b :
  drop pos xml = a ++ rest → (length a ≤ n)%nat → take (length a) b ≠ a → substr xml pos n ≠ b.
Proof.
  intros Hd Hn Hb E. apply Hb. rewrite <-E. unfold substr. rewrite Hd, take_take, Nat.min_l by done.
  by rewrite take_app_length.
Qed.

Lemma scan_cdata xml st v rest :
  drop (position st) xml = txt "<![CDATA[" ++ v ++ txt "]]>" ++ rest →
  ends_at (txt "]]>") v = true →
  scan_all xml st =
  scan_all xml (advance (put (top st) v (collected st)) (length (render (CData v))) st).
Proof.
  intros Hd He. rewrite (scan_at _ _ _ Hd). unfold scan_markup.
  rewrite bool_decide_eq_false_2 by (by eapply (substr_not _ _ (txt "<![")); [exact Hd|simpl; lia|]).
  rewrite (substr_head _ _ _ _ 9 Hd) by done. rewrite bool_decide_eq_true_2 by done.
  change (position st + 9)%nat with (position st + length (txt "<![CDATA["))%nat.
  rewrite (find_section _ _ (txt "<![CDATA[") v _ rest Hd He). cbn [mbind Res_bind].
  rewrite append_required_text_put. f_equal.
  rewrite (substr_head xml _ v (txt "]]>" ++ rest)).
  - unfold advance; cbn. f_equal. rewrite length_app. simpl. lia.
  - exact (drop_further Hd).
  - simpl. lia.
Qed.

Lemma scan_instruction xml st v rest :
  drop (position st) xml = txt "<?" ++ v ++ txt "?>" ++ rest → ends_at (txt "?>") v = true →
  scan_all xml st = scan_all xml (advance (collected st) (length (render (Instruction v))) st).
Proof.
  intros Hd He. rewrite (scan_at _ _ _ Hd). unfold scan_markup.
  do 2 rewrite bool_decide_eq_false_2 by (by eapply (substr_not _ _ (txt "<?")); [exact Hd|simpl; lia|]).
  rewrite (substr_head _ _ _ _ 2 Hd) by done. rewrite bool_decide_eq_true_2 by done.
  change (position st + 2)%nat with (position st + length (txt "<?"))%nat.
  rewrite (find_section _ _ (txt "<?") v _ rest Hd He). cbn [mbind Res_bind]. f_equal.
  destruct st; unfold advance; cbn. f_equal. rewrite length_app. simpl. lia.
Qed.

(** ** Tags *)

(** Neither a quote nor the end of a tag. *)
Definition plain (c : ascii) : bool :=
  negb (Ascii.eqb c "'") && negb (Ascii.eqb c "034") && negb (Ascii.eqb c ">").

Lemma name_char_plain c : name_char c = true → plain c = true.
Proof.
  unfold name_char, plain. simpl. destruct (is_ascii_whitespace c); [done|]. simpl.
  destruct (Ascii.eqb c "'"), (Ascii.eqb c "034"), (Ascii.eqb c ">"); try done;
    by rewrite ?orb_true_r, ?orb_true_l.
Qed.

Lemma find_tag_end_plain a r k :
  forallb plain a = true →
  find_tag_end_loop (a ++ r) k None = find_tag_end_loop r (k + length a) None.
Proof.
  revert k. induction a as [|c a IH]; intros k Ha; simpl in *; [by rewrite Nat.add_0_r|].
  apply andb_true_iff in Ha as [Hc Ha]. unfold plain in Hc. rewrite !andb_true_iff in Hc.
  destruct Hc as [[H1 H2] H3]. apply negb_true_iff in H1, H2, H3. rewrite H1, H2, H3. simpl.
  rewrite IH by done. f_equal. lia.
Qed.

Lemma find_tag_end_quoted v r k :
  forallb (λ c, negb (Ascii.eqb c "034")) v = true →
  find_tag_end_loop (v ++ "034"%char :: r) k (Some "034"%char) =
  find_tag_end_loop r (k + length v + 1) None.
Proof.
  revert k. induction v as [|c v IH]; intros k Hv; simpl in *.
  - f_equal. lia.
  - apply andb_true_iff in Hv as [Hc Hv]. apply negb_true_iff in Hc. rewrite Hc, IH by done.
    f_equal. lia.
Qed.

Lemma find_tag_end_attributes l r k :
  forallb attribute_ok l = true →
  find_tag_end_loop (render_attributes l ++ r) k None =
  find_tag_end_loop r (k + length (render_attributes l)) None.
Proof.
  revert k. induction l as [|[a v] l IH]; intros k Hl; simpl in Hl; [by rewrite Nat.add_0_r|].
  apply andb_true_iff in Hl as [[Ha Hv]%andb_true_iff Hl].
  apply andb_true_iff in Ha as [_ Ha]. cbn [fst snd] in *.
  unfold render_attributes in *. cbn [fmap list_fmap concat].
  assert (render_attribute (a, v) = (" "%char :: a ++ ["="%char]) ++ "034"%char :: v ++ ["034"%char]) as ->.
  { unfold render_attribute. simpl. by rewrite <-app_assoc. }
  rewrite <-!app_assoc, find_tag_end_plain.
  - cbn [app find_tag_end_loop]. simpl Ascii.eqb. rewrite <-!app_assoc. simpl orb. cbv iota.
    cbn [app]. rewrite find_tag_end_quoted by done. rewrite IH by done.
    f_equal. simpl. rewrite ?length_app. simpl. rewrite ?length_app. simpl. lia.
  - simpl. rewrite forallb_app. simpl. rewrite andb_true_r.
    apply forallb_forall. intros c Hc. apply name_char_plain. by eapply forallb_forall in Ha.
Qed.

Lemma find_tag_end_at xml pos tag rest :
  drop pos xml = tag ++ ">"%char :: rest →
  (∀ r k, find_tag_end_loop (tag ++ r) k None = find_tag_end_loop r (k + length tag) None) →
  find_tag_end xml pos = Ok (pos + length tag)%nat.
Proof. intros Hd Ht. unfold find_tag_end. by rewrite Hd, Ht. Qed.

(** Not a character that ends a tag as written, nor a space around it. *)
Definition edge (c : ascii) : bool := negb (is_ascii_whitespace c) && negb (Ascii.eqb c "/").

Lemma name_char_edge c : name_char c = true → edge c = true.
Proof.
  unfold name_char, edge. simpl. destruct (is_ascii_whitespace c); [done|]. simpl.
  by destruct (Ascii.eqb c "/").
Qed.

Lemma name_ok_chars nm c : name_ok nm = true → c ∈ nm → name_char c = true.
Proof.
  intros [_ H]%andb_true_iff Hc. eapply forallb_forall in H; [done|].
  by apply list_elem_of_In.
Qed.

Lemma name_ok_cons nm : name_ok nm = true → ∃ c r, nm = c :: r ∧ name_char c = true.
Proof.
  intros H. destruct nm as [|c r]; [done|]. exists c, r. split; [done|].
  eapply name_ok_chars; [done|]. by left.
Qed.

Lemma skip_whitespace_edge c v : is_ascii_whitespace c = false → skip_whitespace (c :: v) = c :: v.
Proof. intros H. simpl. by rewrite H. Qed.

Lemma skip_whitespace_head v c :
  head v = Some c → is_ascii_whitespace c = false → skip_whitespace v = v.
Proof. destruct v as [|x v]; [done|]. intros [= ->]. apply skip_whitespace_edge. Qed.

Lemma trim_edges v c d :
  head v = Some c → last v = Some d → is_ascii_whitespace c = false → is_ascii_whitespace d = false →
  trim_ascii_whitespace v = v.
Proof.
  intros Hh Hl Hc Hd. unfold trim_ascii_whitespace. rewrite (skip_whitespace_head v c) by done.
  rewrite (skip_whitespace_head (reverse v) d); [apply reverse_involutive| |done].
  by rewrite head_reverse.
Qed.

(** The content of an opening tag. *)
Definition tag_text (nm : view) (l : list (view * view)) : view := nm ++ render_attributes l.

Lemma render_attributes_snoc l a v :
  render_attributes (l ++ [(a, v)]) =
  (render_attributes l ++ txt " " ++ a ++ ["="; "034"]%char ++ v) ++ ["034"%char].
Proof.
  unfold render_attributes. rewrite fmap_app, concat_app. simpl. unfold render_attribute; simpl.
  rewrite app_nil_r. by repeat (rewrite <-app_assoc; simpl).
Qed.

Lemma tag_text_last nm l : name_ok nm = true → ∃ d, last (tag_text nm l) = Some d ∧ edge d = true.
Proof.
  intros Hn. unfold tag_text. destruct l as [|[a v] l _] using rev_ind.
  - unfold render_attributes. simpl. rewrite app_nil_r.
    destruct (last nm) as [d|] eqn:E.
    + exists d. split; [done|]. apply name_char_edge. eapply name_ok_chars; [done|].
      by apply last_Some_elem_of.
    + apply last_None in E. by subst.
  - exists "034"%char. rewrite render_attributes_snoc, app_assoc, last_snoc. done.
Qed.

Lemma tag_text_head nm l :
  name_ok nm = true → ∃ c, head (tag_text nm l) = Some c ∧ name_char c = true.
Proof.
  intros (c & r & -> & Hc)%name_ok_cons. by exists c.
Qed.

Lemma tag_text_trim nm l : name_ok nm = true → trim_ascii_whitespace (tag_text nm l) = tag_text nm l.
Proof.
  intros Hn. destruct (tag_text_head nm l Hn) as (c & Hc & Hcc%name_char_edge).
  destruct (tag_text_last nm l Hn) as (d & Hd & Hdd).
  apply andb_true_iff in Hcc as [Hcc _], Hdd as [Hdd _].
  apply negb_true_iff in Hcc, Hdd. by eapply trim_edges.
Qed.

Lemma existsb_whitespace c : existsb (Ascii.eqb c) whitespace = is_ascii_whitespace c.
Proof.
  unfold whitespace, is_ascii_whitespace. simpl.
  destruct (Ascii.eqb c " "), (Ascii.eqb c "009"), (Ascii.eqb c "010"), (Ascii.eqb c "013"),
    (Ascii.eqb c "012"), (Ascii.eqb c "011"); done.
Qed.

Lemma find_first_of_name nm r set :
  forallb (λ c, negb (existsb (Ascii.eqb c) set)) nm = true →
  find_first_of (nm ++ r) set = (λ i, length nm + i)%nat <$> find_first_of r set.
Proof.
  induction nm as [|c nm IH]; intros H; simpl in *.
  - by destruct (find_first_of r set).
  - apply andb_true_iff in H as [Hc H]. apply negb_true_iff in Hc. rewrite Hc, IH by done.
    by destruct (find_first_of r set).
Qed.

Lemma name_no_whitespace nm :
  name_ok nm = true → forallb (λ c, negb (existsb (Ascii.eqb c) whitespace)) nm = true.
Proof.
  intros Hn. apply forallb_forall. intros c Hc. rewrite existsb_whitespace.
  assert (name_char c = true) as H by (eapply name_ok_chars; [done|]; by apply list_elem_of_In).
  by apply andb_true_iff in H as [H _].
Qed.

(** The name the scanner takes from a tag. *)
Lemma tag_text_name nm l :
  name_ok nm = true →
  match find_first_of (tag_text nm l) whitespace with
  | Some name_end => substr (tag_text nm l) 0 name_end
  | None => tag_text nm l
  end = nm.
Proof.
  intros Hn. unfold tag_text. rewrite find_first_of_name by (by apply name_no_whitespace).
  destruct l as [|[a v] l].
  - unfold render_attributes. simpl. apply app_nil_r.
  - assert (∃ r, render_attributes ((a, v) :: l) = " "%char :: r) as [r ->] by (by eexists).
    change (find_first_of (" "%char :: r) whitespace) with (Some 0%nat).
    change ((λ i, length nm + i)%nat <$> Some 0%nat) with (Some (length nm + 0)%nat).
    cbv iota. rewrite Nat.add_0_r. unfold substr. rewrite drop_0. by rewrite take_app_length.
Qed.

(** ** Opening and closing *)

(** The state inside a new element. *)
Definition opened (nm : view) (c : Collected) (position : nat) (st : Scan) : Scan :=
  {| fields := c.1; seen := c.2;
     elements := {| name := nm; required_index := required_tag_index nm |} :: elements st;
     XmlConfig.position := position |}.

(** What [open_tag] does with a name, self-closing or not. *)
Lemma open_tag_enter tag e st nm l (closing : bool) :
  name_ok nm = true →
  bool_decide (last tag = Some "/"%char) = closing →
  (if closing then trim_ascii_whitespace (substr tag 0 (length tag - 1)) else tag) = tag_text nm l →
  open_tag tag e st =
  (c ← enter (top st) nm (collected st);
   Ok (if closing
       then {| fields := c.1; seen := c.2; elements := elements st; position := e + 1 |}
       else opened nm c (e + 1) st)).
Proof.
  intros Hn Hc Ht. unfold open_tag. rewrite Hc, Ht. cbv zeta. rewrite tag_text_name by done.
  destruct (name_ok_cons nm Hn) as (c & r & -> & Hcc%name_char_edge).
  apply andb_true_iff in Hcc as [_ Hcc]. apply negb_true_iff in Hcc.
  rewrite bool_decide_eq_false_2 by done. rewrite bool_decide_eq_false_2.
  2: { simpl. intros [= ->]. done. }
  cbn [orb]. unfold enter, top. destruct st as [f s els p]; cbn [elements collected fields seen].
  destruct els as [|[m [i|]] outer]; cbn [required_index]; [|done|];
    (destruct (required_tag_index (c :: r)) as [j|] eqn:Ej; cbn [snd fst];
     [destruct (default false _); [done|]|]; destruct closing; cbn [mbind Res_bind];
     unfold opened; rewrite ?Ej; done).
Qed.

Lemma open_tag_element nm l e st :
  name_ok nm = true →
  open_tag (tag_text nm l) e st =
  (c ← enter (top st) nm (collected st); Ok (opened nm c (e + 1) st)).
Proof.
  intros Hn. apply (open_tag_enter _ _ _ _ l false Hn); [|done].
  destruct (tag_text_last nm l Hn) as (d & -> & Hd). apply bool_decide_eq_false. intros [= ->]. done.
Qed.

Lemma open_tag_empty nm l e st :
  name_ok nm = true →
  open_tag (tag_text nm l ++ ["/"%char]) e st =
  (c ← enter (top st) nm (collected st);
   Ok {| fields := c.1; seen := c.2; elements := elements st; position := e + 1 |}).
Proof.
  intros Hn. apply (open_tag_enter _ _ _ _ l true Hn).
  - rewrite last_snoc. by apply bool_decide_eq_true.
  - unfold substr. rewrite drop_0, length_app. change (length ["/"%char]) with 1%nat.
    rewrite Nat.add_sub, take_app_length. by apply tag_text_trim.
Qed.

Lemma close_tag_name nm e st outer r :
  name_ok nm = true → elements st = {| name := nm; required_index := r |} :: outer →
  close_tag ("/"%char :: nm) e st =
  Ok {| fields := fields st; seen := seen st; elements := outer; position := e + 1 |}.
Proof.
  intros Hn He. unfold close_tag. change (substr_from ("/"%char :: nm) 1) with nm.
  pose proof (tag_text_trim nm [] Hn) as Ht. unfold tag_text, render_attributes in Ht.
  simpl in Ht. rewrite app_nil_r in Ht. rewrite Ht, He.
  destruct (name_ok_cons nm Hn) as (c & v & E & _).
  rewrite bool_decide_eq_false_2 by (by rewrite E). rewrite bool_decide_eq_false_2.
  2: { intros Hf. apply Hf. replace nm with (nm ++ []) by apply app_nil_r.
       rewrite find_first_of_name; [done|]. apply forallb_forall. intros x Hx.
       assert (name_char x = true) as Hxc by (eapply name_ok_chars; [done|]; by apply list_elem_of_In).
       rewrite existsb_app, existsb_whitespace.
       apply name_char_edge, andb_true_iff in Hxc as [Hx1 Hx2].
       apply negb_true_iff in Hx1, Hx2. simpl. by rewrite Hx1, Hx2. }
  rewrite bool_decide_eq_true_2 by done. by destruct st.
Qed.

(** A tag in the document. *)
Lemma scan_tag xml st c t rest :
  let tag := c :: t in
  drop (position st) xml = "<"%char :: tag ++ ">"%char :: rest →
  c ≠ "!"%char → c ≠ "?"%char → trim_ascii_whitespace tag = tag →
  (∀ r k, find_tag_end_loop (tag ++ r) k None = find_tag_end_loop r (k + length tag) None) →
  let e := (position st + 1 + length tag)%nat in
  scan_all xml st =
  (st' ← (if Ascii.eqb c "/" then close_tag tag e st else open_tag tag e st); scan_all xml st').
Proof.
  intros tag Hd H1 H2 Ht Hf e. rewrite (scan_at _ _ _ Hd). f_equal. unfold scan_markup.
  assert (∀ b n, (2 ≤ n)%nat → take 2 b ≠ ["<"%char; c] →
    bool_decide (substr xml (position st) n = b) = false) as Hno.
  { intros b n Hn Hb. apply bool_decide_eq_false. eapply (substr_not xml (position st) ["<"%char; c] (t ++ ">"%char :: rest)); [exact Hd|exact Hn|exact Hb]. }
  rewrite !Hno by first [lia | vm_compute; intros Hb; injection Hb; congruence].
  assert (drop (position st + 1) xml = tag ++ ">"%char :: rest) as Hd1.
  { exact (@drop_further xml (position st) ["<"%char] _ Hd). }
  rewrite (find_tag_end_at _ _ _ _ Hd1 Hf). cbn [mbind Res_bind]. fold e.
  rewrite (substr_head xml _ tag _ _ Hd1) by (unfold e; lia). by rewrite Ht.
Qed.

Lemma find_tag_end_name nm r k :
  name_ok nm = true → find_tag_end_loop (nm ++ r) k None = find_tag_end_loop r (k + length nm) None.
Proof.
  intros [_ Hn]%andb_true_iff. apply find_tag_end_plain. apply forallb_forall. intros c Hc.
  apply name_char_plain. by eapply forallb_forall in Hn.
Qed.

Lemma find_tag_end_tag_text nm l r k :
  name_ok nm = true → forallb attribute_ok l = true →
  find_tag_end_loop (tag_text nm l ++ r) k None = find_tag_end_loop r (k + length (tag_text nm l)) None.
Proof.
  intros Hn Hl. unfold tag_text. rewrite <-app_assoc, find_tag_end_name, find_tag_end_attributes by done.
  by rewrite length_app, Nat.add_assoc.
Qed.

Lemma name_char_special c :
  name_char c = true → c ≠ "!"%char ∧ c ≠ "?"%char ∧ Ascii.eqb c "/" = false.
Proof.
  intros H. split_and!; [by intros ->|by intros ->|]. apply name_char_edge, andb_true_iff in H as [_ H].
  by apply negb_true_iff in H.
Qed.

Lemma scan_open xml st nm l rest :
  name_ok nm = true → forallb attribute_ok l = true →
  drop (position st) xml = txt "<" ++ tag_text nm l ++ txt ">" ++ rest →
  scan_all xml st =
  (c ← enter (top st) nm (collected st);
   scan_all xml (opened nm c (position st + 2 + length (tag_text nm l)) st)).
Proof.
  intros Hn Hl Hd. destruct (tag_text nm l) as [|x t] eqn:Et.
  { by destruct (name_ok_cons nm Hn) as (? & ? & -> & _). }
  destruct (tag_text_head nm l Hn) as (c & Hc & Hcc). rewrite Et in Hc. injection Hc as ->.
  destruct (name_char_special c Hcc) as (H1 & H2 & H3).
  rewrite (scan_tag xml st c t rest Hd H1 H2), H3, <-Et.
  - rewrite open_tag_element by done. destruct (enter _ _ _); [|done|done]. cbn [mbind Res_bind].
    do 2 f_equal. lia.
  - rewrite <-Et. by apply tag_text_trim.
  - rewrite <-Et. intros. by apply find_tag_end_tag_text.
Qed.

Lemma scan_empty xml st nm l rest :
  name_ok nm = true → forallb attribute_ok l = true →
  drop (position st) xml = txt "<" ++ (tag_text nm l ++ txt "/") ++ txt ">" ++ rest →
  scan_all xml st =
  (c ← enter (top st) nm (collected st);
   scan_all xml (advance c (length (render (Empty nm l))) st)).
Proof.
  intros Hn Hl Hd. destruct (tag_text nm l) as [|x t] eqn:Et.
  { by destruct (name_ok_cons nm Hn) as (? & ? & -> & _). }
  destruct (tag_text_head nm l Hn) as (c & Hc & Hcc). rewrite Et in Hc. injection Hc as ->.
  destruct (name_char_special c Hcc) as (H1 & H2 & H3).
  rewrite (scan_tag xml st c (t ++ txt "/") rest Hd H1 H2), H3.
  - rewrite app_comm_cons, <-Et, open_tag_empty by done.
    destruct (enter _ _ _) as [d| |]; [|done|done]. cbn [mbind Res_bind].
    unfold advance. do 2 f_equal. cbn [render]. unfold tag_text.
    repeat (rewrite length_app; simpl). lia.
  - rewrite app_comm_cons, <-Et. destruct (tag_text_head nm l Hn) as (c' & Hc' & _).
    eapply (trim_edges _ c "/"%char); [by rewrite Et|exact (last_snoc "/"%char _)| |done].
    apply name_char_edge, andb_true_iff in Hcc as [Hcc _]. by apply negb_true_iff in Hcc.
  - intros r k. rewrite app_comm_cons, <-Et, <-app_assoc, find_tag_end_tag_text by done.
    rewrite (find_tag_end_plain (txt "/")) by done. by rewrite length_app, Nat.add_assoc.
Qed.

Lemma scan_close xml st nm outer r rest :
  name_ok nm = true → elements st = {| name := nm; required_index := r |} :: outer →
  drop (position st) xml = txt "</" ++ nm ++ txt ">" ++ rest →
  scan_all xml st =
  scan_all xml {| fields := fields st; seen := seen st; elements := outer;
                  position := position st + length nm + 3 |}.
Proof.
  intros Hn He Hd. rewrite (scan_tag xml st "/"%char nm rest Hd); [|done|done| |].
  - rewrite Ascii.eqb_refl. rewrite (close_tag_name nm _ st outer r) by done. cbn [mbind Res_bind].
    do 2 f_equal. simpl. lia.
  - destruct (tag_text_last nm [] Hn) as (d & Hl & Hd'). unfold tag_text, render_attributes in Hl.
    simpl in Hl. rewrite app_nil_r in Hl. apply andb_true_iff in Hd' as [Hd' _].
    apply negb_true_iff in Hd'. apply (trim_edges _ "/"%char d); try done.
    rewrite last_cons, Hl. done.
  - intros q k. cbn [app find_tag_end_loop]. simpl Ascii.eqb. simpl orb. cbv iota.
    rewrite find_tag_end_name by done. f_equal. simpl. lia.
Qed.

(** ** The scanner computes the reference *)

(** From any state at the start of the rendering of [n], the scan goes on after it with
    what [visit] collects, or ends with its error. *)
Definition scans (n : node) : Prop := ∀ xml st rest,
  drop (position st) xml = render n ++ rest →
  scan_all xml st =
  (c ← visit (top st) n (collected st); scan_all xml (advance c (length (render n)) st)).

Lemma bind_bind {A B C} (m : Res A) (f : A → Res B) (g : B → Res C) :
  (m ≫= f) ≫= g = m ≫= (λ a, f a ≫= g).
Proof. by destruct m. Qed.

Lemma bind_ext {A B} (m : Res A) (f g : A → Res B) : (∀ a, f a = g a) → m ≫= f = m ≫= g.
Proof. intros H. destruct m; [apply H|done|done]. Qed.

Lemma top_advance c n st : top (advance c n st) = top st.
Proof. done. Qed.

Lemma collected_advance c n st : collected (advance c n st) = c.
Proof. by destruct c. Qed.

Lemma scans_list l xml st rest :
  Forall scans l → drop (position st) xml = render_all l ++ rest →
  scan_all xml st =
  (c ← visit_all (top st) l (collected st); scan_all xml (advance c (length (render_all l)) st)).
Proof.
  intros Hl. revert st. induction Hl as [|n l Hn Hl IH]; intros st Hd.
  { cbn. by rewrite advance_none. }
  unfold render_all in *. cbn [fmap list_fmap concat] in *. rewrite <-app_assoc in Hd.
  rewrite (Hn xml st _ Hd). unfold visit_all. cbn [visit_list]. rewrite bind_bind.
  apply bind_ext. intros c. rewrite IH by (cbn [position advance]; by apply drop_further).
  rewrite top_advance, collected_advance. apply bind_ext. intros c'.
  by rewrite advance_advance, length_app.
Qed.

Lemma scans_element nm l children :
  name_ok nm = true → forallb attribute_ok l = true → Forall scans children →
  scans (Element nm l children).
Proof.
  intros Hn Hl Hc xml st rest Hd. cbn [render] in Hd. fold (tag_text nm l) in Hd.
  rewrite <-!app_assoc in Hd.
  rewrite (scan_open xml st nm l _ Hn Hl Hd). cbn [visit]. rewrite bind_bind.
  apply bind_ext. intros c.
  set (st1 := opened nm c _ st).
  assert (drop (position st1) xml = render_all children ++ txt "</" ++ nm ++ txt ">" ++ rest) as Hd1.
  { assert (drop (position st) xml = (txt "<" ++ tag_text nm l ++ txt ">") ++
      render_all children ++ txt "</" ++ nm ++ txt ">" ++ rest) as Hd2
      by (by rewrite Hd, <-!app_assoc).
    apply drop_further in Hd2. rewrite <-Hd2. f_equal.
    unfold st1, opened; cbn [position]. rewrite !length_app. simpl. lia. }
  rewrite (scans_list children xml st1 _ Hc Hd1).
  assert (collected st1 = c) as -> by (by destruct c). apply bind_ext. intros c'.
  rewrite (scan_close xml _ nm (elements st) (required_tag_index nm) rest); [|done|done|].
  2: { cbn [position advance]. by apply drop_further. }
  unfold advance. do 2 f_equal. unfold st1, opened; cbn [position render].
  unfold render_all, tag_text. repeat (rewrite length_app; simpl). lia.
Qed.

Lemma lexical_scans n : lexical n = true → scans n.
Proof.
  induction n as [v|v|v|v|nm l children IH|nm l] using node_nested_ind; intros Hn.
  - intros xml st rest Hd. by apply (scan_text xml st v rest).
  - intros xml st rest Hd. cbn [render] in Hd. rewrite <-!app_assoc in Hd. by eapply scan_comment.
  - intros xml st rest Hd. cbn [render] in Hd. rewrite <-!app_assoc in Hd. by eapply scan_cdata.
  - intros xml st rest Hd. cbn [render] in Hd. rewrite <-!app_assoc in Hd. by eapply scan_instruction.
  - cbn [lexical] in Hn. apply andb_true_iff in Hn as [[Hn Hl]%andb_true_iff Hc].
    apply scans_element; [done..|]. clear -IH Hc.
    induction IH as [|n children Hn _ IHc]; [done|]. cbn [forallb] in Hc.
    apply andb_true_iff in Hc as [Hc1 Hc2]. constructor; auto.
  - cbn [lexical] in Hn. apply andb_true_iff in Hn as [Hn Hl]. intros xml st rest Hd.
    cbn [render] in Hd. rewrite <-!app_assoc in Hd. apply (scan_empty xml st nm l rest); [done..|].
    unfold tag_text. by rewrite Hd, <-!app_assoc.
Qed.

(** What the scanner makes of the rendering of a document. *)
Lemma extract_render doc :
  forallb lexical doc = true → extract_required_fields (render_all doc) = document_fields doc.
Proof.
  intros Hd. rewrite extract_required_fields_all.
  rewrite (scans_list doc _ scan_init []).
  - unfold document_fields. change (collected scan_init) with nothing.
    change (top scan_init) with (@None nat). destruct (visit_all None doc nothing) as [[f s]| |]; [|done|done].
    cbn [mbind Res_bind]. rewrite scan_all_end; [done|]. cbn [advance position scan_init]. lia.
  - apply Forall_forall. intros n Hn. apply lexical_scans.
    eapply forallb_forall in Hd; [done|]. by apply list_elem_of_In.
  - by rewrite app_nil_r.
Qed.

(** C13: the character scanner equals the tree reference. On the rendering of any
    document (elements with attributes nested at will, empty elements, comments, CDATA
    sections, processing instructions and text) the fields it extracts are those that
    [visit] collects on the tree: the text and CDATA of each field element, in order,
    with the same [DiscoveryError] for a repeated field, for markup inside a field, and
    for a missing, empty or overlong one. *)
Theorem scanner_equals_reference doc :
  forallb lexical doc = true → extract_required_fields (render_all doc) = document_fields doc.
Proof. apply extract_render. Qed.

(** ** Writing a configuration *)

Definition digit_char (d : Z) : ascii := ascii_of_N (Z.to_N (48 + d)).

(** The decimal digits of [n], most significant first. *)
Fixpoint decimal_loop (fuel : nat) (n : Z) : view :=
  match fuel with
  | O => []
  | S fuel =>
    if n <? 10 then [digit_char n] else decimal_loop fuel (n / 10) ++ [digit_char (n mod 10)]
  end.

Definition decimal (n : Z) : view := decimal_loop (S (Z.to_nat (Z.log2 n))) n.

(** The last [k] decimal digits of [n]. *)
Fixpoint fraction (k : nat) (n : Z) : view :=
  match k with
  | O => []
  | S k => fraction k (n / 10) ++ [digit_char (n mod 10)]
  end.

(** The number [m / 10^k] with [k] decimals. *)
Definition count_text (m : Z) (k : nat) : view :=
  decimal (m / 10 ^ Z.of_nat k) ++ match k with O => [] | S _ => "."%char :: fraction k m end.

(** The [double] nearest to [m / 10^k]. *)
Definition nearest (m : Z) (k : nat) : double :=
  Decimal.literal_value {| Decimal.negative := false; Decimal.significand := m;
                           Decimal.exponent10 := - Z.of_nat k |}.

(** Python's [html.escape]. *)
Definition escape_char (c : ascii) : view :=
  if Ascii.eqb c "&" then txt "&amp;"
  else if Ascii.eqb c "<" then txt "&lt;"
  else if Ascii.eqb c ">" then txt "&gt;"
  else if Ascii.eqb c "034" then txt "&quot;"
  else if Ascii.eqb c "'" then txt "&#x27;"
  else [c].

Definition escape (v : view) : view := concat (escape_char <$> v).

(** Source: tests/integration/fake_sensor.py:44-54, [_Configuration.xml]: the document of a
    sensor. The counts are texts: Python writes integers with [decimal] and floats, from
    1e-4 up to 1e16, with decimals. *)
Definition sensor_tree (product_name cpf cpt : view) (fu : ForceUnit) (tu : TorqueUnit)
    : list node :=
  let field tag text := Element (txt tag) [] [Text text] in
  [Instruction (txt "xml version=" ++ ["034"; "1"; "."; "0"; "034"]%char);
   Element (txt "netft") []
     [field "prodname" (escape product_name);
      field "cfgcpf" cpf; field "cfgcpt" cpt;
      field "scfgfu" (escape (txt (Types.ForceUnit_to_string fu)));
      field "scfgtu" (escape (txt (Types.TorqueUnit_to_string tu)))]].

Lemma escape_no_markup v : forallb (λ c, negb (Ascii.eqb c "<")) (escape v) = true.
Proof.
  induction v as [|c v IH]; [done|]. unfold escape. cbn [fmap list_fmap concat].
  rewrite forallb_app. apply andb_true_intro. split; [|exact IH].
  unfold escape_char. repeat case_match; try done. cbn. by rewrite H0.
Qed.

(** A text without special characters is written as it is. *)
Lemma escape_plain v :
  forallb (λ c, negb (existsb (Ascii.eqb c) ["&"; "<"; ">"; "034"; "'"]%char)) v = true →
  escape v = v.
Proof.
  induction v as [|c v IH]; [done|]. cbn [forallb]. intros [Hc Hv]%andb_prop.
  unfold escape. cbn [fmap list_fmap concat]. fold (escape v). rewrite (IH Hv).
  apply negb_true_iff in Hc. cbn [existsb] in Hc. unfold escape_char.
  by repeat (apply orb_false_iff in Hc as [-> Hc]).
Qed.

Lemma escape_units fu tu :
  escape (txt (Types.ForceUnit_to_string fu)) = txt (Types.ForceUnit_to_string fu) ∧
  escape (txt (Types.TorqueUnit_to_string tu)) = txt (Types.TorqueUnit_to_string tu).
Proof. by destruct fu, tu. Qed.

Lemma digit_char_value d : 0 ≤ d < 10 → Decimal.digit_value (digit_char d) = Some d.
Proof.
  intros H. assert (d = 0 ∨ d = 1 ∨ d = 2 ∨ d = 3 ∨ d = 4 ∨ d = 5 ∨ d = 6 ∨ d = 7 ∨ d = 8 ∨ d = 9) as Hd by lia.
  by repeat (destruct Hd as [->|Hd]; [done|]); subst.
Qed.

Lemma digits_value_snoc ds d :
  Decimal.digits_value (ds ++ [digit_char d]) =
  Decimal.digits_value ds * 10 + default 0 (Decimal.digit_value (digit_char d)).
Proof. unfold Decimal.digits_value. by rewrite foldl_app. Qed.

Lemma decimal_loop_spec fuel n :
  0 ≤ n < 2 ^ Z.of_nat fuel →
  Decimal.digits_value (decimal_loop fuel n) = n ∧
  Forall (λ c, Decimal.is_digit c = true) (decimal_loop fuel n) ∧
  (fuel ≠ O → decimal_loop fuel n ≠ []).
Proof.
  revert n. induction fuel as [|fuel IH]; intros n Hn.
  { simpl in Hn. replace n with 0 by lia. by split_and!. }
  cbn [decimal_loop]. destruct (Z.ltb_spec n 10) as [Hlt|Hge].
  - split_and!; [| |done].
    + unfold Decimal.digits_value; simpl. by rewrite digit_char_value by lia.
    + constructor; [|done]. unfold Decimal.is_digit. by rewrite digit_char_value by lia.
  - rewrite Nat2Z.inj_succ, Z.pow_succ_r in Hn by lia.
    destruct (IH (n / 10)) as (IH1 & IH2 & IH3); [mod_lia|].
    assert (0 ≤ n mod 10 < 10) by mod_lia. split_and!.
    + rewrite digits_value_snoc, IH1, digit_char_value by done. simpl. mod_lia.
    + apply Forall_snoc; [done|]. unfold Decimal.is_digit. by rewrite digit_char_value.
    + intros _ E. by apply app_nil in E as [_ ?].
Qed.

Lemma span_all_digits ds :
  Forall (λ c, Decimal.is_digit c = true) ds → Decimal.span_digits ds = (ds, []).
Proof. induction 1 as [|c ds Hc _ IH]; simpl; [done|]. by rewrite Hc, IH. Qed.

Lemma digit_not c x : Decimal.is_digit c = true → Decimal.is_digit x = false → Ascii.eqb c x = false.
Proof.
  intros Hc Hx. destruct (Ascii.eqb_spec c x); [|done]. congruence.
Qed.

Lemma decimal_digits n : 0 ≤ n → Decimal.digits_value (decimal n) = n ∧
  Forall (λ c, Decimal.is_digit c = true) (decimal n) ∧ decimal n ≠ [].
Proof.
  intros Hn. destruct (decimal_loop_spec (S (Z.to_nat (Z.log2 n))) n) as (H1 & H2 & H3).
  - destruct (decide (n = 0)) as [->|]; [by vm_compute|].
    pose proof (Z.log2_spec n ltac:(lia)). pose proof (Z.log2_nonneg n).
    replace (Z.of_nat (S (Z.to_nat (Z.log2 n)))) with (Z.succ (Z.log2 n)) by lia. lia.
  - split_and!; auto.
Qed.

Lemma fraction_digits k n :
  0 ≤ n → Forall (λ c, Decimal.is_digit c = true) (fraction k n) ∧ length (fraction k n) = k.
Proof.
  revert n. induction k as [|k IH]; intros n Hn; [done|]. cbn [fraction].
  destruct (IH (n / 10)) as [H1 H2]; [mod_lia|]. rewrite length_app, H2. cbn. split; [|lia].
  apply Forall_snoc; [done|]. unfold Decimal.is_digit. rewrite digit_char_value; [done|mod_lia].
Qed.

Lemma count_value m k :
  0 ≤ m → Decimal.digits_value (decimal (m / 10 ^ Z.of_nat k) ++ fraction k m) = m.
Proof.
  revert m. induction k as [|k IH]; intros m Hm; cbn [fraction].
  { rewrite app_nil_r. change (10 ^ Z.of_nat 0) with 1. rewrite Z.div_1_r. by apply decimal_digits. }
  rewrite app_assoc, digits_value_snoc, digit_char_value by mod_lia. cbn [default from_option].
  rewrite Nat2Z.inj_succ, Z.pow_succ_r, <- Z.div_div by lia. rewrite IH by mod_lia.
  unfold id. mod_lia.
Qed.

Lemma span_digits_stop ds c rest :
  Forall (λ c, Decimal.is_digit c = true) ds → Decimal.is_digit c = false →
  Decimal.span_digits (ds ++ c :: rest) = (ds, c :: rest).
Proof. intros H Hc. induction H as [|d ds Hd _ IH]; cbn; [by rewrite Hc|]. by rewrite Hd, IH. Qed.

(** Reading back a number with decimals gives the [double] nearest to it. *)
Lemma extract_count m k :
  0 ≤ m → isfinite (nearest m k) = true →
  Decimal.extract_double (count_text m k) = Some (nearest m k).
Proof.
  intros Hm Hf. assert (0 ≤ m / 10 ^ Z.of_nat k) as Hq by (apply Z.div_pos; lia).
  pose proof (count_value m k Hm) as Hv.
  destruct (decimal_digits _ Hq) as (_ & Hd & Hne), (fraction_digits k m Hm) as [Hfd Hfl].
  unfold Decimal.extract_double, Decimal.read_literal, count_text.
  set (ds := decimal (m / 10 ^ Z.of_nat k)) in *. clearbody ds.
  assert (∀ rest, Decimal.read_sign (ds ++ rest) = (false, ds ++ rest)) as ->.
  { destruct ds as [|c ds]; [done|]. intros rest. apply Forall_cons in Hd as [Hc _].
    cbn. by rewrite (digit_not c "-"), (digit_not c "+"). }
  destruct k as [|k].
  - rewrite app_nil_r, span_all_digits, app_nil_r by done. cbn [fraction] in Hv.
    rewrite app_nil_r in Hv. cbn [Decimal.read_exponent mbind option_bind].
    destruct ds; [done|]. rewrite Hv. change (0 - Z.of_nat (length [])) with (- Z.of_nat 0).
    cbn [mbind option_bind]. unfold nearest in Hf |- *. by rewrite Hf.
  - rewrite span_digits_stop by done. cbn [Ascii.eqb Bool.eqb].
    rewrite (span_all_digits (fraction (S k) m)) by done.
    destruct (ds ++ fraction (S k) m) eqn:E; [by apply app_nil in E as [-> _]|].
    cbn [Decimal.read_exponent mbind option_bind]. rewrite Hv, Hfl.
    change (0 - Z.of_nat (S k)) with (- Z.of_nat (S k)).
    cbn [mbind option_bind]. unfold nearest in Hf |- *. by rewrite Hf.
Qed.

(** ** Reading it back *)

(** A field the final checks leave alone. *)
Definition clean (v : view) : bool :=
  negb (bool_decide (v = [])) && bool_decide (trim_ascii_whitespace v = v)
  && (length v <=? kMaximumFieldLength)%nat.

Lemma check_field_clean i v : clean v = true → check_field i true v = Ok v.
Proof.
  intros [[Hne Ht]%andb_true_iff Hl]%andb_true_iff. apply negb_true_iff in Hne.
  apply bool_decide_eq_false in Hne. apply bool_decide_eq_true in Ht. apply Nat.leb_le in Hl.
  unfold check_field. cbn [negb]. rewrite Ht, bool_decide_eq_false_2 by done.
  by rewrite (proj2 (Nat.ltb_ge _ _)).
Qed.

Lemma digit_not_whitespace c : Decimal.is_digit c = true → is_ascii_whitespace c = false.
Proof.
  intros H. unfold is_ascii_whitespace. by rewrite !(digit_not c) by done.
Qed.

Lemma count_chars m k :
  0 ≤ m → Forall (λ c, Decimal.is_digit c = true ∨ c = "."%char) (count_text m k) ∧
  ∃ c d, head (count_text m k) = Some c ∧ last (count_text m k) = Some d ∧
    Decimal.is_digit c = true ∧ Decimal.is_digit d = true.
Proof.
  intros Hm. assert (0 ≤ m / 10 ^ Z.of_nat k) as Hq by (apply Z.div_pos; lia).
  destruct (decimal_digits _ Hq) as (_ & Hd & Hne), (fraction_digits k m Hm) as [Hfd Hfl].
  unfold count_text. set (ds := decimal (m / 10 ^ Z.of_nat k)) in *. clearbody ds. split.
  - apply Forall_app. split; [eapply Forall_impl; [exact Hd|by left]|].
    destruct k; constructor; [by right|]. eapply Forall_impl; [exact Hfd|by left].
  - destruct ds as [|c ds]; [done|]. exists c. pose proof Hd as [Hc _]%Forall_cons.
    destruct k as [|k].
    + rewrite app_nil_r. destruct (last (c :: ds)) as [d|] eqn:E; [|by apply last_None in E].
      exists d. split_and!; try done. rewrite Forall_forall in Hd. by apply Hd, last_Some_elem_of.
    + rewrite last_app_cons. cbn [fraction] in Hfd |- *. exists (digit_char (m mod 10)).
      rewrite app_comm_cons, last_snoc. split_and!; try done.
      apply Forall_app in Hfd as [_ [H _]%Forall_cons]. done.
Qed.

Lemma count_clean m k :
  0 ≤ m → (length (count_text m k) ≤ kMaximumFieldLength)%nat → clean (count_text m k) = true.
Proof.
  intros Hm Hl. destruct (count_chars m k Hm) as (_ & c & d & Hc & Hd & H1 & H2). unfold clean.
  rewrite (proj2 (Nat.leb_le _ _) Hl), bool_decide_eq_false_2 by (intros E; by rewrite E in Hc).
  cbn [negb andb]. rewrite andb_true_r. apply bool_decide_eq_true.
  apply (trim_edges _ c d); [done|done|by apply digit_not_whitespace..].
Qed.

Lemma count_no_markup m k : 0 ≤ m → forallb (λ c, negb (Ascii.eqb c "<")) (count_text m k) = true.
Proof.
  intros Hm. destruct (count_chars m k Hm) as [H _]. apply forallb_forall. intros c Hc.
  rewrite Forall_forall in H. destruct (H c) as [Hd| ->]; [by apply list_elem_of_In| |done].
  by rewrite (digit_not c "<").
Qed.

Lemma sensor_tree_lexical product_name m1 k1 m2 k2 fu tu :
  0 ≤ m1 → 0 ≤ m2 →
  forallb lexical (sensor_tree product_name (count_text m1 k1) (count_text m2 k2) fu tu) = true.
Proof.
  intros Hf Ht. unfold sensor_tree. cbn [forallb lexical]. rewrite !escape_no_markup.
  by rewrite !count_no_markup by done.
Qed.

(** What the reference collects in it. *)
Lemma sensor_tree_fields product_name cpf cpt fu tu :
  document_fields (sensor_tree product_name cpf cpt fu tu) =
  check_fields 0 [true; true; true; true; true]
    [escape product_name; cpf; cpt; txt (Types.ForceUnit_to_string fu);
     txt (Types.TorqueUnit_to_string tu)].
Proof. unfold sensor_tree. destruct (escape_units fu tu) as [-> ->]. reflexivity. Qed.

Lemma extract_sensor_tree product_name m1 k1 m2 k2 fu tu :
  clean (escape product_name) = true → 0 ≤ m1 → 0 ≤ m2 →
  (length (count_text m1 k1) ≤ kMaximumFieldLength)%nat →
  (length (count_text m2 k2) ≤ kMaximumFieldLength)%nat →
  extract_required_fields
    (render_all (sensor_tree product_name (count_text m1 k1) (count_text m2 k2) fu tu)) =
  Ok [escape product_name; count_text m1 k1; count_text m2 k2;
      txt (Types.ForceUnit_to_string fu); txt (Types.TorqueUnit_to_string tu)].
Proof.
  intros Hc Hf Ht Hlf Hlt. rewrite extract_render by (by apply sensor_tree_lexical).
  rewrite sensor_tree_fields. cbn [check_fields].
  rewrite !check_field_clean by (done || (by apply count_clean) || (by destruct fu) || by destruct tu).
  done.
Qed.

Lemma parse_count name m k tag :
  0 ≤ m → Types.require_safe_count name (nearest m k) = Ok () →
  parse_positive_count (count_text m k) tag = Ok (nearest m k).
Proof.
  intros Hm Hs. unfold Types.require_safe_count, Types.require_positive_finite in Hs.
  destruct (negb (isfinite (nearest m k)) || d_le (nearest m k) (d_of_Z 0)) eqn:Hp; [done|].
  pose proof Hp as [Hf%negb_false_iff _]%orb_false_iff.
  destruct (count_chars m k Hm) as (_ & c & d & Hc & _ & H1 & _). unfold parse_positive_count.
  rewrite bool_decide_eq_false_2 by (intros E; by rewrite E in Hc).
  rewrite bool_decide_eq_false_2; [cbn [orb]; by rewrite extract_count, Hp by done|].
  rewrite Hc. intros [= ->]. discriminate H1.
Qed.

Lemma string_of_txt s : string_of_list_ascii (txt s) = s.
Proof. apply string_of_list_ascii_of_string. Qed.

Lemma parse_units_written fu tu :
  fu ≠ ForceUnit.Unknown → tu ≠ TorqueUnit.Unknown →
  parse_force_unit (Types.ForceUnit_to_string fu) = Ok fu ∧
  parse_torque_unit (Types.TorqueUnit_to_string tu) = Ok tu.
Proof. intros Hf Ht. split; [by destruct fu|by destruct tu]. Qed.

(** C33: configurations survive the wire. The document a sensor writes for a product name,
    counts with any number of decimals and known units, if the calibration is an accepted
    one, parses to exactly that calibration: each count as the [double] nearest to the
    decimal number, both units, and the name as the document has it, with the characters
    XML reserves still escaped, so the name itself when it has none of them. The name must
    be a field the parser takes (not blank at an end, not over-long), and so must the
    written counts (not over-long). *)
Theorem configuration_roundtrip product_name m1 k1 m2 k2 fu tu :
  let calibration := {| Calibration.counts_per_force_unit := nearest m1 k1;
                        Calibration.counts_per_torque_unit := nearest m2 k2;
                        Calibration.force_unit := fu; Calibration.torque_unit := tu |} in
  clean (escape product_name) = true → 0 ≤ m1 → 0 ≤ m2 →
  (length (count_text m1 k1) ≤ kMaximumFieldLength)%nat →
  (length (count_text m2 k2) ≤ kMaximumFieldLength)%nat →
  Types.validate_calibration calibration = Ok () →
  parse_sensor_configuration
    (render_all (sensor_tree product_name (count_text m1 k1) (count_text m2 k2) fu tu)) =
  Ok {| SensorConfiguration.product_name := string_of_list_ascii (escape product_name);
        SensorConfiguration.calibration := calibration;
        SensorConfiguration.source := CalibrationSource.Sensor;
        SensorConfiguration.revision := 1 |} ∧
  (forallb (λ c, negb (existsb (Ascii.eqb c) ["&"; "<"; ">"; "034"; "'"]%char)) product_name = true →
   escape product_name = product_name).
Proof.
  intros calibration Hc Hf Ht Hlf Hlt Hv. split; [|apply escape_plain].
  unfold parse_sensor_configuration. rewrite extract_sensor_tree by done.
  pose proof Hv as Hv'. unfold Types.validate_calibration in Hv'.
  apply bind_Ok_inv in Hv' as ([] & Hsf & Hv'). apply bind_Ok_inv in Hv' as ([] & Hst & Hu).
  cbn [calibration Calibration.counts_per_force_unit Calibration.counts_per_torque_unit
       Calibration.force_unit Calibration.torque_unit] in *.
  destruct (bool_decide (fu = _) || bool_decide (tu = _)) eqn:Eu; [done|].
  apply orb_false_iff in Eu as [Eu1%bool_decide_eq_false Eu2%bool_decide_eq_false].
  cbn [mbind Res_bind lookup list_lookup default from_option id].
  rewrite (parse_count _ _ _ _ Hf Hsf). cbn [mbind Res_bind].
  rewrite (parse_count _ _ _ _ Ht Hst). cbn [mbind Res_bind].
  unfold field_text. cbn [mbind Res_bind lookup list_lookup default from_option id].
  rewrite !string_of_txt.
  destruct (parse_units_written fu tu Eu1 Eu2) as [-> ->]. cbn [mbind Res_bind].
  fold calibration. unfold catch. by rewrite Hv.
Qed.

(** ** Examples *)

(** A document with attributes, comments, CDATA, nesting and an empty element. *)
Definition mixed_document : list node :=
  [Comment (txt " net - ft "); Text (txt " ");
   Element (txt "netft") [(txt "ver", txt "a>b/")]
     [Element (txt "prodname") [] [Text (txt " Mini"); CData (txt "<45>"); Comment (txt "x")];
      Empty (txt "other") [(txt "k", txt "v")];
      Element (txt "group") [] [Element (txt "cfgcpf") [] [Text (txt "12.5")]];
      Element (txt "cfgcpt") [] [Text (txt "1e3")];
      Element (txt "scfgfu") [] [Text (txt "N")]; Element (txt "scfgtu") [] [Text (txt "Nm")]]].

Lemma scanner_equals_reference_witness :
  forallb lexical mixed_document = true ∧
  extract_required_fields (render_all mixed_document) = document_fields mixed_document ∧
  document_fields mixed_document =
    Ok (txt <$> ["Mini<45>"; "12.5"; "1e3"; "N"; "Nm"]%string).
Proof.
  split; [by vm_compute|]. split; [|by vm_compute].
  apply (scanner_equals_reference mixed_document). by vm_compute.
Defined.

(** 1000000 and 15623.25 counts per unit. *)
Lemma configuration_roundtrip_witness :
  let texts := (count_text 1000000 0, count_text 1562325 2) in
  texts = (txt "1000000", txt "15623.25") ∧
  ∃ conf, parse_sensor_configuration
    (render_all (sensor_tree (txt "ATI Net F/T") texts.1 texts.2 ForceUnit.Newton
       TorqueUnit.NewtonMeter)) = Ok conf.
Proof.
  split; [by vm_compute|].
  eexists. apply (configuration_roundtrip (txt "ATI Net F/T") 1000000 0 1562325 2 ForceUnit.Newton
    TorqueUnit.NewtonMeter); first [lia | by vm_compute | vm_compute; lia].
Defined.

End XmlSpec.
