(* ===== verification/Rounding.v ===== *)
(** * The parser's floating-point environment: core/src/detail/xml_config.cpp, lines 69-107

    The value of a decimal field depends on the rounding mode of the calling thread, and
    a conversion that is inexact raises a flag, which a caller may have made a trap. The
    parser therefore converts under [ScopedRoundToNearest], which holds the caller's
    environment, selects round-to-nearest and puts the environment back. Here the
    environment is the state, any of the four [<cfenv>] calls may report failure, and
    reading a decimal depends on the rounding mode. *)

From Stdlib Require Import ZArith Lia Ascii String.
From Corelib Require Import SpecFloat.
From S2P Require Import Prelude Effects Floats Clock Types Decimal XmlConfig.
Import Fp.

Module Rounding.

(** ** Reading a decimal in a rounding mode *)

Inductive mode := ToNearest | Upward | Downward | TowardZero.

#[global] Instance mode_eq_dec : EqDecision mode.
Proof. solve_decision. Defined.

(** The magnitude is rounded away from zero when it is not exact. *)
Definition away (m : mode) (negative : bool) : bool :=
  match m with Upward => negb negative | Downward => negative | _ => false end.

(** The integer significand chosen for [mx] followed by the discarded digits [lx]. *)
Definition choose (m : mode) (sx : bool) (mx : Z) (lx : location) : Z :=
  match m with
  | ToNearest => round_nearest_even mx lx
  | _ => match lx with loc_Exact => mx | _ => if away m sx then mx + 1 else mx end
  end.

(** What a magnitude beyond the largest finite one becomes. *)
Definition overflow (m : mode) (sx : bool) : double :=
  if bool_decide (m = ToNearest) || away m sx then S754_infinity sx
  else S754_finite sx (2 ^ 53 - 1) 971.

Definition round_aux (m : mode) (sx : bool) (mx ex : Z) (lx : location) : double :=
  let '(mrs', e') := shr_fexp 53 1024 mx ex lx in
  let '(mrs'', e'') :=
    shr_fexp 53 1024 (choose m sx (shr_m mrs') (loc_of_shr_record mrs')) e' loc_Exact in
  match shr_m mrs'' with
  | Z0 => S754_zero sx
  | Zpos p => if e'' <=? 1024 - 53 then S754_finite sx p e'' else overflow m sx
  | Zneg _ => S754_nan
  end.

Definition literal_value_in (m : mode) (l : Decimal.literal) : double :=
  match Decimal.significand l with
  | Zpos p =>
    if 0 <=? Decimal.exponent10 l then
      let mx := (p * Z.to_pos (10 ^ Decimal.exponent10 l))%positive in
      let '(mz, ez) := shl_align mx 0 (fexp 53 1024 (Zpos (digits2_pos mx) + 0)) in
      round_aux m (Decimal.negative l) (Zpos mz) ez loc_Exact
    else
      let '(q, e, loc) :=
        SFdiv_core_binary 53 1024 (Zpos p) 0 (10 ^ (- Decimal.exponent10 l)) 0 in
      round_aux m (Decimal.negative l) q e loc
  | _ => S754_zero (Decimal.negative l)
  end.

Definition extract_double_in (m : mode) (s : list ascii) : option double :=
  l ← Decimal.read_literal s;
  let v := literal_value_in m l in
  if isfinite v then Some v else None.

(** In round-to-nearest this is the conversion the rest of the development uses. *)
Lemma extract_double_nearest s : extract_double_in ToNearest s = Decimal.extract_double s.
Proof. reflexivity. Qed.

(** In the other modes it is not: a tenth is read as another [double], and a literal
    beyond the range as the largest finite number. *)
Example modes_differ :
  (λ m, bool_decide (extract_double_in m (list_ascii_of_string "0.1") =
                     Decimal.extract_double (list_ascii_of_string "0.1"))) <$>
    [ToNearest; Upward; Downward; TowardZero] = [true; true; false; false] ∧
  (λ m, bool_decide (extract_double_in m (list_ascii_of_string "1e999") = None)) <$>
    [ToNearest; Upward; Downward; TowardZero] = [true; true; false; false].
Proof. by vm_compute. Qed.

(** ** The environment *)

(** The thread's floating-point environment: rounding mode, raised exceptions and the
    exceptions that trap, the latter two as bit masks. *)
Record fenv := { rounding : mode; raised : Z; traps : Z }.

#[global] Instance fenv_eta : Eta fenv := λ r,
  {| rounding := rounding r; raised := raised r; traps := traps r |}.

(** Source: core/src/detail/xml_config.cpp:69-107, [ScopedRoundToNearest], its members;
    [env] is the thread's environment. *)
Record World := { env : fenv; environment_ : fenv; active_ : bool }.

#[global] Instance World_eta : Eta World := λ r,
  {| env := env r; environment_ := environment_ r; active_ := active_ r |}.

(** The library calls that can fail; a guard makes each at most once. *)
Inductive call := Feholdexcept | Fegetround | Fesetround | Fesetenv.

#[global] Instance call_eq_dec : EqDecision call.
Proof. solve_decision. Defined.

(** The process ends: no result, and no state after it. *)
Definition terminate {A} : M World A := λ _, None.

Section environment.
(** Which exceptions converting a literal raises. *)
Variable raises : mode → list ascii → Z.

(** [input >> std::noskipws >> result]: an exception that traps ends the process. *)
Definition read_double (s : list ascii) : M World (option double) := λ w,
  let m := rounding (env w) in
  if bool_decide (Z.land (raises m s) (traps (env w)) ≠ 0) then terminate w
  else Some (Ok (extract_double_in m s),
             w <| env ::= λ e, e <| raised ::= Z.lor (raises m s) |> |>).

(** Which of the calls of one guard report failure. *)
Variable fails : call → bool.

Definition feholdexcept : M World bool := λ w,
  if fails Feholdexcept then Some (Ok false, w)
  else Some (Ok true, w <| environment_ := env w |>
                        <| env ::= λ e, e <| raised := 0 |> <| traps := 0 |> |>).

(** [None] is the reply -1. *)
Definition fegetround : M World (option mode) := λ w,
  Some (Ok (if fails Fegetround then None else Some (rounding (env w))), w).

Definition fesetround (m : mode) : M World bool := λ w,
  if fails Fesetround then Some (Ok false, w)
  else Some (Ok true, w <| env ::= λ e, e <| rounding := m |> |>).

Definition fesetenv : M World bool := λ w,
  if fails Fesetenv then Some (Ok false, w) else Some (Ok true, w <| env := environment_ w |>).

(** Source: core/src/detail/xml_config.cpp:98-103,
    [ScopedRoundToNearest::restore_environment_or_terminate]. *)
Definition restore_environment_or_terminate : M World () :=
  _ ← modify (λ w, w <| active_ := false |>);
  ok ← fesetenv;
  if (ok : bool) then mret () else terminate.

(** Source: core/src/detail/xml_config.cpp:71-86,
    [ScopedRoundToNearest::ScopedRoundToNearest]. *)
Definition ScopedRoundToNearest : M World () :=
  _ ← modify (λ w, w <| active_ := false |>);
  held ← feholdexcept;
  if negb held then m_throw DiscoveryError "failed to hold the floating-point environment"
  else
    _ ← modify (λ w, w <| active_ := true |>);
    rounding_mode ← fegetround;
    match rounding_mode with
    | None =>
      _ ← restore_environment_or_terminate;
      m_throw DiscoveryError "failed to inspect the floating-point rounding mode"
    | Some rounding_mode =>
      selected ← (if bool_decide (rounding_mode ≠ ToNearest) then fesetround ToNearest
                  else mret true);
      if negb selected then
        _ ← restore_environment_or_terminate;
        m_throw DiscoveryError "failed to select round-to-nearest floating-point parsing"
      else mret ()
    end.

(** Source: core/src/detail/xml_config.cpp:88-92,
    [ScopedRoundToNearest::~ScopedRoundToNearest]. *)
Definition destroy_guard : M World () :=
  w ← get;
  if active_ w then restore_environment_or_terminate else mret ().

(** The destructor runs on every way out of the body. *)
Definition finally {A} (body : M World A) (destructor : M World ()) : M World A := λ w,
  match body w with
  | Some (r, w1) =>
    match destructor w1 with
    | Some (_, w2) => Some (r, w2)
    | None => None
    end
  | None => None
  end.

(** A block whose first declaration is a guard: no destructor runs when the constructor
    threw. *)
Definition guarded {A} (body : M World A) : M World A :=
  _ ← ScopedRoundToNearest; finally body destroy_guard.

(** The body of [parse_positive_count] after its guard. *)
Definition count_body (value : list ascii) (tag : string) : M World double :=
  let failure := m_throw DiscoveryError
    ("sensor configuration field '" +:+ tag +:+ "' must be a finite positive number") in
  extracted ← read_double value;
  if bool_decide (value = []) || bool_decide (head value = Some "+"%char) then failure
  else match extracted with
  | None => failure
  | Some result =>
    if negb (isfinite result) || d_le result (d_of_Z 0) then failure else mret result
  end.

(** Source: core/src/detail/xml_config.cpp:233-245, [parse_positive_count], with its
    guard. *)
Definition parse_positive_count (value : list ascii) (tag : string) : M World double :=
  guarded (count_body value tag).
End environment.

Section configuration.
Variable raises : mode → list ascii → Z.
(** Which calls of the [i]th guard fail. *)
Variable fails : nat → call → bool.

(** Source: core/src/detail/xml_config.cpp:278-294, [parse_sensor_configuration], in the
    caller's environment. *)
Definition parse_sensor_configuration (xml : list ascii) : M World SensorConfiguration :=
  fields ← lift (XmlConfig.extract_required_fields xml);
  cpf ← parse_positive_count raises (fails 0) (default [] (fields !! 1%nat)) "cfgcpf";
  cpt ← parse_positive_count raises (fails 1) (default [] (fields !! 2%nat)) "cfgcpt";
  lift (
    fu ← XmlConfig.parse_force_unit (XmlConfig.field_text fields 3);
    tu ← XmlConfig.parse_torque_unit (XmlConfig.field_text fields 4);
    let calibration := {| Calibration.counts_per_force_unit := cpf;
                          Calibration.counts_per_torque_unit := cpt;
                          Calibration.force_unit := fu; Calibration.torque_unit := tu |} in
    _ ← catch (λ k, bool_decide (k = invalid_argument))
          (Types.validate_calibration calibration)
          (λ e, throw DiscoveryError (what e));
    Ok {| SensorConfiguration.product_name := XmlConfig.field_text fields 0;
          SensorConfiguration.calibration := calibration;
          SensorConfiguration.source := CalibrationSource.Sensor;
          SensorConfiguration.revision := 1 |}).
End configuration.

(** ** The guard *)

(** The outcome of a guarded block, call by call: what the block is run in when the guard
    holds, and what the caller gets. *)
Definition held (w : World) : World :=
  {| env := {| rounding := ToNearest; raised := 0; traps := 0 |};
     environment_ := env w; active_ := true |}.
Definition restored (w : World) : World :=
  {| env := env w; environment_ := env w; active_ := false |}.

(** The constructor establishes the held environment, or throws with the caller's
    environment in place, or ends the process because that could not be put back. *)
Lemma constructor_spec fails w :
  ScopedRoundToNearest fails w =
  if fails Feholdexcept then
    Some (throw DiscoveryError "failed to hold the floating-point environment",
          w <| active_ := false |>)
  else if fails Fegetround then
    if fails Fesetenv then None
    else Some (throw DiscoveryError "failed to inspect the floating-point rounding mode", restored w)
  else if bool_decide (rounding (env w) ≠ ToNearest) && fails Fesetround then
    if fails Fesetenv then None
    else Some (throw DiscoveryError "failed to select round-to-nearest floating-point parsing",
               restored w)
  else Some (Ok (), held w).
Proof.
  unfold ScopedRoundToNearest, feholdexcept, fegetround, fesetround,
    restore_environment_or_terminate, fesetenv, held, restored.
  destruct w as [[m f t] e a].
  destruct (fails Feholdexcept), (fails Fegetround), (fails Fesetround), (fails Fesetenv), m;
    reflexivity.
Qed.

(** A block that leaves the saved environment alone, as any code but the guard's does,
    runs in the held environment, and its caller gets the environment back. *)
Lemma guarded_spec {A} fails (body : M World A) w r w1 :
  body (held w) = Some (r, w1) → environment_ w1 = env w → active_ w1 = true →
  match guarded fails body w with
  | None => fails Fesetenv = true
  | Some (r', w') =>
    env w' = env w ∧ (r' = r ∨ ∃ c msg, fails c = true ∧ r' = throw DiscoveryError msg)
  end.
Proof.
  intros Hb He Ha. unfold guarded, finally. unfold mbind, M_bind. rewrite constructor_spec.
  destruct (fails Feholdexcept) eqn:E1; [by split; [|right; exists Feholdexcept; eauto]|].
  destruct (fails Fegetround) eqn:E2.
  { destruct (fails Fesetenv) eqn:?; [done|].
    split; [done|right; exists Fegetround; eauto]. }
  destruct (bool_decide _ && fails Fesetround) eqn:E3.
  { apply andb_prop in E3 as [_ E3]. destruct (fails Fesetenv) eqn:?; [done|].
    split; [done|right; exists Fesetround; eauto]. }
  rewrite Hb. unfold destroy_guard, get. unfold mbind, M_bind. rewrite Ha.
  unfold restore_environment_or_terminate, fesetenv, modify. unfold mbind, M_bind.
  destruct (fails Fesetenv); [done|]. split; [exact He|by left].
Qed.

(** In the held environment nothing traps and the body computes the pure result. *)
Lemma count_body_held raises value tag w :
  count_body raises value tag (held w) =
  Some (XmlConfig.parse_positive_count value tag,
        (held w) <| env ::= λ e, e <| raised := raises ToNearest value |> |>).
Proof.
  unfold count_body, XmlConfig.parse_positive_count, read_double. unfold mbind, M_bind.
  cbn [held env rounding traps]. rewrite Z.land_0_r, extract_double_nearest.
  rewrite bool_decide_eq_false_2 by (intros H; by apply H).
  replace ((held w) <| env ::= λ e, e <| raised ::= Z.lor (raises ToNearest value) |> |>)
    with ((held w) <| env ::= λ e, e <| raised := raises ToNearest value |> |>)
    by (unfold held; cbn; do 2 f_equal; symmetry; apply Z.lor_0_r).
  repeat case_match; done.
Qed.

Lemma parse_positive_count_guarded raises fails value tag w :
  match parse_positive_count raises fails value tag w with
  | None => fails Fesetenv = true
  | Some (r, w') =>
    env w' = env w ∧ (r = XmlConfig.parse_positive_count value tag ∨
                      ∃ c msg, fails c = true ∧ r = throw DiscoveryError msg)
  end.
Proof. by eapply guarded_spec; [apply count_body_held|..]. Qed.

(** C28: configurations do not depend on the caller's floating-point environment.
    Whatever rounding mode, raised flags and traps the caller has, parsing leaves that
    environment exactly as it was on every way out, and its result is that of the pure
    parser (which rounds to nearest), unless a [<cfenv>] call reports failure: then it is
    a [DiscoveryError], or, only when the environment cannot be put back, the end of the
    process. *)
Theorem parse_in_any_environment raises fails xml w :
  match parse_sensor_configuration raises fails xml w with
  | None => ∃ i, fails i Fesetenv = true
  | Some (r, w') =>
    env w' = env w ∧ (r = XmlConfig.parse_sensor_configuration xml ∨
                      ∃ i c msg, fails i c = true ∧ r = throw DiscoveryError msg)
  end.
Proof.
  unfold parse_sensor_configuration, XmlConfig.parse_sensor_configuration.
  unfold mbind, M_bind, lift at 1.
  destruct (XmlConfig.extract_required_fields xml) as [fields|e|]; cbn [Res_bind mbind];
    [|by split; [|left]..].
  pose proof (parse_positive_count_guarded raises (fails 0%nat) (default [] (fields !! 1%nat))
    "cfgcpf" w) as H1.
  destruct (parse_positive_count raises (fails 0%nat) _ _ w) as [[r1 w1]|]; [|eauto].
  destruct H1 as [He1 [->|(c & msg & Hc & ->)]].
  2: { split; [done|right; eauto 6]. }
  destruct (XmlConfig.parse_positive_count _ "cfgcpf") as [cpf|e|]; cbn [Res_bind mbind];
    [|by split; [|left]..].
  pose proof (parse_positive_count_guarded raises (fails 1%nat) (default [] (fields !! 2%nat))
    "cfgcpt" w1) as H2.
  destruct (parse_positive_count raises (fails 1%nat) _ _ w1) as [[r2 w2]|]; [|eauto].
  destruct H2 as [He2 [->|(c & msg & Hc & ->)]]; rewrite He1 in He2.
  2: { split; [done|right; eauto 6]. }
  destruct (XmlConfig.parse_positive_count _ "cfgcpt") as [cpt|e|]; by split; [|left].
Qed.

(** The guard is needed: without it a caller that rounds down would get another
    calibration. *)
Example unguarded_differs :
  let down := {| rounding := Downward; raised := 5; traps := 0 |} in
  let w := {| env := down; environment_ := down; active_ := false |} in
  let inexact := λ _ _, 32 in
  let value := list_ascii_of_string "0.1" in
  let pure := XmlConfig.parse_positive_count value "cfgcpf" in
  (∃ v w', count_body inexact value "cfgcpf" w = Some (Ok v, w') ∧ Ok v ≠ pure ∧
     raised (env w') = 37) ∧
  (∃ w', parse_positive_count inexact (λ _, false) value "cfgcpf" w = Some (pure, w') ∧
     env w' = down).
Proof.
  split.
  - eexists _, _. split; [by vm_compute|]. split; [by vm_compute|by vm_compute].
  - eexists. split; by vm_compute.
Qed.

(** A trapping caller: unguarded, the conversion ends the process. *)
Example trapping_caller :
  let trapping := {| rounding := ToNearest; raised := 0; traps := 32 |} in
  let w := {| env := trapping; environment_ := trapping; active_ := false |} in
  let inexact := λ _ _, 32 in
  let value := list_ascii_of_string "0.1" in
  count_body inexact value "cfgcpf" w = None ∧
  is_Some (parse_positive_count inexact (λ _, false) value "cfgcpf" w) ∧
  parse_positive_count inexact (λ c, bool_decide (c = Fesetenv)) value "cfgcpf" w = None.
Proof. split_and!; [by vm_compute|by eexists; vm_compute|by vm_compute]. Qed.

End Rounding.
