(* ===== verification/Discovery.v ===== *)
(** * HTTP discovery: core/include/netft/discovery.hpp, core/src/discovery.cpp

    libcurl is a parameter: [CurlEnv] records what its calls return and the body
    chunks it hands to the write callback. Everything the code itself decides
    (option checks, the bounded response buffer, the host quoting, the order of
    the error checks) is defined here. Every call the code makes to libcurl is
    written to a log, which is part of the result: what is asked of the network,
    how often, and when handles are released are statements about that log. *)

From Stdlib Require Import ZArith Lia Ascii String.
From Corelib Require Import SpecFloat.
From S2P Require Import Prelude Floats Clock Types Decimal XmlConfig.
Import Fp Clock.

Module Discovery.

(** Source: core/include/netft/discovery.hpp:12-17, [DiscoveryOptions]. *)
Record DiscoveryOptions := {
  sensor_host : string;
  http_port : Z;
  connect_timeout : double;
  total_timeout : double
}.

(** Source: core/src/discovery.cpp:27-27, [kMaximumResponseBytes]. *)
Definition kMaximumResponseBytes : Z := 65536.

(** Source: core/src/discovery.cpp:32-32, [kAtiConfigurationProtocol]. *)
Definition kAtiConfigurationProtocol : string := "http".

(** Source: core/src/discovery.cpp:46-50, [ResponseBuffer]. *)
Record ResponseBuffer := { body : list ascii; too_large : bool; write_failed : bool }.

#[global] Instance ResponseBuffer_eta : Eta ResponseBuffer := λ r,
  {| body := body r; too_large := too_large r; write_failed := write_failed r |}.

Definition empty_response : ResponseBuffer :=
  {| body := []; too_large := false; write_failed := false |}.

(** ** libcurl *)

Inductive URLPart := CURLUPART_SCHEME | CURLUPART_HOST | CURLUPART_PORT | CURLUPART_PATH.

Inductive CURLoption :=
  | CURLOPT_CURLU | CURLOPT_PROTOCOLS | CURLOPT_PROTOCOLS_STR | CURLOPT_FOLLOWLOCATION
  | CURLOPT_MAXREDIRS | CURLOPT_NOSIGNAL | CURLOPT_PROXY | CURLOPT_CONNECTTIMEOUT_MS
  | CURLOPT_TIMEOUT_MS | CURLOPT_WRITEFUNCTION | CURLOPT_WRITEDATA.

(** The URL under construction and the options of the easy handle, in the order
    they are set. *)
Definition CURLU := list (URLPart * string).

Inductive CURLvalue :=
  | Vlong (value : Z)
  | Vstring (value : string)
  | Vurl (url : CURLU)
  | Vappend_response
  | Vresponse.

Definition CURL := list (CURLoption * CURLvalue).

(** One call of the write callback: [count] items of [size] bytes; [alloc_ok] says
    whether growing the body succeeds. *)
Record Chunk := { size : Z; count : Z; data : list ascii; alloc_ok : bool }.

(** libcurl's side of a request. [has_protocols_str] is the version test of
    lines 157-161. A transfer depends on the configured handle. Codes: 0 is
    [CURLE_OK], 23 is [CURLE_WRITE_ERROR]; [CURLPROTO_HTTP] is 1. *)
Record CurlEnv := {
  has_protocols_str : bool;
  global_init : Z;
  easy_init_ok : bool;
  url_ok : bool;
  url_set_ok : URLPart → string → bool;
  setopt_ok : CURLoption → CURLvalue → bool;
  chunks : CURL → list Chunk;
  perform_result : CURL → Z;
  strerror : Z → string;
  response_code : CURL → option Z
}.

(** A call of the code to libcurl. *)
Inductive CurlCall :=
  | GlobalInit
  | EasyInit (ok : bool)
  | UrlNew (ok : bool)
  | UrlSet (part : URLPart) (value : string)
  | SetOpt (option : CURLoption) (value : CURLvalue)
  | Perform (handle : CURL)
  | GetInfo
  | UrlCleanup
  | EasyCleanup.

(** A computation that calls libcurl: the calls in order, and the outcome. *)
Definition Logged (A : Type) : Type := list CurlCall * Res A.

#[export] Instance Logged_bind : MBind Logged := λ A B f m,
  match m.2 with
  | Ok a => (m.1 ++ (f a).1, (f a).2)
  | Throw e => (m.1, Throw e)
  | UB => (m.1, UB)
  end.

(** A call and what the code makes of its answer. *)
Definition call {A} (c : CurlCall) (r : Res A) : Logged A := ([c], r).

(** A computation without calls. *)
Definition quiet {A} (r : Res A) : Logged A := ([], r).

Lemma logged_result {A B} (m : Logged A) (f : A → Logged B) :
  (m ≫= f).2 = (a ← m.2; (f a).2).
Proof. destruct m as [l [a|e|]]; done. Qed.

Lemma logged_Ok_inv {A B} (m : Logged A) (f : A → Logged B) b :
  (m ≫= f).2 = Ok b →
  ∃ a, m.2 = Ok a ∧ (f a).2 = Ok b ∧ (m ≫= f).1 = m.1 ++ (f a).1.
Proof. destruct m as [l [a|e|]]; try done. intros H. by exists a. Qed.

Section discovery.
Context `{P : Platform}.

(** Source: core/src/discovery.cpp:52-60, [is_ascii_blank]. *)
Definition is_ascii_blank (value : string) : bool :=
  if String.eqb value "" then true
  else forallb XmlConfig.is_ascii_whitespace (list_ascii_of_string value).

(** Source: core/src/discovery.cpp:62-74, [timeout_milliseconds]. *)
Definition timeout_milliseconds (timeout : double) (name : string) : Res Z :=
  if negb (isfinite timeout) || d_le timeout (d_of_Z 0)
  then throw DiscoveryError (name +:+ " must be finite, positive, and representable")
  else
    let rounded_milliseconds :=
      sf_ceil (ld_prec long_double) (ld_emax long_double)
        (l_mul long_double (l_of_double long_double timeout) (l_of_Z long_double 1000)) in
    if negb (isfinite rounded_milliseconds)
       || SFltb (l_of_Z long_double long_max) rounded_milliseconds
    then throw DiscoveryError (name +:+ " must be finite, positive, and representable")
    else sf_to_i long_bits rounded_milliseconds.

(** Source: core/src/discovery.cpp:76-85, [validate_options]. *)
Definition validate_options (options : DiscoveryOptions) : Res () :=
  if is_ascii_blank (sensor_host options)
  then throw DiscoveryError "sensor_host must not be blank"
  else if (http_port options <? 1) || (65535 <? http_port options)
  then throw DiscoveryError "http_port must be in the range 1..65535"
  else
    _ ← timeout_milliseconds (connect_timeout options) "connect_timeout";
    _ ← timeout_milliseconds (total_timeout options) "total_timeout";
    Ok ().

(** Source: core/src/discovery.cpp:34-38, [CurlHandleDeleter]: the handle lives
    until the scope is left, on every path. *)
Definition with_handle {A} (scope : Logged A) : Logged A :=
  (scope.1 ++ [EasyCleanup], scope.2).

(** Source: core/src/discovery.cpp:40-44, [CurlUrlDeleter]. *)
Definition with_url {A} (scope : Logged A) : Logged A :=
  (scope.1 ++ [UrlCleanup], scope.2).

(** Source: core/src/discovery.cpp:87-93, [initialize_curl_once]. [once] is the
    function's static state: [None] until the first call has run. *)
Definition initialize_curl_once (env : CurlEnv) (once : option Z) : option Z * Logged Z :=
  match once with
  | Some result => (Some result, quiet (Ok result))
  | None => (Some (global_init env), call GlobalInit (Ok (global_init env)))
  end.

(** Source: core/src/discovery.cpp:95-99, [set_curl_option]. *)
Definition set_curl_option (env : CurlEnv) (handle : CURL) (option : CURLoption)
    (value : CURLvalue) : Logged CURL :=
  call (SetOpt option value)
    (if setopt_ok env option value then Ok (handle ++ [(option, value)])
     else throw DiscoveryError "failed to configure sensor discovery request").

(** Source: core/src/discovery.cpp:101-105, [set_url_part]. *)
Definition set_url_part (env : CurlEnv) (url : CURLU) (part : URLPart) (value : string)
    : Logged CURLU :=
  call (UrlSet part value)
    (if url_set_ok env part value then Ok (url ++ [(part, value)])
     else throw DiscoveryError "invalid sensor discovery URL").

(** [std::numeric_limits<std::size_t>::max()]. *)
Definition size_max : Z := 2 ^ 64 - 1.

(** Source: core/src/discovery.cpp:107-126, [append_response]. The subtraction is
    unsigned. *)
Definition append_response (chunk : Chunk) (response : ResponseBuffer) : ResponseBuffer * Z :=
  if negb (size chunk =? 0) && (size_max / size chunk <? count chunk)
  then (response <| too_large := true |>, 0)
  else
    let byte_count := wrap_u 64 (size chunk * count chunk) in
    if wrap_u 64 (kMaximumResponseBytes - Z.of_nat (length (body response))) <? byte_count
    then (response <| too_large := true |>, 0)
    else if alloc_ok chunk
    then (response <| body ::= λ b, b ++ take (Z.to_nat byte_count) (data chunk) |>, byte_count)
    else (response <| write_failed := true |>, 0).

(** [curl_easy_perform]: chunks go to the callback until it reports fewer bytes
    than it was given, which aborts the transfer with [CURLE_WRITE_ERROR]. *)
Fixpoint curl_transfer (chunks : list Chunk) (result : Z) (response : ResponseBuffer)
    : ResponseBuffer * Z :=
  match chunks with
  | [] => (response, result)
  | chunk :: rest =>
    let '(response, written) := append_response chunk response in
    if written =? size chunk * count chunk then curl_transfer rest result response
    else (response, 23)
  end.

(** Source: core/src/discovery.cpp:145-149, [discover_sensor]: IPv6 literals are
    bracketed in the URL. *)
Definition url_host (host : string) : string :=
  let v := list_ascii_of_string host in
  if bool_decide (":"%char ∈ v)
     && ((length v <? 2)%nat || negb (bool_decide (head v = Some "["%char))
         || negb (bool_decide (last v = Some "]"%char)))
  then "[" +:+ host +:+ "]" else host.

(** Source: core/src/discovery.cpp:150-154, [discover_sensor]: the URL. *)
Definition build_url (env : CurlEnv) (options : DiscoveryOptions) : Logged CURLU :=
  let host := url_host (sensor_host options) in
  let port := pretty (http_port options) in
  url ← set_url_part env [] CURLUPART_SCHEME kAtiConfigurationProtocol;
  url ← set_url_part env url CURLUPART_HOST (c_str host);
  url ← set_url_part env url CURLUPART_PORT (c_str port);
  set_url_part env url CURLUPART_PATH "/netftapi2.xml".

(** Source: core/src/discovery.cpp:156-171, [discover_sensor]: the request. *)
Definition build_request (env : CurlEnv) (options : DiscoveryOptions) (url : CURLU)
    : Logged CURL :=
  handle ← set_curl_option env [] CURLOPT_CURLU (Vurl url);
  handle ← (if has_protocols_str env
            then set_curl_option env handle CURLOPT_PROTOCOLS_STR
                   (Vstring kAtiConfigurationProtocol)
            else set_curl_option env handle CURLOPT_PROTOCOLS (Vlong 1));
  handle ← set_curl_option env handle CURLOPT_FOLLOWLOCATION (Vlong 0);
  handle ← set_curl_option env handle CURLOPT_MAXREDIRS (Vlong 0);
  handle ← set_curl_option env handle CURLOPT_NOSIGNAL (Vlong 1);
  handle ← set_curl_option env handle CURLOPT_PROXY (Vstring "");
  connect ← quiet (timeout_milliseconds (connect_timeout options) "connect_timeout");
  handle ← set_curl_option env handle CURLOPT_CONNECTTIMEOUT_MS (Vlong connect);
  total ← quiet (timeout_milliseconds (total_timeout options) "total_timeout");
  handle ← set_curl_option env handle CURLOPT_TIMEOUT_MS (Vlong total);
  handle ← set_curl_option env handle CURLOPT_WRITEFUNCTION Vappend_response;
  set_curl_option env handle CURLOPT_WRITEDATA Vresponse.

(** Source: core/src/discovery.cpp:173-173, [discover_sensor]: [curl_easy_perform],
    which fills the response. *)
Definition perform (env : CurlEnv) (handle : CURL) : Logged (ResponseBuffer * Z) :=
  call (Perform handle)
    (Ok (curl_transfer (chunks env handle) (perform_result env handle) empty_response)).

(** Source: core/src/discovery.cpp:186-194, [discover_sensor]: the status of the
    response. *)
Definition check_status (env : CurlEnv) (handle : CURL) (response : ResponseBuffer)
    : Logged SensorConfiguration :=
  status ← call GetInfo
    (match response_code env handle with
     | None => throw DiscoveryError "failed to inspect sensor configuration response"
     | Some status => Ok status
     end);
  quiet (if negb (status =? 200)
         then throw DiscoveryError
                ("sensor configuration request returned HTTP " +:+ pretty status)
         else XmlConfig.parse_sensor_configuration (body response)).

(** Source: core/src/discovery.cpp:173-194, [discover_sensor]: the transfer and the
    checks of its result, in their order. *)
Definition perform_request (env : CurlEnv) (handle : CURL) : Logged SensorConfiguration :=
  '(response, transfer_result) ← perform env handle;
  if too_large response
  then quiet (throw DiscoveryError "sensor configuration response exceeds 65536 bytes")
  else if write_failed response
  then quiet (throw DiscoveryError "failed to store sensor configuration response")
  else if negb (transfer_result =? 0)
  then quiet (throw DiscoveryError
         ("sensor configuration request failed: " +:+ strerror env transfer_result))
  else check_status env handle response.

(** Source: core/src/discovery.cpp:136-195, [discover_sensor]: the scope of the easy
    handle, and within it that of the URL. *)
Definition request_configuration (env : CurlEnv) (options : DiscoveryOptions)
    : Logged SensorConfiguration :=
  _ ← call (EasyInit (easy_init_ok env))
        (if easy_init_ok env then Ok ()
         else throw DiscoveryError "failed to create HTTP transport");
  with_handle (
    _ ← call (UrlNew (url_ok env))
          (if url_ok env then Ok ()
           else throw DiscoveryError "failed to create sensor discovery URL");
    with_url (
      url ← build_url env options;
      handle ← build_request env options url;
      perform_request env handle)).

(** Source: core/src/discovery.cpp:130-195, [discover_sensor]. The result carries
    the static state of [initialize_curl_once] and the calls made to libcurl. *)
Definition discover_calls (env : CurlEnv) (once : option Z) (options : DiscoveryOptions)
    : option Z * Logged SensorConfiguration :=
  match validate_options options with
  | Throw e => (once, quiet (Throw e))
  | UB => (once, quiet UB)
  | Ok _ =>
    let '(once, initialized) := initialize_curl_once env once in
    (once,
     init ← initialized;
     if negb (init =? 0)
     then quiet (throw DiscoveryError "failed to initialize HTTP transport")
     else request_configuration env options)
  end.

(** Source: core/src/discovery.cpp:130-195, [discover_sensor]: what the caller sees
    of it. *)
Definition discover_sensor (env : CurlEnv) (once : option Z) (options : DiscoveryOptions)
    : option Z * Res SensorConfiguration :=
  let '(once, calls) := discover_calls env once options in (once, calls.2).

(** ** The response buffer *)

(** A chunk as libcurl documents it: the callback's data has [size * count] bytes
    and the arguments are [size_t] values. *)
Definition chunk_wf (c : Chunk) : Prop :=
  is_u 64 (size c) ∧ is_u 64 (count c) ∧ size c * count c = Z.of_nat (length (data c)).

Definition bounded (r : ResponseBuffer) : Prop :=
  Z.of_nat (length (body r)) ≤ kMaximumResponseBytes.

(** The callback on a well-formed chunk: it appends all of it, or refuses it. *)
Lemma append_response_spec c r :
  chunk_wf c → bounded r → Z.of_nat (length (data c)) < 2 ^ 64 →
  let '(r', n) := append_response c r in
  bounded r' ∧
  ((n = size c * count c ∧ body r' = body r ++ data c ∧
    too_large r' = too_large r ∧ write_failed r' = write_failed r) ∨
   (n = 0 ∧ body r' = body r ∧ (too_large r' = true ∨ write_failed r' = true))).
Proof.
  intros (Hs & Hc & Hd) Hb Hl. unfold append_response, bounded, is_u, kMaximumResponseBytes in *.
  destruct (negb (size c =? 0) && (size_max / size c <? count c)); [simpl; auto 6|].
  rewrite (wrap_u_small 64 (size c * count c)) by (unfold is_u; lia).
  rewrite wrap_u_small by (unfold is_u; lia).
  destruct (Z.ltb_spec (65536 - Z.of_nat (length (body r))) (size c * count c)) as [E2|E2];
    [simpl; auto 6|].
  destruct (alloc_ok c); simpl; [|auto 6].
  rewrite Hd, Nat2Z.id, firstn_all. rewrite length_app. split; [lia|]. left. done.
Qed.

(** A transfer from any bounded buffer appends everything it received. *)
Lemma curl_transfer_content cs result r0 :
  Forall (λ c, chunk_wf c ∧ Z.of_nat (length (data c)) < 2 ^ 64) cs → bounded r0 →
  let '(r, code) := curl_transfer cs result r0 in
  bounded r ∧
  (too_large r = false → write_failed r = false → code = 0 →
   body r = body r0 ++ concat (data <$> cs)).
Proof.
  intros Hcs. revert r0.
  induction Hcs as [|c cs [Hc Hl] _ IH]; intros r0 Hr0; cbn [curl_transfer].
  { split; [done|]. intros. by rewrite app_nil_r. }
  pose proof (append_response_spec c r0 Hc Hr0 Hl) as Ha.
  destruct (append_response c r0) as [r1 n]. destruct Ha as [Hb Ha].
  destruct (Z.eqb_spec n (size c * count c)) as [Hn|Hn].
  - specialize (IH r1 Hb). destruct (curl_transfer cs result r1) as [r code].
    destruct IH as [IH1 IH2]. split; [done|]. intros Ht Hw H0. rewrite IH2 by done.
    cbn [fmap list_fmap concat].
    destruct Ha as [(_ & -> & _)|(-> & -> & Hf)]; [by rewrite <-app_assoc|].
    destruct Hc as (_ & _ & Hd). rewrite <-Hn in Hd. by destruct (data c).
  - split; [done|]. intros. naive_solver.
Qed.

(** The configuration response is bounded and complete. Whatever chunks the
    server sends, the buffer never holds more than 65536 bytes; and when the
    transfer ends without a flag and with [CURLE_OK], the buffer is exactly the
    concatenation of everything received. *)
Theorem curl_transfer_bounded cs result :
  Forall (λ c, chunk_wf c ∧ Z.of_nat (length (data c)) < 2 ^ 64) cs →
  let '(r, code) := curl_transfer cs result empty_response in
  bounded r ∧
  (too_large r = false → write_failed r = false → code = 0 →
   body r = concat (data <$> cs)).
Proof. intros Hcs. by apply (curl_transfer_content cs result empty_response). Qed.

(** ** Timeouts *)

Abbreviation outcome := XmlConfig.ok_or_discovery_error.

Lemma long_max_range : 0 ≤ long_max < 2 ^ (long_bits - 1).
Proof. unfold long_max, long_bits. case_match; lia. Qed.

(** [std::ceil(static_cast<long double>(timeout) * 1000.0L)]. *)
Definition ceil_milliseconds (timeout : double) : spec_float :=
  sf_ceil (ld_prec long_double) (ld_emax long_double)
    (l_mul long_double (l_of_double long_double timeout) (l_of_Z long_double 1000)).

Lemma ceil_milliseconds_nonneg timeout :
  isfinite timeout = true → d_le timeout (d_of_Z 0) = false →
  isfinite (ceil_milliseconds timeout) = true →
  SFltb (ceil_milliseconds timeout) (l_of_Z long_double 0) = false.
Proof.
  intros Hf Hp Hc. destruct timeout as [| | |[] m e]; try done.
  destruct ld_format_ok.
  assert (Hl : sf_nonneg (l_of_double long_double (S754_finite false m e)) = true)
    by (by apply binary_normalize_nonneg).
  enough (sf_nonneg (ceil_milliseconds (S754_finite false m e)) = true) as Hn.
  { destruct (ceil_milliseconds _) as [| | |[]]; try done; by destruct long_double. }
  apply sf_ceil_nonneg; [done..|].
  destruct (isfinite (l_of_double long_double (S754_finite false m e))) eqn:E.
  - apply SFmul_nonneg; [done..|by destruct long_double|done|by destruct long_double].
  - unfold ceil_milliseconds in Hc.
    destruct (l_of_double _ _) as [| [] | |]; try done; by destruct long_double.
Qed.

(** A comparison that is neither below nor above is an equality of canonical
    positive floats. *)
Lemma SFcompare_pos_eq m e x :
  SFltb (S754_finite false m e) x = false → SFleb (S754_finite false m e) x = true →
  x = S754_finite false m e.
Proof.
  unfold SFltb, SFleb. destruct x as [|[]| |[] m' e']; try done. simpl.
  destruct (Z.compare_spec e e'); try done. subst.
  change (Pos.compare_cont Eq m m') with (Pos.compare m m').
  destruct (Pos.compare_spec m m'); [by subst|done|done].
Qed.

(** The range check of the timer is strict enough when the largest [long] is a
    [long double], and always after the check of [Config]. *)
Lemma timeout_milliseconds_range timeout name :
  platform ≠ MacArm64 ∨ SFleb (l_of_Z long_double long_max) (ceil_milliseconds timeout) = false →
  outcome (λ z, 0 ≤ z ≤ long_max) (timeout_milliseconds timeout name).
Proof.
  intros Hsafe. unfold timeout_milliseconds. fold (ceil_milliseconds timeout).
  destruct (isfinite timeout) eqn:Hf; [|done].
  destruct (d_le timeout (d_of_Z 0)) eqn:Hp; [done|].
  destruct (isfinite (ceil_milliseconds timeout)) eqn:Hc; [|done]. simpl.
  destruct (SFltb (l_of_Z long_double long_max) (ceil_milliseconds timeout)) eqn:Hlt; [done|].
  enough (∃ z, sf_trunc (ceil_milliseconds timeout) = Some z ∧ 0 ≤ z ≤ long_max) as (z & Hz & Hr).
  { simpl. unfold sf_to_i. rewrite Hz, checked_i_ok; [done|].
    pose proof long_max_range. unfold is_i. lia. }
  destruct (SFleb (l_of_Z long_double long_max) (ceil_milliseconds timeout)) eqn:Hle.
  - destruct Hsafe as [Hm|]; [|done].
    assert (∃ p E, l_of_Z long_double long_max = S754_finite false p E ∧
              Z.shiftl (Zpos p) E = long_max) as (p & E & HL & HE).
    { unfold long_double, long_max, long_bits, platform in *.
      destruct P; try done; eexists _, _; split; by vm_compute. }
    rewrite HL in Hlt, Hle. apply SFcompare_pos_eq in Hle; [|done]. rewrite Hle. simpl.
    exists long_max. rewrite HE. pose proof long_max_range. split; [done|lia].
  - apply trunc_below; [by right|done|by apply ceil_milliseconds_nonneg|done|].
    intros ? ? ?. destruct ld_format_ok. by apply sf_ceil_digits.
Qed.

(** C40: the HTTP timer conversion is safe exactly off Apple silicon. On every other
    supported platform no [double] makes the cast to [long] undefined; on
    MacArm64, where [long double] is binary64 and [long] has 64 bits, the check
    [rounded > LONG_MAX] lets 2^63 through (9223372036854776 s rounds to it) and
    the cast is undefined. *)
Theorem timeout_milliseconds_safe_iff :
  (∀ timeout name, timeout_milliseconds timeout name ≠ UB) ↔ platform ≠ MacArm64.
Proof.
  split.
  - intros H E. apply (H (d_of_Z 9223372036854776) "").
    unfold timeout_milliseconds, long_double, long_max, long_bits. rewrite E. by vm_compute.
  - intros H timeout name E.
    pose proof (timeout_milliseconds_range timeout name (or_introl H)) as Ho. by rewrite E in Ho.
Qed.

(** ** The whole operation *)

Lemma set_url_part_outcome env url part value :
  outcome (λ u, u = url ++ [(part, value)]) (set_url_part env url part value).2.
Proof. unfold set_url_part. simpl. by case_match. Qed.

Lemma set_curl_option_outcome env handle option value :
  outcome (λ h, h = handle ++ [(option, value)]) (set_curl_option env handle option value).2.
Proof. unfold set_curl_option. simpl. by case_match. Qed.

Ltac ode_step :=
  first [rewrite logged_result
        |apply XmlConfig.ode_bind with (Q := λ _, True)
        |eapply XmlConfig.ode_impl; [apply set_url_part_outcome|done]
        |eapply XmlConfig.ode_impl; [apply set_curl_option_outcome|done]
        |eapply XmlConfig.ode_impl; [apply timeout_milliseconds_range; assumption|done]
        |intros ? _].

(** Both timers of the options convert without undefined behaviour. *)
Definition timers_safe (options : DiscoveryOptions) : Prop :=
  let safe t := platform ≠ MacArm64 ∨
                SFleb (l_of_Z long_double long_max) (ceil_milliseconds t) = false in
  safe (connect_timeout options) ∧ safe (total_timeout options).

Lemma validate_options_outcome options :
  timers_safe options → outcome (λ _, True) (validate_options options).
Proof.
  intros [H1 H2]. unfold validate_options. do 2 (case_match; [done|]).
  repeat ode_step. done.
Qed.

Lemma build_url_outcome env options : outcome (λ _, True) (build_url env options).2.
Proof. unfold build_url. repeat ode_step. Qed.

Lemma build_request_outcome env options url :
  timers_safe options → outcome (λ _, True) (build_request env options url).2.
Proof.
  intros [H1 H2]. unfold build_request. destruct (has_protocols_str env); repeat ode_step.
Qed.

Lemma perform_request_outcome env handle :
  outcome XmlConfig.configuration_ok (perform_request env handle).2.
Proof.
  unfold perform_request. rewrite logged_result. cbn [perform call snd mbind Res_bind].
  destruct (curl_transfer _ _ _) as [response transfer_result].
  do 3 (case_match; [done|]). unfold check_status. rewrite logged_result.
  cbn [call quiet snd]. destruct (response_code env handle) as [status|]; [|done].
  cbn. case_match; [done|]. apply XmlConfig.parse_sensor_configuration_outcome.
Qed.

(** What the caller sees of the scopes. *)
Lemma request_configuration_result env options :
  (request_configuration env options).2 =
    if negb (easy_init_ok env) then throw DiscoveryError "failed to create HTTP transport"
    else if negb (url_ok env) then throw DiscoveryError "failed to create sensor discovery URL"
    else url ← (build_url env options).2;
         handle ← (build_request env options url).2;
         (perform_request env handle).2.
Proof.
  unfold request_configuration. rewrite logged_result. cbn [call snd].
  destruct (easy_init_ok env); [|done]. cbn [mbind Res_bind negb with_handle snd].
  rewrite logged_result. cbn [call snd]. destruct (url_ok env); [|done].
  cbn [mbind Res_bind negb with_url snd]. rewrite logged_result.
  destruct (build_url env options).2; [|done..]. cbn [mbind Res_bind].
  by rewrite logged_result.
Qed.

(** Discovery ends in an accepted configuration or a [DiscoveryError]. *)
Lemma discover_sensor_outcome env once options :
  timers_safe options →
  outcome XmlConfig.configuration_ok (discover_sensor env once options).2.
Proof.
  intros H. unfold discover_sensor, discover_calls.
  pose proof (validate_options_outcome options H) as Hv.
  destruct (validate_options options); [|done..].
  destruct (initialize_curl_once env once) as [once' init] eqn:Hi. cbn [snd].
  rewrite logged_result.
  assert (∃ code, init.2 = Ok code) as [code ->]
    by (unfold initialize_curl_once in Hi; destruct once; simplify_eq; eauto).
  cbn [mbind Res_bind]. case_match; [done|]. rewrite request_configuration_result.
  do 2 (case_match; [done|]).
  eapply XmlConfig.ode_bind; [apply build_url_outcome|]. intros url _.
  eapply XmlConfig.ode_bind; [by apply build_request_outcome|]. intros handle _.
  apply perform_request_outcome.
Qed.

(** The URL and the request the code means to send. *)
Definition expected_url (options : DiscoveryOptions) : CURLU :=
  [(CURLUPART_SCHEME, "http"); (CURLUPART_HOST, c_str (url_host (sensor_host options)));
   (CURLUPART_PORT, c_str (pretty (http_port options))); (CURLUPART_PATH, "/netftapi2.xml")].

Definition expected_request (has_str : bool) (options : DiscoveryOptions) (connect total : Z)
    : CURL :=
  [(CURLOPT_CURLU, Vurl (expected_url options));
   (if has_str then (CURLOPT_PROTOCOLS_STR, Vstring "http") else (CURLOPT_PROTOCOLS, Vlong 1));
   (CURLOPT_FOLLOWLOCATION, Vlong 0); (CURLOPT_MAXREDIRS, Vlong 0);
   (CURLOPT_NOSIGNAL, Vlong 1); (CURLOPT_PROXY, Vstring "");
   (CURLOPT_CONNECTTIMEOUT_MS, Vlong connect); (CURLOPT_TIMEOUT_MS, Vlong total);
   (CURLOPT_WRITEFUNCTION, Vappend_response); (CURLOPT_WRITEDATA, Vresponse)].

(** Inverts the successful logged computations of the context and collects their
    calls. *)
Ltac logged_inv :=
  repeat match goal with
  | H : (mbind _ _).2 = Ok _ |- _ =>
    let E := fresh "E" in apply logged_Ok_inv in H as (?&?&?&E); rewrite ?E in *; clear E
  | H : (call _ (if ?b then _ else _)).2 = Ok _ |- _ =>
    let E := fresh "E" in destruct b eqn:E; [|discriminate H]; cbn [call snd] in H
  | H : (quiet _).2 = Ok _ |- _ => cbn [quiet snd] in H
  | H : Ok _ = Ok _ |- _ => injection H as H; subst
  end.

Lemma build_url_ok env options url :
  (build_url env options).2 = Ok url →
  url = expected_url options ∧ (build_url env options).1 = uncurry UrlSet <$> url.
Proof.
  unfold build_url, set_url_part, kAtiConfigurationProtocol. cbv zeta. intros H.
  logged_inv. done.
Qed.

Lemma build_request_ok env options handle :
  (build_request env options (expected_url options)).2 = Ok handle →
  ∃ connect total,
    timeout_milliseconds (connect_timeout options) "connect_timeout" = Ok connect ∧
    timeout_milliseconds (total_timeout options) "total_timeout" = Ok total ∧
    handle = expected_request (has_protocols_str env) options connect total ∧
    (build_request env options (expected_url options)).1 = uncurry SetOpt <$> handle.
Proof.
  unfold build_request, set_curl_option, expected_request, kAtiConfigurationProtocol.
  intros H. destruct (has_protocols_str env); logged_inv; eauto 6.
Qed.

(** A request that succeeds: one transfer, whose whole body is parsed. *)
Lemma perform_request_ok env handle conf :
  Forall (λ c, chunk_wf c ∧ Z.of_nat (length (data c)) < 2 ^ 64) (chunks env handle) →
  (perform_request env handle).2 = Ok conf →
  let document := concat (data <$> chunks env handle) in
  (perform_request env handle).1 = [Perform handle; GetInfo] ∧
  response_code env handle = Some 200 ∧
  Z.of_nat (length document) ≤ kMaximumResponseBytes ∧
  XmlConfig.parse_sensor_configuration document = Ok conf.
Proof.
  intros Hwf H. unfold perform_request in *.
  apply logged_Ok_inv in H as (a & Ha & H & ->). cbn [perform call snd fst] in *.
  pose proof (curl_transfer_content _ (perform_result env handle) empty_response Hwf
                ltac:(done)) as Ht.
  injection Ha as <-. destruct (curl_transfer _ _ _) as [r code]. destruct Ht as [Hb Ht].
  destruct (too_large r); [discriminate H|]. destruct (write_failed r); [discriminate H|].
  destruct (Z.eqb_spec code 0) as [Hcode|]; [|discriminate H].
  cbn [negb] in *. specialize (Ht eq_refl eq_refl Hcode). cbn [body empty_response app] in Ht.
  unfold bounded in Hb. rewrite Ht in Hb. unfold check_status in *. rewrite Ht in *.
  apply logged_Ok_inv in H as (status & Hs & H & ->). cbn [call quiet snd fst] in *.
  destruct (response_code env handle) as [code'|]; [|discriminate Hs]. injection Hs as Hs.
  destruct (Z.eqb_spec status 200) as [E|]; [|discriminate H]. by rewrite Hs, E.
Qed.

(** The calls of a discovery that runs to its end, in order. *)
Definition all_calls (once : option Z) (options : DiscoveryOptions) (handle : CURL)
    : list CurlCall :=
  match once with Some _ => [] | None => [GlobalInit] end ++ [EasyInit true; UrlNew true] ++
  (uncurry UrlSet <$> expected_url options) ++ (uncurry SetOpt <$> handle) ++
  [Perform handle; GetInfo; UrlCleanup; EasyCleanup].

Lemma request_configuration_ok env options conf :
  (request_configuration env options).2 = Ok conf →
  ∃ url handle,
    (build_url env options).2 = Ok url ∧ (build_request env options url).2 = Ok handle ∧
    (perform_request env handle).2 = Ok conf ∧
    (request_configuration env options).1 =
      [EasyInit true; UrlNew true] ++ (build_url env options).1 ++
      (build_request env options url).1 ++ (perform_request env handle).1 ++
      [UrlCleanup; EasyCleanup].
Proof.
  intros H. unfold request_configuration in *.
  apply logged_Ok_inv in H as ([] & He & H & ->). cbn [call snd fst with_handle] in *.
  destruct (easy_init_ok env); [|discriminate He].
  apply logged_Ok_inv in H as ([] & Hu & H & ->). cbn [call snd fst with_url] in *.
  destruct (url_ok env); [|discriminate Hu].
  apply logged_Ok_inv in H as (url & E1 & H & ->).
  apply logged_Ok_inv in H as (handle & E2 & H & ->).
  exists url, handle. split_and!; [done..|]. by rewrite <-!(assoc_L (++)).
Qed.

(** C35: what a successful discovery means. The calls made to libcurl are exactly
    those of one request, in this order: the library is initialised unless an
    earlier discovery did it, the handle and the URL are made, the URL of
    /netftapi2.xml on the configured host and port and the options (redirects and
    proxies disabled, both timeouts) are set, ONE transfer is performed, its status
    is read, and both objects are released. The status was 200, and the
    configuration is the parse of everything the server sent, which is at most
    65536 bytes. *)
Theorem discover_sensor_success env once options conf :
  (∀ handle, Forall (λ c, chunk_wf c ∧ Z.of_nat (length (data c)) < 2 ^ 64) (chunks env handle)) →
  (discover_sensor env once options).2 = Ok conf →
  ∃ connect total,
    timeout_milliseconds (connect_timeout options) "connect_timeout" = Ok connect ∧
    timeout_milliseconds (total_timeout options) "total_timeout" = Ok total ∧
    let handle := expected_request (has_protocols_str env) options connect total in
    let document := concat (data <$> chunks env handle) in
    (discover_calls env once options).2.1 = all_calls once options handle ∧
    response_code env handle = Some 200 ∧
    Z.of_nat (length document) ≤ kMaximumResponseBytes ∧
    XmlConfig.parse_sensor_configuration document = Ok conf.
Proof.
  intros Hwf H. unfold discover_sensor, discover_calls in *.
  destruct (validate_options options); [|done..].
  destruct (initialize_curl_once env once) as [once' init] eqn:Hi. cbn [snd] in *.
  apply logged_Ok_inv in H as (code & Hc & H & ->).
  destruct (negb (code =? 0)); [discriminate H|].
  apply request_configuration_ok in H as (url & handle & Hu & Hr & H & ->).
  destruct (build_url_ok _ _ _ Hu) as [-> ->].
  destruct (build_request_ok _ _ _ Hr) as (connect & total & E1 & E2 & -> & ->).
  exists connect, total. split; [done|]. split; [done|]. cbv zeta.
  set (h := expected_request _ _ _ _) in *.
  destruct (perform_request_ok _ _ _ (Hwf h) H) as (-> & ?). split; [|done].
  unfold all_calls. f_equal. unfold initialize_curl_once in Hi. destruct once; by simplify_eq.
Qed.

(** ** The objects of libcurl on every path *)

(** What is alive: nothing, the easy handle, or the handle and the URL it uses. *)
Inductive Alive := Nothing | Handle_only | Handle_and_url.

(** A call and what is alive after it; [None] is a call on an object that is not
    alive, or a second object. *)
Definition use (a : Alive) (c : CurlCall) : option Alive :=
  match a, c with
  | Nothing, GlobalInit => Some Nothing
  | Nothing, EasyInit ok => Some (if ok then Handle_only else Nothing)
  | Handle_only, UrlNew ok => Some (if ok then Handle_and_url else Handle_only)
  | Handle_and_url, (UrlSet _ _ | SetOpt _ _ | Perform _ | GetInfo) => Some Handle_and_url
  | Handle_and_url, UrlCleanup => Some Handle_only
  | Handle_only, EasyCleanup => Some Nothing
  | _, _ => None
  end.

Fixpoint uses (a : Alive) (log : list CurlCall) : option Alive :=
  match log with
  | [] => Some a
  | c :: log => a ← use a c; uses a log
  end.

Definition performed (log : list CurlCall) : list CURL :=
  omap (λ c, match c with Perform handle => Some handle | _ => None end) log.

Lemma uses_app a l1 l2 : uses a (l1 ++ l2) = (a ← uses a l1; uses a l2).
Proof.
  revert a. induction l1 as [|c l1 IH]; intros a; [done|]. cbn [uses app].
  destruct (use a c); [apply IH|done].
Qed.

(** A log within the two scopes, with the transfers it performs. *)
Definition inside (hs : list CURL) (log : list CurlCall) : Prop :=
  uses Handle_and_url log = Some Handle_and_url ∧ performed log = hs ∧
  Forall (λ c, c ≠ GlobalInit) log.

Lemma inside_bind {A B} (m : Logged A) (f : A → Logged B) (Q : list CURL → Prop) :
  inside [] m.1 → Q [] →
  (∀ a, m.2 = Ok a → ∃ hs, inside hs (f a).1 ∧ Q hs) →
  ∃ hs, inside hs (m ≫= f).1 ∧ Q hs.
Proof.
  intros (H1 & H2 & H3) HQ Hf. destruct m as [l [a|e|]]; cbn in *; [|by exists []..].
  destruct (Hf a eq_refl) as (hs & (F1 & F2 & F3) & ?). exists hs. split; [|done].
  split_and!.
  - rewrite uses_app, H1. done.
  - unfold performed in *. by rewrite omap_app, H2, F2.
  - by apply Forall_app_2.
Qed.

Ltac inside_steps :=
  repeat first
    [apply inside_bind; [split_and!; [done..|by repeat constructor]|done|intros ? ?]
    |case_match
    |eexists; split; [split_and!; [done..|by repeat constructor]|]].

Lemma build_url_inside env options :
  ∃ hs, inside hs (build_url env options).1 ∧ hs = [].
Proof. unfold build_url. cbv zeta. inside_steps; done. Qed.

Lemma build_request_inside env options url :
  ∃ hs, inside hs (build_request env options url).1 ∧ hs = [].
Proof. unfold build_request. cbv zeta. inside_steps; done. Qed.

Lemma perform_request_inside env handle : inside [handle] (perform_request env handle).1.
Proof.
  unfold perform_request. cbn [perform call snd fst mbind Logged_bind].
  destruct (curl_transfer _ _ _) as [r code]. unfold check_status.
  repeat case_match; cbn [call quiet mbind Logged_bind snd fst]; repeat case_match;
    (split_and!; [done..|by repeat constructor]).
Qed.

(** The transfer of a discovery: the request as expected, at most once. *)
Definition expected_transfers (env : CurlEnv) (options : DiscoveryOptions) (hs : list CURL)
    : Prop :=
  hs = [] ∨ ∃ connect total,
    hs = [expected_request (has_protocols_str env) options connect total].

Lemma scopes_inside env options :
  ∃ hs, inside hs (url ← build_url env options;
                   handle ← build_request env options url;
                   perform_request env handle).1 ∧ expected_transfers env options hs.
Proof.
  destruct (build_url_inside env options) as (? & Hu & ->).
  apply inside_bind; [done|by left|]. intros url [-> _]%build_url_ok.
  destruct (build_request_inside env options (expected_url options)) as (? & Hr & ->).
  apply inside_bind; [done|by left|].
  intros handle (connect & total & _ & _ & -> & _)%build_request_ok.
  eexists. split; [apply perform_request_inside|]. right. eauto.
Qed.

Lemma request_configuration_log env options :
  (request_configuration env options).1 =
    if easy_init_ok env
    then EasyInit true ::
      (if url_ok env
       then UrlNew true :: (url ← build_url env options;
                            handle ← build_request env options url;
                            perform_request env handle).1 ++ [UrlCleanup; EasyCleanup]
       else [UrlNew false; EasyCleanup])
    else [EasyInit false].
Proof.
  unfold request_configuration. destruct (easy_init_ok env); [|done].
  destruct (url_ok env); [|done].
  cbn. by rewrite <-(assoc_L (++)).
Qed.

Lemma request_configuration_calls env options :
  let log := (request_configuration env options).1 in
  uses Nothing log = Some Nothing ∧ expected_transfers env options (performed log) ∧
  Forall (λ c, c ≠ GlobalInit) log.
Proof.
  rewrite request_configuration_log.
  destruct (easy_init_ok env); [|split_and!; [done|by left|by repeat constructor]].
  destruct (url_ok env); [|split_and!; [done|by left|by repeat constructor]].
  destruct (scopes_inside env options) as (hs & (H1 & H2 & H3) & Hhs).
  generalize dependent (url ← build_url env options; handle ← build_request env options url;
                        perform_request env handle). intros [log result] H1 H2 H3. cbn in *.
  split_and!.
  - by rewrite uses_app, H1.
  - unfold performed in *. by rewrite omap_app, H2, app_nil_r.
  - do 2 (constructor; [done|]). apply Forall_app_2; [done|by repeat constructor].
Qed.

(** C36: discovery uses libcurl properly on every path, failures included. Whatever
    libcurl answers, the handle and the URL are each released exactly once if they
    were made, the URL (which the handle refers to) before the handle, nothing is
    called on an object that is not alive, at most one transfer is performed and it
    is the expected request, refused options make no call at all, and the library is
    initialised once per process: by the first discovery whose options are accepted. *)
Theorem discovery_releases env once options :
  let log := (discover_calls env once options).2.1 in
  let once' := (discover_calls env once options).1 in
  uses Nothing log = Some Nothing ∧
  expected_transfers env options (performed log) ∧
  (GlobalInit ∈ log ↔ once = None ∧ validate_options options = Ok ()) ∧
  (validate_options options ≠ Ok () → log = []) ∧
  once' = match once, validate_options options with
          | None, Ok _ => Some (global_init env)
          | _, _ => once
          end.
Proof.
  unfold discover_calls.
  destruct (validate_options options) as [[]|e|];
    [|split_and!; [done|by left| |done|by destruct once];
      split; [by intros ?%elem_of_nil|by intros []]..].
  destruct (request_configuration_calls env options) as (H1 & H2 & H3).
  rewrite Forall_forall in H3.
  destruct once as [code|]; cbn [initialize_curl_once mbind Logged_bind call quiet fst snd app];
    destruct (_ =? 0); cbn [negb quiet throw fst snd].
  - split_and!; [done..| |done|done]. split; [by intros ?%H3|by intros []].
  - split_and!; [done|by left| |done|done]. split; [by intros ?%elem_of_nil|by intros []].
  - split_and!; [done..| |done|done]. split; [done|]. intros _. left.
  - split_and!; [done|by left| |done|done]. split; [done|]. intros _. left.
Qed.

End discovery.

(** ** A concrete transfer *)

(** A server that answers with the test sensor's document in two chunks. *)
Definition fake_server : CurlEnv := {|
  has_protocols_str := true; global_init := 0; easy_init_ok := true; url_ok := true;
  url_set_ok := λ _ _, true; setopt_ok := λ _ _, true;
  chunks := λ _,
    let doc := XmlConfig.txt XmlConfig.sensor_document in
    [{| size := 1; count := 100; data := take 100 doc; alloc_ok := true |};
     {| size := 1; count := 54; data := drop 100 doc; alloc_ok := true |}];
  perform_result := λ _, 0; strerror := λ _, "error"; response_code := λ _, Some 200 |}.

Definition fake_options : DiscoveryOptions :=
  {| sensor_host := "fe80::1"; http_port := 80;
     connect_timeout := d_of_Z 2; total_timeout := d_ratio 5 2 |}.

Lemma fake_server_chunks handle :
  Forall (λ c, chunk_wf c ∧ Z.of_nat (length (data c)) < 2 ^ 64) (chunks fake_server handle).
Proof.
  apply Forall_cons_2; [|apply Forall_cons_2; [|apply Forall_nil_2]]; vm_compute;
    split_and!; congruence.
Qed.

Lemma curl_transfer_bounded_witness :
  bounded (curl_transfer (chunks fake_server []) 0 empty_response).1 ∧
  body (curl_transfer (chunks fake_server []) 0 empty_response).1 =
    XmlConfig.txt XmlConfig.sensor_document.
Proof.
  pose proof (curl_transfer_bounded (chunks fake_server []) 0 (fake_server_chunks [])) as H.
  split; [|vm_compute; reflexivity].
  destruct (curl_transfer (chunks fake_server []) 0 empty_response) as [r code]. apply H.
Defined.

Lemma discover_sensor_success_witness :
  ∃ conf handle,
    (discover_sensor (P:=LinuxX86_64) fake_server None fake_options).2 = Ok conf ∧
    performed (discover_calls (P:=LinuxX86_64) fake_server None fake_options).2.1 = [handle] ∧
    handle !! 7%nat = Some (CURLOPT_TIMEOUT_MS, Vlong 2500).
Proof.
  destruct (discover_sensor (P:=LinuxX86_64) fake_server None fake_options).2 as [conf|e|] eqn:E;
    [|vm_compute in E; discriminate E..].
  destruct (discover_sensor_success (P:=LinuxX86_64) fake_server None fake_options conf
              fake_server_chunks E) as (c & t & _ & Ht & Hlog & _).
  eexists conf, _. split; [reflexivity|]. split; [rewrite Hlog; reflexivity|].
  vm_compute in Ht. injection Ht as <-. reflexivity.
Defined.

End Discovery.
