(* ===== verification/SampleQueue.v ===== *)
(** * Bounded sample queue: bindings/python/sample_queue.{hpp,cpp}

    Every method body is one critical section of [mutex_], so a concurrent history
    of the queue is a sequence of [Event]s. A reader's wait releases the mutex: the
    events of other threads happen there, in batches between two wake-ups. The
    testing hooks ([PYNETFT_SAMPLE_QUEUE_TESTING]) are compiled out of the module
    and are left out. *)

From Stdlib Require Import ZArith Lia.
From S2P Require Import Prelude Floats Types.

Module SampleQueue.

(** Source: bindings/python/sample_queue.hpp:19-19, [ReadStatus]. *)
Inductive ReadStatus := StSample | StTimeout | StClosed.

(** Source: bindings/python/sample_queue.hpp:21-24, [ReadResult]. *)
Record ReadResult := { status : ReadStatus; sample : option Sample }.

(** Source: bindings/python/sample_queue.hpp:26-56, [SampleQueue]. *)
Record SampleQueue := {
  capacity_ : Z;
  samples_ : list Sample;
  dropped_count_ : Z;
  close_generation_ : Z;
  closed_ : bool
}.

#[global] Instance ReadStatus_eq_dec : EqDecision ReadStatus.
Proof. solve_decision. Defined.
#[global] Instance ReadResult_eq_dec : EqDecision ReadResult.
Proof. solve_decision. Defined.
#[global] Instance SampleQueue_eta : Eta SampleQueue := λ r,
  {| capacity_ := capacity_ r; samples_ := samples_ r; dropped_count_ := dropped_count_ r;
     close_generation_ := close_generation_ r; closed_ := closed_ r |}.

(** Source: bindings/python/sample_queue.cpp:7-12, [SampleQueue::SampleQueue]. *)
Definition make (capacity : Z) : Res SampleQueue :=
  if capacity =? 0
  then throw invalid_argument "sample queue capacity must be greater than zero"
  else Ok {| capacity_ := capacity; samples_ := []; dropped_count_ := 0;
             close_generation_ := 0; closed_ := false |}.

(** [std::deque::front] and [pop_front] are undefined on an empty deque. *)
Definition front {A} (l : list A) : Res A :=
  match l with [] => UB | x :: _ => Ok x end.
Definition pop_front {A} (l : list A) : Res (list A) :=
  match l with [] => UB | _ :: l => Ok l end.

(** Source: bindings/python/sample_queue.cpp:14-24, [SampleQueue::push]. *)
Definition push (s : Sample) (q : SampleQueue) : Res SampleQueue :=
  q ← (if Z.of_nat (length (samples_ q)) =? capacity_ q
       then rest ← pop_front (samples_ q);
            Ok q <| samples_ := rest |> <| dropped_count_ ::= λ n, u64 (n + 1) |>
       else Ok q);
  Ok q <| samples_ ::= λ l, l ++ [s] |>.

(** Source: bindings/python/sample_queue.cpp:45-47, [SampleQueue::read_for_locked]:
    the predicate of the wait. *)
Definition ready (generation : Z) (q : SampleQueue) : bool :=
  closed_ q || negb (close_generation_ q =? generation) || negb (bool_decide (samples_ q = [])).

(** Source: bindings/python/sample_queue.cpp:55-65, [SampleQueue::read_for_locked]:
    what the reader does after its wait returned [is_ready]. *)
Definition finish_read (is_ready : bool) (generation : Z) (q : SampleQueue)
    : Res (ReadResult * SampleQueue) :=
  if negb is_ready then Ok ({| status := StTimeout; sample := None |}, q)
  else if closed_ q || negb (close_generation_ q =? generation)
  then Ok ({| status := StClosed; sample := None |}, q)
  else
    s ← front (samples_ q);
    rest ← pop_front (samples_ q);
    Ok ({| status := StSample; sample := Some s |}, q <| samples_ := rest |>).

(** Source: bindings/python/sample_queue.cpp:72-79, [SampleQueue::close]. *)
Definition close (q : SampleQueue) : SampleQueue :=
  q <| closed_ := true |> <| close_generation_ ::= λ g, u64 (g + 1) |>.

(** Source: bindings/python/sample_queue.cpp:81-86, [SampleQueue::reset]. *)
Definition reset (q : SampleQueue) : SampleQueue :=
  q <| samples_ := [] |> <| dropped_count_ := 0 |> <| closed_ := false |>.

(** Source: bindings/python/sample_queue.cpp:67-70, [SampleQueue::generation]. *)
Definition generation (q : SampleQueue) : Z := close_generation_ q.

(** Source: bindings/python/sample_queue.cpp:88-91, [SampleQueue::dropped_count]. *)
Definition dropped_count (q : SampleQueue) : Z := dropped_count_ q.

(** ** Concurrent histories *)

(** One critical section. [ERead g] is a reader of generation [g] that holds the
    mutex, evaluates its predicate and finishes. *)
Inductive Event := EPush (s : Sample) | EClose | EReset | ERead (g : Z).

Definition step (e : Event) (q : SampleQueue) : Res (option ReadResult * SampleQueue) :=
  match e with
  | EPush s => q ← push s q; Ok (None, q)
  | EClose => Ok (None, close q)
  | EReset => Ok (None, reset q)
  | ERead g => '(r, q) ← finish_read (ready g q) g q; Ok (Some r, q)
  end.

Fixpoint exec (events : list Event) (q : SampleQueue) : Res SampleQueue :=
  match events with
  | [] => Ok q
  | e :: events => '(_, q) ← step e q; exec events q
  end.

(** Source: bindings/python/sample_queue.cpp:45-47, [SampleQueue::read_for_locked]:
    [condition_.wait_for] with a predicate. Each batch is what the other threads
    do between two wake-ups of this reader; when the batches are exhausted the
    timeout has passed and the predicate is evaluated once more. *)
Fixpoint wait_for (pred : SampleQueue → bool) (schedule : list (list Event)) (q : SampleQueue)
    : Res (bool * SampleQueue) :=
  match schedule with
  | [] => Ok (pred q, q)
  | batch :: schedule =>
    if pred q then Ok (true, q) else q ← exec batch q; wait_for pred schedule q
  end.

(** Source: bindings/python/sample_queue.cpp:37-65, [SampleQueue::read_for_locked]. *)
Definition read_for_locked (schedule : list (list Event)) (generation : Z) (q : SampleQueue)
    : Res (ReadResult * SampleQueue) :=
  '(is_ready, q) ← wait_for (ready generation) schedule q;
  finish_read is_ready generation q.

(** Source: bindings/python/sample_queue.cpp:31-35, [SampleQueue::read_for]. *)
Definition read_for_generation (schedule : list (list Event)) (generation : Z) (q : SampleQueue)
    : Res (ReadResult * SampleQueue) := read_for_locked schedule generation q.

(** Source: bindings/python/sample_queue.cpp:26-29, [SampleQueue::read_for]. *)
Definition read_for (schedule : list (list Event)) (q : SampleQueue)
    : Res (ReadResult * SampleQueue) := read_for_locked schedule (close_generation_ q) q.

(** ** Invariant *)

Definition wf (q : SampleQueue) : Prop :=
  0 < capacity_ q ∧ Z.of_nat (length (samples_ q)) ≤ capacity_ q ∧
  is_u 64 (dropped_count_ q) ∧ is_u 64 (close_generation_ q).

(** [push] keeps the newest [capacity_] samples. *)
Lemma push_spec s q :
  wf q → ∃ q', push s q = Ok q' ∧ wf q' ∧
    samples_ q' = lastn (Z.to_nat (capacity_ q)) (samples_ q ++ [s]) ∧
    capacity_ q' = capacity_ q ∧ close_generation_ q' = close_generation_ q ∧
    closed_ q' = closed_ q.
Proof.
  intros (Hc & Hl & Hd & Hg). unfold push.
  destruct (Z.eqb_spec (Z.of_nat (length (samples_ q))) (capacity_ q)) as [E|E].
  - destruct (samples_ q) as [|x rest] eqn:Es; [simpl in E; lia|]. simpl in *.
    eexists. split; [done|]. unfold wf, lastn; simpl. rewrite !length_app. simpl.
    split_and!; [lia|lia|apply (wrap_u_range 64); lia..|done| |done|done|done].
    replace (S (length rest + 1) - Z.to_nat (capacity_ q))%nat with 1%nat by lia. done.
  - simpl. eexists. split; [done|]. unfold wf; simpl. rewrite length_app. simpl.
    split_and!; [lia|lia|done..| |done|done|done].
    rewrite lastn_all; [done|]. rewrite length_app. simpl. lia.
Qed.

(** A reader that finds its predicate true never touches an empty deque. *)
Lemma finish_read_spec b g q :
  wf q → b = ready g q →
  ∃ r q', finish_read b g q = Ok (r, q') ∧ wf q' ∧
    match status r with
    | StTimeout => sample r = None ∧ q' = q ∧ b = false
    | StClosed => sample r = None ∧ q' = q ∧ (closed_ q = true ∨ close_generation_ q ≠ g)
    | StSample => ∃ s rest, sample r = Some s ∧ samples_ q = s :: rest ∧
                    q' = q <| samples_ := rest |> ∧
                    closed_ q = false ∧ close_generation_ q = g
    end.
Proof.
  intros Hw ->. unfold finish_read, ready.
  destruct (closed_ q) eqn:Ec; simpl.
  { eexists _, _. split; [done|]. split; [done|]. simpl. auto. }
  destruct (Z.eqb_spec (close_generation_ q) g) as [Eg|Eg]; simpl.
  2: { eexists _, _. split; [done|]. split; [done|]. simpl. auto. }
  destruct (samples_ q) as [|x rest] eqn:Es; simpl.
  { eexists _, _. split; [done|]. split; [done|]. simpl. auto. }
  eexists _, _. split; [done|]. destruct Hw as (Hc & Hl & Hd & Hg). rewrite Es in Hl.
  simpl in Hl. unfold wf; simpl. split; [split_and!; try done; lia|].
  eexists _, _. done.
Qed.

Lemma step_spec e q :
  wf q → ∃ r q', step e q = Ok (r, q') ∧ wf q' ∧ capacity_ q' = capacity_ q.
Proof.
  intros Hw. pose proof Hw as (Hc & Hl & Hd & Hg). destruct e as [s| | |g]; simpl.
  - destruct (push_spec s q Hw) as (q' & -> & Hw' & _ & Ec & _). simpl. eauto.
  - eexists _, _. split; [done|]. unfold wf; simpl.
    split; [|done]. split_and!; [done..|apply (wrap_u_range 64); lia].
  - eexists _, _. split; [done|]. unfold wf; simpl. split; [|done].
    split_and!; [done|lia|done..].
  - destruct (finish_read_spec (ready g q) g q Hw eq_refl) as (r & q' & -> & Hw' & Hr).
    simpl. eexists _, _. split; [done|]. split; [done|]. destruct (status r).
    + by destruct Hr as (? & ? & _ & _ & -> & _).
    + by destruct Hr as (_ & -> & _).
    + by destruct Hr as (_ & -> & _).
Qed.

Lemma exec_spec events q :
  wf q → ∃ q', exec events q = Ok q' ∧ wf q' ∧ capacity_ q' = capacity_ q.
Proof.
  revert q. induction events as [|e events IH]; intros q Hw; [by exists q|].
  destruct (step_spec e q Hw) as (r & q' & E & Hw' & Hc). cbn [exec]. rewrite E. simpl.
  destruct (IH q' Hw') as (q'' & E' & Hw'' & Hc'). exists q''. by rewrite <-Hc.
Qed.

Lemma wait_for_spec g schedule q :
  wf q → ∃ b q', wait_for (ready g) schedule q = Ok (b, q') ∧ wf q' ∧ b = ready g q'.
Proof.
  revert q. induction schedule as [|batch schedule IH]; intros q Hw; simpl; [eauto|].
  destruct (ready g q) eqn:E; [by eexists _, _|].
  destruct (exec_spec batch q Hw) as (q' & -> & Hw' & _). simpl. by apply IH.
Qed.

Lemma make_wf capacity q : is_u 64 capacity → make capacity = Ok q → wf q ∧ q = q <| capacity_ := capacity |>
  ∧ samples_ q = [] ∧ dropped_count_ q = 0 ∧ close_generation_ q = 0 ∧ closed_ q = false.
Proof.
  unfold make, is_u. intros H. destruct (Z.eqb_spec capacity 0); [done|]. intros [= <-].
  unfold wf, is_u; simpl. split_and!; lia || done.
Qed.

(** Reads are safe and exact under any interleaving. Whatever other threads do
    while the reader waits, [read_for] never takes the front of an empty deque
    and returns one of three things: the oldest sample of its own generation,
    removed from the front; [Closed], exactly when the queue is closed or its
    generation has moved on; or [Timeout], only when the queue is open, in the
    reader's generation and empty at the deadline. *)
Theorem read_for_generation_exact schedule g q :
  wf q →
  ∃ r q1 q2, wait_for (ready g) schedule q = Ok (ready g q1, q1) ∧
    read_for_generation schedule g q = Ok (r, q2) ∧ wf q2 ∧
    match status r with
    | StSample => ∃ s rest, sample r = Some s ∧ samples_ q1 = s :: rest ∧
                    q2 = q1 <| samples_ := rest |> ∧
                    closed_ q1 = false ∧ close_generation_ q1 = g
    | StClosed => q2 = q1 ∧ (closed_ q1 = true ∨ close_generation_ q1 ≠ g)
    | StTimeout => q2 = q1 ∧ closed_ q1 = false ∧ close_generation_ q1 = g ∧ samples_ q1 = []
    end.
Proof.
  intros Hw. destruct (wait_for_spec g schedule q Hw) as (b & q1 & E & Hw1 & ->).
  destruct (finish_read_spec (ready g q1) g q1 Hw1 eq_refl) as (r & q2 & E2 & Hw2 & Hr).
  exists r, q1, q2. split; [done|]. unfold read_for_generation, read_for_locked. rewrite E. simpl.
  split; [done|]. split; [done|]. destruct (status r);
    [done| |by destruct Hr as (_ & ? & ?)].
  destruct Hr as (_ & -> & Hb). split; [done|]. unfold ready in Hb.
  apply orb_false_iff in Hb as [[H1 H2%negb_false_iff]%orb_false_iff H3%negb_false_iff].
  apply Z.eqb_eq in H2. apply bool_decide_eq_true in H3. done.
Qed.

(** ** Conservation of samples *)

(** What happened to the samples pushed since the last [reset]. *)
Record History := { pushed : list Sample; taken : list Sample; lost : list Sample }.

Definition no_history : History := {| pushed := []; taken := []; lost := [] |}.

Definition observe (e : Event) (q : SampleQueue) (r : option ReadResult) (h : History) : History :=
  match e with
  | EPush s =>
    {| pushed := pushed h ++ [s]; taken := taken h;
       lost := lost h ++ if Z.of_nat (length (samples_ q)) =? capacity_ q
                         then take 1 (samples_ q) else [] |}
  | EReset => no_history
  | EClose => h
  | ERead _ =>
    match r with
    | Some {| sample := Some s |} =>
      {| pushed := pushed h; taken := taken h ++ [s]; lost := lost h |}
    | _ => h
    end
  end.

Fixpoint exec_history (events : list Event) (q : SampleQueue) (h : History)
    : Res (SampleQueue * History) :=
  match events with
  | [] => Ok (q, h)
  | e :: events => '(r, q') ← step e q; exec_history events q' (observe e q r h)
  end.

Definition conserved (q : SampleQueue) (h : History) : Prop :=
  samples_ q = drop (length (taken h) + length (lost h)) (pushed h) ∧
  taken h ++ lost h ≡ₚ take (length (taken h) + length (lost h)) (pushed h) ∧
  sublist (taken h) (take (length (taken h) + length (lost h)) (pushed h)) ∧
  dropped_count_ q = u64 (Z.of_nat (length (lost h))).

Lemma drop_S_eq {A} n (l : list A) x rest :
  drop n l = x :: rest →
  l !! n = Some x ∧ drop (S n) l = rest ∧ take (S n) l = take n l ++ [x].
Proof.
  intros H. assert (Hx : l !! n = Some x).
  { rewrite <-(Nat.add_0_r n), <-lookup_drop, H. done. }
  split; [done|]. split; [|by apply take_S_r].
  rewrite (drop_S l x n Hx) in H. by injection H.
Qed.

(** Removing the front sample, as taken or as lost. *)
Lemma conserved_take q h x rest :
  conserved q h → samples_ q = x :: rest →
  conserved (q <| samples_ := rest |>)
    {| pushed := pushed h; taken := taken h ++ [x]; lost := lost h |}.
Proof.
  intros (Hs & Hp & Ht & Hd) E. unfold conserved; simpl. rewrite E in Hs. symmetry in Hs.
  apply drop_S_eq in Hs as (Hx & Hd' & Htk). rewrite length_app. simpl.
  replace (length (taken h) + 1 + length (lost h))%nat
    with (S (length (taken h) + length (lost h))) by lia.
  rewrite Htk. split_and!; [done| | |done].
  - rewrite <-Hp. by rewrite <-!app_assoc, (Permutation_app_comm [x] (lost h)).
  - by apply sublist_app.
Qed.

Lemma conserved_lose q h x rest :
  conserved q h → samples_ q = x :: rest →
  conserved (q <| samples_ := rest |> <| dropped_count_ ::= λ n, u64 (n + 1) |>)
    {| pushed := pushed h; taken := taken h; lost := lost h ++ [x] |}.
Proof.
  intros (Hs & Hp & Ht & Hd) E. unfold conserved; simpl. rewrite E in Hs. symmetry in Hs.
  apply drop_S_eq in Hs as (Hx & Hd' & Htk). rewrite length_app. simpl.
  replace (length (taken h) + (length (lost h) + 1))%nat
    with (S (length (taken h) + length (lost h))) by lia.
  rewrite Htk. split_and!; [done| | |].
  - by rewrite <-Hp, app_assoc.
  - by apply sublist_inserts_r.
  - rewrite Hd. unfold wrap_u. rewrite Nat2Z.inj_add. simpl. mod_lia.
Qed.

Lemma conserved_append q h s :
  conserved q h → conserved (q <| samples_ ::= λ l, l ++ [s] |>)
    {| pushed := pushed h ++ [s]; taken := taken h; lost := lost h |}.
Proof.
  intros (Hs & Hp & Ht & Hd). unfold conserved; simpl.
  assert (Hle : (length (taken h) + length (lost h) ≤ length (pushed h))%nat).
  { apply Permutation_length in Hp. rewrite length_app, length_take in Hp. lia. }
  rewrite Hs, drop_app_le, !take_app_le by done. done.
Qed.

Lemma step_conserved e q h r q' :
  wf q → conserved q h → step e q = Ok (r, q') → conserved q' (observe e q r h).
Proof.
  intros Hw Hc Hst. destruct e as [s| | |g]; simpl in Hst.
  - unfold push in Hst. simpl. destruct (Z.eqb_spec (Z.of_nat (length (samples_ q))) (capacity_ q)).
    + destruct (samples_ q) as [|x rest] eqn:E; [done|]. simpl in Hst. injection Hst as <- <-.
      by apply (conserved_append _ _ s (conserved_lose q h x rest Hc E)).
    + simpl in Hst. injection Hst as <- <-. rewrite app_nil_r. by apply conserved_append.
  - by injection Hst as <- <-.
  - injection Hst as <- <-. unfold conserved; simpl. split_and!; done || apply sublist_nil_l.
  - destruct (finish_read_spec (ready g q) g q Hw eq_refl) as (r' & q1 & E & _ & Hr).
    rewrite E in Hst. simpl in Hst. injection Hst as <- <-. simpl.
    destruct r' as [st smp]; simpl in *. destruct st.
    + destruct Hr as (s & rest & -> & Es & -> & _). by apply conserved_take.
    + by destruct Hr as (-> & -> & _).
    + by destruct Hr as (-> & -> & _).
Qed.

(** Any events keep the queue and its history consistent. *)
Lemma history_conserved events q h :
  wf q → conserved q h →
  ∃ q' h', exec_history events q h = Ok (q', h') ∧ exec events q = Ok q' ∧ wf q' ∧
    capacity_ q' = capacity_ q ∧ conserved q' h'.
Proof.
  revert q h. induction events as [|e events IH]; intros q h Hw Hc; [by exists q, h|].
  destruct (step_spec e q Hw) as (r & q1 & E & Hw1 & Hcap). cbn [exec_history exec].
  rewrite E. cbn [mbind Res_bind]. rewrite <-Hcap.
  apply IH; [done|]. by eapply step_conserved.
Qed.

(** What a consistent history says of the samples. *)
Lemma conserved_result q h :
  conserved q h →
  taken h ++ lost h ++ samples_ q ≡ₚ pushed h ∧ sublist (taken h ++ samples_ q) (pushed h) ∧
  samples_ q = lastn (length (samples_ q)) (pushed h) ∧
  dropped_count q = u64 (Z.of_nat (length (lost h))).
Proof.
  intros (Hs & Hp & Ht & Hd). set (n := (length (taken h) + length (lost h))%nat) in *.
  rewrite Hs at 1 2 3. rewrite app_assoc, Hp, take_drop. split; [done|].
  split; [|split; [|done]].
  - rewrite <-(take_drop n (pushed h)) at 2. by apply sublist_app.
  - rewrite Hs. unfold lastn. rewrite length_drop.
    destruct (decide (n ≤ length (pushed h))%nat); [f_equal; lia|].
    rewrite !drop_ge; [done|lia..].
Qed.

(** C9: no sample is lost silently. After any interleaving of pushes, reads, closes
    and resets on a queue built by the constructor, and counting since the last
    reset: the queue holds exactly the newest pushed samples, at most [capacity];
    every older one was either returned to a reader, in the order pushed, or
    dropped; and [dropped_count] is the number dropped, modulo 2^64. *)
Theorem queue_conservation capacity events q :
  is_u 64 capacity → make capacity = Ok q →
  ∃ q' h, exec_history events q no_history = Ok (q', h) ∧
    exec events q = Ok q' ∧
    Z.of_nat (length (samples_ q')) ≤ capacity ∧
    taken h ++ lost h ++ samples_ q' ≡ₚ pushed h ∧
    sublist (taken h ++ samples_ q') (pushed h) ∧
    samples_ q' = lastn (length (samples_ q')) (pushed h) ∧
    dropped_count q' = u64 (Z.of_nat (length (lost h))).
Proof.
  intros Hcap Hm. destruct (make_wf _ _ Hcap Hm) as (Hw & Hq & Hs & Hd & _).
  assert (Hc : conserved q no_history).
  { unfold conserved. rewrite Hs, Hd. split_and!; done. }
  assert (Hcq : capacity_ q = capacity) by (by rewrite Hq).
  destruct (history_conserved events q no_history Hw Hc) as (q' & h & E & E' & Hw' & Hcap' & Hc').
  exists q', h. split; [done|]. split; [done|].
  split; [rewrite <-Hcq, <-Hcap'; by destruct Hw' as (_ & ? & _)|]. by apply conserved_result.
Qed.

(** ** Generations *)

Definition is_close (e : Event) : bool := match e with EClose => true | _ => false end.
Definition closes (events : list Event) : Z := Z.of_nat (length (List.filter is_close events)).

Lemma step_generation e q r q' :
  wf q → step e q = Ok (r, q') →
  close_generation_ q' = u64 (close_generation_ q + if is_close e then 1 else 0).
Proof.
  intros Hw Hst. assert (Hg : u64 (close_generation_ q + 0) = close_generation_ q).
  { rewrite Z.add_0_r. apply wrap_u_small. apply Hw. }
  destruct e as [s| | |g]; simpl in *; [| |by injection Hst as <- <-|]; try rewrite Hg.
  - destruct (push_spec s q Hw) as (q1 & E & _ & _ & _ & Eg & _). rewrite E in Hst.
    by injection Hst as <- <-.
  - by injection Hst as <- <-.
  - destruct (finish_read_spec (ready g q) g q Hw eq_refl) as (r' & q1 & E & _ & Hr).
    rewrite E in Hst. injection Hst as <- <-.
    destruct (status r'); [|by destruct Hr as (_ & -> & _)..].
    by destruct Hr as (s & rest & _ & _ & -> & _).
Qed.

Lemma exec_generation events q q' :
  wf q → exec events q = Ok q' →
  close_generation_ q' = u64 (close_generation_ q + closes events).
Proof.
  revert q. induction events as [|e events IH]; intros q Hw H.
  { injection H as <-. unfold closes. simpl. rewrite Z.add_0_r. symmetry.
    apply wrap_u_small, Hw. }
  destruct (step_spec e q Hw) as (r & q1 & E & Hw1 & _). cbn [exec] in H. rewrite E in H.
  simpl in H. rewrite (IH q1 Hw1 H), (step_generation _ _ _ _ Hw E).
  unfold closes, wrap_u. cbn [List.filter]. destruct (is_close e); cbn [length]; mod_lia.
Qed.

(** A reader never crosses a restart. If the queue was closed at least once (and
    fewer than 2^64 times) after a reader captured its generation, then whatever
    was pushed or reset in between and however long it waits, the read returns
    [Closed] at once, and leaves the samples of the new generation in place. *)
Theorem stale_reader_closed q events q' schedule :
  wf q → exec events q = Ok q' → 0 < closes events < 2 ^ 64 →
  read_for_generation schedule (generation q) q' =
    Ok ({| status := StClosed; sample := None |}, q').
Proof.
  intros Hw H Hk. pose proof (exec_generation _ _ _ Hw H) as Hg.
  assert (Hne : close_generation_ q' ≠ close_generation_ q).
  { destruct Hw as (_ & _ & _ & Hu). unfold is_u in Hu. rewrite Hg. unfold wrap_u. mod_lia. }
  apply Z.eqb_neq in Hne.
  assert (Hr : ready (generation q) q' = true).
  { unfold ready, generation. rewrite Hne. by destruct (closed_ q'). }
  unfold read_for_generation, read_for_locked.
  assert (wait_for (ready (generation q)) schedule q' = Ok (true, q')) as ->.
  { destruct schedule; simpl; by rewrite Hr. }
  simpl. unfold finish_read, generation. rewrite Hne. by destruct (closed_ q').
Qed.

(** ** Witnesses *)

Definition sample_with (n : Z) : Sample :=
  {| Sample.rdt_sequence := n; Sample.ft_sequence := n; Sample.status := 0;
     Sample.raw_wrench := []; Sample.force := []; Sample.torque := [];
     Sample.force_unit := ForceUnit.Newton; Sample.torque_unit := TorqueUnit.NewtonMeter;
     Sample.configuration_revision := 1; Sample.received_at := n |}.

Definition queue2 : SampleQueue :=
  {| capacity_ := 2; samples_ := []; dropped_count_ := 0; close_generation_ := 0;
     closed_ := false |}.

Lemma queue2_wf : wf queue2.
Proof. vm_compute. split_and!; congruence. Qed.

Definition overflowing : list Event :=
  [EPush (sample_with 1); EPush (sample_with 2); ERead 0; EPush (sample_with 3);
   EPush (sample_with 4)].

Lemma queue_conservation_witness :
  make 2 = Ok queue2 ∧
  ∃ q' h, exec_history overflowing queue2 no_history = Ok (q', h) ∧
    taken h = [sample_with 1] ∧ lost h = [sample_with 2] ∧ dropped_count q' = 1.
Proof.
  split; [reflexivity|].
  destruct (queue_conservation 2 overflowing queue2) as (q' & h & E & _);
    [vm_compute; split; congruence|reflexivity|].
  exists q', h. split; [exact E|]. vm_compute in E. injection E as <- <-. split_and!; reflexivity.
Defined.

Lemma read_for_generation_exact_witness :
  ∃ r q2, read_for_generation [[EPush (sample_with 7)]; []] 0 queue2 = Ok (r, q2) ∧
    wf q2 ∧ status r = StSample ∧ sample r = Some (sample_with 7).
Proof.
  destruct (read_for_generation_exact [[EPush (sample_with 7)]; []] 0 queue2 queue2_wf)
    as (r & q1 & q2 & _ & E2 & Hw & _).
  exists r, q2. split; [exact E2|]. split; [exact Hw|].
  vm_compute in E2. injection E2 as <- <-. split; reflexivity.
Defined.

Lemma stale_reader_closed_witness :
  ∃ q', exec [EClose; EReset; EPush (sample_with 1)] queue2 = Ok q' ∧
    read_for_generation [[]; []] 0 q' = Ok ({| status := StClosed; sample := None |}, q').
Proof.
  eexists. split; [vm_compute; reflexivity|].
  apply (stale_reader_closed queue2 [EClose; EReset; EPush (sample_with 1)]);
    [exact queue2_wf|vm_compute; reflexivity|vm_compute; split; congruence].
Defined.

End SampleQueue.
