(* ===== verification/QueueSpec.v ===== *)
(** * The sample queue against its specification

    Two views of bindings/python/sample_queue.cpp. The first is its contract: a bounded
    FIFO with an unbounded drop count and unbounded epochs, which the queue implements
    with two 64-bit counters. The second is its condition variable: the critical sections
    of readers and writers interleave with their notifications, and no reader sleeps
    while there is something for it to return. *)

From Stdlib Require Import ZArith Lia.
From stdpp Require Import relations.
From S2P Require Import Prelude Floats Types SampleQueue.
Import SampleQueue.

Module QueueSpec.

(** ** The contract *)

(** A FIFO of at most [capacity] samples; [epoch] counts the closes. *)
Record Fifo := { buffer : list Sample; dropped : nat; epoch : nat; is_open : bool }.

Definition empty_fifo : Fifo := {| buffer := []; dropped := 0; epoch := 0; is_open := true |}.

(** A read names the epoch it belongs to. *)
Inductive Request := Push (s : Sample) | Close | Reset | Read (e : nat).

(** A push keeps the newest samples and counts those it drops; a read of the current
    epoch of an open queue takes the oldest sample, any other one is told that the queue
    was closed. *)
Definition fifo_step (capacity : nat) (r : Request) (f : Fifo) : option ReadResult * Fifo :=
  match r with
  | Push s =>
    let all := buffer f ++ [s] in
    (None, {| buffer := lastn capacity all; dropped := dropped f + (length all - capacity);
              epoch := epoch f; is_open := is_open f |})
  | Close =>
    (None, {| buffer := buffer f; dropped := dropped f; epoch := S (epoch f); is_open := false |})
  | Reset => (None, {| buffer := []; dropped := 0; epoch := epoch f; is_open := true |})
  | Read e =>
    if is_open f && bool_decide (e = epoch f) then
      match buffer f with
      | [] => (Some {| status := StTimeout; sample := None |}, f)
      | s :: rest =>
        (Some {| status := StSample; sample := Some s |},
         {| buffer := rest; dropped := dropped f; epoch := epoch f; is_open := is_open f |})
      end
    else (Some {| status := StClosed; sample := None |}, f)
  end.

Fixpoint fifo_run (capacity : nat) (rs : list Request) (f : Fifo) : list (option ReadResult) * Fifo :=
  match rs with
  | [] => ([], f)
  | r :: rs =>
    let '(o, f) := fifo_step capacity r f in
    let '(os, f) := fifo_run capacity rs f in (o :: os, f)
  end.

(** No read is so late that the generation counter has come round to its epoch again. *)
Definition in_time (r : Request) (f : Fifo) : bool :=
  match r with
  | Read e => (e <=? epoch f)%nat && (Z.of_nat (epoch f - e) <? 2 ^ 64)
  | _ => true
  end.

Fixpoint all_in_time (capacity : nat) (rs : list Request) (f : Fifo) : bool :=
  match rs with
  | [] => true
  | r :: rs => in_time r f && all_in_time capacity rs (fifo_step capacity r f).2
  end.

(** ** The implementation's run *)

(** What a request is for the queue: a reader holds its epoch modulo 2^64. *)
Definition event_of (r : Request) : Event :=
  match r with
  | Push s => EPush s
  | Close => EClose
  | Reset => EReset
  | Read e => ERead (u64 (Z.of_nat e))
  end.

Fixpoint queue_run (es : list Event) (q : SampleQueue) : Res (list (option ReadResult) * SampleQueue) :=
  match es with
  | [] => Ok ([], q)
  | e :: es => '(o, q) ← step e q; '(os, q) ← queue_run es q; Ok (o :: os, q)
  end.

(** The queue represents the FIFO. *)
Record represents (f : Fifo) (q : SampleQueue) : Prop := {
  r_wf : wf q;
  r_buffer : samples_ q = buffer f;
  r_dropped : dropped_count_ q = u64 (Z.of_nat (dropped f));
  r_epoch : close_generation_ q = u64 (Z.of_nat (epoch f));
  r_open : closed_ q = negb (is_open f)
}.

Lemma u64_succ z : u64 (u64 z + 1) = u64 (z + 1).
Proof. unfold wrap_u. mod_lia. Qed.

Lemma represents_push f q s :
  represents f q →
  ∃ q', push s q = Ok q' ∧ capacity_ q' = capacity_ q ∧
    represents (fifo_step (Z.to_nat (capacity_ q)) (Push s) f).2 q'.
Proof.
  intros [Hw Hb Hd He Ho]. destruct (push_spec s q Hw) as (q' & Hp & Hw' & Hs & Hc & Hg & Hcl).
  exists q'. split; [done|]. split; [done|]. split; cbn; try congruence.
  destruct Hw as (Hpos & Hlen & _). rewrite Hb in Hlen. unfold push in Hp. rewrite Hb in Hp.
  rewrite length_app. cbn [length].
  destruct (Z.eqb_spec (Z.of_nat (length (buffer f))) (capacity_ q)) as [E|E].
  - destruct (buffer f) as [|x rest] eqn:Eb; [done|]. cbn in Hp. injection Hp as <-. cbn.
    rewrite Hd, u64_succ. f_equal. cbn in E. lia.
  - cbn in Hp. injection Hp as <-. cbn. rewrite Hd. do 2 f_equal. lia.
Qed.

Lemma epoch_eqb f q e :
  represents f q → in_time (Read e) f = true →
  (close_generation_ q =? u64 (Z.of_nat e)) = bool_decide (e = epoch f).
Proof.
  intros HR [He%Nat.leb_le Ht%Z.ltb_lt]%andb_prop. rewrite (r_epoch f q HR).
  case_bool_decide as E; [subst; apply Z.eqb_refl|].
  apply Z.eqb_neq. unfold wrap_u. mod_lia.
Qed.

Lemma represents_read f q e :
  represents f q → in_time (Read e) f = true →
  ∃ o q', step (event_of (Read e)) q = Ok (o, q') ∧ capacity_ q' = capacity_ q ∧
    o = (fifo_step (Z.to_nat (capacity_ q)) (Read e) f).1 ∧
    represents (fifo_step (Z.to_nat (capacity_ q)) (Read e) f).2 q'.
Proof.
  intros HR Ht. pose proof (epoch_eqb f q e HR Ht) as He. pose proof HR as [Hw Hb Hd Hg Ho].
  cbn [event_of step fifo_step]. unfold finish_read, ready. rewrite Ho, He, Hb.
  destruct (is_open f) eqn:Eo; cbn [negb orb andb].
  2: { eexists _, _. split; [done|]. split_and!; done. }
  case_bool_decide as Ee; cbn [negb orb andb].
  2: { eexists _, _. split; [done|]. split_and!; done. }
  destruct (buffer f) as [|s rest] eqn:Eb.
  { rewrite bool_decide_eq_true_2 by done. eexists _, _. split; [done|]. split_and!; done. }
  rewrite bool_decide_eq_false_2 by done. eexists _, _. split; [done|]. split_and!; [done..|].
  destruct Hw as (H1 & H2 & H3 & H4). rewrite Hb in H2. cbn in H2.
  split; cbn; try done. split_and!; cbn; try done. lia.
Qed.

(** One critical section simulates one step of the contract. *)
Lemma step_simulates f q r :
  represents f q → in_time r f = true →
  ∃ o q', step (event_of r) q = Ok (o, q') ∧ capacity_ q' = capacity_ q ∧
    o = (fifo_step (Z.to_nat (capacity_ q)) r f).1 ∧
    represents (fifo_step (Z.to_nat (capacity_ q)) r f).2 q'.
Proof.
  intros HR Ht. destruct r as [s| | |e].
  - destruct (represents_push f q s HR) as (q' & Hp & Hc & HR'). exists None, q'.
    cbn [event_of step]. by rewrite Hp.
  - eexists _, _. split; [done|]. split; [done|]. split; [done|].
    destruct HR as [(H1 & H2 & H3 & H4) Hb Hd He Ho]. split; cbn; try done.
    + split_and!; try done. apply (wrap_u_range 64). lia.
    + rewrite He, u64_succ. f_equal. lia.
  - eexists _, _. split; [done|]. split; [done|]. split; [done|].
    destruct HR as [(H1 & H2 & H3 & H4) Hb Hd He Ho]. split; cbn; try done.
    split_and!; try done. cbn. lia.
  - by apply represents_read.
Qed.

Lemma run_simulates capacity rs f q :
  capacity_ q = Z.of_nat capacity → represents f q → all_in_time capacity rs f = true →
  ∃ q', queue_run (event_of <$> rs) q = Ok ((fifo_run capacity rs f).1, q') ∧
    represents (fifo_run capacity rs f).2 q'.
Proof.
  revert f q. induction rs as [|r rs IH]; intros f q Hc HR Ht; [by exists q|].
  cbn [all_in_time] in Ht. apply andb_prop in Ht as [Hr Ht].
  destruct (step_simulates f q r HR Hr) as (o & q1 & Hs & Hc1 & Ho & HR1).
  rewrite Hc, Nat2Z.id in Ho, HR1. cbn [fmap list_fmap queue_run fifo_run]. rewrite Hs.
  destruct (fifo_step capacity r f) as [o' f1]. cbn in Ho, HR1, Ht |- *. subst o'.
  destruct (IH f1 q1) as (q2 & Hq & HR2); [congruence|done..|]. rewrite Hq.
  destruct (fifo_run capacity rs f1) as [os f2]. cbn in *. eauto.
Qed.

(** ** Sleeping readers *)

(** The queue with its condition variable: the readers asleep in [wait_for] and those
    woken that have not relocked yet, by their generations, and the calls of
    [notify_one] and [notify_all] that are still to come after their critical section. *)
Record Waiters := { queue : SampleQueue; asleep : list Z; woken : list Z; ones : nat; alls : nat }.

#[global] Instance Waiters_eta : Eta Waiters := λ r,
  {| queue := queue r; asleep := asleep r; woken := woken r; ones := ones r; alls := alls r |}.

(** Source: bindings/python/sample_queue.cpp:14-65, [SampleQueue::push] and
    [SampleQueue::read_for_locked], with lines 72-86, [SampleQueue::close] and
    [SampleQueue::reset], as steps of concurrent threads. *)
Inductive wait_step : Waiters → Waiters → Prop :=
  | w_push w s q : push s (queue w) = Ok q →
      wait_step w (w <| queue := q |> <| ones ::= S |>)
  | w_notify_one w n g rest : ones w = S n → asleep w ≡ₚ g :: rest →
      wait_step w (w <| ones := n |> <| asleep := rest |> <| woken ::= λ l, g :: l |>)
  | w_notify_none w n : ones w = S n → asleep w = [] → wait_step w (w <| ones := n |>)
  | w_close w : wait_step w (w <| queue ::= close |> <| alls ::= S |>)
  | w_notify_all w n : alls w = S n →
      wait_step w (w <| alls := n |> <| asleep := [] |> <| woken ::= λ l, asleep w ++ l |>)
  | w_reset w : wait_step w (w <| queue ::= reset |>)
  (* a reader that has just locked, or was woken and has relocked: it finishes or sleeps *)
  | w_arrive_finish w g r q : ready g (queue w) = true → finish_read true g (queue w) = Ok (r, q) →
      wait_step w (w <| queue := q |>)
  | w_arrive_sleep w g : ready g (queue w) = false → wait_step w (w <| asleep ::= λ l, g :: l |>)
  | w_woken_finish w g rest r q : woken w ≡ₚ g :: rest → ready g (queue w) = true →
      finish_read true g (queue w) = Ok (r, q) →
      wait_step w (w <| queue := q |> <| woken := rest |>)
  | w_woken_sleep w g rest : woken w ≡ₚ g :: rest → ready g (queue w) = false →
      wait_step w (w <| woken := rest |> <| asleep ::= λ l, g :: l |>)
  (* the deadline passes, asleep or woken: the predicate is evaluated once more *)
  | w_timeout w g rest r q : asleep w ≡ₚ g :: rest →
      finish_read (ready g (queue w)) g (queue w) = Ok (r, q) →
      wait_step w (w <| queue := q |> <| asleep := rest |>)
  | w_woken_timeout w g rest : woken w ≡ₚ g :: rest → ready g (queue w) = false →
      wait_step w (w <| woken := rest |>)
  | w_spurious w g rest : asleep w ≡ₚ g :: rest →
      wait_step w (w <| asleep := rest |> <| woken ::= λ l, g :: l |>).

Definition waiters_start (q : SampleQueue) : Waiters :=
  {| queue := q; asleep := []; woken := []; ones := 0; alls := 0 |}.

Definition waiters_occur (q : SampleQueue) (w : Waiters) : Prop :=
  rtc wait_step (waiters_start q) w.

(** The woken readers that may take a sample. *)
Definition current (q : SampleQueue) (l : list Z) : nat :=
  length (List.filter (λ g, close_generation_ q =? g) l).

#[local] Arguments current : simpl never.

(** As long as no [notify_all] is due, the sleepers are of the current generation of an
    open queue, and for every sample a reader was woken or a [notify_one] is due. *)
Definition covered (w : Waiters) : Prop :=
  asleep w ≠ [] → alls w = 0%nat →
  (∀ g, g ∈ asleep w → close_generation_ (queue w) = g ∧ closed_ (queue w) = false) ∧
  (length (samples_ (queue w)) ≤ current (queue w) (woken w) + ones w)%nat.

Definition wait_inv (w : Waiters) : Prop := wf (queue w) ∧ covered w.

Lemma member_not_nil (g : Z) l : g ∈ l → l ≠ [].
Proof. intros H ->. by apply not_elem_of_nil in H. Qed.

Lemma current_perm q l l' : l ≡ₚ l' → current q l = current q l'.
Proof. intros H. unfold current. induction H; cbn; repeat case_match; cbn; lia. Qed.

Lemma current_cons q g l :
  current q (g :: l) = ((if (close_generation_ q =? g)%Z then 1 else 0) + current q l)%nat.
Proof. unfold current. cbn. by destruct (close_generation_ q =? g). Qed.

(** A read changes at most the front of the queue, and only for a current reader. *)
Lemma read_queue b g q r q' :
  wf q → b = ready g q → finish_read b g q = Ok (r, q') →
  wf q' ∧ close_generation_ q' = close_generation_ q ∧ closed_ q' = closed_ q ∧
  (samples_ q' = samples_ q ∨
   close_generation_ q = g ∧ S (length (samples_ q')) = length (samples_ q)).
Proof.
  intros Hw Hb H. destruct (finish_read_spec b g q Hw Hb) as (r1 & q1 & E & Hw1 & Hr).
  rewrite E in H. injection H as <- <-. split; [done|]. destruct (status r1).
  - destruct Hr as (s & rest & _ & Es & -> & Hc & Hg). cbn. rewrite Es. cbn. auto.
  - destruct Hr as (_ & -> & _). auto.
  - destruct Hr as (_ & -> & _). auto.
Qed.

(** A ready reader that leaves the samples alone is not of the current generation of an
    open queue. *)
Lemma read_takes g q r q' :
  wf q → ready g q = true → finish_read true g q = Ok (r, q') →
  close_generation_ q = g → closed_ q = false → S (length (samples_ q')) = length (samples_ q).
Proof.
  intros Hw Hr H Hg Hc. destruct (finish_read_spec true g q Hw (eq_sym Hr)) as (r1 & q1 & E & _ & Hs).
  rewrite E in H. injection H as <- <-. destruct (status r1).
  - destruct Hs as (s & rest & _ & Es & -> & _). by rewrite Es.
  - by destruct Hs as (_ & _ & ?).
  - destruct Hs as (_ & _ & [?|?]); congruence.
Qed.

Lemma not_ready g q :
  ready g q = false → closed_ q = false ∧ close_generation_ q = g ∧ samples_ q = [].
Proof.
  unfold ready. intros [[H1 H2%negb_false_iff%Z.eqb_eq]%orb_false_iff H3%negb_false_iff]%orb_false_iff.
  by apply bool_decide_eq_true in H3.
Qed.

(** Sleeping on an empty queue. *)
Lemma covered_sleep w w' g :
  covered w → ready g (queue w) = false → queue w' = queue w → alls w' = alls w →
  asleep w' = g :: asleep w → covered w'.
Proof.
  intros HC Hr Eq Ea Es _ Hal. apply not_ready in Hr as (Hc & Hg & Hs).
  rewrite Eq, Hs. split; [|cbn; lia]. intros g' Hg'. rewrite Es in Hg'.
  apply elem_of_cons in Hg' as [->|Hg']; [done|]. apply HC; [by eapply member_not_nil|congruence|done].
Qed.

(** Readers leave the sleepers, and samples, woken readers and notifications balance. *)
Lemma covered_mono w w' :
  covered w → closed_ (queue w') = closed_ (queue w) →
  close_generation_ (queue w') = close_generation_ (queue w) →
  (∀ g, g ∈ asleep w' → g ∈ asleep w) → alls w' = alls w →
  (asleep w ≠ [] → alls w = 0%nat →
   closed_ (queue w) = false → (∀ g, g ∈ asleep w → close_generation_ (queue w) = g) →
   (length (samples_ (queue w')) + current (queue w) (woken w) + ones w ≤
    length (samples_ (queue w)) + current (queue w') (woken w') + ones w')%nat) →
  covered w'.
Proof.
  intros HC Ec Eg Hs Ea Hn Hne Hal. destruct (asleep w') as [|g l] eqn:El; [done|].
  assert (asleep w ≠ []) as Hw by (eapply member_not_nil, (Hs g); left).
  rewrite Ea in Hal. destruct (HC Hw Hal) as [H1 H2].
  assert (closed_ (queue w) = false) as Hcl by (apply (H1 g), Hs; left).
  specialize (Hn Hw Hal Hcl (λ g' Hg', proj1 (H1 g' Hg'))). split; [|lia].
  intros g' Hg'. rewrite Eg, Ec. by apply H1, Hs.
Qed.

Lemma current_gen q q' l :
  close_generation_ q' = close_generation_ q → current q' l = current q l.
Proof. intros E. unfold current. by rewrite E. Qed.

Lemma push_length s q q' :
  push s q = Ok q' → (length (samples_ q') ≤ S (length (samples_ q)))%nat.
Proof.
  unfold push. case_match; [destruct (samples_ q) as [|x rest] eqn:E; [done|]|];
    cbn; intros [= <-]; cbn; rewrite length_app; cbn; lia.
Qed.

Lemma perm_sub {g rest} {l : list Z} : l ≡ₚ g :: rest → ∀ g', g' ∈ rest → g' ∈ l.
Proof. intros H g' Hg. rewrite H. by right. Qed.

Lemma wait_step_inv w w' : wait_step w w' → wait_inv w → wait_inv w'.
Proof.
  intros Hs [Hw HC]. destruct Hs as [w s q Hp|w n g rest Ho Ha|w n Ho Ha|w|w n Ha|w
    |w g r q Hr Hf|w g Hr|w g rest r q Hk Hr Hf|w g rest Hk Hr|w g rest r q Ha Hf
    |w g rest Hk Hr|w g rest Ha].
  - destruct (push_spec s _ Hw) as (q' & Hp' & Hw' & _ & _ & Hg & Hcl).
    rewrite Hp in Hp'. injection Hp' as <-. split; [done|].
    apply (covered_mono w); try done. intros _ _ _ _. cbn.
    rewrite (current_gen _ _ _ Hg). apply push_length in Hp. cbn. lia.
  - split; [done|]. apply (covered_mono w); try done; [apply (perm_sub Ha)|].
    intros _ _ _ Hg. cbn. rewrite current_cons, Ho.
    rewrite (Hg g), Z.eqb_refl by (rewrite Ha; by left). lia.
  - split; [done|]. intros Hne. by destruct Hne.
  - split; [|by intros _]. destruct Hw as (H1 & H2 & H3 & H4).
    split_and!; try done. apply (wrap_u_range 64). lia.
  - split; [done|]. intros Hne. by destruct Hne.
  - split; [destruct Hw as (H1 & H2 & H3 & H4); split_and!; try done; cbn; lia|].
    intros Hne Hal. cbn. split; [|lia]. intros g Hg. split; [|done]. by apply (HC Hne Hal).
  - destruct (read_queue _ _ _ _ _ Hw (eq_sym Hr) Hf) as (Hw' & Hg & Hc & Hl). split; [done|].
    apply (covered_mono w); try done. intros _ _ _ _. cbn.
    rewrite (current_gen _ _ _ Hg). destruct Hl as [Hl|[_ Hl]]; [rewrite Hl|]; cbn; lia.
  - split; [done|]. by apply (covered_sleep w _ g).
  - destruct (read_queue _ _ _ _ _ Hw (eq_sym Hr) Hf) as (Hw' & Hg & Hc & Hl). split; [done|].
    apply (covered_mono w); try done. intros _ _ Hcl _. cbn.
    rewrite (current_gen _ _ _ Hg), (current_perm _ _ _ Hk), current_cons.
    pose proof (read_takes _ _ _ _ Hw Hr Hf) as Ht.
    destruct (Z.eqb_spec (close_generation_ (queue w)) g) as [E|E].
    + specialize (Ht E Hcl). cbn. lia.
    + destruct Hl as [Hl|[? _]]; [rewrite Hl; cbn; lia|done].
  - split; [done|]. by apply (covered_sleep w _ g).
  - destruct (read_queue _ _ _ _ _ Hw eq_refl Hf) as (Hw' & Hg & Hc & Hl). split; [done|].
    apply (covered_mono w); try done; [apply (perm_sub Ha)|]. intros _ _ _ _. cbn.
    rewrite (current_gen _ _ _ Hg). destruct Hl as [Hl|[_ Hl]]; [rewrite Hl|]; cbn; lia.
  - split; [done|]. intros Hne Hal. destruct (HC Hne Hal) as [H1 H2]. split; [done|].
    apply not_ready in Hr as (_ & _ & Hr). cbn. rewrite Hr. cbn. lia.
  - split; [done|]. apply (covered_mono w); try done; [apply (perm_sub Ha)|].
    intros _ _ _ _. cbn. rewrite current_cons. case_match; cbn; lia.
Qed.

Lemma waiters_inv q w : wf q → waiters_occur q w → wait_inv w.
Proof.
  intros Hw. revert w. apply rtc_ind_r; [split; [done|by intros Hne]|].
  intros w w' _ Hs HI. by eapply wait_step_inv.
Qed.

(** ** Properties *)

(** C10: The queue refines a bounded FIFO with unbounded counters. For every sequence of
    pushes, closes, resets and reads, no read being [2^64] or more closes late, the queue
    built by the constructor returns exactly what the FIFO of the same capacity returns,
    call by call, and never fails; its samples are the FIFO's, and its drop count is the
    FIFO's modulo [2^64]. *)
Theorem queue_refines_fifo capacity rs q :
  is_u 64 capacity → make capacity = Ok q →
  all_in_time (Z.to_nat capacity) rs empty_fifo = true →
  let '(os, f) := fifo_run (Z.to_nat capacity) rs empty_fifo in
  ∃ q', queue_run (event_of <$> rs) q = Ok (os, q') ∧ samples_ q' = buffer f ∧
    dropped_count q' = u64 (Z.of_nat (dropped f)).
Proof.
  intros Hcap Hm Ht. destruct (make_wf _ _ Hcap Hm) as (Hw & Hq & Hs & Hd & Hg & Hc).
  destruct (run_simulates (Z.to_nat capacity) rs empty_fifo q) as (q' & Hr & HR); [|by split|done|].
  { rewrite Hq. cbn. unfold is_u in Hcap. lia. }
  destruct (fifo_run _ rs empty_fifo) as [os f]. exists q'. split_and!; [done|apply HR..].
Qed.

(** C20: No reader sleeps through a sample or a close. Whatever the order in which the
    critical sections, the notifications after them, wake-ups and time-outs of any
    number of readers and writers interleave, a reader that sleeps although it could
    return has a notification coming: a [notify_all] or a [notify_one] that is still
    due, or a woken reader of its generation. *)
Theorem no_reader_forgotten q w g :
  wf q → waiters_occur q w → g ∈ asleep w → ready g (queue w) = true →
  alls w ≠ 0%nat ∨ ones w ≠ 0%nat ∨ g ∈ woken w.
Proof.
  intros Hw Ho Hg Hr. destruct (waiters_inv q w Hw Ho) as [_ HC].
  destruct (decide (alls w = 0%nat)) as [Ha|]; [|by left].
  destruct (decide (ones w = 0%nat)) as [Hn|]; [|by right; left]. right; right.
  destruct HC as [H1 H2]; [by eapply member_not_nil|done|].
  destruct (H1 g Hg) as [Eg Ec]. unfold ready in Hr. rewrite Ec, Eg, Z.eqb_refl in Hr. cbn in Hr.
  apply negb_true_iff, bool_decide_eq_false in Hr.
  unfold current in H2. rewrite Hn in H2.
  destruct (List.filter _ (woken w)) as [|g' l] eqn:El.
  { destruct (samples_ (queue w)); [done|cbn in H2; lia]. }
  assert (In g' (g' :: l)) as Hi by (by left). rewrite <- El in Hi.
  apply filter_In in Hi as [Hi E%Z.eqb_eq].
  rewrite <- Eg, E. by apply list_elem_of_In.
Qed.

Definition requests : list Request :=
  [Push (sample_with 1); Push (sample_with 2); Push (sample_with 3); Read 0; Close;
   Read 0; Reset; Read 1; Push (sample_with 4); Read 0; Read 1].

Lemma queue_refines_fifo_witness :
  make 2 = Ok queue2 ∧ ∃ q', queue_run (event_of <$> requests) queue2 =
    Ok ((fifo_run 2 requests empty_fifo).1, q').
Proof.
  split; [reflexivity|].
  pose proof (queue_refines_fifo 2 requests queue2) as H.
  destruct (fifo_run (Z.to_nat 2) requests empty_fifo) as [os f] eqn:E.
  destruct H as (q' & H & _); [vm_compute; split; congruence|reflexivity|by vm_compute|].
  exists q'. rewrite H. vm_compute in E. injection E as <- <-. reflexivity.
Defined.

(** A reader sleeps, a sample is pushed, and its notification is still due. *)
Lemma no_reader_forgotten_witness :
  let w := {| queue := queue2; asleep := [0]; woken := []; ones := 0; alls := 0 |} in
  let q := queue2 <| samples_ := [sample_with 1] |> in
  let w' := w <| queue := q |> <| ones ::= S |> in
  ready 0 (queue w') = true ∧ (alls w' ≠ 0%nat ∨ ones w' ≠ 0%nat ∨ 0 ∈ woken w').
Proof.
  intros w q w'. split; [reflexivity|].
  apply (no_reader_forgotten queue2 w' 0); [exact queue2_wf| |by left|reflexivity].
  eapply rtc_l; [apply (w_arrive_sleep _ 0); reflexivity|].
  eapply rtc_l; [by apply (w_push w (sample_with 1) q)|]. apply rtc_refl.
Defined.

End QueueSpec.
