(* ===== verification/Transport.v ===== *)
(** * UDP transport: core/src/detail/udp_transport.hpp, udp_transport_posix.cpp,
      udp_transport_windows.cpp

    The two implementations of [UdpTransport] over a kernel that is a parameter:
    an [Os] gives one [Reply] per system call, a clock, and keeps the calls made
    and the descriptors the transport has open. [others i] says whether another thread has
    called [shutdown()] before the [i]-th time a [receive] takes [mutex_]. The
    test hook of [receive] is null in the library and is left out. *)

From Stdlib Require Import ZArith Lia Strings.Byte.
From Corelib Require Import SpecFloat.
From stdpp Require Import gmap.
From S2P Require Import Prelude Effects Floats Clock.
Import Fp Clock.

Module Transport.

(** Source: core/src/detail/udp_transport.hpp:22-53, [UdpTransport]. *)
Record UdpTransport := { socket_ : Z; shutdown_requested_ : bool }.

(** Source: core/src/detail/udp_transport_posix.cpp:30-30, [kInvalidSocket]. *)
Definition kInvalidSocket : Z := 2 ^ 64 - 1.

(** Source: core/src/detail/udp_transport.hpp:49-50, [UdpTransport]: the member
    initialisers. *)
Definition initial : UdpTransport := {| socket_ := kInvalidSocket; shutdown_requested_ := false |}.

(** ** The kernel *)

(** What one call returns: its result, the thread's error code after it, the
    [revents] of a poll, the value of a socket option, the bytes of a datagram and
    the number of addresses of a resolution. *)
Record Reply := {
  ret : Z; err : Z; revents : Z; value : Z; bytes : list byte; addresses : nat
}.

(** The system calls, with the arguments that matter. *)
Inductive Call :=
  | GetAddrInfo (host service : string)
  | Socket
  | Connect (fd : Z)
  | Send (fd : Z) (data : list byte)
  | Poll (fd : Z) (timeout : Z)
  | GetSockError (fd : Z)
  | Recv (fd : Z) (capacity : Z)
  | Shutdown (fd : Z)
  | Close (fd : Z).

(** [reply n c] answers the [n]-th call when it is [c]; [clock n] is the [n]-th
    reading of the steady clock, which has reached the end of its range by the
    reading [horizon]. *)
Record Os := {
  reply : nat → Call → Reply;
  clock : nat → Z;
  horizon : nat;
  new_descriptor : gset Z → Z;
  error_text : Z → string;
  trace : list Call;
  readings : nat;
  descriptors : gset Z
}.

(** The transport object and the kernel it talks to. *)
Record Link := { tr : UdpTransport; os : Os }.

#[global] Instance UdpTransport_eta : Eta UdpTransport := λ r,
  {| socket_ := socket_ r; shutdown_requested_ := shutdown_requested_ r |}.
#[global] Instance Os_eta : Eta Os := λ r,
  {| reply := reply r; clock := clock r; horizon := horizon r; new_descriptor := new_descriptor r;
     error_text := error_text r; trace := trace r; readings := readings r;
     descriptors := descriptors r |}.
#[global] Instance Link_eta : Eta Link := λ r, {| tr := tr r; os := os r |}.

(** The next reply of the kernel. *)
Definition system_call (c : Call) : M Link Reply := λ l,
  Some (Ok (reply (os l) (length (trace (os l))) c),
        l <| os ::= λ o, o <| trace ::= λ t, t ++ [c] |> |>).

(** [std::chrono::steady_clock::now]. *)
Definition now : M Link Z := λ l,
  Some (Ok (clock (os l) (readings (os l))), l <| os ::= λ o, o <| readings ::= S |> |>).

(** [::socket]: a fresh descriptor, or a negative result and an error code. *)
Definition sys_socket : M Link (Z + Z) :=
  r ← system_call Socket;
  if ret r <? 0 then mret (inr (err r))
  else
    l ← get;
    let fd := new_descriptor (os l) (descriptors (os l)) in
    _ ← modify (λ l, l <| os ::= λ o, o <| descriptors ::= λ d, {[fd]} ∪ d |> |>);
    mret (inl fd).

(** [::close] and [::closesocket]. Closing a descriptor the transport does not own
    (a double close) would close somebody else's; it is undefined in the model. *)
Definition sys_close (fd : Z) : M Link () :=
  _ ← system_call (Close fd);
  l ← get;
  if bool_decide (fd ∈ descriptors (os l))
  then modify (λ l, l <| os ::= λ o, o <| descriptors ::= λ d, d ∖ {[fd]} |> |>)
  else lift UB.

(** [::recv] on a datagram socket fills at most [capacity] bytes. *)
Definition sys_recv (fd capacity : Z) : M Link (list byte + Z) :=
  r ← system_call (Recv fd capacity);
  if ret r <? 0 then mret (inr (err r)) else mret (inl (take (Z.to_nat capacity) (bytes r))).

(** ** What the implementations share *)

Definition int_max : Z := 2 ^ 31 - 1.

(** Source: core/src/detail/udp_transport_posix.cpp:22-28, [timeout_milliseconds]
    (the same text is udp_transport_windows.cpp:32-38). *)
Definition timeout_milliseconds (timeout : double) : Res Z :=
  let milliseconds := sf_ceil 53 1024 (d_mul timeout (d_of_Z 1000)) in
  if SFleb (d_of_Z int_max) milliseconds then Ok int_max
  else sf_to_i 32 milliseconds.

(** Source: core/src/detail/udp_transport_posix.cpp:154-160, [UdpTransport::shutdown]. *)
Definition shutdown : M Link () :=
  _ ← modify (λ l, l <| tr ::= λ t, t <| shutdown_requested_ := true |> |>);
  l ← get;
  if negb (socket_ (tr l) =? kInvalidSocket) 
  then _ ← system_call (Shutdown (socket_ (tr l))); mret () else mret ().

(** Source: core/src/detail/udp_transport_posix.cpp:162-169, [UdpTransport::close]. *)
Definition close : M Link () :=
  _ ← modify (λ l, l <| tr ::= λ t, t <| shutdown_requested_ := true |> |>);
  l ← get;
  if negb (socket_ (tr l) =? kInvalidSocket)
  then
    _ ← sys_close (socket_ (tr l));
    modify (λ l, l <| tr ::= λ t, t <| socket_ := kInvalidSocket |> |>)
  else mret ().

(** Source: core/src/detail/udp_transport_posix.cpp:69-74, [UdpTransport::connect]:
    the new socket replaces the old one. *)
Definition install (fd : Z) : M Link () :=
  l ← get;
  _ ← (if negb (socket_ (tr l) =? kInvalidSocket) then sys_close (socket_ (tr l)) else mret ());
  modify (λ l, l <| tr := {| socket_ := fd; shutdown_requested_ := false |} |>).

(** The [i]-th acquisition of [mutex_] by a [receive]. *)
Definition lock (others : nat → bool) (i : nat) : M Link UdpTransport :=
  _ ← (if others i then shutdown else mret ());
  l ← get;
  mret (tr l).

(** Source: core/src/detail/udp_transport_posix.cpp:47-61, [UdpTransport::connect]:
    the loop over the resolved addresses; [inl] is the connected socket. *)
Fixpoint connect_loop (addresses : nat) (last_error : Z) : M Link (Z + Z) :=
  match addresses with
  | O => mret (inr last_error)
  | S addresses =>
    s ← sys_socket;
    match s with
    | inr error => connect_loop addresses error
    | inl fd =>
      r ← system_call (Connect fd);
      if ret r =? 0 then mret (inl fd)
      else
        _ ← sys_close fd;
        connect_loop addresses (err r)
    end
  end.

(** ** The interface the client uses *)

Class UdpTransportOps := {
  t_connect : string → Z → M Link ();
  t_send : list byte → M Link ();
  t_receive : nat → Z → double → (nat → bool) → M Link (list byte)
}.

(** ** POSIX *)

Module Posix.

Section posix.
Context `{P : Platform}.

(** Source: core/src/detail/udp_transport_posix.cpp:18-20, [socket_error]. *)
Definition socket_error {A} (operation : string) (errno : Z) : M Link A :=
  l ← get;
  m_throw runtime_error (operation +:+ ": " +:+ error_text (os l) errno).

(** Source: core/src/detail/udp_transport_posix.cpp:36-75, [UdpTransport::connect]. *)
Definition connect (host : string) (port : Z) : M Link () :=
  result ← system_call (GetAddrInfo (c_str host) (c_str (pretty port)));
  l ← get;
  if negb (ret result =? 0)
  then m_throw runtime_error ("failed to resolve sensor: " +:+ error_text (os l) (ret result))
  else
    connected_socket ← connect_loop (addresses result) 0;
    match connected_socket with
    | inr last_error => socket_error "failed to connect UDP socket" last_error
    | inl fd => install fd
    end.

(** Source: core/src/detail/udp_transport_posix.cpp:77-89, [UdpTransport::send]. *)
Definition send (request : list byte) : M Link () :=
  l ← get;
  if socket_ (tr l) =? kInvalidSocket
  then m_throw runtime_error "UDP socket is not connected"
  else
    sent ← system_call (Send (socket_ (tr l)) request);
    if ret sent <? 0 then socket_error "failed to send UDP request" (err sent)
    else if negb (ret sent =? Z.of_nat (length request))
    then m_throw runtime_error "short UDP request write"
    else mret ().

Definition EINTR : Z := 4.
Definition POLLNVAL : Z := 32.

(** Source: core/src/detail/udp_transport_posix.cpp:116-130, [UdpTransport::receive]:
    the wait; [None] is the early return of 0. *)
Fixpoint poll_loop (fuel : nat) (socket deadline : Z) (remaining : double)
    : M Link (option Reply) :=
  match fuel with
  | O => out_of_fuel
  | S fuel =>
    timeout ← lift (timeout_milliseconds remaining);
    poll ← system_call (Poll socket timeout);
    if 0 <=? ret poll then mret (Some poll)
    else if negb (err poll =? EINTR) then socket_error "failed to wait for UDP record" (err poll)
    else
      t ← now;
      if deadline <=? t then mret None
      else poll_loop fuel socket deadline (seconds_of_ticks (deadline - t))
  end.

(** Source: core/src/detail/udp_transport_posix.cpp:91-152, [UdpTransport::receive]. *)
Definition receive (fuel : nat) (capacity : Z) (timeout : double) (others : nat → bool)
    : M Link (list byte) :=
  t ← lock others 0;
  if socket_ t =? kInvalidSocket
  then m_throw runtime_error "UDP socket is not connected"
  else if shutdown_requested_ t then mret []
  else
    let socket := socket_ t in
    start ← now;
    deadline ← lift (checked_deadline start timeout);
    polled ← poll_loop fuel socket deadline timeout;
    match polled with
    | None => mret []
    | Some poll =>
      if ret poll =? 0 then mret []
      else
        t ← lock others 1;
        if shutdown_requested_ t then mret []
        else if negb (Z.land (revents poll) POLLNVAL =? 0)
        then m_throw runtime_error "UDP socket became invalid"
        else
          received ← sys_recv socket capacity;
          match received with
          | inl data => mret data
          | inr error =>
            if error =? EINTR then mret []
            else socket_error "failed to receive UDP record" error
          end
    end.

End posix.

#[export] Instance ops `{P : Platform} : UdpTransportOps :=
  {| t_connect := connect; t_send := send; t_receive := receive |}.

End Posix.

(** ** Windows *)

Module Windows.

Section windows.
Context `{P : Platform}.

Definition WSAEINTR : Z := 10004.
Definition WSAENOTSOCK : Z := 10038.
Definition WSAECONNRESET : Z := 10054.
Definition WSAESHUTDOWN : Z := 10058.
Definition WSAEHOSTUNREACH : Z := 10065.
Definition POLLERR : Z := 1.
Definition POLLHUP : Z := 2.
Definition POLLNVAL : Z := 4.

(** Source: core/src/detail/udp_transport_windows.cpp:23-30, [winsock_error] and
    [last_winsock_error]. *)
Definition winsock_error {A} (operation : string) (error : Z) : M Link A :=
  m_throw runtime_error (operation +:+ " (WinSock error " +:+ pretty error +:+ ")").

(** Source: core/src/detail/udp_transport_windows.cpp:42-56, [socket_wait_error]. *)
Definition socket_wait_error (socket events : Z) : M Link Z :=
  if negb (Z.land events POLLNVAL =? 0) then mret WSAENOTSOCK
  else if negb (Z.land events POLLERR =? 0)
  then
    r ← system_call (GetSockError socket);
    if (ret r =? 0) && negb (value r =? 0) then mret (value r) else mret WSAECONNRESET
  else mret WSAECONNRESET.

(** Source: core/src/detail/udp_transport_windows.cpp:72-110, [UdpTransport::connect]. *)
Definition connect (host : string) (port : Z) : M Link () :=
  result ← system_call (GetAddrInfo (c_str host) (c_str (pretty port)));
  if negb (ret result =? 0) then winsock_error "failed to resolve sensor" (ret result)
  else
    connected_socket ← connect_loop (addresses result) WSAEHOSTUNREACH;
    match connected_socket with
    | inr last_error => winsock_error "failed to connect UDP socket" last_error
    | inl fd => install fd
    end.

(** Source: core/src/detail/udp_transport_windows.cpp:112-125, [UdpTransport::send]. *)
Definition send (request : list byte) : M Link () :=
  l ← get;
  if socket_ (tr l) =? kInvalidSocket
  then m_throw runtime_error "UDP socket is not connected"
  else
    sent ← system_call (Send (socket_ (tr l)) request);
    if ret sent =? -1 then winsock_error "failed to send UDP request" (err sent)
    else if negb (ret sent =? Z.of_nat (length request))
    then m_throw runtime_error "short UDP request write"
    else mret ().

(** Source: core/src/detail/udp_transport_windows.cpp:152-154, [UdpTransport::receive]:
    the slice of the wait. *)
Definition kShutdownCheckIntervalMilliseconds : Z := 50.
Definition kShutdownCheckInterval : double := d_div (d_of_Z 50) (d_of_Z 1000).

(** Source: core/src/detail/udp_transport_windows.cpp:155-186, [UdpTransport::receive]:
    the wait in slices; [None] is an early return of 0. A result comes with the
    number of times the mutex was taken. *)
Fixpoint poll_loop (fuel : nat) (others : nat → bool) (i : nat) (socket deadline : Z)
    : M Link (option (Reply * nat)) :=
  match fuel with
  | O => out_of_fuel
  | S fuel =>
    t ← lock others i;
    if shutdown_requested_ t then mret None
    else
      t ← now;
      remaining ← lift (checked_i 64 (deadline - t));
      let poll_timeout :=
        if 0 <? remaining then d_min (seconds_of_ticks remaining) kShutdownCheckInterval
        else d_of_Z 0 in
      timeout ← lift (timeout_milliseconds poll_timeout);
      poll ← system_call (Poll socket (Z.min kShutdownCheckIntervalMilliseconds timeout));
      if ret poll =? -1
      then
        if err poll =? WSAEINTR then mret None
        else winsock_error "failed to wait for UDP record" (err poll)
      else if 0 <? ret poll then mret (Some (poll, S i))
      else
        t ← now;
        if deadline <=? t then mret None
        else poll_loop fuel others (S i) socket deadline
  end.

(** Source: core/src/detail/udp_transport_windows.cpp:127-216, [UdpTransport::receive]. *)
Definition receive (fuel : nat) (capacity : Z) (timeout : double) (others : nat → bool)
    : M Link (list byte) :=
  t ← lock others 0;
  if socket_ t =? kInvalidSocket
  then m_throw runtime_error "UDP socket is not connected"
  else if shutdown_requested_ t then mret []
  else
    let socket := socket_ t in
    _ ← lift (checked_duration timeout);
    start ← now;
    deadline ← lift (checked_deadline start timeout);
    polled ← poll_loop fuel others 1 socket deadline;
    match polled with
    | None => mret []
    | Some (poll, i) =>
      t ← lock others i;
      if shutdown_requested_ t then mret []
      else if negb (Z.land (revents poll) (Z.lor POLLERR (Z.lor POLLHUP POLLNVAL)) =? 0)
      then
        error ← socket_wait_error socket (revents poll);
        winsock_error "failed to wait for UDP record" error
      else
        received ← sys_recv socket (Z.min capacity int_max);
        match received with
        | inl data => mret data
        | inr error =>
          t ← lock others (S i);
          if shutdown_requested_ t then mret []
          else if (error =? WSAEINTR) || (error =? WSAESHUTDOWN) then mret []
          else winsock_error "failed to receive UDP record" error
        end
    end.

End windows.

#[export] Instance ops `{P : Platform} : UdpTransportOps :=
  {| t_connect := connect; t_send := send; t_receive := receive |}.

End Windows.

(** ** Documented behaviour of the kernel *)

(** A new descriptor is valid and differs from the one the transport may have open
    when it asks for it; it is below 2^31, an [int] of POSIX and a small handle of
    Windows, whose [SOCKET] could be wider; clock readings are nonnegative 64-bit
    counts, never decrease and keep moving. *)
Definition os_ok (o : Os) : Prop :=
  (∀ d, (size d ≤ 1)%nat →
     (new_descriptor o d ∉ d) ∧ (0 ≤ new_descriptor o d < 2 ^ 31)) ∧
  (∀ n, 0 ≤ clock o n ≤ ticks_max) ∧
  (∀ n, clock o n ≤ clock o (S n)) ∧
  ticks_max ≤ clock o (horizon o).

(** The transport owns exactly the descriptor it stores: nothing leaks, and nothing
    is closed twice. *)
Definition owns (l : Link) (extra : gset Z) : Prop :=
  os_ok (os l) ∧
  ((socket_ (tr l) = kInvalidSocket ∧ descriptors (os l) = extra) ∨
   ((0 ≤ socket_ (tr l) < 2 ^ 31) ∧ (socket_ (tr l) ∉ extra) ∧
    descriptors (os l) = {[socket_ (tr l)]} ∪ extra)).

Definition link_ok (l : Link) : Prop := owns l ∅.

(** Interface: what the client may rely on. *)
Class UdpTransportLaws (Ops : UdpTransportOps) := {
  connect_law host port l : link_ok l →
    returns (t_connect host port) l (λ r l',
      link_ok l' ∧
      match r with
      | Ok _ => (0 ≤ socket_ (tr l') < 2 ^ 31) ∧ shutdown_requested_ (tr l') = false
      | Throw e => exn_kind e = runtime_error ∧ tr l' = tr l
      | UB => False
      end);
  send_law request l : link_ok l →
    returns (t_send request) l (λ r l',
      link_ok l' ∧ tr l' = tr l ∧
      match r with
      | Ok _ => socket_ (tr l) ≠ kInvalidSocket
      | Throw e => exn_kind e = runtime_error
      | UB => False
      end);
  receive_law fuel capacity timeout others l : link_ok l → 0 ≤ capacity →
    sf_nonneg timeout = true →
    safe (t_receive fuel capacity timeout others) l (λ r l',
      link_ok l' ∧ socket_ (tr l') = socket_ (tr l) ∧
      match r with
      | Ok data => Z.of_nat (length data) ≤ capacity
      | Throw e => exn_kind e = runtime_error ∨ exn_kind e = invalid_argument
      | UB => False
      end);
  receive_total_law fuel capacity timeout others l : link_ok l → sf_nonneg timeout = true →
    (horizon (os l) < fuel)%nat →
    returns (t_receive fuel capacity timeout others) l (λ _ _, True);
  receive_shutdown_law fuel capacity timeout others l :
    link_ok l → shutdown_requested_ (tr l) = true → socket_ (tr l) ≠ kInvalidSocket →
    returns (t_receive fuel capacity timeout others) l (λ r l', r = Ok [])
}.

(** ** System calls keep the table *)

Lemma owns_same l l' extra :
  owns l extra → tr l' = tr l → descriptors (os l') = descriptors (os l) → os_ok (os l') →
  owns l' extra.
Proof. unfold owns. intros [_ H] -> -> ?. done. Qed.

Lemma owns_system_call c l extra Q :
  owns l extra →
  (∀ r l', owns l' extra → tr l' = tr l → descriptors (os l') = descriptors (os l) →
           Q (Ok r) l') →
  returns (system_call c) l Q.
Proof. intros H HQ. apply HQ; [|done|done]. by eapply owns_same; [done..|apply H]. Qed.

Lemma owns_now l extra Q :
  owns l extra →
  (∀ t l', owns l' extra → tr l' = tr l → 0 ≤ t ≤ ticks_max → Q (Ok t) l') →
  returns now l Q.
Proof.
  intros H HQ. apply HQ; [|done|]; [by eapply owns_same; [done..|apply H]|].
  by destruct H as ((_ & Hc & _) & _).
Qed.

(** The next system call or clock reading of the goal. *)
Ltac sys_step :=
  first [eapply owns_system_call; [eassumption|] | eapply owns_now; [eassumption|]].

Lemma owns_sys_socket l Q :
  link_ok l →
  (∀ l' e, link_ok l' → tr l' = tr l → Q (Ok (inr e)) l') →
  (∀ l' fd, owns l' {[fd]} → 0 ≤ fd < 2 ^ 31 → tr l' = tr l → Q (Ok (inl fd)) l') →
  returns sys_socket l Q.
Proof.
  intros H Hr Hl. unfold sys_socket. m_step. eapply owns_system_call; [exact H|].
  intros r l1 H1 Et _. simpl. case_match; [m_step; auto|]. do 5 m_step.
  pose proof H1 as [Hok Ho].
  assert (Hsz : (size (descriptors (os l1)) ≤ 1)%nat).
  { destruct Ho as [[_ ->]|(_ & _ & ->)]; [by rewrite size_empty; lia|].
    by rewrite union_empty_r_L, size_singleton. }
  destruct (proj1 Hok (descriptors (os l1)) Hsz) as [Hf Hr'].
  set (fd := new_descriptor (os l1) (descriptors (os l1))) in *.
  apply Hl; [|done|done]. split; [done|]. simpl. destruct Ho as [[E D]|(R & N & D)].
  - left. split; [done|]. set_solver.
  - right. split; [done|]. split; set_solver.
Qed.

Lemma owns_sys_close fd l extra Q :
  owns l ({[fd]} ∪ extra) → fd ∉ extra →
  (∀ l', owns l' extra → tr l' = tr l → Q (Ok ()) l') →
  returns (sys_close fd) l Q.
Proof.
  intros H Hn HQ. unfold sys_close. m_step. sys_step. intros r l1 [Hok H1] Et _. simpl.
  do 2 m_step. rewrite bool_decide_true.
  2: { destruct H1 as [[_ ->]|(_ & _ & ->)]; set_solver. }
  m_step. apply HQ; [|done]. split; [done|]. simpl.
  destruct H1 as [[E D]|(R & N & D)]; [left|right]; (split; [done|]); set_solver.
Qed.

(** Closing the stored socket, which then has to be replaced. *)
Lemma close_stored_socket l extra Q :
  owns l extra → socket_ (tr l) ≠ kInvalidSocket →
  (∀ l', os_ok (os l') → descriptors (os l') = extra → tr l' = tr l → Q (Ok ()) l') →
  returns (sys_close (socket_ (tr l))) l Q.
Proof.
  intros H Hne HQ. unfold sys_close. m_step. sys_step. intros r l1 [Hok H1] Et _. simpl.
  do 2 m_step. destruct H1 as [[E _]|(R & N & D)]; [congruence|]. rewrite Et in *.
  rewrite bool_decide_true by set_solver. m_step. apply HQ; [done| |done]. simpl. set_solver.
Qed.

Lemma owns_install fd l Q :
  owns l {[fd]} → 0 ≤ fd < 2 ^ 31 →
  (∀ l', link_ok l' → tr l' = {| socket_ := fd; shutdown_requested_ := false |} → Q (Ok ()) l') →
  returns (install fd) l Q.
Proof.
  intros H Hr HQ. unfold install. do 2 m_step.
  assert (Hfin : ∀ l', os_ok (os l') → descriptors (os l') = {[fd]} →
    Q (Ok ()) (l' <| tr := {| socket_ := fd; shutdown_requested_ := false |} |>)).
  { intros l' Hok Hd. apply HQ; [|done]. split; [done|]. right. simpl.
    split; [done|]. split; set_solver. }
  destruct (Z.eqb_spec (socket_ (tr l)) kInvalidSocket) as [E|E]; simpl.
  - do 3 m_step. destruct H as [Hok [[_ D]|(R & _)]]; [by apply Hfin|].
    unfold kInvalidSocket in E. lia.
  - m_step. eapply close_stored_socket; [done..|]. intros l' Hok Hd Et. m_step. by apply Hfin.
Qed.

Lemma connect_loop_spec n e l Q :
  link_ok l →
  (∀ l' e', link_ok l' → tr l' = tr l → Q (Ok (inr e')) l') →
  (∀ l' fd, owns l' {[fd]} → 0 ≤ fd < 2 ^ 31 → tr l' = tr l → Q (Ok (inl fd)) l') →
  returns (connect_loop n e) l Q.
Proof.
  intros H Hr Hl. revert e l H Hr Hl. induction n as [|n IH]; intros e l H Hr Hl; simpl.
  { m_step. by apply Hr. }
  m_step. eapply owns_sys_socket; [done| |].
  - intros l1 e1 H1 E1. apply IH; [done|..]; rewrite E1; auto.
  - intros l1 fd H1 Hfd E1. m_step. sys_step.
    intros r l2 H2 E2 _. case_match.
    + m_step. apply Hl; congruence.
    + m_step. apply owns_sys_close with (extra := ∅); [by rewrite union_empty_r_L|apply not_elem_of_empty|].
      intros l3 H3 E3. apply IH; [done|..]; rewrite E3, E2, E1; auto.
Qed.

(** ** Timeouts *)

(** A nonnegative timeout is rounded up to a count of milliseconds that fits
    [int], infinities included. *)
Lemma timeout_milliseconds_ok x :
  sf_nonneg x = true → ∃ z, timeout_milliseconds x = Ok z ∧ 0 ≤ z ≤ int_max.
Proof.
  intros Hx.
  assert (∃ m e, d_of_Z 1000 = S754_finite false m e) as (m & e & E1000)
    by (eexists _, _; vm_compute; reflexivity).
  assert (∃ p E, d_of_Z int_max = S754_finite false p E ∧ 2 ^ (53 - 1) ≤ Zpos p ∧
            Z.shiftl (Zpos p) E = int_max) as (p & E & Emax & Hp & HE)
    by (eexists _, _; split; [vm_compute; reflexivity|]; split; [done|by vm_compute]).
  unfold timeout_milliseconds. rewrite Emax. set (y := sf_ceil 53 1024 _).
  assert (Hy : sf_nonneg y = true).
  { unfold y. apply sf_ceil_nonneg; [done|]. rewrite E1000. by apply SFmul_nonneg_pos. }
  destruct (SFleb (S754_finite false p E) y) eqn:Hle.
  { exists int_max. done. }
  destruct (trunc_under 53 y p E) as (z & Hz & Hr); [done| | |done|done| |].
  - by destruct y as [|[]| |[]].
  - by destruct y as [|[]| |[]].
  - intros s m' e' Ey. by eapply (sf_ceil_digits 53 1024).
  - exists z. unfold sf_to_i. rewrite Hz. rewrite HE in Hr. split; [|done].
    clear -Hr. apply checked_i_ok. unfold is_i, int_max in *. lia.
Qed.

(** ** Operations shared by both implementations *)

Lemma shutdown_spec l :
  link_ok l →
  returns shutdown l (λ r l', r = Ok () ∧ link_ok l' ∧
    tr l' = (tr l) <| shutdown_requested_ := true |>).
Proof.
  intros H. unfold shutdown. do 4 m_step.
  assert (Hl : link_ok (l <| tr ::= λ t, t <| shutdown_requested_ := true |> |>)) by apply H.
  case_match; [|by m_step].
  m_step. eapply owns_system_call; [exact Hl|]. intros r l' H1 E1 _. by m_step.
Qed.

Lemma close_spec l :
  link_ok l →
  returns close l (λ r l', r = Ok () ∧ link_ok l' ∧ descriptors (os l') = ∅ ∧
    tr l' = {| socket_ := kInvalidSocket; shutdown_requested_ := true |}).
Proof.
  intros H. unfold close. do 4 m_step.
  set (l1 := l <| tr ::= λ t, t <| shutdown_requested_ := true |> |>).
  assert (H1 : link_ok l1) by apply H.
  assert (Hs : shutdown_requested_ (tr l1) = true) by done. clearbody l1.
  destruct (Z.eqb_spec (socket_ (tr l1)) kInvalidSocket) as [E|E]; cbn [negb].
  - m_step. split; [done|]. split; [done|]. destruct H1 as [Hok [[_ D]|(R & _)]].
    + split; [done|]. destruct (tr l1); simpl in *. by subst.
    + unfold kInvalidSocket in E. lia.
  - m_step. apply (close_stored_socket l1 ∅); [done..|].
    intros l' Hok Hd Et. m_step. split; [done|]. split; [split; [done|by left]|].
    split; [done|]. simpl. by rewrite Et, Hs.
Qed.

(** Taking the mutex: another thread's [shutdown] may have happened before. *)
Lemma lock_spec others i l Q :
  link_ok l →
  (∀ l', link_ok l' → socket_ (tr l') = socket_ (tr l) →
     (shutdown_requested_ (tr l) = true → shutdown_requested_ (tr l') = true) →
     (others i = true → shutdown_requested_ (tr l') = true) →
     Q (Ok (tr l')) l') →
  returns (lock others i) l Q.
Proof.
  intros H HQ. unfold lock. m_step. destruct (others i).
  - eapply returns_mono; [by apply shutdown_spec|]. intros r l' (-> & H1 & E). do 3 m_step.
    apply HQ; rewrite ?E; done.
  - do 4 m_step. by apply HQ.
Qed.

(** [checked_deadline] on a clock reading: a deadline in range or an exception. *)
Lemma deadline_outcome `{P : Platform} start timeout :
  0 ≤ start ≤ ticks_max →
  match checked_deadline start timeout with
  | Ok d => start ≤ d ≤ ticks_max
  | Throw e => exn_kind e = invalid_argument
  | UB => False
  end.
Proof.
  intros Ho. destruct (checked_deadline_cases start timeout Ho) as [(t & _ & -> & Ht)|[msg ->]];
    [done|done].
Qed.

(** ** The implementations satisfy the interface *)

(** The outcome of a receiving step. *)
Definition receive_post {A} (l : Link) (ok : A → Prop) (r : Res A) (l' : Link) : Prop :=
  link_ok l' ∧ socket_ (tr l') = socket_ (tr l) ∧
  match r with
  | Ok a => ok a
  | Throw e => exn_kind e = runtime_error ∨ exn_kind e = invalid_argument
  | UB => False
  end.

Lemma sys_recv_spec fd capacity l :
  link_ok l → 0 ≤ capacity →
  returns (sys_recv fd capacity) l (λ r l', link_ok l' ∧ tr l' = tr l ∧
    match r with
    | Ok (inl data) => Z.of_nat (length data) ≤ capacity
    | Ok (inr _) => True
    | _ => False
    end).
Proof.
  intros H Hc. unfold sys_recv. m_step. eapply owns_system_call; [exact H|].
  intros r l' H1 E _. case_match; m_step; [done|]. split; [done|]. split; [done|].
  rewrite length_take. lia.
Qed.

Section laws.
Context `{P : Platform}.

Lemma posix_poll_loop_spec fuel socket deadline remaining l :
  link_ok l → deadline ≤ ticks_max → sf_nonneg remaining = true →
  safe (Posix.poll_loop fuel socket deadline remaining) l (receive_post l (λ _, True)).
Proof.
  revert remaining l. induction fuel as [|fuel IH]; intros remaining l H Hd Hr; [done|].
  cbn [Posix.poll_loop]. destruct (timeout_milliseconds_ok remaining Hr) as (z & -> & Hz).
  do 2 m_step. m_step. apply returns_safe. eapply owns_system_call; [exact H|]. intros r l1 H1 E1 _.
  unfold receive_post in *.
  branch; [by m_step; rewrite E1|]. branch.
  { unfold Posix.socket_error. do 3 m_step. rewrite E1. auto. }
  m_step. apply returns_safe. eapply owns_now; [exact H1|]. intros t l2 H2 E2 Ht.
  destruct (Z.leb_spec deadline t); [by m_step; rewrite E2, E1|].
  eapply safe_mono; [apply IH; [done|done|apply seconds_of_ticks_nonneg; lia]|].
  intros r' l3 (H3 & E3 & Hr3). by rewrite E3, E2, E1.
Qed.

Lemma posix_receive_law fuel capacity timeout others l :
  link_ok l → 0 ≤ capacity → sf_nonneg timeout = true →
  safe (Posix.receive fuel capacity timeout others) l
    (receive_post l (λ data, Z.of_nat (length data) ≤ capacity)).
Proof.
  intros H Hc Ht. unfold Posix.receive. m_step. apply returns_safe, lock_spec; [done|].
  intros l1 H1 E1 _ _. unfold receive_post.
  branch; [m_step; auto|]. branch; [by m_step|].
  m_step. apply returns_safe. eapply owns_now; [exact H1|]. intros t l2 H2 E2 Hct. do 2 m_step.
  pose proof (deadline_outcome t timeout Hct) as Hd.
  destruct (checked_deadline t timeout) as [d|e|]; [|rewrite E2, E1; auto|done].
  m_step. eapply safe_mono; [apply posix_poll_loop_spec; [done|lia|done]|].
  intros r l3 (H3 & E3 & Hr). rewrite E2, E1 in E3.
  destruct r as [[poll|]|e|]; [|by m_step|by split_and!|done].
  branch; [by m_step|]. m_step. apply returns_safe, lock_spec; [done|].
  intros l4 H4 E4 _ _. rewrite E3 in E4.
  branch; [by m_step|]. branch; [m_step; auto|].
  m_step. eapply safe_mono; [by apply returns_safe, sys_recv_spec|].
  intros r l5 (H5 & E5 & Hr5). rewrite <-E5 in E4.
  destruct r as [[data|e]| |]; [by m_step| |done..].
  branch; [m_step; done|]. unfold Posix.socket_error. do 3 m_step. auto.
Qed.

Lemma windows_poll_loop_spec fuel others i socket deadline l :
  link_ok l → 0 ≤ deadline ≤ ticks_max →
  safe (Windows.poll_loop fuel others i socket deadline) l (receive_post l (λ _, True)).
Proof.
  revert i l. induction fuel as [|fuel IH]; intros i l H Hd; [done|]. unfold receive_post in *.
  cbn [Windows.poll_loop]. m_step. apply returns_safe, lock_spec; [done|].
  intros l1 H1 E1 _ _. branch; [by m_step|].
  m_step. apply returns_safe. eapply owns_now; [exact H1|]. intros t l2 H2 E2 Ht. do 2 m_step.
  rewrite checked_i_ok by (unfold is_i, ticks_max in *; lia). do 2 m_step.
  set (pt := if 0 <? deadline - t then _ else _).
  assert (Hpt : sf_nonneg pt = true).
  { unfold pt. destruct (Z.ltb_spec 0 (deadline - t)); [|done].
    unfold d_min. destruct (d_lt _ _); [by vm_compute|]. apply seconds_of_ticks_nonneg. lia. }
  destruct (timeout_milliseconds_ok pt Hpt) as (z & -> & Hz).
  m_step. apply returns_safe. eapply owns_system_call; [exact H2|]. intros r l3 H3 E3 _.
  rewrite <-E2, <-E3 in E1.
  branch; [unfold Windows.winsock_error; branch; m_step; auto|].
  branch; [by m_step|].
  m_step. apply returns_safe. eapply owns_now; [exact H3|]. intros t' l4 H4 E4 Ht'.
  rewrite <-E4 in E1. branch; [by m_step|].
  eapply safe_mono; [by apply IH|]. intros r' l5 (H5 & E5 & Hr5). by rewrite E5, E1.
Qed.

Lemma windows_receive_law fuel capacity timeout others l :
  link_ok l → 0 ≤ capacity → sf_nonneg timeout = true →
  safe (Windows.receive fuel capacity timeout others) l
    (receive_post l (λ data, Z.of_nat (length data) ≤ capacity)).
Proof.
  intros H Hc _. unfold Windows.receive, Windows.winsock_error, receive_post.
  m_step. apply returns_safe, lock_spec; [done|].
  intros l1 H1 E1 _ _. branch; [m_step; auto|]. branch; [by m_step|]. do 2 m_step.
  destruct (checked_duration_cases timeout) as [(? & -> & _)|[msg ->]]; [|simpl; auto].
  m_step. apply returns_safe. eapply owns_now; [exact H1|]. intros t l2 H2 E2 Hct. do 2 m_step.
  pose proof (deadline_outcome t timeout Hct) as Hd.
  destruct (checked_deadline t timeout) as [d|e|]; [|rewrite E2, E1; auto|done].
  m_step. eapply safe_mono; [apply windows_poll_loop_spec; [done|lia]|].
  intros r l3 (H3 & E3 & Hr). rewrite E2, E1 in E3.
  destruct r as [[[poll i]|]|e|]; [|by m_step|by split_and!|done].
  m_step. apply returns_safe, lock_spec; [done|]. intros l4 H4 E4 _ _. rewrite E3 in E4.
  branch; [by m_step|]. branch.
  - m_step. unfold Windows.socket_wait_error. branch; [do 2 m_step; auto|].
    branch; [|do 2 m_step; auto].
    m_step. apply returns_safe. eapply owns_system_call; [exact H4|]. intros r l5 H5 E5 _.
    rewrite <-E5 in E4. branch; do 2 m_step; auto.
  - m_step. assert (0 ≤ Z.min capacity int_max) by (unfold int_max; lia).
    eapply safe_mono; [by apply returns_safe, sys_recv_spec|].
    intros r l5 (H5 & E5 & Hr5). rewrite <-E5 in E4.
    destruct r as [[data|e]| |]; [m_step; split_and!; [done..|lia]| |done..].
    m_step. apply returns_safe, lock_spec; [done|]. intros l6 H6 E6 _ _. rewrite E4 in E6.
    branch; [by m_step|]. branch; m_step; auto.
Qed.

(** After a [shutdown()] the next [receive] returns no data without waiting. *)
Lemma receive_shutdown (receive : nat → Z → double → (nat → bool) → M Link (list byte))
    fuel capacity timeout others l k :
  receive fuel capacity timeout others =
    (t ← lock others 0;
     if socket_ t =? kInvalidSocket
     then m_throw runtime_error "UDP socket is not connected"
     else if shutdown_requested_ t then mret [] else k t) →
  link_ok l → shutdown_requested_ (tr l) = true → socket_ (tr l) ≠ kInvalidSocket →
  returns (receive fuel capacity timeout others) l (λ r l', r = Ok []).
Proof.
  intros -> H Hs Hv. m_step. apply lock_spec; [done|]. intros l1 H1 E1 Hs1 _.
  rewrite E1, (proj2 (Z.eqb_neq _ _) Hv), Hs1 by done. by m_step.
Qed.

(** ** Termination of the waits *)

Lemma clock_mono o a b : os_ok o → (a ≤ b)%nat → clock o a ≤ clock o b.
Proof.
  intros (_ & _ & Hm & _) Hab. induction Hab as [|b _ IH]; [lia|]. specialize (Hm b). lia.
Qed.

(** The clock of the second link is the first's, read [k] more times. *)
Definition later (k : nat) (l l' : Link) : Prop :=
  clock (os l') = clock (os l) ∧ readings (os l') = (readings (os l) + k)%nat ∧
  (os_ok (os l) → os_ok (os l')).

Lemma later_system_call c l Q :
  (∀ r l', later 0 l l' → Q (Ok r) l') → returns (system_call c) l Q.
Proof. intros HQ. apply HQ. unfold later. simpl. by rewrite Nat.add_0_r. Qed.

Lemma later_now l Q :
  (∀ l', later 1 l l' → Q (Ok (clock (os l) (readings (os l)))) l') → returns now l Q.
Proof. intros HQ. apply HQ. unfold later. simpl. by rewrite Nat.add_1_r. Qed.

Lemma later_trans a b l1 l2 l3 : later a l1 l2 → later b l2 l3 → later (a + b) l1 l3.
Proof. unfold later. intros (-> & E1 & ?) (-> & -> & ?). rewrite E1. split_and!; [done|lia|auto]. Qed.

Lemma later_lock others i l Q :
  (∀ t l', later 0 l l' → Q (Ok t) l') → returns (lock others i) l Q.
Proof.
  intros HQ. unfold lock. m_step.
  assert (Hk : ∀ l', later 0 l l' → returns (l0 ← get; mret (tr l0)) l' Q)
    by (intros l' Hl; do 3 m_step; by apply HQ).
  assert (Hr : later 0 l l) by (unfold later; by rewrite Nat.add_0_r).
  destruct (others i); [|m_step; by apply Hk].
  unfold shutdown. do 4 m_step.
  set (l1 := l <| tr ::= λ t, t <| shutdown_requested_ := true |> |>).
  assert (H1 : later 0 l l1) by done.
  branch; [|m_step; by apply Hk]. m_step. apply later_system_call. intros r l2 H2. m_step.
  apply Hk. by apply (later_trans 0 0 l l1).
Qed.

Lemma posix_poll_terminates fuel n socket deadline remaining l :
  os_ok (os l) → deadline ≤ clock (os l) n → deadline ≤ ticks_max →
  sf_nonneg remaining = true → (0 < fuel)%nat → (n < readings (os l) + fuel)%nat →
  returns (Posix.poll_loop fuel socket deadline remaining) l (λ _ _, True).
Proof.
  revert remaining l. induction fuel as [|fuel IH]; intros remaining l Hok Hn Hd Hr H0 Hf; [lia|].
  cbn [Posix.poll_loop]. destruct (timeout_milliseconds_ok remaining Hr) as (z & -> & _).
  do 2 m_step. m_step. apply later_system_call. intros r l1 (Ec1 & Er1 & Ho1).
  branch; [by m_step|]. branch; [by unfold Posix.socket_error; do 3 m_step|].
  m_step. apply later_now. intros l2 (Ec2 & Er2 & Ho2).
  rewrite Ec1, Er1, Nat.add_0_r in *.
  destruct (Z.leb_spec deadline (clock (os l) (readings (os l)))) as [|Hlt]; [by m_step|].
  assert (0 ≤ clock (os l) (readings (os l))) by apply Hok.
  assert (readings (os l) < n)%nat.
  { destruct (decide (readings (os l) < n)%nat) as [|Hge]; [done|].
    pose proof (clock_mono (os l) n (readings (os l)) Hok). lia. }
  apply IH; [auto|by rewrite Ec2|done|apply seconds_of_ticks_nonneg; lia|lia|lia].
Qed.

Lemma windows_poll_terminates fuel n others i socket deadline l :
  os_ok (os l) → deadline ≤ clock (os l) n → 0 ≤ deadline ≤ ticks_max →
  (0 < fuel)%nat → (n < readings (os l) + fuel)%nat →
  returns (Windows.poll_loop fuel others i socket deadline) l (λ _ _, True).
Proof.
  revert i l. induction fuel as [|fuel IH]; intros i l Hok Hn Hd H0 Hf; [lia|].
  cbn [Windows.poll_loop]. unfold Windows.winsock_error.
  m_step. apply later_lock. intros t l1 (Ec1 & Er1 & Ho1).
  branch; [by m_step|]. m_step. apply later_now. intros l2 (Ec2 & Er2 & Ho2). do 2 m_step.
  rewrite Ec1, Er1, Nat.add_0_r in *.
  assert (0 ≤ clock (os l) (readings (os l)) ≤ ticks_max) by apply Hok.
  rewrite checked_i_ok by (unfold is_i, ticks_max in *; lia). do 2 m_step.
  set (pt := if 0 <? _ then _ else _).
  assert (Hpt : sf_nonneg pt = true).
  { unfold pt. destruct (Z.ltb_spec 0 (deadline - clock (os l) (readings (os l)))); [|done].
    unfold d_min. destruct (d_lt _ _); [by vm_compute|]. apply seconds_of_ticks_nonneg. lia. }
  destruct (timeout_milliseconds_ok pt Hpt) as (z & -> & _).
  m_step. apply later_system_call. intros r l3 (Ec3 & Er3 & Ho3).
  rewrite Ec2, Er2, Nat.add_0_r in *.
  branch; [branch; by m_step|]. branch; [by m_step|].
  m_step. apply later_now. intros l4 (Ec4 & Er4 & Ho4). rewrite Ec3, Er3 in *.
  branch; [by m_step|]. apply Z.leb_gt in Heqb2.
  assert (readings (os l) + 1 < n)%nat.
  { destruct (decide (readings (os l) + 1 < n)%nat) as [|Hge]; [done|].
    pose proof (clock_mono (os l) n (readings (os l) + 1) Hok). lia. }
  apply IH; [auto|by rewrite Ec4|done|lia|lia].
Qed.

Lemma posix_receive_terminates fuel n capacity timeout others l :
  os_ok (os l) → ticks_max ≤ clock (os l) n → sf_nonneg timeout = true → (n < fuel)%nat →
  returns (Posix.receive fuel capacity timeout others) l (λ _ _, True).
Proof.
  intros H Hn Ht Hfuel.
  unfold Posix.receive. m_step. apply later_lock. intros t l1 (Ec1 & Er1 & Ho1).
  branch; [by m_step|]. branch; [by m_step|].
  m_step. apply later_now. intros l2 (Ec2 & Er2 & Ho2). do 2 m_step.
  pose proof (deadline_outcome (clock (os l1) (readings (os l1))) timeout) as Hd.
  destruct (checked_deadline _ timeout) as [d|e|]; [|done..].
  specialize (Hd ltac:(by apply Ho1, H)).
  m_step. eapply returns_mono.
  { apply (posix_poll_terminates fuel n); [apply Ho2, Ho1, H| |lia|done|lia|lia].
    rewrite Ec2, Ec1. lia. }
  intros [[poll|]|e|] l3 _; [|by m_step|done..]. branch; [by m_step|].
  m_step. apply later_lock. intros t' l4 _. branch; [by m_step|]. branch; [by m_step|].
  m_step. unfold sys_recv. m_step. apply later_system_call. intros r l5 _.
  branch; m_step; [|by m_step]. branch; [by m_step|]. unfold Posix.socket_error. by do 3 m_step.
Qed.

Lemma windows_receive_terminates fuel n capacity timeout others l :
  os_ok (os l) → ticks_max ≤ clock (os l) n → (n < fuel)%nat →
  returns (Windows.receive fuel capacity timeout others) l (λ _ _, True).
Proof.
  intros H Hn Hfuel.
  unfold Windows.receive, Windows.winsock_error. m_step. apply later_lock.
  intros t l1 (Ec1 & Er1 & Ho1). branch; [by m_step|]. branch; [by m_step|]. do 2 m_step.
  destruct (checked_duration timeout); [|done..].
  m_step. apply later_now. intros l2 (Ec2 & Er2 & Ho2). do 2 m_step.
  pose proof (deadline_outcome (clock (os l1) (readings (os l1))) timeout) as Hd.
  destruct (checked_deadline _ timeout) as [d|e|]; [|done..].
  assert (Hc : 0 ≤ clock (os l1) (readings (os l1)) ≤ ticks_max) by (by apply Ho1, H).
  specialize (Hd Hc). m_step. eapply returns_mono.
  { apply (windows_poll_terminates fuel n); [apply Ho2, Ho1, H| |lia|lia|lia].
    rewrite Ec2, Ec1. lia. }
  intros [[[poll i]|]|e|] l3 _; [|by m_step|done..].
  m_step. apply later_lock. intros t' l4 _. branch; [by m_step|]. branch.
  + m_step. unfold Windows.socket_wait_error. branch; [by do 2 m_step|].
    branch; [|by do 2 m_step]. m_step. apply later_system_call. intros r l5 _.
    branch; by do 2 m_step.
  + m_step. unfold sys_recv. m_step. apply later_system_call. intros r l5 _.
    branch; m_step; [|by m_step]. m_step. apply later_lock. intros t'' l6 _.
    branch; [by m_step|]. branch; by m_step.
Qed.

(** C34: a wait always ends. [receive] returns on both platforms whatever the kernel
    answers (an endless stream of EINTR or of empty slices included) and whatever
    other threads do: it makes at most one poll per reading of the clock, so the
    number of readings up to the end of the clock's range bounds the loop, and
    more fuel makes no difference. *)
Theorem receive_terminates capacity timeout others fuel l :
  link_ok l → sf_nonneg timeout = true → (horizon (os l) < fuel)%nat →
  returns (Posix.receive fuel capacity timeout others) l (λ _ _, True) ∧
  returns (Windows.receive fuel capacity timeout others) l (λ _ _, True).
Proof.
  intros [Ho _] Ht Hf. pose proof Ho as (_ & _ & _ & Hend).
  eauto using posix_receive_terminates, windows_receive_terminates.
Qed.

#[global] Instance posix_laws : UdpTransportLaws Posix.ops.
Proof.
  split.
  - intros host port l H. unfold t_connect; simpl. unfold Posix.connect. m_step.
    eapply owns_system_call; [exact H|]. intros r l1 H1 E1 _. do 2 m_step.
    branch; [by m_step|]. m_step. apply connect_loop_spec; [done|..].
    + intros l2 e H2 E2. unfold Posix.socket_error. do 3 m_step. by rewrite E2, E1.
    + intros l2 fd H2 Hfd E2. apply owns_install; [done..|]. intros l3 H3 ->. done.
  - intros request l H. unfold t_send; simpl. unfold Posix.send. do 2 m_step.
    branch; [by m_step|]. m_step. eapply owns_system_call; [exact H|]. intros r l1 H1 E1 _.
    branch; [by unfold Posix.socket_error; do 3 m_step|]. branch; m_step; [done|].
    by apply Z.eqb_neq in Heqb.
  - apply posix_receive_law.
  - intros fuel capacity timeout others l [Ho _] Ht Hf.
    apply (posix_receive_terminates fuel (horizon (os l))); [done|apply Ho|done|done].
  - intros fuel capacity timeout others l. by eapply receive_shutdown.
Qed.

#[global] Instance windows_laws : UdpTransportLaws Windows.ops.
Proof.
  split.
  - intros host port l H. unfold t_connect; simpl. unfold Windows.connect, Windows.winsock_error.
    m_step. eapply owns_system_call; [exact H|]. intros r l1 H1 E1 _.
    branch; [by m_step|]. m_step. apply connect_loop_spec; [done|..].
    + intros l2 e H2 E2. m_step. by rewrite E2, E1.
    + intros l2 fd H2 Hfd E2. apply owns_install; [done..|]. intros l3 H3 ->. done.
  - intros request l H. unfold t_send; simpl. unfold Windows.send, Windows.winsock_error.
    do 2 m_step. branch; [by m_step|].
    m_step. eapply owns_system_call; [exact H|]. intros r l1 H1 E1 _.
    branch; [by m_step|]. branch; m_step; [done|]. by apply Z.eqb_neq in Heqb.
  - apply windows_receive_law.
  - intros fuel capacity timeout others l [Ho _] Ht Hf.
    apply (windows_receive_terminates fuel (horizon (os l))); [done|apply Ho|done].
  - intros fuel capacity timeout others l. by eapply receive_shutdown.
Qed.

End laws.

(** ** Sequences of operations *)

(** What a client does with a transport; every caller catches the exceptions. *)
Inductive Op :=
  | OConnect (host : string) (port : Z)
  | OSend (request : list byte)
  | OReceive (fuel : nat) (capacity : Z) (timeout : double) (others : nat → bool)
  | OShutdown
  | OClose.

Definition op_ok (op : Op) : Prop :=
  match op with
  | OReceive _ capacity timeout _ => 0 ≤ capacity ∧ sf_nonneg timeout = true
  | _ => True
  end.

Definition run_op `{Ops : UdpTransportOps} (op : Op) : M Link () :=
  m_catch any_exception
    match op with
    | OConnect host port => t_connect host port
    | OSend request => t_send request
    | OReceive fuel capacity timeout others =>
      _ ← t_receive fuel capacity timeout others; mret ()
    | OShutdown => shutdown
    | OClose => close
    end (λ _, mret ()).

Fixpoint run_ops `{Ops : UdpTransportOps} (ops : list Op) : M Link () :=
  match ops with
  | [] => mret ()
  | op :: ops => _ ← run_op op; run_ops ops
  end.

Lemma run_op_ok `{Ops : UdpTransportOps} `{!UdpTransportLaws Ops} op l :
  op_ok op → link_ok l → safe (run_op op) l (λ r l', r = Ok () ∧ link_ok l').
Proof.
  intros Hop H. unfold run_op. m_step. destruct op as [host port|request|fuel cap tmo others| |].
  - eapply safe_mono; [by apply returns_safe, connect_law|].
    intros [[]|e|] l' (H' & Hr); done.
  - eapply safe_mono; [by apply returns_safe, send_law|].
    intros [[]|e|] l' (H' & _ & Hr); done.
  - m_step. destruct Hop. eapply safe_mono; [by apply receive_law|].
    intros [d|e|] l' (H' & _ & Hr); done.
  - eapply safe_mono; [by apply returns_safe, shutdown_spec|].
    intros r l' (-> & H' & _). done.
  - eapply safe_mono; [by apply returns_safe, close_spec|].
    intros r l' (-> & H' & _). done.
Qed.

Lemma run_ops_ok `{Ops : UdpTransportOps} `{!UdpTransportLaws Ops} ops l :
  Forall op_ok ops → link_ok l → safe (run_ops ops) l (λ r l', r = Ok () ∧ link_ok l').
Proof.
  intros Hops. revert l. induction Hops as [|op ops Hop _ IH]; intros l H; cbn [run_ops].
  { by m_step. }
  m_step. eapply safe_mono; [by apply run_op_ok|]. intros r l' (-> & H'). by apply IH.
Qed.

(** A transport as its constructor leaves it, on a kernel [o] where it owns nothing. *)
Definition fresh_link (o : Os) : Link := {| tr := initial; os := o |}.

(** C26: no descriptor leaks and none is closed twice. On POSIX and on Windows, after
    any sequence of connects (failing at any address or replacing a live socket),
    sends, receives, shutdowns and closes, with any kernel replies, the transport
    has open exactly the one descriptor it stores, or none; and the destructor's
    [close()] then leaves none. *)
Theorem transport_no_leak (P : Platform) (Ops : UdpTransportOps) o ops :
  Ops = Posix.ops ∨ Ops = Windows.ops →
  os_ok o → descriptors o = ∅ → Forall op_ok ops →
  safe (run_ops ops) (fresh_link o) (λ r l,
    r = Ok () ∧
    descriptors (os l) = (if socket_ (tr l) =? kInvalidSocket then ∅ else {[socket_ (tr l)]}) ∧
    returns close l (λ r' l', r' = Ok () ∧ descriptors (os l') = ∅)).
Proof.
  intros Hops Ho Hd Hok.
  assert (Laws : UdpTransportLaws Ops) by (destruct Hops as [-> | ->]; apply _).
  assert (H : link_ok (fresh_link o)) by (split; [done|left; done]).
  eapply safe_mono; [by apply run_ops_ok|]. intros r l (-> & [Hl Hs]). split; [done|]. split.
  - destruct Hs as [[-> ->]|(Hr & _ & ->)]; [done|].
    rewrite (proj2 (Z.eqb_neq _ _)); [set_solver|]. unfold kInvalidSocket. lia.
  - eapply returns_mono; [by apply close_spec|]. intros r' l' (-> & _ & -> & _). done.
Qed.

(** ** A concrete kernel *)

(** One address resolves; every send succeeds; every poll reports data. *)
Definition quiet_reply (n : nat) (c : Call) : Reply :=
  {| ret := match c with Send _ d => Z.of_nat (length d) | Poll _ _ => 1 | _ => 0 end;
     err := 0; revents := 1; value := 0; bytes := [x00; x01]; addresses := 1 |}.

Definition quiet_os : Os :=
  {| reply := quiet_reply;
     clock := λ n, if (n <? 100)%nat then Z.of_nat n * 1000000 else ticks_max;
     horizon := 100;
     new_descriptor := λ d, if bool_decide (3 ∈ d) then 4 else 3;
     error_text := λ _, "error"; trace := []; readings := 0; descriptors := ∅ |}.

Lemma quiet_os_ok : os_ok quiet_os.
Proof.
  split_and!; simpl.
  - intros d Hd. case_bool_decide as E; [|split; [done|lia]]. split; [|lia]. intros E4.
    assert (size ({[3%Z; 4%Z]} : gset Z) ≤ size d)%nat by (apply subseteq_size; set_solver).
    rewrite size_union, !size_singleton in * by set_solver. lia.
  - intros n. unfold ticks_max. destruct (Nat.ltb_spec n 100); lia.
  - intros n. unfold ticks_max. destruct (Nat.ltb_spec n 100), (Nat.ltb_spec (S n) 100); lia.
  - done.
Qed.

Lemma quiet_link_ok : link_ok (fresh_link quiet_os).
Proof. split; [exact quiet_os_ok|left; split; reflexivity]. Qed.

Lemma receive_terminates_witness :
  returns (Posix.receive (P:=LinuxX86_64) 101 65536 (d_of_Z 1) (λ _, false))
    (fresh_link quiet_os) (λ _ _, True) ∧
  returns (Windows.receive (P:=WindowsX86_64) 101 65536 (d_of_Z 1) (λ _, false))
    (fresh_link quiet_os) (λ _ _, True).
Proof.
  split.
  - refine (proj1 (receive_terminates (P:=LinuxX86_64) 65536 (d_of_Z 1) (λ _, false) 101
                     (fresh_link quiet_os) quiet_link_ok _ _)); [reflexivity|simpl; lia].
  - refine (proj2 (receive_terminates (P:=WindowsX86_64) 65536 (d_of_Z 1) (λ _, false) 101
                     (fresh_link quiet_os) quiet_link_ok _ _)); [reflexivity|simpl; lia].
Defined.

(** Reconnecting over a live socket, receiving and shutting down. *)
Definition busy : list Op :=
  [OConnect "sensor" 49152; OSend [x00]; OConnect "sensor" 49152;
   OReceive 3 65536 (d_of_Z 1) (λ _, false); OShutdown].

Lemma transport_no_leak_witness :
  safe (run_ops (Ops:=Posix.ops (P:=LinuxX86_64)) busy) (fresh_link quiet_os)
    (λ r l, r = Ok () ∧ socket_ (tr l) = 4 ∧ descriptors (os l) = {[4]}).
Proof.
  pose proof (transport_no_leak LinuxX86_64 (Posix.ops (P:=LinuxX86_64)) quiet_os busy
                (or_introl eq_refl) quiet_os_ok eq_refl) as H.
  unfold safe in *.
  destruct (run_ops (Ops:=Posix.ops (P:=LinuxX86_64)) busy (fresh_link quiet_os))
    as [[r l]|] eqn:E; [|exact I].
  destruct H as (Hr & Hd & _); [repeat constructor; vm_compute; congruence|].
  assert (Hs : socket_ (tr l) = 4).
  { assert (H : (λ x, match x with Some (_, l) => socket_ (tr l) | None => 0 end)
                  (run_ops (Ops:=Posix.ops (P:=LinuxX86_64)) busy (fresh_link quiet_os)) = 4)
      by (vm_compute; reflexivity).
    rewrite E in H. exact H. }
  split; [exact Hr|]. split; [exact Hs|]. rewrite Hd, Hs. reflexivity.
Defined.

End Transport.
