(* ===== verification/Client.v ===== *)
(** * Client state and critical sections: core/src/detail/client_impl.{hpp,cpp}

    [Impl] is the private state of a client. Every block that runs under
    [record_mutex_] or [data_mutex_] is a function on [Impl]; [Worker] composes
    them into the receiving thread, [Lifecycle] into [start] and [stop]. Allocation
    failures are not modelled, nor are the test hooks, which are null. *)

From Stdlib Require Import ZArith Lia String.
From Corelib Require Import SpecFloat.
From S2P Require Import Prelude Floats Clock Types Status Protocol Sequence FaultLatch.
From S2P Require Import Decimal XmlConfig Discovery.
Import Fp Clock.

Module Client.

(** Source: core/src/detail/client_impl.hpp:40-50, [SessionResult]. *)
Inductive SessionResult :=
  | RStopped | RSensorConfiguration | RTimeout | RSocket | RSeriousStatus
  | RFtStall | RFtBackward | RMalformedStorm | RCallback.

#[global] Instance SessionResult_eq_dec : EqDecision SessionResult.
Proof. solve_decision. Defined.

(** Source: core/src/detail/client_impl.hpp:52-56, [SessionOutcome]. *)
Record SessionOutcome := {
  result : SessionResult; message : string; received_valid_record : bool
}.

(** Source: core/src/detail/client_impl.hpp:75-109, [Client::Impl]: the data
    members apart from the mutexes, the condition variables and the transport. A
    thread or a callback is its identity; [None] is not joinable, or empty. *)
Record Impl := {
  config_ : Config;
  worker_ : option nat;
  active_worker_id_ : option nat;
  joining_ : bool;
  callback_ : option nat;
  rdt_sequence_ : Sequence.RdtSequenceTracker;
  ft_sequence_ : Sequence.FtSequenceTracker;
  stopping_ : bool;
  worker_exited_ : bool;
  session_started_ : bool;
  fault_latch_ : FaultLatch.FaultLatch;
  health_ : HealthSnapshot;
  latest_ : option Sample;
  last_delivery_at_ : Z;
  last_record_at_ : Z;
  generation_ : Z;
  delivered_generation_ : Z;
  receive_times_ : list Z;
  delivery_times_ : list Z;
  consecutive_malformed_ : Z
}.

#[global] Instance Impl_eta : Eta Impl := λ r,
  {| config_ := config_ r; worker_ := worker_ r; active_worker_id_ := active_worker_id_ r;
     joining_ := joining_ r; callback_ := callback_ r; rdt_sequence_ := rdt_sequence_ r;
     ft_sequence_ := ft_sequence_ r; stopping_ := stopping_ r;
     worker_exited_ := worker_exited_ r; session_started_ := session_started_ r;
     fault_latch_ := fault_latch_ r; health_ := health_ r; latest_ := latest_ r;
     last_delivery_at_ := last_delivery_at_ r; last_record_at_ := last_record_at_ r;
     generation_ := generation_ r; delivered_generation_ := delivered_generation_ r;
     receive_times_ := receive_times_ r; delivery_times_ := delivery_times_ r;
     consecutive_malformed_ := consecutive_malformed_ r |}.

(** Source: core/src/detail/client_impl.cpp:18-18, [kMalformedStormThreshold]. *)
Definition kMalformedStormThreshold : Z := 10.

(** Source: core/src/detail/client_impl.cpp:22-44, [Client::Impl::fault_for]. *)
Definition fault_for (r : SessionResult) : FaultCode :=
  match r with
  | RSensorConfiguration => FaultCode.SensorConfiguration
  | RTimeout => FaultCode.Timeout
  | RSocket => FaultCode.Socket
  | RSeriousStatus => FaultCode.SeriousStatus
  | RFtStall => FaultCode.FtStall
  | RFtBackward => FaultCode.FtBackward
  | RMalformedStorm => FaultCode.MalformedStorm
  | RCallback => FaultCode.Callback
  | RStopped => FaultCode.None
  end.

(** Source: core/src/detail/client_impl.cpp:46-68, [Client::Impl::message_for]. *)
Definition message_for (r : SessionResult) : string :=
  match r with
  | RSensorConfiguration => "sensor configuration discovery failed"
  | RTimeout => "no valid RDT record before timeout"
  | RSocket => "UDP socket failure"
  | RSeriousStatus => "serious device status"
  | RFtStall => "FT sequence stalled"
  | RFtBackward => "FT sequence moved backward"
  | RMalformedStorm => "malformed packet storm"
  | RCallback => "sample callback failed"
  | RStopped => ""
  end.

(** Source: core/src/detail/client_impl.cpp:72-76, [same_calibration]. *)
Definition same_calibration (left right : Calibration) : bool :=
  d_eq (Calibration.counts_per_force_unit left) (Calibration.counts_per_force_unit right) &&
  d_eq (Calibration.counts_per_torque_unit left) (Calibration.counts_per_torque_unit right) &&
  bool_decide (Calibration.force_unit left = Calibration.force_unit right) &&
  bool_decide (Calibration.torque_unit left = Calibration.torque_unit right).

(** One second in ticks of the clock. *)
Definition second : Z := 1000000000.

(** Source: core/src/detail/client_impl.cpp:78-83, [prune_rate_window]. *)
Fixpoint prune_rate_window (times : list Z) (now : Z) : Res (list Z) :=
  match times with
  | [] => Ok []
  | front :: rest =>
    age ← checked_i 64 (now - front);
    if second <? age then prune_rate_window rest now else Ok times
  end.

(** Source: core/src/detail/client_impl.cpp:85-99, [ft_progress_name]. *)
Definition ft_progress_name (kind : Sequence.FtSequenceKind) : string :=
  match kind with
  | Sequence.FtFirst => "first"
  | Sequence.FtForward => "forward"
  | Sequence.FtStall => "stall"
  | Sequence.FtBackward => "backward"
  | Sequence.FtRestart => "restart"
  end.

(** The counters of a health snapshot are [std::uint64_t]. *)
Definition incr (n : Z) : Z := u64 (n + 1).

(** Source: core/src/detail/client_impl.hpp:75-109, [Client::Impl]: the member
    initialisers, with the members the constructor sets. *)
Definition initial_impl (config : Config) : Impl :=
  {| config_ := config; worker_ := None; active_worker_id_ := None; joining_ := false;
     callback_ := None; rdt_sequence_ := Sequence.rdt_init;
     ft_sequence_ := Sequence.ft_init; stopping_ := false; worker_exited_ := true;
     session_started_ := false; fault_latch_ := FaultLatch.latch_init;
     health_ := HealthSnapshot.default_HealthSnapshot
                  <| HealthSnapshot.sensor_host := Config.sensor_host config |>
                  <| HealthSnapshot.rdt_port := Config.rdt_port config |>;
     latest_ := None; last_delivery_at_ := 0; last_record_at_ := 0; generation_ := 0;
     delivered_generation_ := 0; receive_times_ := []; delivery_times_ := [];
     consecutive_malformed_ := 0 |}.

(** Source: core/src/detail/client_impl.cpp:103-107, [Client::Impl::Impl]. *)
Definition make `{P : Platform} (now : nat → Z) (config : Config) : Res Impl :=
  _ ← Types.validate_config now config;
  Ok (initial_impl config).

(** Source: core/src/detail/client_impl.cpp:327-327, [Client::Impl::faulted]. *)
Definition faulted (i : Impl) : bool := FaultLatch.faulted (fault_latch_ i).

(** Source: core/src/detail/client_impl.cpp:329-329, [Client::Impl::fault_code]. *)
Definition fault_code (i : Impl) : FaultCode := FaultLatch.code (fault_latch_ i).

(** Source: core/src/detail/client_impl.cpp:331-347, [Client::Impl::health]. The
    rate windows are mutable: the call prunes them. *)
Definition health (now : Z) (i : Impl) : Res (HealthSnapshot * Impl) :=
  received ← prune_rate_window (receive_times_ i) now;
  delivered ← prune_rate_window (delivery_times_ i) now;
  let i := i <| receive_times_ := received |> <| delivery_times_ := delivered |> in
  let snapshot := (health_ i) <| HealthSnapshot.fault_code := fault_code i |> in
  let snapshot :=
    if bool_decide (HealthSnapshot.fault_code snapshot ≠ FaultCode.None)
    then snapshot <| HealthSnapshot.state := ClientState.Faulted |> else snapshot in
  let snapshot :=
    snapshot <| HealthSnapshot.receive_rate_hz := d_of_Z (Z.of_nat (length received)) |>
             <| HealthSnapshot.delivery_rate_hz := d_of_Z (Z.of_nat (length delivered)) |> in
  if negb (last_record_at_ i =? 0)
  then
    age ← checked_i 64 (now - last_record_at_ i);
    Ok (snapshot <| HealthSnapshot.last_record_age := Some (seconds_of_ticks age) |>, i)
  else Ok (snapshot, i).

(** Source: core/src/detail/client_impl.cpp:349-352, [Client::Impl::latest_sample]. *)
Definition latest_sample (i : Impl) : option Sample := latest_ i.

(** Source: core/src/detail/client_impl.cpp:354-364,
    [Client::Impl::configuration_for_session]. *)
Definition configuration_for_session `{P : Platform} (curl : Discovery.CurlEnv)
    (once : option Z) (config : Config) : option Z * Res SensorConfiguration :=
  match Config.calibration_override config with
  | Some calibration =>
    (once, Ok {| SensorConfiguration.product_name := "";
                 SensorConfiguration.calibration := calibration;
                 SensorConfiguration.source := CalibrationSource.Override;
                 SensorConfiguration.revision := 1 |})
  | None =>
    Discovery.discover_sensor curl once
      {| Discovery.sensor_host := Config.sensor_host config;
         Discovery.http_port := Config.http_port config;
         Discovery.connect_timeout := Config.configuration_connect_timeout config;
         Discovery.total_timeout := Config.configuration_timeout config |}
  end.

(** Source: core/src/detail/client_impl.cpp:366-380,
    [Client::Impl::apply_configuration]. *)
Definition apply_configuration (configuration : SensorConfiguration) (i : Impl) : Impl :=
  let health := health_ i in
  match HealthSnapshot.sensor_configuration health with
  | Some previous =>
    if same_calibration (SensorConfiguration.calibration previous)
                        (SensorConfiguration.calibration configuration)
    then
      i <| health_ := health <| HealthSnapshot.sensor_configuration :=
        Some (configuration <| SensorConfiguration.revision :=
                SensorConfiguration.revision previous |>) |> |>
    else
      i <| health_ := health
             <| HealthSnapshot.calibration_change_count ::= incr |>
             <| HealthSnapshot.sensor_configuration :=
                  Some (configuration <| SensorConfiguration.revision :=
                          incr (SensorConfiguration.revision previous) |>) |> |>
  | None =>
    i <| health_ := health <| HealthSnapshot.sensor_configuration :=
      Some (configuration <| SensorConfiguration.revision := 1 |>) |> |>
  end.

(** ** Handling one record *)

(** Source: core/src/detail/client_impl.cpp:555-570, [Client::Impl::handle_record]: the
    switch on the RDT sequence, with whether the record may still be delivered. *)
Definition count_rdt (rdt : Sequence.SequenceObservation) (health : HealthSnapshot)
    : HealthSnapshot * bool :=
  match Sequence.kind rdt with
  | Sequence.Gap =>
    (health <| HealthSnapshot.lost_count ::= λ n, u64 (n + Sequence.gap rdt) |>, true)
  | Sequence.Duplicate => (health <| HealthSnapshot.duplicate_count ::= incr |>, false)
  | Sequence.OutOfOrder => (health <| HealthSnapshot.out_of_order_count ::= incr |>, false)
  | Sequence.RdtFirst | Sequence.Contiguous => (health, true)
  end.

(** Source: core/src/detail/client_impl.cpp:572-586, [Client::Impl::handle_record]: the
    switch on the F/T sequence. *)
Definition count_ft (ft : Sequence.FtSequenceKind) (health : HealthSnapshot) : HealthSnapshot :=
  let health := health <| HealthSnapshot.last_ft_progress := ft_progress_name ft |> in
  match ft with
  | Sequence.FtStall => health <| HealthSnapshot.ft_stall_count ::= incr |>
  | Sequence.FtBackward => health <| HealthSnapshot.ft_backward_count ::= incr |>
  | Sequence.FtRestart => health <| HealthSnapshot.ft_restart_count ::= incr |>
  | Sequence.FtFirst | Sequence.FtForward => health
  end.

(** Source: core/src/detail/client_impl.cpp:588-594, [Client::Impl::handle_record]: the
    device status. *)
Definition count_severity (config : Config) (severity : Status.StatusSeverity) (deliver : bool)
    (health : HealthSnapshot) : HealthSnapshot * bool * option SessionResult :=
  match severity with
  | Status.SeverityWarn => (health <| HealthSnapshot.warning_count ::= incr |>, deliver, None)
  | Status.SeverityError =>
    (health <| HealthSnapshot.device_error_count ::= incr |>,
     Config.deliver_samples_with_error_status config && deliver, Some RSeriousStatus)
  | Status.SeverityOk => (health, deliver, None)
  end.

(** Source: core/src/detail/client_impl.cpp:596-610, [Client::Impl::handle_record]: what
    an F/T discontinuity does to the outcome and to the delivery. *)
Definition ft_outcome (config : Config) (ft : Sequence.FtSequenceKind) (deliver : bool)
    (outcome : option SessionResult) : bool * option SessionResult :=
  let outcome :=
    match outcome, ft with
    | None, Sequence.FtStall => Some RFtStall
    | None, Sequence.FtBackward => Some RFtBackward
    | _, _ => outcome
    end in
  let ft_discontinuity :=
    bool_decide (ft = Sequence.FtStall) || bool_decide (ft = Sequence.FtBackward) in
  if ft_discontinuity
  then (false,
        if bool_decide (Config.recovery_policy config = RecoveryPolicy.Reconnect) &&
           (bool_decide (outcome = Some RFtStall) || bool_decide (outcome = Some RFtBackward))
        then None else outcome)
  else (deliver, outcome).

(** Source: core/src/detail/client_impl.cpp:612-618, [Client::Impl::handle_record]: the
    condition of the rate limit. The comparison of a tick count with
    [duration<double>] is made in [double] nanoseconds. *)
Definition rate_limited (config : Config) (last_delivery received_at : Z) : Res bool :=
  if d_lt (d_of_Z 0) (Config.sample_rate_limit_hz config) && negb (last_delivery =? 0)
  then
    elapsed ← checked_i 64 (received_at - last_delivery);
    Ok (d_lt (d_of_Z elapsed)
             (d_mul (d_div (d_of_Z 1) (Config.sample_rate_limit_hz config)) (d_of_Z period_den)))
  else Ok false.

(** What the locked block of [handle_record] passes on. *)
Record Accounted := {
  configuration : SensorConfiguration; deliver : bool; outcome : option SessionResult
}.

(** Source: core/src/detail/client_impl.cpp:534-621, [Client::Impl::handle_record]: the
    block under [record_mutex_] and [data_mutex_]. The trackers have moved even
    when it throws. *)
Definition account_record (record : Rdt.RawRecord) (received_at : Z) (i : Impl)
    : Impl * Res Accounted :=
  let '(rdt_tracker, rdt) := Sequence.rdt_observe (rdt_sequence_ i) (Rdt.rdt_sequence record) in
  let '(ft_tracker, ft) := Sequence.ft_observe (ft_sequence_ i) (Rdt.ft_sequence record) in
  let severity := Status.classify_status (Rdt.status record) in
  let i := i <| rdt_sequence_ := rdt_tracker |> <| ft_sequence_ := ft_tracker |> in
  match HealthSnapshot.sensor_configuration (health_ i) with
  | None =>
    (i, throw logic_error "sensor configuration is unavailable while streaming")
  | Some configuration =>
    match prune_rate_window (receive_times_ i ++ [received_at]) received_at with
    | Ok window =>
      let health := (health_ i)
        <| HealthSnapshot.state := ClientState.Streaming |>
        <| HealthSnapshot.received_count ::= incr |>
        <| HealthSnapshot.receive_rate_hz := d_of_Z (Z.of_nat (length window)) |>
        <| HealthSnapshot.last_rdt_sequence := Some (Rdt.rdt_sequence record) |>
        <| HealthSnapshot.last_ft_sequence := Some (Rdt.ft_sequence record) |>
        <| HealthSnapshot.last_status := Rdt.status record |> in
      let '(health, deliver) := count_rdt rdt health in
      let health := count_ft ft health in
      let '(health, deliver, outcome) := count_severity (config_ i) severity deliver health in
      let '(deliver, outcome) := ft_outcome (config_ i) ft deliver outcome in
      let i := i <| receive_times_ := window |> <| last_record_at_ := received_at |>
                 <| health_ := health |> in
      if deliver then
        match rate_limited (config_ i) (last_delivery_at_ i) received_at with
        | Ok true =>
          (i <| health_ ::= λ h, h <| HealthSnapshot.rate_limited_count ::= incr |> |>,
           Ok {| configuration := configuration; deliver := false; outcome := outcome |})
        | Ok false =>
          (i, Ok {| configuration := configuration; deliver := true; outcome := outcome |})
        | Throw e => (i, Throw e)
        | UB => (i, UB)
        end
      else (i, Ok {| configuration := configuration; deliver := false; outcome := outcome |})
    | Throw e => (i, Throw e)
    | UB => (i, UB)
    end
  end.

(** Source: core/src/detail/client_impl.cpp:627-647, [Client::Impl::handle_record]: the
    scaled sample; [None] is the return of [SensorConfiguration] on a force or
    torque that is not finite. *)
Definition make_sample (record : Rdt.RawRecord) (received_at : Z)
    (configuration : SensorConfiguration) : option Sample :=
  let calibration := SensorConfiguration.calibration configuration in
  let cpf := Calibration.counts_per_force_unit calibration in
  let cpt := Calibration.counts_per_torque_unit calibration in
  let force := [d_div (d_of_Z (Rdt.fx record)) cpf; d_div (d_of_Z (Rdt.fy record)) cpf;
                d_div (d_of_Z (Rdt.fz record)) cpf] in
  let torque := [d_div (d_of_Z (Rdt.tx record)) cpt; d_div (d_of_Z (Rdt.ty record)) cpt;
                 d_div (d_of_Z (Rdt.tz record)) cpt] in
  if negb (forallb isfinite force) || negb (forallb isfinite torque) then None
  else Some
    {| Sample.rdt_sequence := Rdt.rdt_sequence record;
       Sample.ft_sequence := Rdt.ft_sequence record;
       Sample.status := Rdt.status record;
       Sample.raw_wrench := [Rdt.fx record; Rdt.fy record; Rdt.fz record;
                             Rdt.tx record; Rdt.ty record; Rdt.tz record];
       Sample.force := force; Sample.torque := torque;
       Sample.force_unit := Calibration.force_unit calibration;
       Sample.torque_unit := Calibration.torque_unit calibration;
       Sample.configuration_revision := SensorConfiguration.revision configuration;
       Sample.received_at := received_at |}.

(** Source: core/src/detail/client_impl.cpp:649-654, [Client::Impl::handle_record]: the
    lambda [callback_failure_outcome]. *)
Definition callback_failure_outcome (config : Config) (outcome : option SessionResult)
    : option SessionResult :=
  if bool_decide (outcome ≠ None)
     || bool_decide (Config.recovery_policy config = RecoveryPolicy.Reconnect)
  then outcome else Some RCallback.

(** Source: core/src/detail/client_impl.cpp:669-678, [Client::Impl::handle_record]: the
    block after a successful delivery. *)
Definition record_delivery (sample : Sample) (received_at : Z) (i : Impl) : Res Impl :=
  window ← prune_rate_window (delivery_times_ i ++ [received_at]) received_at;
  Ok (i <| last_delivery_at_ := received_at |>
        <| latest_ := Some sample |>
        <| health_ ::= λ h, h <| HealthSnapshot.delivered_count ::= incr |>
             <| HealthSnapshot.delivery_rate_hz := d_of_Z (Z.of_nat (length window)) |> |>
        <| delivery_times_ := window |>
        <| delivered_generation_ := generation_ i |>).

(** Source: core/src/detail/client_impl.cpp:685-694, [Client::Impl::set_fault]. *)
Definition set_fault (code : FaultCode) (message : string) (i : Impl) : Impl :=
  let '(latch, health, _) := FaultLatch.publish (fault_latch_ i) code message (health_ i) in
  i <| fault_latch_ := latch |> <| health_ := health |>.

(** Source: core/src/detail/client_impl.cpp:696-708, [Client::Impl::record_callback_error]. *)
Definition record_callback_error (message : string) (i : Impl) : Impl :=
  i <| health_ ::= λ h, h <| HealthSnapshot.callback_error_count ::= incr |>
                          <| HealthSnapshot.last_error := message |> |>.

(** ** Starting *)

(** Source: core/src/detail/client_impl.cpp:134-180, [Client::Impl::start]: the state a new
    worker starts from. *)
Definition begin_start (callback : option nat) (i : Impl) : Impl :=
  i <| last_delivery_at_ := 0 |>
    <| fault_latch_ ::= FaultLatch.reset |>
    <| health_ ::= λ h,
         h <| HealthSnapshot.state := ClientState.Connecting |>
           <| HealthSnapshot.fault_code := FaultCode.None |>
           <| HealthSnapshot.last_error := "" |>
           <| HealthSnapshot.receive_rate_hz := d_of_Z 0 |>
           <| HealthSnapshot.delivery_rate_hz := d_of_Z 0 |> |>
    <| latest_ := None |> <| last_record_at_ := 0 |>
    <| generation_ ::= incr |> <| delivered_generation_ := 0 |>
    <| receive_times_ := [] |> <| delivery_times_ := [] |> <| consecutive_malformed_ := 0 |>
    <| stopping_ := false |> <| worker_exited_ := false |> <| callback_ := callback |>.

(** Source: core/src/detail/client_impl.cpp:184-206, [Client::Impl::start]: undoing it when
    no thread could be created. [previous] is the state the locals saved. *)
Definition rollback (previous i : Impl) : Impl :=
  let i :=
    i <| stopping_ := stopping_ previous |> <| worker_exited_ := worker_exited_ previous |>
      <| callback_ := callback_ previous |>
      <| last_delivery_at_ := last_delivery_at_ previous |>
      <| health_ := health_ previous |> <| latest_ := latest_ previous |>
      <| last_record_at_ := last_record_at_ previous |>
      <| generation_ := generation_ previous |>
      <| delivered_generation_ := delivered_generation_ previous |>
      <| receive_times_ := receive_times_ previous |>
      <| delivery_times_ := delivery_times_ previous |>
      <| consecutive_malformed_ := consecutive_malformed_ previous |>
      <| fault_latch_ ::= FaultLatch.reset |> in
  if bool_decide (fault_code previous ≠ FaultCode.None)
  then
    let '(latch, health, _) :=
      FaultLatch.publish (fault_latch_ i) (fault_code previous)
        (HealthSnapshot.last_error (health_ previous)) (health_ i) in
    i <| fault_latch_ := latch |> <| health_ := health |>
  else i.

(** Source: core/src/detail/client_impl.cpp:133-214, [Client::Impl::start]: the branch that
    starts a worker. [created] is what [create_worker_thread] does. *)
Definition start_worker (created : Res nat) (callback : option nat) (i : Impl) : Res () * Impl :=
  let i' := begin_start callback i in
  match created with
  | Ok thread => (Ok (), i' <| worker_ := Some thread |> <| active_worker_id_ := Some thread |>)
  | Throw e => (Throw e, rollback i i')
  | UB => (UB, i')
  end.

(** A latched fault and the snapshot agree, as [FaultLatch.publish] leaves them. *)
Definition fault_consistent (i : Impl) : Prop :=
  fault_code i ≠ FaultCode.None →
  HealthSnapshot.state (health_ i) = ClientState.Faulted ∧
  HealthSnapshot.fault_code (health_ i) = fault_code i.

(** Starting is transactional. If the worker thread cannot be created, [start]
    rethrows and every member has the value it had before the call: the callback,
    the counters, the latest sample, the generation, the rate windows and the
    latched fault with its message. *)
Theorem start_rollback_exact e callback i :
  fault_consistent i → start_worker (Throw e) callback i = (Throw e, i).
Proof.
  intros Hf. unfold start_worker. f_equal. unfold rollback, fault_consistent, fault_code in *.
  destruct i as [? ? ? ? ? ? ? ? ? ? [code] h ? ? ? ? ? ? ? ?]. cbn in *.
  case_bool_decide as Hc; cbn.
  - destruct (Hf Hc) as [Hs Hfc]. f_equal. destruct h; cbn in *. by subst.
  - by subst.
Qed.

(** ** What one record does *)

(** [true] counts one. *)
Definition one_if (b : bool) : Z := if b then 1 else 0.

Definition times_ok (times : list Z) : Prop := Forall (λ t, 0 ≤ t ≤ ticks_max) times.

Lemma prune_rate_window_ok times now :
  times_ok times → 0 ≤ now ≤ ticks_max →
  ∃ w, prune_rate_window times now = Ok w ∧ suffix w times.
Proof.
  intros Ht Hn. induction Ht as [|t times Ht _ IH]; simpl; [by exists []|].
  rewrite checked_i_ok by (unfold is_i, ticks_max in *; lia). simpl.
  destruct (second <? now - t).
  - destruct IH as (w & -> & Hw). exists w. split; [done|]. by apply suffix_cons_r.
  - by eexists.
Qed.

Lemma prune_times_ok times now w :
  prune_rate_window times now = Ok w → times_ok times → times_ok w.
Proof.
  unfold times_ok. induction times as [|t times IH]; simpl; [by intros [= <-]|].
  unfold checked_i. case_match; [|done]. simpl. intros Hw Hok.
  destruct (second <? now - t); [|by injection Hw as <-].
  apply IH; [done|]. by apply Forall_cons in Hok as [_ ?].
Qed.

Lemma rate_limited_ok config last t :
  0 ≤ last ≤ ticks_max → 0 ≤ t ≤ ticks_max → ∃ b, rate_limited config last t = Ok b.
Proof.
  intros Hl Ht. unfold rate_limited. case_match; [|eauto].
  rewrite checked_i_ok by (unfold is_i, ticks_max in *; lia). simpl. eauto.
Qed.

Lemma incr_if (b : bool) n : is_u 64 n → (if b then incr n else n) = u64 (n + one_if b).
Proof.
  intros Hn. destruct b; [done|]. simpl. rewrite Z.add_0_r. symmetry. by apply wrap_u_small.
Qed.

Definition is_kind (k : Sequence.SequenceKind) (rdt : Sequence.SequenceObservation) : bool :=
  bool_decide (Sequence.kind rdt = k).

(** The parts of the block that decide, apart from the counters. *)
Lemma count_rdt_deliver rdt health :
  (count_rdt rdt health).2 =
  negb (is_kind Sequence.Duplicate rdt) && negb (is_kind Sequence.OutOfOrder rdt).
Proof. unfold count_rdt, is_kind. by destruct (Sequence.kind rdt). Qed.

Lemma count_severity_decision config severity d health :
  let serious := bool_decide (severity = Status.SeverityError) in
  let r := count_severity config severity d health in
  r.1.2 = (negb serious || Config.deliver_samples_with_error_status config) && d ∧
  r.2 = if serious then Some RSeriousStatus else None.
Proof.
  destruct severity, (Config.deliver_samples_with_error_status config) eqn:E; simpl;
    by rewrite ?E.
Qed.

Lemma ft_outcome_decision config ft d (serious : bool) :
  let discontinuity := bool_decide (ft = Sequence.FtStall ∨ ft = Sequence.FtBackward) in
  ft_outcome config ft d (if serious then Some RSeriousStatus else None) =
  (negb discontinuity && d,
   if serious then Some RSeriousStatus
   else if bool_decide (Config.recovery_policy config = RecoveryPolicy.FailStop)
   then match ft with
        | Sequence.FtStall => Some RFtStall
        | Sequence.FtBackward => Some RFtBackward
        | _ => None
        end
   else None).
Proof.
  unfold ft_outcome. by destruct ft, serious, d, (Config.recovery_policy config).
Qed.

(** No record ends a session as if it had been stopped. *)
Lemma account_record_outcome record t i i' acc :
  account_record record t i = (i', Ok acc) → outcome acc ≠ Some RStopped.
Proof.
  unfold account_record. destruct (Sequence.rdt_observe _ _) as [tr rdt].
  destruct (Sequence.ft_observe _ _) as [tf ft]. cbv zeta.
  destruct (HealthSnapshot.sensor_configuration _) as [conf|]; [|done].
  destruct (prune_rate_window _ _) as [win|e|]; [|done..].
  destruct (count_rdt rdt _) as [h1 d1].
  match goal with |- context [count_severity ?c ?s ?d ?h] =>
    pose proof (count_severity_decision c s d h) as [_ E];
    destruct (count_severity c s d h) as [[h2 d2] o2] end.
  cbn [snd] in E. rewrite E, ft_outcome_decision.
  match goal with |- context [if ?d then match rate_limited ?c ?l ?t with _ => _ end else _] =>
    destruct d; [destruct (rate_limited c l t) as [[]|e|]; [..|done|done]|] end;
    intros [= _ <-]; cbn; repeat case_match; congruence.
Qed.

(** C4: the delivery decision, on every combination of sequence, status and policy.
    A record is delivered exactly when it is neither a duplicate nor out of order,
    its status is not serious (unless the configuration asks for such samples),
    the F/T sequence neither stalled nor went back, and the rate limit allows it.
    The session ends on a serious status under either policy, and on a stall or a
    backward step only under fail-stop. *)
Theorem account_record_decision record t i i' acc :
  account_record record t i = (i', Ok acc) →
  let rdt := (Sequence.rdt_observe (rdt_sequence_ i) (Rdt.rdt_sequence record)).2 in
  let ft := (Sequence.ft_observe (ft_sequence_ i) (Rdt.ft_sequence record)).2 in
  let serious := bool_decide (Status.classify_status (Rdt.status record) = Status.SeverityError) in
  let discontinuity := bool_decide (ft = Sequence.FtStall ∨ ft = Sequence.FtBackward) in
  ∃ limited,
    (deliver acc = true ∨ limited = true →
       rate_limited (config_ i) (last_delivery_at_ i) t = Ok limited) ∧
    deliver acc =
      negb (is_kind Sequence.Duplicate rdt) && negb (is_kind Sequence.OutOfOrder rdt) &&
      (negb serious || Config.deliver_samples_with_error_status (config_ i)) &&
      negb discontinuity && negb limited ∧
    outcome acc =
      (if serious then Some RSeriousStatus
       else if bool_decide (Config.recovery_policy (config_ i) = RecoveryPolicy.FailStop)
       then match ft with
            | Sequence.FtStall => Some RFtStall
            | Sequence.FtBackward => Some RFtBackward
            | _ => None
            end
       else None).
Proof.
  unfold account_record. intros Hacc.
  destruct (Sequence.rdt_observe _ _) as [tr rdt]. destruct (Sequence.ft_observe _ _) as [tf ft].
  cbv zeta in *. cbn [snd].
  destruct (HealthSnapshot.sensor_configuration _) as [conf|]; [|discriminate].
  destruct (prune_rate_window _ _) as [window|e|]; [|discriminate..].
  match type of Hacc with context [count_rdt rdt ?h] => pose proof (count_rdt_deliver rdt h) as E1;
    destruct (count_rdt rdt h) as [h1 d1] end.
  cbn [snd] in E1.
  match type of Hacc with context [count_severity ?c ?s ?d ?h] =>
    pose proof (count_severity_decision c s d h) as [E2 E3];
    destruct (count_severity c s d h) as [[h2 d2] o2] end.
  cbn [fst snd] in E2, E3. rewrite E3, ft_outcome_decision in Hacc.
  change (config_ (update_field ft_sequence_ _ _)) with (config_ i) in *.
  match type of Hacc with context [rate_limited ?c ?l t] => 
    change (rate_limited c l t) with (rate_limited (config_ i) (last_delivery_at_ i) t) in Hacc end.
  rewrite E1 in E2. clear E1 E3. set (d := negb _ && d2) in Hacc.
  match goal with |- context [negb ?x && negb ?y && ?z && negb ?w && _] =>
    assert (Hd : d = negb x && negb y && z && negb w)
      by (unfold d; rewrite E2; destruct x, y, z, w; done) end.
  rewrite <-Hd. clear Hd. clearbody d. destruct d.
  - destruct (rate_limited (config_ i) (last_delivery_at_ i) t) as [[]|e|]; [..|discriminate|discriminate];
      injection Hacc as _ <-; [exists true|exists false]; done.
  - injection Hacc as _ <-. exists false. split_and!; [intros [|]; done|done|done].
Qed.

(** ** Counters *)

(** The counters of a snapshot as a vector. *)
Definition counters (h : HealthSnapshot) : list Z :=
  [HealthSnapshot.received_count h; HealthSnapshot.delivered_count h;
   HealthSnapshot.rate_limited_count h; HealthSnapshot.device_error_count h;
   HealthSnapshot.warning_count h; HealthSnapshot.lost_count h;
   HealthSnapshot.duplicate_count h; HealthSnapshot.out_of_order_count h;
   HealthSnapshot.ft_stall_count h; HealthSnapshot.ft_backward_count h;
   HealthSnapshot.ft_restart_count h; HealthSnapshot.malformed_count h;
   HealthSnapshot.reconnect_count h; HealthSnapshot.timeout_count h;
   HealthSnapshot.callback_error_count h; HealthSnapshot.calibration_change_count h].

Definition counters_ok (h : HealthSnapshot) : Prop := Forall (is_u 64) (counters h).

(** Increments modulo 2^64. *)
Definition add_counters (cs deltas : list Z) : list Z := zip_with (λ n d, u64 (n + d)) cs deltas.

(** What a record adds to each counter of [counters]. *)
Definition record_deltas (rdt : Sequence.SequenceObservation) (ft : Sequence.FtSequenceKind)
    (severity : Status.StatusSeverity) (limited : bool) : list Z :=
  [1; 0; one_if limited; one_if (bool_decide (severity = Status.SeverityError));
   one_if (bool_decide (severity = Status.SeverityWarn));
   if is_kind Sequence.Gap rdt then Sequence.gap rdt else 0;
   one_if (is_kind Sequence.Duplicate rdt); one_if (is_kind Sequence.OutOfOrder rdt);
   one_if (bool_decide (ft = Sequence.FtStall)); one_if (bool_decide (ft = Sequence.FtBackward));
   one_if (bool_decide (ft = Sequence.FtRestart)); 0; 0; 0; 0; 0].

(** Closes [counters h' = add_counters (counters h) deltas] where [h'] is [h] with
    some counters incremented. *)
Ltac counters_solve Hok :=
  unfold counters_ok, counters, add_counters in *; cbn [zip_with] in *;
  repeat match type of Hok with
  | Forall _ (_ :: _) =>
    let H := fresh in apply Forall_cons in Hok as [H Hok]; apply wrap_u_small in H
  end;
  repeat apply (f_equal2 cons); try reflexivity;
  rewrite ?Z.add_0_r; symmetry; assumption.

Lemma add_counters_trans cs d1 d2 :
  add_counters (add_counters cs d1) d2 = add_counters cs (zip_with Z.add d1 d2).
Proof.
  revert d1 d2. induction cs as [|c cs IH]; intros [|x d1] [|y d2]; try done. simpl.
  f_equal; [|apply IH]. unfold wrap_u. mod_lia.
Qed.

Lemma add_counters_ok cs deltas : Forall (is_u 64) (add_counters cs deltas).
Proof.
  revert deltas. induction cs as [|c cs IH]; intros [|d deltas]; constructor; [|apply IH].
  apply (wrap_u_range 64). lia.
Qed.

Lemma count_rdt_counters rdt h :
  counters_ok h →
  counters (count_rdt rdt h).1 = add_counters (counters h)
    [0; 0; 0; 0; 0; if is_kind Sequence.Gap rdt then Sequence.gap rdt else 0;
     one_if (is_kind Sequence.Duplicate rdt); one_if (is_kind Sequence.OutOfOrder rdt);
     0; 0; 0; 0; 0; 0; 0; 0].
Proof.
  intros Hok. unfold count_rdt, is_kind. destruct (Sequence.kind rdt); counters_solve Hok.
Qed.

Lemma count_ft_counters ft h :
  counters_ok h →
  counters (count_ft ft h) = add_counters (counters h)
    [0; 0; 0; 0; 0; 0; 0; 0; one_if (bool_decide (ft = Sequence.FtStall));
     one_if (bool_decide (ft = Sequence.FtBackward));
     one_if (bool_decide (ft = Sequence.FtRestart)); 0; 0; 0; 0; 0].
Proof. intros Hok. unfold count_ft. destruct ft; counters_solve Hok. Qed.

Lemma count_severity_counters config severity d h :
  counters_ok h →
  counters (count_severity config severity d h).1.1 = add_counters (counters h)
    [0; 0; 0; one_if (bool_decide (severity = Status.SeverityError));
     one_if (bool_decide (severity = Status.SeverityWarn));
     0; 0; 0; 0; 0; 0; 0; 0; 0; 0; 0].
Proof. intros Hok. destruct severity; counters_solve Hok. Qed.

(** A record that is to be delivered but for the rate limit. *)
Definition wanted (config : Config) (rdt : Sequence.SequenceObservation)
    (ft : Sequence.FtSequenceKind) (severity : Status.StatusSeverity) : bool :=
  negb (is_kind Sequence.Duplicate rdt) && negb (is_kind Sequence.OutOfOrder rdt) &&
  (negb (bool_decide (severity = Status.SeverityError)) ||
   Config.deliver_samples_with_error_status config) &&
  negb (bool_decide (ft = Sequence.FtStall ∨ ft = Sequence.FtBackward)).

(** C25: every record is counted exactly once in each class it belongs to, and nowhere
    else. A handled record adds one to [received_count], the gap of its RDT sequence to
    [lost_count], one to the counters of its RDT class, F/T class and status severity,
    and one to [rate_limited_count] exactly when it was to be delivered and the rate limit
    forbids it, modulo 2^64; the other counters do not move. *)
Theorem account_record_counts record t i i' acc :
  counters_ok (health_ i) → account_record record t i = (i', Ok acc) →
  let rdt := (Sequence.rdt_observe (rdt_sequence_ i) (Rdt.rdt_sequence record)).2 in
  let ft := (Sequence.ft_observe (ft_sequence_ i) (Rdt.ft_sequence record)).2 in
  let severity := Status.classify_status (Rdt.status record) in
  let limited := wanted (config_ i) rdt ft severity &&
                 bool_decide (rate_limited (config_ i) (last_delivery_at_ i) t = Ok true) in
  counters (health_ i') = add_counters (counters (health_ i)) (record_deltas rdt ft severity limited).
Proof.
  unfold account_record. intros Hok Hacc.
  destruct (Sequence.rdt_observe _ _) as [tr rdt]. destruct (Sequence.ft_observe _ _) as [tf ft].
  cbv zeta in *. cbn [snd].
  destruct (HealthSnapshot.sensor_configuration _) as [conf|]; [|discriminate].
  destruct (prune_rate_window _ _) as [window|e|]; [|discriminate..].
  match type of Hacc with context [count_rdt rdt ?h] => set (h0 := h) in Hacc end.
  assert (E0 : counters h0 = add_counters (counters (health_ i))
                 [1; 0; 0; 0; 0; 0; 0; 0; 0; 0; 0; 0; 0; 0; 0; 0]) by counters_solve Hok.
  clearbody h0.
  assert (Hok0 : counters_ok h0) by (unfold counters_ok; rewrite E0; apply add_counters_ok).
  pose proof (count_rdt_counters rdt h0 Hok0) as E1. pose proof (count_rdt_deliver rdt h0) as D1.
  destruct (count_rdt rdt h0) as [h1 d1]. cbn [fst snd] in E1, D1.
  assert (Hok1 : counters_ok h1) by (unfold counters_ok; rewrite E1; apply add_counters_ok).
  pose proof (count_ft_counters ft h1 Hok1) as E2. set (h2 := count_ft ft h1) in *. clearbody h2.
  assert (Hok2 : counters_ok h2) by (unfold counters_ok; rewrite E2; apply add_counters_ok).
  match type of Hacc with context [count_severity ?c ?s ?d ?h] =>
    pose proof (count_severity_counters c s d h Hok2) as E3;
    pose proof (count_severity_decision c s d h) as [D3 O3];
    destruct (count_severity c s d h) as [[h3 d3] o3] end.
  cbn [fst snd] in E3, D3, O3. rewrite E2, E1, E0, !add_counters_trans in E3. cbn [zip_with] in E3.
  assert (Hok3 : counters_ok h3) by (unfold counters_ok; rewrite E3; apply add_counters_ok).
  rewrite O3, ft_outcome_decision in Hacc.
  change (config_ (update_field ft_sequence_ _ _)) with (config_ i) in *.
  match type of Hacc with context [rate_limited ?c ?l t] =>
    change (rate_limited c l t) with (rate_limited (config_ i) (last_delivery_at_ i) t) in Hacc end.
  set (d4 := negb _ && d3) in Hacc.
  assert (d4 = wanted (config_ i) rdt ft (Status.classify_status (Rdt.status record))) as D4.
  { subst d4 d3 d1. unfold wanted. generalize (is_kind Sequence.Duplicate rdt).
    generalize (is_kind Sequence.OutOfOrder rdt). intros [] [];
      rewrite ?andb_false_r, ?andb_true_r; [done..|]. apply andb_comm. }
  rewrite D4 in Hacc. clear D4 d4.
  unfold record_deltas. destruct (wanted _ _ _ _).
  - destruct (rate_limited (config_ i) (last_delivery_at_ i) t) as [[]|e|]; try discriminate Hacc.
    + injection Hacc as <- <-. rewrite bool_decide_eq_true_2 by done.
      transitivity (add_counters (counters h3) [0; 0; 1; 0; 0; 0; 0; 0; 0; 0; 0; 0; 0; 0; 0; 0]);
        [counters_solve Hok3|]. rewrite E3, add_counters_trans. cbn [zip_with].
      rewrite ?Z.add_0_r, ?Z.add_0_l. done.
    + injection Hacc as <- <-. rewrite bool_decide_eq_false_2 by done.
      etransitivity; [exact E3|]. by rewrite ?Z.add_0_r, ?Z.add_0_l.
  - injection Hacc as <- <-.
    etransitivity; [exact E3|]. by rewrite ?Z.add_0_r, ?Z.add_0_l.
Qed.

(** ** Rate windows *)

(** The reference: the time stamps of the last second. *)
Definition recent (now : Z) (times : list Z) : list Z :=
  List.filter (λ t, now - t <=? second) times.

Fixpoint nondecreasing (times : list Z) : Prop :=
  match times with
  | [] => True
  | t :: rest => Forall (λ u, t ≤ u) rest ∧ nondecreasing rest
  end.

Lemma recent_all now times : Forall (λ u, now - second ≤ u) times → recent now times = times.
Proof.
  intros H. induction H as [|t times Ht _ IH]; [done|]. unfold recent in *. simpl.
  rewrite (proj2 (Z.leb_le _ _)) by lia. by rewrite IH.
Qed.

(** Popping expired time stamps from the front of an ordered window is filtering. *)
Lemma prune_rate_window_recent times now :
  nondecreasing times → times_ok times → 0 ≤ now ≤ ticks_max →
  prune_rate_window times now = Ok (recent now times).
Proof.
  intros Hs Ht Hn. induction Ht as [|t times Ht _ IH]; [done|]. destruct Hs as [Hle Hs].
  cbn [prune_rate_window]. rewrite checked_i_ok by (unfold is_i, ticks_max in *; lia).
  cbn [mbind Res_bind]. unfold recent; cbn [List.filter].
  destruct (Z.ltb_spec second (now - t)).
  - rewrite (proj2 (Z.leb_gt _ _)) by lia. by apply IH.
  - rewrite (proj2 (Z.leb_le _ _)) by lia. f_equal. f_equal. symmetry. apply recent_all.
    eapply Forall_impl; [exact Hle|]. simpl. lia.
Qed.

Lemma recent_app now l1 l2 : recent now (l1 ++ l2) = recent now l1 ++ recent now l2.
Proof. apply List.filter_app. Qed.

(** Pruning twice, the second time later, is pruning once. *)
Lemma recent_recent t now times : t ≤ now → recent now (recent t times) = recent now times.
Proof.
  intros Ht. induction times as [|u times IH]; [done|]. unfold recent in *. simpl.
  destruct (Z.leb_spec (t - u) second); simpl; [by rewrite IH|].
  rewrite (proj2 (Z.leb_gt _ _)) by lia. done.
Qed.

Lemma recent_Forall (Q : Z → Prop) now times : Forall Q times → Forall Q (recent now times).
Proof.
  intros H. induction H as [|u times Hu _ IH]; [done|]. unfold recent in *. simpl.
  case_match; [by constructor|done].
Qed.

Lemma nondecreasing_recent now times : nondecreasing times → nondecreasing (recent now times).
Proof.
  induction times as [|u times IH]; [done|]. intros [H1 H2]. unfold recent in *. simpl.
  case_match; [|auto]. split; [by apply recent_Forall|auto].
Qed.

Lemma nondecreasing_snoc times t :
  nondecreasing times → Forall (λ u, u ≤ t) times → nondecreasing (times ++ [t]).
Proof.
  induction times as [|u times IH]; intros Hs Ht; [done|]. destruct Hs as [H1 H2].
  apply Forall_cons in Ht as [Hu Ht]. simpl. split; [|auto]. by apply Forall_snoc.
Qed.

(** What a handled record leaves alone in a snapshot. *)
Definition same_setup (h h' : HealthSnapshot) : Prop :=
  HealthSnapshot.sensor_configuration h' = HealthSnapshot.sensor_configuration h ∧
  HealthSnapshot.state h' = HealthSnapshot.state h ∧
  HealthSnapshot.fault_code h' = HealthSnapshot.fault_code h ∧
  HealthSnapshot.last_error h' = HealthSnapshot.last_error h ∧
  HealthSnapshot.sensor_host h' = HealthSnapshot.sensor_host h ∧
  HealthSnapshot.rdt_port h' = HealthSnapshot.rdt_port h.

#[global] Instance same_setup_trans : Transitive same_setup.
Proof. unfold same_setup. intros ???. intuition congruence. Qed.

Lemma count_all_setup config rdt ft severity d h :
  same_setup h (count_rdt rdt h).1 ∧ same_setup h (count_ft ft h) ∧
  same_setup h (count_severity config severity d h).1.1.
Proof.
  split_and!; unfold count_rdt, count_ft, count_severity;
    [destruct (Sequence.kind rdt)|destruct ft|destruct severity]; done.
Qed.

(** A handled record, field by field, when a configuration is known. *)
Lemma account_record_shape record t i conf w :
  HealthSnapshot.sensor_configuration (health_ i) = Some conf →
  prune_rate_window (receive_times_ i ++ [t]) t = Ok w →
  0 ≤ last_delivery_at_ i ≤ ticks_max → 0 ≤ t ≤ ticks_max →
  ∃ tr tf h acc,
    account_record record t i =
      (i <| rdt_sequence_ := tr |> <| ft_sequence_ := tf |> <| receive_times_ := w |>
         <| last_record_at_ := t |> <| health_ := h |>, Ok acc) ∧
    same_setup ((health_ i) <| HealthSnapshot.state := ClientState.Streaming |>) h ∧
    configuration acc = conf ∧
    tr = (Sequence.rdt_observe (rdt_sequence_ i) (Rdt.rdt_sequence record)).1 ∧
    tf = (Sequence.ft_observe (ft_sequence_ i) (Rdt.ft_sequence record)).1.
Proof.
  intros Hc Hw Hl Ht. unfold account_record.
  destruct (Sequence.rdt_observe _ _) as [tr rdt]. destruct (Sequence.ft_observe _ _) as [tf ft].
  cbv zeta. cbn [fst].
  change (HealthSnapshot.sensor_configuration (health_ (update_field ft_sequence_ _ _)))
    with (HealthSnapshot.sensor_configuration (health_ i)). rewrite Hc.
  change (receive_times_ (update_field ft_sequence_ _ _)) with (receive_times_ i). rewrite Hw.
  match goal with |- context [count_rdt rdt ?h] => set (h0 := h) end.
  assert (E0 : same_setup ((health_ i) <| HealthSnapshot.state := ClientState.Streaming |>) h0)
    by done. clearbody h0.
  destruct (count_all_setup (config_ i) rdt ft Status.SeverityOk false h0) as (E1 & _).
  destruct (count_rdt rdt h0) as [h1 d1]. cbn [fst] in E1.
  destruct (count_all_setup (config_ i) rdt ft Status.SeverityOk false h1) as (_ & E2 & _).
  set (h2 := count_ft ft h1) in *. clearbody h2.
  match goal with |- context [count_severity ?c ?s ?d ?h] =>
    destruct (count_all_setup c rdt ft s d h) as (_ & _ & E3);
    destruct (count_severity c s d h) as [[h3 d3] o3] end.
  cbn [fst] in E3.
  assert (E : same_setup ((health_ i) <| HealthSnapshot.state := ClientState.Streaming |>) h3)
    by (do 3 (etransitivity; [eassumption|]); done).
  clear E0 E1 E2 E3.
  destruct (ft_outcome _ ft d3 o3) as [d4 o4]. destruct d4; [|by eexists tr, tf, h3, _].
  match goal with |- context [rate_limited ?c ?l t] =>
    change (rate_limited c l t) with (rate_limited (config_ i) (last_delivery_at_ i) t) end.
  destruct (rate_limited_ok (config_ i) (last_delivery_at_ i) t Hl Ht) as [[] ->];
    [by eexists tr, tf, _, _|by eexists tr, tf, h3, _].
Qed.

(** Calls that touch the receive window, with the clock reading each one takes. *)
Inductive WindowEvent := WRecord (record : Rdt.RawRecord) (t : Z) | WHealth (t : Z).

Definition event_time (e : WindowEvent) : Z := match e with WRecord _ t | WHealth t => t end.

(** The clock after the events, started at [t]. *)
Fixpoint last_time (t : Z) (events : list WindowEvent) : Z :=
  match events with [] => t | e :: events => last_time (event_time e) events end.

Lemma last_time_le t events now :
  nondecreasing (t :: map event_time events ++ [now]) →
  last_time t events ≤ now ∧ t ≤ now ∧ nondecreasing (t :: map event_time events).
Proof.
  revert t. induction events as [|e events IH]; intros t [Hle Hs].
  { apply Forall_cons in Hle as [Hle _]. by repeat split. }
  cbn [map last_time] in *. destruct (IH (event_time e) Hs) as (H1 & H2 & H3).
  split; [done|]. apply Forall_cons in Hle as [Ht Hle].
  split; [lia|]. split; [|done]. constructor; [done|]. by apply Forall_app in Hle as [? _].
Qed.

Definition window_step (e : WindowEvent) (i : Impl) : Impl :=
  match e with
  | WRecord record t => (account_record record t i).1
  | WHealth t => match health t i with Ok (_, i') => i' | _ => i end
  end.

Definition record_times (events : list WindowEvent) : list Z :=
  flat_map (λ e, match e with WRecord _ t => [t] | WHealth _ => [] end) events.

(** The window holds what was received in the second before [t]. *)
Definition window_inv (i : Impl) (history : list Z) (t : Z) : Prop :=
  receive_times_ i = recent t history ∧ nondecreasing history ∧ times_ok history ∧
  Forall (λ u, u ≤ t) history ∧ times_ok (delivery_times_ i) ∧
  (0 ≤ last_record_at_ i ≤ ticks_max) ∧ (0 ≤ last_delivery_at_ i ≤ ticks_max) ∧
  HealthSnapshot.sensor_configuration (health_ i) ≠ None.

Lemma health_ok now i :
  times_ok (receive_times_ i) → times_ok (delivery_times_ i) →
  0 ≤ last_record_at_ i ≤ ticks_max → 0 ≤ now ≤ ticks_max →
  ∃ snapshot r d,
    prune_rate_window (receive_times_ i) now = Ok r ∧
    prune_rate_window (delivery_times_ i) now = Ok d ∧
    health now i = Ok (snapshot, i <| receive_times_ := r |> <| delivery_times_ := d |>) ∧
    HealthSnapshot.receive_rate_hz snapshot = d_of_Z (Z.of_nat (length r)) ∧
    HealthSnapshot.delivery_rate_hz snapshot = d_of_Z (Z.of_nat (length d)) ∧
    HealthSnapshot.fault_code snapshot = fault_code i ∧
    (faulted i = true → HealthSnapshot.state snapshot = ClientState.Faulted).
Proof.
  intros Hr Hd Hl Hn. unfold health.
  destruct (prune_rate_window_ok _ now Hr Hn) as (r & -> & _).
  destruct (prune_rate_window_ok _ now Hd Hn) as (d & -> & _). cbn [mbind Res_bind].
  change (last_record_at_ (update_field delivery_times_ _ _)) with (last_record_at_ i).
  rewrite checked_i_ok by (unfold is_i, ticks_max in *; lia).
  assert (Hf : ∀ h : HealthSnapshot,
    HealthSnapshot.fault_code
      (if bool_decide (HealthSnapshot.fault_code h ≠ FaultCode.None)
       then h <| HealthSnapshot.state := ClientState.Faulted |> else h) =
    HealthSnapshot.fault_code h) by (intros; by case_match).
  destruct (last_record_at_ i =? 0); cbn [negb mbind Res_bind];
    (eexists _, r, d; do 5 (split; [reflexivity|]); split; [etransitivity; [apply Hf|done]|]);
    unfold faulted, FaultLatch.faulted; intros Hfault%bool_decide_eq_true_1;
    rewrite bool_decide_eq_true_2 by done; done.
Qed.

Lemma window_step_inv e i history t :
  window_inv i history t → t ≤ event_time e ≤ ticks_max → 0 ≤ event_time e →
  window_inv (window_step e i) (history ++ record_times [e]) (event_time e).
Proof.
  intros (Hw & Hs & Hok & Hle & Hd & Hr & Hl & Hc) Ht H0.
  assert (Hle' : Forall (λ u, u ≤ event_time e) history)
    by (eapply Forall_impl; [exact Hle|]; simpl; lia).
  assert (Hrok : times_ok (receive_times_ i)) by (rewrite Hw; by apply recent_Forall).
  destruct e as [record u|u]; simpl in *.
  - destruct (HealthSnapshot.sensor_configuration (health_ i)) as [conf|] eqn:Ec; [|done].
    assert (Hp : prune_rate_window (receive_times_ i ++ [u]) u = Ok (recent u (history ++ [u]))).
    { rewrite prune_rate_window_recent; [| |apply Forall_snoc; [done|lia]|lia].
      - by rewrite Hw, !recent_app, recent_recent by lia.
      - rewrite Hw. apply nondecreasing_snoc; [by apply nondecreasing_recent|].
        by apply recent_Forall. }
    destruct (account_record_shape record u i conf _ Ec Hp) as (tr & tf & h & acc & -> & Hh & _);
      [lia|lia|]. cbn [fst].
    unfold window_inv. cbn in Hh |- *. split_and!; try done; try lia.
    + by apply nondecreasing_snoc.
    + apply Forall_snoc; [done|lia].
    + apply Forall_snoc; [done|lia].
    + destruct Hh as [Hh _]. cbn in *. by rewrite Hh, Ec.
  - rewrite app_nil_r.
    destruct (health_ok u i Hrok Hd Hr) as (sn & r & d & Epr & Epd & -> & _); [lia|].
    rewrite prune_rate_window_recent in Epr; [|rewrite Hw; by apply nondecreasing_recent|done|lia].
    assert (Hd' : times_ok d) by (by eapply prune_times_ok).
    injection Epr as <-. unfold window_inv. cbn. rewrite Hw, recent_recent by lia. done.
Qed.

Fixpoint window_run (events : list WindowEvent) (i : Impl) : Impl :=
  match events with [] => i | e :: events => window_run events (window_step e i) end.

Lemma window_run_inv events i history t :
  window_inv i history t → nondecreasing (t :: map event_time events) → 0 ≤ t →
  Forall (λ e, event_time e ≤ ticks_max) events →
  window_inv (window_run events i) (history ++ record_times events)
    (last_time t events).
Proof.
  revert i history t. induction events as [|e events IH]; intros i history t Hi Hs H0 Hm.
  { by rewrite app_nil_r. }
  apply Forall_cons in Hm as [He Hm]. destruct Hs as [Hle Hs].
  apply Forall_cons in Hle as [Hte Hle]. cbn [window_run last_time].
  replace (history ++ record_times (e :: events))
    with ((history ++ record_times [e]) ++ record_times events).
  - apply IH; [eapply window_step_inv; [done|lia|lia]|done|lia|done].
  - unfold record_times. cbn [flat_map]. by rewrite app_nil_r, <-app_assoc.
Qed.

(** The reported receive rate is exact. After any number of records and of
    concurrent [health()] calls, at clock readings that never go back, the
    [receive_rate_hz] of a snapshot taken at [now] is the number of records
    received at most one second before [now], however often the window was pruned
    in between. *)
Theorem receive_rate_exact i events now :
  window_inv i [] 0 → nondecreasing (0 :: map event_time events ++ [now]) →
  Forall (λ e, event_time e ≤ ticks_max) events → now ≤ ticks_max →
  ∃ snapshot i', health now (window_run events i) = Ok (snapshot, i') ∧
    HealthSnapshot.receive_rate_hz snapshot =
      d_of_Z (Z.of_nat (length (recent now (record_times events)))).
Proof.
  intros Hi Hs Hm Hn.
  assert (Hlast : last_time 0 events ≤ now ∧ 0 ≤ now ∧
                  nondecreasing (0 :: map event_time events)) by (by apply last_time_le).
  destruct Hlast as (Hlast & H0 & Hs').
  pose proof (window_run_inv events i [] 0 Hi Hs' ltac:(lia) Hm)
    as (Hw & Hsort & Hok & _ & Hd & Hr & _).
  destruct (health_ok now (window_run events i)) as (sn & r & d & Epr & _ & -> & Er & _);
    [rewrite Hw; by apply recent_Forall|done|done|lia|].
  exists sn. eexists. split; [done|]. rewrite Er. rewrite prune_rate_window_recent in Epr;
    [|rewrite Hw; by apply nondecreasing_recent|rewrite Hw; by apply recent_Forall|lia].
  injection Epr as <-. by rewrite Hw, recent_recent.
Qed.

(** ** Scaled samples *)

(** What is known of a stored configuration: its calibration passed [validate]. *)
Definition calibration_ok (c : Calibration) : Prop :=
  d_valid (Calibration.counts_per_force_unit c) ∧
  d_valid (Calibration.counts_per_torque_unit c) ∧
  Types.validate_calibration c = Ok ().

Lemma make_sample_ok record t conf :
  Rdt.record_wf record → calibration_ok (SensorConfiguration.calibration conf) →
  ∃ s, make_sample record t conf = Some s ∧
    Forall (λ x, isfinite x = true) (Sample.force s ++ Sample.torque s).
Proof.
  intros (_ & _ & _ & H1 & H2 & H3 & H4 & H5 & H6) (Hf & Ht & Hv).
  unfold Types.validate_calibration in Hv. res_inv.
  repeat match goal with x : () |- _ => destruct x end.
  apply (Types.require_safe_count_name _ "") in H, H0.
  unfold make_sample. simpl forallb.
  rewrite !Types.scaled_count_finite by done. simpl.
  eexists. split; [done|]. simpl.
  repeat constructor; by apply Types.scaled_count_finite.
Qed.

(** The type of a delivered sample: fields within their widths, six raw counts, three
    finite forces and torques, known units, and a time of the clock. *)
Definition sample_ok (s : Sample) : Prop :=
  is_u 32 (Sample.rdt_sequence s) ∧ is_u 32 (Sample.ft_sequence s) ∧ is_u 32 (Sample.status s) ∧
  (length (Sample.raw_wrench s) = 6%nat ∧ Forall (is_i 32) (Sample.raw_wrench s)) ∧
  (length (Sample.force s) = 3%nat ∧ length (Sample.torque s) = 3%nat ∧
   Forall (λ x, isfinite x = true) (Sample.force s ++ Sample.torque s)) ∧
  Sample.force_unit s ≠ ForceUnit.Unknown ∧ Sample.torque_unit s ≠ TorqueUnit.Unknown ∧
  0 ≤ Sample.received_at s ≤ ticks_max.

Lemma make_sample_typed record t conf s :
  Rdt.record_wf record → calibration_ok (SensorConfiguration.calibration conf) →
  0 ≤ t ≤ ticks_max → make_sample record t conf = Some s → sample_ok s.
Proof.
  intros Hr Hc Ht E. destruct (make_sample_ok record t conf Hr Hc) as (s' & E' & Hf).
  assert (s' = s) as -> by congruence. clear E'.
  destruct Hr as (Hrs & Hfs & Hst & H1 & H2 & H3 & H4 & H5 & H6), Hc as (_ & _ & Hv).
  unfold Types.validate_calibration in Hv.
  apply bind_Ok_inv in Hv as ([] & _ & Hv). apply bind_Ok_inv in Hv as ([] & _ & Hu).
  destruct (bool_decide (_ = ForceUnit.Unknown) || bool_decide (_ = TorqueUnit.Unknown)) eqn:Eu; [done|].
  apply orb_false_iff in Eu as [Eu1%bool_decide_eq_false Eu2%bool_decide_eq_false].
  unfold make_sample in E. cbv zeta in E.
  match type of E with (if ?b then _ else _) = _ => destruct b; [discriminate|] end.
  injection E as <-. unfold sample_ok. cbn in *. split_and!; try done; try lia.
  repeat (apply Forall_cons_2; [done|]). apply Forall_nil_2.
Qed.

(** Samples are exact and finite. With a calibration that passed validation every
    well-typed record becomes a sample, with the six raw counts unchanged, each
    force and torque the rounded quotient of its count by the matching scale, all
    six finite, and the units and revision of the configuration it was scaled
    with: the path that reports a non-finite sample is dead. *)
Theorem make_sample_exact record t conf :
  Rdt.record_wf record → calibration_ok (SensorConfiguration.calibration conf) →
  let cal := SensorConfiguration.calibration conf in
  let counts := [Rdt.fx record; Rdt.fy record; Rdt.fz record;
                 Rdt.tx record; Rdt.ty record; Rdt.tz record] in
  ∃ s, make_sample record t conf = Some s ∧
    Sample.raw_wrench s = counts ∧
    Sample.force s =
      map (λ n, d_div (d_of_Z n) (Calibration.counts_per_force_unit cal)) (take 3 counts) ∧
    Sample.torque s =
      map (λ n, d_div (d_of_Z n) (Calibration.counts_per_torque_unit cal)) (drop 3 counts) ∧
    Forall (λ x, isfinite x = true) (Sample.force s ++ Sample.torque s) ∧
    Sample.configuration_revision s = SensorConfiguration.revision conf ∧
    Sample.received_at s = t.
Proof.
  intros Hr Hc. destruct (make_sample_ok record t conf Hr Hc) as (s & E & Hf). exists s.
  split; [done|]. unfold make_sample in E. cbv zeta in E.
  match type of E with (if ?b then _ else _) = _ => destruct b; [discriminate|] end.
  injection E as <-. done.
Qed.

(** ** Configuration revisions *)

Fixpoint apply_all (confs : list SensorConfiguration) (i : Impl) : Impl :=
  match confs with [] => i | c :: confs => apply_all confs (apply_configuration c i) end.

(** How often the calibration changes along a sequence of configurations. *)
Fixpoint changes (previous : Calibration) (confs : list SensorConfiguration) : Z :=
  match confs with
  | [] => 0
  | c :: confs =>
    (if same_calibration previous (SensorConfiguration.calibration c) then 0 else 1) +
    changes (SensorConfiguration.calibration c) confs
  end.

Fixpoint last_calibration (c : Calibration) (confs : list SensorConfiguration) : Calibration :=
  match confs with
  | [] => c
  | conf :: confs => last_calibration (SensorConfiguration.calibration conf) confs
  end.

Lemma apply_all_revision confs i previous n :
  HealthSnapshot.sensor_configuration (health_ i) = Some previous →
  SensorConfiguration.revision previous = u64 (1 + n) →
  is_u 64 (HealthSnapshot.calibration_change_count (health_ i)) →
  let d := changes (SensorConfiguration.calibration previous) confs in
  ∃ conf, HealthSnapshot.sensor_configuration (health_ (apply_all confs i)) = Some conf ∧
    SensorConfiguration.calibration conf =
      last_calibration (SensorConfiguration.calibration previous) confs ∧
    SensorConfiguration.revision conf = u64 (1 + n + d) ∧
    HealthSnapshot.calibration_change_count (health_ (apply_all confs i)) =
      u64 (HealthSnapshot.calibration_change_count (health_ i) + d).
Proof.
  revert i previous n. induction confs as [|c confs IH]; intros i previous n Hp Hr Hu d.
  { exists previous. unfold d. cbn [apply_all changes last_calibration].
    rewrite !Z.add_0_r. split_and!; [done|done|done|]. symmetry. by apply wrap_u_small. }
  unfold d. cbn [apply_all changes last_calibration]. unfold apply_configuration. rewrite Hp.
  destruct (same_calibration _ _).
  - destruct (IH (i <| health_ := (health_ i) <| HealthSnapshot.sensor_configuration :=
        Some (c <| SensorConfiguration.revision := SensorConfiguration.revision previous |>) |> |>)
      (c <| SensorConfiguration.revision := SensorConfiguration.revision previous |>) n)
      as (conf & E1 & E2 & E3 & E4); [done|done|done|].
    exists conf. rewrite Z.add_0_l. done.
  - destruct (IH (i <| health_ := (health_ i)
             <| HealthSnapshot.calibration_change_count ::= incr |>
             <| HealthSnapshot.sensor_configuration :=
                  Some (c <| SensorConfiguration.revision :=
                          incr (SensorConfiguration.revision previous) |>) |> |>)
      (c <| SensorConfiguration.revision := incr (SensorConfiguration.revision previous) |>) (n + 1))
      as (conf & E1 & E2 & E3 & E4);
      [done|cbn; rewrite Hr; unfold incr, wrap_u; mod_lia|cbn; apply (wrap_u_range 64); lia|].
    exists conf. split; [done|]. split; [done|].
    split; [rewrite E3; f_equal; cbn; lia|]. rewrite E4. cbn. unfold incr, wrap_u. mod_lia.
Qed.

(** The configuration revision identifies the calibration. After any sequence of
    session configurations, the stored one has the calibration of the last, its
    revision is one plus the number of times the calibration changed between
    consecutive sessions, and [calibration_change_count] grew by that number (both
    modulo 2^64): reconnecting to an unchanged sensor keeps the revision. *)
Theorem revision_counts_changes i c confs :
  HealthSnapshot.sensor_configuration (health_ i) = None →
  is_u 64 (HealthSnapshot.calibration_change_count (health_ i)) →
  let d := changes (SensorConfiguration.calibration c) confs in
  ∃ conf, HealthSnapshot.sensor_configuration (health_ (apply_all (c :: confs) i)) = Some conf ∧
    SensorConfiguration.calibration conf =
      last_calibration (SensorConfiguration.calibration c) confs ∧
    SensorConfiguration.revision conf = u64 (1 + d) ∧
    HealthSnapshot.calibration_change_count (health_ (apply_all (c :: confs) i)) =
      u64 (HealthSnapshot.calibration_change_count (health_ i) + d).
Proof.
  intros Hn Hu d. cbn [apply_all]. unfold apply_configuration. rewrite Hn.
  destruct (apply_all_revision confs
    (i <| health_ := (health_ i) <| HealthSnapshot.sensor_configuration :=
      Some (c <| SensorConfiguration.revision := 1 |>) |> |>)
    (c <| SensorConfiguration.revision := 1 |>) 0) as (conf & E1 & E2 & E3 & E4); [done..|].
  by exists conf.
Qed.

(** Applying a configuration only changes the snapshot, and stores its calibration. *)
Lemma apply_configuration_shape c i :
  ∃ h conf, apply_configuration c i = i <| health_ := h |> ∧
    HealthSnapshot.sensor_configuration h = Some conf ∧
    SensorConfiguration.calibration conf = SensorConfiguration.calibration c ∧
    HealthSnapshot.state h = HealthSnapshot.state (health_ i) ∧
    HealthSnapshot.fault_code h = HealthSnapshot.fault_code (health_ i).
Proof. unfold apply_configuration. repeat case_match; by eexists _, _. Qed.

(** ** Spacing of the deliveries *)

(** A record is only delivered when the rate limit allows it. *)
Lemma account_record_allowed record t i i' acc :
  account_record record t i = (i', Ok acc) → deliver acc = true →
  rate_limited (config_ i) (last_delivery_at_ i) t = Ok false.
Proof.
  unfold account_record. intros Hacc Hd.
  destruct (Sequence.rdt_observe _ _) as [tr rdt]. destruct (Sequence.ft_observe _ _) as [tf ft].
  cbv zeta in Hacc.
  destruct (HealthSnapshot.sensor_configuration _) as [conf|]; [|discriminate].
  destruct (prune_rate_window _ _) as [window|e|]; [|discriminate..].
  destruct (count_rdt _ _) as [h1 d1]. destruct (count_severity _ _ _ _) as [[h2 d2] o2].
  destruct (ft_outcome _ _ _ _) as [[] o3]; [|by injection Hacc as _ <-].
  match type of Hacc with context [rate_limited ?c ?l t] =>
    change (rate_limited c l t) with (rate_limited (config_ i) (last_delivery_at_ i) t) in Hacc end.
  destruct (rate_limited (config_ i) (last_delivery_at_ i) t) as [[]|e|]; try discriminate Hacc;
    by injection Hacc as _ <-.
Qed.

(** [handle_record] of lines 527-683 when the callback returns normally and no other
    thread runs in between; the result says whether a sample was delivered. *)
Definition handle_quietly (record : Rdt.RawRecord) (t : Z) (i : Impl) : Impl * bool :=
  match account_record record t i with
  | (i', Ok acc) =>
    if deliver acc then
      match make_sample record t (configuration acc) with
      | Some sample =>
        match record_delivery sample t i' with Ok i'' => (i'', true) | _ => (i', false) end
      | None => (i', false)
      end
    else (i', false)
  | (i', _) => (i', false)
  end.

Fixpoint deliveries (inputs : list (Rdt.RawRecord * Z)) (i : Impl) : list Z :=
  match inputs with
  | [] => []
  | (record, t) :: inputs =>
    let '(i', delivered) := handle_quietly record t i in
    (if delivered then [t] else []) ++ deliveries inputs i'
  end.

(** Every delivery after [last] is allowed by the rate limit, given the one before. *)
Fixpoint spaced (config : Config) (last : Z) (times : list Z) : Prop :=
  match times with
  | [] => True
  | t :: times => rate_limited config last t = Ok false ∧ spaced config t times
  end.

Lemma handle_quietly_step record t i i' delivered :
  handle_quietly record t i = (i', delivered) →
  config_ i' = config_ i ∧
  if delivered
  then last_delivery_at_ i' = t ∧ rate_limited (config_ i) (last_delivery_at_ i) t = Ok false
  else last_delivery_at_ i' = last_delivery_at_ i.
Proof.
  unfold handle_quietly.
  pose proof (account_record_allowed record t i) as Hallow.
  assert (Hkeep : config_ (account_record record t i).1 = config_ i ∧
                  last_delivery_at_ (account_record record t i).1 = last_delivery_at_ i).
  { unfold account_record. repeat case_match; done. }
  destruct (account_record record t i) as [i1 r]. cbn [fst] in Hkeep. destruct Hkeep as [Hc Hl].
  destruct r as [acc|e|]; [|by intros [= <- <-]..].
  destruct (deliver acc) eqn:Hd; [|by intros [= <- <-]].
  destruct (make_sample _ _ _) as [sample|]; [|by intros [= <- <-]].
  unfold record_delivery. destruct (prune_rate_window _ _); [|by intros [= <- <-]..].
  intros [= <- <-]. split; [done|]. split; [done|]. by eapply Hallow.
Qed.

(** The rate limit is respected along the whole stream. For any sequence of
    records, each delivered sample's receive time passes the rate test against
    the delivery before it: the elapsed nanoseconds are not below
    1e9 / sample_rate_limit_hz. *)
Theorem rate_limit_spacing inputs i :
  spaced (config_ i) (last_delivery_at_ i) (deliveries inputs i).
Proof.
  revert i. induction inputs as [|[record t] inputs IH]; intros i; [done|]. cbn [deliveries].
  destruct (handle_quietly record t i) as [i' delivered] eqn:E.
  destruct (handle_quietly_step _ _ _ _ _ E) as [Hc Hd]. specialize (IH i').
  destruct delivered; cbn [app spaced].
  - destruct Hd as [Hl Hr]. rewrite Hc, Hl in IH. done.
  - by rewrite Hc, Hd in IH.
Qed.

(** ** Witnesses *)

Definition unit_calibration : Calibration :=
  {| Calibration.counts_per_force_unit := d_of_Z 1000000;
     Calibration.counts_per_torque_unit := d_of_Z 1000000;
     Calibration.force_unit := ForceUnit.Newton;
     Calibration.torque_unit := TorqueUnit.NewtonMeter |}.

Definition unit_configuration : SensorConfiguration :=
  {| SensorConfiguration.product_name := "";
     SensorConfiguration.calibration := unit_calibration;
     SensorConfiguration.source := CalibrationSource.Override;
     SensorConfiguration.revision := 1 |}.

Definition override_config : Config :=
  Config.default_Config <| Config.calibration_override := Some unit_calibration |>.

(** A client whose session has its configuration. *)
Definition configured_impl : Impl :=
  apply_configuration unit_configuration (initial_impl override_config).

Definition record_with (seq status : Z) : Rdt.RawRecord :=
  {| Rdt.rdt_sequence := seq; Rdt.ft_sequence := seq; Rdt.status := status;
     Rdt.fx := 1000000; Rdt.fy := -1; Rdt.fz := 0; Rdt.tx := 0; Rdt.ty := 0; Rdt.tz := 5 |}.

Lemma account_record_decision_witness :
  ∃ i acc, account_record (record_with 7 0x80000000) 5 configured_impl = (i, Ok acc) ∧
    outcome acc = Some RSeriousStatus.
Proof.
  destruct (account_record (record_with 7 0x80000000) 5 configured_impl) as [i [acc|e|]] eqn:E;
    [|apply (f_equal snd) in E; vm_compute in E; discriminate E..].
  exists i, acc. split; [reflexivity|].
  destruct (account_record_decision _ _ _ _ _ E) as (l & _ & _ & Ho).
  rewrite Ho. vm_compute. reflexivity.
Defined.

Lemma counters_ok_configured : counters_ok (health_ configured_impl).
Proof.
  unfold counters_ok. apply (bool_decide_unpack _). vm_compute. exact I.
Qed.

Lemma account_record_counts_witness :
  ∃ i acc, account_record (record_with 7 0) 5 configured_impl = (i, Ok acc) ∧
    counters (health_ i) = add_counters (counters (health_ configured_impl))
      [1; 0; 0; 0; 0; 0; 0; 0; 0; 0; 0; 0; 0; 0; 0; 0].
Proof.
  destruct (account_record (record_with 7 0) 5 configured_impl) as [i [acc|e|]] eqn:E;
    [|apply (f_equal snd) in E; vm_compute in E; discriminate E..].
  exists i, acc. split; [reflexivity|].
  rewrite (account_record_counts _ _ _ _ _ counters_ok_configured E). reflexivity.
Defined.

Lemma receive_rate_exact_witness :
  ∃ snapshot i', health 1500000000
      (window_run [WRecord (record_with 1 0) 100; WHealth 200; WRecord (record_with 2 0) 600000000]
         configured_impl) = Ok (snapshot, i') ∧
    HealthSnapshot.receive_rate_hz snapshot = d_of_Z 1.
Proof.
  destruct (receive_rate_exact configured_impl
    [WRecord (record_with 1 0) 100; WHealth 200; WRecord (record_with 2 0) 600000000] 1500000000)
    as (snapshot & i' & E & Hr).
  - unfold window_inv. split_and!; first [constructor|vm_compute; congruence].
  - repeat constructor; vm_compute; congruence.
  - repeat constructor; vm_compute; congruence.
  - vm_compute; congruence.
  - exists snapshot, i'. split; [exact E|]. rewrite Hr. vm_compute. reflexivity.
Defined.

Lemma make_sample_exact_witness :
  ∃ s, make_sample (record_with 7 0) 5 unit_configuration = Some s ∧
    Sample.raw_wrench s = [1000000; -1; 0; 0; 0; 5].
Proof.
  destruct (make_sample_exact (record_with 7 0) 5 unit_configuration) as (s & E & Hr & _).
  - vm_compute. split_and!; congruence.
  - vm_compute. split_and!; reflexivity.
  - exists s. split; [exact E|exact Hr].
Defined.

Lemma revision_counts_changes_witness :
  ∃ conf, HealthSnapshot.sensor_configuration
      (health_ (apply_all [unit_configuration; unit_configuration] (initial_impl override_config)))
      = Some conf ∧ SensorConfiguration.revision conf = 1.
Proof.
  destruct (revision_counts_changes (initial_impl override_config) unit_configuration
              [unit_configuration]) as (conf & E & _ & Hr & _);
    [reflexivity|vm_compute; split; congruence|].
  exists conf. split; [exact E|]. rewrite Hr. vm_compute. reflexivity.
Defined.

Lemma start_rollback_exact_witness :
  let i := set_fault FaultCode.Timeout "no data" (initial_impl override_config) in
  fault_code i = FaultCode.Timeout ∧
  start_worker (throw runtime_error "no threads") (Some 1%nat) i =
    (throw runtime_error "no threads", i).
Proof.
  split; [reflexivity|]. apply start_rollback_exact. intros _. split; reflexivity.
Defined.

End Client.
