(* ===== verification/Worker.v ===== *)
(** * The receiving thread: core/src/detail/client_impl.cpp

    The worker's functions ([run], [receive_session], [handle_record],
    [close_session], [finish_session]) and the methods other threads may call on the
    client while it runs ([stop] up to its join, [bias], [health]). The state is a
    [World]: the client, its transport and kernel, libcurl, and a scheduler. Before
    every lock the worker takes and every atomic it loads, [yield] runs the actions
    the scheduler gives the other threads, so the theorems hold for every
    interleaving of the critical sections. *)

From Stdlib Require Import ZArith Lia String Strings.Byte.
From Corelib Require Import SpecFloat.
From S2P Require Import Prelude Effects Floats Clock Types Status Protocol Sequence FaultLatch.
From S2P Require Import Decimal XmlConfig Discovery Transport Client.
Import Fp Clock Client.

Module Worker.

(** What another thread can do to a running client. [AStopping] and [AStopCommand]
    are the two sections of [stop()] before it waits for the worker. *)
Inductive Action := AStopping | AStopCommand | ABias | AHealth.

(** How the user's callback ends: normally, with a [std::exception], or with
    something else. *)
Inductive CallbackResult := CbReturn | CbStd (what : string) | CbOther.

(** [curl n] answers the [n]-th discovery, [schedule n] is what other threads do at
    the [n]-th yield, [respond n] is the [n]-th invocation of the callback (its own
    calls into the client are scheduled at the yields around it), and
    [invocations] are the samples it was given. *)
Record World := {
  impl : Impl;
  link : Transport.Link;
  curl : nat → Discovery.CurlEnv;
  discoveries : nat;
  curl_once : option Z;
  schedule : nat → list Action;
  shutdown_seen : nat → nat → bool;
  yields : nat;
  respond : nat → Sample → CallbackResult;
  invocations : list Sample
}.

#[global] Instance World_eta : Eta World := λ r,
  {| impl := impl r; link := link r; curl := curl r; discoveries := discoveries r;
     curl_once := curl_once r; schedule := schedule r; shutdown_seen := shutdown_seen r;
     yields := yields r; respond := respond r; invocations := invocations r |}.

Definition on_link {A} : M Transport.Link A → M World A :=
  on_field link (λ l w, w <| link := l |>).

Definition on_impl (f : Impl → Impl) : M World () := modify (λ w, w <| impl ::= f |>).

Definition read {A} (f : Impl → A) : M World A := w ← get; mret (f (impl w)).

Definition now : M World Z := on_link Transport.now.

Section worker.
Context `{P : Platform} `{Ops : Transport.UdpTransportOps}.

Definition send_command (c : Rdt.Command) : M World () :=
  on_link (Transport.t_send (Rdt.encode_request c 0)).

(** ** Methods called by other threads *)

(** Source: core/src/detail/client_impl.cpp:243-254, [Client::Impl::stop]: the block
    under [command_mutex_]. *)
Definition stop_command : M World () :=
  started ← read session_started_;
  _ ← (if started : bool
       then
         _ ← m_catch any_exception (send_command Rdt.StopStreaming) (λ _, mret ());
         on_impl (λ i, i <| session_started_ := false |>)
       else mret ());
  on_link Transport.shutdown.

(** Source: core/src/detail/client_impl.cpp:291-303, [Client::Impl::bias]. It holds
    [command_mutex_] and [record_mutex_] throughout. *)
Definition bias : M World () :=
  i ← read id;
  if stopping_ i || negb (session_started_ i) || faulted i
     || negb (bool_decide (HealthSnapshot.state (health_ i) = ClientState.Streaming))
  then m_throw NotConnectedError "client is not streaming"
  else
    _ ← send_command Rdt.SetSoftwareBias;
    _ ← send_command Rdt.StartRealtime;
    on_impl (λ i, i <| rdt_sequence_ ::= Sequence.rdt_reset |>).

(** [health()] called by another thread: it prunes the rate windows. *)
Definition observe_health : M World HealthSnapshot :=
  t ← now;
  w ← get;
  match health t (impl w) with
  | Ok (snapshot, i) => _ ← on_impl (λ _, i); mret snapshot
  | Throw e => lift (Throw e)
  | UB => lift UB
  end.

(** One action; what it throws goes to its own thread. [stop()] sets [stopping_]
    before it takes [command_mutex_]. *)
Definition act (a : Action) : M World () :=
  m_catch any_exception
    match a with
    | AStopping => on_impl (λ i, i <| stopping_ := true |>)
    | AStopCommand => stopping ← read stopping_; if stopping : bool then stop_command else mret ()
    | ABias => bias
    | AHealth => _ ← observe_health; mret ()
    end (λ _, mret ()).

Fixpoint act_all (actions : list Action) : M World () :=
  match actions with
  | [] => mret ()
  | a :: actions => _ ← act a; act_all actions
  end.

(** The other threads run. *)
Definition yield : M World () :=
  w ← get;
  _ ← act_all (schedule w (yields w));
  modify (λ w, w <| yields ::= S |>).

(** An atomic load by the worker. *)
Definition load {A} (f : Impl → A) : M World A := _ ← yield; read f.

(** A critical section of the worker. *)
Definition locked (f : Impl → Impl) : M World () := _ ← yield; on_impl f.

(** ** One record *)

(** The block of [handle_record] under [record_mutex_]. *)
Definition account (record : Rdt.RawRecord) (received_at : Z) : M World Accounted :=
  _ ← yield;
  w ← get;
  let '(i, r) := account_record record received_at (impl w) in
  _ ← on_impl (λ _, i);
  lift r.

(** Source: core/src/detail/client_impl.cpp:656-667, [Client::Impl::handle_record]: the
    call of the callback and how it ended. *)
Definition invoke_callback (sample : Sample) : M World CallbackResult :=
  _ ← yield;
  w ← get;
  match callback_ (impl w) with
  | None => mret CbReturn
  | Some _ =>
    _ ← modify (λ w, w <| invocations ::= λ l, l ++ [sample] |>);
    mret (respond w (length (invocations w)) sample)
  end.

(** The block of [handle_record] after a successful callback. *)
Definition complete_delivery (sample : Sample) (received_at : Z) : M World () :=
  _ ← yield;
  w ← get;
  i ← lift (record_delivery sample received_at (impl w));
  on_impl (λ _, i).

(** Source: core/src/detail/client_impl.cpp:527-683, [Client::Impl::handle_record]. *)
Definition handle_record (record : Rdt.RawRecord) (received_at : Z)
    : M World (option SessionResult) :=
  acc ← account record received_at;
  if negb (deliver acc) then mret (outcome acc)
  else
    match make_sample record received_at (configuration acc) with
    | None => mret (Some RSensorConfiguration)
    | Some sample =>
      called ← invoke_callback sample;
      config ← read config_;
      match called with
      | CbReturn =>
        _ ← complete_delivery sample received_at;
        mret (outcome acc)
      | CbStd what =>
        _ ← locked (record_callback_error what);
        mret (callback_failure_outcome config (outcome acc))
      | CbOther =>
        _ ← locked (record_callback_error "sample callback failed");
        mret (callback_failure_outcome config (outcome acc))
      end
    end.

(** ** One session *)

(** A [return] of [receive_session]. *)
Definition finish (r : SessionResult) (message : string) (valid : bool) : M World SessionOutcome :=
  mret {| result := r; message := message; received_valid_record := valid |}.

(** Whether a [stop()] among [actions] reaches its shutdown. *)
Fixpoint shuts_down (stopping : bool) (actions : list Action) : bool :=
  match actions with
  | [] => false
  | AStopping :: actions => shuts_down true actions
  | AStopCommand :: actions => stopping || shuts_down stopping actions
  | _ :: actions => shuts_down stopping actions
  end.

(** Source: core/src/detail/client_impl.cpp:484-484, [Client::Impl::receive_session]: the
    blocking call. The other threads run while it waits; [shutdown_seen] says at
    which of its locks it notices a [stop()]. *)
Definition transport_receive (timeout : double) : M World (list byte) :=
  w ← get;
  let stopped := shuts_down (stopping_ (impl w)) (schedule w (yields w)) in
  r ← m_catch std_exception
        (data ← on_link (Transport.t_receive (S (Transport.horizon (Transport.os (link w)))) 65536
                           timeout (λ k, stopped && shutdown_seen w (yields w) k));
         mret (inl data))
        (λ e, mret (inr e));
  _ ← yield;
  match r with inl data => mret data | inr e => lift (Throw e) end.

(** Source: core/src/detail/client_impl.cpp:492-499, [Client::Impl::receive_session]: a
    timeout (the same block is lines 473-480). *)
Definition timed_out (valid : bool) : M World SessionOutcome :=
  stopping ← load stopping_;
  if stopping : bool then finish RStopped "" valid
  else
    _ ← on_impl (λ i, i <| health_ ::= λ h, h <| HealthSnapshot.timeout_count ::= incr |> |>);
    finish RTimeout "" valid.

(** Source: core/src/detail/client_impl.cpp:501-523, [Client::Impl::receive_session]: what
    happens to a datagram. [continue] is the next iteration of the loop. *)
Definition process_datagram (continue : Z → bool → M World SessionOutcome) (data : list byte)
    (deadline : Z) (valid : bool) : M World SessionOutcome :=
  match Rdt.decode_record (Some data) (Z.of_nat (length data)) with
  | Ok record =>
    received_at ← now;
    _ ← locked (λ i, i <| consecutive_malformed_ := 0 |>);
    timeout ← read (λ i, Config.receive_timeout (config_ i));
    deadline ← lift (checked_deadline received_at timeout);
    outcome ← handle_record record received_at;
    match outcome with
    | Some r => finish r "" true
    | None => continue deadline true
    end
  | Throw e =>
    if bool_decide (exn_kind e = ProtocolError)
    then
      _ ← locked (λ i,
            i <| health_ ::= λ h, h <| HealthSnapshot.malformed_count ::= incr |> |>
              <| consecutive_malformed_ ::= incr |>);
      n ← read consecutive_malformed_;
      if kMalformedStormThreshold <=? n then finish RMalformedStorm "" valid
      else continue deadline valid
    else lift (Throw e)
  | UB => lift UB
  end.

(** Source: core/src/detail/client_impl.cpp:472-523, [Client::Impl::receive_session]: one
    iteration, once [stopping_] was seen false. *)
Definition receive_body (continue : Z → bool → M World SessionOutcome) (deadline : Z)
    (valid : bool) : M World SessionOutcome :=
  t ← now;
  if deadline <=? t then timed_out valid
  else
    received ← m_catch std_exception
      (data ← transport_receive (seconds_of_ticks (deadline - t)); mret (inl data))
      (λ e, stopping ← load stopping_;
            o ← finish (if stopping : bool then RStopped else RSocket) (what e) valid;
            mret (inr o));
    match received with
    | inr outcome => mret outcome
    | inl data =>
      stopping ← load stopping_;
      if stopping : bool then finish RStopped "" valid
      else if bool_decide (data = []) then timed_out valid
      else process_datagram continue data deadline valid
    end.

(** Source: core/src/detail/client_impl.cpp:471-524, [Client::Impl::receive_session]: the
    receive loop. *)
Fixpoint receive_loop (fuel : nat) (deadline : Z) (valid : bool) : M World SessionOutcome :=
  match fuel with
  | O => out_of_fuel
  | S fuel =>
    stopping ← load stopping_;
    if stopping : bool then finish RStopped "" valid
    else receive_body (receive_loop fuel) deadline valid
  end.

(** Source: core/src/detail/client_impl.cpp:440-445, [Client::Impl::receive_session]: the
    configuration of the session; [Some] is an early return. *)
Definition configure_session : M World (option SessionOutcome) :=
  m_catch (λ k, bool_decide (k = DiscoveryError))
    (w ← get;
     let '(once, r) := configuration_for_session (curl w (discoveries w)) (curl_once w)
                         (config_ (impl w)) in
     _ ← modify (λ w, w <| discoveries ::= S |> <| curl_once := once |>);
     configuration ← lift r;
     _ ← locked (apply_configuration configuration);
     mret None)
    (λ e,
     stopping ← load stopping_;
     o ← finish (if stopping : bool then RStopped else RSensorConfiguration) (what e) false;
     mret (Some o)).

(** Source: core/src/detail/client_impl.cpp:450-460, [Client::Impl::receive_session]: the
    connection and the start command; [Some] is an early return. *)
Definition open_session : M World (option SessionOutcome) :=
  m_catch std_exception
    (config ← read config_;
     _ ← on_link (Transport.t_connect (Config.sensor_host config) (Config.rdt_port config));
     stopping ← load stopping_;
     if stopping : bool then o ← finish RStopped "" false; mret (Some o)
     else
       _ ← send_command Rdt.StartRealtime;
       _ ← on_impl (λ i, i <| session_started_ := true |>);
       mret None)
    (λ e,
     stopping ← load stopping_;
     o ← finish (if stopping : bool then RStopped else RSocket) (what e) false;
     mret (Some o)).

(** Source: core/src/detail/client_impl.cpp:430-525, [Client::Impl::receive_session]. *)
Definition receive_session (fuel : nat) : M World SessionOutcome :=
  _ ← locked (λ i, i <| health_ ::= λ h, h <| HealthSnapshot.state := ClientState.Connecting |> |>);
  stopping ← load stopping_;
  if stopping : bool then finish RStopped "" false
  else
    configured ← configure_session;
    match configured with
    | Some outcome => mret outcome
    | None =>
      stopping ← load stopping_;
      if stopping : bool then finish RStopped "" false
      else
        opened ← open_session;
        match opened with
        | Some outcome => mret outcome
        | None =>
          _ ← locked (λ i, i <| rdt_sequence_ ::= Sequence.rdt_reset |>
                             <| ft_sequence_ ::= Sequence.begin_session |>);
          timeout ← read (λ i, Config.receive_timeout (config_ i));
          t ← now;
          deadline ← lift (checked_deadline t timeout);
          receive_loop fuel deadline false
        end
    end.

(** ** The thread *)

(** Source: core/src/detail/client_impl.cpp:710-721, [Client::Impl::close_session]. *)
Definition close_session : M World () :=
  _ ← yield;
  started ← read session_started_;
  _ ← (if started : bool
       then
         _ ← m_catch any_exception (send_command Rdt.StopStreaming) (λ _, mret ());
         on_impl (λ i, i <| session_started_ := false |>)
       else mret ());
  on_link Transport.close.

(** Source: core/src/detail/client_impl.cpp:723-736, [Client::Impl::finish_session]. *)
Definition finish_session : M World () :=
  _ ← close_session;
  _ ← locked (λ i, i <| worker_exited_ := true |>);
  fault ← load faulted;
  if fault : bool then mret ()
  else locked (λ i, i <| health_ ::= λ h, h <| HealthSnapshot.state := ClientState.Stopped |> |>).

(** Source: core/src/detail/client_impl.cpp:685-694, [Client::Impl::set_fault]. *)
Definition publish_fault (code : FaultCode) (message : string) : M World () :=
  locked (set_fault code message).

(** Source: core/src/detail/client_impl.cpp:389-391, [Client::Impl::run]: the default
    message. *)
Definition outcome_message (o : SessionOutcome) : string :=
  if String.eqb (message o) "" then message_for (result o) else message o.

(** Source: core/src/detail/client_impl.cpp:404-415, [Client::Impl::run]: the pause before
    the next session. [first_sample_cv_.wait_until] lets the other threads run and
    returns when [stopping_] is set or the deadline has passed. *)
Definition back_off (message : string) (backoff : double) : M World () :=
  _ ← locked (λ i, i <| health_ ::= λ h,
        h <| HealthSnapshot.last_error := message |>
          <| HealthSnapshot.state := ClientState.Backoff |>
          <| HealthSnapshot.reconnect_count ::= incr |> |>);
  _ ← yield;
  t ← now;
  _ ← lift (checked_deadline t backoff);
  yield.

(** Source: core/src/detail/client_impl.cpp:401-403, [Client::Impl::run]: a session that
    received a valid record starts the back-off afresh. *)
Definition pause_after (config : Config) (received_valid_record : bool) (backoff : double)
    : double :=
  if received_valid_record then Config.reconnect_initial_delay config else backoff.

(** Source: core/src/detail/client_impl.cpp:416-416, [Client::Impl::run]: doubled, up to
    the maximum. *)
Definition next_backoff (config : Config) (backoff : double) : double :=
  d_min (d_mul backoff (d_of_Z 2)) (Config.reconnect_max_delay config).

(** Source: core/src/detail/client_impl.cpp:387-416, [Client::Impl::run]: what follows a
    session. [continue] is the next iteration of the loop. *)
Definition after_session (continue : double → M World ()) (outcome : SessionOutcome)
    (backoff : double) : M World () :=
  _ ← close_session;
  let message := outcome_message outcome in
  config ← read config_;
  if negb (bool_decide (result outcome = RStopped))
     && bool_decide (Config.recovery_policy config = RecoveryPolicy.FailStop)
  then publish_fault (fault_for (result outcome)) message
  else
    stopping ← load stopping_;
    if bool_decide (result outcome = RStopped) || stopping then mret ()
    else
      let backoff := pause_after config (received_valid_record outcome) backoff in
      _ ← back_off message backoff;
      continue (next_backoff config backoff).

(** Source: core/src/detail/client_impl.cpp:385-417, [Client::Impl::run]: the loop. *)
Fixpoint run_loop (fuel session_fuel : nat) (backoff : double) : M World () :=
  match fuel with
  | O => out_of_fuel
  | S fuel =>
    stopping ← load stopping_;
    fault ← load faulted;
    if (stopping : bool) || fault then mret ()
    else
      outcome ← receive_session session_fuel;
      after_session (run_loop fuel session_fuel) outcome backoff
  end.

(** Source: core/src/detail/client_impl.cpp:382-428, [Client::Impl::run]. *)
Definition run (fuel : nat) : M World () :=
  config ← read config_;
  _ ← m_catch any_exception
        (run_loop fuel fuel (Config.reconnect_initial_delay config))
        (λ e,
         stopping ← load stopping_;
         if stopping : bool then mret ()
         else publish_fault FaultCode.Socket
                (if std_exception (exn_kind e) then what e else "unknown client failure"));
  finish_session.

End worker.
End Worker.
