(* ===== verification/WorkerSafety.v ===== *)
(** * Correctness of the receiving thread

    The invariant of a running client under every interleaving, kept by the worker's
    code and by the other threads' actions, and the theorems about [Worker.run] that
    follow from it: it never has undefined behaviour, lets no exception escape,
    releases the socket, and stops when asked to. *)

From Stdlib Require Import ZArith Lia String Strings.Byte.
From Corelib Require Import SpecFloat.
From stdpp Require Import gmap.
From S2P Require Import Prelude Effects Floats Clock Types Status Protocol Sequence FaultLatch.
From S2P Require Import Decimal XmlConfig Discovery Transport Client Worker.
Import Fp Clock Client Worker.

Module WorkerSafety.

Section safety.
Context `{P : Platform} `{Ops : Transport.UdpTransportOps} `{Laws : !Transport.UdpTransportLaws Ops}.

(** ** The invariant *)

(** A configuration the constructor accepted; [double]s are well formed. *)
Definition config_ok (c : Config) : Prop :=
  (∃ now, Types.validate_config now c = Ok ()) ∧
  (∀ cal, Config.calibration_override c = Some cal →
     d_valid (Calibration.counts_per_force_unit cal) ∧
     d_valid (Calibration.counts_per_torque_unit cal)).

Definition in_range (t : Z) : Prop := 0 ≤ t ≤ ticks_max.

(** A sample made from a datagram: it decodes to a record, which was scaled with a
    validated calibration and stamped with a time of the clock. *)
Definition genuine (s : Sample) : Prop :=
  ∃ data record t conf,
    Rdt.decode_record (Some data) (Z.of_nat (length data)) = Ok record ∧
    calibration_ok (SensorConfiguration.calibration conf) ∧ in_range t ∧
    make_sample record t conf = Some s.

Lemma genuine_ok s : genuine s → sample_ok s.
Proof.
  intros (data & record & t & conf & Hd & Hc & Ht & Hs).
  pose proof (Rdt.decode_record_outcome data) as Ho. rewrite Hd in Ho.
  eapply make_sample_typed; [apply Ho|done..].
Qed.

Abbreviation sensor_configuration w :=
  (HealthSnapshot.sensor_configuration (health_ (impl w))).

(** Where the worker is: the fault it has latched (only the worker publishes one)
    and whether it has closed its session for good. *)
Record Phase := { latched : FaultCode; closed : bool }.

(** The invariant of a phase. *)
Record Inv (ph : Phase) (w : World) : Prop := {
  inv_link : Transport.link_ok (link w);
  inv_config : config_ok (config_ (impl w));
  inv_windows : times_ok (receive_times_ (impl w)) ∧ times_ok (delivery_times_ (impl w));
  inv_times : in_range (last_delivery_at_ (impl w)) ∧ in_range (last_record_at_ (impl w));
  inv_calibration : ∀ c, sensor_configuration w = Some c →
    calibration_ok (SensorConfiguration.calibration c);
  inv_session : session_started_ (impl w) = true →
    Transport.socket_ (Transport.tr (link w)) ≠ Transport.kInvalidSocket;
  inv_stop : ∀ k, (k < yields w)%nat → AStopping ∈ schedule w k → stopping_ (impl w) = true;
  inv_latch : FaultLatch.code_ (fault_latch_ (impl w)) = latched ph;
  inv_faulted : latched ph ≠ FaultCode.None →
    HealthSnapshot.state (health_ (impl w)) = ClientState.Faulted ∧
    HealthSnapshot.fault_code (health_ (impl w)) = latched ph;
  inv_ended : closed ph = true → session_started_ (impl w) = false;
  inv_released : closed ph = true →
    Transport.socket_ (Transport.tr (link w)) = Transport.kInvalidSocket;
  inv_genuine : Forall genuine (invocations w)
}.

(** What never changes or only grows while the worker runs. *)
Record Later (w w' : World) : Prop := {
  later_schedule : schedule w' = schedule w;
  later_yields : (yields w ≤ yields w')%nat;
  later_config : config_ (impl w') = config_ (impl w);
  later_configured : sensor_configuration w ≠ None → sensor_configuration w' ≠ None;
  later_stopping : stopping_ (impl w) = true → stopping_ (impl w') = true;
  later_exited : worker_exited_ (impl w) = true → worker_exited_ (impl w') = true
}.

#[global] Instance Later_refl : Reflexive Later.
Proof. intros w. split; auto. Qed.
#[global] Instance Later_trans : Transitive Later.
Proof.
  intros w1 w2 w3 [] []. split; [congruence|lia|congruence|auto|auto|auto].
Qed.

(** ** Hoare triples over the invariant *)

(** From a world with the invariant and [pre], [m] keeps the invariant, ends in a
    value satisfying [ok] or an exception satisfying [ex], and is never undefined. *)
Definition keeps (total : bool) (ph : Phase) {A} (pre : World → Prop) (m : M World A)
    (ok : A → World → Prop) (ex : exn → World → Prop) : Prop :=
  ∀ w, Inv ph w → pre w →
    exec total m w (λ r w',
      Inv ph w' ∧ Later w w' ∧
      match r with Ok a => ok a w' | Throw e => ex e w' | UB => False end).

Section rules.
Context (total : bool) (ph : Phase).

Lemma keeps_bind {A B} pre (m : M World A) (f : A → M World B) mid ok ex :
  keeps total ph pre m mid ex → (∀ a, keeps total ph (mid a) (f a) ok ex) →
  keeps total ph pre (m ≫= f) ok ex.
Proof.
  intros Hm Hf w Hw Hp. apply exec_bind. eapply exec_mono; [by apply Hm|].
  intros [a|e|] w1 (H1 & L1 & Hr); [|done..].
  eapply exec_mono; [by apply Hf|]. intros r w2 (H2 & L2 & Hr2).
  split; [done|]. split; [by etransitivity|done].
Qed.

Lemma keeps_conseq {A} (pre pre' : World → Prop) (m : M World A) ok ok' (ex ex' : exn → World → Prop) :
  keeps total ph pre m ok ex → (∀ w, pre' w → pre w) →
  (∀ a w, ok a w → ok' a w) → (∀ e w, ex e w → ex' e w) → keeps total ph pre' m ok' ex'.
Proof.
  intros Hm H1 H2 H3 w Hw Hp. eapply exec_mono; [apply Hm; auto|].
  intros [a|e|] w' (? & ? & ?); auto.
Qed.

Lemma keeps_pre {A} (pre pre' : World → Prop) (m : M World A) ok ex :
  keeps total ph pre m ok ex → (∀ w, pre' w → pre w) → keeps total ph pre' m ok ex.
Proof. intros Hm Hp. by eapply keeps_conseq. Qed.

Lemma keeps_catch {A} pre p (m : M World A) h ok (ex ex' : exn → World → Prop) :
  keeps total ph pre m ok ex →
  (∀ e, p (exn_kind e) = true → keeps total ph (ex e) (h e) ok ex') →
  (∀ e w, ex e w → p (exn_kind e) = false → ex' e w) →
  keeps total ph pre (m_catch p m h) ok ex'.
Proof.
  intros Hm Hh Hx w Hw Hp. apply exec_catch. eapply exec_mono; [by apply Hm|].
  intros [a|e|] w1 (H1 & L1 & Hr); [done| |done].
  destruct (p (exn_kind e)) eqn:E; [|by auto].
  eapply exec_mono; [by apply Hh|]. intros r w2 (H2 & L2 & Hr2).
  split; [done|]. split; [by etransitivity|done].
Qed.

Lemma keeps_ret {A} (pre : World → Prop) (a : A) (ok : A → World → Prop) ex :
  (∀ w, pre w → ok a w) → keeps total ph pre (mret a) ok ex.
Proof. intros H w Hw Hp. simpl. split; [done|]. split; [reflexivity|auto]. Qed.

Lemma keeps_lift {A} (pre : World → Prop) (r : Res A) (ok : A → World → Prop)
    (ex : exn → World → Prop) :
  (∀ w, Inv ph w → pre w →
     match r with Ok a => ok a w | Throw e => ex e w | UB => False end) →
  keeps total ph pre (lift r) ok ex.
Proof. intros H w Hw Hp. simpl. split; [done|]. split; [reflexivity|by apply H]. Qed.

Lemma keeps_read {A} (pre : World → Prop) (g : Impl → A) (ok : A → World → Prop) ex :
  (∀ w, Inv ph w → pre w → ok (g (impl w)) w) → keeps total ph pre (read g) ok ex.
Proof. intros H w Hw Hp. simpl. split; [done|]. split; [reflexivity|auto]. Qed.

Lemma keeps_get (pre : World → Prop) ex :
  keeps total ph pre get (λ w w', w = w' ∧ Inv ph w ∧ pre w) ex.
Proof. intros w Hw Hp. simpl. split; [done|]. split; [reflexivity|auto]. Qed.

(** A change of the client that leaves the transport and the scheduler alone. *)
Lemma keeps_impl (pre : World → Prop) (g : Impl → Impl) (ok : () → World → Prop) ex :
  (∀ w, Inv ph w → pre w →
     let w' := w <| impl ::= g |> in Inv ph w' ∧ Later w w' ∧ ok () w') →
  keeps total ph pre (on_impl g) ok ex.
Proof. intros H w Hw Hp. by apply H. Qed.

(** Case analysis on a conditional. *)
Lemma keeps_if {A} pre (b : bool) (m1 m2 : M World A) ok ex :
  (b = true → keeps total ph pre m1 ok ex) → (b = false → keeps total ph pre m2 ok ex) →
  keeps total ph pre (if b then m1 else m2) ok ex.
Proof. destruct b; auto. Qed.

(** A transport operation: its law gives the new link. *)
Lemma keeps_link {A} (pre : World → Prop) (m : M Transport.Link A)
    (ok : A → World → Prop) (ex : exn → World → Prop) :
  (∀ w, Inv ph w → pre w →
     returns m (link w) (λ r l',
       Transport.link_ok l' ∧
       (session_started_ (impl w) = true →
          Transport.socket_ (Transport.tr l') ≠ Transport.kInvalidSocket) ∧
       (closed ph = true →
          Transport.socket_ (Transport.tr l') = Transport.socket_ (Transport.tr (link w))) ∧
       match r with
       | Ok a => ok a (w <| link := l' |>)
       | Throw e => ex e (w <| link := l' |>)
       | UB => False
       end)) →
  keeps total ph pre (on_link m) ok ex.
Proof.
  intros H w Hw Hp. apply exec_returns. specialize (H w Hw Hp).
  unfold returns, on_link, on_field in *.
  destruct (m (link w)) as [[r l']|]; [|done]. destruct H as (Hl & Hs & Hc & Hr).
  split; [|split; [by split; cbn|done]].
  destruct Hw. split; cbn; try done. intros Hph. rewrite (Hc Hph). auto.
Qed.
End rules.

(** Closes the goals of [keeps_impl] that a change of the client does not touch. *)
Ltac frame :=
  match goal with H : Inv _ _ |- _ => destruct H end;
  split; [split; cbn; try done|split; [split; cbn; try done|cbn]].

(** ** The other threads *)

Section actions.
Context (total : bool) (ph : Phase).

(** A property of worlds that does not look at the transport. *)
Definition ignores_link (F : World → Prop) : Prop := ∀ w l, F w → F (w <| link := l |>).

Definition runtime (F : World → Prop) (e : exn) (w : World) : Prop :=
  exn_kind e = runtime_error ∧ F w.

Definition never (e : exn) (w : World) : Prop := False.

Lemma send_keeps F c :
  ignores_link F → keeps total ph F (send_command c) (λ _, F) (runtime F).
Proof.
  intros HF. apply keeps_link. intros w Hw Hp. eapply returns_mono.
  { apply Transport.send_law, (inv_link _ _ Hw). }
  intros r l' (Hl & Ht & Hr). split; [done|]. rewrite Ht. split; [|split; [done|]].
  - apply (inv_session _ _ Hw).
  - destruct r; [by apply HF|split; [done|by apply HF]|done].
Qed.

Lemma shutdown_keeps F :
  ignores_link F → keeps total ph F (on_link Transport.shutdown) (λ _, F) never.
Proof.
  intros HF. apply keeps_link. intros w Hw Hp. eapply returns_mono.
  { apply Transport.shutdown_spec, (inv_link _ _ Hw). }
  intros r l' (-> & Hl & Ht). split; [done|]. rewrite Ht.
  split; [apply (inv_session _ _ Hw)|]. split; [done|by apply HF].
Qed.

Lemma now_keeps F :
  ignores_link F → keeps total ph F now (λ t w, in_range t ∧ F w) never.
Proof.
  intros HF. apply keeps_link. intros w Hw Hp.
  eapply Transport.owns_now; [apply (inv_link _ _ Hw)|].
  intros t l' Hl Ht Hr. split; [done|]. rewrite Ht.
  split; [apply (inv_session _ _ Hw)|]. split; [done|]. split; [done|by apply HF].
Qed.

(** What the actions of other threads keep: the worker's position. *)
Definition at_yield (n : nat) (w : World) : Prop := yields w = n.

Lemma at_yield_link n : ignores_link (at_yield n).
Proof. by intros w l. Qed.
#[local] Hint Resolve at_yield_link : core.

(** Ending or not starting the session is always allowed. *)
Lemma session_ended_keeps n :
  keeps total ph (at_yield n) (on_impl (λ i, i <| session_started_ := false |>))
    (λ _, at_yield n) never.
Proof. apply keeps_impl. intros w Hw Hp. by frame. Qed.

Lemma stop_command_keeps n :
  keeps total ph (at_yield n) stop_command (λ _, at_yield n) never.
Proof.
  unfold stop_command. eapply keeps_bind; [by apply keeps_read with (ok := λ _, at_yield n)|].
  intros started. eapply keeps_bind with (mid := λ _, at_yield n); [|intros _; by apply shutdown_keeps].
  destruct started; [|by apply keeps_ret].
  eapply keeps_bind with (mid := λ _, at_yield n); [|intros _; apply session_ended_keeps].
  eapply keeps_catch; [by apply send_keeps| |done].
  intros e _. apply keeps_ret. by intros w [_ ?].
Qed.

Lemma bias_keeps n :
  keeps total ph (at_yield n) bias (λ _, at_yield n)
    (λ e w, (exn_kind e = runtime_error ∨ exn_kind e = NotConnectedError) ∧ at_yield n w).
Proof.
  unfold bias. eapply keeps_bind; [by apply keeps_read with (ok := λ _, at_yield n)|]. intros i.
  apply keeps_if; intros _; [apply keeps_lift; simpl; auto|].
  do 2 (eapply keeps_bind; [eapply keeps_conseq; [by apply (send_keeps (at_yield n))|done|done|
    unfold runtime; naive_solver]|intros ?]).
  apply keeps_impl. intros w Hw Hp. by frame.
Qed.

Lemma observe_health_keeps n :
  keeps total ph (at_yield n) observe_health (λ _, at_yield n) never.
Proof.
  unfold observe_health. eapply keeps_bind; [by apply (now_keeps (at_yield n))|]. intros t.
  eapply keeps_bind; [apply keeps_get|]. intros w0. cbv beta.
  intros w Hw (E & _ & Ht & Hn). subst w0.
  destruct Hw as [H1 H2 [H3 H4] [H5 H6] H7 H8 H9 H10 H11 H12 H13 H14].
  destruct (health_ok t (impl w) H3 H4 H6 Ht) as (sn & r & d & Er & Ed & -> & _).
  apply exec_returns, returns_bind. simpl.
  split; [|split; [by split; cbn|done]].
  split; cbn; try done. split; by eapply prune_times_ok.
Qed.

Lemma act_keeps n a :
  keeps total ph (at_yield n) (act a)
    (λ _ w, at_yield n w ∧ (a = AStopping → stopping_ (impl w) = true)) never.
Proof.
  unfold act. eapply keeps_catch with (ex := λ _ w, at_yield n w ∧ a ≠ AStopping); [|intros e _|done].
  2: { apply keeps_ret. intros w [? ?]. by split. }
  destruct a.
  - apply keeps_impl. intros w Hw Hp. by frame.
  - eapply keeps_bind; [by apply keeps_read with (ok := λ _, at_yield n)|]. intros stopping.
    destruct stopping; [|apply keeps_ret; by split].
    eapply keeps_conseq; [apply (stop_command_keeps n)|done|by split|done].
  - eapply keeps_conseq; [apply (bias_keeps n)|done|by split|naive_solver].
  - eapply keeps_bind with (mid := λ _, at_yield n); [|intros sn; apply keeps_ret; by split].
    eapply keeps_conseq; [apply (observe_health_keeps n)|done|done|done].
Qed.

Lemma act_all_keeps n actions :
  keeps total ph (at_yield n) (act_all actions)
    (λ _ w, at_yield n w ∧ (AStopping ∈ actions → stopping_ (impl w) = true)) never.
Proof.
  induction actions as [|a actions IH]; cbn [act_all].
  { apply keeps_ret. intros w Hn. split; [done|]. by intros ?%elem_of_nil. }
  intros w Hw Hn. apply exec_bind. eapply exec_mono; [by apply (act_keeps n a)|].
  intros [[]|e|] w1 (H1 & L1 & Hr); [|done..]. destruct Hr as [Hn1 Hs1].
  eapply exec_mono; [by apply IH|]. intros [[]|e|] w2 (H2 & L2 & Hr2); [|done..].
  split; [done|]. split; [by etransitivity|]. destruct Hr2 as [Hn2 Hs2].
  split; [done|]. intros [<-|Ha]%elem_of_cons; [|auto].
  by apply (later_stopping _ _ L2), Hs1.
Qed.

(** Facts that other threads cannot undo. *)
Definition stable (F : World → Prop) : Prop := ∀ w w', Later w w' → F w → F w'.

Definition past (n : nat) (w : World) : Prop := (n ≤ yields w)%nat.
Definition configured (w : World) : Prop := sensor_configuration w ≠ None.

Lemma past_stable n : stable (past n).
Proof. intros w w' [] ?. unfold past in *. lia. Qed.
Lemma configured_stable : stable configured.
Proof. intros w w' [] ?. unfold configured in *. auto. Qed.
Lemma true_stable : stable (λ _, True).
Proof. done. Qed.
Lemma and_stable F G : stable F → stable G → stable (λ w, F w ∧ G w).
Proof. intros HF HG w w' HL [? ?]. eauto. Qed.

(** Framing a stable fact around a computation. *)
Lemma keeps_frame {A} F pre (m : M World A) ok ex :
  stable F → keeps total ph pre m ok ex →
  keeps total ph (λ w, pre w ∧ F w) m (λ a w, ok a w ∧ F w) (λ e w, ex e w ∧ F w).
Proof.
  intros HF Hm w Hw [Hp HFw]. eapply exec_mono; [by apply Hm|].
  intros [a|e|] w' (H' & L' & Hr); [| |done]; (split; [done|]; split; [done|]; split; eauto).
Qed.

(** The other threads run; a stop request scheduled at this point is visible
    afterwards. *)
Lemma yield_past n : keeps total ph (past n) yield (λ _, past (S n)) never.
Proof.
  intros w Hw Hn. unfold yield. apply exec_bind, exec_returns, returns_get.
  pose proof (act_all_keeps (yields w) (schedule w (yields w)) w Hw eq_refl) as Ha.
  unfold exec in Ha |- *. unfold mbind, M_bind.
  destruct (act_all _ w) as [[[[]|e|] w1]|]; [|by destruct Ha as (_ & _ & [])..|done].
  destruct Ha as (H1 & L1 & Hy & Hs). simpl. unfold at_yield, past in *.
  split; [|split; [destruct L1; split; cbn; try done; lia|cbn; lia]].
  destruct H1; split; cbn; try done.
  intros k Hk Hin. rewrite (later_schedule _ _ L1) in Hin.
  destruct (decide (k = yields w)) as [->|]; [auto|].
  apply (inv_stop0 k); [lia|]. by rewrite (later_schedule _ _ L1).
Qed.

Lemma yield_keeps F : stable F → keeps total ph F yield (λ _, F) never.
Proof.
  intros HF. eapply keeps_conseq; [apply (keeps_frame F (past 0) yield (λ _, past 1) never HF)| | |].
  - apply yield_past.
  - intros w Hw. split; [unfold past; lia|done].
  - by intros _ w [_ ?].
  - by intros e w [[] _].
Qed.

(** An atomic load returns the value at that moment. *)
Lemma load_keeps {A} F (g : Impl → A) :
  stable F → keeps total ph F (load g) (λ a w, a = g (impl w) ∧ F w) never.
Proof.
  intros HF. eapply keeps_bind; [by apply yield_keeps|]. intros ?. by apply keeps_read.
Qed.

(** A critical section of the worker. *)
Lemma locked_keeps F (g : Impl → Impl) (ok : () → World → Prop) :
  stable F →
  (∀ w, Inv ph w → F w →
     let w' := w <| impl ::= g |> in Inv ph w' ∧ Later w w' ∧ ok () w') →
  keeps total ph F (locked g) ok never.
Proof.
  intros HF Hg. eapply keeps_bind; [by apply yield_keeps|]. intros ?. by apply keeps_impl.
Qed.

End actions.

(** ** One record *)

Section session.
Context (total : bool).
(** The phase of a session: no fault, not closed. *)
Definition NoFault : Phase := {| latched := FaultCode.None; closed := false |}.

Lemma account_keeps record t :
  in_range t → Rdt.record_wf record →
  keeps total NoFault configured (account record t)
    (λ acc w, configured w ∧ calibration_ok (SensorConfiguration.calibration (configuration acc)) ∧
       outcome acc ≠ Some RStopped)
    never.
Proof.
  intros Ht Hr. unfold account. eapply keeps_bind; [apply yield_keeps, configured_stable|].
  intros ? w Hw Hc. apply exec_bind, exec_returns, returns_get.
  destruct (sensor_configuration w) as [conf|] eqn:Ec; [|done].
  pose proof Hw as [_ _ [H3 H4] [H5 H6] H7 _ _ _ _ _ _].
  destruct (prune_rate_window_ok (receive_times_ (impl w) ++ [t]) t) as (win & Ewin & _);
    [by apply Forall_snoc|done|].
  destruct (account_record_shape record t (impl w) conf win Ec Ewin H5 Ht)
    as (tr & tf & h & acc & Eacc & Hs & Hconf & _).
  pose proof (account_record_outcome _ _ _ _ _ Eacc) as Hout. rewrite Eacc.
  destruct Hs as (Hs & _). cbn in Hs. apply exec_returns, returns_bind. cbn.
  assert (times_ok win) by (eapply prune_times_ok; [done|by apply Forall_snoc]).
  destruct Hw. split; [split; cbn; try done; by rewrite Hs|].
  split; [split; cbn; try done; by rewrite Hs, Ec|]. split; [unfold configured; cbn; by rewrite Hs, Ec|].
  rewrite Hconf. split; [by apply H7|done].
Qed.

Lemma record_delivery_keeps sample t :
  in_range t →
  keeps total NoFault configured (complete_delivery sample t) (λ _, configured) never.
Proof.
  intros Ht. unfold complete_delivery.
  eapply keeps_bind; [apply yield_keeps, configured_stable|]. intros ? w Hw Hc. apply exec_bind, exec_returns, returns_get.
  pose proof Hw as [_ _ [_ H4] _ _ _ _ _ _ _ _]. unfold record_delivery.
  destruct (prune_rate_window_ok (delivery_times_ (impl w) ++ [t]) t) as (win & Ewin & _);
    [by apply Forall_snoc|done|].
  rewrite Ewin. apply exec_returns, returns_bind. cbn.
  assert (times_ok win) by (eapply prune_times_ok; [done|by apply Forall_snoc]).
  destruct Hw as [? ? [? ?] [? ?] ? ? ? ? ? ? ?]. split; [split; cbn; done|]. by split; [split; cbn|].
Qed.

Lemma callback_error_keeps message :
  keeps total NoFault configured (locked (record_callback_error message)) (λ _, configured) never.
Proof. apply locked_keeps; [apply configured_stable|]. intros w Hw Hp. by frame. Qed.

Lemma invoke_callback_keeps sample :
  genuine sample →
  keeps total NoFault configured (invoke_callback sample) (λ _, configured) never.
Proof.
  intros Hs. unfold invoke_callback. eapply keeps_bind; [apply yield_keeps, configured_stable|].
  intros ? w Hw Hc. apply exec_bind, exec_returns, returns_get.
  destruct (callback_ (impl w)); simpl; [|by split; [|split; [reflexivity|]]].
  destruct Hw. split; [|by split; [split; cbn|]].
  split; cbn; try done. apply Forall_app. by rewrite Forall_singleton.
Qed.

Lemma handle_record_keeps data record t :
  in_range t → Rdt.record_wf record →
  Rdt.decode_record (Some data) (Z.of_nat (length data)) = Ok record →
  keeps total NoFault configured (handle_record record t)
    (λ o w, configured w ∧ o ≠ Some RStopped) never.
Proof.
  intros Ht Hr Hdata. unfold handle_record. eapply keeps_bind; [by apply account_keeps|].
  intros acc. apply keeps_if; intros _; [apply keeps_ret; naive_solver|].
  intros w Hw (Hc & Hcal & Hout). revert w Hw Hc.
  assert (∀ config, callback_failure_outcome config (outcome acc) ≠ Some RStopped) as Hout'
    by (intros config; unfold callback_failure_outcome; by case_match).
  destruct (make_sample_ok record t (configuration acc) Hr Hcal) as (sample & Hs & _). rewrite Hs.
  eapply keeps_bind; [apply invoke_callback_keeps; by exists data, record, t, (configuration acc)|]. intros called.
  eapply keeps_bind; [by apply keeps_read with (ok := λ _, configured)|]. intros config.
  destruct called;
    (eapply keeps_bind with (mid := λ _, configured); [|intros ?; by apply keeps_ret]).
  - by apply record_delivery_keeps.
  - apply callback_error_keeps.
  - apply callback_error_keeps.
Qed.

(** ** The receive loop *)

Lemma stable_ignores_link F : stable F → ignores_link F.
Proof. intros HF w l. apply HF. by split. Qed.

(** Continuing with a triple after a prefix of the execution. *)
Lemma keeps_use {A} ph pre (m : M World A) ok ex w w1 :
  keeps total ph pre m ok ex → Inv ph w1 → pre w1 → Later w w1 →
  exec total m w1 (λ r w', Inv ph w' ∧ Later w w' ∧
    match r with Ok a => ok a w' | Throw e => ex e w' | UB => False end).
Proof.
  intros Hm Hi Hp HL. eapply exec_mono; [by apply Hm|]. intros r w2 (H2 & L2 & Hr).
  split; [done|]. split; [by etransitivity|done].
Qed.

Lemma load_past {A} n F (g : Impl → A) :
  stable F →
  keeps total NoFault (λ w, past n w ∧ F w) (load g)
    (λ a w, a = g (impl w) ∧ past (S n) w ∧ F w) never.
Proof.
  intros HF. eapply keeps_bind.
  - eapply keeps_conseq; [apply (keeps_frame total NoFault F); [done|apply (yield_past _ _ n)]|done|done|].
    by intros e w [[] _].
  - intros ?. by apply keeps_read.
Qed.

(** A session that reports [Stopped] has seen [stopping_]. *)
Definition stop_seen (o : SessionOutcome) (w : World) : Prop :=
  result o = RStopped → stopping_ (impl w) = true.

Lemma stop_seen_stable o : stable (stop_seen o).
Proof. intros w w' HL Ho Hr. by apply (later_stopping _ _ HL), Ho. Qed.

(** Exceptions of the transport. *)
Definition transport_error (F : World → Prop) (e : exn) (w : World) : Prop :=
  (exn_kind e = runtime_error ∨ exn_kind e = invalid_argument) ∧ F w.

Lemma transport_receive_keeps F timeout :
  stable F → sf_nonneg timeout = true →
  keeps total NoFault F (transport_receive timeout) (λ _, F) (transport_error F).
Proof.
  intros HF Ht w Hw Hp. unfold transport_receive. apply exec_bind, exec_returns, returns_get.
  set (others := λ k : nat, _ && _).
  set (fuel := S (Transport.horizon (Transport.os (link w)))).
  apply exec_bind.
  eapply exec_mono with (Q := λ r w', Inv NoFault w' ∧ Later w w' ∧
    match r with
    | Ok (inl _) => True
    | Ok (inr e) => exn_kind e = runtime_error ∨ exn_kind e = invalid_argument
    | _ => False
    end).
  - apply exec_catch, exec_bind. unfold on_link, on_field, exec.
    pose proof (Transport.receive_law fuel 65536 timeout others (link w) (inv_link _ _ Hw)
                  ltac:(lia) Ht) as Hlaw.
    pose proof (Transport.receive_total_law fuel 65536 timeout others (link w)
                  (inv_link _ _ Hw) Ht (Nat.lt_succ_diag_r _)) as Htot.
    unfold safe, returns in *.
    destruct (Transport.t_receive fuel 65536 timeout others (link w)) as [[r l']|]; [|done].
    destruct Hlaw as (Hl & Hs & Hr).
    assert (Inv NoFault (w <| link := l' |>) ∧ Later w (w <| link := l' |>)) as [H1 L1].
    { destruct Hw. split; split; cbn; try done. by rewrite Hs. }
    destruct r as [data|e|]; [done| |done].
    assert (std_exception (exn_kind e) = true) as -> by (destruct Hr as [-> | ->]; done).
    done.
  - intros [[data|e]| |] w1 (H1 & L1 & Hr); [..|done|done].
    + eapply keeps_use; [|done|by apply (HF w w1)|done].
      eapply keeps_bind with (mid := λ _, F); [|intros ?; by apply keeps_ret].
      eapply keeps_conseq; [by apply (yield_keeps total NoFault F)|done|done|done].
    + eapply keeps_use; [|done|by apply (HF w w1)|done].
      eapply keeps_bind with (mid := λ _, F); [|intros ?; apply keeps_lift; by intros w2 _ ?].
      eapply keeps_conseq; [by apply (yield_keeps total NoFault F)|done|done|done].
Qed.

Lemma timed_out_keeps F valid :
  stable F → keeps total NoFault F (timed_out valid) stop_seen never.
Proof.
  intros HF. eapply keeps_bind; [by apply load_keeps|]. intros stopping.
  apply keeps_if; intros Hst; [apply keeps_ret; intros w [E _] _; congruence|].
  eapply keeps_bind with (mid := λ _ _, True); [|intros ?; by apply keeps_ret].
  apply keeps_impl. intros w Hw Hp. by frame.
Qed.

Lemma checked_deadline_keeps F t timeout (ex : exn → World → Prop) :
  in_range t → (∀ e w, exn_kind e = invalid_argument → F w → ex e w) →
  keeps total NoFault F (lift (checked_deadline t timeout)) (λ d w, in_range d ∧ F w) ex.
Proof.
  intros Ht Hex. apply keeps_lift. intros w Hw Hp.
  pose proof (Transport.deadline_outcome t timeout Ht) as Hd.
  destruct (checked_deadline t timeout); [|auto|done]. split; [|done].
  unfold in_range in *. lia.
Qed.

Definition clock_error (e : exn) (w : World) : Prop := exn_kind e = invalid_argument.

Lemma keeps_never {A} ph pre (m : M World A) ok ex :
  keeps total ph pre m ok never → keeps total ph pre m ok ex.
Proof. intros Hm. by eapply keeps_conseq. Qed.

(** A critical section that keeps the invariant keeps every stable fact. *)
Lemma locked_stable F (g : Impl → Impl) ex :
  stable F →
  (∀ w, Inv NoFault w → F w →
     Inv NoFault (w <| impl ::= g |>) ∧ Later w (w <| impl ::= g |>)) →
  keeps total NoFault F (locked g) (λ _, F) ex.
Proof.
  intros HF Hg. apply keeps_never, locked_keeps; [done|]. intros w Hw Hp.
  destruct (Hg w Hw Hp) as [Hi HL]. split; [done|]. split; [done|]. by apply (HF w).
Qed.

(** An early return after an exception, whose result depends on [stopping_]. *)
Lemma early_return_keeps {A} F (k : bool → SessionOutcome) (f : SessionOutcome → A) :
  stable F → (∀ b, result (k b) = RStopped → b = true) →
  keeps total NoFault F
    (stopping ← load stopping_; o ← mret (k stopping); mret (f o))
    (λ a w, F w ∧ ∃ o, a = f o ∧ stop_seen o w) never.
Proof.
  intros HF Hk. eapply keeps_bind; [by apply load_keeps|]. intros stopping.
  eapply keeps_bind with (mid := λ o w, F w ∧ stop_seen o w).
  - apply keeps_ret. intros w [-> ?]. split; [done|]. by intros Hr%Hk.
  - intros o. apply keeps_ret. intros w [? ?]. eauto.
Qed.

Section loop.
Context (F : World → Prop) (HF : stable F) (HFc : ∀ w, F w → configured w).
Context (continue : Z → bool → M World SessionOutcome).
Hypothesis Hcontinue : ∀ deadline valid, in_range deadline →
  keeps total NoFault F (continue deadline valid) stop_seen clock_error.

Lemma process_datagram_keeps data deadline valid :
  in_range deadline →
  keeps total NoFault F (process_datagram continue data deadline valid) stop_seen clock_error.
Proof.
  intros Hd. unfold process_datagram. pose proof (Rdt.decode_record_outcome data) as Ho.
  destruct (Rdt.decode_record _ _) as [record|e|] eqn:Hdata; [|destruct Ho as [-> _]|done].
  - destruct Ho as [Hwf _].
    eapply keeps_bind;
      [by apply keeps_never, (now_keeps total NoFault F), stable_ignores_link|].
    intros received_at w Hw [Ht HFw]. revert w Hw HFw.
    eapply keeps_bind with (mid := λ _, F).
    { apply locked_stable; [done|]. intros w [] Hp. by split; split; cbn. }
    intros ?. eapply keeps_bind; [by apply keeps_read with (ok := λ _, F)|]. intros timeout.
    eapply keeps_bind; [by apply checked_deadline_keeps|].
    intros d w Hw [Hd' HFw]. revert w Hw HFw.
    eapply keeps_bind with (mid := λ o w, F w ∧ o ≠ Some RStopped).
    { eapply keeps_conseq;
        [apply (keeps_frame total NoFault F); [done|by apply (handle_record_keeps data record received_at)]
        |intros w1 Hw1; split; [by apply HFc|done]|by intros ? ? [[_ ?] ?]|by intros ? ? [[] _]]. }
    intros [r|]; [apply keeps_ret; intros w1 [_ Hne] Hr; cbn in Hr; congruence|].
    eapply keeps_pre; [by apply Hcontinue|by intros w1 [? _]].
  - rewrite bool_decide_eq_true_2 by done.
    eapply keeps_bind with (mid := λ _, F).
    { apply locked_stable; [done|]. intros w [] Hp. by split; split; cbn. }
    intros ?. eapply keeps_bind; [by apply keeps_read with (ok := λ _, F)|]. intros n.
    apply keeps_if; intros _; [by apply keeps_ret|]. by apply Hcontinue.
Qed.

Lemma receive_body_keeps deadline valid :
  in_range deadline →
  keeps total NoFault F (receive_body continue deadline valid) stop_seen clock_error.
Proof.
  intros Hd. unfold receive_body.
  eapply keeps_bind;
    [by apply keeps_never, (now_keeps total NoFault F), stable_ignores_link|].
  intros t w Hw [Ht HFw]. revert w Hw HFw.
  destruct (Z.leb_spec deadline t) as [Hle|Hlt].
  { by apply keeps_never, (timed_out_keeps F). }
  eapply keeps_bind with (mid := λ x w, F w ∧ match x with inr o => stop_seen o w | inl _ => True end).
  - eapply keeps_catch with (ex := transport_error F).
    + eapply keeps_bind with (mid := λ _, F); [|intros ?; by apply keeps_ret].
      apply transport_receive_keeps; [done|]. apply seconds_of_ticks_nonneg.
      unfold in_range in *. lia.
    + intros e _. eapply keeps_conseq;
        [apply (early_return_keeps F); [done|by intros []]|by intros ? [_ ?]
        |by intros ? ? [? (o & -> & ?)]|done].
    + intros e w [[Hk|Hk] _]; rewrite Hk; done.
  - intros [data|outcome]; [|apply keeps_ret; by intros w [_ ?]].
    eapply keeps_pre with (pre := F); [|by intros w [? _]].
    eapply keeps_bind; [by apply keeps_never, (load_keeps total NoFault F)|].
    intros stopping. apply keeps_if; intros Hst; [apply keeps_ret; intros w [E _] _; congruence|].
    eapply keeps_pre with (pre := F); [|by intros w [_ ?]].
    apply keeps_if; intros _; [|by apply process_datagram_keeps].
    by apply keeps_never, (timed_out_keeps F).
Qed.
End loop.

(** ** Termination

    A stop request is scheduled at the yield [K]; every iteration of a loop starts
    with a yield, so [K] bounds the number of iterations left. *)

Definition requested (K : nat) (w : World) : Prop := total = true → AStopping ∈ schedule w K.

Definition enough (K fuel y : nat) : Prop :=
  total = true → ∃ n, fuel = S n ∧ (K ≤ y + n)%nat.

Lemma requested_stable K : stable (requested K).
Proof. intros w w' HL Hr Ht. rewrite (later_schedule _ _ HL). by apply Hr. Qed.

(** The facts a loop carries from one iteration to the next. *)
Definition looping (K y : nat) (w : World) : Prop := past y w ∧ requested K w ∧ configured w.

Lemma looping_stable K y : stable (looping K y).
Proof.
  apply and_stable; [apply past_stable|].
  apply and_stable; [apply requested_stable|apply configured_stable].
Qed.

(** Having seen no stop after [y] yields leaves fuel for another iteration. *)
Lemma enough_next K fuel y w :
  enough K (S fuel) y → Inv NoFault w → past (S y) w → requested K w →
  stopping_ (impl w) = false → enough K fuel (S y).
Proof.
  intros He Hw Hp Hr Hs Ht. destruct (He Ht) as (n & [= ->] & Hn).
  destruct (decide (K < yields w)%nat) as [Hlt|Hge].
  { rewrite (inv_stop _ _ Hw K Hlt (Hr Ht)) in Hs. done. }
  unfold past in Hp. destruct n as [|n]; [lia|]. exists n. split; [done|lia].
Qed.

Lemma receive_loop_keeps K fuel y deadline valid :
  in_range deadline → enough K fuel y →
  keeps total NoFault (looping K y) (receive_loop fuel deadline valid) stop_seen clock_error.
Proof.
  revert y deadline valid. induction fuel as [|fuel IH]; intros y deadline valid Hd He.
  { intros w Hw Hp. apply Bool.not_true_is_false. intros Ht.
    by destruct (He Ht) as (n & ? & _). }
  cbn [receive_loop]. eapply keeps_bind.
  { apply keeps_never, (load_past y (λ w, requested K w ∧ configured w)).
    apply and_stable; [apply requested_stable|apply configured_stable]. }
  intros stopping w Hw (-> & Hp). destruct (stopping_ (impl w)) eqn:Hs.
  { apply exec_returns. simpl. split; [done|]. split; [done|]. by intros _. }
  assert (He' : enough K fuel (S y)) by (eapply enough_next; [done|done|apply Hp|apply Hp|done]).
  apply keeps_use with (pre := looping K (S y)); [|done|exact Hp|reflexivity].
  apply (receive_body_keeps (looping K (S y))); [apply looping_stable|by intros w' (_ & _ & ?)| |done].
  intros d v Hd'. by apply IH.
Qed.

(** ** A session *)

(** The configuration of a session is a validated one or a [DiscoveryError]. *)
Lemma configuration_for_session_ok curl once config :
  config_ok config →
  XmlConfig.ok_or_discovery_error
    (λ c, calibration_ok (SensorConfiguration.calibration c))
    (configuration_for_session curl once config).2.
Proof.
  intros [[now Hv] Ho]. unfold configuration_for_session.
  assert (Htimers : Discovery.timers_safe
    {| Discovery.sensor_host := Config.sensor_host config;
       Discovery.http_port := Config.http_port config;
       Discovery.connect_timeout := Config.configuration_connect_timeout config;
       Discovery.total_timeout := Config.configuration_timeout config |}).
  { apply Types.validate_config_inv in Hv as (_ & _ & _ & _ & H1 & H2 & _).
    apply Types.require_safe_timeout_inv in H1 as (_ & _ & _ & H1).
    apply Types.require_safe_timeout_inv in H2 as (_ & _ & _ & H2).
    split; right; auto. }
  destruct (Config.calibration_override config) as [cal|] eqn:E.
  - simpl. destruct (Ho cal eq_refl) as [H1 H2]. split; [done|]. split; [done|].
    apply Types.validate_config_inv in Hv as (_ & _ & _ & _ & _ & _ & _ & _ & _ & _ & _ & Hv).
    by apply Hv.
  - eapply XmlConfig.ode_impl; [by apply Discovery.discover_sensor_outcome|].
    intros c (_ & _ & H1 & H2 & H3 & _). done.
Qed.

Lemma apply_configuration_keeps F c ex :
  stable F → calibration_ok (SensorConfiguration.calibration c) →
  keeps total NoFault F (locked (apply_configuration c)) (λ _ w, F w ∧ configured w) ex.
Proof.
  intros HF Hc. apply keeps_never, locked_keeps; [done|]. intros w Hw Hp.
  destruct (apply_configuration_shape c (impl w)) as (h & conf & E & Hs & Hcal & Hst & Hfc).
  assert (Ew : w <| impl ::= apply_configuration c |> = w <| impl := (impl w) <| health_ := h |> |>)
    by (unfold update_field; by rewrite E).
  cbv zeta. rewrite Ew. set (w' := w <| impl := _ |>).
  assert (HL : Later w w') by (split; cbn; try done; intros _; by rewrite Hs).
  assert (Hconf : configured w') by (unfold configured; cbn; by rewrite Hs).
  split; [|split; [done|split; [by apply (HF w)|done]]].
  destruct Hw. split; cbn; try done.
  intros c' Hc'. rewrite Hs in Hc'. injection Hc' as <-. by rewrite Hcal.
Qed.

Lemma configure_session_keeps F :
  stable F →
  keeps total NoFault F configure_session
    (λ o w, F w ∧ match o with None => configured w | Some o => stop_seen o w end) never.
Proof.
  intros HF. unfold configure_session.
  eapply keeps_catch with (ex := λ e w, exn_kind e = DiscoveryError ∧ F w).
  - intros w Hw Hp. apply exec_bind, exec_returns, returns_get.
    pose proof (configuration_for_session_ok (curl w (discoveries w)) (curl_once w) _
                  (inv_config _ _ Hw)) as Ho.
    destruct (configuration_for_session _ _ _) as [once r]. cbn [snd] in Ho.
    apply exec_bind, exec_returns, returns_modify.
    set (w1 := w <| discoveries ::= S |> <| curl_once := once |>).
    assert (Inv NoFault w1 ∧ Later w w1) as [H1 L1] by (destruct Hw; by split; split; cbn).
    apply keeps_use with (pre := F); [|done|by apply (HF w)|done].
    eapply keeps_bind with (mid := λ c w, F w ∧ calibration_ok (SensorConfiguration.calibration c)).
    { apply keeps_lift. intros w2 _ HF2. by destruct r. }
    intros c w2 H2 [HF2 Hc]. revert w2 H2 HF2.
    eapply keeps_bind; [by apply apply_configuration_keeps|]. intros ?. apply keeps_ret.
    by intros w3 [? ?].
  - intros e _. eapply keeps_conseq;
      [apply (early_return_keeps F); [done|by intros []]|by intros w [_ ?]
      |by intros a w [? (o & -> & ?)]|done].
  - intros e w [-> _]. by rewrite bool_decide_eq_true_2.
Qed.

(** A command that was sent had a socket to go to. *)
Lemma send_connected F c :
  stable F →
  keeps total NoFault F (send_command c)
    (λ _ w, F w ∧ Transport.socket_ (Transport.tr (link w)) ≠ Transport.kInvalidSocket)
    (transport_error F).
Proof.
  intros HF. apply keeps_link. intros w Hw Hp. eapply returns_mono.
  { apply Transport.send_law, (inv_link _ _ Hw). }
  intros r l' (Hl & Ht & Hr). split; [done|]. rewrite Ht. split; [apply (inv_session _ _ Hw)|].
  split; [done|]. destruct r; [| |done]; (split; [|by cbn; rewrite ?Ht]) || split;
    [by apply stable_ignores_link|by left|by apply stable_ignores_link].
Qed.

Lemma connect_keeps F host port :
  stable F →
  keeps total NoFault F (on_link (Transport.t_connect host port)) (λ _, F) (transport_error F).
Proof.
  intros HF. apply keeps_link. intros w Hw Hp. eapply returns_mono.
  { apply Transport.connect_law, (inv_link _ _ Hw). }
  intros r l' (Hl & Hr). split; [done|]. destruct r as [[]|e|]; [| |done].
  - destruct Hr as [Hr _]. split; [unfold Transport.kInvalidSocket; lia|].
    split; [done|by apply stable_ignores_link].
  - destruct Hr as [Hk ->]. split; [apply (inv_session _ _ Hw)|]. split; [done|].
    split; [by left|by apply stable_ignores_link].
Qed.

Lemma open_session_keeps F :
  stable F →
  keeps total NoFault F open_session
    (λ o w, F w ∧ match o with None => True | Some o => stop_seen o w end) never.
Proof.
  intros HF. unfold open_session. eapply keeps_catch with (ex := transport_error F).
  - eapply keeps_bind; [by apply keeps_read with (ok := λ _, F)|]. intros config.
    eapply keeps_bind; [by apply connect_keeps|]. intros ?.
    eapply keeps_bind; [by apply keeps_never, (load_keeps total NoFault F)|]. intros stopping.
    apply keeps_if; intros Hst.
    { eapply keeps_bind with (mid := λ o w, F w ∧ stop_seen o w); [|intros ?; by apply keeps_ret].
      apply keeps_ret. intros w [E ?]. split; [done|]. intros _. congruence. }
    eapply keeps_bind;
      [eapply keeps_pre; [by apply (send_connected F)|by intros w [_ ?]]|].
    intros ?. eapply keeps_bind with (mid := λ _, F); [|intros ?; by apply keeps_ret].
    apply keeps_impl. intros w Hw [Hp Hs]. cbv zeta.
    assert (HL : Later w (w <| impl ::= λ i, i <| session_started_ := true |> |>)) by (by split; cbn).
    split; [|split; [done|by apply (HF w)]]. destruct Hw. by split; cbn.
  - intros e _. eapply keeps_conseq;
      [apply (early_return_keeps F); [done|by intros []]|by intros w [_ ?]
      |by intros a w [? (o & -> & ?)]|done].
  - intros e w [[Hk|Hk] _]; by rewrite Hk.
Qed.

(** What a session keeps of the loop around it. *)
Definition waiting (K y : nat) (w : World) : Prop := past y w ∧ requested K w.

Lemma waiting_stable K y : stable (waiting K y).
Proof. apply and_stable; [apply past_stable|apply requested_stable]. Qed.

Lemma receive_session_keeps K fuel y :
  enough K fuel y →
  keeps total NoFault (waiting K y) (receive_session fuel)
    (λ o w, waiting K y w ∧ stop_seen o w) clock_error.
Proof.
  intros He. unfold receive_session. pose proof (waiting_stable K y) as HF.
  eapply keeps_bind; [apply (locked_stable (waiting K y)); [done|]|].
  { intros w [] Hp. by split; split; cbn. }
  intros ?. eapply keeps_bind; [by apply keeps_never, (load_keeps total NoFault (waiting K y))|].
  intros stopping. apply keeps_if; intros Hst.
  { apply keeps_ret. intros w [E ?]. split; [done|]. intros _. congruence. }
  eapply keeps_pre with (pre := waiting K y); [|by intros w [_ ?]].
  eapply keeps_bind; [by apply keeps_never, (configure_session_keeps (waiting K y))|].
  intros [o|]; [by apply keeps_ret|].
  eapply keeps_pre with (pre := looping K y); [|by intros w ([Hy Hr] & Hc)].
  pose proof (looping_stable K y) as HL.
  assert (Hlw : ∀ w, looping K y w → waiting K y w) by (by intros w (? & ? & _)).
  eapply keeps_bind; [by apply keeps_never, (load_keeps total NoFault (looping K y))|].
  intros stopping'. apply keeps_if; intros Hst'.
  { apply keeps_ret. intros w [E ?]. split; [by apply Hlw|]. intros _. congruence. }
  eapply keeps_pre with (pre := looping K y); [|by intros w [_ ?]].
  eapply keeps_bind; [by apply keeps_never, (open_session_keeps (looping K y))|].
  intros [o|]; [apply keeps_ret; intros w [? ?]; split; auto|].
  eapply keeps_pre with (pre := looping K y); [|by intros w [? _]].
  eapply keeps_bind; [apply (locked_stable (looping K y)); [done|]|].
  { intros w [] Hp. by split; split; cbn. }
  intros ?. eapply keeps_bind; [by apply keeps_read with (ok := λ _, looping K y)|]. intros timeout.
  eapply keeps_bind; [by apply keeps_never, (now_keeps total NoFault (looping K y)), stable_ignores_link|].
  intros t w Hw [Ht Hp]. revert w Hw Hp.
  eapply keeps_bind; [by apply (checked_deadline_keeps (looping K y))|].
  intros d w Hw [Hd Hp]. revert w Hw Hp. intros w Hw Hp.
  eapply exec_mono; [by apply (receive_loop_keeps K fuel y d false Hd He)|].
  intros [o|e|] w' (H' & L' & Hr); [|done..]. split; [done|]. split; [done|].
  split; [|done]. apply (HF w); [done|]. by apply Hlw.
Qed.

(** ** The end of a session *)

Definition Open (f : FaultCode) : Phase := {| latched := f; closed := false |}.
Definition Closed (f : FaultCode) : Phase := {| latched := f; closed := true |}.

(** A closed session may be reopened. *)
Lemma reopen f w : Inv (Closed f) w → Inv (Open f) w.
Proof. intros []. by split. Qed.

Lemma end_session_keeps f :
  keeps total (Open f) (λ _, True)
    (started ← read session_started_;
     if started : bool
     then
       _ ← m_catch any_exception (send_command Rdt.StopStreaming) (λ _, mret ());
       on_impl (λ i, i <| session_started_ := false |>)
     else mret ())
    (λ _ w, session_started_ (impl w) = false) never.
Proof.
  eapply keeps_bind;
    [by apply keeps_read with (ok := λ b w, b = session_started_ (impl w))|].
  intros []; [|by apply keeps_ret]. eapply keeps_bind with (mid := λ _ _, True).
  - eapply keeps_catch;
      [eapply keeps_pre; [by apply (send_keeps total (Open f) (λ _, True))|done]| |done].
    intros e _. by apply keeps_ret.
  - intros ?. apply keeps_impl. intros w Hw _. by frame.
Qed.

Lemma close_session_exec f w :
  Inv (Open f) w →
  exec total close_session w (λ r w', r = Ok () ∧ Inv (Closed f) w' ∧ Later w w').
Proof.
  intros Hw. unfold close_session. apply exec_bind.
  eapply exec_mono; [by apply (yield_keeps total (Open f) (λ _, True))|].
  intros [[]|e|] w1 (H1 & L1 & Hr); [|done..].
  pose proof (end_session_keeps f w1 H1 I) as He. unfold exec in He |- *.
  unfold mbind, M_bind in *. unfold read in *. simpl in He |- *.
  match goal with |- context [match ?m w1 with _ => _ end] => set (e := m w1) in * end.
  match type of He with match ?x with _ => _ end => change x with e in He end.
  destruct e as [[[[]|x|] w2]|]; [|by destruct He as (_ & _ & [])..|done].
  destruct He as (H2 & L2 & Hs). unfold on_link, on_field.
  pose proof (Transport.close_spec (link w2) (inv_link _ _ H2)) as Hc. unfold returns in Hc.
  destruct (Transport.close (link w2)) as [[r l']|]; [|done].
  destruct Hc as (-> & Hl & Hd & Ht). split; [done|].
  assert (Later w2 (w2 <| link := l' |>)) by (by split; cbn).
  split; [|etransitivity; [exact L1|by etransitivity]].
  destruct H2. split; cbn; try done; rewrite ?Ht; [by rewrite Hs|done].
Qed.

(** Publishing a fault when none is latched. *)
Lemma publish_fault_exec code message w :
  code ≠ FaultCode.None → Inv NoFault w →
  exec total (publish_fault code message) w
    (λ r w', r = Ok () ∧ Inv (Open code) w' ∧ Later w w' ∧
       HealthSnapshot.last_error (health_ (impl w')) = message).
Proof.
  intros Hc Hw. unfold publish_fault, locked. apply exec_bind.
  eapply exec_mono; [by apply (yield_keeps total NoFault (λ _, True))|].
  intros [[]|e|] w1 (H1 & L1 & Hr); [|done..]. apply exec_returns, returns_modify.
  assert (E : set_fault code message (impl w1) = (impl w1)
    <| fault_latch_ := {| FaultLatch.code_ := code |} |>
    <| health_ := (health_ (impl w1)) <| HealthSnapshot.state := ClientState.Faulted |>
         <| HealthSnapshot.fault_code := code |> <| HealthSnapshot.last_error := message |> |>).
  { unfold set_fault, FaultLatch.publish. rewrite (inv_latch _ _ H1). done. }
  assert (Ew : w1 <| impl ::= set_fault code message |> = w1 <| impl := (impl w1)
    <| fault_latch_ := {| FaultLatch.code_ := code |} |>
    <| health_ := (health_ (impl w1)) <| HealthSnapshot.state := ClientState.Faulted |>
         <| HealthSnapshot.fault_code := code |> <| HealthSnapshot.last_error := message |> |> |>)
    by (unfold update_field at 1; by rewrite E).
  rewrite Ew. split; [done|]. split; [|split; [etransitivity; [exact L1|]|done]].
  - destruct H1. by split; cbn.
  - by split; cbn.
Qed.

Lemma back_off_keeps F message backoff :
  stable F → keeps total NoFault F (back_off message backoff) (λ _, F) clock_error.
Proof.
  intros HF. unfold back_off.
  eapply keeps_bind; [apply (locked_stable F); [done|]|].
  { intros w [] Hp. by split; split; cbn. }
  intros ?. eapply keeps_bind; [by apply keeps_never, (yield_keeps total NoFault F)|]. intros ?.
  eapply keeps_bind; [by apply keeps_never, (now_keeps total NoFault F), stable_ignores_link|].
  intros t w Hw [Ht Hp]. revert w Hw Hp.
  eapply keeps_bind; [by apply (checked_deadline_keeps F)|].
  intros d w Hw [_ Hp]. revert w Hw Hp. by apply keeps_never, (yield_keeps total NoFault F).
Qed.

(** ** The thread *)

Lemma enough_mono K fuel y y' : (y ≤ y')%nat → enough K fuel y → enough K fuel y'.
Proof. intros Hy He Ht. destruct (He Ht) as (n & -> & Hn). exists n. split; [done|lia]. Qed.

(** The fault each way to fail stands for. *)
Definition session_faults : list (SessionResult * FaultCode) :=
  [(RSensorConfiguration, FaultCode.SensorConfiguration); (RTimeout, FaultCode.Timeout);
   (RSocket, FaultCode.Socket); (RSeriousStatus, FaultCode.SeriousStatus);
   (RFtStall, FaultCode.FtStall); (RFtBackward, FaultCode.FtBackward);
   (RMalformedStorm, FaultCode.MalformedStorm); (RCallback, FaultCode.Callback)].

(** A session that began after [w] ended with [o], was closed, and the fault [f] was
    published for it, with its message. *)
Definition session_failed (w : World) (o : SessionOutcome) (f : FaultCode) (w' : World) : Prop :=
  (result o, f) ∈ session_faults ∧
  ∃ fuel w1 w2 w3,
    Later w w1 ∧ receive_session fuel w1 = Some (Ok o, w2) ∧
    close_session w2 = Some (Ok (), w3) ∧
    publish_fault f (outcome_message o) w3 = Some (Ok (), w').

(** How the loop of [run] may end. *)
Definition loop_end (w : World) (r : Res ()) (w' : World) : Prop :=
  Later w w' ∧
  match r with
  | Ok _ => Inv NoFault w' ∧ stopping_ (impl w') = true ∨
      (Config.recovery_policy (config_ (impl w)) = RecoveryPolicy.FailStop ∧
       ∃ o f, session_failed w o f w' ∧ Inv (Open f) w')
  | Throw e => exn_kind e = invalid_argument ∧ Inv NoFault w'
  | UB => False
  end.

Lemma loop_end_trans w w1 r w2 : Later w w1 → loop_end w1 r w2 → loop_end w r w2.
Proof.
  intros L1 [L2 H2]. split; [by etransitivity|]. rewrite (later_config _ _ L1) in H2.
  destruct r; [|done..]. destruct H2 as [H2|(Hp & o & f & (Hf & fuel & wa & wb & wc & La & Hs) & Hi)];
    [by left|right].
  split; [done|]. exists o, f. split; [|done]. split; [done|]. exists fuel, wa, wb, wc.
  split; [by etransitivity|done].
Qed.

Lemma after_session_exec F continue outcome backoff w0 fuel w1 w :
  stable F →
  (∀ backoff w, Inv NoFault w → F w → exec total (continue backoff) w (loop_end w)) →
  Later w0 w1 → receive_session fuel w1 = Some (Ok outcome, w) → Later w0 w →
  Inv NoFault w → F w → stop_seen outcome w →
  exec total (after_session continue outcome backoff) w (loop_end w0).
Proof.
  intros HF Hcont L01 Hses L0 Hw Hp Hseen. unfold after_session. apply exec_bind.
  eapply exec_eqn; [by apply (close_session_exec FaultCode.None)|].
  intros r w2 Hclose (-> & H2 & L2). apply reopen in H2. assert (Hp2 : F w2) by (by apply (HF w)).
  apply (stop_seen_stable outcome w w2 L2) in Hseen.
  assert (L02 : Later w0 w2) by (by etransitivity).
  apply exec_bind, exec_returns. unfold read. do 3 m_step.
  destruct (bool_decide (result outcome = RStopped)) eqn:Hst; cbn [negb andb orb].
  { apply bool_decide_eq_true in Hst.
    apply exec_bind. eapply exec_mono; [by apply (load_keeps total NoFault (λ _, True))|].
    intros [?|e|] w3 (H3 & L3 & Hr); [|done..]. apply exec_returns.
    split; [by etransitivity|]. left. split; [done|]. by apply (later_stopping _ _ L3), Hseen. }
  apply bool_decide_eq_false in Hst. case_bool_decide as Hpol.
  { rewrite (later_config _ _ L02) in Hpol.
    eapply exec_eqn; [apply publish_fault_exec; [by destruct (result outcome)|exact H2]|].
    intros r w3 Hpub (-> & H3 & L3 & _). split; [by etransitivity|]. right. split; [done|].
    exists outcome, (fault_for (result outcome)). split; [|done]. split.
    - revert Hst. destruct (result outcome); intros Hst; try done; repeat constructor.
    - by exists fuel, w1, w, w2. }
  apply exec_bind. eapply exec_mono; [by apply (load_keeps total NoFault F)|].
  intros [stopping|e|] w3 (H3 & L3 & Hr); [|done..]. destruct Hr as [Hs3 Hp3].
  assert (L03 : Later w0 w3) by (by etransitivity).
  destruct stopping; [apply exec_returns; split; [done|by left]|].
  apply exec_bind. eapply exec_mono; [by apply (back_off_keeps F)|].
  intros [[]|e|] w4 (H4 & L4 & Hp4); [|split; [by etransitivity|done]|done].
  eapply exec_mono; [by apply Hcont|]. intros r w5.
  apply loop_end_trans. by etransitivity.
Qed.

Lemma run_loop_exec K fuel session_fuel y backoff w :
  enough K fuel y → enough K session_fuel y → Inv NoFault w → waiting K y w →
  exec total (run_loop fuel session_fuel backoff) w (loop_end w).
Proof.
  revert y backoff w. induction fuel as [|fuel IH]; intros y backoff w He Hes Hw Hp.
  { apply Bool.not_true_is_false. intros Ht. by destruct (He Ht) as (n & ? & _). }
  cbn [run_loop]. apply exec_bind.
  eapply exec_mono; [apply (load_past y (requested K) stopping_); [apply requested_stable|done|exact Hp]|].
  intros [stopping|e|] w1 (H1 & L1 & Hr); [|done..]. destruct Hr as (-> & Hp1 & Hr1).
  apply exec_bind. eapply exec_mono; [by apply (load_keeps total NoFault (waiting K (S y)) faulted);
    [apply waiting_stable|done|split]|].
  intros [fault|e|] w2 (H2 & L2 & Hr); [|done..]. destruct Hr as (-> & Hw2).
  assert (L02 : Later w w2) by (by etransitivity).
  destruct (stopping_ (impl w1)) eqn:Hs1; cbn [orb].
  { apply exec_returns. split; [done|]. left. split; [done|]. by apply (later_stopping _ _ L2). }
  assert (He' : enough K fuel (S y)) by (eapply enough_next; [exact He|exact H1|done|done|done]).
  assert (Hes' : enough K session_fuel (S y)) by (eapply enough_mono; [|done]; lia).
  replace (faulted (impl w2)) with false
    by (unfold faulted, FaultLatch.faulted; by rewrite (inv_latch _ _ H2)).
  apply exec_bind. eapply exec_eqn; [by apply (receive_session_keeps K session_fuel (S y) Hes')|].
  intros [outcome|e|] w3 Hses (H3 & L3 & Hr3); [| |done].
  2: { split; [by etransitivity|done]. }
  destruct Hr3 as [Hp3 Hseen].
  apply (after_session_exec (waiting K (S y)) _ _ _ w session_fuel w2);
    [apply waiting_stable| |done|done|by etransitivity|done..].
  intros b w' Hi Hw'. by apply (IH (S y)).
Qed.

(** Why the worker has ended: it was asked to stop, its clock gave out, or a session of a
    fail-stop client ended by itself. After a fault was published nothing but
    [finish_session] follows. *)
Definition fault_reason (w : World) (f : FaultCode) (w' : World) : Prop :=
  f = FaultCode.None ∧ stopping_ (impl w') = true ∨
  ∃ w1, finish_session w1 = Some (Ok (), w') ∧
    (f = FaultCode.Socket ∧ (∃ e w0, exn_kind e = invalid_argument ∧ Later w w0 ∧
       publish_fault FaultCode.Socket (what e) w0 = Some (Ok (), w1)) ∨
     Config.recovery_policy (config_ (impl w)) = RecoveryPolicy.FailStop ∧
       ∃ o, session_failed w o f w1).

(** How [run] ends: released, and stopped or faulted. *)
Definition run_end (w : World) (r : Res ()) (w' : World) : Prop :=
  r = Ok () ∧ Later w w' ∧ worker_exited_ (impl w') = true ∧
  ∃ f, Inv (Closed f) w' ∧
    (f = FaultCode.None → HealthSnapshot.state (health_ (impl w')) = ClientState.Stopped) ∧
    fault_reason w f w'.

Lemma finish_session_exec f w :
  Inv (Open f) w →
  exec total finish_session w (λ r w', r = Ok () ∧ Later w w' ∧
    worker_exited_ (impl w') = true ∧ Inv (Closed f) w' ∧
    (f = FaultCode.None → HealthSnapshot.state (health_ (impl w')) = ClientState.Stopped)).
Proof.
  intros Hw. unfold finish_session. apply exec_bind.
  eapply exec_mono; [by apply close_session_exec|]. intros r w1 (-> & H1 & L1).
  apply exec_bind. eapply exec_mono.
  { apply (locked_keeps total (Closed f) (λ _, True) (λ i, i <| worker_exited_ := true |>)
             (λ _ w, worker_exited_ (impl w) = true)); [done| |exact H1|done].
    intros w' Hw' _. by frame. }
  intros [[]|e|] w2 (H2 & L2 & Hx); [|done..]. apply exec_bind.
  eapply exec_mono; [by apply (load_keeps total (Closed f) (λ _, True) faulted)|].
  intros [fault|e|] w3 (H3 & L3 & Hr); [|done..]. destruct Hr as [-> _].
  assert (L03 : Later w w3) by (etransitivity; [exact L1|by etransitivity]).
  assert (Hx3 : worker_exited_ (impl w3) = true) by (by apply (later_exited _ _ L3)).
  unfold faulted, FaultLatch.faulted. rewrite (inv_latch _ _ H3). cbn [latched Closed].
  case_bool_decide as Hf.
  { apply exec_returns, returns_ret. split_and!; done. }
  assert (f = FaultCode.None) as -> by (by destruct f). eapply exec_mono.
  { apply (locked_keeps total (Closed FaultCode.None) (λ w, worker_exited_ (impl w) = true)
             (λ i, i <| health_ ::= λ h, h <| HealthSnapshot.state := ClientState.Stopped |> |>)
             (λ _ w, worker_exited_ (impl w) = true ∧
                     HealthSnapshot.state (health_ (impl w)) = ClientState.Stopped));
      [intros ? ? L; apply (later_exited _ _ L)| |exact H3|done].
    intros w' Hw' Hx'. by frame. }
  intros [[]|e|] w4 (H4 & L4 & Hr); [|done..]. destruct Hr as [Hx4 Hs4].
  split_and!; [done|by etransitivity|done|done|done].
Qed.

Lemma run_exec K fuel w :
  enough K fuel (yields w) → Inv NoFault w → requested K w →
  exec total (run fuel) w (run_end w).
Proof.
  intros He Hw Hr. unfold run. apply exec_bind, exec_returns. unfold read.
  do 3 m_step. apply exec_bind.
  eapply exec_mono with (Q := λ r w1, r = Ok () ∧ Later w w1 ∧
    ∃ f, Inv (Open f) w1 ∧ ∀ w', Later w1 w' → finish_session w1 = Some (Ok (), w') →
      fault_reason w f w').
  - apply exec_catch. eapply exec_mono.
    { apply (run_loop_exec K fuel fuel (yields w)); [done|done|done|].
      split; [unfold past; lia|done]. }
    intros [[]|e|] w1 [L1 H1]; [| |done].
    { split; [done|]. split; [done|]. destruct H1 as [[H1 Hs]|(Hp & o & f & Hses & H1)].
      - exists FaultCode.None. split; [done|]. intros w' L' _. left.
        split; [done|]. by apply (later_stopping _ _ L').
      - exists f. split; [done|]. intros w' _ Hfin. right. exists w1. split; [done|]. right. eauto. }
    destruct H1 as [Hk H1]. simpl. apply exec_bind.
    eapply exec_mono; [by apply (load_keeps total NoFault (λ _, True) stopping_)|].
    intros [stopping|e'|] w2 (H2 & L2 & Hst); [|done..].
    assert (L02 : Later w w2) by (by etransitivity).
    destruct stopping.
    { apply exec_returns. split_and!; [done..|]. exists FaultCode.None. split; [done|].
      intros w' L' _. left. split; [done|]. apply (later_stopping _ _ L').
      by destruct Hst as [<- _]. }
    rewrite Hk. cbn [std_exception].
    eapply exec_eqn; [by apply publish_fault_exec|].
    intros r w3 Hpub (-> & H3 & L3 & _). split; [done|]. split; [by etransitivity|].
    exists FaultCode.Socket. split; [done|]. intros w' _ Hfin. right. exists w3.
    split; [done|]. left. split; [done|]. by exists e, w2.
  - intros r w1 (-> & L1 & f & H1 & Hf). eapply exec_eqn; [by apply finish_session_exec|].
    intros r w2 Hfin (-> & L2 & Hx & H2 & Hs). split; [done|]. split; [by etransitivity|].
    split; [done|]. exists f. split; [done|]. split; [done|]. by apply Hf.
Qed.

End session.

(** ** Main theorems *)

(** What the client promises when its worker has ended. *)
Definition worker_done (w w' : World) : Prop :=
  worker_exited_ (impl w') = true ∧
  session_started_ (impl w') = false ∧
  Transport.descriptors (Transport.os (link w')) = ∅ ∧
  (if faulted (impl w')
   then HealthSnapshot.state (health_ (impl w')) = ClientState.Faulted ∧
        HealthSnapshot.fault_code (health_ (impl w')) = fault_code (impl w')
   else HealthSnapshot.state (health_ (impl w')) = ClientState.Stopped) ∧
  fault_reason w (fault_code (impl w')) w'.

Lemma run_end_done w r w' : run_end w r w' → r = Ok () ∧ worker_done w w'.
Proof.
  intros (-> & _ & Hx & f & Hi & Hs & Hf). split; [done|].
  pose proof (inv_latch _ _ Hi) as Hl. cbn in Hl.
  split; [done|]. split; [by apply (inv_ended _ _ Hi)|]. split.
  { pose proof (inv_released _ _ Hi eq_refl) as Hr.
    destruct (inv_link _ _ Hi) as [_ [[_ ?]|(? & _)]]; [done|].
    rewrite Hr in *. unfold Transport.kInvalidSocket in *. lia. }
  unfold faulted, FaultLatch.faulted, fault_code, FaultLatch.code. rewrite Hl. split.
  - case_bool_decide as Hn; [by apply (inv_faulted _ _ Hi)|]. apply Hs. by destruct f.
  - done.
Qed.

(** C1: the receiving thread is safe under every interleaving. Whatever the network,
    the kernel, libcurl, the callback and the other threads do, and however long it
    runs, the worker never has undefined behaviour and lets no exception escape
    its [noexcept] body; when it ends, the session is closed, no socket is left
    open, and the reported state is [Faulted] with the latched code or [Stopped];
    it has ended without a fault only because it was asked to stop. A reconnecting client
    faults only on an exhausted clock. A fail-stop client also faults when a session ends
    by itself: it was the last session, it was closed, the code published is that of its
    outcome, in the table, with its message, and [finish_session] is all that followed. *)
Theorem run_safe fuel w :
  Inv NoFault w → safe (run fuel) w (λ r w', r = Ok () ∧ worker_done w w').
Proof.
  intros Hw. pose proof (run_exec false 0 fuel w) as H. unfold exec, safe in *.
  destruct (run fuel w) as [[r w']|]; [|done]. apply run_end_done, H; [by intros ?|done|by intros ?].
Qed.

(** C2: a stop request always ends the thread. If some thread calls [stop()] at the
    yield [K] of the worker, the worker returns within [K + 1] iterations of its
    loops, wherever it was (discovering, connecting, receiving, in a callback or
    backing off) and whatever the environment answers, with everything released. *)
Theorem run_stops K n w :
  Inv NoFault w → AStopping ∈ schedule w K → (K ≤ yields w + n)%nat →
  returns (run (S n)) w (λ r w', r = Ok () ∧ worker_done w w').
Proof.
  intros Hw HK Hn. pose proof (run_exec true K (S n) w) as H. unfold exec, returns in *.
  assert (He : enough true K (S n) (yields w)) by (intros _; by exists n).
  specialize (H He Hw (λ _, HK)). destruct (run (S n) w) as [[r w']|]; [|done].
  by apply run_end_done.
Qed.

(** ** Establishing the invariant *)

(** A started client: the kernel [o], libcurl, a schedule and a callback. *)
Definition new_world (i : Impl) (o : Transport.Os) (c : nat → Discovery.CurlEnv)
    (sched : nat → list Action) (seen : nat → nat → bool)
    (resp : nat → Sample → CallbackResult) : World :=
  {| impl := i; link := Transport.fresh_link o; curl := c; discoveries := 0; curl_once := None;
     schedule := sched; shutdown_seen := seen; yields := 0; respond := resp; invocations := [] |}.

(** A client built from an accepted configuration, after its first [start]. *)
Lemma first_start_inv thread callback sched seen now config i o c resp :
  make now config = Ok i →
  (∀ cal, Config.calibration_override config = Some cal →
     d_valid (Calibration.counts_per_force_unit cal) ∧
     d_valid (Calibration.counts_per_torque_unit cal)) →
  Transport.os_ok o → Transport.descriptors o = ∅ →
  Inv NoFault (new_world (start_worker (Ok thread) callback i).2 o c sched seen resp).
Proof.
  intros Hm Hcal Ho Hd. unfold make in Hm. res_inv.
  match goal with x : () |- _ => destruct x end.
  split; cbn; try done; [|by split; [exists now|]|split; apply Forall_nil_2|lia].
  split; [done|]. by left.
Qed.

(** [start] establishes the worker's invariant. A client built from an accepted
    configuration satisfies it after its first [start]; and so does a client
    whose previous worker has ended, with or without a fault, after the next
    [start], whatever schedule follows. *)
Theorem start_establishes_invariant thread callback sched seen :
  (∀ now config i o c resp,
     make now config = Ok i →
     (∀ cal, Config.calibration_override config = Some cal →
        d_valid (Calibration.counts_per_force_unit cal) ∧
        d_valid (Calibration.counts_per_torque_unit cal)) →
     Transport.os_ok o → Transport.descriptors o = ∅ →
     Inv NoFault (new_world (start_worker (Ok thread) callback i).2 o c sched seen resp)) ∧
  (∀ f w, Inv (Closed f) w →
     Inv NoFault (w <| impl := (start_worker (Ok thread) callback (impl w)).2 |>
                    <| schedule := sched |> <| shutdown_seen := seen |> <| yields := 0%nat |>)).
Proof.
  split.
  - intros. by eapply first_start_inv.
  - intros f w []. split; cbn; try done; [split; apply Forall_nil_2|lia].
Qed.

End safety.

(** ** Witnesses *)

(** A sensor without data: the receive times out, the client backs off, and another
    thread calls [stop()] meanwhile. *)
Definition idle_world : World :=
  new_world (start_worker (Ok 1%nat) (Some 7%nat) (initial_impl override_config)).2
    Transport.quiet_os (λ _, Discovery.fake_server)
    (λ k, if (k =? 12)%nat then [AStopping; AStopCommand; AHealth] else [AHealth; ABias])
    (λ _ _, true) (λ _ _, CbReturn).

Lemma override_config_ok :
  make (P:=LinuxX86_64) (λ _, 5) override_config = Ok (initial_impl override_config).
Proof. vm_compute. reflexivity. Qed.

Lemma idle_world_inv : Inv (P:=LinuxX86_64) NoFault idle_world.
Proof.
  apply (first_start_inv (P:=LinuxX86_64) 1 (Some 7%nat)) with (now := λ _, 5)
    (config := override_config);
    [exact override_config_ok|intros cal [= <-]; by vm_compute|exact Transport.quiet_os_ok|done].
Qed.

Abbreviation linux_ops := (Transport.Posix.ops (P:=LinuxX86_64)).

Lemma run_safe_witness :
  safe (run (P:=LinuxX86_64) (Ops:=linux_ops) 50) idle_world
    (λ r w', r = Ok () ∧ worker_done (P:=LinuxX86_64) (Ops:=linux_ops) idle_world w').
Proof.
  apply (run_safe (Laws := Transport.posix_laws (P:=LinuxX86_64))). exact idle_world_inv.
Defined.

Lemma run_stops_witness :
  returns (run (P:=LinuxX86_64) (Ops:=linux_ops) 13) idle_world
    (λ r w', r = Ok () ∧ worker_done (P:=LinuxX86_64) (Ops:=linux_ops) idle_world w').
Proof.
  apply (run_stops (Laws := Transport.posix_laws (P:=LinuxX86_64)) 12 12 idle_world);
    [exact idle_world_inv|cbn; apply elem_of_cons; left; reflexivity|cbn; lia].
Defined.

Lemma start_establishes_invariant_witness : Inv (P:=LinuxX86_64) NoFault idle_world.
Proof.
  apply (proj1 (start_establishes_invariant (P:=LinuxX86_64) 1 (Some 7%nat) _ _)) with (now := λ _, 5)
    (config := override_config);
    [exact override_config_ok|intros cal [= <-]; by vm_compute|exact Transport.quiet_os_ok|done].
Defined.

End WorkerSafety.
