(* ===== verification/Backoff.v ===== *)
(** * The reconnect delays: core/src/detail/client_impl.cpp, lines 383 and 401-416

    Between two sessions [run()] waits, and doubles the wait up to a maximum until a
    session receives a valid record again. The delays are [double]s; doubling a [double]
    is exact until it overflows, so the delays have a closed form, which this file proves
    of the floating-point code. *)

From Stdlib Require Import ZArith Lia.
From Corelib Require Import SpecFloat.
From S2P Require Import Prelude Floats Clock Types Worker.
Import Fp Clock.

Module Backoff.

(** ** The delays of a run *)

(** Source: core/src/detail/client_impl.cpp:383-416, [Client::Impl::run]: the delays between
    the sessions of a run, given for each session whether it received a valid record. *)
Fixpoint pauses (config : Config) (backoff : double) (valid : list bool) : list double :=
  match valid with
  | [] => []
  | v :: valid =>
    let backoff := Worker.pause_after config v backoff in
    backoff :: pauses config (Worker.next_backoff config backoff) valid
  end.

(** The number of sessions without a valid record at the end of the list. *)
Fixpoint barren (valid : list bool) : nat :=
  match valid with
  | [] => 0
  | v :: rest => if forallb negb (v :: rest) then length (v :: rest) else barren rest
  end.

(** ** Exact doubling *)

Lemma shr_1_even n : 0 ≤ n →
  shr_1 {| shr_m := 2 * n; shr_r := false; shr_s := false |} =
  {| shr_m := n; shr_r := false; shr_s := false |}.
Proof. by destruct n as [|[]|]. Qed.

Lemma iter_shr_1_even p n : 0 ≤ n →
  SpecFloat.iter_pos shr_1 p {| shr_m := n * 2 ^ Zpos p; shr_r := false; shr_s := false |} =
  {| shr_m := n; shr_r := false; shr_s := false |}.
Proof.
  revert n. induction p as [p IH|p IH|]; intros n Hn; cbn [SpecFloat.iter_pos].
  - replace (n * 2 ^ Zpos p~1) with (2 * ((n * 2 ^ Zpos p) * 2 ^ Zpos p)).
    2: { replace (Zpos p~1) with (Zpos p + Zpos p + 1) by lia. rewrite !Z.pow_add_r by lia. lia. }
    rewrite shr_1_even by lia. rewrite !IH by lia. done.
  - replace (n * 2 ^ Zpos p~0) with ((n * 2 ^ Zpos p) * 2 ^ Zpos p).
    2: { replace (Zpos p~0) with (Zpos p + Zpos p) by lia. rewrite !Z.pow_add_r by lia. lia. }
    rewrite !IH by lia. done.
  - replace (n * 2 ^ 1) with (2 * n) by lia. by apply shr_1_even.
Qed.

(** Rounding a mantissa whose discarded bits are zero discards nothing. *)
Lemma round_even s m j e k :
  0 ≤ m → 0 ≤ j → fexp 53 1024 (Zdigits2 (m * 2 ^ j) + e) - e = k → 0 ≤ k ≤ j → m * 2 ^ (j - k) < 2 ^ 53 → emin 53 1024 ≤ e + k →
  binary_round_aux 53 1024 s (m * 2 ^ j) e loc_Exact = pack 53 1024 s (m * 2 ^ (j - k)) (e + k).
Proof.
  intros Hm Hj Ek' Hk Hlt He. rewrite <- (binary_round_aux_exact 53 1024) by (try done; lia).
  assert (shr_fexp 53 1024 (m * 2 ^ j) e loc_Exact =
          ({| shr_m := m * 2 ^ (j - k); shr_r := false; shr_s := false |}, e + k)) as Hs.
  { unfold shr_fexp. rewrite Ek'. unfold shr. cbn [shr_record_of_loc].
    destruct k as [|p|p] eqn:Ek; [by rewrite Z.sub_0_r, Z.add_0_r| |lia].
    f_equal. replace (m * 2 ^ j) with (m * 2 ^ (j - Zpos p) * 2 ^ Zpos p).
    - apply iter_shr_1_even. lia.
    - rewrite <- Z.mul_assoc, <- Z.pow_add_r by lia. do 2 f_equal. lia. }
  assert (shr_fexp 53 1024 (m * 2 ^ (j - k)) (e + k) loc_Exact =
          ({| shr_m := m * 2 ^ (j - k); shr_r := false; shr_s := false |}, e + k)) as Hs'.
  { assert (Zdigits2 (m * 2 ^ (j - k)) ≤ 53) by (apply Zdigits2_le; lia).
    unfold shr_fexp, shr.
    assert (fexp 53 1024 (Zdigits2 (m * 2 ^ (j - k)) + (e + k)) - (e + k) ≤ 0) as Hf
      by (unfold fexp; lia).
    case_match; [done|lia|done]. }
  unfold binary_round_aux. rewrite Hs, Hs'. done.
Qed.

(** ** Positive finite numbers as multiples of the smallest one *)

(** The value of a positive [double], in units of [2^-1074]. *)
Definition units (x : double) : Z :=
  match x with S754_finite false m e => Zpos m * 2 ^ (e + 1074) | _ => 0 end.

Lemma units_nonneg x : 0 ≤ units x.
Proof. destruct x as [| | |[] m e]; cbn [units]; lia. Qed.

Definition positive (x : double) : Prop :=
  d_valid x ∧ ∃ m e, x = S754_finite false m e.

Lemma valid_exponent s m e :
  d_valid (S754_finite s m e) →
  -1074 ≤ e ≤ 971 ∧ Zpos m < 2 ^ 53 ∧ (2 ^ 52 ≤ Zpos m ∨ e = -1074).
Proof.
  unfold d_valid. cbn. unfold bounded, canonical_mantissa, fexp, emin.
  intros [H1%Z.eqb_eq H2%Z.leb_le]%andb_prop. pose proof (digits2_pos_bounds m) as [Hl Hu].
  split; [lia|].
  assert (Zpos (digits2_pos m) ≤ 53) as Hd by lia.
  split; [eapply Z.lt_le_trans; [done|apply Z.pow_le_mono_r; lia]|].
  destruct (decide (Zpos (digits2_pos m) = 53)) as [E|E]; [|right; lia].
  left. by rewrite E in Hl.
Qed.

Lemma units_lt x y : positive x → positive y → d_lt x y = (units x <? units y).
Proof.
  intros [Hx (m & e & ->)] [Hy (m' & e' & ->)]. cbn [units].
  destruct (valid_exponent _ _ _ Hx) as ((He1 & He2) & Hm & Hc).
  destruct (valid_exponent _ _ _ Hy) as ((He1' & He2') & Hm' & Hc').
  assert (∀ a b c d : Z, 0 < a < 2 ^ 53 → 2 ^ 52 ≤ b → -1074 ≤ c → c < d →
          a * 2 ^ (c + 1074) < b * 2 ^ (d + 1074)) as Hlt.
  { intros a b c d Ha Hb Hc1 Hcd. apply Z.lt_le_trans with (2 ^ 53 * 2 ^ (c + 1074)).
    - apply Z.mul_lt_mono_pos_r; lia.
    - apply Z.le_trans with (2 ^ 52 * 2 ^ (d + 1074)); [|apply Z.mul_le_mono_nonneg_r; lia].
      rewrite <- !Z.pow_add_r by lia. apply Z.pow_le_mono_r; lia. }
  unfold d_lt, SFltb, SFcompare. destruct (Z.compare_spec e e') as [->|He|He].
  - rewrite Z.mul_comm, (Z.mul_comm (Zpos m')). 
    destruct (Pos.compare_cont Eq m m') eqn:E; symmetry.
    + apply Z.ltb_ge. apply Pos.compare_eq in E. subst. lia.
    + apply Z.ltb_lt. apply Z.mul_lt_mono_pos_l; [lia|]. exact E.
    + apply Z.ltb_ge. apply Z.mul_le_mono_nonneg_l; [lia|].
      change (Pos.compare m m' = Gt) in E. apply Pos.compare_gt_iff in E. lia.
  - symmetry. apply Z.ltb_lt. apply Hlt; lia.
  - symmetry. apply Z.ltb_ge, Z.lt_le_incl. apply Hlt; lia.
Qed.

Lemma pack_finite m e : 0 < m → e ≤ 971 →
  ∃ p, pack 53 1024 false m e = S754_finite false p e ∧ Zpos p = m.
Proof.
  intros Hm He. destruct m as [|p|p]; [lia| |lia]. exists p. cbn.
  by rewrite (proj2 (Z.leb_le _ _)) by lia.
Qed.

Lemma digits_shift m : Zdigits2 (Zpos m * 2 ^ 52) = Zpos (digits2_pos m) + 52.
Proof.
  pose proof (digits2_pos_bounds m) as [Hl Hu]. apply Z.le_antisymm.
  - apply Zdigits2_le; [lia|]. rewrite Z.pow_add_r by lia. lia.
  - apply Z.lt_pred_le. apply Zdigits2_gt; [lia|].
    replace (Z.pred (Zpos (digits2_pos m) + 52)) with (Zpos (digits2_pos m) - 1 + 52) by lia.
    rewrite Z.pow_add_r by lia. apply Z.mul_le_mono_nonneg_r; lia.
Qed.

Lemma double_round m e :
  d_mul (S754_finite false m e) (d_of_Z 2) =
  binary_round_aux 53 1024 false (Zpos m * 2 ^ 52) (e + -51) loc_Exact.
Proof. reflexivity. Qed.

(** With a full mantissa the exponent grows. *)
Lemma double_normal m e :
  Zpos (digits2_pos m) = 53 → -1074 ≤ e →
  d_mul (S754_finite false m e) (d_of_Z 2) = pack 53 1024 false (Zpos m) (e + 1).
Proof.
  intros E He. rewrite double_round.
  rewrite (round_even false (Zpos m) 52 (e + -51) 52); rewrite ?digits_shift; unfold fexp, emin;
    try lia.
  - f_equal; lia.
  - pose proof (digits2_pos_bounds m) as [_ Hu]. rewrite E in Hu. lia.
Qed.

(** A subnormal number's mantissa grows. *)
Lemma double_subnormal m :
  Zpos (digits2_pos m) ≤ 52 →
  d_mul (S754_finite false m (-1074)) (d_of_Z 2) = S754_finite false m~0 (-1074).
Proof.
  intros E. rewrite double_round.
  rewrite (round_even false (Zpos m) 52 (-1074 + -51) 51); rewrite ?digits_shift; unfold fexp, emin;
    try lia.
  - change (52 - 51) with 1.
    destruct (pack_finite (Zpos m * 2 ^ 1) (-1074)) as (p & Hp & Hm); [lia|lia|].
    change (-1074 + -51 + 51) with (-1074). rewrite Hp. f_equal. lia.
  - pose proof (digits2_pos_bounds m) as [_ Hu].
    assert (2 ^ Zpos (digits2_pos m) ≤ 2 ^ 52) by (apply Z.pow_le_mono_r; lia). lia.
Qed.

(** The largest exponent: twice such a number exceeds every [double]. *)
Lemma double_exceeds m y :
  2 ^ 52 ≤ Zpos m → positive y → units y < 2 * units (S754_finite false m 971).
Proof.
  intros Hl [Hy (my & ey & ->)]. destruct (valid_exponent _ _ _ Hy) as ((? & ?) & Hmy & _).
  cbn [units]. apply Z.lt_le_trans with (2 ^ 53 * 2 ^ (971 + 1074)).
  - apply Z.le_lt_trans with (Zpos my * 2 ^ (971 + 1074)).
    + apply Z.mul_le_mono_nonneg_l; [lia|]. apply Z.pow_le_mono_r; lia.
    + apply Z.mul_lt_mono_pos_r; lia.
  - change (2 ^ 53) with (2 * 2 ^ 52). rewrite <- Z.mul_assoc.
    apply Z.mul_le_mono_nonneg_l; [lia|]. apply Z.mul_le_mono_nonneg_r; lia.
Qed.

Lemma valid_finite m e :
  fexp 53 1024 (Zpos (digits2_pos m) + e) = e → e ≤ 971 → positive (S754_finite false m e).
Proof.
  intros Hf He. split; [|eauto]. unfold d_valid. cbn. unfold bounded, canonical_mantissa.
  apply andb_true_intro. split; [by apply Z.eqb_eq|apply Z.leb_le; lia].
Qed.

(** [x * 2.0] is twice [x], or infinite when that exceeds every finite number. *)
Lemma double_units x :
  positive x →
  (positive (d_mul x (d_of_Z 2)) ∧ units (d_mul x (d_of_Z 2)) = 2 * units x) ∨
  (d_mul x (d_of_Z 2) = S754_infinity false ∧ ∀ y, positive y → units y < 2 * units x).
Proof.
  intros [Hv (m & e & ->)]. destruct (valid_exponent _ _ _ Hv) as ((He1 & He2) & Hm & Hc).
  unfold d_valid in Hv. cbn in Hv. unfold bounded, canonical_mantissa, fexp, emin in Hv.
  apply andb_prop in Hv as [Hf%Z.eqb_eq _].
  destruct (decide (Zpos (digits2_pos m) = 53)) as [E|E].
  - rewrite double_normal by done. destruct (decide (e + 1 ≤ 971)) as [He|He].
    + left. destruct (pack_finite (Zpos m) (e + 1)) as (p & -> & [= ->]); [lia|done|].
      split; [apply valid_finite; [unfold fexp, emin; lia|done]|].
      cbn [units]. replace (e + 1 + 1074) with (e + 1074 + 1) by lia.
      rewrite Z.pow_add_r by lia. lia.
    + right. assert (e = 971) as -> by lia. split; [done|]. intros y Hy.
      apply double_exceeds; [|done]. pose proof (digits2_pos_bounds m) as [Hl _].
      by rewrite E in Hl.
  - left. assert (e = -1074) as -> by lia. rewrite double_subnormal by lia.
    split; [apply valid_finite; [unfold fexp, emin; cbn [digits2_pos]; lia|lia]|cbn [units]; lia].
Qed.

(** One doubling, bounded. *)
Lemma next_backoff_units config x :
  positive x → positive (Config.reconnect_max_delay config) →
  positive (Worker.next_backoff config x) ∧
  units (Worker.next_backoff config x) =
    Z.min (2 * units x) (units (Config.reconnect_max_delay config)).
Proof.
  intros Hx Hm. unfold Worker.next_backoff, d_min.
  destruct (double_units x Hx) as [[Hp Hu]|[Hi Hb]].
  - rewrite (units_lt _ _ Hm Hp), Hu. destruct (Z.ltb_spec (units (Config.reconnect_max_delay config)) (2 * units x)).
    + split; [done|lia].
    + split; [done|]. rewrite Hu. lia.
  - rewrite Hi. specialize (Hb _ Hm). destruct Hm as [Hv (m & e & E)]. rewrite E in *.
    cbn [d_lt SFltb SFcompare]. split; [by split; [|eauto]|lia].
Qed.

(** ** The closed form *)

Lemma barren_snoc_valid l : barren (l ++ [true]) = 0%nat.
Proof.
  induction l as [|v l IH]; [done|]. cbn [app barren].
  replace (forallb negb (v :: l ++ [true])) with false; [done|].
  symmetry. cbn. rewrite forallb_app. cbn. by rewrite !andb_false_r.
Qed.

Lemma barren_snoc_barren l : barren (l ++ [false]) = S (barren l).
Proof.
  induction l as [|v l IH]; [done|]. cbn [app barren].
  replace (forallb negb (v :: l ++ [false])) with (forallb negb (v :: l)).
  - destruct (forallb negb (v :: l)); [|done]. cbn. rewrite length_app. cbn. lia.
  - cbn. rewrite forallb_app. cbn. by rewrite !andb_true_r.
Qed.

(** What the delay before a session is, given the sessions before it. *)
Definition delay (config : Config) (n : nat) : Z :=
  Z.min (2 ^ Z.of_nat n * units (Config.reconnect_initial_delay config))
        (units (Config.reconnect_max_delay config)).

Section config.
Context (config : Config).
Hypothesis initial_positive : positive (Config.reconnect_initial_delay config).
Hypothesis max_positive : positive (Config.reconnect_max_delay config).
Hypothesis ordered :
  units (Config.reconnect_initial_delay config) ≤ units (Config.reconnect_max_delay config).

Lemma delay_0 : units (Config.reconnect_initial_delay config) = delay config 0.
Proof. unfold delay. change (2 ^ Z.of_nat 0) with 1. lia. Qed.

Lemma delay_S x n :
  positive x → units x = delay config n →
  positive (Worker.next_backoff config x) ∧ units (Worker.next_backoff config x) = delay config (S n).
Proof.
  intros Hx Hu. destruct (next_backoff_units config x Hx max_positive) as [Hp ->].
  split; [done|]. rewrite Hu. unfold delay. rewrite Nat2Z.inj_succ, Z.pow_succ_r by lia.
  pose proof (units_nonneg (Config.reconnect_max_delay config)). lia.
Qed.

(** The delays continue those of the sessions [before]. *)
Lemma pauses_units before valid x i b :
  positive x → units x = delay config (Nat.min (S (barren before)) (length before)) →
  pauses config x valid !! i = Some b →
  positive b ∧
  units b = delay config (Nat.min (barren (before ++ take (S i) valid)) (length before + i)).
Proof.
  revert before x i. induction valid as [|v valid IH]; intros before x i Hx Hu Hl; [done|].
  assert (positive (Worker.pause_after config v x) ∧
          units (Worker.pause_after config v x) =
            delay config (Nat.min (barren (before ++ [v])) (length before))) as [Hp Hd].
  { unfold Worker.pause_after. destruct v.
    - split; [done|]. rewrite barren_snoc_valid. apply delay_0.
    - split; [done|]. by rewrite Hu, barren_snoc_barren. }
  destruct i as [|i]; cbn [pauses lookup list_lookup] in Hl.
  - injection Hl as <-. cbn [take]. by rewrite Nat.add_0_r.
  - destruct (delay_S _ _ Hp Hd) as [Hp' Hd'].
    replace (length before + S i)%nat with (length (before ++ [v]) + i)%nat
      by (rewrite length_app; cbn; lia).
    replace (before ++ take (S (S i)) (v :: valid)) with ((before ++ [v]) ++ take (S i) valid)
      by (by rewrite <- app_assoc).
    eapply IH; [exact Hp'| |exact Hl]. rewrite Hd', length_app. f_equal. cbn [length]. lia.
Qed.
End config.

Section properties.
Context `{P : Platform}.

(** ** Properties *)

Lemma accepted_timeout_positive now name x http :
  d_valid x → Types.require_safe_timeout now name x http = Ok () → positive x.
Proof.
  intros Hv (Hf & Hp & _)%Types.require_safe_timeout_inv. split; [done|].
  destruct x as [s|s| |s m e]; try done. destruct s; [done|eauto].
Qed.

(** C29: The reconnect delays have a closed form. Under an accepted configuration, and for
    any sessions of a run, the delay after session [i] is exactly
    [min (initial * 2^n, max)], [n] being the number of sessions in a row, up to and with
    this one, that received no valid record, where the first session of the run is not
    counted: the delay after it is [initial] in any case. The doubling in floating point
    never rounds, and where it would overflow the maximum is taken. The values are compared
    exactly, in units of the smallest [double]. *)
Theorem pauses_closed_form now config valid i b :
  d_valid (Config.reconnect_initial_delay config) → d_valid (Config.reconnect_max_delay config) →
  Types.validate_config now config = Ok () →
  pauses config (Config.reconnect_initial_delay config) valid !! i = Some b →
  units b =
    Z.min (2 ^ Z.of_nat (Nat.min (barren (take (S i) valid)) i) *
           units (Config.reconnect_initial_delay config))
          (units (Config.reconnect_max_delay config)).
Proof.
  intros Hvi Hvm Hc Hl. apply Types.validate_config_inv in Hc as (_ & _ & _ & _ & _ & _ & Hi & Hm & Hlt & _).
  apply accepted_timeout_positive in Hi, Hm; try done. rewrite units_lt in Hlt by done.
  apply Z.ltb_ge in Hlt.
  apply (pauses_units config Hi Hm Hlt [] valid (Config.reconnect_initial_delay config) i b);
    [done|by apply delay_0|done].
Qed.

End properties.

Lemma pauses_closed_form_witness :
  let config := Config.default_Config in
  ∃ b, pauses config (Config.reconnect_initial_delay config) [false; false; true; false; false] !! 4%nat
         = Some b ∧
    units b = 4 * units (Config.reconnect_initial_delay config).
Proof.
  intros config. eexists. split; [reflexivity|].
  rewrite (@pauses_closed_form LinuxX86_64 (λ _, 0) config [false; false; true; false; false] 4);
    [by vm_compute|by vm_compute..].
Defined.

End Backoff.
