(* ===== verification/Lifecycle.v ===== *)
(** * Start, stop and join: core/src/detail/client_impl.cpp, lines 111-289

    Any number of threads call [start()] and [stop()], from outside or from the
    callback a worker runs, while the workers they create run and end. The state
    machine has one step per critical section of [lifecycle_mutex_], per wait on
    [lifecycle_cv_] and per store of the worker that these methods read without that
    mutex; the data the methods reset and restore is in [Client] ([start_worker],
    [rollback]), the command [stop()] sends in [Worker]. *)

From Stdlib Require Import ZArith Lia.
From stdpp Require Import functions relations.
From S2P Require Import Prelude.

Module Lifecycle.

(** A thread: one of the program's, or the [w]th worker the client created. *)
Inductive Tid := User (n : nat) | Worker (w : nat).

(** Where a thread is inside [start()] or [stop()]; [Idle] is outside both. *)
Inductive Pc :=
  | Idle
  | StartEntry                 (* line 115: about to lock *)
  | StartHeld                  (* line 116: locked, before the test for the own worker *)
  | StartWait                  (* line 120: locked, evaluates the predicate *)
  | StartJoinSleep             (* line 120: asleep *)
  | StartJoinWake              (* line 120: notified, about to relock *)
  | StartReady                 (* line 121: locked, no join is under way *)
  | StartLive                  (* line 123: locked, saw a worker that had not exited *)
  | FaultCheck                 (* line 126: locked, evaluates the predicate *)
  | FaultBlock                 (* line 126: locked, found it false, about to sleep *)
  | FaultSleep                 (* line 126: asleep *)
  | FaultWake                  (* line 126: notified, about to relock *)
  | StartJoin (w : nat)        (* line 218: joins the worker it took *)
  | StartJoined                (* line 220: about to lock *)
  | StartNotify                (* line 224: about to notify *)
  | StopEntry                  (* line 239: about to lock *)
  | StopHeld                   (* line 256: locked, before the test for the own worker *)
  | StopReady                  (* line 260: locked *)
  | StopJoinSleep              (* line 261: asleep *)
  | StopJoinWake               (* line 261: notified, about to relock *)
  | StopJoin (w : nat)         (* line 275: joins the worker it took *)
  | StopJoined                 (* line 277: about to lock *)
  | StopNotify.                (* line 285: about to notify *)

(** Where a worker is: not created, running, past the store of [worker_exited_]
    (line 725), or past its last notification (line 735), which [join()] waits for. *)
Inductive WorkerPc := Unborn | Running | Exited | Gone.

#[global] Instance Tid_eq_dec : EqDecision Tid.
Proof. solve_decision. Defined.
#[global] Instance Pc_eq_dec : EqDecision Pc.
Proof. solve_decision. Defined.
#[global] Instance WorkerPc_eq_dec : EqDecision WorkerPc.
Proof. solve_decision. Defined.

(** Source: core/src/detail/client_impl.hpp:77-100, [Client::Impl]: the members of the
    life cycle, with the program counters. [faulted_] is [fault_latch_.faulted()];
    [worker_] and [active_worker_id_] are [None] when they name no thread. *)
Record State := {
  mutex : option Tid;
  worker_ : option nat;
  active_worker_id_ : option nat;
  worker_exited_ : bool;
  joining_ : bool;
  stopping_ : bool;
  faulted_ : bool;
  pcs : Tid → Pc;
  workers : nat → WorkerPc
}.

#[global] Instance State_eta : Eta State := λ r,
  {| mutex := mutex r; worker_ := worker_ r; active_worker_id_ := active_worker_id_ r;
     worker_exited_ := worker_exited_ r; joining_ := joining_ r; stopping_ := stopping_ r;
     faulted_ := faulted_ r; pcs := pcs r; workers := workers r |}.

Definition goto (t : Tid) (pc : Pc) (s : State) : State := s <| pcs ::= <[t := pc]> |>.

(** A woken waiter relocks and evaluates its predicate again. *)
Definition awake (pc : Pc) : Pc :=
  match pc with
  | StartJoinSleep => StartJoinWake
  | FaultSleep => FaultWake
  | StopJoinSleep => StopJoinWake
  | pc => pc
  end.

(** [lifecycle_cv_.notify_all()]. *)
Definition notify_all (s : State) : State := s <| pcs ::= λ p t, awake (p t) |>.

Definition lock (t : Tid) (s : State) : State := s <| mutex := Some t |>.
Definition unlock (s : State) : State := s <| mutex := None |>.

(** A thread may call a method while it runs: the program's threads always, a worker
    (from its callback) while it has not ended. *)
Definition may_call (s : State) (t : Tid) : bool :=
  match t with User _ => true | Worker w => bool_decide (workers s w = Running) end.

(** Source: core/src/detail/client_impl.cpp:116-119, [Client::Impl::start], and lines
    256-259, [Client::Impl::stop]: the call comes from the worker in progress. *)
Definition own_worker (s : State) (t : Tid) : bool :=
  match t with
  | User _ => false
  | Worker w => negb (worker_exited_ s) && bool_decide (active_worker_id_ s = Some w)
  end.

(** Source: core/src/detail/client_impl.cpp:120-120, [Client::Impl::start], the wait for
    the end of a join, with its predicate [!joining_]. *)
Definition start_wait (t : Tid) (s : State) : State :=
  if joining_ s then goto t StartJoinSleep (unlock s) else goto t StartReady s.

(** Source: core/src/detail/client_impl.cpp:126-129, [Client::Impl::start], the predicate
    of the wait. *)
Definition fault_wait_over (s : State) : bool := worker_exited_ s || negb (faulted_ s).

(** Source: core/src/detail/client_impl.cpp:178-214, [Client::Impl::start]: the worker is
    created, [w] being the new thread. *)
Definition create (w : nat) (s : State) : State :=
  s <| worker_ := Some w |> <| active_worker_id_ := Some w |> <| worker_exited_ := false |>
    <| stopping_ := false |> <| faulted_ := false |> <| workers ::= <[w := Running]> |>.

(** Source: core/src/detail/client_impl.cpp:131-132, [Client::Impl::start], and lines
    271-272, [Client::Impl::stop]: the caller takes the worker. *)
Definition reap (s : State) : State := s <| joining_ := true |> <| worker_ := None |>.

(** Source: core/src/detail/client_impl.cpp:219-223, [Client::Impl::start], and lines
    276-284, [Client::Impl::stop]: the caller has joined it. *)
Definition reaped (s : State) : State := s <| active_worker_id_ := None |> <| joining_ := false |>.

(** What a step is: a new call, a wake-up no notification caused (which the language
    allows), or the program's progress. *)
Inductive Label := Call | Spurious | Internal.

(** Source: core/src/detail/client_impl.cpp:111-226, [Client::Impl::start]. *)
Inductive start_step : State → State → Prop :=
  | start_lock s t : pcs s t = StartEntry → mutex s = None →
      start_step s (goto t StartHeld (lock t s))
  | start_self s t : pcs s t = StartHeld → own_worker s t = true →
      start_step s (goto t Idle (unlock s))
  | start_other s t : pcs s t = StartHeld → own_worker s t = false →
      start_step s (goto t StartWait s)
  | start_waits s t : pcs s t = StartWait →
      start_step s (start_wait t s)
  | start_relock s t : pcs s t = StartJoinWake → mutex s = None →
      start_step s (goto t StartWait (lock t s))
  | start_live s t w : pcs s t = StartReady → worker_ s = Some w → worker_exited_ s = false →
      start_step s (goto t StartLive s)
  | start_refused s t : pcs s t = StartLive → faulted_ s = false →
      start_step s (goto t Idle (unlock s))
  | start_faulted s t : pcs s t = StartLive → faulted_ s = true →
      start_step s (goto t FaultCheck s)
  | fault_continue s t : pcs s t = FaultCheck → fault_wait_over s = true →
      start_step s (goto t StartEntry (unlock s))
  | fault_false s t : pcs s t = FaultCheck → fault_wait_over s = false →
      start_step s (goto t FaultBlock s)
  | fault_sleep s t : pcs s t = FaultBlock →
      start_step s (goto t FaultSleep (unlock s))
  | fault_relock s t : pcs s t = FaultWake → mutex s = None →
      start_step s (goto t FaultCheck (lock t s))
  | start_reap s t w : pcs s t = StartReady → worker_ s = Some w → worker_exited_ s = true →
      start_step s (goto t (StartJoin w) (unlock (reap s)))
  | start_create s t w : pcs s t = StartReady → worker_ s = None → workers s w = Unborn →
      start_step s (notify_all (goto t Idle (unlock (create w s))))
  | start_no_thread s t : pcs s t = StartReady → worker_ s = None →
      start_step s (notify_all (goto t Idle (unlock s)))
  | start_join s t w : pcs s t = StartJoin w → workers s w = Gone →
      start_step s (goto t StartJoined s)
  | start_joined s t : pcs s t = StartJoined → mutex s = None →
      start_step s (goto t StartNotify (reaped s))
  | start_notify s t : pcs s t = StartNotify →
      start_step s (notify_all (goto t StartEntry s)).

(** Source: core/src/detail/client_impl.cpp:235-289, [Client::Impl::stop]. *)
Inductive stop_step : State → State → Prop :=
  | stop_lock s t : pcs s t = StopEntry → mutex s = None →
      stop_step s (notify_all (goto t StopHeld (lock t (s <| stopping_ := true |>))))
  | stop_self s t : pcs s t = StopHeld → own_worker s t = true →
      stop_step s (goto t Idle (unlock s))
  | stop_other s t : pcs s t = StopHeld → own_worker s t = false →
      stop_step s (goto t StopReady s)
  | stop_waits s t : pcs s t = StopReady → joining_ s = true →
      stop_step s (goto t StopJoinSleep (unlock s))
  | stop_rewaits s t : pcs s t = StopJoinWake → mutex s = None → joining_ s = true →
      stop_step s (goto t StopJoinSleep s)
  | stop_continue s t : pcs s t = StopJoinWake → mutex s = None → joining_ s = false →
      stop_step s (goto t StopEntry s)
  | stop_idle s t : pcs s t = StopReady → joining_ s = false → worker_ s = None →
      stop_step s (goto t Idle (unlock s))
  | stop_reap s t w : pcs s t = StopReady → joining_ s = false → worker_ s = Some w →
      stop_step s (goto t (StopJoin w) (unlock (reap s)))
  | stop_join s t w : pcs s t = StopJoin w → workers s w = Gone →
      stop_step s (goto t StopJoined s)
  | stop_joined s t : pcs s t = StopJoined → mutex s = None →
      stop_step s (goto t StopNotify (reaped s))
  | stop_notify s t : pcs s t = StopNotify →
      stop_step s (notify_all (goto t Idle s)).

(** Source: core/src/detail/client_impl.cpp:382-428, [Client::Impl::run], with lines
    685-694, [Client::Impl::set_fault], and lines 723-736, [Client::Impl::finish_session]:
    a worker outside a call publishes a fault, notifies after a delivery, and ends once
    it is told to stop or has published a fault. *)
Inductive worker_step : State → State → Prop :=
  | worker_delivers s w : workers s w = Running → pcs s (Worker w) = Idle →
      worker_step s (notify_all s)
  | worker_faults s w : workers s w = Running → pcs s (Worker w) = Idle →
      worker_step s (notify_all (s <| faulted_ := true |>))
  | worker_exits s w : workers s w = Running → pcs s (Worker w) = Idle →
      stopping_ s = true ∨ faulted_ s = true →
      worker_step s (s <| workers ::= <[w := Exited]> |> <| worker_exited_ := true |>)
  | worker_notifies s w : workers s w = Exited →
      worker_step s (notify_all (s <| workers ::= <[w := Gone]> |>)).

Inductive step : Label → State → State → Prop :=
  | call_start s t : pcs s t = Idle → may_call s t = true → step Call s (goto t StartEntry s)
  | call_stop s t : pcs s t = Idle → may_call s t = true → step Call s (goto t StopEntry s)
  | spurious s t : awake (pcs s t) ≠ pcs s t → step Spurious s (goto t (awake (pcs s t)) s)
  | by_start s s' : start_step s s' → step Internal s s'
  | by_stop s s' : stop_step s s' → step Internal s s'
  | by_worker s s' : worker_step s s' → step Internal s s'.

(** Source: core/src/detail/client_impl.hpp:77-100, [Client::Impl], the initial values. *)
Definition initial : State :=
  {| mutex := None; worker_ := None; active_worker_id_ := None; worker_exited_ := true;
     joining_ := false; stopping_ := false; faulted_ := false; pcs := λ _, Idle;
     workers := λ _, Unborn |}.

Definition any_step (s s' : State) : Prop := ∃ l, step l s s'.
Definition reachable (s : State) : Prop := rtc any_step initial s.

(** ** Invariant *)

(** The thread holds the mutex. *)
Definition holds (pc : Pc) : bool :=
  match pc with
  | StartHeld | StartWait | StartReady | StartLive | FaultCheck | FaultBlock
  | StopHeld | StopReady => true
  | _ => false
  end.

(** The thread has taken the worker and not yet cleared [joining_]. *)
Definition joins (pc : Pc) : bool :=
  match pc with StartJoin _ | StartJoined | StopJoin _ | StopJoined => true | _ => false end.

(** The thread has cleared [joining_] and not yet notified. *)
Definition notifies (pc : Pc) : bool :=
  match pc with StartNotify | StopNotify => true | _ => false end.

(** The thread sleeps until no join is under way. *)
Definition sleeps (pc : Pc) : bool :=
  match pc with StartJoinSleep | StopJoinSleep => true | _ => false end.

Definition target (pc : Pc) : option nat :=
  match pc with StartJoin w | StopJoin w => Some w | _ => None end.

(** The points of the two methods that a call from the worker itself reaches. *)
Definition own_path (pc : Pc) : bool :=
  match pc with Idle | StartEntry | StartHeld | StopEntry | StopHeld => true | _ => false end.

(** The thread is between the store of [stopping_] and the end of its join. *)
Definition stop_held (pc : Pc) : bool :=
  match pc with StopHeld | StopReady | StopJoin _ => true | _ => false end.

Definition live (s : State) (w : nat) : Prop := workers s w = Running ∨ workers s w = Exited.


(** Who holds the mutex and who joins. *)
Record Control (s : State) : Prop := {
  inv_holds : ∀ t, holds (pcs s t) = true ↔ mutex s = Some t;
  inv_ready : ∀ t, pcs s t = StartReady → joining_ s = false;
  inv_joining : joining_ s = true → worker_ s = None;
  inv_joins : ∀ t, joins (pcs s t) = true → joining_ s = true;
  inv_once : ∀ t1 t2, joins (pcs s t1) = true → joins (pcs s t2) = true → t1 = t2;
  inv_joiner : joining_ s = true → ∃ t, joins (pcs s t) = true
}.

(** What the control point of one thread says of the workers: a worker being joined
    was created and is the active one, [start()] joins only a worker that has ended, the
    flag [stopping_] stays set until [stop()] has joined, and a worker that calls takes
    the path of an own worker. *)
Definition pc_owned (s : State) (t : Tid) (pc : Pc) : Prop :=
  (∀ w, target pc = Some w → active_worker_id_ s = Some w ∧ workers s w ≠ Unborn) ∧
  (∀ w, pc = StartJoin w → workers s w ≠ Running) ∧
  (stop_held pc = true → stopping_ s = true) ∧
  match t with
  | User _ => True
  | Worker w => own_path pc = true ∧ (pc ≠ Idle → workers s w = Running)
  end.

(** Which worker there is. *)
Record Owned (s : State) : Prop := {
  inv_pc : ∀ t, pc_owned s t (pcs s t);
  inv_worker : ∀ w, worker_ s = Some w → active_worker_id_ s = Some w ∧ workers s w ≠ Unborn;
  inv_live : ∀ w, live s w →
    active_worker_id_ s = Some w ∧ (worker_ s = Some w ∨ ∃ t, target (pcs s t) = Some w);
  inv_running : ∀ w, workers s w = Running → worker_exited_ s = false;
  inv_exited : worker_exited_ s = false → ∃ w, workers s w = Running
}.

(** What a sleeping thread waits for. *)
Record Waits (s : State) : Prop := {
  inv_sleeps : ∀ t, sleeps (pcs s t) = true →
    joining_ s = true ∨ ∃ t', notifies (pcs s t') = true;
  inv_fault : ∀ t, pcs s t = FaultBlock ∨ pcs s t = FaultSleep → faulted_ s = true
}.

Lemma pcs_goto s t pc t' : pcs (goto t pc s) t' = if decide (t' = t) then pc else pcs s t'.
Proof.
  change (pcs (goto t pc s)) with (<[t := pc]> (pcs s)).
  destruct (decide (t' = t)) as [->|]; [by rewrite fn_lookup_insert|].
  by rewrite fn_lookup_insert_ne.
Qed.

Lemma holds_awake pc : holds (awake pc) = holds pc.
Proof. by destruct pc. Qed.
Lemma joins_awake pc : joins (awake pc) = joins pc.
Proof. by destruct pc. Qed.
Lemma target_awake pc : target (awake pc) = target pc.
Proof. by destruct pc. Qed.
Lemma own_path_awake pc : own_path pc = true → awake pc = pc.
Proof. by destruct pc. Qed.
Lemma awake_inv pc pc' : awake pc = pc' → pc = pc' ∨ sleeps pc = true ∨ pc = FaultSleep.
Proof. destruct pc; naive_solver. Qed.

(** ** Control *)

Lemma notify_all_control s : Control s → Control (notify_all s).
Proof.
  intros [H1 H2 H3 H4 H5 H6]. split; cbn; try done.
  - intros t. rewrite holds_awake. apply H1.
  - intros t Ht. apply (H2 t). by destruct (pcs s t).
  - intros t. rewrite joins_awake. apply H4.
  - intros t1 t2. rewrite !joins_awake. apply H5.
  - intros Hj. destruct (H6 Hj) as [t Ht]. exists t. by rewrite joins_awake.
Qed.

(** Splits a statement on [pcs (goto t pc s)] into the moved thread and the others. *)
Ltac moved :=
  repeat match goal with
  | |- context [pcs (goto _ _ _) _] => rewrite pcs_goto
  | H : context [pcs (goto _ _ _) _] |- _ => rewrite pcs_goto in H
  end;
  repeat match goal with
  | |- context [decide (?a = ?b)] => destruct (decide (a = b)); subst
  | H : context [decide (?a = ?b)] |- _ => destruct (decide (a = b)); subst
  end; cbn in *.

(** A thread moves between points that agree on the mutex and on joining. *)
Lemma same_control s t pc :
  Control s → holds pc = holds (pcs s t) → joins pc = joins (pcs s t) →
  (pc = StartReady → joining_ s = false) → Control (goto t pc s).
Proof.
  intros [H1 H2 H3 H4 H5 H6] Hh Hj Hr. split; [| |done| | |].
  - intros t'. moved; [rewrite Hh|]; apply H1.
  - intros t' Ht. moved; eauto.
  - intros t' Ht. moved; [rewrite Hj in Ht|]; eauto.
  - intros t1 t2 Ht1 Ht2. moved; rewrite ?Hj in *; eauto.
  - intros Hj'. destruct (H6 Hj') as [t' Ht']. exists t'. moved; congruence.
Qed.

(** The mutex, [joining_] and [worker_] change, and no thread moves. *)
Lemma lock_control s t pc :
  Control s → mutex s = None → holds pc = true → joins pc = joins (pcs s t) →
  (pc = StartReady → joining_ s = false) → Control (goto t pc (lock t s)).
Proof.
  intros [H1 H2 H3 H4 H5 H6] Hm Hh Hj Hr. split; [| |done| | |].
  - intros t'. moved; [done|]. rewrite H1, Hm. split; congruence.
  - intros t' Ht. moved; eauto.
  - intros t' Ht. moved; [rewrite Hj in Ht|]; eauto.
  - intros t1 t2 Ht1 Ht2. moved; rewrite ?Hj in *; eauto.
  - intros Hj'. destruct (H6 Hj') as [t' Ht']. exists t'. moved; congruence.
Qed.

(** The holder unlocks; if no join is under way it may have created a worker. *)
Lemma unlock_control s s1 t pc :
  Control s → holds (pcs s t) = true → holds pc = false → joins pc = joins (pcs s t) →
  pcs s1 = pcs s → joining_ s1 = joining_ s →
  (joining_ s = true → worker_ s1 = worker_ s) → Control (goto t pc (unlock s1)).
Proof.
  intros [H1 H2 H3 H4 H5 H6] Hm Hh Hj Hp Hg Hw.
  assert (∀ t', pcs (unlock s1) t' = pcs s t') as Hp' by (intros; cbn; by rewrite Hp).
  assert (joining_ (goto t pc (unlock s1)) = joining_ s) as Hg' by done.
  split; rewrite ?Hg'.
  - intros t'. moved; [split; congruence|]. rewrite Hp'. split; [|done].
    rewrite H1. intros Ht. apply H1 in Hm. congruence.
  - intros t' Ht. moved; [by subst|]. rewrite Hp' in Ht. eauto.
  - intros Hj'. cbn. rewrite Hw; eauto.
  - intros t' Ht. moved; [rewrite Hj in Ht|rewrite Hp' in Ht]; eauto.
  - intros t1 t2 Ht1 Ht2. moved; rewrite ?Hj, ?Hp' in *; eauto.
  - intros Hj'. destruct (H6 Hj') as [t' Ht']. exists t'. moved; rewrite ?Hp'; congruence.
Qed.

(** The holder takes the worker. *)
Lemma reap_control s t pc :
  Control s → holds (pcs s t) = true → joining_ s = false → holds pc = false →
  joins pc = true → Control (goto t pc (unlock (reap s))).
Proof.
  intros [H1 H2 H3 H4 H5 H6] Hm Hg Hh Hj.
  assert (∀ t', joins (pcs s t') = true → False) as Hno.
  { intros t' Ht. specialize (H4 _ Ht). congruence. }
  split; [| |done|done| |].
  - intros t'. moved; [split; congruence|]. split; [|done].
    rewrite H1. intros Ht. apply H1 in Hm. congruence.
  - intros t' Ht. moved; [by subst|]. apply H1 in Hm.
    assert (mutex s = Some t') by (apply H1; by rewrite Ht). congruence.
  - intros t1 t2 Ht1 Ht2. moved; try done; exfalso; eauto.
  - intros _. exists t. by moved.
Qed.

(** The thread that joined clears [joining_]. *)
Lemma reaped_control s t pc :
  Control s → mutex s = None → joins (pcs s t) = true → holds pc = false → joins pc = false →
  Control (goto t pc (reaped s)).
Proof.
  intros [H1 H2 H3 H4 H5 H6] Hm Ht Hh Hj.
  assert (∀ t', joins (pcs s t') = true → t' = t) as Hone by eauto.
  split; [|done|done| | |done].
  - intros t'. moved; [split; congruence|apply H1].
  - intros t' Ht'. moved; [congruence|]. by apply Hone in Ht'.
  - intros t1 t2 Ht1 Ht2. moved; try congruence. by apply Hone in Ht1.
Qed.

(** Only the worker's own state and the flags without a lock change. *)
Lemma flags_control s s1 :
  Control s → pcs s1 = pcs s → mutex s1 = mutex s → joining_ s1 = joining_ s →
  worker_ s1 = worker_ s → Control s1.
Proof. intros [H1 H2 H3 H4 H5 H6] E1 E2 E3 E4. split; rewrite ?E1, ?E2, ?E3, ?E4; done. Qed.

Ltac control :=
  match goal with
  | HC : Control ?s, H : pcs ?s ?t = _ |- Control _ =>
    try (pose proof (inv_ready s HC t H));
    first [ apply lock_control | apply reap_control | apply reaped_control
          | apply (unlock_control s) | apply same_control ];
    rewrite ?H; first [done | congruence]
  end.

Lemma start_step_control s s' : start_step s s' → Control s → Control s'.
Proof.
  intros Hs HC. destruct Hs; try apply notify_all_control; unfold start_wait;
    try case_match; control.
Qed.

Lemma stop_step_control s s' : stop_step s s' → Control s → Control s'.
Proof.
  intros Hs HC. destruct Hs; try apply notify_all_control; try control.
  apply (flags_control (goto t StopHeld (lock t s))); try done. control.
Qed.

Lemma worker_step_control s s' : worker_step s s' → Control s → Control s'.
Proof.
  intros Hs HC. destruct Hs; try apply notify_all_control; try done;
    by apply (flags_control s).
Qed.

Lemma step_control l s s' : step l s s' → Control s → Control s'.
Proof.
  intros Hs HC. destruct Hs;
    eauto using start_step_control, stop_step_control, worker_step_control; try control.
  apply same_control; [done|apply holds_awake|apply joins_awake|].
  by destruct (pcs s t).
Qed.

(** ** Workers *)

Lemma stop_held_awake pc : stop_held (awake pc) = stop_held pc.
Proof. by destruct pc. Qed.

Lemma pc_owned_mono s s1 t pc :
  pc_owned s t pc →
  active_worker_id_ s1 = active_worker_id_ s → workers s1 = workers s →
  (stopping_ s = true → stopping_ s1 = true) → pc_owned s1 t pc.
Proof. unfold pc_owned. intros (H1 & H2 & H3 & H4) -> -> Hs. split_and!; auto. Qed.

Lemma notify_all_owned s : Owned s → Owned (notify_all s).
Proof.
  intros [H1 H2 H3 H4 H5]. split; try done.
  - intros t. destruct (H1 t) as (P1 & P2 & P3 & P4). cbn. split_and!.
    + intros w. rewrite target_awake. apply P1.
    + intros w Hw. apply P2. by destruct (pcs s t).
    + rewrite stop_held_awake. apply P3.
    + destruct t; [done|]. destruct P4 as [P4 P5]. by rewrite own_path_awake.
  - intros w Hw. destruct (H3 w Hw) as [Ha [|[t Ht]]]; [by eauto|].
    split; [done|]. right. exists t. cbn. by rewrite target_awake.
Qed.

(** A thread moves and loses no target that is live; the fields of the workers keep
    their values, except that [stopping_] may be set and [worker_] cleared. *)
Lemma goto_owned s s1 t pc :
  Owned s →
  pcs s1 = pcs s → workers s1 = workers s → active_worker_id_ s1 = active_worker_id_ s →
  worker_exited_ s1 = worker_exited_ s →
  (stopping_ s = true → stopping_ s1 = true) →
  (∀ w, worker_ s1 = Some w → worker_ s = Some w) →
  (∀ w, live s w → worker_ s = Some w → worker_ s1 = Some w ∨ target pc = Some w) →
  (∀ w, live s w → target (pcs s t) = Some w → target pc = Some w) →
  pc_owned s t pc → Owned (goto t pc s1).
Proof.
  intros [H1 H2 H3 H4 H5] E1 E2 E3 E4 E5 E6 E7 E8 HP.
  assert (∀ t', pcs s1 t' = pcs s t') as E1' by (intros; by rewrite E1).
  split.
  - intros t'. moved; rewrite ?E1'; eapply (pc_owned_mono s); eauto.
  - intros w Hw. cbn in *. rewrite E2, E3. eauto.
  - intros w Hw. change (live s1 w) in Hw. unfold live in *. rewrite E2 in Hw.
    destruct (H3 w Hw) as [Ha Hk]. split; [by cbn; rewrite E3|]. cbn [worker_ goto].
    destruct Hk as [Hk|[t' Hk]].
    + destruct (E7 w Hw Hk) as [|Hk']; [by left|]. right. exists t. by moved.
    + right. exists t'. moved; rewrite ?E1'; eauto.
  - intros w. cbn. rewrite E2, E4. apply H4.
  - cbn. rewrite E2, E4. apply H5.
Qed.

(** A thread that is past the test for the own worker is not a worker. *)
Lemma user_thread s t : Owned s → own_path (pcs s t) = false → ∃ n, t = User n.
Proof.
  intros HO Hp. destruct t as [n|w]; [by exists n|].
  destruct (inv_pc s HO (Worker w)) as (_ & _ & _ & Ho & _). congruence.
Qed.

(** A call from a worker is recognised as such. *)
Lemma own_worker_true s w :
  Owned s → pcs s (Worker w) ≠ Idle → own_worker s (Worker w) = true.
Proof.
  intros HO Hp. destruct (inv_pc s HO (Worker w)) as (_ & _ & _ & _ & Hr).
  specialize (Hr Hp). cbn. rewrite (inv_running s HO w Hr).
  destruct (inv_live s HO w (or_introl Hr)) as [-> _]. by rewrite bool_decide_eq_true_2.
Qed.

Lemma other_user s t : Owned s → pcs s t ≠ Idle → own_worker s t = false → ∃ n, t = User n.
Proof.
  intros HO Hp Ho. destruct t as [n|w]; [by exists n|].
  rewrite own_worker_true in Ho; done.
Qed.

(** A move of a thread of the program between points without a target. *)
Lemma pc_owned_user s n pc :
  target pc = None → (stop_held pc = true → stopping_ s = true) → pc_owned s (User n) pc.
Proof. intros Ht Hs. split_and!; [congruence|by intros w ->|done|done]. Qed.

(** A call that starts or ends, by any thread. *)
Lemma pc_owned_own s t pc :
  target pc = None → own_path pc = true → (stop_held pc = true → stopping_ s = true) →
  (pc = Idle ∨ may_call s t = true) → pc_owned s t pc.
Proof.
  intros Ht Ho Hs Hc. split_and!; [congruence|by intros w ->|done|].
  destruct t as [|w]; [done|]. split; [done|]. intros Hi. destruct Hc as [|Hc]; [done|].
  by apply bool_decide_eq_true in Hc.
Qed.

Lemma busy_may_call s t : Owned s → pcs s t ≠ Idle → may_call s t = true.
Proof.
  intros HO Hp. destruct t as [|w]; [done|].
  destruct (inv_pc s HO (Worker w)) as (_ & _ & _ & _ & Hr).
  cbn. by rewrite bool_decide_eq_true_2 by auto.
Qed.

(** A thread moves, keeping what it joins; nothing of the workers changes. *)
Lemma move_owned s s1 t pc :
  Owned s → target (pcs s t) = None →
  pcs s1 = pcs s → workers s1 = workers s → active_worker_id_ s1 = active_worker_id_ s →
  worker_exited_ s1 = worker_exited_ s → worker_ s1 = worker_ s →
  (stopping_ s = true → stopping_ s1 = true) →
  pc_owned s t pc → Owned (goto t pc s1).
Proof.
  intros HO Ht E1 E2 E3 E4 E5 E6 HP. apply (goto_owned s); rewrite ?E5; try done; eauto.
  by rewrite Ht.
Qed.

(** The holder takes a worker that has ended, or one that was told to stop. *)
Lemma reap_owned s t w pc :
  Owned s → own_path (pcs s t) = false → target (pcs s t) = None → worker_ s = Some w →
  (pc = StartJoin w ∧ worker_exited_ s = true) ∨ (pc = StopJoin w ∧ stopping_ s = true) →
  Owned (goto t pc (unlock (reap s))).
Proof.
  intros HO Hp Ht Hw Hpc. destruct (user_thread s t HO Hp) as [n ->].
  destruct (inv_worker s HO w Hw) as [Ha Hu].
  assert (target pc = Some w) as Htw by (by destruct Hpc as [[-> _]|[-> _]]).
  apply (goto_owned s); try done; [| |split_and!; [| | |done]].
  - intros w' _ Hw'. right. congruence.
  - by rewrite Ht.
  - intros w' Hw'. by simplify_eq.
  - intros w' ->. destruct Hpc as [[Hpc He]|[? ?]]; [|done]. simplify_eq.
    intros Hr. apply (inv_running s HO) in Hr. congruence.
  - destruct Hpc as [[-> _]|[-> ?]]; done.
Qed.

(** A join returns: the worker that was joined has ended. *)
Lemma join_owned s t w pc :
  Owned s → own_path (pcs s t) = false → target (pcs s t) = Some w → workers s w = Gone →
  target pc = None → stop_held pc = false → Owned (goto t pc s).
Proof.
  intros HO Hp Ht Hg Htp Hs. destruct (user_thread s t HO Hp) as [n ->].
  apply (goto_owned s); try done; eauto.
  - intros w' [Hl|Hl] Hw'; congruence.
  - apply pc_owned_user; congruence.
Qed.

(** While a thread has joined and not yet cleared [joining_], no worker is alive. *)
Lemma joined_no_live s t w :
  Control s → Owned s → joins (pcs s t) = true → target (pcs s t) = None → ¬ live s w.
Proof.
  intros HC HO Hj Ht Hl. destruct (inv_live s HO w Hl) as [_ [Hw|[t' Ht']]].
  - rewrite (inv_joining s HC) in Hw; [done|by eapply inv_joins].
  - assert (t' = t) as ->; [|congruence].
    apply (inv_once s HC); [|done]. by destruct (pcs s t').
Qed.

Lemma not_joining_no_target s t w :
  Control s → joining_ s = false → target (pcs s t) = Some w → False.
Proof.
  intros HC Hj Ht. assert (joins (pcs s t) = true) as Hjt by (by destruct (pcs s t)).
  apply (inv_joins s HC) in Hjt. congruence.
Qed.

Lemma reaped_owned s t pc :
  Control s → Owned s → joins (pcs s t) = true → target (pcs s t) = None →
  own_path (pcs s t) = false → target pc = None → stop_held pc = false →
  Owned (goto t pc (reaped s)).
Proof.
  intros HC HO Hj Ht Hp Htp Hs. destruct (user_thread s t HO Hp) as [n ->].
  pose proof (λ w, joined_no_live s _ w HC HO Hj Ht) as Hno.
  assert (worker_ s = None) as Hw.
  { apply (inv_joining s HC). by eapply inv_joins. }
  split.
  - intros t'. moved; [apply pc_owned_user; congruence|].
    destruct (inv_pc s HO t') as (P1 & P2 & P3 & P4). split_and!; try done.
    intros w Hw'. exfalso. assert (t' = User n); [|done].
    apply (inv_once s HC); [|done]. by destruct (pcs s t').
  - intros w. cbn. by rewrite Hw.
  - intros w Hl. by destruct (Hno w).
  - apply (inv_running s HO).
  - apply (inv_exited s HO).
Qed.

(** The holder creates a worker when there is none. *)
Lemma create_owned s t w pc :
  Control s → Owned s → pcs s t = StartReady → worker_ s = None → workers s w = Unborn →
  target pc = None → stop_held pc = false → Owned (goto t pc (unlock (create w s))).
Proof.
  intros HC HO Hp Hw Hu Htp Hsp. pose proof (inv_ready s HC t Hp) as Hj.
  assert (own_path (pcs s t) = false) as Hop by (by rewrite Hp).
  destruct (user_thread s t HO Hop) as [n ->].
  assert (∀ w', ¬ live s w') as Hno.
  { intros w' Hl. destruct (inv_live s HO w' Hl) as [_ [?|[t' Ht']]]; [congruence|].
    by eapply not_joining_no_target. }
  split.
  - intros t'. moved; [apply pc_owned_user; congruence|].
    destruct (inv_pc s HO t') as (P1 & P2 & P3 & P4). split_and!.
    + intros w' Ht'. exfalso. by eapply not_joining_no_target.
    + intros w' Ht'. exfalso. eapply (not_joining_no_target s t'); [done|done|].
      by rewrite Ht'.
    + intros Hs. exfalso. assert (mutex s = Some (User n)) as Hm.
      { apply (inv_holds s HC). by rewrite Hp. }
      destruct (target (pcs s t')) eqn:Et; [by eapply not_joining_no_target|].
      assert (mutex s = Some t'); [|congruence].
      apply (inv_holds s HC). by destruct (pcs s t').
    + destruct t' as [|w']; [done|]. destruct P4 as [P4 P5]. split; [done|].
      intros Hi. exfalso. apply (Hno w'). left. auto.
  - intros w' Hw'. cbn in *. simplify_eq. by rewrite fn_lookup_insert.
  - intros w' Hl. unfold live in Hl. cbn in *.
    destruct (decide (w = w')) as [->|Hn]; [by auto|].
    rewrite fn_lookup_insert_ne in Hl by done. by destruct (Hno w').
  - done.
  - intros _. exists w. cbn. by rewrite fn_lookup_insert.
Qed.

(** A worker comes one step nearer to its end. *)
Lemma retire_owned s s1 w p :
  Owned s → live s w → p = Exited ∨ p = Gone → pcs s (Worker w) = Idle →
  pcs s1 = pcs s → workers s1 = <[w := p]> (workers s) →
  active_worker_id_ s1 = active_worker_id_ s → worker_ s1 = worker_ s →
  stopping_ s1 = stopping_ s →
  (∀ w', w' ≠ w → workers s w' = Running → worker_exited_ s1 = false) →
  (worker_exited_ s1 = false → ∃ w', w' ≠ w ∧ workers s w' = Running) →
  Owned s1.
Proof.
  intros [H1 H2 H3 H4 H5] Hl Hp Hi E1 E2 E3 E4 E5 Hr He.
  assert (workers s1 w = p) as Hw by (by rewrite E2, fn_lookup_insert).
  assert (∀ w', w' ≠ w → workers s1 w' = workers s w') as Hn.
  { intros w' ?. by rewrite E2, fn_lookup_insert_ne. }
  assert (∀ w', workers s w' ≠ Unborn → workers s1 w' ≠ Unborn) as Hu.
  { intros w'. destruct (decide (w' = w)) as [->|]; [|by rewrite Hn].
    rewrite Hw. by destruct Hp as [-> | ->]. }
  assert (∀ w', workers s1 w' = Running → w' ≠ w ∧ workers s w' = Running) as Hrun.
  { intros w'. destruct (decide (w' = w)) as [->|]; [|by rewrite Hn].
    rewrite Hw. by destruct Hp as [-> | ->]. }
  split.
  - intros t. rewrite E1. destruct (H1 t) as (P1 & P2 & P3 & P4).
    split_and!; rewrite ?E3, ?E5; [|by intros w' ? [? ?]%Hrun; eapply P2|done|].
    + intros w' Ht. destruct (P1 w' Ht); auto.
    + destruct t as [|w']; [done|]. destruct P4 as [P4 P5]. split; [done|].
      intros Hb. rewrite Hn; [by apply P5|]. intros ->. done.
  - intros w' Hw'. rewrite E3. rewrite E4 in Hw'. destruct (H2 w' Hw'); auto.
  - intros w' Hl'. rewrite E1, E3, E4. apply H3.
    destruct (decide (w' = w)) as [->|Hne]; [done|].
    unfold live in *. by rewrite Hn in Hl'.
  - intros w' [? ?]%Hrun. eauto.
  - intros Hx. destruct (He Hx) as (w' & ? & ?). exists w'. by rewrite Hn.
Qed.

Lemma owned_unique s w1 w2 : Owned s → live s w1 → live s w2 → w1 = w2.
Proof.
  intros HO H1 H2. destruct (inv_live s HO w1 H1), (inv_live s HO w2 H2). congruence.
Qed.

Lemma worker_step_owned s s' : worker_step s s' → Owned s → Owned s'.
Proof.
  intros Hs HO. destruct Hs; try apply notify_all_owned; try done.
  - destruct HO as [H1 H2 H3 H4 H5]. split; done.
  - apply (retire_owned s _ w Exited); try done; [by left|by left|].
    intros w' Hn Hr. destruct Hn. apply (owned_unique s); [done|by left|by left].
  - apply (retire_owned s _ w Gone); try done; [by right|by right| | |].
    + destruct (decide (pcs s (Worker w) = Idle)) as [|Hi]; [done|].
      destruct (inv_pc s HO (Worker w)) as (_ & _ & _ & _ & Hr). rewrite Hr in H; done.
    + intros w' _. apply (inv_running s HO).
    + intros He. destruct (inv_exited s HO He) as [w' Hw']. exists w'. split; [|done].
      intros ->. congruence.
Qed.

(** The thread is one of the program's. *)
Ltac user :=
  match goal with
  | HO : Owned ?s, H : pcs ?s ?t = _ |- _ =>
    let n := fresh "n" in
    first [ destruct (user_thread s t HO) as [n ->]; [by rewrite H|]
          | destruct (other_user s t HO) as [n ->]; [by rewrite H|done|] ]
  end.

Ltac owned :=
  match goal with
  | HO : Owned ?s, H : pcs ?s ?t = _ |- Owned (goto ?t ?pc _) =>
    apply (move_owned s); try done; [by rewrite H|];
    first [ user; apply pc_owned_user; [done|]
          | apply pc_owned_own; [done|done| |
              first [by left | right; first [done | apply busy_may_call; [done|by rewrite H]]]] ];
    by auto
  end.

Lemma stop_held_stopping s t : Owned s → stop_held (pcs s t) = true → stopping_ s = true.
Proof. intros HO. by destruct (inv_pc s HO t) as (_ & _ & P & _). Qed.

Lemma start_step_owned s s' : start_step s s' → Control s → Owned s → Owned s'.
Proof.
  intros Hs HC HO. destruct Hs; try apply notify_all_owned; unfold start_wait;
    try case_match; try owned.
  all: try (eapply reap_owned; [done|by rewrite H|by rewrite H|done|by left]).
  all: try (eapply create_owned; done).
  all: try (eapply join_owned; rewrite ?H; done).
  all: eapply reaped_owned; rewrite ?H; done.
Qed.

Lemma stopping_owned s : Owned s → Owned (s <| stopping_ := true |>).
Proof. intros [H1 H2 H3 H4 H5]. split; try done. intros t. by eapply pc_owned_mono. Qed.

Lemma stop_step_owned s s' : stop_step s s' → Control s → Owned s → Owned s'.
Proof.
  intros Hs HC HO.
  destruct Hs; try apply notify_all_owned;
    pose proof (stop_held_stopping s t HO) as Hst; rewrite H in Hst; cbn in Hst;
    try owned.
  - apply (move_owned (s <| stopping_ := true |>)); try done;
      [by apply stopping_owned|by cbn; rewrite H|].
    apply pc_owned_own; try done. right.
    apply (busy_may_call s t HO). by rewrite H.
  - eapply reap_owned; [done|by rewrite H|by rewrite H|done|right; auto].
  - eapply join_owned; rewrite ?H; done.
  - eapply reaped_owned; rewrite ?H; done.
Qed.

Lemma step_owned l s s' : step l s s' → Control s → Owned s → Owned s'.
Proof.
  intros Hs HC HO. destruct Hs;
    eauto using start_step_owned, stop_step_owned, worker_step_owned; try owned.
  apply (move_owned s); try done.
  - by destruct (pcs s t).
  - destruct (own_path (pcs s t)) eqn:Ho; [by rewrite own_path_awake in H|].
    destruct (user_thread s t HO Ho) as [n ->]. apply pc_owned_user.
    + by destruct (pcs s (User n)).
    + rewrite stop_held_awake. by apply stop_held_stopping.
Qed.

(** ** Waits *)

(** [notify_all] wakes every sleeper, whatever it waited for. *)
Lemma notify_all_waits s :
  (∀ t, pcs s t = FaultBlock → faulted_ s = true) → Waits (notify_all s).
Proof.
  intros Hf. split; cbn.
  - intros t Ht. by destruct (pcs s t).
  - intros t Ht. apply (Hf t). by destruct (pcs s t), Ht.
Qed.

(** A thread moves, to sleep only while a join is under way. *)
Lemma goto_waits s s1 t pc :
  Waits s → pcs s1 = pcs s → faulted_ s1 = faulted_ s →
  (joining_ s = true → joining_ s1 = true ∨ notifies pc = true) →
  notifies (pcs s t) = false →
  (sleeps pc = true → joining_ s1 = true) →
  (pc = FaultBlock ∨ pc = FaultSleep → faulted_ s = true) → Waits (goto t pc s1).
Proof.
  intros [H1 H2] E1 E2 E3 Hn Hs Hf.
  assert (∀ t', pcs s1 t' = pcs s t') as E1' by (intros; by rewrite E1). split.
  - intros t' Ht. rewrite pcs_goto in Ht. case_decide; [by left; apply Hs|]. rewrite E1' in Ht.
    destruct (H1 t' Ht) as [Hj|[t2 Ht2]].
    + destruct (E3 Hj) as [|Hp]; [by left|]. right. exists t. by moved.
    + right. exists t2. moved; rewrite ?E1'; congruence.
  - intros t' Ht. change (faulted_ s1 = true). rewrite E2. rewrite pcs_goto in Ht.
    case_decide; [by apply Hf|]. rewrite E1' in Ht. eauto.
Qed.

(** Only the holder can be about to sleep on the second wait. *)
Lemma fault_block_holder s t t' :
  Control s → pcs s t' = FaultBlock → holds (pcs s t) = true → t' = t.
Proof.
  intros HC Hf Hh. apply (inv_holds s HC) in Hh.
  assert (mutex s = Some t') by (apply (inv_holds s HC); by rewrite Hf). congruence.
Qed.

(** A step that ends in [notify_all] and leaves [faulted_] alone, or holds the mutex. *)
Lemma notify_waits s s1 t pc :
  Control s → Waits s → pcs s1 = pcs s → pc ≠ FaultBlock →
  faulted_ s1 = faulted_ s ∨ holds (pcs s t) = true → Waits (notify_all (goto t pc s1)).
Proof.
  intros HC HW E1 Hp Hf. apply notify_all_waits. intros t' Ht.
  rewrite pcs_goto in Ht. case_decide; [done|]. rewrite E1 in Ht.
  destruct Hf as [Hf|Hf].
  - change (faulted_ s1 = true). rewrite Hf. eapply inv_fault; eauto.
  - by destruct (fault_block_holder s t t' HC Ht Hf).
Qed.

Ltac waits :=
  match goal with
  | HW : Waits ?s, H : pcs ?s ?t = _ |- Waits _ =>
    first [ apply (goto_waits s); rewrite ?H; try done; first [by auto | by intros [?|?]]
          | apply (notify_waits s); rewrite ?H; first [done | by left | by right] ]
  end.

Lemma fault_wait_false s : fault_wait_over s = false → faulted_ s = true.
Proof. unfold fault_wait_over. by destruct (worker_exited_ s), (faulted_ s). Qed.

Lemma start_step_waits s s' : start_step s s' → Control s → Waits s → Waits s'.
Proof.
  intros Hs HC HW. destruct Hs; unfold start_wait; try case_match; try waits.
  - apply (goto_waits s); rewrite ?H; try done; [by left|]. intros _. by apply fault_wait_false.
  - apply (goto_waits s); rewrite ?H; try done; [by left|]. intros _. eapply inv_fault; eauto.
Qed.

Lemma stop_step_waits s s' : stop_step s s' → Control s → Waits s → Waits s'.
Proof. intros Hs HC HW. destruct Hs; waits. Qed.

Lemma worker_step_waits s s' : worker_step s s' → Waits s → Waits s'.
Proof.
  intros Hs HW. destruct Hs; [apply notify_all_waits|by apply notify_all_waits|by destruct HW|
    apply notify_all_waits]; intros t Ht; apply (inv_fault s HW t); by left.
Qed.

Lemma step_waits l s s' : step l s s' → Control s → Waits s → Waits s'.
Proof.
  intros Hs HC HW. destruct Hs;
    eauto using start_step_waits, stop_step_waits, worker_step_waits; try waits.
  destruct (pcs s t) eqn:Ht; try done; waits.
Qed.

(** ** Reachable states *)

Record Inv (s : State) : Prop := {
  inv_control : Control s;
  inv_owned : Owned s;
  inv_waits : Waits s
}.

Lemma initial_inv : Inv initial.
Proof.
  split; split; try done.
  - intros [n|w]; by split_and!.
  - by intros w [?|?].
  - by intros t [?|?].
Qed.

Lemma reachable_inv s : reachable s → Inv s.
Proof.
  revert s. apply rtc_ind_r; [apply initial_inv|].
  intros s s' _ [l Hs] [HC HO HW].
  split; eauto using step_control, step_owned, step_waits.
Qed.

(** ** Progress *)

Definition can_step (s : State) : Prop := ∃ s', step Internal s s'.

Lemma start_can_step s s' : start_step s s' → can_step s.
Proof. intros H. exists s'. by apply by_start. Qed.
Lemma stop_can_step s s' : stop_step s s' → can_step s.
Proof. intros H. exists s'. by apply by_stop. Qed.
Lemma worker_can_step s s' : worker_step s s' → can_step s.
Proof. intros H. exists s'. by apply by_worker. Qed.

#[local] Hint Resolve start_can_step stop_can_step worker_can_step : core.
#[local] Hint Constructors start_step stop_step worker_step : core.

(** Whoever holds the mutex has a next step. *)
Lemma holder_steps s t : holds (pcs s t) = true → can_step s.
Proof.
  intros Hh. destruct (pcs s t) eqn:Hp; try done.
  - destruct (own_worker s t) eqn:?; eauto.
  - eauto.
  - destruct (worker_ s) eqn:?; [destruct (worker_exited_ s) eqn:?|]; eauto.
  - destruct (faulted_ s) eqn:?; eauto.
  - destruct (fault_wait_over s) eqn:?; eauto.
  - eauto.
  - destruct (own_worker s t) eqn:?; eauto.
  - destruct (joining_ s) eqn:?; [|destruct (worker_ s) eqn:?]; eauto.
Qed.

(** A worker that is to end can go on. *)
Lemma running_steps s w :
  Owned s → mutex s = None → workers s w = Running → stopping_ s = true ∨ faulted_ s = true →
  can_step s.
Proof.
  intros HO Hm Hr Hf. destruct (inv_pc s HO (Worker w)) as (_ & _ & _ & Ho & _).
  destruct (pcs s (Worker w)) eqn:Hp; try done; eauto.
  - eapply holder_steps. by rewrite Hp.
  - eapply holder_steps. by rewrite Hp.
Qed.

(** A thread that joins can go on, or the worker it waits for can. *)
Lemma joiner_steps s t : Owned s → mutex s = None → joins (pcs s t) = true → can_step s.
Proof.
  intros HO Hm Hj. destruct (inv_pc s HO t) as (P1 & P2 & P3 & _).
  destruct (pcs s t) as [| | | | | | | | | | | |w| | | | | | | |w| |] eqn:Hp; try done; eauto.
  - destruct (P1 w eq_refl) as [_ Hu]. specialize (P2 w eq_refl).
    destruct (workers s w) eqn:Hw; try done; eauto.
  - destruct (P1 w eq_refl) as [_ Hu]. specialize (P3 eq_refl).
    destruct (workers s w) eqn:Hw; try done; eauto using running_steps.
Qed.

(** The thread sleeps in [start()] although the wait is over, and no worker is left
    that could notify it. *)
Definition lost_wakeup (s : State) (t : Tid) : Prop :=
  pcs s t = FaultSleep ∧ fault_wait_over s = true ∧ ∀ w, ¬ live s w.

Lemma fault_sleeper_steps s t :
  Inv s → mutex s = None → pcs s t = FaultSleep → can_step s ∨ lost_wakeup s t.
Proof.
  intros [HC HO HW] Hm Hp. assert (faulted_ s = true) as Hf by (eapply inv_fault; eauto).
  destruct (worker_exited_ s) eqn:He.
  - destruct (active_worker_id_ s) as [w|] eqn:Ha.
    + destruct (workers s w) eqn:Hw;
        [|by rewrite (inv_running s HO w Hw) in He|by left; eauto|].
      all: right; split_and!; [done|by unfold fault_wait_over; rewrite He|];
        intros w' Hl; destruct (inv_live s HO w' Hl) as [Hl' _]; simplify_eq;
        destruct Hl; congruence.
    + right. split_and!; [done|by unfold fault_wait_over; rewrite He|].
      intros w' Hl. destruct (inv_live s HO w' Hl). congruence.
  - left. destruct (inv_exited s HO He) as [w Hw]. eauto using running_steps.
Qed.

Lemma busy_steps s t : Inv s → mutex s = None → pcs s t ≠ Idle → can_step s ∨ lost_wakeup s t.
Proof.
  intros [HC HO HW] Hm Hp.
  destruct (holds (pcs s t)) eqn:Hh; [left; by eapply holder_steps|].
  destruct (joins (pcs s t)) eqn:Hj; [left; by eapply joiner_steps|].
  destruct (sleeps (pcs s t)) eqn:Hs.
  { left. destruct (inv_sleeps s HW t Hs) as [Hg|[t' Ht']].
    - destruct (inv_joiner s HC Hg) as [t' Ht']. by eapply joiner_steps.
    - destruct (pcs s t') eqn:Ht; try done; eauto. }
  destruct (pcs s t) eqn:Ht; try done; try (by left; eauto).
  - by apply fault_sleeper_steps.
  - left. destruct (joining_ s) eqn:?; eauto.
Qed.

Lemma busy_can_step s t : Inv s → pcs s t ≠ Idle → can_step s ∨ lost_wakeup s t.
Proof.
  intros HI Hp. destruct (mutex s) as [t'|] eqn:Hm; [|by apply busy_steps].
  left. apply (holder_steps s t'). by apply (inv_holds s (inv_control s HI)).
Qed.

(** A state in which nothing of the program can go on by itself. *)
Lemma quiet_blocked s l s' :
  (∀ t, pcs s t = Idle ∨ pcs s t = FaultSleep) → (∀ w, ¬ live s w) → step l s s' →
  l ≠ Internal.
Proof.
  intros Hq Hl Hs. unfold live in Hl. destruct Hs as [| | |s s' Hs|s s' Hs|s s' Hs]; [done..| | |].
  - destruct Hs as [s t|s t|s t|s t|s t|s t|s t|s t|s t|s t|s t|s t|s t|s t|s t|s t|s t|s t];
      destruct (Hq t); congruence.
  - destruct Hs as [s t|s t|s t|s t|s t|s t|s t|s t|s t|s t|s t]; destruct (Hq t); congruence.
  - destruct Hs as [s w|s w|s w|s w]; destruct (Hl w); auto.
Qed.

(** ** A run to the second wait of [start()] *)

(** Thread [User 0] has started the client. *)
Definition started : State :=
  notify_all (goto (User 0) Idle (unlock (create 0
    (goto (User 0) StartReady (goto (User 0) StartWait (goto (User 0) StartHeld
      (lock (User 0) (goto (User 0) StartEntry initial)))))))).

(** Its worker has published a fault, and thread [User 1] has called [start()] and found
    the predicate of the second wait false. *)
Definition checked : State :=
  goto (User 1) FaultBlock (goto (User 1) FaultCheck (goto (User 1) StartLive
    (goto (User 1) StartReady (goto (User 1) StartWait (goto (User 1) StartHeld
      (lock (User 1) (goto (User 1) StartEntry
        (notify_all (started <| faulted_ := true |>))))))))).

(** The worker ends and notifies before the thread sleeps. *)
Definition slept : State :=
  goto (User 1) FaultSleep (unlock
    (notify_all (checked <| workers ::= <[0%nat := Exited]> |> <| worker_exited_ := true |>
       <| workers ::= <[0%nat := Gone]> |>))).

Lemma reachable_step s l s' : reachable s → step l s s' → reachable s'.
Proof. intros Hr Hs. eapply rtc_r; [done|]. by exists l. Qed.

Lemma reachable_ready s t :
  reachable s → pcs s t = StartWait → joining_ s = false → reachable (goto t StartReady s).
Proof.
  intros Hr Hp Hj. eapply reachable_step; [done|]. apply by_start.
  replace (goto t StartReady s) with (start_wait t s) by (unfold start_wait; by rewrite Hj).
  by apply start_waits.
Qed.

Ltac run rule := eapply reachable_step; [|apply rule; reflexivity].
Ltac run_start rule := eapply reachable_step; [|apply by_start; eapply rule; reflexivity].
Ltac run_worker rule :=
  eapply reachable_step; [|apply by_worker; apply rule; first [reflexivity | by right]].

Lemma started_reachable : reachable started.
Proof.
  unfold started.
  run_start start_create.
  apply reachable_ready; [|reflexivity..].
  run_start start_other. run_start start_lock. run call_start. apply rtc_refl.
Qed.

Lemma checked_reachable : reachable checked.
Proof.
  unfold checked.
  run_start fault_false. run_start start_faulted. run_start start_live.
  apply reachable_ready; [|reflexivity..].
  run_start start_other. run_start start_lock. run call_start.
  run_worker (worker_faults started 0). apply started_reachable.
Qed.

Lemma slept_reachable : reachable slept.
Proof.
  unfold slept. run_start fault_sleep.
  run_worker (worker_notifies (checked <| workers ::= <[0%nat := Exited]> |>
    <| worker_exited_ := true |>) 0).
  run_worker (worker_exits checked 0).
  apply checked_reachable.
Qed.

(** ** Properties *)

(** C14: At most one worker runs at a time, whatever threads call [start()] and [stop()]
    and in whatever order: in every reachable state two live workers are the same. *)
Theorem single_worker s w1 w2 : reachable s → live s w1 → live s w2 → w1 = w2.
Proof. intros Hr. by apply owned_unique, inv_owned, reachable_inv. Qed.

Lemma single_worker_witness : live started 0 ∧ (0 = 0)%nat.
Proof.
  split; [by left|].
  apply (single_worker started 0 0); [apply started_reachable|by left|by left].
Defined.

(** A callback may call [start()] and [stop()]: the worker that makes the call is
    recognised, so it never waits and never joins, itself least of all. *)
Theorem worker_never_waits s w :
  reachable s →
  own_path (pcs s (Worker w)) = true ∧ sleeps (pcs s (Worker w)) = false ∧
  target (pcs s (Worker w)) = None.
Proof.
  intros Hr. destruct (inv_pc s (inv_owned s (reachable_inv s Hr)) (Worker w)) as (_ & _ & _ & Ho & _).
  by destruct (pcs s (Worker w)).
Qed.

Lemma worker_never_waits_witness : own_path (pcs started (Worker 0)) = true.
Proof. apply (worker_never_waits started 0). apply started_reachable. Defined.

(** C19: The life cycle does not deadlock: as long as a thread is inside [start()] or
    [stop()], some thread has a step to take, unless that thread is a sleeper whose
    notification was lost. In particular [stop()] can always go on. *)
Theorem lifecycle_progress s t :
  reachable s → pcs s t ≠ Idle → (lost_wakeup s t → False) → ∃ s', step Internal s s'.
Proof.
  intros Hr Hp Hl. by destruct (busy_can_step s t (reachable_inv s Hr) Hp).
Qed.

Lemma lifecycle_progress_witness :
  pcs checked (User 1) = FaultBlock ∧ ∃ s', step Internal checked s'.
Proof.
  split; [reflexivity|].
  apply (lifecycle_progress checked (User 1)); [apply checked_reachable|discriminate|].
  intros (Hs & _). discriminate Hs.
Defined.

(** C37: The exception occurs: the worker stores [worker_exited_] and notifies without
    the mutex, so its notification can fall between the test of the wait in [start()]
    and the sleep. In such a state the wait is over, the mutex is free, and no step
    but a new call or a spurious wake-up wakes the caller. *)
Theorem start_lost_wakeup :
  ∃ s t, reachable s ∧ lost_wakeup s t ∧ mutex s = None ∧
    ∀ l s', step l s s' → l ≠ Internal.
Proof.
  exists slept, (User 1).
  assert (∀ w, ¬ live slept w) as Hl by (intros [|w] [Hw|Hw]; discriminate Hw).
  split_and!; [apply slept_reachable|by split_and!|reflexivity|].
  intros l s'. apply quiet_blocked; [|done].
  intros [[|[|n]]|w]; [by left|by right|by left|by left].
Qed.

End Lifecycle.
