(* ===== verification/LifecycleSpec.v ===== *)
(** * The life cycle against its specification

    What [start()] and [stop()] promise, without mutexes and waits: the client is a slot
    that holds one worker at a time. A worker is put into an empty slot, taken out to be
    joined, and the slot is free again when that worker is gone. The machine of
    [Lifecycle] refines it: each of its steps is a step of the slot or leaves the slot
    as it is. *)

From Stdlib Require Import ZArith Lia.
From stdpp Require Import functions relations.
From S2P Require Import Prelude Lifecycle.
Import Lifecycle.

Module LifecycleSpec.

(** ** The specification *)

Inductive Slot := Vacant | Holds (w : nat) | Joins (w : nat).

(** The slot and how far each worker is. *)
Record Abstract := { slot : Slot; worker_at : nat → WorkerPc }.

Inductive slot_step : Abstract → Abstract → Prop :=
  | slot_create a w : slot a = Vacant → worker_at a w = Unborn →
      slot_step a {| slot := Holds w; worker_at := <[w := Running]> (worker_at a) |}
  | slot_exit a w : slot a = Holds w ∨ slot a = Joins w → worker_at a w = Running →
      slot_step a {| slot := slot a; worker_at := <[w := Exited]> (worker_at a) |}
  | slot_gone a w : slot a = Holds w ∨ slot a = Joins w → worker_at a w = Exited →
      slot_step a {| slot := slot a; worker_at := <[w := Gone]> (worker_at a) |}
  | slot_take a w : slot a = Holds w →
      slot_step a {| slot := Joins w; worker_at := worker_at a |}
  | slot_free a w : slot a = Joins w → worker_at a w = Gone →
      slot_step a {| slot := Vacant; worker_at := worker_at a |}.

(** In every state the slot allows, the workers outside it have ended or were never
    created. *)
Definition slot_ok (a : Abstract) : Prop :=
  ∀ w, worker_at a w = Running ∨ worker_at a w = Exited → slot a = Holds w ∨ slot a = Joins w.

Lemma slot_step_ok a a' : slot_step a a' → slot_ok a → slot_ok a'.
Proof.
  intros Hs H. destruct Hs as [a w Hv Hu|a w Hw Hr|a w Hw Hr|a w Hw|a w Hw Hg];
    intros w'; cbn [slot worker_at].
  - destruct (decide (w' = w)) as [->|Hn]; [by left|]. rewrite fn_lookup_insert_ne by done.
    intros [E|E]%H; congruence.
  - destruct (decide (w' = w)) as [->|Hn]; [done|]. rewrite fn_lookup_insert_ne by done. apply H.
  - destruct (decide (w' = w)) as [->|Hn]; [done|]. rewrite fn_lookup_insert_ne by done. apply H.
  - intros [E|E]%H; [|congruence]. right. congruence.
  - intros Hl. pose proof (H w' Hl) as E. destruct E as [E|E]; [congruence|].
    assert (w' = w) as -> by congruence. destruct Hl; congruence.
Qed.

Lemma slots_ok a a' : slot_ok a → rtc slot_step a a' → slot_ok a'.
Proof. intros Ha Hr. induction Hr; eauto using slot_step_ok. Qed.

(** ** The refinement *)

(** The slot of a state: the worker it names, or the one being joined. *)
Definition slot_of (s : State) : Slot :=
  match worker_ s with
  | Some w => Holds w
  | None =>
    if joining_ s then match active_worker_id_ s with Some w => Joins w | None => Vacant end
    else Vacant
  end.

Definition abstract (s : State) : Abstract := {| slot := slot_of s; worker_at := workers s |}.

(** While a join is under way its worker is named. *)
Definition joining_named (s : State) : Prop :=
  joining_ s = true → ∃ w, active_worker_id_ s = Some w ∧ workers s w ≠ Unborn.

Lemma born_stays (f : nat → WorkerPc) w w' p :
  f w' ≠ Unborn → p ≠ Unborn → <[w := p]> f w' ≠ Unborn.
Proof.
  intros H Hp. destruct (decide (w' = w)) as [->|]; [by rewrite fn_lookup_insert|].
  by rewrite fn_lookup_insert_ne.
Qed.

Lemma joining_named_step l s s' : step l s s' → Inv s → joining_named s → joining_named s'.
Proof.
  intros Hs [HC HO HW] HJ. pose proof (inv_worker s HO) as Hw. pose proof (inv_ready s HC) as Hr.
  destruct Hs as [| | |s s' H|s s' H|s s' H]; try exact HJ.
  - destruct H as [s t H|s t H|s t H|s t H|s t H|s t w H|s t H|s t H|s t H|s t H|s t H|s t H
      |s t w H|s t w H|s t H|s t w H|s t H|s t H]; unfold start_wait; try case_match; try exact HJ;
      try done; intros Hj; [by eauto|]. cbn in Hj. by rewrite (Hr t H) in Hj.
  - destruct H; try exact HJ; try done. intros _. eauto.
  - destruct H; try exact HJ; intros (w' & Ha & Hu)%HJ; exists w'; (split; [done|]);
      by apply born_stays.
Qed.

Lemma reachable_named s : reachable s → joining_named s.
Proof.
  revert s. apply rtc_ind_r; [done|]. intros s s' Hr [l Hs] HJ.
  eapply joining_named_step; [done|by apply reachable_inv|done].
Qed.

(** A live worker is the one in the slot. *)
Lemma live_in_slot s w :
  Inv s → joining_named s → live s w → slot_of s = Holds w ∨ slot_of s = Joins w.
Proof.
  intros [HC HO HW] HJ Hl. destruct (inv_live s HO w Hl) as [Ha [Hw|[t Ht]]]; unfold slot_of.
  - rewrite Hw. by left.
  - assert (joins (pcs s t) = true) as Hj by (by destruct (pcs s t)).
    pose proof (inv_joins s HC t Hj) as E. rewrite (inv_joining s HC E), E, Ha. by right.
Qed.

(** A step that changes none of what the slot is made of. *)
Lemma abstract_same s s' :
  worker_ s' = worker_ s → joining_ s' = joining_ s →
  active_worker_id_ s' = active_worker_id_ s → workers s' = workers s → abstract s' = abstract s.
Proof. intros E1 E2 E3 E4. unfold abstract, slot_of. by rewrite E1, E2, E3, E4. Qed.

(** The joiner has joined: the worker in the slot is gone. *)
Lemma joined_frees s t pc :
  Inv s → joining_named s → joins (pcs s t) = true → target (pcs s t) = None →
  slot_step (abstract s) (abstract (goto t pc (reaped s))).
Proof.
  intros HI HJ Hj Ht. pose proof HI as [HC HO HW].
  pose proof (inv_joins s HC t Hj) as Ej. destruct (HJ Ej) as (w & Hw & Hu).
  pose proof (inv_joining s HC Ej) as En.
  assert (slot_of s = Joins w) as Hs by (unfold slot_of; by rewrite En, Ej, Hw).
  replace (abstract (goto t pc (reaped s)))
    with {| slot := Vacant; worker_at := worker_at (abstract s) |}.
  2: { unfold abstract, slot_of. cbn. by rewrite En. }
  apply (slot_free _ w); [done|]. cbn.
  pose proof (joined_no_live s t w HC HO Hj Ht) as Hl. unfold live in Hl.
  destruct (workers s w) eqn:E; [done|by destruct Hl; left|by destruct Hl; right|done].
Qed.

(** The worker named by [worker_] is taken. *)
Lemma reap_takes s t pc w :
  Inv s → worker_ s = Some w → slot_step (abstract s) (abstract (goto t pc (unlock (reap s)))).
Proof.
  intros [HC HO HW] Hw. destruct (inv_worker s HO w Hw) as [Ha _].
  replace (abstract (goto t pc (unlock (reap s))))
    with {| slot := Joins w; worker_at := worker_at (abstract s) |}.
  2: { unfold abstract, slot_of. cbn. by rewrite Ha. }
  apply (slot_take _ w). cbn. unfold slot_of. by rewrite Hw.
Qed.

Ltac stutters := right; by apply abstract_same.

Lemma start_refines s s' :
  start_step s s' → Inv s → joining_named s →
  slot_step (abstract s) (abstract s') ∨ abstract s' = abstract s.
Proof.
  intros Hs HI HJ. pose proof (inv_ready s (inv_control s HI)) as Hr.
  destruct Hs as [s t H|s t H|s t H|s t H|s t H|s t w H|s t H|s t H|s t H|s t H|s t H|s t H
    |s t w H Hw|s t w H Hw Hu|s t H|s t w H|s t H|s t H]; unfold start_wait; try case_match;
    try stutters; left.
  - by eapply reap_takes.
  - eapply (slot_create (abstract s) w); [|done]. cbn. unfold slot_of. by rewrite Hw, (Hr t H).
  - by apply joined_frees; rewrite ?H.
Qed.

Lemma stop_refines s s' :
  stop_step s s' → Inv s → joining_named s →
  slot_step (abstract s) (abstract s') ∨ abstract s' = abstract s.
Proof.
  intros Hs HI HJ. destruct Hs as [s t H|s t H|s t H|s t H|s t H|s t H|s t H|s t w H|s t w H
    |s t H|s t H]; try stutters; left.
  - by eapply reap_takes.
  - by apply joined_frees; rewrite ?H.
Qed.

Lemma worker_refines s s' :
  worker_step s s' → Inv s → joining_named s →
  slot_step (abstract s) (abstract s') ∨ abstract s' = abstract s.
Proof.
  intros Hs HI HJ. destruct Hs as [s w H|s w H|s w H|s w H]; try stutters; left.
  - apply (slot_exit (abstract s) w); [|done]. apply live_in_slot; [done..|by left].
  - apply (slot_gone (abstract s) w); [|done]. apply live_in_slot; [done..|by right].
Qed.

(** ** Properties *)

(** C15: [start()] and [stop()] refine the slot. From the empty slot, every reachable state
    of the client corresponds to a state of the slot reached by the corresponding steps,
    and every step from it, whichever thread takes it, creates a worker in the vacant
    slot, lets the worker in the slot end, takes it out, frees the slot once that worker
    is gone, or leaves slot and workers unchanged. In particular (the slot guarantees it)
    every worker that has not ended is the one in the slot. *)
Theorem lifecycle_refines_slot s l s' :
  reachable s → step l s s' →
  rtc slot_step (abstract initial) (abstract s) ∧ slot_ok (abstract s) ∧
  (slot_step (abstract s) (abstract s') ∨ abstract s' = abstract s).
Proof.
  intros Hr Hs.
  assert (∀ s1 l1 s2, reachable s1 → step l1 s1 s2 →
    slot_step (abstract s1) (abstract s2) ∨ abstract s2 = abstract s1) as Hstep.
  { intros s1 l1 s2 H1 H2. pose proof (reachable_inv s1 H1) as HI.
    pose proof (reachable_named s1 H1) as HJ. destruct H2; try stutters;
    eauto using start_refines, stop_refines, worker_refines. }
  assert (rtc slot_step (abstract initial) (abstract s)) as Hrtc; [|split_and!; eauto].
  2: { eapply slots_ok; [|exact Hrtc]. by intros w [?|?]. }
  clear Hs. revert s Hr. apply rtc_ind_r; [apply rtc_refl|].
  intros s1 s2 H1 [l1 H2] IH. destruct (Hstep s1 l1 s2 H1 H2) as [?| ->]; [by eapply rtc_r|done].
Qed.

Lemma lifecycle_refines_slot_witness :
  slot (abstract started) = Holds 0 ∧ rtc slot_step (abstract initial) (abstract started).
Proof.
  split; [reflexivity|].
  apply (lifecycle_refines_slot started Call (goto (User 0) StopEntry started));
    [apply started_reachable|by apply call_stop].
Defined.

End LifecycleSpec.
