(* ===== verification/FirstSample.v ===== *)
(** * The condition variable of the first sample: core/src/detail/client_impl.cpp

    [first_sample_cv_] is shared by the callers of [wait_for_first_sample()] and by the
    worker between two sessions; both sleep on it under [data_mutex_]. Deliveries, faults
    and starts change what the sleepers test under that mutex and notify afterwards;
    [stop()] stores [stopping_] without it. The state machine has one step per evaluation
    of a predicate, per transition to sleep, per store the predicates read, and per
    notification. Threads may wake spuriously or by their deadline at any time. *)

From Stdlib Require Import ZArith Lia.
From stdpp Require Import functions relations.
From S2P Require Import Prelude.

Module FirstSample.

(** What [start()] restores when the worker thread cannot be created. *)
Record Saved := {
  s_generation : nat;
  s_delivered : nat;
  s_stopping : bool;
  s_faulted : bool
}.

(** Where a caller of the client is; [g] is the generation a waiter captured. *)
Inductive CallerPc :=
  | Idle
  | WaitEval (g : nat)          (* line 312: locked, evaluates the predicate *)
  | WaitBlock (g : nat)         (* line 312: locked, found it false, about to sleep *)
  | WaitSleep (g : nat)         (* line 312: asleep *)
  | WaitWake (g : nat)          (* line 312: about to relock *)
  | StopNotify                  (* line 241: stored [stopping_], about to notify *)
  | StopJoin                    (* line 275: joins the worker *)
  | StopLast                    (* line 286: about to notify *)
  | StartReset (p : Saved)      (* line 177: has reset the session, [stopping_] not yet *)
  | StartCreate (p : Saved)     (* line 181: creates the worker *)
  | StartRestore (p : Saved)    (* line 190: [stopping_] restored *)
  | StartFault (p : Saved)      (* line 201: the other members restored, not the latch *)
  | StartNotify.                (* line 207 or 212: about to notify *)

(** Where the worker is. *)
Inductive WorkerPc :=
  | Serve                       (* in a session *)
  | Told                        (* line 680 or 687: about to notify *)
  | BackoffEval                 (* line 412: locked, evaluates the predicate *)
  | BackoffBlock                (* line 412: locked, found it false, about to sleep *)
  | BackoffSleep                (* line 412: asleep *)
  | BackoffWake                 (* line 412: about to relock *)
  | Finish                      (* line 734: past its last use of [data_mutex_] *)
  | Gone.                       (* past line 734 *)

(** Source: core/src/detail/client_impl.hpp:77-106, [Client::Impl]: the members the
    predicates read, with the program counters. [locked] tells whether somebody is between
    the evaluation of a predicate and its sleep. *)
Record State := {
  locked : bool;
  generation : nat;
  delivered : nat;
  stopping : bool;
  faulted : bool;
  lifecycle : bool;
  callers : nat → CallerPc;
  worker : WorkerPc
}.
#[global] Instance State_eta : Eta State := λ r,
  {| locked := locked r; generation := generation r; delivered := delivered r;
     stopping := stopping r; faulted := faulted r; lifecycle := lifecycle r;
     callers := callers r; worker := worker r |}.

Definition goto (n : nat) (pc : CallerPc) (s : State) : State := s <| callers ::= <[n := pc]> |>.
#[global] Arguments goto : simpl never.

Definition awake (pc : CallerPc) : CallerPc :=
  match pc with WaitSleep g => WaitWake g | pc => pc end.
Definition worker_awake (pc : WorkerPc) : WorkerPc :=
  match pc with BackoffSleep => BackoffWake | pc => pc end.

(** [first_sample_cv_.notify_all()]. *)
Definition notify_all (s : State) : State :=
  s <| callers ::= λ c n, awake (c n) |> <| worker ::= worker_awake |>.

(** Source: core/src/detail/client_impl.cpp:312-315, [Client::Impl::wait_for_first_sample]: the
    predicate of a waiter. *)
Definition wait_over (g : nat) (s : State) : bool :=
  negb (generation s =? g)%nat || (delivered s =? g)%nat || stopping s || faulted s.

(** Source: core/src/detail/client_impl.cpp:153-176, [Client::Impl::start]: a new session, and
    what it saves of the old one. *)
Definition new_session (s : State) : State :=
  s <| generation ::= S |> <| delivered := 0%nat |> <| faulted := false |>.
Definition saved (s : State) : Saved :=
  {| s_generation := generation s; s_delivered := delivered s; s_stopping := stopping s;
     s_faulted := faulted s |}.

(** Source: core/src/detail/client_impl.cpp:305-325, [Client::Impl::wait_for_first_sample]. *)
Inductive wait_step : State → State → Prop :=
  | wait_none s n : callers s n = Idle → locked s = false → generation s = 0%nat → wait_step s s
  | wait_enter s n : callers s n = Idle → locked s = false → generation s ≠ 0%nat →
      wait_step s (goto n (WaitEval (generation s)) (s <| locked := true |>))
  | wait_done s n g : callers s n = WaitEval g → wait_over g s = true →
      wait_step s (goto n Idle (s <| locked := false |>))
  | wait_false s n g : callers s n = WaitEval g → wait_over g s = false →
      wait_step s (goto n (WaitBlock g) s)
  | wait_sleep s n g : callers s n = WaitBlock g →
      wait_step s (goto n (WaitSleep g) (s <| locked := false |>))
  | wait_wakes s n g : callers s n = WaitSleep g → wait_step s (goto n (WaitWake g) s)
  | wait_relock s n g : callers s n = WaitWake g → locked s = false →
      wait_step s (goto n (WaitEval g) (s <| locked := true |>))
  | wait_deadline s n g : callers s n = WaitWake g → locked s = false →
      wait_step s (goto n Idle s).

(** Source: core/src/detail/client_impl.cpp:235-289, [Client::Impl::stop], as far as the
    sleepers see it: the store, the first notification, the join and the last one. A stop that
    finds nothing to join, or that the worker itself calls, returns after the first one; a
    stop that waits for another's join stores and notifies again. *)
Inductive stop_step : State → State → Prop :=
  | stop_store s n : callers s n = Idle → lifecycle s = false →
      stop_step s (goto n StopNotify (s <| stopping := true |> <| lifecycle := true |>))
  | stop_notify s n : callers s n = StopNotify →
      stop_step s (notify_all (goto n StopJoin (s <| lifecycle := false |>)))
  | stop_return s n : callers s n = StopNotify →
      stop_step s (notify_all (goto n Idle (s <| lifecycle := false |>)))
  | stop_joined s n : callers s n = StopJoin → worker s = Gone →
      stop_step s (goto n StopLast s)
  | stop_last s n : callers s n = StopLast → stop_step s (notify_all (goto n Idle s)).

(** Source: core/src/detail/client_impl.cpp:133-215, [Client::Impl::start]: a start that finds
    no worker, its roll-back included. *)
Inductive start_step : State → State → Prop :=
  | start_begin s n : callers s n = Idle → lifecycle s = false → worker s = Gone → locked s = false →
      start_step s (goto n (StartReset (saved s)) (new_session s <| lifecycle := true |>))
  | start_ready s n p : callers s n = StartReset p →
      start_step s (goto n (StartCreate p) (s <| stopping := false |>))
  | start_created s n p : callers s n = StartCreate p →
      start_step s (goto n StartNotify (s <| worker := Serve |>))
  | start_failed s n p : callers s n = StartCreate p →
      start_step s (goto n (StartRestore p) (s <| stopping := s_stopping p |>))
  | start_restored s n p : callers s n = StartRestore p → locked s = false →
      start_step s (goto n (StartFault p)
        (s <| generation := s_generation p |> <| delivered := s_delivered p |>))
  | start_unfaulted s n p : callers s n = StartFault p → s_faulted p = false →
      start_step s (goto n StartNotify (s <| faulted := false |>))
  | start_faulted s n p : callers s n = StartFault p → s_faulted p = true → locked s = false →
      start_step s (goto n StartNotify (s <| faulted := true |>))
  | start_notify s n : callers s n = StartNotify →
      start_step s (notify_all (goto n Idle (s <| lifecycle := false |>))).

(** Source: core/src/detail/client_impl.cpp:382-428, [Client::Impl::run], with lines 669-681,
    [Client::Impl::account_record], lines 685-688, [Client::Impl::set_fault], and lines
    723-736, [Client::Impl::finish_session]. *)
Inductive worker_step : State → State → Prop :=
  | worker_delivers s : worker s = Serve → locked s = false →
      worker_step s (s <| delivered := generation s |> <| worker := Told |>)
  | worker_faults s : worker s = Serve → locked s = false →
      worker_step s (s <| faulted := true |> <| worker := Told |>)
  | worker_notifies s : worker s = Told → worker_step s (notify_all (s <| worker := Serve |>))
  | backoff_enter s : worker s = Serve → locked s = false → faulted s = false →
      worker_step s (s <| worker := BackoffEval |> <| locked := true |>)
  | backoff_over s : worker s = BackoffEval → stopping s = true →
      worker_step s (s <| worker := Serve |> <| locked := false |>)
  | backoff_false s : worker s = BackoffEval → stopping s = false →
      worker_step s (s <| worker := BackoffBlock |>)
  | backoff_sleep s : worker s = BackoffBlock →
      worker_step s (s <| worker := BackoffSleep |> <| locked := false |>)
  | backoff_wakes s : worker s = BackoffSleep → worker_step s (s <| worker := BackoffWake |>)
  | backoff_relock s : worker s = BackoffWake → locked s = false →
      worker_step s (s <| worker := BackoffEval |> <| locked := true |>)
  | backoff_deadline s : worker s = BackoffWake → locked s = false →
      worker_step s (s <| worker := Serve |>)
  | worker_finishes s : worker s = Serve → stopping s = true ∨ faulted s = true →
      faulted s = true ∨ locked s = false → worker_step s (s <| worker := Finish |>)
  | worker_ends s : worker s = Finish → worker_step s (notify_all (s <| worker := Gone |>)).

Inductive step : State → State → Prop :=
  | by_wait s s' : wait_step s s' → step s s'
  | by_stop s s' : stop_step s s' → step s s'
  | by_start s s' : start_step s s' → step s s'
  | by_worker s s' : worker_step s s' → step s s'.

(** Source: core/src/detail/client_impl.hpp:77-106, [Client::Impl]: the initial values; no
    worker has been created. *)
Definition initial : State :=
  {| locked := false; generation := 0; delivered := 0; stopping := false; faulted := false;
     lifecycle := false; callers := λ _, Idle; worker := Gone |}.

Definition reachable (s : State) : Prop := rtc step initial s.

(** ** Invariant *)

(** The thread starts a session and has not notified yet. *)
Definition starts (pc : CallerPc) : bool :=
  match pc with
  | StartReset _ | StartCreate _ | StartRestore _ | StartFault _ | StartNotify => true
  | _ => false
  end.

(** The thread holds [lifecycle_mutex_] across a step. *)
Definition owns (pc : CallerPc) : bool :=
  match pc with StopNotify => true | pc => starts pc end.

(** What the thread may still restore. *)
Definition undecided (pc : CallerPc) : option Saved :=
  match pc with
  | StartReset p | StartCreate p | StartRestore p | StartFault p => Some p
  | _ => None
  end.
(** The thread restores it. *)
Definition restores (pc : CallerPc) : option Saved :=
  match pc with StartRestore p | StartFault p => Some p | _ => None end.

(** The thread holds [data_mutex_] across a step. *)
Definition holds (pc : CallerPc) : bool :=
  match pc with WaitEval _ | WaitBlock _ => true | _ => false end.
Definition worker_holds (pc : WorkerPc) : bool :=
  match pc with BackoffEval | BackoffBlock => true | _ => false end.

(** The generation a waiter captured. *)
Definition captured (pc : CallerPc) : option nat :=
  match pc with
  | WaitEval g | WaitBlock g | WaitSleep g | WaitWake g => Some g
  | _ => None
  end.

(** What the members, besides [stopping_], say to a waiter for generation [g]. *)
Definition news (g : nat) (s : State) : bool :=
  negb (generation s =? g)%nat || (delivered s =? g)%nat || faulted s.

(** Who holds the mutex, what a thread about to sleep has just seen, and what the ends of
    the worker and of a start leave. *)
Record Core (s : State) : Prop := {
  c_locked : ∀ n, holds (callers s n) = true → locked s = true ∧ worker_holds (worker s) = false;
  c_one : ∀ n m, holds (callers s n) = true → holds (callers s m) = true → n = m;
  c_worker : worker_holds (worker s) = true → locked s = true;
  c_block : ∀ n g, callers s n = WaitBlock g → news g s = false;
  c_captured : ∀ n g, captured (callers s n) = Some g → g ≠ 0%nat;
  c_life : ∀ n, owns (callers s n) = true → lifecycle s = true;
  c_owner : ∀ n m, owns (callers s n) = true → owns (callers s m) = true → n = m;
  c_saved : ∀ n p, undecided (callers s n) = Some p →
    worker s = Gone ∧ (s_stopping p = true ∨ s_faulted p = true ∨ s_generation p = 0%nat);
  c_restore : ∀ n p, restores (callers s n) = Some p → stopping s = s_stopping p;
  c_fault : ∀ n p, callers s n = StartFault p → generation s = s_generation p ∧
    (s_faulted p = false → ∀ m g, callers s m ≠ WaitBlock g);
  c_gone : worker s = Gone → (∀ m, undecided (callers s m) = None) →
    (stopping s = true ∨ faulted s = true ∨ generation s = 0%nat) ∧
    ∀ n g, callers s n ≠ WaitBlock g;
  c_finish : worker s = Finish → (stopping s = true ∨ faulted s = true) ∧
    ∀ n g, callers s n ≠ WaitBlock g
}.

(** Somebody will notify a sleeper whom news awaits, and nobody sleeps once the worker has
    ended. *)
Definition Heard (s : State) : Prop :=
  (∀ n g, callers s n = WaitSleep g → news g s = true →
     worker s = Told ∨ ∃ m, starts (callers s m) = true) ∧
  (worker s = Gone → (∀ m, starts (callers s m) = false) → ∀ n g, callers s n ≠ WaitSleep g).

Definition Inv (s : State) : Prop := Core s ∧ Heard s.

Lemma callers_goto n pc s m : callers (goto n pc s) m = if decide (m = n) then pc else callers s m.
Proof.
  change (callers (goto n pc s)) with (<[n := pc]> (callers s)).
  destruct (decide (m = n)) as [->|]; [by rewrite fn_lookup_insert|].
  by rewrite fn_lookup_insert_ne.
Qed.

Lemma waiter_holds_awake pc : holds (awake pc) = holds pc.
Proof. by destruct pc. Qed.
Lemma owns_awake pc : owns (awake pc) = owns pc.
Proof. by destruct pc. Qed.
Lemma awake_block pc g : awake pc = WaitBlock g ↔ pc = WaitBlock g.
Proof. destruct pc; naive_solver. Qed.
Lemma awake_sleep pc g : awake pc ≠ WaitSleep g.
Proof. by destruct pc. Qed.
Lemma awake_fault pc p : awake pc = StartFault p ↔ pc = StartFault p.
Proof. destruct pc; naive_solver. Qed.
Lemma undecided_awake pc : undecided (awake pc) = undecided pc.
Proof. by destruct pc. Qed.
Lemma restores_awake pc : restores (awake pc) = restores pc.
Proof. by destruct pc. Qed.
Lemma captured_awake pc : captured (awake pc) = captured pc.
Proof. by destruct pc. Qed.
Lemma worker_holds_awake w : worker_holds (worker_awake w) = worker_holds w.
Proof. by destruct w. Qed.
Lemma worker_awake_gone w : worker_awake w = Gone ↔ w = Gone.
Proof. by destruct w. Qed.
Lemma worker_awake_finish w : worker_awake w = Finish ↔ w = Finish.
Proof. by destruct w. Qed.

Lemma first_initial_inv : Inv initial.
Proof. split; [split|split]; cbn; naive_solver. Qed.

(** A notification leaves nobody asleep. *)
Lemma notify_inv s : Core s → Inv (notify_all s).
Proof.
  intros []. split; [split|split]; cbn.
  - intros n. rewrite waiter_holds_awake, worker_holds_awake. apply c_locked0.
  - intros n m. rewrite !waiter_holds_awake. apply c_one0.
  - by rewrite worker_holds_awake.
  - intros n g. rewrite awake_block. apply c_block0.
  - intros n g. rewrite captured_awake. apply c_captured0.
  - intros n. rewrite owns_awake. apply c_life0.
  - intros n m. rewrite !owns_awake. apply c_owner0.
  - intros n p. rewrite undecided_awake, worker_awake_gone. apply c_saved0.
  - intros n p. rewrite restores_awake. apply c_restore0.
  - intros n p. rewrite awake_fault. intros E. destruct (c_fault0 n p E) as [? H].
    split; [done|]. intros Hp m g. rewrite awake_block. by apply H.
  - rewrite worker_awake_gone. intros Hw Hc. destruct c_gone0 as [H1 H2]; [done| |].
    + intros m. specialize (Hc m). by rewrite undecided_awake in Hc.
    + split; [done|]. intros n g. rewrite awake_block. apply H2.
  - rewrite worker_awake_finish. intros Hw. destruct (c_finish0 Hw) as [H1 H2].
    split; [done|]. intros n g. rewrite awake_block. apply H2.
  - intros n g H. by apply awake_sleep in H.
  - intros _ _ n g. apply awake_sleep.
Qed.


Lemma over_news g s : wait_over g s = false → news g s = false ∧ stopping s = false.
Proof.
  unfold wait_over, news. destruct (negb _), (delivered s =? g)%nat, (stopping s), (faulted s); done.
Qed.

Lemma no_news g s : news g s = false → generation s = g ∧ faulted s = false.
Proof.
  unfold news. destruct (Nat.eqb_spec (generation s) g), (delivered s =? g)%nat, (faulted s); done.
Qed.

Lemma not_undecided pc : owns pc = false → undecided pc = None.
Proof. by destruct pc. Qed.
Lemma not_restores pc : owns pc = false → restores pc = None.
Proof. by destruct pc. Qed.
Lemma starts_owns pc : starts pc = true → owns pc = true.
Proof. by destruct pc. Qed.
Lemma owns_starts pc : owns pc = false → starts pc = false.
Proof. by destruct pc. Qed.
Lemma undecided_starts pc : starts pc = false → undecided pc = None.
Proof. by destruct pc. Qed.
Lemma holds_captured pc : captured pc = None → holds pc = false.
Proof. by destruct pc. Qed.

(** One step of a waiter, or of a caller that has nothing to do with the mutex. *)
Record Move (s : State) (n : nat) (pc : CallerPc) (l : bool) : Prop := {
  v_old : owns (callers s n) = false;
  v_new : owns pc = false;
  v_captured : ∀ g, captured pc = Some g → g ≠ 0%nat;
  v_take : holds pc = true → l = true ∧ (holds (callers s n) = true ∨ locked s = false);
  v_drop : holds pc = false →
    l = false ∧ holds (callers s n) = true ∨ l = locked s ∧ holds (callers s n) = false;
  v_block : ∀ g, pc = WaitBlock g → wait_over g s = false;
  v_sleep : ∀ g, pc = WaitSleep g → callers s n = WaitBlock g
}.

Lemma move_core s n pc l : Core s → Move s n pc l → Core (goto n pc (s <| locked := l |>)).
Proof.
  intros [] []. split.
  - intros m. rewrite callers_goto. case_decide as E; [subst m|].
    + intros Hh. destruct (v_take0 Hh) as [-> [Hn|Hn]]; (split; [done|]); [by apply (c_locked0 n)|].
      change (worker_holds (worker s) = false). destruct (worker_holds (worker s)) eqn:Ew; [|done].
      by rewrite c_worker0 in Hn.
    + intros Hm. destruct (c_locked0 m Hm) as [Hl Hw]. split; [|done]. cbn.
      destruct (holds pc) eqn:Hh; [by destruct (v_take0 eq_refl)|].
      destruct (v_drop0 eq_refl) as [[_ Hn]|[-> _]]; [|done]. by destruct E; apply c_one0.
  - intros m1 m2. rewrite !callers_goto. repeat case_decide; subst; try done.
    + intros Hh Hm. destruct (v_take0 Hh) as [_ [Hn|Hn]]; [by apply c_one0|].
      destruct (c_locked0 m2 Hm). congruence.
    + intros Hm Hh. destruct (v_take0 Hh) as [_ [Hn|Hn]]; [by apply c_one0|].
      destruct (c_locked0 m1 Hm). congruence.
    + apply c_one0.
  - intros Hw. change (worker_holds (worker s) = true) in Hw. cbn.
    assert (holds (callers s n) = false) as Hn.
    { destruct (holds (callers s n)) eqn:E; [|done]. destruct (c_locked0 n E). congruence. }
    destruct (holds pc) eqn:Hh; [by destruct (v_take0 eq_refl)|].
    destruct (v_drop0 eq_refl) as [[_ ?]|[-> _]]; [congruence|auto].
  - intros m g. rewrite callers_goto. case_decide; [|apply c_block0].
    intros ->. by destruct (over_news g s (v_block0 g eq_refl)).
  - intros m g. rewrite callers_goto. case_decide; [apply v_captured0|apply c_captured0].
  - intros m. rewrite callers_goto. case_decide; [congruence|apply c_life0].
  - intros m1 m2. rewrite !callers_goto. repeat case_decide; try congruence. apply c_owner0.
  - intros m p. rewrite callers_goto. case_decide; [|apply c_saved0]. by rewrite (not_undecided pc).
  - intros m p. rewrite callers_goto. case_decide; [|apply c_restore0]. by rewrite (not_restores pc).
  - intros m p. rewrite callers_goto. case_decide; [by intros ->|].
    intros Em. change (callers s m = StartFault p) in Em.
    destruct (c_fault0 m p Em) as [Hg Hb]. split; [done|]. intros Hf k g. rewrite callers_goto.
    case_decide; [|by apply Hb]. intros ->.
    destruct (over_news g s (v_block0 g eq_refl)) as [[Hg' _]%no_news Hs].
    pose proof (v_captured0 g eq_refl). rewrite (c_restore0 m p) in Hs by (by rewrite Em).
    destruct (c_saved0 m p) as [_ [|[|]]]; [by rewrite Em|congruence..].
  - intros Hw Hm. destruct c_gone0 as [G1 G2]; [done| |].
    + intros m. specialize (Hm m). rewrite callers_goto in Hm. case_decide; [subst|done].
      by apply not_undecided.
    + split; [done|]. intros m g. rewrite callers_goto. case_decide; [|apply G2]. intros ->.
      destruct (over_news g s (v_block0 g eq_refl)) as [[Hg Hf]%no_news Hs].
      pose proof (v_captured0 g eq_refl). destruct G1 as [|[|]]; congruence.
  - intros Hw. destruct (c_finish0 Hw) as [G1 G2]. split; [done|]. intros m g.
    rewrite callers_goto. case_decide; [|apply G2]. intros ->.
    destruct (over_news g s (v_block0 g eq_refl)) as [[Hg Hf]%no_news Hs].
    destruct G1; congruence.
Qed.

Lemma move_inv s n pc l : Inv s → Move s n pc l → Inv (goto n pc (s <| locked := l |>)).
Proof.
  intros [HC [H1 H2]] Hv. split; [by apply move_core|]. destruct Hv.
  assert (∀ m, starts (callers (goto n pc (s <| locked := l |>)) m) = starts (callers s m)) as Hst.
  { intros m. rewrite callers_goto. case_decide; [subst; by rewrite !owns_starts|done]. }
  split.
  - intros m g. rewrite callers_goto. intros E Hn.
    assert (callers s m = WaitSleep g ∨ callers s m = WaitBlock g) as [E'|E'].
    { case_decide; [subst m; right; by apply v_sleep0|by left]. }
    + destruct (H1 m g E' Hn) as [|[m' Hm']]; [by left|]. right. exists m'. by rewrite Hst.
    + by pose proof (c_block s HC m g E') as Hb; change (news g s = true) in Hn; rewrite Hn in Hb.
  - intros Hw Hm m g. rewrite callers_goto. case_decide.
    + intros E. apply v_sleep0 in E. destruct (c_gone s HC Hw) as [_ G].
      * intros m'. apply undecided_starts. by rewrite <- Hst.
      * by apply G in E.
    + apply H2; [done|]. intros m'. by rewrite <- Hst.
Qed.

(** The same, when the mutex stays as it is. *)
Lemma move_keep s n pc : Inv s → Move s n pc (locked s) → Inv (goto n pc s).
Proof. intros HI HM. apply (move_inv s n pc (locked s)) in HI; [|done]. by destruct s. Qed.

Ltac moves := split; match goal with H : callers _ _ = _ |- _ => rewrite ?H end; try done; naive_solver.

Lemma waiter_inv s s' : wait_step s s' → Inv s → Inv s'.
Proof.
  intros Hs HI. pose proof HI as [HC _].
  assert (∀ n g, captured (callers s n) = Some g → g ≠ 0%nat) as Hg by apply HC.
  destruct Hs; try done;
    match goal with H : callers _ ?n = _ |- _ => specialize (Hg n); rewrite H in Hg end.
  - apply move_inv; [done|]. moves.
  - apply move_inv; [done|]. moves.
  - apply move_keep; [done|]. destruct (c_locked s HC n) as [Hl _]; [by rewrite H|]. moves.
  - apply move_inv; [done|]. moves.
  - apply move_keep; [done|]. moves.
  - apply move_inv; [done|]. moves.
  - apply move_keep; [done|]. moves.
Qed.

(** One step of the owner of [lifecycle_mutex_], its acquisition and release included. *)
Record Own (s : State) (n : nat) (pc : CallerPc) (s' : State) : Prop := {
  w_callers : ∀ m, callers s' m = if decide (m = n) then pc else callers s m;
  w_quiet : captured pc = None ∧ captured (callers s n) = None;
  w_locked : locked s' = locked s;
  w_worker : worker s' = worker s ∨ worker s = Gone ∧ worker s' = Serve;
  w_before : owns (callers s n) = true ∨ lifecycle s = false;
  w_after : lifecycle s' = owns pc;
  w_block : ∀ m g, callers s m = WaitBlock g → news g s' = false;
  w_saved : ∀ p, undecided pc = Some p → worker s' = Gone ∧
    (s_stopping p = true ∨ s_faulted p = true ∨ s_generation p = 0%nat);
  w_restore : ∀ p, restores pc = Some p → stopping s' = s_stopping p;
  w_fault : ∀ p, pc = StartFault p → generation s' = s_generation p ∧
    (s_faulted p = false → ∀ m g, callers s m ≠ WaitBlock g);
  w_gone : worker s' = Gone → undecided pc = None →
    (stopping s' = true ∨ faulted s' = true ∨ generation s' = 0%nat) ∧
    ∀ m g, callers s m ≠ WaitBlock g;
  w_finish : worker s' = Finish → stopping s' = true ∨ faulted s' = true
}.

(** Nobody else owns the mutex. *)
Lemma own_others s n pc s' m :
  Core s → Own s n pc s' → m ≠ n → owns (callers s m) = false.
Proof.
  intros HC HO Hne. destruct (owns (callers s m)) eqn:E; [|done]. destruct (w_before _ _ _ _ HO) as [Hn|Hl].
  - by destruct Hne; apply (c_owner s HC).
  - rewrite (c_life s HC m E) in Hl. done.
Qed.

Lemma own_core s n pc s' : Core s → Own s n pc s' → Core s'.
Proof.
  intros HC HO. pose proof (λ m, own_others s n pc s' m HC HO) as Ho. destruct HC, HO.
  destruct w_quiet0 as [Q1 Q2]. pose proof (holds_captured pc Q1) as Hh.
  assert (∀ m g, callers s' m = WaitBlock g → callers s m = WaitBlock g) as Hb.
  { intros m g. rewrite w_callers0. case_decide; [by intros ->|done]. }
  assert (worker_holds (worker s') = worker_holds (worker s)) as Hwh
    by (destruct w_worker0 as [->|[-> ->]]; done).
  split.
  - intros m. rewrite w_callers0, w_locked0, Hwh. case_decide; [congruence|apply c_locked0].
  - intros m1 m2. rewrite !w_callers0. repeat case_decide; try congruence. apply c_one0.
  - by rewrite Hwh, w_locked0.
  - intros m g E%Hb. by apply (w_block0 m).
  - intros m g. rewrite w_callers0. case_decide; [congruence|apply c_captured0].
  - intros m. rewrite w_callers0, w_after0. case_decide; [done|]. by rewrite Ho.
  - intros m1 m2. rewrite !w_callers0. repeat case_decide; subst; rewrite ?Ho by done; done.
  - intros m p. rewrite w_callers0. case_decide; [apply w_saved0|]. by rewrite not_undecided by auto.
  - intros m p. rewrite w_callers0. case_decide; [apply w_restore0|]. by rewrite not_restores by auto.
  - intros m p. rewrite w_callers0. case_decide as E.
    + intros Hp. destruct (w_fault0 p Hp) as [? H]. split; [done|]. intros Hf k g Ek%Hb.
      by apply (H Hf k g).
    + intros Hp. pose proof (Ho m E) as H. by rewrite Hp in H.
  - intros Hw Hu. destruct (w_gone0 Hw) as [? H].
    + specialize (Hu n). rewrite w_callers0 in Hu. by rewrite decide_True in Hu.
    + split; [done|]. intros m g Em%Hb. by apply (H m g).
  - intros Hw. split; [auto|]. intros m g Em%Hb.
    destruct w_worker0 as [E|[_ E]]; [|congruence]. destruct c_finish0 as [_ H]; [congruence|].
    by apply (H m g).
Qed.

(** While a start is pending everybody will be told. *)
Lemma own_start s n pc s' : Core s → Own s n pc s' → starts pc = true → Inv s'.
Proof.
  intros HC HO Hs. split; [by apply (own_core s n pc)|].
  assert (starts (callers s' n) = true) as Hn by (by rewrite (w_callers _ _ _ _ HO), decide_True).
  split; [intros; right; by exists n|]. intros _ H. by rewrite H in Hn.
Qed.

(** Nobody is about to sleep when the mutex is free. *)
Lemma unlocked_block s n g : Core s → locked s = false → callers s n ≠ WaitBlock g.
Proof. intros HC Hl E. destruct (c_locked s HC n) as [? _]; [by rewrite E|congruence]. Qed.

Lemma idle_undecided s : Core s → lifecycle s = false → ∀ m, undecided (callers s m) = None.
Proof.
  intros HC Hl m. apply not_undecided. destruct (owns (callers s m)) eqn:E; [|done].
  apply (c_life s HC) in E. congruence.
Qed.

Lemma owner_undecided s n :
  Core s → owns (callers s n) = true → undecided (callers s n) = None →
  ∀ m, undecided (callers s m) = None.
Proof.
  intros HC Ho Hn m. destruct (decide (m = n)) as [->|Hne]; [done|]. apply not_undecided.
  destruct (owns (callers s m)) eqn:E; [|done]. by destruct Hne; apply (c_owner s HC).
Qed.

(** The release of [lifecycle_mutex_], with a notification. *)
Lemma release_inv s n pc :
  Core s → owns (callers s n) = true → undecided (callers s n) = None →
  pc = Idle ∨ pc = StopJoin → Inv (notify_all (goto n pc (s <| lifecycle := false |>))).
Proof.
  intros HC Ho Hu Hpc. apply notify_inv. apply (own_core s n pc); [done|].
  pose proof (c_block s HC) as Hb. pose proof (λ H, proj1 (c_finish s HC H)) as Hf.
  pose proof (λ H, c_gone s HC H (owner_undecided s n HC Ho Hu)) as Hg.
  assert (captured (callers s n) = None) by (by destruct (callers s n)).
  destruct Hpc; subst pc; (split; [intros; rewrite callers_goto; reflexivity|..]); cbn; auto; done.
Qed.

(** What is known of a start that may still roll back. *)
Lemma start_pending s n p :
  Core s → undecided (callers s n) = Some p →
  lifecycle s = true ∧ worker s = Gone ∧
  (s_stopping p = true ∨ s_faulted p = true ∨ s_generation p = 0%nat).
Proof.
  intros HC Hu. split; [|by apply (c_saved s HC n)]. apply (c_life s HC n).
  by destruct (callers s n).
Qed.

Ltac owner :=
  split; [intros; rewrite callers_goto; reflexivity|..];
  unfold goto, new_session; cbn; repeat match goal with H : callers _ _ = _ |- _ => rewrite ?H; clear H end;
  try done; eauto; intros; simplify_eq/=;
  try match goal with Hb : ∀ _ _, _ ≠ WaitBlock _, E : _ = WaitBlock _ |- _ => by destruct (Hb _ _ E) end;
  try (intuition congruence).

Lemma start_inv s s' : start_step s s' → Inv s → Inv s'.
Proof.
  intros Hs [HC _]. destruct Hs.
  - pose proof (c_gone s HC H1 (idle_undecided s HC H0)) as [Hg Hb].
    apply (own_start s n (StartReset (saved s))); [done| |done]. owner.
  - destruct (start_pending s n p) as (Hl & Hw & Hp); [done|by rewrite H|].
    apply (own_start s n (StartCreate p)); [done| |done]. pose proof (c_block s HC). owner.
  - destruct (start_pending s n p) as (Hl & Hw & Hp); [done|by rewrite H|].
    apply (own_start s n StartNotify); [done| |done]. pose proof (c_block s HC). owner.
  - destruct (start_pending s n p) as (Hl & Hw & Hp); [done|by rewrite H|].
    apply (own_start s n (StartRestore p)); [done| |done]. pose proof (c_block s HC). owner.
  - destruct (start_pending s n p) as (Hl & Hw & Hp); [done|by rewrite H|].
    pose proof (c_restore s HC n p) as Hr. rewrite H in Hr. specialize (Hr eq_refl).
    pose proof (λ n g, unlocked_block s n g HC H0) as Hb.
    apply (own_start s n (StartFault p)); [done| |done]. owner.
  - destruct (start_pending s n p) as (Hl & Hw & Hp); [done|by rewrite H|].
    pose proof (c_restore s HC n p) as Hr. rewrite H in Hr. specialize (Hr eq_refl).
    destruct (c_fault s HC n p H) as [Hg Hb]. specialize (Hb H0).
    apply (own_start s n StartNotify); [done| |done]. owner.
  - destruct (start_pending s n p) as (Hl & Hw & Hp); [done|by rewrite H|].
    pose proof (λ n g, unlocked_block s n g HC H1) as Hb.
    apply (own_start s n StartNotify); [done| |done]. owner.
  - apply release_inv; rewrite ?H; auto.
Qed.

Lemma stop_inv s s' : stop_step s s' → Inv s → Inv s'.
Proof.
  intros Hs HI. pose proof HI as [HC [H1 H2]]. destruct Hs.
  - pose proof (idle_undecided s HC H0) as Hu. pose proof (c_block s HC) as Hb.
    pose proof (λ H, c_gone s HC H Hu) as Hg. assert (∀ m, owns (callers s m) = false) as Hno.
    { intros m. destruct (owns (callers s m)) eqn:E; [|done]. apply (c_life s HC) in E. congruence. }
    split; [apply (own_core s n StopNotify); [done|owner]; naive_solver|].
    assert (∀ m, starts (callers s m) = false) as Hst by (intros m; by apply owns_starts).
    split.
    + intros m g. rewrite callers_goto. case_decide; [done|]. intros E Hn.
      destruct (H1 m g E Hn) as [|[k Hk]]; [by left|]. by rewrite Hst in Hk.
    + intros Hw _ m g. rewrite callers_goto. case_decide; [done|]. by apply H2.
  - apply release_inv; rewrite ?H; auto.
  - apply release_inv; rewrite ?H; auto.
  - apply move_keep; [done|]. moves.
  - apply notify_inv. apply move_keep; [done|]. moves.
Qed.

(** One step of the worker. *)
Record Work (s s' : State) : Prop := {
  k_callers : callers s' = callers s;
  k_lifecycle : lifecycle s' = lifecycle s;
  k_stopping : stopping s' = stopping s;
  k_generation : generation s' = generation s;
  k_alive : worker s ≠ Gone;
  k_locked : locked s' = locked s ∧ worker_holds (worker s') = worker_holds (worker s) ∨
    locked s = false ∧ locked s' = true ∨
    worker_holds (worker s) = true ∧ worker_holds (worker s') = false;
  k_news : locked s = false ∨ delivered s' = delivered s ∧ faulted s' = faulted s;
  k_ended : worker s' = Finish ∨ worker s' = Gone →
    (stopping s = true ∨ faulted s' = true) ∧ ∀ n g, callers s n ≠ WaitBlock g
}.

Lemma work_core s s' : Core s → Work s s' → Core s'.
Proof.
  intros HC [].
  assert (∀ n p, undecided (callers s n) ≠ Some p) as Hu
    by (intros n p E; by apply (c_saved s HC) in E as [? _]).
  assert (∀ n, holds (callers s n) = true → locked s = true ∧ worker_holds (worker s) = false) as Hl
    by apply HC.
  assert (∀ n p, callers s n ≠ StartFault p) as Hf
    by (intros n p E; apply (Hu n p); by rewrite E).
  split; rewrite ?k_callers0.
  - intros n Hn. destruct (Hl n Hn) as [L1 L2]. destruct k_locked0 as [[-> ->]|[[E _]|[E _]]]; [done|congruence..].
  - apply HC.
  - destruct k_locked0 as [[-> ->]|[[_ E]|[_ E]]]; [apply HC|done|congruence].
  - intros n g E. destruct (Hl n) as [L _]; [by rewrite E|]. destruct k_news0 as [?|[E1 E2]]; [congruence|].
    pose proof (c_block s HC n g E) as Hn. unfold news in *. by rewrite k_generation0, E1, E2.
  - apply HC.
  - rewrite k_lifecycle0. apply HC.
  - apply HC.
  - intros n p E. by destruct (Hu n p).
  - intros n p E. destruct (Hu n p). by destruct (callers s n).
  - intros n p E. by destruct (Hf n p).
  - intros Hw _. destruct k_ended0 as [H1 H2]; [auto|]. rewrite k_stopping0. split; [naive_solver|done].
  - intros Hw. rewrite k_stopping0. apply k_ended0; auto.
Qed.

(** A step that says nothing to the waiters. *)
Lemma work_inv s s' :
  Inv s → Work s s' → worker s ≠ Told → worker s' ≠ Gone →
  (∀ g, news g s' = news g s) → Inv s'.
Proof.
  intros [HC [H1 _]] HK Ht Hg Hn. split; [by apply (work_core s)|]. destruct HK.
  split; [|done]. rewrite k_callers0. intros n g E. rewrite Hn. intros Hnews.
  by destruct (H1 n g E Hnews); [|right].
Qed.

(** A step that does, before it notifies. *)
Lemma work_told s s' : Core s → Work s s' → worker s' = Told → Inv s'.
Proof.
  intros HC HK Ht. split; [by apply (work_core s)|]. split; [by left|]. by rewrite Ht.
Qed.

Lemma worker_inv s s' : worker_step s s' → Inv s → Inv s'.
Proof.
  intros Hs HI. pose proof HI as [HC _]. pose proof (λ H n g, unlocked_block s n g HC H) as Hb.
  assert (∀ n g, callers s n = WaitBlock g → faulted s = false) as Hf.
  { intros n g E. by destruct (no_news g s (c_block s HC n g E)). }
  pose proof (c_finish s HC) as He.
  destruct Hs; rename H into Hw;
    first [ apply notify_inv, (work_core s); [done|]
          | apply (work_told s); [done| |reflexivity]
          | apply (work_inv s); [done| |cbn; congruence..|reflexivity] ].
  1-10: clear Hb Hf He HI HC; split; cbn; rewrite ?Hw; auto; intuition congruence.
  - split; cbn; rewrite ?Hw; auto. intros _. split; [tauto|]. intros n g E.
    destruct H1 as [Hft|Hl]; [by rewrite (Hf n g E) in Hft|by apply (Hb Hl n g)].
  - split; cbn; rewrite ?Hw; auto.
Qed.

Lemma first_reachable_inv s : reachable s → Inv s.
Proof.
  intros Hr. assert (∀ a b, rtc step a b → Inv a → Inv b) as H.
  { induction 1 as [|a b c Hab _ IH]; [done|]. intros HI. apply IH.
    destruct Hab as [a b H|a b H|a b H|a b H];
      eauto using waiter_inv, stop_inv, start_inv, worker_inv. }
  eauto using first_initial_inv.
Qed.

(** ** Runs *)

(** A worker is created by caller 0. *)
Definition serving : State :=
  notify_all (goto 0 Idle (goto 0 StartNotify (goto 0 (StartCreate (saved initial))
    (goto 0 (StartReset (saved initial)) (new_session initial <| lifecycle := true |>)
      <| stopping := false |>) <| worker := Serve |>) <| lifecycle := false |>)).

Lemma serving_reachable : reachable serving.
Proof.
  eapply rtc_l; [apply by_start, (start_begin initial 0); reflexivity|].
  eapply rtc_l; [apply by_start; eapply (start_ready _ 0); reflexivity|].
  eapply rtc_l; [apply by_start; eapply (start_created _ 0); reflexivity|].
  eapply rtc_l; [apply by_start; eapply (start_notify _ 0); reflexivity|].
  apply rtc_refl.
Qed.

(** Caller 1 sleeps in [wait_for_first_sample()] and the worker has delivered. *)
Definition told : State :=
  goto 1 (WaitSleep 1) (goto 1 (WaitBlock 1) (goto 1 (WaitEval 1) (serving <| locked := true |>))
    <| locked := false |>) <| delivered := 1%nat |> <| worker := Told |>.

Lemma told_reachable : reachable told.
Proof.
  unfold reachable. etrans; [apply serving_reachable|].
  eapply rtc_l; [apply by_wait, (wait_enter serving 1); done|].
  eapply rtc_l; [apply by_wait, (wait_false _ 1 1); reflexivity|].
  eapply rtc_l; [apply by_wait, (wait_sleep _ 1 1); reflexivity|].
  eapply rtc_l; [apply by_worker, worker_delivers; reflexivity|].
  apply rtc_refl.
Qed.

(** The worker has evaluated the predicate of its back-off when caller 0 stops. *)
Definition missed : State :=
  let blocked := serving <| worker := BackoffEval |> <| locked := true |> <| worker := BackoffBlock |> in
  let stored := goto 0 StopNotify (blocked <| stopping := true |> <| lifecycle := true |>) in
  let notified := notify_all (goto 0 StopJoin (stored <| lifecycle := false |>)) in
  notified <| worker := BackoffSleep |> <| locked := false |>.

Lemma missed_reachable : reachable missed.
Proof.
  unfold reachable. etrans; [apply serving_reachable|].
  eapply rtc_l; [apply by_worker, backoff_enter; reflexivity|].
  eapply rtc_l; [apply by_worker, backoff_false; reflexivity|].
  eapply rtc_l; [apply by_stop, (stop_store _ 0); reflexivity|].
  eapply rtc_l; [apply by_stop, (stop_notify _ 0); reflexivity|].
  eapply rtc_l; [apply by_worker, backoff_sleep; reflexivity|].
  apply rtc_refl.
Qed.

(** A sleeping worker only wakes, and a stop that joins stays there while a worker exists. *)
Lemma asleep_step s s' : worker s = BackoffSleep → worker_step s s' → s' = s <| worker := BackoffWake |>.
Proof. intros E Hs. destruct Hs; first [done|congruence]. Qed.
Lemma joining_step s s' n :
  callers s n = StopJoin → worker s ≠ Gone → stop_step s s' → callers s' n = StopJoin.
Proof.
  intros E Hw Hs. destruct Hs; try done; cbn; rewrite callers_goto; case_decide; cbn; try congruence;
    by rewrite E.
Qed.

(** C22: no first sample goes unheard. In every interleaving of waiters, starts, stops and
    the worker, a caller asleep in [wait_for_first_sample()] whose session was replaced, has
    delivered or has faulted is about to be notified, by the worker or by the start that
    replaced the session; and once the worker has ended and no start is under way nobody is
    asleep, although [stop()] stores [stopping_] outside the mutex of the predicate. *)
Theorem first_sample_wakeups s :
  reachable s →
  (∀ n g, callers s n = WaitSleep g →
     generation s ≠ g ∨ delivered s = g ∨ faulted s = true →
     worker s = Told ∨ ∃ m, starts (callers s m) = true) ∧
  (worker s = Gone → (∀ m, starts (callers s m) = false) → ∀ n g, callers s n ≠ WaitSleep g).
Proof.
  intros [_ [H1 H2]]%first_reachable_inv. split; [|done]. intros n g E Hn. apply (H1 n g E).
  unfold news. destruct (Nat.eqb_spec (generation s) g), (Nat.eqb_spec (delivered s) g), (faulted s);
    naive_solver.
Qed.

Lemma first_sample_wakeups_witness :
  callers told 1%nat = WaitSleep 1 ∧ delivered told = 1%nat ∧
  (worker told = Told ∨ ∃ m, starts (callers told m) = true).
Proof.
  split; [reflexivity|]. split; [reflexivity|].
  apply (proj1 (first_sample_wakeups told told_reachable) 1%nat 1%nat); [reflexivity|].
  right. left. reflexivity.
Defined.

(** C38: the back-off of the worker misses a [stop()]. A state is reachable in which a stop
    has stored [stopping_], has notified and waits for the worker, and the worker sleeps in
    its back-off: it had evaluated its predicate under [data_mutex_], which [stop()] does not
    take. The worker moves on by its deadline or by chance only, and no stop gets past the
    join before. *)
Theorem backoff_lost_wakeup :
  ∃ s, reachable s ∧ stopping s = true ∧ callers s 0%nat = StopJoin ∧ worker s = BackoffSleep ∧
    (∀ m, m ≠ 0%nat → callers s m = Idle) ∧
    (∀ s', worker_step s s' → s' = s <| worker := BackoffWake |>) ∧
    (∀ s', stop_step s s' → callers s' 0%nat = StopJoin).
Proof.
  exists missed. split; [apply missed_reachable|].
  do 3 (split; [reflexivity|]). split; [by intros [|m]|]. split.
  - intros s' Hs. by apply asleep_step.
  - intros s' Hs. by apply (joining_step missed).
Qed.

End FirstSample.
