(* ===== verification/Handle.v ===== *)
(** * Destroying clients: core/src/client.cpp

    A [Client] owns an [Impl], and its destructor may run on any thread, a callback on the
    client's own worker included. That worker cannot join itself, so the destructor hands
    the [Impl] to a process-wide [DeferredDestroyer], whose thread stops and frees it.

    The state machine composes one [Lifecycle] machine per client with the destructors in
    progress and the destroyer's queue; it has one step per critical section and per
    wait, as [Lifecycle] has. It allows more than the threads can do (one thread may be
    inside calls on two clients at once), which only strengthens the properties. *)

From Stdlib Require Import ZArith Lia.
From stdpp Require Import functions relations countable.
From S2P Require Import Prelude Lifecycle.
Import Lifecycle.

Module Handle.

(** The threads of the process: the program's, the workers of each client, and the
    destroyer's. *)
Inductive Thread := Outside (n : nat) | WorkerOf (i w : nat) | Destroyer.

#[global] Instance Thread_eq_dec : EqDecision Thread.
Proof. solve_decision. Defined.

#[global] Program Instance Thread_countable : Countable Thread :=
  inj_countable'
    (λ t, match t with
          | Outside n => inl (inl n) | WorkerOf i w => inl (inr (i, w)) | Destroyer => inr tt
          end)
    (λ x, match x with
          | inl (inl n) => Outside n | inl (inr (i, w)) => WorkerOf i w | inr _ => Destroyer
          end) _.
Next Obligation. by intros []. Qed.

(** The thread as client [i] knows it: one of its workers, or a thread of the program. *)
Definition seen_by (i : nat) (t : Thread) : Tid :=
  match t with
  | WorkerOf j w => if decide (j = i) then Worker w else User (encode_nat t)
  | _ => User (encode_nat t)
  end.

(** Where the destruction of a client is. *)
Inductive Phase :=
  | Unmade
  | Alive
  | Deciding (t : Thread)      (* line 57: [t] is about to test whose thread it is *)
  | SelfStop (t : Thread)      (* line 58: [t] stops its own client *)
  | Queued                     (* line 21: in the destroyer's queue *)
  | Stopping (t : Thread)      (* lines 35 and 62: [t] stops another thread's client *)
  | Freeing (t : Thread)       (* [~Impl()], which stops once more *)
  | Freed (t : Thread).

(** Where the destroyer's thread is: about to lock, asleep on an empty queue, or busy. *)
Inductive DestroyerPc := Ready | Sleeping | Busy (i : nat).

#[global] Instance DestroyerPc_eq_dec : EqDecision DestroyerPc.
Proof. solve_decision. Defined.

(** Source: core/src/client.cpp:39-42, [DeferredDestroyer], its members, with the clients
    and their phases. [notifying] are the threads between lines 22 and 23. The two last
    fields are history: every client enqueued and every client taken, in order. *)
Record State := {
  impls : nat → Lifecycle.State;
  phases : nat → Phase;
  pending_ : list nat;
  destroyer : DestroyerPc;
  notifying : list Thread;
  enqueued : list nat;
  taken : list nat
}.

#[global] Instance State_eta : Eta State := λ r,
  {| impls := impls r; phases := phases r; pending_ := pending_ r; destroyer := destroyer r;
     notifying := notifying r; enqueued := enqueued r; taken := taken r |}.

Definition set_phase (i : nat) (p : Phase) (g : State) : State := g <| phases ::= <[i := p]> |>.
Definition set_impl (i : nat) (s : Lifecycle.State) (g : State) : State :=
  g <| impls ::= <[i := s]> |>.

(** [t] calls [stop()] on client [i]. *)
Definition call_stop_of (i : nat) (t : Thread) (g : State) : State :=
  set_impl i (goto (seen_by i t) StopEntry (impls g i)) g.

(** The call of [t] on client [i], if there was one, has returned. *)
Definition returned (i : nat) (t : Thread) (g : State) : Prop :=
  pcs (impls g i) (seen_by i t) = Idle.

(** [t] can execute a destructor: it is a thread of the program or a worker in a
    callback. *)
Definition runs (g : State) (t : Thread) : Prop :=
  match t with
  | Outside _ => True
  | WorkerOf j w => workers (impls g j) w = Running
  | Destroyer => False
  end.

(** [t] is inside the destructor of some client. *)
Definition engaged (g : State) (t : Thread) : Prop :=
  t ∈ notifying g ∨
  ∃ j, phases g j ∈ [Deciding t; SelfStop t; Stopping t; Freeing t].

(** Source: core/src/client.cpp:18-22, [DeferredDestroyer::enqueue], the critical section:
    the client joins the queue, and the notification is still to come. *)
Definition enqueue (i : nat) (t : Thread) (g : State) : State :=
  set_phase i Queued g <| pending_ ::= λ q, q ++ [i] |> <| enqueued ::= λ q, q ++ [i] |>
    <| notifying ::= λ l, t :: l |>.

Definition wake_destroyer (d : DestroyerPc) : DestroyerPc :=
  match d with Sleeping => Ready | d => d end.

(** Source: core/src/client.cpp:23-24, [DeferredDestroyer::enqueue], the notification. *)
Definition notify_one (t : Thread) (rest : list Thread) (g : State) : State :=
  g <| notifying := rest |> <| destroyer ::= wake_destroyer |>.

(** Source: core/src/client.cpp:27-37, [DeferredDestroyer::run]: one iteration up to the
    call of [stop()]; the destruction of [value] at its end is [free]. *)
Definition take (i : nat) (rest : list nat) (g : State) : State :=
  call_stop_of i Destroyer
    (set_phase i (Stopping Destroyer) g <| pending_ := rest |> <| destroyer := Busy i |>
       <| taken ::= λ q, q ++ [i] |>).

(** The storage is released; the destroyer goes on with its loop. *)
Definition free (i : nat) (t : Thread) (g : State) : State :=
  let g := set_phase i (Freed t) g in
  match t with Destroyer => g <| destroyer := Ready |> | _ => g end.

(** Source: core/src/client.cpp:56-63, [Client::~Client], with
    core/src/detail/client_impl.hpp:27-31, [called_from_worker_thread], and
    core/src/detail/client_impl.cpp:109, [~Impl]. *)
Inductive destroy_step : State → State → Prop :=
  | begin_destruction g i t : phases g i = Alive → runs g t → returned i t g →
      (* no other thread of the program uses the client any more *)
      (∀ n, pcs (impls g i) (User n) = Idle) →
      destroy_step g (set_phase i (Deciding t) g)
  | on_own_worker g i t : phases g i = Deciding t → mutex (impls g i) = None →
      own_worker (impls g i) (seen_by i t) = true →
      destroy_step g (call_stop_of i t (set_phase i (SelfStop t) g))
  | on_other_thread g i t : phases g i = Deciding t → mutex (impls g i) = None →
      own_worker (impls g i) (seen_by i t) = false →
      destroy_step g (call_stop_of i t (set_phase i (Stopping t) g))
  | hand_over g i t : phases g i = SelfStop t → returned i t g →
      destroy_step g (enqueue i t g)
  | destroy_impl g i t : phases g i = Stopping t → returned i t g →
      destroy_step g (call_stop_of i t (set_phase i (Freeing t) g))
  | free_impl g i t : phases g i = Freeing t → returned i t g →
      destroy_step g (free i t g).

(** Source: core/src/client.cpp:14-51, [DeferredDestroyer] and [deferred_destroyer]. *)
Inductive deferred_step : State → State → Prop :=
  | enqueue_notifies g t rest : notifying g ≡ₚ t :: rest → deferred_step g (notify_one t rest g)
  | destroyer_takes g i rest : destroyer g = Ready → pending_ g = i :: rest →
      deferred_step g (take i rest g)
  | destroyer_sleeps g : destroyer g = Ready → pending_ g = [] →
      deferred_step g (g <| destroyer := Sleeping |>)
  | destroyer_spurious g : destroyer g = Sleeping → deferred_step g (g <| destroyer := Ready |>).

(** What happens to a client apart from its destruction: it is made, it is used (by any
    thread while no destructor runs, by its callbacks also while another thread's
    destructor waits for them), and the calls and the worker in progress go on; a worker
    inside a destructor does not end. *)
Inductive client_step : State → State → Prop :=
  | make_client g i : phases g i = Unmade →
      client_step g (set_impl i initial (set_phase i Alive g))
  | use_client g i s : phases g i = Alive → step Call (impls g i) s →
      client_step g (set_impl i s g)
  | use_in_callback g i t w pc : phases g i = Deciding t ∨ phases g i = Stopping t →
      t ≠ WorkerOf i w → pcs (impls g i) (Worker w) = Idle → may_call (impls g i) (Worker w) = true →
      pc = StartEntry ∨ pc = StopEntry →
      client_step g (set_impl i (goto (Worker w) pc (impls g i)) g)
  | client_goes_on g i l s : phases g i ≠ Unmade → l ≠ Call → step l (impls g i) s →
      (∀ w, engaged g (WorkerOf i w) → workers s w = workers (impls g i) w) →
      client_step g (set_impl i s g).

Inductive system_step : State → State → Prop :=
  | by_client g g' : client_step g g' → system_step g g'
  | by_destructor g g' : destroy_step g g' → system_step g g'
  | by_destroyer g g' : deferred_step g g' → system_step g g'.

Definition start_state : State :=
  {| impls := λ _, initial; phases := λ _, Unmade; pending_ := []; destroyer := Ready;
     notifying := []; enqueued := []; taken := [] |}.

Definition occurs (g : State) : Prop := rtc system_step start_state g.

(** ** One client while it is destroyed *)

(** A call or a worker that goes on moves only threads that are inside a call. *)
Lemma idle_stays l s s' t : step l s s' → l ≠ Call → pcs s t = Idle → pcs s' t = Idle.
Proof.
  intros Hs Hl Ht.
  assert (∀ s1 t1 pc, pcs s1 = pcs s → pcs s t1 ≠ Idle → pcs (goto t1 pc s1) t = Idle) as Hg.
  { intros s1 t1 pc E H1. rewrite pcs_goto. case_decide; [by subst|by rewrite E]. }
  assert (∀ s1, pcs s1 t = Idle → pcs (notify_all s1) t = Idle) as Hn.
  { intros s1 E. cbn. by rewrite E. }
  destruct Hs as [| |s t1 H|s s' H|s s' H|s s' H]; try done.
  - apply Hg; [done|]. intros E. by rewrite E in H.
  - destruct H; unfold start_wait; try case_match; try apply Hn; (apply Hg; [reflexivity|congruence]).
  - destruct H; try apply Hn; (apply Hg; [reflexivity|congruence]).
  - destruct H; auto.
Qed.

(** The points of [stop()] that a thread alone with the client reaches: no other thread
    joins the worker, so it does not wait for the end of a join. *)
Definition in_stop (pc : Pc) : bool :=
  match pc with
  | Idle | StopEntry | StopHeld | StopReady | StopJoin _ | StopJoined | StopNotify => true
  | _ => false
  end.

(** [stop()] has done its work when it returns or is about to. *)
Definition stop_done (pc : Pc) : bool := match pc with Idle | StopNotify => true | _ => false end.

(** No worker is left and none is being joined. *)
Definition workerless (s : Lifecycle.State) : Prop := worker_ s = None ∧ joining_ s = false.

(** [User n] alone uses the client, its callbacks apart, and it stops it. *)
Record stopped_by (n : nat) (s : Lifecycle.State) : Prop := {
  sb_others : ∀ m, m ≠ n → pcs s (User m) = Idle;
  sb_path : in_stop (pcs s (User n)) = true;
  sb_done : stop_done (pcs s (User n)) = true → workerless s
}.

Lemma stopped_by_frame n s s' :
  stopped_by n s → worker_ s' = worker_ s → joining_ s' = joining_ s →
  (∀ m, pcs s' (User m) = pcs s (User m) ∨ pcs s' (User m) = awake (pcs s (User m))) →
  stopped_by n s'.
Proof.
  intros [H1 H2 H3] Ew Ej Ep. unfold workerless in *. split.
  - intros m Hm. by destruct (Ep m) as [->| ->]; rewrite H1.
  - destruct (Ep n) as [->| ->]; [done|]. by destruct (pcs s (User n)).
  - unfold workerless. rewrite Ew, Ej. destruct (Ep n) as [->| ->]; [done|].
    destruct (pcs s (User n)); done.
Qed.

(** The client's only caller moves to [pc]. *)
Lemma stopped_by_move n s s1 pc :
  stopped_by n s → pcs s1 = pcs s → in_stop pc = true →
  (stop_done pc = true → workerless s1) → stopped_by n (goto (User n) pc s1).
Proof.
  intros [H1 H2 H3] E Hp Hd. split.
  - intros m Hm. rewrite pcs_goto, decide_False by congruence. rewrite E. auto.
  - by rewrite pcs_goto, decide_True.
  - by rewrite pcs_goto, decide_True.
Qed.

Lemma stopped_by_notify n s : stopped_by n s → stopped_by n (notify_all s).
Proof. intros H. apply (stopped_by_frame n s); auto. Qed.

(** A worker moves. *)
Lemma stopped_by_worker n s s1 w pc :
  stopped_by n s → pcs s1 = pcs s → worker_ s1 = worker_ s → joining_ s1 = joining_ s →
  stopped_by n (goto (Worker w) pc s1).
Proof.
  intros H E Ew Ej. apply (stopped_by_frame n s); try done.
  intros m. left. rewrite pcs_goto, decide_False by done. by rewrite E.
Qed.

(** Whoever is inside a call is the stopper or a worker in its own path. *)
Lemma stopped_by_movers n s t :
  Inv s → stopped_by n s → pcs s t ≠ Idle →
  (t = User n ∧ in_stop (pcs s t) = true) ∨ (∃ w, t = Worker w ∧ own_path (pcs s t) = true).
Proof.
  intros HI [H1 H2 _] Ht. destruct t as [m|w].
  - left. destruct (decide (m = n)) as [->|Hm]; [done|]. by rewrite H1 in Ht.
  - right. exists w. split; [done|]. by apply (inv_pc s (inv_owned s HI) (Worker w)).
Qed.

Ltac movers n s t HI HS H :=
  let w := fresh "w" in let E := fresh "E" in
  destruct (stopped_by_movers n s t HI HS) as [[-> E]|(w & -> & E)];
    [congruence|rewrite H in E; try discriminate E..].

(** Only the stopper joins. *)
Lemma stopped_by_joining n s :
  Inv s → stopped_by n s → joining_ s = true → joins (pcs s (User n)) = true.
Proof.
  intros HI HS Hj. destruct (inv_joiner s (inv_control s HI) Hj) as [t Ht].
  destruct (stopped_by_movers n s t HI HS) as [[-> _]|(w & -> & Hw)]; [|done|].
  - intros E. by rewrite E in Ht.
  - by destruct (pcs s (Worker w)).
Qed.

Lemma stopped_by_start n s s' : Inv s → start_step s s' → stopped_by n s → stopped_by n s'.
Proof.
  intros HI Hs HS.
  destruct Hs as [s t H|s t H|s t H|s t H|s t H|s t w1 H|s t H|s t H|s t H|s t H|s t H|s t H
    |s t w1 H|s t w1 H|s t H|s t w1 H|s t H|s t H]; movers n s t HI HS H;
    by apply (stopped_by_worker n s).
Qed.

Lemma stopped_by_stop n s s' : Inv s → stop_step s s' → stopped_by n s → stopped_by n s'.
Proof.
  intros HI Hs HS.
  destruct Hs as [s t H|s t H|s t H|s t H|s t H|s t H|s t H|s t w1 H|s t w1 H|s t H|s t H];
    movers n s t HI HS H; try apply stopped_by_notify;
    try (by apply (stopped_by_worker n s)); try (apply (stopped_by_move n s); done).
  - apply stopped_by_joining with (n := n) in HS; try done. by rewrite H in HS.
  - apply (stopped_by_move n s); try done. intros _. split; [|done].
    apply (inv_joining s (inv_control s HI)), (inv_joins s (inv_control s HI) (User n)).
    by rewrite H.
  - apply (stopped_by_move n s); try done. intros _. apply (sb_done n s HS). by rewrite H.
Qed.

(** [stop()] by a thread that is alone with the client goes its way undisturbed. *)
Lemma stopped_by_step n l s s' :
  Inv s → step l s s' → l ≠ Call → stopped_by n s → stopped_by n s'.
Proof.
  intros HI Hs Hl HS. destruct Hs as [| |s t H|s s' H|s s' H|s s' H]; try done.
  - apply (stopped_by_frame n s); try done. intros m. rewrite pcs_goto.
    case_decide as E; [right; by rewrite E|by left].
  - by eapply stopped_by_start.
  - by eapply stopped_by_stop.
  - destruct H; try apply stopped_by_notify; apply (stopped_by_frame n s); try done; by left.
Qed.

(** ** The clients of the system *)

Definition outside_idle (s : Lifecycle.State) : Prop := ∀ n, pcs s (User n) = Idle.

(** Nothing is left of the client: no call in progress and no worker that was not
    joined. *)
Definition quiet (s : Lifecycle.State) : Prop :=
  (∀ t, pcs s t = Idle) ∧ workerless s ∧ ∀ w, ¬ live s w.

Definition phase_inv (i : nat) (p : Phase) (s : Lifecycle.State) : Prop :=
  match p with
  | Unmade | Alive => True
  | Deciding t =>
    outside_idle s ∧ t ≠ Destroyer ∧
    ∀ w, t = WorkerOf i w → workers s w = Running ∧ pcs s (Worker w) = Idle
  | SelfStop t => outside_idle s ∧ ∃ w, t = WorkerOf i w
  | Queued => outside_idle s
  | Stopping t | Freeing t => ∃ n, seen_by i t = User n ∧ stopped_by n s
  | Freed t => (∀ w, t ≠ WorkerOf i w) ∧ quiet s
  end.

Definition client_inv (g : State) (i : nat) : Prop :=
  phases g i = Unmade ∨ reachable (impls g i) ∧ phase_inv i (phases g i) (impls g i).

Lemma seen_by_user i t : (∀ w, t ≠ WorkerOf i w) → ∃ n, seen_by i t = User n.
Proof.
  intros H. destruct t as [n|j w|]; cbn; [eauto| |eauto].
  rewrite decide_False; [eauto|]. intros ->. by apply (H w).
Qed.

Lemma seen_by_own i w : seen_by i (WorkerOf i w) = Worker w.
Proof. cbn. by rewrite decide_True. Qed.

(** When the stop of a thread alone with the client returns, nothing is left. *)
Lemma stopped_quiet n s : Inv s → stopped_by n s → pcs s (User n) = Idle → quiet s.
Proof.
  intros [HC HO HW] [H1 H2 H3] Hn.
  assert (∀ m, pcs s (User m) = Idle) as Hu.
  { intros m. destruct (decide (m = n)) as [->|]; auto. }
  assert (∀ w, own_path (pcs s (Worker w)) = true) as Hp.
  { intros w. by destruct (inv_pc s HO (Worker w)) as (_ & _ & _ & ? & _). }
  assert (workerless s) as Hw by (apply H3; by rewrite Hn).
  assert (∀ w, ¬ live s w) as Hl.
  { intros w Hl. destruct (inv_live s HO w Hl) as [_ [E|[[m|w'] E]]].
    - destruct Hw as [Hw _]. congruence.
    - by rewrite Hu in E.
    - specialize (Hp w'). by destruct (pcs s (Worker w')). }
  split_and!; [|done..]. intros [m|w]; [done|].
  destruct (decide (pcs s (Worker w) = Idle)) as [|Hi]; [done|].
  destruct (inv_pc s HO (Worker w)) as (_ & _ & _ & _ & Hr). destruct (Hl w). left. auto.
Qed.

Lemma quiet_ends l s s' : quiet s → step l s s' → l = Call.
Proof.
  intros (Hi & _ & Hl) Hs. destruct l; [done| |].
  - inversion Hs as [| |s0 t H| | |]; subst. by rewrite Hi in H.
  - by destruct (quiet_blocked s Internal s') as []; auto.
Qed.

(** A running worker recognises itself. *)
Lemma own_worker_running s w : Inv s → workers s w = Running → own_worker s (Worker w) = true.
Proof.
  intros [_ HO _] Hr. cbn. rewrite (inv_running s HO w Hr). cbn.
  apply bool_decide_eq_true. by apply (inv_live s HO); left.
Qed.

(** The client goes on by itself. *)
Lemma phase_inv_step i p l s s' :
  Inv s → step l s s' → l ≠ Call → (∀ w, p = Deciding (WorkerOf i w) → workers s' w = workers s w) →
  phase_inv i p s → phase_inv i p s'.
Proof.
  intros HI Hs Hl Hg. assert (outside_idle s → outside_idle s') as Ho.
  { intros H n. by eapply idle_stays. }
  destruct p as [| |t|t| |t|t|t]; cbn; try done.
  - intros (H1 & H2 & H3). split_and!; [auto|done|]. intros w ->.
    destruct (H3 w eq_refl) as [Hr Hp]. rewrite Hg by done. split; [done|by eapply idle_stays].
  - intros [H1 H2]. auto.
  - intros (n & En & HS). exists n. split; [done|by eapply stopped_by_step].
  - intros (n & En & HS). exists n. split; [done|by eapply stopped_by_step].
  - intros [_ Hq]. by apply (quiet_ends l s s') in Hq.
Qed.

(** A callback makes a call. *)
Lemma outside_idle_worker s w pc : outside_idle s → outside_idle (goto (Worker w) pc s).
Proof. intros H n. by rewrite pcs_goto, decide_False. Qed.

(** The thread that destroys the client calls [stop()] on it. *)
Lemma stopped_by_call s n : outside_idle s → stopped_by n (goto (User n) StopEntry s).
Proof.
  intros H. split.
  - intros m Hm. rewrite pcs_goto, decide_False by congruence. apply H.
  - by rewrite pcs_goto, decide_True.
  - by rewrite pcs_goto, decide_True.
Qed.

Lemma reachable_call_stop s t :
  reachable s → pcs s t = Idle → may_call s t = true → reachable (goto t StopEntry s).
Proof. intros Hr Hp Hm. eapply reachable_step; [done|by apply call_stop]. Qed.

(** A step that touches only client [i]. *)
Lemma clients_update g g' i p s :
  (∀ j, client_inv g j) → phases g' = <[i := p]> (phases g) → impls g' = <[i := s]> (impls g) →
  reachable s → phase_inv i p s → ∀ j, client_inv g' j.
Proof.
  intros H Ep Es Hr Hp j. unfold client_inv. rewrite Ep, Es.
  destruct (decide (j = i)) as [->|Hj].
  - rewrite !fn_lookup_insert. by right.
  - rewrite !fn_lookup_insert_ne by done. apply H.
Qed.

(** The phase alone changes. *)
Lemma clients_phase g g' i p :
  (∀ j, client_inv g j) → phases g i ≠ Unmade → phases g' = <[i := p]> (phases g) →
  impls g' = impls g → phase_inv i p (impls g i) → ∀ j, client_inv g' j.
Proof.
  intros H Hu Ep Es Hp j. unfold client_inv. rewrite Ep, Es.
  destruct (decide (j = i)) as [->|Hj].
  - rewrite !fn_lookup_insert. right. split; [|done]. by destruct (H i) as [?|[? _]].
  - rewrite !fn_lookup_insert_ne by done. apply H.
Qed.

(** The client alone changes. *)
Lemma clients_impl g g' i s :
  (∀ j, client_inv g j) → phases g' = phases g → impls g' = <[i := s]> (impls g) →
  reachable s → phase_inv i (phases g i) s → ∀ j, client_inv g' j.
Proof.
  intros H Ep Es Hr Hp j. unfold client_inv. rewrite Ep, Es.
  destruct (decide (j = i)) as [->|Hj].
  - rewrite !fn_lookup_insert. by right.
  - rewrite !fn_lookup_insert_ne by done. apply H.
Qed.

Lemma made_client g i :
  client_inv g i → phases g i ≠ Unmade →
  reachable (impls g i) ∧ phase_inv i (phases g i) (impls g i).
Proof. by intros [?|?]. Qed.

Lemma client_step_inv g g' :
  client_step g g' → (∀ j, client_inv g j) → ∀ j, client_inv g' j.
Proof.
  intros Hs H. destruct Hs as [g i Hp|g i s Hp Hs|g i t w pc Hp Ht Hi Hm Hpc|g i l s Hp Hl Hs Hg].
  - by eapply clients_update; [..|apply rtc_refl|].
  - destruct (made_client g i (H i)) as [Hr _]; [by rewrite Hp|].
    eapply (clients_impl g); try done; [by eapply reachable_step|by rewrite Hp].
  - destruct (made_client g i (H i)) as [Hr HP]; [by destruct Hp as [-> | ->]|].
    eapply (clients_impl g); try done.
    + destruct Hpc as [-> | ->]; (eapply reachable_step; [done|]); by constructor.
    + destruct Hp as [Hp|Hp]; rewrite Hp in HP |- *; cbn [phase_inv] in HP |- *.
      * destruct HP as (H1 & H2 & H3). split_and!; [by apply outside_idle_worker|done|].
        intros w' ->. rewrite pcs_goto, decide_False by congruence. by apply H3.
      * destruct HP as (n & En & HS). exists n. split; [done|].
        by apply (stopped_by_worker n (impls g i)).
  - destruct (made_client g i (H i) Hp) as [Hr HP].
    eapply (clients_impl g); try done; [by eapply reachable_step|].
    eapply phase_inv_step; try done; [by apply reachable_inv|].
    intros w E. apply Hg. right. exists i. rewrite E. set_solver.
Qed.

Lemma destroy_step_inv g g' :
  destroy_step g g' → (∀ j, client_inv g j) → ∀ j, client_inv g' j.
Proof.
  intros Hs H. destruct Hs as [g i t Hp Hr Hret Ho|g i t Hp Hm Hown|g i t Hp Hm Hown|g i t Hp Hret
    |g i t Hp Hret|g i t Hp Hret];
    (destruct (made_client g i (H i)) as [Hre HP]; [by rewrite Hp|]); rewrite Hp in HP; cbn [phase_inv] in HP.
  - apply (clients_phase g _ i (Deciding t)); try done; [by rewrite Hp|].
    split_and!; [done|by intros ->|]. intros w ->. unfold returned in Hret.
    by rewrite seen_by_own in Hret.
  - destruct HP as (Ho & Hd & Hw). destruct t as [n|k w|]; [done| |done].
    cbn in Hown. destruct (decide (k = i)) as [->|]; [|done]. destruct (Hw w eq_refl) as [Hrun Hidle].
    apply (clients_update g _ i (SelfStop (WorkerOf i w)) (goto (Worker w) StopEntry (impls g i)));
      try done; unfold call_stop_of; cbn; rewrite ?decide_True by done; try done.
    + apply reachable_call_stop; try done. by apply bool_decide_eq_true.
    + split; [by apply outside_idle_worker|eauto].
  - destruct HP as (Ho & Hd & Hw). destruct (seen_by_user i t) as [n En].
    { intros w ->. destruct (Hw w eq_refl) as [Hrun _]. rewrite seen_by_own in Hown.
      by rewrite own_worker_running in Hown by (try done; by apply reachable_inv). }
    apply (clients_update g _ i (Stopping t) (goto (User n) StopEntry (impls g i)));
      try done; [by unfold call_stop_of; rewrite En|by apply reachable_call_stop|].
    exists n. split; [done|by apply stopped_by_call].
  - apply (clients_phase g _ i Queued); try done; [by rewrite Hp|]. apply HP.
  - destruct HP as (n & En & HS). unfold returned in Hret. rewrite En in Hret.
    apply (clients_update g _ i (Freeing t) (goto (User n) StopEntry (impls g i)));
      try done; [by unfold call_stop_of; rewrite En|by apply reachable_call_stop|].
    exists n. split; [done|]. apply (stopped_by_move n (impls g i)); done.
  - destruct HP as (n & En & HS). unfold returned in Hret. rewrite En in Hret.
    apply (clients_phase g _ i (Freed t)); try (by destruct t); [by rewrite Hp|].
    split; [|by eapply stopped_quiet; [apply reachable_inv| |]].
    intros w ->. by rewrite seen_by_own in En.
Qed.

(** ** The destroyer's queue *)

Inductive Place := Elsewhere | InQueue | InHand | Done.

#[global] Instance Place_eq_dec : EqDecision Place.
Proof. solve_decision. Defined.

(** Where the destroyer has the client. *)
Definition place (p : Phase) : Place :=
  match p with
  | Queued => InQueue
  | Stopping Destroyer | Freeing Destroyer => InHand
  | Freed Destroyer => Done
  | _ => Elsewhere
  end.

(** The queue and the history agree, a client is enqueued once, the destroyer handles
    one client at a time, and it does not sleep through a notification. *)
Record queue_inv (g : State) : Prop := {
  q_fifo : enqueued g = taken g ++ pending_ g;
  q_once : NoDup (enqueued g);
  q_pending : ∀ i, i ∈ pending_ g ↔ place (phases g i) = InQueue;
  q_taken : ∀ i, i ∈ taken g ↔ place (phases g i) = InHand ∨ place (phases g i) = Done;
  q_busy : ∀ i, place (phases g i) = InHand ↔ destroyer g = Busy i;
  q_last : ∀ i, destroyer g = Busy i → last (taken g) = Some i;
  q_wake : destroyer g = Sleeping → pending_ g ≠ [] → notifying g ≠ []
}.

(** A step that does not concern the destroyer. *)
Lemma queue_frame g g' :
  queue_inv g → (∀ i, place (phases g' i) = place (phases g i)) →
  enqueued g' = enqueued g → taken g' = taken g → pending_ g' = pending_ g →
  destroyer g' = destroyer g → notifying g' = notifying g → queue_inv g'.
Proof.
  intros [H1 H2 H3 H4 H5 H6 H7] E1 E2 E3 E4 E5 E6.
  split; rewrite ?E2, ?E3, ?E4, ?E5, ?E6; try done; intros i; by rewrite E1.
Qed.

Lemma place_update g i p j :
  place (<[i := p]> (phases g) j) = if decide (j = i) then place p else place (phases g j).
Proof.
  destruct (decide (j = i)) as [->|]; [by rewrite fn_lookup_insert|by rewrite fn_lookup_insert_ne].
Qed.

Lemma place_same g i p :
  place p = place (phases g i) → ∀ j, place (<[i := p]> (phases g) j) = place (phases g j).
Proof. intros E j. rewrite place_update. by case_decide; subst. Qed.

Lemma client_step_queue g g' : client_step g g' → queue_inv g → queue_inv g'.
Proof.
  intros Hs H. destruct Hs as [g i Hp| | |]; apply (queue_frame g); try done.
  apply place_same. by rewrite Hp.
Qed.

Lemma enqueue_queue g i t :
  queue_inv g → place (phases g i) = Elsewhere → queue_inv (enqueue i t g).
Proof.
  intros [H1 H2 H3 H4 H5 H6 H7] Hp. unfold enqueue, set_phase.
  split; cbn; try done.
  - by rewrite H1, app_assoc.
  - apply NoDup_app. split_and!; [done| |apply NoDup_singleton].
    intros j Hj ->%list_elem_of_singleton. rewrite H1 in Hj.
    apply elem_of_app in Hj as [[Hj|Hj]%H4|Hj%H3]; congruence.
  - intros j. rewrite place_update. rewrite elem_of_app, list_elem_of_singleton, H3.
    case_decide; subst; naive_solver.
  - intros j. rewrite place_update, H4. case_decide; subst; [|done].
    rewrite Hp. naive_solver.
  - intros j. rewrite place_update, <- H5. case_decide; subst; [|done]. by rewrite Hp.
Qed.

Lemma take_queue g i rest :
  queue_inv g → destroyer g = Ready → pending_ g = i :: rest → queue_inv (take i rest g).
Proof.
  intros [H1 H2 H3 H4 H5 H6 H7] Hd Hq. unfold take, set_phase, call_stop_of, set_impl.
  assert (place (phases g i) = InQueue) as Hi by (apply H3; rewrite Hq; by left).
  assert (i ∉ rest) as Hn.
  { rewrite H1, Hq in H2. apply NoDup_app in H2 as (_ & _ & H2). by apply NoDup_cons in H2 as []. }
  split; cbn; try done.
  - by rewrite H1, Hq, <- app_assoc.
  - intros j. rewrite place_update. specialize (H3 j). rewrite Hq, elem_of_cons in H3.
    case_decide; subst; naive_solver.
  - intros j. rewrite place_update, elem_of_app, list_elem_of_singleton, H4.
    case_decide; subst; naive_solver.
  - intros j. rewrite place_update. case_decide; subst; [done|]. rewrite H5, Hd. naive_solver.
  - intros j [= <-]. apply last_snoc.
Qed.

Lemma free_queue g i t :
  queue_inv g → phases g i = Freeing t → queue_inv (free i t g).
Proof.
  intros H Hp. destruct (decide (t = Destroyer)) as [->|Ht].
  2: { assert (place (Freed t) = place (phases g i)) as E by (by rewrite Hp; destruct t).
       apply (queue_frame g); try (by destruct t); destruct t; by apply place_same. }
  destruct H as [H1 H2 H3 H4 H5 H6 H7]. unfold free, set_phase.
  assert (destroyer g = Busy i) as Hb by (apply H5; by rewrite Hp).
  split; cbn; try done.
  - intros j. rewrite place_update, H3. case_decide; subst; [|done]. by rewrite Hp.
  - intros j. rewrite place_update, H4. case_decide; subst; [|done]. rewrite Hp. naive_solver.
  - intros j. rewrite place_update. case_decide; subst; [done|]. rewrite H5, Hb. naive_solver.
Qed.

Lemma destroy_step_queue g g' :
  destroy_step g g' → (∀ j, client_inv g j) → queue_inv g → queue_inv g'.
Proof.
  intros Hs HC H. destruct Hs as [g i t Hp Hr Hret Ho|g i t Hp Hm Hown|g i t Hp Hm Hown|g i t Hp Hret
    |g i t Hp Hret|g i t Hp Hret].
  - apply (queue_frame g); try done. apply place_same. by rewrite Hp.
  - apply (queue_frame g); try done. apply place_same. by rewrite Hp.
  - apply (queue_frame g); try done. apply place_same.
    destruct (made_client g i (HC i)) as [_ HP]; [by rewrite Hp|]. rewrite Hp in HP |- *.
    destruct HP as (_ & Ht & _). by destruct t.
  - apply enqueue_queue; [done|by rewrite Hp].
  - apply (queue_frame g); try done. apply place_same. by rewrite Hp.
  - by apply free_queue.
Qed.

Lemma deferred_step_queue g g' : deferred_step g g' → queue_inv g → queue_inv g'.
Proof.
  intros Hs H. destruct Hs as [g t rest Hn|g i rest Hd Hq|g Hd Hq|g Hd].
  - destruct H as [H1 H2 H3 H4 H5 H6 H7]. split; cbn; try done.
    + intros i. rewrite H5. destruct (destroyer g); naive_solver.
    + intros i Hi. apply H6. by destruct (destroyer g).
    + by destruct (destroyer g).
  - by apply take_queue.
  - destruct H as [H1 H2 H3 H4 H5 H6 H7]. split; cbn; try done. intros i. rewrite H5, Hd. naive_solver.
  - destruct H as [H1 H2 H3 H4 H5 H6 H7]. split; cbn; try done. intros i. rewrite H5, Hd. naive_solver.
Qed.

Lemma deferred_step_inv g g' :
  deferred_step g g' → queue_inv g → (∀ j, client_inv g j) → ∀ j, client_inv g' j.
Proof.
  intros Hs HQ H. destruct Hs as [g t rest Hn|g i rest Hd Hq|g Hd Hq|g Hd]; try exact H.
  assert (phases g i = Queued) as Hp.
  { assert (place (phases g i) = InQueue) as E by (apply (q_pending g HQ); rewrite Hq; by left).
    by destruct (phases g i) as [| | | | |[]|[]|[]]. }
  destruct (made_client g i (H i)) as [Hr HP]; [by rewrite Hp|]. rewrite Hp in HP.
  eapply (clients_update g); [done|reflexivity|reflexivity|apply reachable_call_stop; [exact Hr|apply HP|reflexivity]|].
  cbn [phase_inv]. exists (encode_nat Destroyer). split; [done|by apply stopped_by_call].
Qed.

(** ** Reachable states of the system *)

Lemma occurs_inv g : occurs g → (∀ j, client_inv g j) ∧ queue_inv g.
Proof.
  revert g. apply rtc_ind_r.
  - split; [by left|]. split; cbn; try done; [apply NoDup_nil_2|intros i; set_solver..].
  - intros g g' _ Hs [HC HQ]. destruct Hs as [g g' Hs|g g' Hs|g g' Hs]; split;
      eauto using client_step_inv, client_step_queue, destroy_step_inv, destroy_step_queue,
        deferred_step_inv, deferred_step_queue.
Qed.

Lemma place_queued p : place p = InQueue → p = Queued.
Proof. by destruct p as [| | | | |[]|[]|[]]. Qed.
Lemma place_done p : place p = Done → p = Freed Destroyer.
Proof. by destruct p as [| | | | |[]|[]|[]]. Qed.

(** A deferred client that is not yet freed is queued or in the destroyer's hand. *)
Lemma deferred_where g i :
  queue_inv g → i ∈ enqueued g → phases g i ≠ Freed Destroyer →
  i ∈ pending_ g ∨ destroyer g = Busy i.
Proof.
  intros HQ Hi Hf. rewrite (q_fifo g HQ) in Hi.
  apply elem_of_app in Hi as [[Hi|Hi]%(q_taken g HQ)|Hi]; [|by apply place_done in Hi|by left].
  right. by apply (q_busy g HQ).
Qed.

(** ** What the destruction of a client still takes *)

(** Steps left of [stop()] by a thread alone with the client. *)
Definition stop_left (pc : Pc) : nat :=
  match pc with
  | StopEntry => 6 | StopHeld => 5 | StopReady => 4 | StopJoin _ => 3 | StopJoined => 2
  | StopNotify => 1 | _ => 0
  end.

(** Steps left of a call that the callback of the worker makes on its own client. *)
Definition own_left (pc : Pc) : nat :=
  match pc with StartEntry | StopEntry => 2 | StartHeld | StopHeld => 1 | _ => 0 end.

(** Steps left of the worker once it is told to stop: its call, its exit, its last
    notification. *)
Definition worker_left (s : Lifecycle.State) : nat :=
  match active_worker_id_ s with
  | Some w =>
    match workers s w with Running => 2 | Exited => 1 | Unborn | Gone => 0 end +
    own_left (pcs s (Worker w))
  | None => 0
  end.

Definition stop_cost (n : nat) (s : Lifecycle.State) : nat :=
  stop_left (pcs s (User n)) + worker_left s.

Lemma stop_cost_notify n s : stop_cost n (notify_all s) = stop_cost n s.
Proof.
  assert (∀ pc, stop_left (awake pc) = stop_left pc) as H1 by (by intros []).
  assert (∀ pc, own_left (awake pc) = own_left pc) as H2 by (by intros []).
  unfold stop_cost, worker_left. cbn. rewrite H1. by destruct (active_worker_id_ s); rewrite ?H2.
Qed.

(** The worker inside a call is the active one, and it runs. *)
Lemma caller_active s w :
  Inv s → pcs s (Worker w) ≠ Idle → workers s w = Running ∧ active_worker_id_ s = Some w.
Proof.
  intros [_ HO _] Hp. destruct (inv_pc s HO (Worker w)) as (_ & _ & _ & _ & Hr).
  split; [by apply Hr|]. apply (inv_live s HO w). left. by apply Hr.
Qed.

(** The worker's call moves on. *)
Lemma stop_cost_own n s s1 w pc :
  active_worker_id_ s = Some w → pcs s1 = pcs s → workers s1 = workers s →
  active_worker_id_ s1 = active_worker_id_ s → (own_left pc < own_left (pcs s (Worker w)))%nat →
  (stop_cost n (goto (Worker w) pc s1) < stop_cost n s)%nat.
Proof.
  intros Ha Ep Ew Ea Hl. unfold stop_cost, worker_left. rewrite pcs_goto, decide_False by done.
  change (active_worker_id_ (goto (Worker w) pc s1)) with (active_worker_id_ s1).
  change (workers (goto (Worker w) pc s1)) with (workers s1).
  rewrite Ea, Ha, Ew, Ep, pcs_goto, decide_True by done. lia.
Qed.

(** The stopper moves on. *)
Lemma stop_cost_stopper n s s1 pc :
  pcs s1 = pcs s → workers s1 = workers s →
  active_worker_id_ s1 = active_worker_id_ s ∨ active_worker_id_ s1 = None →
  (stop_left pc < stop_left (pcs s (User n)))%nat →
  (stop_cost n (goto (User n) pc s1) < stop_cost n s)%nat.
Proof.
  intros Ep Ew Ea Hl. unfold stop_cost, worker_left. rewrite pcs_goto, decide_True by done.
  change (active_worker_id_ (goto (User n) pc s1)) with (active_worker_id_ s1).
  change (workers (goto (User n) pc s1)) with (workers s1).
  destruct Ea as [-> | ->]; [|lia]. destruct (active_worker_id_ s) as [w|]; [|lia].
  rewrite pcs_goto, decide_False, Ew, Ep by done. lia.
Qed.

(** The worker ends. *)
Lemma stop_cost_ends n s s' w p :
  active_worker_id_ s = Some w → workers s' = <[w := p]> (workers s) → pcs s' = pcs s →
  active_worker_id_ s' = active_worker_id_ s →
  workers s w = Running ∧ p = Exited ∨ workers s w = Exited ∧ p = Gone →
  (stop_cost n s' < stop_cost n s)%nat.
Proof.
  intros Ha Ew Ep Ea Hp. unfold stop_cost, worker_left. rewrite Ea, Ha, Ew, Ep, fn_lookup_insert.
  destruct Hp as [[-> ->]|[-> ->]]; lia.
Qed.

Lemma cost_start n s s' :
  Inv s → stopped_by n s → start_step s s' → (stop_cost n s' < stop_cost n s)%nat.
Proof.
  intros HI HS Hs.
  destruct Hs as [s t H|s t H|s t H Ho|s t H|s t H|s t w1 H|s t H|s t H|s t H|s t H|s t H|s t H
    |s t w1 H|s t w1 H|s t H|s t w1 H|s t H|s t H]; movers n s t HI HS H;
    (destruct (caller_active s w HI) as [Hr Ha]; [by rewrite H|]).
  - apply stop_cost_own; try done. rewrite H. cbn. lia.
  - apply stop_cost_own; try done. rewrite H. cbn. lia.
  - by rewrite own_worker_running in Ho.
Qed.

Lemma cost_stop n s s' :
  Inv s → stopped_by n s → stop_step s s' → (stop_cost n s' < stop_cost n s)%nat.
Proof.
  intros HI HS Hs.
  destruct Hs as [s t H|s t H|s t H|s t H|s t H|s t H|s t H|s t w1 H|s t w1 H|s t H|s t H];
    movers n s t HI HS H; rewrite ?stop_cost_notify;
    try (destruct (caller_active s w HI) as [Hr Ha]; [by rewrite H|]);
    try (apply stop_cost_stopper; [done|done|first [by left|by right]|rewrite H; cbn; lia]);
    (apply stop_cost_own; [done|done|done|done|rewrite H; cbn; lia]).
Qed.

(** Everything but a new call brings the stop nearer to its end, or leaves it where it
    is. *)
Lemma cost_step n l s s' :
  Inv s → stopped_by n s → step l s s' → l ≠ Call → (stop_cost n s' ≤ stop_cost n s)%nat.
Proof.
  intros HI HS Hs Hl. destruct Hs as [| |s t H|s s' H|s s' H|s s' H]; try done.
  - destruct (stopped_by_movers n s t HI HS) as [[-> E]|(w & -> & E)].
    + intros E. by rewrite E in H.
    + by destruct (pcs s (User n)).
    + by rewrite own_path_awake in H.
  - apply Nat.lt_le_incl. by apply cost_start.
  - apply Nat.lt_le_incl. by apply cost_stop.
  - destruct H as [s w|s w|s w H|s w H]; rewrite ?stop_cost_notify; try done.
    + apply Nat.lt_le_incl, (stop_cost_ends n s _ w Exited); try done; [|by left].
      apply (inv_live s (inv_owned s HI) w). by left.
    + apply Nat.lt_le_incl, (stop_cost_ends n s _ w Gone); try done; [|by right].
      apply (inv_live s (inv_owned s HI) w). by right.
Qed.

(** A step of the methods or the end of the worker. *)
Definition advances (s s' : Lifecycle.State) : Prop :=
  start_step s s' ∨ stop_step s s' ∨
  worker_step s s' ∧ ∃ w, live s w ∧ workers s' w ≠ workers s w.

Lemma advances_cost n s s' :
  Inv s → stopped_by n s → advances s s' → (stop_cost n s' < stop_cost n s)%nat.
Proof.
  intros HI HS [H|[H|[H (w0 & _ & Hw)]]]; [by apply cost_start|by apply cost_stop|].
  destruct H as [s w|s w|s w H|s w H]; rewrite ?stop_cost_notify; try done.
  - apply (stop_cost_ends n s _ w Exited); try done; [|by left].
    apply (inv_live s (inv_owned s HI) w). by left.
  - apply (stop_cost_ends n s _ w Gone); try done; [|by right].
    apply (inv_live s (inv_owned s HI) w). by right.
Qed.

Lemma advances_internal s s' : advances s s' → step Internal s s'.
Proof. intros [?|[?|[? _]]]; [by apply by_start|by apply by_stop|by apply by_worker]. Qed.

(** The call of a worker goes on when the mutex is free or its own. *)
Lemma caller_advances s w :
  Inv s → pcs s (Worker w) ≠ Idle → mutex s = None ∨ mutex s = Some (Worker w) →
  ∃ s', advances s s'.
Proof.
  intros HI Hp Hm. destruct (caller_active s w HI Hp) as [Hr _].
  pose proof (own_worker_running s w HI Hr) as Ho.
  pose proof (inv_holds s (inv_control s HI) (Worker w)) as Hh.
  destruct (inv_pc s (inv_owned s HI) (Worker w)) as (_ & _ & _ & Hown & _).
  destruct (pcs s (Worker w)) eqn:E; try done.
  - eexists. left. apply start_lock; [done|]. by destruct Hm as [|?%Hh].
  - eexists. left. by eapply start_self.
  - eexists. right; left. apply stop_lock; [done|]. by destruct Hm as [|?%Hh].
  - eexists. right; left. by eapply stop_self.
Qed.

(** The stop of a thread alone with its client goes on until it returns. *)
Lemma stopper_advances n s :
  Inv s → stopped_by n s → pcs s (User n) ≠ Idle → ∃ s', advances s s'.
Proof.
  intros HI HS Hp. pose proof (inv_control s HI) as HC. pose proof (inv_owned s HI) as HO.
  assert (∀ w, mutex s = Some (Worker w) → ∃ s', advances s s') as Hmw.
  { intros w Hm. apply (caller_advances s w HI); [|by right]. intros E.
    apply (inv_holds s HC) in Hm. by rewrite E in Hm. }
  assert (∀ m, m ≠ n → mutex s ≠ Some (User m)) as Hmu.
  { intros m Hne Hm. apply (inv_holds s HC) in Hm. by rewrite (sb_others n s HS m Hne) in Hm. }
  assert (holds (pcs s (User n)) = false → (∃ s', advances s s') ∨ mutex s = None) as Hfree.
  { intros Hh. destruct (mutex s) as [[m|w]|] eqn:Em; [|by left; eapply Hmw|by right].
    destruct (decide (m = n)) as [->|Hne]; [|by destruct (Hmu m Hne)].
    apply (inv_holds s HC) in Em. congruence. }
  pose proof (sb_path n s HS) as Hpath. destruct (inv_pc s HO (User n)) as (Ht & _ & Hst & _).
  destruct (pcs s (User n)) eqn:E; try done.
  - destruct (Hfree eq_refl) as [|Hm]; [done|]. eexists. right; left. by apply (stop_lock s (User n)).
  - eexists. right; left. by apply (stop_other s (User n)).
  - assert (joining_ s = false) as Hj.
    { destruct (joining_ s) eqn:Ej; [|done].
      apply stopped_by_joining with (n := n) in Ej; try done. by rewrite E in Ej. }
    destruct (worker_ s) eqn:Ew; eexists; right; left;
      [by eapply (stop_reap s (User n))|by eapply (stop_idle s (User n))].
  - destruct (Ht w eq_refl) as [_ Hu]. destruct (workers s w) eqn:Ew; [done| | |].
    + destruct (decide (pcs s (Worker w) = Idle)) as [Hi|Hi].
      * eexists. right; right. split; [apply (worker_exits s w Ew Hi); left; by apply Hst|].
        exists w. split; [by left|]. cbn. by rewrite fn_lookup_insert, Ew.
      * destruct (Hfree eq_refl) as [|Hm]; [done|]. apply (caller_advances s w HI Hi). by left.
    + eexists. right; right. split; [by apply (worker_notifies s w)|].
      exists w. split; [by right|]. cbn. by rewrite fn_lookup_insert, Ew.
    + eexists. right; left. by apply (stop_join s (User n) w).
  - destruct (Hfree eq_refl) as [|Hm]; [done|]. eexists. right; left. by apply (stop_joined s (User n)).
  - eexists. right; left. by apply (stop_notify s (User n)).
Qed.

(** ** How far a deferred client is from its release *)

(** The place of a client in the queue, from 1; 0 if it is not there. *)
Fixpoint turn (i : nat) (q : list nat) : nat :=
  match q with
  | [] => 0
  | x :: q => if decide (x = i) then 1 else match turn i q with O => O | S k => S (S k) end
  end.

(** Steps left of the destruction of the client in the destroyer's hand: the [stop()] of
    the destroyer, and that of [~Impl()]. *)
Definition remaining (g : State) (j : nat) : nat :=
  let cost := stop_cost (encode_nat Destroyer) (impls g j) in
  match phases g j with
  | Stopping Destroyer => 7 + cost
  | Freeing Destroyer => cost
  | _ => 0
  end.

(** A bound of the steps the destroyer still needs until client [i] is released: 20 for
    each client up to [i] in the queue, and what is left of the one in hand. *)
Definition distance (g : State) (i : nat) : nat :=
  20 * turn i (pending_ g) +
  match destroyer g with Ready => 0 | Sleeping => 1 | Busy j => 1 + remaining g j end.

(** A callback of the client in the destroyer's hand calls [start()] or [stop()] of it. *)
Definition callback_calls (g g' : State) : Prop :=
  ∃ j w pc, destroyer g = Busy j ∧ (pc = StartEntry ∨ pc = StopEntry) ∧
    pcs (impls g j) (Worker w) = Idle ∧ g' = set_impl j (goto (Worker w) pc (impls g j)) g.

Lemma turn_absent i q : i ∉ q → turn i q = 0%nat.
Proof.
  induction q as [|x q IH]; [done|]. intros [Hx Hq]%not_elem_of_cons. cbn.
  rewrite decide_False by congruence. by rewrite IH.
Qed.

Lemma turn_range i q : i ∈ q → (0 < turn i q ≤ length q)%nat.
Proof.
  induction q as [|x q IH]; [by intros ?%elem_of_nil|]. cbn. case_decide as E; [cbn; lia|].
  intros [?|Hq]%elem_of_cons; [congruence|]. specialize (IH Hq). destruct (turn i q); lia.
Qed.

Lemma turn_app i q q' : i ∈ q → turn i (q ++ q') = turn i q.
Proof.
  induction q as [|x q IH]; [by intros ?%elem_of_nil|]. cbn. case_decide as E; [done|].
  intros [?|Hq]%elem_of_cons; [congruence|]. by rewrite IH.
Qed.

Lemma turn_next i x q : i ∈ x :: q → NoDup (x :: q) → turn i (x :: q) = S (turn i q).
Proof.
  intros Hi [Hx _]%NoDup_cons. cbn. case_decide as E; [subst; by rewrite turn_absent|].
  apply elem_of_cons in Hi as [?|Hi]; [congruence|]. pose proof (turn_range i q Hi).
  destruct (turn i q); [lia|done].
Qed.

Lemma worker_left_range s : (worker_left s ≤ 4)%nat.
Proof.
  unfold worker_left. destruct (active_worker_id_ s) as [w|]; [|lia].
  assert (own_left (pcs s (Worker w)) ≤ 2)%nat by (destruct (pcs s (Worker w)); cbn; lia).
  destruct (workers s w); lia.
Qed.

Lemma remaining_range g j : (remaining g j ≤ 17)%nat.
Proof.
  unfold remaining, stop_cost. pose proof (worker_left_range (impls g j)).
  assert (stop_left (pcs (impls g j) (User (encode_nat Destroyer))) ≤ 6)%nat
    by (destruct (pcs _ _); cbn; lia).
  destruct (phases g j) as [| | | | |[]|[]|]; lia.
Qed.

(** The client in the destroyer's hand. *)
Lemma busy_stopped g j :
  (∀ i, client_inv g i) → queue_inv g → destroyer g = Busy j →
  (phases g j = Stopping Destroyer ∨ phases g j = Freeing Destroyer) ∧
  Inv (impls g j) ∧ stopped_by (encode_nat Destroyer) (impls g j).
Proof.
  intros HC HQ Hb. apply (q_busy g HQ) in Hb.
  destruct (made_client g j (HC j)) as [Hr HP]; [by intros E; rewrite E in Hb|].
  apply reachable_inv in Hr.
  destruct (phases g j) as [| | | | |[]|[]|[]]; try done; cbn [phase_inv] in HP;
    destruct HP as (n & En & HS); cbn in En; injection En as <-; auto.
Qed.

Lemma distance_same g g' i :
  pending_ g' = pending_ g → destroyer g' = destroyer g →
  (∀ j, destroyer g = Busy j → phases g' j = phases g j ∧ impls g' j = impls g j) →
  (distance g' i ≤ distance g i)%nat.
Proof.
  intros Ep Ed Hj. unfold distance. rewrite Ep, Ed. destruct (destroyer g) as [| |j]; try lia.
  destruct (Hj j eq_refl) as [E1 E2]. unfold remaining. rewrite E1, E2. lia.
Qed.

(** The client in hand changes, and stays in hand. *)
Lemma distance_impl g i j s :
  (∀ i, client_inv g i) → queue_inv g → destroyer g = Busy j →
  (distance (set_impl j s g) i + stop_cost (encode_nat Destroyer) (impls g j) =
   distance g i + stop_cost (encode_nat Destroyer) s)%nat.
Proof.
  intros HC HQ Hb. destruct (busy_stopped g j HC HQ Hb) as (Hp & _).
  unfold distance, remaining. cbn [set_impl destroyer pending_ phases impls update_field].
  change (destroyer (set_impl j s g)) with (destroyer g).
  change (phases (set_impl j s g)) with (phases g).
  change (impls (set_impl j s g)) with (<[j := s]> (impls g)).
  rewrite Hb, fn_lookup_insert. destruct Hp as [-> | ->]; lia.
Qed.

Lemma distance_client g g' i :
  (∀ i, client_inv g i) → queue_inv g → client_step g g' →
  (distance g' i ≤ distance g i ∨
   callback_calls g g' ∧ distance g' i ≤ distance g i + 2)%nat.
Proof.
  intros HC HQ Hs.
  assert (∀ k s, destroyer g ≠ Busy k → distance (set_impl k s g) i ≤ distance g i)%nat as Hother.
  { intros k s Hk. apply distance_same; try done. intros j Hj. split; [done|].
    change (impls (set_impl k s g)) with (<[k := s]> (impls g)).
    rewrite fn_lookup_insert_ne; [done|congruence]. }
  assert (∀ k, (phases g k = Unmade ∨ phases g k = Alive) → destroyer g ≠ Busy k) as Hnot.
  { intros k Hk Hb. destruct (busy_stopped g k HC HQ Hb) as [[] _]; destruct Hk; congruence. }
  destruct Hs as [g k Hp|g k s Hp Hs|g k t w pc Hp Ht Hi Hm Hpc|g k l s Hp Hl Hs Hg].
  - left. apply distance_same; try done. intros j Hj.
    assert (j ≠ k) by (intros ->; apply (Hnot k); auto).
    change (impls (set_impl k initial (set_phase k Alive g))) with (<[k := initial]> (impls g)).
    change (phases (set_impl k initial (set_phase k Alive g))) with (<[k := Alive]> (phases g)).
    by rewrite !fn_lookup_insert_ne by done.
  - left. auto.
  - destruct (decide (destroyer g = Busy k)) as [Hb|]; [right|left; auto]. split.
    { exists k, w, pc. auto. }
    destruct (busy_stopped g k HC HQ Hb) as (_ & HI & HS).
    pose proof (distance_impl g i k (goto (Worker w) pc (impls g k)) HC HQ Hb) as E.
    enough (stop_cost (encode_nat Destroyer) (goto (Worker w) pc (impls g k)) ≤
            stop_cost (encode_nat Destroyer) (impls g k) + 2)%nat by lia.
    unfold stop_cost, worker_left. rewrite pcs_goto, decide_False by done.
    change (active_worker_id_ (goto (Worker w) pc (impls g k))) with (active_worker_id_ (impls g k)).
    change (workers (goto (Worker w) pc (impls g k))) with (workers (impls g k)).
    destruct (active_worker_id_ (impls g k)) as [v|]; [|lia]. rewrite pcs_goto.
    case_decide as Ev; [|lia]. injection Ev as ->. destruct Hpc as [-> | ->]; cbn; lia.
  - left. destruct (decide (destroyer g = Busy k)) as [Hb|]; [|auto].
    destruct (busy_stopped g k HC HQ Hb) as (_ & HI & HS).
    pose proof (distance_impl g i k s HC HQ Hb).
    pose proof (cost_step _ l _ s HI HS Hs Hl). lia.
Qed.

(** A step that moves another client into the phase [p]. *)
Lemma distance_phase g g' i k p :
  (∀ i, client_inv g i) → queue_inv g → pending_ g' = pending_ g → destroyer g' = destroyer g →
  phases g' = <[k := p]> (phases g) → (∀ j, j ≠ k → impls g' j = impls g j) →
  phases g k ≠ Stopping Destroyer → phases g k ≠ Freeing Destroyer →
  (distance g' i ≤ distance g i)%nat.
Proof.
  intros HC HQ Ep Ed Eph Ei H1 H2. apply distance_same; try done. intros j Hb.
  destruct (busy_stopped g j HC HQ Hb) as [Hj _].
  assert (j ≠ k) as Hne by (intros ->; by destruct Hj).
  by rewrite Eph, fn_lookup_insert_ne, Ei.
Qed.

Lemma impls_call_stop i t g p j :
  j ≠ i → impls (call_stop_of i t (set_phase i p g)) j = impls g j.
Proof. intros. unfold call_stop_of, set_impl. cbn. by rewrite fn_lookup_insert_ne. Qed.

(** The destroyer goes on to [~Impl()]. *)
Lemma distance_destroy_impl g i j :
  (∀ i, client_inv g i) → queue_inv g → phases g j = Stopping Destroyer → returned j Destroyer g →
  (distance (call_stop_of j Destroyer (set_phase j (Freeing Destroyer) g)) i < distance g i)%nat.
Proof.
  intros HC HQ Hp Hr. assert (destroyer g = Busy j) as Hb by (apply (q_busy g HQ); by rewrite Hp).
  unfold returned in Hr. change (seen_by j Destroyer) with (User (encode_nat Destroyer)) in Hr.
  unfold distance, remaining.
  change (destroyer (call_stop_of _ _ _)) with (destroyer g).
  change (pending_ (call_stop_of _ _ _)) with (pending_ g). rewrite Hb, Hp.
  unfold call_stop_of, set_impl, set_phase. cbn -[turn stop_cost].
  rewrite !fn_lookup_insert. unfold stop_cost. rewrite pcs_goto, decide_True, Hr by done.
  assert (worker_left (goto (User (encode_nat Destroyer)) StopEntry (impls g j)) =
          worker_left (impls g j)) as ->.
  { unfold worker_left. cbn. destruct (active_worker_id_ (impls g j)); [|done].
    by rewrite fn_lookup_insert_ne. }
  cbn. lia.
Qed.

Lemma distance_free g i j :
  queue_inv g → phases g j = Freeing Destroyer →
  (distance (free j Destroyer g) i < distance g i)%nat.
Proof.
  intros HQ Hp. assert (destroyer g = Busy j) as Hb by (apply (q_busy g HQ); by rewrite Hp).
  unfold distance. cbn. rewrite Hb. lia.
Qed.

Lemma distance_destroy g g' i :
  (∀ i, client_inv g i) → queue_inv g → i ∈ enqueued g → destroy_step g g' →
  (distance g' i ≤ distance g i)%nat.
Proof.
  intros HC HQ Hi Hs. destruct Hs as [g k t Hp Hr Hret Ho|g k t Hp Hm Hown|g k t Hp Hm Hown
    |g k t Hp Hret|g k t Hp Hret|g k t Hp Hret].
  - by eapply distance_phase; try done; rewrite Hp.
  - by eapply distance_phase; try done; [apply impls_call_stop|rewrite Hp..].
  - by eapply distance_phase; try done; [apply impls_call_stop|rewrite Hp..].
  - assert (k ∉ enqueued g) as Hk.
    { rewrite (q_fifo g HQ). intros [[?|?]%(q_taken g HQ)|?%(q_pending g HQ)]%elem_of_app;
        by rewrite Hp in *. }
    assert (turn i (pending_ g ++ [k]) = turn i (pending_ g)) as E.
    { destruct (decide (i ∈ pending_ g)) as [|Hn]; [by apply turn_app|].
      rewrite !turn_absent; [done|done|]. intros [|E%list_elem_of_singleton]%elem_of_app; congruence. }
    etrans; [|apply (distance_phase g (set_phase k Queued g) i k Queued); try done; by rewrite Hp].
    unfold distance. cbn. rewrite E. done.
  - destruct (decide (t = Destroyer)) as [->|Ht]; [by apply Nat.lt_le_incl, distance_destroy_impl|].
    eapply distance_phase; try done; [apply impls_call_stop|rewrite Hp; congruence..].
  - destruct (decide (t = Destroyer)) as [->|Ht]; [by apply Nat.lt_le_incl, distance_free|].
    apply (distance_phase g _ i k (Freed t)); try (by destruct t); rewrite Hp; congruence.
Qed.

Lemma distance_take g i j rest :
  queue_inv g → i ∈ pending_ g → destroyer g = Ready → pending_ g = j :: rest →
  (distance (take j rest g) i < distance g i)%nat.
Proof.
  intros HQ Hi Hd Hq. pose proof (remaining_range (take j rest g) j).
  pose proof (q_once g HQ) as Hn. rewrite (q_fifo g HQ), Hq in Hn. apply NoDup_app in Hn as (_ & _ & Hn).
  unfold distance. change (destroyer (take j rest g)) with (Busy j).
  change (pending_ (take j rest g)) with rest. rewrite Hd, Hq, turn_next; [lia|congruence|done].
Qed.

Lemma distance_deferred g g' i :
  queue_inv g → i ∈ enqueued g → phases g i ≠ Freed Destroyer → deferred_step g g' →
  (distance g' i ≤ distance g i)%nat.
Proof.
  intros HQ Hi Hf Hs. pose proof (deferred_where g i HQ Hi Hf) as Hw.
  destruct Hs as [g t rest Hn|g j rest Hd Hq|g Hd Hq|g Hd].
  - unfold distance, remaining. cbn. destruct (destroyer g); cbn; lia.
  - destruct Hw as [Hw|]; [|congruence]. by apply Nat.lt_le_incl, distance_take.
  - destruct Hw as [Hw|]; [|congruence]. rewrite Hq in Hw. by apply elem_of_nil in Hw.
  - unfold distance. cbn. rewrite Hd. lia.
Qed.

(** ** A run: a callback destroys its client *)

(** Client 0 after a change of its life cycle. *)
Definition with_client (f : Lifecycle.State → Lifecycle.State) (g : State) : State :=
  set_impl 0 (f (impls g 0%nat)) g.

(** The program makes the client and starts it. *)
Definition working : State :=
  let t := User 0 in
  with_client (λ s, notify_all (goto t Idle (unlock (create 0 s))))
    (with_client (start_wait t) (with_client (goto t StartWait)
      (with_client (λ s, goto t StartHeld (lock t s)) (with_client (goto t StartEntry)
        (set_impl 0 initial (set_phase 0 Alive start_state)))))).

(** The callback destroys it: it stops itself and hands the client over. *)
Definition handed_over : State :=
  let t := Worker 0 in
  enqueue 0 (WorkerOf 0 0) (with_client (λ s, goto t Idle (unlock s))
    (with_client (λ s, notify_all (goto t StopHeld (lock t (s <| stopping_ := true |>))))
      (call_stop_of 0 (WorkerOf 0 0) (set_phase 0 (SelfStop (WorkerOf 0 0))
        (set_phase 0 (Deciding (WorkerOf 0 0)) working))))).

(** The destroyer takes it, the worker ends, and the destroyer joins it. *)
Definition joined : State :=
  let t := User (encode_nat Destroyer) in
  with_client (λ s, notify_all (goto t Idle s)) (with_client (λ s, goto t StopNotify (reaped s))
    (with_client (goto t StopJoined) (with_client (λ s, goto t (StopJoin 0) (unlock (reap s)))
      (with_client (goto t StopReady)
        (with_client (λ s, notify_all (goto t StopHeld (lock t (s <| stopping_ := true |>))))
          (with_client (λ s, notify_all (s <| workers ::= <[0%nat := Gone]> |>))
            (with_client (λ s, s <| workers ::= <[0%nat := Exited]> |> <| worker_exited_ := true |>)
              (take 0 [] (notify_one (WorkerOf 0 0) [] handed_over))))))))).

(** The destructor of the [Impl] stops once more, and the storage is released. *)
Definition released : State :=
  let t := User (encode_nat Destroyer) in
  free 0 Destroyer (with_client (λ s, goto t Idle (unlock s)) (with_client (goto t StopReady)
    (with_client (λ s, notify_all (goto t StopHeld (lock t (s <| stopping_ := true |>))))
      (call_stop_of 0 Destroyer (set_phase 0 (Freeing Destroyer) joined))))).

Lemma occurs_step g g' : occurs g → system_step g g' → occurs g'.
Proof. intros. by eapply rtc_r. Qed.

Definition by_destroyer_or_alive (p : Phase) : bool :=
  match p with Alive | Stopping Destroyer | Freeing Destroyer => true | _ => false end.

(** No worker is inside a destructor. *)
Lemma no_worker_engaged g i w :
  notifying g = [] → (∀ j, phases g (S j) = Unmade) → by_destroyer_or_alive (phases g 0%nat) = true →
  ¬ engaged g (WorkerOf i w).
Proof.
  intros Hn Hu H0 [H|[[|j] H]]; [by rewrite Hn in H; apply not_elem_of_nil in H| |].
  - destruct (phases g 0%nat) as [| | | | |[]|[]|]; try done; set_solver.
  - rewrite Hu in H. set_solver.
Qed.

(** [stop()] goes on also when the caller's thread is inside a destructor. *)
Lemma client_stops g i s : phases g i ≠ Unmade → stop_step (impls g i) s → client_step g (set_impl i s g).
Proof.
  intros Hp Hs. apply (client_goes_on g i Internal); [done|done|by apply by_stop|].
  intros w _. by destruct Hs.
Qed.

(** One step of client 0 by the given rule. *)
Ltac starts rule :=
  eapply occurs_step;
    [|apply by_client, (client_goes_on _ 0 Internal);
      [discriminate|discriminate|apply by_start; eapply rule; vm_compute; reflexivity|
       intros w Hw; exfalso; revert Hw; by apply no_worker_engaged]].
Ltac stops rule :=
  eapply occurs_step;
    [|apply by_client, (client_stops _ 0);
      [discriminate|eapply rule; vm_compute; reflexivity]].
Ltac works rule :=
  eapply occurs_step;
    [|apply by_client, (client_goes_on _ 0 Internal);
      [discriminate|discriminate|
       apply by_worker, (rule _ 0%nat); first [left; vm_compute; reflexivity | vm_compute; reflexivity]|
       intros w Hw; exfalso; revert Hw; by apply no_worker_engaged]].
Ltac destructs rule := eapply occurs_step; [|apply by_destructor, rule; try (vm_compute; reflexivity)].

Lemma working_occurs : occurs working.
Proof.
  unfold working. starts start_create. starts start_waits.
  starts start_other. starts start_lock.
  eapply occurs_step; [|apply by_client, use_client; [reflexivity|by apply call_start]].
  eapply occurs_step; [|by apply by_client, make_client]. apply rtc_refl.
Qed.

Lemma handed_over_occurs : occurs handed_over.
Proof.
  unfold handed_over. destructs hand_over. stops stop_self. stops stop_lock.
  destructs on_own_worker. destructs begin_destruction; [|by intros [|n]].
  apply working_occurs.
Qed.

Lemma joined_occurs : occurs joined.
Proof.
  unfold joined. stops stop_notify. stops stop_joined.
  stops stop_join. stops stop_reap. stops stop_other.
  stops stop_lock.
  works worker_notifies. works worker_exits.
  eapply occurs_step; [|by apply by_destroyer, destroyer_takes].
  eapply occurs_step; [|by apply by_destroyer, enqueue_notifies]. apply handed_over_occurs.
Qed.

Lemma released_occurs : occurs released.
Proof.
  unfold released. destructs free_impl. stops stop_idle. stops stop_other.
  stops stop_lock. destructs destroy_impl. apply joined_occurs.
Qed.

(** ** Properties *)

(** C16: A client is freed only when nothing is left of it, and never by its own worker: in
    every reachable state in which thread [t] has freed client [i], [t] is not a worker
    of [i], no thread is inside a call on it, its last worker has been joined, and no
    step of it is left that could touch the storage. *)
Theorem freed_client_is_quiet g i t :
  occurs g → phases g i = Freed t →
  (∀ w, t ≠ WorkerOf i w) ∧ quiet (impls g i) ∧ ∀ l s, step l (impls g i) s → l = Call.
Proof.
  intros [HC _]%occurs_inv Hp. destruct (made_client g i (HC i)) as [_ HP]; [by rewrite Hp|].
  rewrite Hp in HP. destruct HP as [Ht Hq]. split_and!; eauto using quiet_ends.
Qed.

(** The destroyer serves clients in the order in which their callbacks handed them
    over, each exactly once and one at a time: what was enqueued is what was taken
    followed by what is pending, without repetition, and every client taken has been
    freed but the last, while the destroyer is busy with it. *)
Theorem deferred_in_order g :
  occurs g →
  enqueued g = taken g ++ pending_ g ∧ NoDup (enqueued g) ∧
  (∀ i, i ∈ pending_ g → phases g i = Queued) ∧
  ∀ i, i ∈ taken g →
    phases g i = Freed Destroyer ∨ destroyer g = Busy i ∧ last (taken g) = Some i.
Proof.
  intros [_ HQ]%occurs_inv. split_and!; [apply HQ|apply HQ| |].
  - intros i Hi%(q_pending g HQ). by apply place_queued.
  - intros i [Hi%(q_busy g HQ)|Hi%place_done]%(q_taken g HQ); [|by left].
    right. split; [done|by apply (q_last g HQ)].
Qed.

(** The destroyer or the client in its hand takes a step towards the release of [i]. *)
Lemma distance_falls g i :
  (∀ i, client_inv g i) → queue_inv g → i ∈ enqueued g → phases g i ≠ Freed Destroyer →
  (∀ j w, destroyer g = Busy j → ¬ engaged g (WorkerOf j w)) →
  ∃ g', system_step g g' ∧ (distance g' i < distance g i)%nat.
Proof.
  intros HC HQ Hi Hf He. pose proof (deferred_where g i HQ Hi Hf) as Hw.
  destruct (destroyer g) as [| |j] eqn:Hd.
  - destruct Hw as [Hp|?]; [|congruence].
    destruct (pending_ g) as [|j rest] eqn:Hq; [by apply elem_of_nil in Hp|].
    exists (take j rest g). split; [by apply by_destroyer, destroyer_takes|].
    apply distance_take; try done. by rewrite Hq.
  - destruct Hw as [Hp|?]; [|congruence]. destruct (notifying g) as [|t rest] eqn:Hn.
    { destruct (q_wake g HQ Hd); [|done]. intros E. rewrite E in Hp. by apply elem_of_nil in Hp. }
    exists (notify_one t rest g). split; [apply by_destroyer, enqueue_notifies; by rewrite Hn|].
    unfold distance. cbn. rewrite Hd. cbn. lia.
  - destruct (busy_stopped g j HC HQ Hd) as (Hp & HI & HS).
    destruct (decide (pcs (impls g j) (User (encode_nat Destroyer)) = Idle)) as [Hr|Hr].
    + destruct Hp as [Hp|Hp]; eexists; (split; [apply by_destructor|]).
      * by apply (destroy_impl g j Destroyer).
      * by apply distance_destroy_impl.
      * by apply (free_impl g j Destroyer).
      * by apply distance_free.
    + destruct (stopper_advances _ _ HI HS Hr) as [s Hs]. exists (set_impl j s g). split.
      * apply by_client, (client_goes_on g j Internal); [by destruct Hp as [-> | ->]|done| |].
        -- by apply advances_internal.
        -- intros w Hw'. by destruct (He j w eq_refl).
      * pose proof (distance_impl g i j s HC HQ Hd). pose proof (advances_cost _ _ _ HI HS Hs). lia.
Qed.


(** ** The run meets the hypotheses *)

Lemma freed_client_is_quiet_witness :
  phases released 0%nat = Freed Destroyer ∧ quiet (impls released 0%nat).
Proof.
  split; [reflexivity|].
  apply (freed_client_is_quiet released 0 Destroyer); [apply released_occurs|reflexivity].
Defined.

Lemma deferred_in_order_witness : taken joined = [0%nat] ∧ NoDup (enqueued joined).
Proof. split; [reflexivity|]. apply (deferred_in_order joined), joined_occurs. Defined.


End Handle.
