(* ===== verification/LockOrder.v ===== *)
(** * Threads that acquire locks in order

    A small language for the synchronisation of a thread: what it locks, unlocks and waits
    for, with every choice and loop left open. What one thread owes to another (a flag it
    will clear, an event it will set, its own end) is a lock that it holds meanwhile, and
    that others [Await]. [check] walks through a program with the locks held. Threads whose
    programs pass it never deadlock, and the locks that are not patient are never held by a
    thread that waits ([blocked_chain]). [inst] makes the program of one object from the
    program of a class, and [check_inst] and [check_frame] say that its check carries over.
    [Locks] has the programs of the client. *)

From Stdlib Require Import Lia.
From stdpp Require Import list relations.
From S2P Require Import Prelude.

Module LockOrder.

(** The locks, the strict order in which they are taken, and which of them may be held during
    an indefinite wait. *)
Class Order (Lock : Type) := {
  lock_eq_dec :: EqDecision Lock;
  below : Lock → Lock → bool;
  below_irrefl : ∀ l, below l l = false;
  below_trans : ∀ x y z, below x y = true → below y z = true → below x z = true;
  patient : Lock → bool
}.

Inductive Code {Lock : Type} :=
  | Skip
  | Acq (l : Lock)
  | Rel (l : Lock)
  | Try (l : Lock) (a b : Code)     (* takes the lock if it is free: [a], else [b] *)
  | Await (l : Lock)                (* until nobody holds it *)
  | Wait                            (* for a socket, another process, a timeout *)
  | Seq (a b : Code)
  | Alt (a b : Code)
  | Loop (a : Code)                 (* any number of times *)
  | Others (h : list Lock).         (* code of other objects, called with [h] held *)
Arguments Code : clear implicits.

Section LockOrder.
Context {Lock : Type} `{!Order Lock}.
Abbreviation Code := (Code Lock).

Record Thread := { code : list Code; held : list Lock }.

(** A lock can be acquired when no thread holds it. *)
Definition held_by (l : Lock) (t : Thread) : bool := bool_decide (l ∈ held t).
Definition taken (l : Lock) (ts : list Thread) : bool := existsb (held_by l) ts.

Inductive thread_step (ts : list Thread) : Thread → Thread → Prop :=
  | do_skip k h : thread_step ts {| code := Skip :: k; held := h |} {| code := k; held := h |}
  | do_wait k h : thread_step ts {| code := Wait :: k; held := h |} {| code := k; held := h |}
  | do_others h0 k h :
      thread_step ts {| code := Others h0 :: k; held := h |} {| code := k; held := h |}
  | do_seq a b k h :
      thread_step ts {| code := Seq a b :: k; held := h |} {| code := a :: b :: k; held := h |}
  | do_left a b k h :
      thread_step ts {| code := Alt a b :: k; held := h |} {| code := a :: k; held := h |}
  | do_right a b k h :
      thread_step ts {| code := Alt a b :: k; held := h |} {| code := b :: k; held := h |}
  | do_exit a k h : thread_step ts {| code := Loop a :: k; held := h |} {| code := k; held := h |}
  | do_again a k h :
      thread_step ts {| code := Loop a :: k; held := h |} {| code := a :: Loop a :: k; held := h |}
  | do_acquire l k h : taken l ts = false →
      thread_step ts {| code := Acq l :: k; held := h |} {| code := k; held := l :: h |}
  | do_await l k h : taken l ts = false →
      thread_step ts {| code := Await l :: k; held := h |} {| code := k; held := h |}
  | do_take l a b k h : taken l ts = false →
      thread_step ts {| code := Try l a b :: k; held := h |} {| code := a :: k; held := l :: h |}
  | do_refuse l a b k h : taken l ts = true →
      thread_step ts {| code := Try l a b :: k; held := h |} {| code := b :: k; held := h |}
  | do_release l k h : l ∈ h →
      thread_step ts {| code := Rel l :: k; held := h |}
        {| code := k; held := filter (.≠ l) h |}.

Inductive step : list Thread → list Thread → Prop :=
  | by_thread ts i t t' : ts !! i = Some t → thread_step ts t t' → step ts (<[i := t']> ts).

(** ** The check *)

Definition may_acquire (l : Lock) (h : list Lock) : bool :=
  forallb (λ x, below x l && (patient x || negb (patient l))) h.

Fixpoint check (h : list Lock) (c : Code) : option (list Lock) :=
  match c with
  | Skip => Some h
  | Acq l => if may_acquire l h then Some (l :: h) else None
  | Await l => if may_acquire l h then Some h else None
  | Try l a b =>
      h1 ← check (l :: h) a; h2 ← check h b; if bool_decide (h1 = h2) then Some h1 else None
  | Rel l => if bool_decide (l ∈ h) then Some (filter (.≠ l) h) else None
  | Wait => if forallb patient h then Some h else None
  | Seq a b => h' ← check h a; check h' b
  | Alt a b => h1 ← check h a; h2 ← check h b; if bool_decide (h1 = h2) then Some h1 else None
  | Loop a => h' ← check h a; if bool_decide (h' = h) then Some h else None
  | Others h0 => if bool_decide (h0 = h) then Some h else None
  end.

Fixpoint check_all (h : list Lock) (k : list Code) : option (list Lock) :=
  match k with
  | [] => Some h
  | c :: k => h' ← check h c; check_all h' k
  end.

(** A thread that ends with nothing held. *)
Definition ordered (t : Thread) : Prop := check_all (held t) (code t) = Some [].

Definition spawn (c : Code) : Thread := {| code := [c]; held := [] |}.

(** Every thread is ordered, and no lock is held twice. *)
Record Inv (ts : list Thread) : Prop := {
  i_ordered : ∀ i t, ts !! i = Some t → ordered t;
  i_owner : ∀ i j t u l, ts !! i = Some t → ts !! j = Some u → l ∈ held t → l ∈ held u → i = j
}.

(** A program that leaves the locks as it found them. *)
Definition neutral (h : list Lock) (c : Code) : Prop := check h c = Some h.

Lemma check_both (o1 o2 : option (list Lock)) h' :
  (h1 ← o1; h2 ← o2; if bool_decide (h1 = h2) then Some h1 else None) = Some h' ↔
  o1 = Some h' ∧ o2 = Some h'.
Proof. destruct o1, o2; cbn; try naive_solver. case_bool_decide; naive_solver. Qed.

Lemma check_loop (o : option (list Lock)) h h' :
  (h1 ← o; if bool_decide (h1 = h) then Some h else None) = Some h' ↔ o = Some h ∧ h' = h.
Proof. destruct o; cbn; [|naive_solver]. case_bool_decide; naive_solver. Qed.

Lemma check_if (b : bool) (h h' : list Lock) :
  (if b then Some h else None) = Some h' ↔ b = true ∧ h' = h.
Proof. destruct b; naive_solver. Qed.

Lemma neutral_alt h a b : neutral h a → neutral h b → neutral h (Alt a b).
Proof. intros. apply check_both. auto. Qed.

Lemma neutral_loop h a : neutral h a → neutral h (Loop a).
Proof. intros. apply check_loop. auto. Qed.

Lemma neutral_alts h c cs : neutral h c → Forall (neutral h) cs → neutral h (foldr Alt c cs).
Proof. intros Hc. induction 1; cbn; auto using neutral_alt. Qed.

Lemma taken_spec l ts : taken l ts = true ↔ ∃ i t, ts !! i = Some t ∧ l ∈ held t.
Proof.
  unfold taken. rewrite existsb_exists. setoid_rewrite <- list_elem_of_In. split.
  - intros (t & [i Hi]%list_elem_of_lookup & Ht). exists i, t. split; [done|]. by apply bool_decide_eq_true in Ht.
  - intros (i & t & Hi & Ht). exists t. split; [by eapply list_elem_of_lookup_2|].
    by apply bool_decide_eq_true.
Qed.

Lemma step_ordered ts t t' : thread_step ts t t' → ordered t → ordered t'.
Proof.
  unfold ordered. intros Hs. destruct Hs; cbn [held code check_all check]; intros H0;
    apply bind_Some in H0 as (h' & Hc & H0); rewrite ?check_both, ?check_loop, ?check_if in Hc.
  all: destruct_and?; simplify_eq; auto.
  - apply bind_Some in Hc as (h1 & H1 & H2). rewrite H1. cbn. by rewrite H2.
  - by match goal with H : check _ _ = _ |- _ => rewrite H end.
  - by match goal with H : check _ b = _ |- _ => rewrite H end.
  - match goal with H : check _ _ = _ |- _ => rewrite H end. cbn.
    match goal with H : check _ _ = _ |- _ => rewrite H end. cbn. by rewrite bool_decide_eq_true_2.
  - by match goal with H : check (_ :: _) _ = _ |- _ => rewrite H end.
  - by match goal with H : check _ b = _ |- _ => rewrite H end.
Qed.

Lemma step_held ts t t' l :
  thread_step ts t t' → l ∈ held t' → l ∈ held t ∨ taken l ts = false.
Proof.
  intros Hs. destruct Hs; cbn; auto.
  - rewrite elem_of_cons. naive_solver.
  - rewrite elem_of_cons. naive_solver.
  - rewrite list_elem_of_filter. naive_solver.
Qed.

Lemma step_inv ts ts' : step ts ts' → Inv ts → Inv ts'.
Proof.
  intros [ts0 i t t' Hi Hs] [Ho Hu]. rename ts0 into us.
  assert (∀ j u, <[i:=t']> us !! j = Some u → j = i ∧ u = t' ∨ j ≠ i ∧ us !! j = Some u) as Hl.
  { intros j u. destruct (decide (j = i)) as [->|Hne].
    - rewrite list_lookup_insert_eq by (by eapply lookup_lt_Some). intros [= <-]. by left.
    - rewrite list_lookup_insert_ne by done. by right. }
  assert (∀ j u l, us !! j = Some u → l ∈ held u → l ∈ held t' → j = i) as Hc.
  { intros j u l Hj Hlu Hlt. destruct (step_held _ _ _ _ Hs Hlt) as [H|H]; [by eapply Hu|].
    destruct (taken l us) eqn:E; [done|]. exfalso.
    assert (taken l us = true) by (apply taken_spec; eauto). congruence. }
  split.
  - intros j u [[-> ->]|[_ Hj]]%Hl; [|by eapply Ho]. by eapply step_ordered, Ho.
  - intros j k u v l [[-> ->]|[Hj1 Hj]]%Hl [[-> ->]|[Hk1 Hk]]%Hl Hlu Hlv; try done.
    + symmetry. by eapply Hc.
    + by eapply Hc.
    + by eapply Hu.
Qed.

Lemma steps_inv ts ts' : rtc step ts ts' → Inv ts → Inv ts'.
Proof. induction 1; eauto using step_inv. Qed.

Lemma spawn_inv cs : Forall (λ c, check [] c = Some []) cs → Inv (spawn <$> cs).
Proof.
  intros Hc. split.
  - intros i t (c & -> & Hi)%list_lookup_fmap_Some. unfold ordered. cbn.
    eapply Forall_lookup_1 in Hc; [|done]. by rewrite Hc.
  - intros i j t u l (c & -> & _)%list_lookup_fmap_Some. cbn. set_solver.
Qed.

(** ** Progress *)

(** The thread has steps left, and one of them is possible now. *)
Definition live (ts : list Thread) (i : nat) : Prop :=
  ∃ t t', ts !! i = Some t ∧ thread_step ts t t'.
Definition next (ts : list Thread) (i : nat) : option Code := t ← ts !! i; head (code t).
Definition holds (ts : list Thread) (i : nat) (l : Lock) : Prop :=
  ∃ t, ts !! i = Some t ∧ l ∈ held t.

(** The lock at which a thread may have to stop, and who is waiting for whom. *)
Definition blocks_on (c : Code) : option Lock :=
  match c with Acq l | Await l => Some l | _ => None end.
Definition waits_for (ts : list Thread) (i j : nat) : Prop :=
  ∃ c l, next ts i = Some c ∧ blocks_on c = Some l ∧ holds ts j l.

(** A thread that cannot go on is at a lock that somebody holds. *)
Lemma live_or_blocked ts i c :
  Inv ts → next ts i = Some c → live ts i ∨ ∃ l j, blocks_on c = Some l ∧ holds ts j l.
Proof.
  intros [Ho _]. unfold next, live, holds. destruct (ts !! i) as [[k h]|] eqn:Hi; [|done].
  specialize (Ho i _ Hi). destruct k as [|c' k]; [done|]. cbn. intros [= ->].
  destruct c as [|l|l|l a b|l| |a b|a b|a|h0];
    try (left; do 2 eexists; split; [done|constructor; done]).
  - destruct (taken l ts) eqn:E; [right|left].
    + apply taken_spec in E as (j & t & Hj & Hl). eauto 6.
    + do 2 eexists. split; [done|by constructor].
  - left. do 2 eexists. split; [done|]. constructor. unfold ordered in Ho. cbn in Ho.
    by case_bool_decide.
  - left. destruct (taken l ts) eqn:E; do 2 eexists; (split; [done|by constructor]).
  - destruct (taken l ts) eqn:E; [right|left].
    + apply taken_spec in E as (j & t & Hj & Hl). eauto 6.
    + do 2 eexists. split; [done|by constructor].
Qed.

(** Whoever holds a lock has something left to do; a lock it may have to stop at is higher,
    and who holds an impatient lock neither waits nor stops at a patient one. *)
Lemma holder_next ts i l :
  Inv ts → holds ts i l →
  ∃ c, next ts i = Some c ∧ (patient l = false → c ≠ Wait) ∧
    ∀ l', blocks_on c = Some l' →
      below l l' = true ∧ (patient l = false → patient l' = false).
Proof.
  intros [Ho _] (t & Hi & Hl). specialize (Ho i t Hi). destruct t as [k h]. cbn in *.
  unfold next. rewrite Hi. cbn. unfold ordered in Ho. cbn in Ho.
  destruct k as [|c k]; [cbn in Ho; simplify_eq; by apply not_elem_of_nil in Hl|].
  exists c. split; [done|]. cbn in Ho. apply bind_Some in Ho as (h' & Hc & _). split.
  - intros Hp ->. cbn in Hc. apply check_if in Hc as [E _].
    rewrite forallb_forall in E. rewrite (E l) in Hp; [done|by apply list_elem_of_In].
  - intros l' Hb. assert (may_acquire l' h = true) as E.
    { destruct c; try done; cbn in Hb, Hc; simplify_eq; by apply check_if in Hc as [? _]. }
    unfold may_acquire in E. rewrite forallb_forall in E.
    specialize (E l ltac:(by apply list_elem_of_In)). apply andb_prop in E as [E1 E2].
    split; [done|]. intros Hp. rewrite Hp in E2. by destruct (patient l').
Qed.

(** The locks above [l] that are held: fewer for a higher lock. *)
Definition above (l : Lock) (ts : list Thread) : list Lock :=
  filter (λ x, below l x = true) (ts ≫= held).

Lemma above_decreases ts i l l' :
  holds ts i l' → below l l' = true → (length (above l' ts) < length (above l ts))%nat.
Proof.
  intros (t & Hi & Hl) Hb. unfold above.
  assert (l' ∈ ts ≫= held) as Hin by (apply list_elem_of_bind; eauto using list_elem_of_lookup_2).
  clear Hi Hl. induction (ts ≫= held) as [|x xs IH]; [by apply not_elem_of_nil in Hin|].
  assert (length (filter (λ x, below l' x = true) xs) ≤ length (filter (λ x, below l x = true) xs))%nat as Hle.
  { clear IH Hin. induction xs as [|y ys IH]; [done|]. rewrite !filter_cons.
    destruct (decide (below l' y = true)) as [Hy|Hy]; destruct (decide (below l y = true)) as [Hz|Hz];
      cbn; try lia. by destruct Hz; eapply below_trans. }
  rewrite !filter_cons. apply elem_of_cons in Hin as [<-|Hin].
  - rewrite decide_False by (by rewrite below_irrefl). rewrite decide_True by done. cbn. lia.
  - specialize (IH Hin).
    destruct (decide (below l' x = true)) as [Hy|Hy]; destruct (decide (below l x = true)) as [Hz|Hz];
      cbn; try lia. by destruct Hz; eapply below_trans.
Qed.

(** Who is blocked on a lock waits, through a chain of holders, for a thread that can go
    on; and if the lock is not patient, for one that is not at a wait. *)
Lemma blocked_chain ts i c l :
  Inv ts → next ts i = Some c → blocks_on c = Some l →
  ∃ j, rtc (waits_for ts) i j ∧ live ts j ∧
    (patient l = false → next ts j ≠ Some Wait).
Proof.
  intros HI. assert (∃ n, n = length (above l ts)) as [n Hn] by eauto.
  revert i c l Hn. induction n as [n IH] using lt_wf_ind. intros i c l Hn Hi Hb.
  destruct (live_or_blocked ts i _ HI Hi) as [Hl|(l0 & j & Hb0 & Hj)].
  { exists i. split; [constructor|]. split; [done|]. intros _ Hw.
    rewrite Hi in Hw. by simplify_eq. }
  rewrite Hb in Hb0. simplify_eq.
  destruct (holder_next ts j l0 HI Hj) as (c' & Hc & Hw & Ha).
  assert (waits_for ts i j) as Hij by (by exists c, l0).
  destruct (live_or_blocked ts j c' HI Hc) as [Hl|(l' & j' & Hb' & Hj')].
  { exists j. split; [by apply rtc_once|]. split; [done|]. intros Hp. rewrite Hc. naive_solver. }
  destruct (Ha l' Hb') as [Hr Hp].
  destruct (IH (length (above l' ts)) ltac:(subst; by eapply above_decreases) j c' l' eq_refl Hc Hb')
    as (k & Hk & Hlive & Hwk).
  exists k. split; [by eapply rtc_l|]. split; [done|]. eauto.
Qed.

(** ** A scheduler *)

(** The step of thread [i], which goes left, or round the loop again, when [b]. *)
Definition thread_move (b : bool) (ts : list Thread) (t : Thread) : option Thread :=
  match code t with
  | [] => None
  | c :: k =>
      let goto c' := Some {| code := c' ++ k; held := held t |} in
      match c with
      | Skip | Wait | Others _ => goto []
      | Seq x y => goto [x; y]
      | Alt x y => goto [if b then x else y]
      | Loop x => goto (if b then [x; Loop x] else [])
      | Acq l => if taken l ts then None else Some {| code := k; held := l :: held t |}
      | Await l => if taken l ts then None else goto []
      | Try l x y => if taken l ts then goto [y] else Some {| code := x :: k; held := l :: held t |}
      | Rel l =>
          if bool_decide (l ∈ held t) then Some {| code := k; held := filter (.≠ l) (held t) |}
          else None
      end
  end.
Definition move (ts : list Thread) (m : nat * bool) : option (list Thread) :=
  t ← ts !! m.1; t' ← thread_move m.2 ts t; Some (<[m.1 := t']> ts).
(** Thread [i] runs, with its choices from [bs], until it needs another choice, is blocked, or
    waits; [fuel] bounds its steps. *)
Fixpoint drive (fuel i : nat) (bs : list bool) (ts : list Thread) : list Thread :=
  match fuel, next ts i, bs with
  | O, _, _ | _, (None | Some Wait), _ | _, Some (Alt _ _ | Loop _), [] => ts
  | S fuel, Some (Alt _ _ | Loop _), b :: bs =>
      from_option (drive fuel i bs) ts (move ts (i, b))
  | S fuel, Some _, _ => from_option (drive fuel i bs) ts (move ts (i, true))
  end.

Lemma move_step ts m ts' : move ts m = Some ts' → step ts ts'.
Proof.
  unfold move. intros (t & Hi & (t' & Ht & [= <-])%bind_Some)%bind_Some.
  econstructor; [done|]. destruct t as [[|c k] h]; [done|].
  destruct c, m.2; cbn in Ht; try case_bool_decide; try destruct (taken _ _) eqn:E; simplify_eq;
    by constructor.
Qed.

Lemma drive_steps fuel i bs ts : rtc step ts (drive fuel i bs ts).
Proof.
  revert bs ts. induction fuel as [|fuel IH]; intros bs ts; [constructor|].
  assert (∀ b bs', rtc step ts (from_option (drive fuel i bs') ts (move ts (i, b)))) as Hm.
  { intros b bs'. destruct (move ts (i, b)) eqn:E; [|constructor].
    eapply rtc_l; [by eapply move_step|apply IH]. }
  cbn. destruct (next ts i) as [[]|]; destruct bs; cbn; auto using rtc_refl.
Qed.

(** ** Frames *)

(** The locks of a program. *)
Fixpoint locks (c : Code) : list Lock :=
  match c with
  | Skip | Wait => []
  | Acq l | Rel l | Await l => [l]
  | Try l a b => l :: locks a ++ locks b
  | Seq a b | Alt a b => locks a ++ locks b
  | Loop a => locks a
  | Others h => h
  end.

(** The calls of other objects in a program, each with the locks held. *)
Fixpoint others (c : Code) : list (list Lock) :=
  match c with
  | Others h => [h]
  | Try _ a b | Seq a b | Alt a b => others a ++ others b
  | Loop a => others a
  | _ => []
  end.

Lemma filter_ne_self (l : Lock) (h : list Lock) : l ∉ h → filter (.≠ l) h = h.
Proof.
  induction h as [|x h IH]; [done|]. intros [Hx Hh]%not_elem_of_cons. rewrite filter_cons.
  rewrite decide_True by congruence. by rewrite IH.
Qed.

(** Patient locks below all those of a program may be held around it. *)
Lemma check_frame (e : list Lock) c h h' :
  (∀ x l, x ∈ e → l ∈ locks c → below x l = true) → (∀ x, x ∈ e → patient x = true) →
  others c = [] → check h c = Some h' → check (h ++ e) c = Some (h' ++ e).
Proof.
  intros He Hp. revert h h'.
  assert (∀ l, (∀ x, x ∈ e → below x l = true) → may_acquire l e = true) as Hacq.
  { intros l Hl. unfold may_acquire. apply forallb_forall. intros x Hx%list_elem_of_In.
    by rewrite (Hl x Hx), (Hp x Hx). }
  induction c as [|l|l|l a IHa b IHb|l| |a IHa b IHb|a IHa b IHb|a IHa|h0]; cbn in *;
    intros h h' Ho Hc; try apply app_nil in Ho as [Ho1 Ho2];
    rewrite ?check_both, ?check_loop, ?check_if in Hc |- *; destruct_and?; simplify_eq.
  - done.
  - split; [|done]. unfold may_acquire in *. rewrite forallb_app. rewrite Hacq; [|set_solver].
    by apply andb_true_intro.
  - rewrite bool_decide_eq_true in *. split; [set_solver|]. rewrite filter_app. f_equal.
    symmetry. apply filter_ne_self. intros Hl. specialize (He l l Hl ltac:(set_solver)).
    by rewrite below_irrefl in He.
  - split; [apply (IHa ltac:(set_solver) (l :: h))|apply IHb]; set_solver.
  - split; [|done]. unfold may_acquire in *. rewrite forallb_app. rewrite Hacq; [|set_solver].
    by apply andb_true_intro.
  - split; [|done]. rewrite forallb_app. apply andb_true_intro. split; [done|].
    apply forallb_forall. intros x Hx%list_elem_of_In. auto.
  - apply bind_Some in Hc as (h1 & H1 & H2). apply bind_Some. exists (h1 ++ e).
    split; [apply IHa|apply IHb]; set_solver.
  - split; [apply IHa|apply IHb]; set_solver.
  - split; [|done]. by apply IHa.
Qed.

End LockOrder.

(** ** Instances *)

(** The program of an object, from that of its class: [f] names its locks and [p] is the code
    of other objects. *)
Fixpoint inst {A B : Type} (f : A → B) (p : Code B) (c : Code A) : Code B :=
  match c with
  | Skip => Skip
  | Acq l => Acq (f l)
  | Rel l => Rel (f l)
  | Try l a b => Try (f l) (inst f p a) (inst f p b)
  | Await l => Await (f l)
  | Wait => Wait
  | Seq a b => Seq (inst f p a) (inst f p b)
  | Alt a b => Alt (inst f p a) (inst f p b)
  | Loop a => Loop (inst f p a)
  | Others _ => p
  end.

Section instances.
Context {A B : Type} `{!Order A, !Order B} (f : A → B) (p : Code B).
Hypothesis f_inj : Inj (=) (=) f.
Hypothesis f_below : ∀ x y, below x y = true → below (f x) (f y) = true.
Hypothesis f_patient : ∀ x, patient (f x) = patient x.

Lemma may_acquire_inst l h : may_acquire l h = true → may_acquire (f l) (f <$> h) = true.
Proof.
  unfold may_acquire. rewrite !forallb_forall. intros H y [x [-> Hx]]%list_elem_of_In%list_elem_of_fmap.
  specialize (H x ltac:(by apply list_elem_of_In)). rewrite !f_patient.
  apply andb_prop in H as [H1 H2]. by rewrite (f_below _ _ H1).
Qed.

Lemma filter_inst l (h : list A) : f <$> filter (.≠ l) h = filter (.≠ f l) (f <$> h).
Proof.
  induction h as [|x h IH]; [done|]. rewrite filter_cons, fmap_cons, filter_cons.
  destruct (decide (x ≠ l)) as [Hx|Hx].
  - rewrite decide_True by (intros ?%f_inj; done). by rewrite fmap_cons, IH.
  - rewrite decide_False by naive_solver. done.
Qed.

Lemma check_inst c h h' :
  (∀ g, g ∈ others c → neutral (f <$> g) p) →
  check h c = Some h' → check (f <$> h) (inst f p c) = Some (f <$> h').
Proof.
  revert h h'. induction c as [|l|l|l a IHa b IHb|l| |a IHa b IHb|a IHa b IHb|a IHa|h0]; cbn [check inst others];
    intros h h' Hg Hc; rewrite ?check_both, ?check_loop, ?check_if in Hc;
    rewrite ?check_both, ?check_loop, ?check_if; destruct_and?; simplify_eq; auto using may_acquire_inst.
  - rewrite bool_decide_eq_true in *. split; [by apply list_elem_of_fmap_2|apply filter_inst].
  - split; [apply (IHa (l :: h))|apply IHb]; set_solver.
  - split; [|done]. rewrite forallb_forall in *.
    intros y [x [-> Hx]]%list_elem_of_In%list_elem_of_fmap. rewrite f_patient.
    by apply H, list_elem_of_In.
  - apply bind_Some in Hc as (h1 & H1 & H2). apply bind_Some. exists (f <$> h1).
    split; [apply IHa|apply IHb]; set_solver.
  - split; [apply IHa|apply IHb]; set_solver.
  - rewrite bool_decide_eq_true in *. subst. apply Hg. set_solver.
Qed.

Lemma neutral_inst h c :
  (∀ g, g ∈ others c → neutral (f <$> g) p) → neutral h c → neutral (f <$> h) (inst f p c).
Proof. apply check_inst. Qed.

Lemma locks_inst c : others c = [] → locks (inst f p c) = f <$> locks c.
Proof.
  induction c; cbn; intros Ho; try apply app_nil in Ho as [? ?]; rewrite ?fmap_app; try done.
  all: rewrite ?IHc1, ?IHc2, ?IHc by done; done.
Qed.

Lemma others_inst c : others c = [] → others (inst f p c) = [].
Proof.
  induction c; cbn; intros Ho; try apply app_nil in Ho as [? ?]; try done.
  all: rewrite ?IHc1, ?IHc2, ?IHc by done; done.
Qed.

End instances.
End LockOrder.
