(* ===== verification/Locks.v ===== *)
(** * The locks of the client: core/, bindings/python/ and src/pynetft/client.py

    Every function that locks, joins or waits, as a program of [LockOrder] over the kinds of
    locks of one client: its mutexes in the order the code takes them, with early returns and
    exceptions as alternatives. What a thread owes to others is a lock that it holds until
    then: a thread until it ends ([Worker], [Dispatcher]), the flag [joining_] until it is
    cleared, the events of client.py and of [Thread.start] until they are set. Waiting for it
    is [Await]. [Wait] is left for what no thread of the client owes: the socket, the HTTP
    request, the next sample, a timeout, an idle destroyer. The interpreter lock is released
    where module.cpp says so, where Python blocks on a lock, an event or a thread, and between
    any two bytecodes.

    A program has any number of clients ([programs]), each with its own locks, beside the one
    interpreter lock and the one deferred destroyer. A callback may call its own client and
    the clients after it: two callbacks that stop each other's clients do wait for each other,
    so the clients whose callbacks call others must be in some order. *)

From Stdlib Require Import Lia.
From stdpp Require Import list relations.
From S2P Require Import Prelude LockOrder.
Import LockOrder.

Module Locks.

Inductive Lock :=
  | Dispatcher        (* the callback thread of client.py, until it ends *)
  | Completed         (* _CallbackRun.completed, until it is set *)
  | ClientLock        (* Client._lock *)
  | Ready             (* _CallbackActivation._ready, until it is set *)
  | Started           (* the event of Thread.start, until the new thread sets it *)
  | Activation        (* _CallbackActivation._lock *)
  | Gil
  | NativeLifecycle   (* NativeClient::lifecycle_mutex_ *)
  | Joining           (* Client::Impl::joining_ while it is true *)
  | Worker            (* the worker thread, until it ends *)
  | Deferred          (* DeferredDestroyer::mutex_ *)
  | Lifecycle         (* Client::Impl::lifecycle_mutex_ *)
  | Command           (* Client::Impl::command_mutex_ *)
  | Record_           (* Client::Impl::record_mutex_ *)
  | Data              (* Client::Impl::data_mutex_ *)
  | Transport         (* UdpTransport::mutex_ *)
  | Queue.            (* SampleQueue::mutex_ *)

#[global] Instance Lock_eq_dec : EqDecision Lock.
Proof. solve_decision. Defined.

(** The order, and the locks under which a thread may wait. *)
Definition lock_rank (l : Lock) : nat :=
  match l with
  | Dispatcher => 0 | Completed => 1 | ClientLock => 2 | Ready => 3 | Started => 4
  | Activation => 5 | Gil => 6 | NativeLifecycle => 7 | Joining => 8 | Worker => 9
  | Deferred => 10 | Lifecycle => 11 | Command => 12 | Record_ => 13 | Data => 14
  | Transport => 15 | Queue => 16
  end.
Definition lock_patient (l : Lock) : bool :=
  match l with
  | Dispatcher | Completed | ClientLock | Ready | NativeLifecycle | Joining | Worker => true
  | _ => false
  end.

#[global] Instance lock_order : Order Lock.
Proof.
  refine {| below x y := (lock_rank x <? lock_rank y)%nat; patient := lock_patient |}.
  - abstract (intros l; apply Nat.ltb_irrefl).
  - abstract (intros x y z; rewrite !Nat.ltb_lt; lia).
Defined.

Section code.
Context {L : Type}.
Implicit Types (l : L) (c : LockOrder.Code L).

Definition seq (cs : list (LockOrder.Code L)) : LockOrder.Code L := foldr Seq Skip cs.
Definition opt c := Alt c Skip.
Definition alt c (cs : list (LockOrder.Code L)) : LockOrder.Code L := foldr Alt c cs.
(** [std::scoped_lock]; a wait on a condition variable, or the GIL given up. *)
Definition holding l c := seq [Acq l; c; Rel l].
Definition brief l := holding l Skip.
Definition unlocked l c := seq [Rel l; c; Acq l].
Definition cv_wait l : LockOrder.Code L := Loop (unlocked l Wait).
(** A condition that becomes true when [x] is free. *)
Definition cv_await l x : LockOrder.Code L := Loop (unlocked l (Await x)).
End code.

Abbreviation Code := (LockOrder.Code Lock).

(** ** The transport *)

(** Source: core/src/detail/udp_transport_posix.cpp:36-75, [UdpTransport::connect]. *)
Definition connect : Code := seq [Wait; opt (brief Transport)].
(** Source: core/src/detail/udp_transport_posix.cpp:77-89, [UdpTransport::send]. *)
Definition send : Code := brief Transport.
(** Source: core/src/detail/udp_transport_posix.cpp:91-152, [UdpTransport::receive]. *)
Definition receive_posix : Code :=
  seq [brief Transport; opt (seq [Loop Wait; opt (seq [brief Transport; opt Wait])])].
(** Source: core/src/detail/udp_transport_windows.cpp:127-216, [UdpTransport::receive]. *)
Definition receive_windows : Code :=
  seq [brief Transport;
       opt (seq [Loop (seq [brief Transport; Wait]);
                 opt (brief Transport);
                 opt (seq [brief Transport; opt (seq [Wait; opt (brief Transport)])])])].
(** Source: core/src/detail/udp_transport_windows.cpp:218-224, [UdpTransport::shutdown]. *)
Definition shutdown : Code := brief Transport.
(** Source: core/src/detail/udp_transport_windows.cpp:226-233, [UdpTransport::close]. *)
Definition close : Code := brief Transport.

(** ** The core client *)

(** Source: core/src/detail/fault_latch.cpp:7-23, [FaultLatch::publish]. *)
Definition publish : Code := brief Data.

(** [std::thread::join], with [joining_] set and [lifecycle_mutex_] released; [c] is done with
    the mutex, before [joining_] is cleared. *)
Definition join_worker (c : Code) : Code :=
  seq [Rel Lifecycle; Await Worker; holding Lifecycle (seq [c; Rel Joining])].

(** Source: core/src/detail/client_impl.cpp:112-225, [Client::Impl::start]: one round of its loop.
    It throws, waits for a faulted worker to exit, joins an ended worker, or starts a new one,
    which may fail. *)
Definition start_round : Code :=
  seq [Acq Lifecycle;
       alt (Rel Lifecycle)
         [seq [cv_await Lifecycle Joining; Rel Lifecycle];
          seq [cv_await Lifecycle Joining; cv_await Lifecycle Worker; Rel Lifecycle];
          seq [cv_await Lifecycle Joining; Try Joining (join_worker Skip) (Rel Lifecycle)];
          seq [cv_await Lifecycle Joining; brief Record_; brief Data;
               opt (seq [brief Record_; brief Data; opt publish]); Rel Lifecycle]]].
(** Source: core/src/detail/client_impl.cpp:111-226, [Client::Impl::start]. *)
Definition start : Code := seq [start_round; Loop start_round].

(** Source: core/src/detail/client_impl.cpp:243-255, [Client::Impl::stop]: what every stop does
    first, with [lifecycle_mutex_]. *)
Definition stop_session : Code := holding Command (seq [opt send; shutdown]).
(** Source: core/src/detail/client_impl.cpp:236-288, [Client::Impl::stop]: one round of its loop. *)
Definition stop_round : Code :=
  seq [Acq Lifecycle; stop_session;
       alt (seq [opt (brief Data); Rel Lifecycle])
         [Try Joining (join_worker (opt (brief Data)))
                      (seq [cv_await Lifecycle Joining; Rel Lifecycle])]].
(** Source: core/src/detail/client_impl.cpp:235-289, [Client::Impl::stop]. *)
Definition stop : Code := seq [stop_round; Loop stop_round].
(** Source: core/src/detail/client_impl.cpp:238-261, [Client::Impl::stop], on the worker. *)
Definition stop_self : Code := holding Lifecycle stop_session.

(** Source: core/src/detail/client_impl.cpp:291-303, [Client::Impl::bias]. *)
Definition bias : Code :=
  holding Command (holding Record_ (seq [brief Data; opt (seq [send; opt send])])).
(** Source: core/src/detail/client_impl.cpp:305-325, [Client::Impl::wait_for_first_sample]. *)
Definition wait_for_first_sample : Code := holding Data (opt (cv_wait Data)).
(** Source: core/src/detail/client_impl.cpp:331-347, [Client::Impl::health]. *)
Definition health : Code := brief Data.
(** Source: core/src/detail/client_impl.cpp:349-352, [Client::Impl::latest_sample]. *)
Definition latest_sample : Code := brief Data.
(** Source: core/src/detail/client_impl.cpp:327-329, [Client::Impl::faulted] and
    [Client::Impl::fault_code]: an atomic. *)
Definition faulted : Code := Skip.
(** Source: core/src/detail/client_impl.hpp:27-31, [called_from_worker_thread]. *)
Definition called_from_worker_thread : Code := brief Lifecycle.

(** ** The worker *)

Section worker.
Context (receive callback : Code).

(** Source: core/src/detail/client_impl.cpp:527-683, [Client::Impl::handle_record]. *)
Definition handle_record : Code :=
  seq [holding Record_ (brief Data);
       opt (seq [callback; alt (brief Data) [holding Record_ (brief Data)]])].

(** Source: core/src/detail/client_impl.cpp:430-525, [Client::Impl::receive_session]; the HTTP
    request of the discovery is a wait. *)
Definition receive_session : Code :=
  seq [brief Data;
       opt (seq [opt Wait; opt (brief Data);
         opt (seq [connect; opt (holding Command (opt send));
           opt (seq [brief Record_;
             Loop (seq [receive; brief Data; opt handle_record]);
             opt (seq [receive; opt (brief Data)]); opt (brief Data)])])])].

(** Source: core/src/detail/client_impl.cpp:710-721, [Client::Impl::close_session]. *)
Definition close_session : Code := holding Command (seq [opt send; close]).

(** Source: core/src/detail/client_impl.cpp:723-736, [Client::Impl::finish_session]. *)
Definition finish_session : Code := seq [close_session; opt (brief Data)].

(** Source: core/src/detail/client_impl.cpp:382-428, [Client::Impl::run]. *)
Definition run : Code :=
  seq [Loop (seq [receive_session; close_session; brief Data; holding Data (cv_wait Data)]);
       opt (seq [receive_session; opt close_session]);
       opt publish;
       finish_session].

(** Source: core/src/detail/client_impl.cpp:228-233, [Client::Impl::create_worker_thread]: the
    thread. *)
Definition worker_thread : Code := holding Worker run.
End worker.

(** ** Handles *)

(** Source: core/src/client.cpp:55-55, [Client::Client]: no lock. *)
Definition construct : Code := Skip.
(** Source: core/src/detail/client_impl.cpp:109-109, [Client::Impl::~Impl]. *)
Definition destroy_impl : Code := stop.
(** Source: core/src/client.cpp:57-64, [Client::~Client], on the worker. *)
Definition destroy_self : Code := seq [called_from_worker_thread; stop_self; brief Deferred].
(** Source: core/src/client.cpp:57-64, [Client::~Client], on another thread. *)
Definition destroy : Code := seq [called_from_worker_thread; stop; destroy_impl].
(** Source: core/src/client.cpp:36-36, [DeferredDestroyer::run]: what is done for a client that
    was handed over; its memory is released at the end of the round. *)
Definition destroy_deferred : Code := seq [stop; destroy_impl].

(** Source: core/src/client.cpp:66-82, [Client]: what a user may call. *)
Definition client_calls : Code :=
  alt start [stop; bias; wait_for_first_sample; faulted; health; latest_sample].
(** What a C++ program does with a client. *)
Definition cpp_calls : Code := alt client_calls [construct; destroy].
(** What a callback of the user does on the worker: other work, calls to its own client, where
    [start()] throws at once, and to others. *)
Definition callback_calls : Code :=
  Loop (alt Wait [brief Lifecycle; stop_self; bias; wait_for_first_sample; faulted; health;
                  latest_sample; Others [Worker]]).
(** The callback of the user, which may destroy the client. *)
Definition user_callback : Code := seq [callback_calls; opt destroy_self].

(** ** The native client of the bindings *)

(** Source: bindings/python/sample_queue.cpp:14-24, [SampleQueue::push]. *)
Definition push : Code := brief Queue.
(** Source: bindings/python/sample_queue.cpp:31-65, [SampleQueue::read_for]. *)
Definition read_for : Code := holding Queue (cv_wait Queue).
(** Source: bindings/python/sample_queue.cpp:67-70, [SampleQueue::generation]. *)
Definition queue_generation : Code := brief Queue.
(** Source: bindings/python/sample_queue.cpp:72-79, [SampleQueue::close]. *)
Definition queue_close : Code := brief Queue.
(** Source: bindings/python/sample_queue.cpp:81-86, [SampleQueue::reset]. *)
Definition queue_reset : Code := brief Queue.
(** Source: bindings/python/sample_queue.cpp:88-91, [SampleQueue::dropped_count]. *)
Definition queue_dropped : Code := brief Queue.

(** Source: bindings/python/native_client.cpp:36-53, [NativeClient::start]. *)
Definition native_start : Code :=
  holding NativeLifecycle (opt (seq [queue_close; queue_reset; start; opt queue_close])).
(** Source: bindings/python/native_client.cpp:55-63, [NativeClient::stop]. *)
Definition native_stop : Code := holding NativeLifecycle (seq [queue_close; stop]).
(** Source: bindings/python/native_client.cpp:65-65, [NativeClient::bias]. *)
Definition native_bias : Code := bias.
(** Source: bindings/python/native_client.cpp:109-141, [NativeClient::wait_for_first_sample]. *)
Definition native_wait_for_first_sample : Code :=
  opt (seq [queue_generation;
            Loop (seq [faulted; queue_generation; wait_for_first_sample; queue_generation]);
            opt queue_generation]).
(** Source: bindings/python/native_client.cpp:143-192, [NativeClient::read]. *)
Definition native_read : Code :=
  opt (seq [queue_generation; Loop (seq [faulted; read_for; faulted])]).
(** Source: bindings/python/native_client.cpp:194-196, [NativeClient::latest_sample]. *)
Definition native_latest_sample : Code := latest_sample.
(** Source: bindings/python/native_client.cpp:198-198, [NativeClient::health]. *)
Definition native_health : Code := health.
(** Source: bindings/python/native_client.cpp:200-204, [NativeClient::faulted] and
    [NativeClient::fault_code]. *)
Definition native_faulted : Code := faulted.
(** Source: bindings/python/native_client.cpp:206-208, [NativeClient::queue_dropped_count]. *)
Definition native_queue_dropped_count : Code := queue_dropped.
(** Source: bindings/python/native_client.cpp:34-34, [NativeClient::~NativeClient]; the members
    follow. *)
Definition native_destroy : Code := seq [native_stop; destroy].

(** ** The extension module *)

(** Source: bindings/python/module.cpp:53-74, [PYBIND11_MODULE]: the methods of [NativeClient]. *)
Inductive Method :=
  | m_init | m_start | m_stop | m_bias | m_wait_for_first_sample | m_read
  | m_latest_sample | m_health | m_faulted | m_fault_code | m_queue_dropped_count.

(** Source: bindings/python/module.cpp:53-74, [PYBIND11_MODULE]: the function of each method. *)
Definition bound (m : Method) : Code :=
  match m with
  | m_init => construct
  | m_start => native_start
  | m_stop => native_stop
  | m_bias => native_bias
  | m_wait_for_first_sample => native_wait_for_first_sample
  | m_read => native_read
  | m_latest_sample => native_latest_sample
  | m_health => native_health
  | m_faulted | m_fault_code => native_faulted
  | m_queue_dropped_count => native_queue_dropped_count
  end.

(** Source: bindings/python/module.cpp:53-74, [py::call_guard<py::gil_scoped_release>]. *)
Definition releases_gil (m : Method) : bool :=
  match m with
  | m_start | m_stop | m_bias | m_wait_for_first_sample | m_read => true
  | m_init | m_latest_sample | m_health | m_faulted | m_fault_code | m_queue_dropped_count => false
  end.

(** A call from Python. *)
Definition native (m : Method) : Code :=
  if releases_gil m then unlocked Gil (bound m) else bound m.

(** Source: bindings/python/module.cpp:16-24, [NativeClientDeleter]. *)
Definition delete_native : Code := unlocked Gil native_destroy.

(** ** client.py *)

(** [with lock:], and the wait for an event or for a thread; a thread that blocks gives the GIL
    up. *)
Definition py_lock (l : Lock) (c : Code) : Code := seq [unlocked Gil (Acq l); c; Rel l].
Definition py_await (l : Lock) : Code := unlocked Gil (Await l).
(** Any other Python code of the thread: the interpreter may switch, and the code may wait for
    what is not the client's. *)
Definition py_other : Code := unlocked Gil (opt Wait).

(** Source: src/pynetft/client.py:31-39, [_CallbackActivation.activate] and
    [_CallbackActivation.cancel]: the first of them sets the event. *)
Definition activate : Code := py_lock Activation (Rel Ready).
(** Source: src/pynetft/client.py:36-39, [_CallbackActivation.cancel], once more. *)
Definition cancel_again : Code := py_lock Activation Skip.
(** Source: src/pynetft/client.py:41-44, [_CallbackActivation.wait]. *)
Definition activation_wait : Code := seq [py_await Ready; py_lock Activation Skip].

(** Source: src/pynetft/client.py:486-493, [Client._join_callback_run]. *)
Definition join_callback_run : Code := opt (py_await Dispatcher).
(** Source: src/pynetft/client.py:502-507, [Client._stop_locked]. *)
Definition stop_locked : Code := opt (native m_stop).

(** Source: src/pynetft/client.py:264-287, [Client._start_iterator_locked]. *)
Definition start_iterator_locked : Code := seq [native m_start; opt (native m_stop)].
(** Source: src/pynetft/client.py:289-358, [Client._start_callback_locked]: the run is made, with
    its event not set; [Thread.start] waits for the new thread; each of the steps may fail, and
    the activation is cancelled then. *)
Definition start_callback_locked : Code :=
  opt (seq [unlocked Gil (Acq Ready);
       alt activate
         [seq [opt (py_await Started); activate];
          seq [py_await Started; native m_start; activate;
               opt (seq [opt cancel_again; native m_stop])]]]).

(** Source: src/pynetft/client.py:98-135, [Client.start]. *)
Definition py_start : Code :=
  seq [Loop (seq [py_lock ClientLock Skip; join_callback_run; py_lock ClientLock Skip]);
       py_lock ClientLock (opt (alt start_iterator_locked [start_callback_locked]));
       join_callback_run].
(** Source: src/pynetft/client.py:137-157, [Client.stop]. *)
Definition py_stop : Code :=
  seq [py_lock ClientLock stop_locked; opt (seq [join_callback_run; py_lock ClientLock Skip])].
(** Source: src/pynetft/client.py:137-157, [Client.stop], on the dispatcher. *)
Definition py_stop_self : Code := py_lock ClientLock stop_locked.
(** Source: src/pynetft/client.py:191-207, [Client.wait], which may time out, and
    [Client.raise_if_failed]. *)
Definition py_wait : Code :=
  seq [py_lock ClientLock Skip;
       opt (alt py_other [seq [py_await Completed; join_callback_run]])].
(** Source: src/pynetft/client.py:238-250, [Client._fault_error_for_closed_run], and lines 473-484,
    [Client._finish_callback_closed]: what they ask of the native client. *)
Definition report_fault : Code :=
  py_lock ClientLock
    (opt (seq [native m_faulted;
               opt (seq [native m_health; native m_queue_dropped_count; native m_fault_code]);
               stop_locked])).
(** Source: src/pynetft/client.py:175-182, [Client.samples], and lines 209-229,
    [Client._iterate_samples], as far as the next sample. *)
Definition py_next : Code :=
  seq [py_lock ClientLock Skip;
       opt (seq [py_lock ClientLock Skip;
                 opt (seq [native m_read; py_lock ClientLock Skip; opt report_fault])])].
(** Source: src/pynetft/client.py:188-189, [Client.health]. *)
Definition py_health : Code := seq [native m_health; native m_queue_dropped_count].

(** What a Python program does with a client. *)
Definition python_calls : Code :=
  alt (native m_init)
    [py_start; py_stop; native m_bias; native m_wait_for_first_sample; py_next; py_wait; py_health;
     native m_latest_sample; delete_native].

(** What a callback does: other work, calls to the client that calls it, where [start()] and
    [wait()] raise and [stop()] does not join, and to others. *)
Definition dispatcher_calls : Code :=
  Loop (alt py_other
    [py_lock ClientLock Skip; py_stop_self; native m_bias; native m_wait_for_first_sample;
     py_next; py_health; native m_latest_sample; Others [Gil; Completed; Dispatcher]]).

(** Source: src/pynetft/client.py:365-445, [Client._dispatch_callback], until the run completes. *)
Definition dispatch_callback : Code :=
  opt (seq [activation_wait;
       opt (seq [Loop (seq [py_lock ClientLock Skip; native m_read; py_lock ClientLock Skip;
                            opt (seq [py_lock ClientLock Skip; dispatcher_calls])]);
                 opt (alt report_fault [py_lock ClientLock stop_locked; native m_stop])])]).

(** The callback thread: it sets the event of [Thread.start] when it first runs and [completed]
    at the end, and may then drop the last reference to the native client. *)
Definition dispatcher_thread : Code :=
  holding Dispatcher
    (seq [Acq Completed; Acq Started;
          holding Gil (seq [Rel Started; dispatch_callback; Rel Completed; opt delete_native])]).

(** ** Any number of clients *)

(** The locks of client [i]; two are shared by all. Locks of a kind are ordered by the client,
    and a callback thread, or a worker, counts as one with what it owes. *)
Definition shared (l : Lock) : bool := match l with Gil | Deferred => true | _ => false end.
Definition level (l : Lock) : nat :=
  match l with Completed => lock_rank Dispatcher | Worker => lock_rank Joining | _ => lock_rank l end.
Definition own (i : nat) (l : Lock) : Lock * nat := (l, if shared l then 0%nat else i).
Definition lock_below (x y : Lock * nat) : bool :=
  (level x.1 <? level y.1)%nat ||
  (level x.1 =? level y.1)%nat &&
    ((x.2 <? y.2)%nat || (x.2 =? y.2)%nat && (lock_rank x.1 <? lock_rank y.1)%nat).

#[global] Instance locks_order : Order (Lock * nat).
Proof.
  refine {| below := lock_below; patient x := lock_patient x.1 |}; unfold lock_below.
  - abstract (intros [l i]; cbn [fst snd]; rewrite !Nat.ltb_irrefl, !andb_false_r; done).
  - abstract (intros [x i] [y j] [z k]; cbn [fst snd];
      rewrite !orb_true_iff, !andb_true_iff, !orb_true_iff, !andb_true_iff,
        !Nat.ltb_lt, !Nat.eqb_eq; lia).
Defined.

(** Calls to one of the clients [js]. *)
Definition one_of (js : list nat) (c : Code) : LockOrder.Code (Lock * nat) :=
  alt Skip (map (λ j, inst (own j) Skip c) js).
(** The threads that belong to client [k] of [n]; its callback calls the clients after it. *)
Definition later (n k : nat) : list nat := List.seq (S k) (n - S k).
Definition dispatcher (n k : nat) : LockOrder.Code (Lock * nat) :=
  inst (own k) (one_of (later n k) python_calls) dispatcher_thread.
Definition worker (n k : nat) (receive callback : Code) : LockOrder.Code (Lock * nat) :=
  inst (own k) (one_of (later n k) cpp_calls) (worker_thread receive callback).

(** Threads of the interpreter and of a C++ program, with [n] clients. *)
Definition python_thread (n : nat) : LockOrder.Code (Lock * nat) :=
  holding (own 0 Gil)
    (Loop (alt (inst (own 0) Skip py_other) [one_of (List.seq 0 n) python_calls])).
Definition cpp_thread (n : nat) : LockOrder.Code (Lock * nat) :=
  Loop (alt Wait [one_of (List.seq 0 n) cpp_calls]).
(** Source: core/src/client.cpp:26-37, [DeferredDestroyer::run]. *)
Definition destroyer_thread (n : nat) : LockOrder.Code (Lock * nat) :=
  Loop (seq [holding (own 0 Deferred) (cv_wait (own 0 Deferred));
             one_of (List.seq 0 n) destroy_deferred]).

(** The threads of a program that uses the package, or the core itself. *)
Definition client_threads (n k : nat) : list (LockOrder.Code (Lock * nat)) :=
  [dispatcher n k; worker n k receive_posix push; worker n k receive_windows push;
   worker n k receive_posix user_callback; worker n k receive_windows user_callback].
Definition programs (n : nat) : list (LockOrder.Code (Lock * nat)) :=
  [python_thread n; cpp_thread n; destroyer_thread n] ++ (List.seq 0 n ≫= client_threads n).

(** ** The order is kept *)

Lemma neutral_seq {L} `{!Order L} (h : list L) a b :
  neutral h a → neutral h b → neutral h (Seq a b).
Proof. unfold neutral. intros Ha Hb. cbn. by rewrite Ha. Qed.

Lemma neutral_holding {L} `{!Order L} (h : list L) l c :
  may_acquire l h = true → l ∉ h → neutral (l :: h) c → neutral h (holding l c).
Proof.
  unfold neutral. intros Hl Hn Hc. cbn [holding seq foldr check]. rewrite Hl. cbn [mbind option_bind].
  rewrite Hc. cbn [mbind option_bind]. rewrite bool_decide_eq_true_2 by set_solver.
  cbn [mbind option_bind]. rewrite filter_cons, decide_False by auto. by rewrite filter_ne_self.
Qed.

#[local] Instance own_inj i : Inj (=) (=) (own i).
Proof. by intros x y [= ->]. Qed.

Lemma own_below i x y : below x y = true → below (own i x) (own i y) = true.
Proof.
  unfold below. cbn [lock_order locks_order]. unfold lock_below, own.
  destruct x; destruct y; cbn -[Nat.ltb Nat.eqb]; intros H; try discriminate H; try reflexivity;
    by rewrite !Nat.ltb_irrefl, !Nat.eqb_refl.
Qed.

Lemma own_neutral i p h c :
  (∀ g, g ∈ others c → neutral (own i <$> g) p) → neutral h c →
  neutral (own i <$> h) (inst (own i) p c).
Proof. apply neutral_inst; [apply _|apply own_below|done]. Qed.

Lemma one_of_neutral js h c :
  (∀ j, j ∈ js → neutral h (inst (own j) Skip c)) → neutral h (one_of js c).
Proof.
  intros Hj. apply neutral_alts; [done|]. apply Forall_forall.
  intros x (j & -> & Hx)%list_elem_of_fmap. by apply Hj.
Qed.

(** A client's code may be called by the callback of a client before it. *)
Lemma framed j e h c :
  (∀ x l, x ∈ e → l ∈ locks c → below x (own j l) = true ∧ lock_patient x.1 = true) → locks c ≠ [] →
  others c = [] → neutral h c → neutral ((own j <$> h) ++ e) (inst (own j) Skip c).
Proof.
  intros He Hl Ho Hc. apply check_frame.
  - rewrite locks_inst by done. intros x y Hx (l & -> & Hy)%list_elem_of_fmap. by apply He.
  - intros x Hx. destruct (locks c) as [|l ls] eqn:E; [done|]. apply (He x l); set_solver.
  - by apply others_inst.
  - apply own_neutral; [|done]. rewrite Ho. by intros g ?%not_elem_of_nil.
Qed.

Lemma later_after n k j : j ∈ later n k → (k < j)%nat.
Proof. unfold later. rewrite elem_of_seq. lia. Qed.

Lemma dispatcher_below k j l :
  (k < j)%nat → below (own k Dispatcher) (own j l) = true ∧ below (own k Completed) (own j l) = true.
Proof.
  intros H. unfold below. cbn [locks_order]. unfold lock_below, own.
  destruct l; cbn -[Nat.ltb Nat.eqb]; try done; by rewrite (proj2 (Nat.ltb_lt k j)).
Qed.

Lemma worker_below k j l :
  (k < j)%nat → (level Worker ≤ level l)%nat → below (own k Worker) (own j l) = true.
Proof.
  intros H. unfold below. cbn [locks_order]. unfold lock_below, own.
  destruct l; cbn -[Nat.ltb Nat.eqb]; try lia; intros _; try done; by rewrite (proj2 (Nat.ltb_lt k j)).
Qed.

Lemma python_calls_later n k :
  neutral (own k <$> [Gil; Completed; Dispatcher]) (one_of (later n k) python_calls).
Proof.
  apply one_of_neutral. intros j Hj%later_after.
  apply (framed j [own k Completed; own k Dispatcher] [Gil]); try done.
  intros x l Hx _. split; [|set_solver].
  pose proof (dispatcher_below k j l Hj) as [? ?]. set_solver.
Qed.

Lemma cpp_calls_later n k : neutral (own k <$> [Worker]) (one_of (later n k) cpp_calls).
Proof.
  apply one_of_neutral. intros j Hj%later_after.
  apply (framed j [own k Worker] []); try done.
  intros x l ->%list_elem_of_singleton Hl. split; [|done]. apply worker_below; [done|].
  revert l Hl. apply Forall_forall. apply (bool_decide_unpack _). by vm_compute.
Qed.

Lemma worker_neutral n k receive callback :
  neutral [] (worker_thread receive callback) →
  Forall (λ h, h = [Worker]) (others (worker_thread receive callback)) →
  neutral [] (worker n k receive callback).
Proof.
  intros Hc Ho. apply (own_neutral k _ []); [|done]. intros g Hg.
  rewrite Forall_forall in Ho. rewrite (Ho g Hg). apply cpp_calls_later.
Qed.

Lemma call_neutral j h c : others c = [] → neutral h c → neutral (own j <$> h) (inst (own j) Skip c).
Proof. intros Ho Hc. apply own_neutral; [|done]. rewrite Ho. by intros g ?%not_elem_of_nil. Qed.

Lemma programs_ordered n : Forall (neutral []) (programs n).
Proof.
  apply Forall_app. split; [repeat apply Forall_cons_2; [| | |constructor]|].
  - apply neutral_holding; [done|apply not_elem_of_nil|].
    apply neutral_loop, neutral_alt; [|done]. apply one_of_neutral. intros j _.
    by apply (call_neutral j [Gil]).
  - apply neutral_loop, neutral_alt; [|done]. apply one_of_neutral. intros j _.
    by apply (call_neutral j []).
  - apply neutral_loop, neutral_seq; [done|]. apply neutral_seq; [|done].
    apply one_of_neutral. intros j _. by apply (call_neutral j []).
  - apply Forall_bind, Forall_true. intros k. repeat apply Forall_cons_2; [| | | | |constructor].
    + apply (own_neutral k _ []); [|done]. intros g Hg. cbn in Hg.
      replace g with [Gil; Completed; Dispatcher] by set_solver. apply python_calls_later.
    + by apply worker_neutral; [|repeat constructor].
    + by apply worker_neutral; [|repeat constructor].
    + by apply worker_neutral; [|repeat constructor].
    + by apply worker_neutral; [|repeat constructor].
Qed.

(** Any number of them, at any point of their run. *)
Definition reachable (n : nat) (ts : list (Thread (Lock := Lock * nat))) : Prop :=
  ∃ cs, Forall (.∈ programs n) cs ∧ rtc step (spawn <$> cs) ts.

Lemma locks_inv n ts : reachable n ts → Inv ts.
Proof.
  intros (cs & Hcs & Hr). eapply steps_inv; [done|]. apply spawn_inv.
  eapply Forall_impl; [done|]. intros c Hc. cbn in Hc.
  by apply (proj1 (Forall_forall _ _) (programs_ordered n)).
Qed.

(** C5: no deadlock. Take any number of clients and any number of Python threads, callback
    dispatchers, C++ callers, workers with the queue or with a callback of the user, and
    deferred destroyers, in any interleaving; a callback calls its own client and those after
    it. A thread with something left to do can go on, or waits, through a chain of threads
    each of which holds what the one before needs (the interpreter lock, a mutex, [joining_],
    an event that it has yet to set, its own end), for one that can. Only the socket, the HTTP
    request, the next sample and timeouts are taken to end by themselves, and a condition that
    holds wakes who waits for it. *)
Theorem deadlock_free n ts i c :
  reachable n ts → next ts i = Some c → ∃ j, rtc (waits_for ts) i j ∧ live ts j.
Proof.
  intros HI%locks_inv Hn.
  destruct (live_or_blocked ts i c HI Hn) as [Hl|(l & _ & Hb & _)]; [by exists i|].
  destruct (blocked_chain ts i c l HI Hn Hb) as (j & Hj & Hl & _). by exists j.
Qed.

(** A thread that waits: for the outside, for a thread to end, or for what a thread that may
    itself wait owes. *)
Definition waiting (c : LockOrder.Code (Lock * nat)) : Prop :=
  c = Wait ∨ ∃ l, blocks_on c = Some l ∧ lock_patient l.1 = true.

(** C23: nobody waits with the interpreter lock or a data mutex. A thread at an indefinite wait
    (a condition variable, a socket, the HTTP request, an event, a join, a lock held across
    these) holds neither the GIL nor a mutex of the core, the transport or the queue; so a
    thread that needs one of these, as [health()] and [latest_sample()] do with the GIL held,
    is never queued behind a wait. *)
Theorem no_wait_under_mutex n ts i :
  reachable n ts →
  (∀ c, next ts i = Some c → waiting c → ∀ l, holds ts i l →
     l.1 = Dispatcher ∨ l.1 = Completed ∨ l.1 = ClientLock ∨ l.1 = Ready ∨
     l.1 = NativeLifecycle ∨ l.1 = Joining ∨ l.1 = Worker) ∧
  (∀ c l, next ts i = Some c → blocks_on c = Some l → lock_patient l.1 = false →
     ∃ j, rtc (waits_for ts) i j ∧ live ts j ∧ next ts j ≠ Some Wait).
Proof.
  intros HI%locks_inv. split.
  - intros c Hc Hw l Hl. destruct (holder_next ts i l HI Hl) as (c' & Hc' & Hp & Hb).
    rewrite Hc in Hc'. simplify_eq. assert (lock_patient l.1 = true) as Hpl.
    { destruct (lock_patient l.1) eqn:E; [done|]. exfalso.
      destruct Hw as [Hw|(l' & Hb' & Hp')]; [by apply Hp|].
      destruct (Hb l' Hb') as [_ Hx]. specialize (Hx E). cbn in Hx. congruence. }
    destruct l as [[] ?]; cbn in *; try discriminate; tauto.
  - intros c l Hn Hb Hp. destruct (blocked_chain ts i c l HI Hn Hb) as (j & Hj & Hl & Hw). eauto.
Qed.

(** ** Runs *)

(** Two clients: a Python thread in [wait()] of the first; the callback of the first in [wait()]
    of the second; the dispatcher of the second reads, and waits for a sample. *)
Definition chained : list (Thread (Lock := Lock * nat)) :=
  drive 300 0 [true; true; true; false; false; false; false; false; true; true; true]
  (drive 300 1 ([true; true; true; true; true; false; false; true; true] ++
                replicate 7 false ++ [true; true] ++ replicate 5 false ++ [true; true; true])
  (drive 300 2 (replicate 6 true)
    (spawn <$> [python_thread 2; dispatcher 2 0; dispatcher 2 1]))).

Example chained_waits :
  (λ i, next chained i) <$> [0; 1; 2]%nat =
    [Some (Await (Completed, 0%nat)); Some (Await (Completed, 1%nat)); Some Wait] ∧
  held <$> chained =
    [[]; [(Completed, 0%nat); (Dispatcher, 0%nat)]; [(Completed, 1%nat); (Dispatcher, 1%nat)]].
Proof. split; vm_compute; reflexivity. Qed.

Lemma chained_reachable : reachable 2 chained.
Proof.
  exists [python_thread 2; dispatcher 2 0; dispatcher 2 1]. split.
  - repeat constructor; unfold programs; set_solver.
  - repeat (etrans; [|apply drive_steps]). constructor.
Qed.

Lemma deadlock_free_witness :
  next chained 0 = Some (Await (Completed, 0%nat)) ∧
  ∃ j, rtc (waits_for chained) 0%nat j ∧ live chained j.
Proof.
  split; [vm_compute; reflexivity|].
  apply (deadlock_free 2 chained 0 (Await (Completed, 0%nat)) chained_reachable).
  vm_compute. reflexivity.
Defined.

(** A Python thread has the interpreter, and another needs it. *)
Definition contended : list (Thread (Lock := Lock * nat)) :=
  drive 300 1 [] (drive 300 0 [] (spawn <$> [python_thread 1; python_thread 1])).

Lemma contended_reachable : reachable 1 contended.
Proof.
  exists [python_thread 1; python_thread 1]. split.
  - repeat constructor; unfold programs; set_solver.
  - repeat (etrans; [|apply drive_steps]). constructor.
Qed.

Lemma no_wait_under_mutex_witness :
  next contended 1 = Some (Acq (Gil, 0%nat)) ∧
  ∃ j, rtc (waits_for contended) 1%nat j ∧ live contended j ∧ next contended j ≠ Some Wait.
Proof.
  split; [vm_compute; reflexivity|].
  apply (proj2 (no_wait_under_mutex 1 contended 1 contended_reachable)
    (Acq (Gil, 0%nat)) (Gil, 0%nat)); vm_compute; reflexivity.
Defined.

End Locks.
