(* ===== verification/NativeClient.v ===== *)
(** * The client of the Python module: bindings/python/native_client.{hpp,cpp}

    [NativeClient] owns a sample queue and a core client. Its state is a [World] with
    a scheduler: at every [yield] the other threads take the steps the schedule gives
    them (the worker pushes samples and changes the client, other threads start, stop
    and read), so the theorems hold for every interleaving. The core methods it calls
    are here as far as the life cycle of the client goes; their other effects are in
    [Client], [Worker] and [Lifecycle]. The testing hooks
    ([PYNETFT_NATIVE_CLIENT_TESTING]) are compiled out of the module and left out. *)

From Stdlib Require Import ZArith Lia String.
From Corelib Require Import SpecFloat.
From S2P Require Import Prelude Effects Floats Clock Types FaultLatch SampleQueue Client.
Import Fp Clock Client.

Module NativeClient.

(** Source: bindings/python/native_client.hpp:48-51, [NativeClient]: the members. *)
Record NativeClient := {
  queue_ : SampleQueue.SampleQueue;
  client_ : Impl;
  running_ : bool
}.

(** A step of another thread: a store of [running_], a critical section of the queue,
    or whatever the worker or another caller does to the client. *)
Inductive Action :=
  | ARunning (b : bool)
  | AQueue (e : SampleQueue.Event)
  | AClient (f : Impl → Impl).

(** [schedule n] is what other threads do at the [n]-th yield, [wakeups n d] how often a
    wait of [d] seconds begun there wakes before it times out, [clock n] the [n]-th
    reading of the clock. *)
Record World := {
  native : NativeClient;
  schedule : nat → list Action;
  wakeups : nat → double → nat;
  yields : nat;
  clock : nat → Z;
  readings : nat
}.

#[global] Instance NativeClient_eta : Eta NativeClient := λ r,
  {| queue_ := queue_ r; client_ := client_ r; running_ := running_ r |}.
#[global] Instance World_eta : Eta World := λ r,
  {| native := native r; schedule := schedule r; wakeups := wakeups r; yields := yields r;
     clock := clock r; readings := readings r |}.

(** ** Steps *)

Definition act (a : Action) (n : NativeClient) : Res NativeClient :=
  match a with
  | ARunning b => Ok (n <| running_ := b |>)
  | AQueue e => '(_, q) ← SampleQueue.step e (queue_ n); Ok (n <| queue_ := q |>)
  | AClient f => Ok (n <| client_ ::= f |>)
  end.

Fixpoint act_all (actions : list Action) (n : NativeClient) : Res NativeClient :=
  match actions with
  | [] => Ok n
  | a :: actions => n ← act a n; act_all actions n
  end.

(** The other threads run. *)
Definition yield : M World () :=
  w ← get;
  n ← lift (act_all (schedule w (yields w)) (native w));
  modify (λ w, w <| native := n |> <| yields ::= S |>).

Definition look {A} (f : NativeClient → A) : M World A := w ← get; mret (f (native w)).
Definition load {A} (f : NativeClient → A) : M World A := _ ← yield; look f.
Definition store (f : NativeClient → NativeClient) : M World () :=
  _ ← yield; modify (λ w, w <| native ::= f |>).

Definition now : M World Z :=
  w ← get;
  _ ← modify (λ w, w <| readings ::= S |>);
  mret (clock w (readings w)).

(** A wait of [d] seconds on a condition variable with a predicate. *)
Fixpoint wait_loop (n : nat) (pred : NativeClient → bool) : M World bool :=
  match n with
  | O => look pred
  | S n => b ← look pred; if b : bool then mret true else _ ← yield; wait_loop n pred
  end.

Definition wait_for (d : double) (pred : NativeClient → bool) : M World bool :=
  w ← get; wait_loop (wakeups w (yields w) d) pred.

(** Seconds since [started_at], as the code computes them. *)
Definition elapsed (started_at : Z) : M World double :=
  t ← now;
  ticks ← lift (checked_i 64 (t - started_at));
  mret (seconds_of_ticks ticks).

Section native.
Context `{P : Platform}.

(** ** The core client *)

(** Source: core/src/detail/client_impl.cpp:312-315, [Client::Impl::wait_for_first_sample]: the
    predicate of the wait. *)
Definition first_sample_over (captured : Z) (i : Impl) : bool :=
  negb (generation_ i =? captured) || (delivered_generation_ i =? captured)
  || stopping_ i || faulted i.

(** Source: core/src/detail/client_impl.cpp:305-325, [Client::Impl::wait_for_first_sample]. *)
Definition core_wait_for_first_sample (timeout : double) : M World bool :=
  t ← now;
  _ ← lift (checked_deadline t timeout);
  captured ← load (λ n, generation_ (client_ n));
  if captured =? 0 then mret false
  else
    _ ← wait_for timeout (λ n, first_sample_over captured (client_ n));
    i ← look client_;
    if negb (generation_ i =? captured) then mret false
    else mret (delivered_generation_ i =? captured).

(** Source: core/src/detail/client_impl.cpp:111-226, [Client::Impl::start], called from a
    thread that is not the worker. The waits are yields: a worker that has not exited
    does so there. *)
Fixpoint core_start (fuel : nat) (created : Res nat) (callback : option nat) : M World () :=
  match fuel with
  | O => out_of_fuel
  | S fuel =>
    i ← load client_;
    match worker_ i with
    | Some _ =>
      if negb (worker_exited_ i)
      then
        if negb (faulted i) then m_throw logic_error "client is already running"
        else core_start fuel created callback
      else
        _ ← modify (λ w, w <| native ::= λ n, n <| client_ ::= λ i,
               i <| worker_ := None |> <| active_worker_id_ := None |> |> |>);
        core_start fuel created callback
    | None =>
      let '(r, i) := start_worker created callback i in
      _ ← modify (λ w, w <| native ::= λ n, n <| client_ := i |> |>);
      lift r
    end
  end.

(** Source: core/src/detail/client_impl.cpp:235-289, [Client::Impl::stop], what it does to the
    state shared with this class: the worker ends in the yield. *)
Definition core_stop : M World () :=
  _ ← store (λ n, n <| client_ ::= λ i, i <| stopping_ := true |> |>);
  store (λ n, n <| client_ ::= λ i,
    let i := i <| worker_ := None |> <| active_worker_id_ := None |> in
    if faulted i then i
    else i <| health_ ::= λ h, h <| HealthSnapshot.state := ClientState.Stopped |> |> |>).

(** ** Construction, start and stop *)

(** Source: bindings/python/native_client.cpp:31-32, [NativeClient::NativeClient]. *)
Definition make (readings : nat → Z) (config : Config) (queue_size : Z) : Res NativeClient :=
  q ← SampleQueue.make queue_size;
  i ← Client.make readings config;
  Ok {| queue_ := q; client_ := i; running_ := false |}.

(** Source: bindings/python/native_client.cpp:36-53, [NativeClient::start]. [callback] is the
    lambda that pushes to the queue. *)
Definition start (fuel : nat) (created : Res nat) (callback : nat) : M World () :=
  running ← load running_;
  faulty ← load (λ n, faulted (client_ n));
  if running && negb faulty then mret ()
  else
    _ ← store (λ n, n <| running_ := false |>);
    _ ← store (λ n, n <| queue_ ::= SampleQueue.close |>);
    _ ← store (λ n, n <| queue_ ::= SampleQueue.reset |>);
    m_catch any_exception
      (_ ← core_start fuel created (Some callback);
       store (λ n, n <| running_ := true |>))
      (λ e,
       _ ← store (λ n, n <| running_ := false |>);
       _ ← store (λ n, n <| queue_ ::= SampleQueue.close |>);
       lift (Throw e)).

(** Source: bindings/python/native_client.cpp:55-63, [NativeClient::stop]. *)
Definition stop : M World () :=
  _ ← store (λ n, n <| running_ := false |>);
  _ ← store (λ n, n <| queue_ ::= SampleQueue.close |>);
  core_stop.

(** ** Reading *)

(** Source: bindings/python/native_client.cpp:14-14, [kReadSlice]. *)
Definition kReadSlice : double := d_div (d_of_Z 50) (d_of_Z 1000).

(** Source: bindings/python/native_client.cpp:16-27, [require_representable_timeout]. *)
Definition require_representable_timeout (seconds : double) (name : string) : Res () :=
  let maximum_seconds :=
    l_div long_double (l_of_Z long_double ticks_max) (l_of_Z long_double period_den) in
  if negb (isfinite seconds) || d_lt seconds (d_of_Z 0)
  then throw invalid_argument (name +:+ " must be finite and non-negative")
  else if SFltb maximum_seconds (l_of_double long_double seconds)
  then throw invalid_argument (name +:+ " exceeds the native clock range")
  else Ok ().

(** Source: bindings/python/native_client.cpp:122-125, [NativeClient::wait_for_first_sample], and
    lines 165-167, [NativeClient::read]: the part of the timeout that is left, at most a
    slice. *)
Definition slice (timeout_seconds elapsed : double) : double :=
  d_min kReadSlice (d_max2 (d_of_Z 0) (d_sub timeout_seconds elapsed)).

Definition Closed : SampleQueue.ReadResult :=
  {| SampleQueue.status := SampleQueue.StClosed; SampleQueue.sample := None |}.

(** [queue_.read_for]: the wait of [SampleQueue.read_for_locked] in this world. *)
Definition queue_read_for (d : double) (g : Z) : M World SampleQueue.ReadResult :=
  _ ← yield;
  is_ready ← wait_for d (λ n, SampleQueue.ready g (queue_ n));
  w ← get;
  '(r, q) ← lift (SampleQueue.finish_read is_ready g (queue_ (native w)));
  _ ← modify (λ w, w <| native ::= λ n, n <| queue_ := q |> |>);
  mret r.

(** Source: bindings/python/native_client.cpp:67-74, [NativeClient::faulted_for_read]. *)
Definition faulted_for_read : M World bool := load (λ n, faulted (client_ n)).

(** Source: bindings/python/native_client.cpp:150-191, [NativeClient::read]: the loop. *)
Fixpoint read_loop (fuel : nat) (g started_at : Z) (timeout_seconds : option double)
    : M World SampleQueue.ReadResult :=
  match fuel with
  | O => out_of_fuel
  | S fuel =>
    running ← load running_;
    if negb running then mret Closed
    else
      faulty ← faulted_for_read;
      if faulty : bool then mret Closed
      else
        wait_duration ←
          match timeout_seconds with
          | Some timeout => e ← elapsed started_at; mret (slice timeout e)
          | None => mret kReadSlice
          end;
        result ← queue_read_for wait_duration g;
        if negb (bool_decide (SampleQueue.status result = SampleQueue.StTimeout))
        then mret result
        else
          running ← load running_;
          if negb running then mret Closed
          else
            faulty ← faulted_for_read;
            if faulty : bool then mret Closed
            else
              match timeout_seconds with
              | Some timeout =>
                e ← elapsed started_at;
                if d_le timeout e then mret result
                else read_loop fuel g started_at timeout_seconds
              | None => read_loop fuel g started_at timeout_seconds
              end
  end.

(** Source: bindings/python/native_client.cpp:143-192, [NativeClient::read]. *)
Definition read (fuel : nat) (timeout_seconds : option double) : M World SampleQueue.ReadResult :=
  _ ← match timeout_seconds with
      | Some timeout => lift (require_representable_timeout timeout "timeout")
      | None => mret ()
      end;
  queue_generation ← look (λ n, SampleQueue.generation (queue_ n));
  started_at ← now;
  read_loop fuel queue_generation started_at timeout_seconds.

(** Source: bindings/python/native_client.cpp:114-140, [NativeClient::wait_for_first_sample]: the
    loop. *)
Fixpoint first_sample_loop (fuel : nat) (g started_at : Z) (timeout_seconds : double)
    : M World bool :=
  match fuel with
  | O => out_of_fuel
  | S fuel =>
    running ← load running_;
    if negb running then mret false
    else
      faulty ← faulted_for_read;
      if faulty : bool then mret false
      else
        g1 ← load (λ n, SampleQueue.generation (queue_ n));
        if negb (g1 =? g) then mret false
        else
          e ← elapsed started_at;
          received_sample ← core_wait_for_first_sample (slice timeout_seconds e);
          g2 ← load (λ n, SampleQueue.generation (queue_ n));
          if negb (g2 =? g) then mret false
          else if received_sample : bool then mret true
          else
            e ← elapsed started_at;
            if d_le timeout_seconds e then mret false
            else first_sample_loop fuel g started_at timeout_seconds
  end.

(** Source: bindings/python/native_client.cpp:109-141, [NativeClient::wait_for_first_sample]. *)
Definition wait_for_first_sample (fuel : nat) (timeout_seconds : double) : M World bool :=
  _ ← lift (require_representable_timeout timeout_seconds "timeout");
  queue_generation ← look (λ n, SampleQueue.generation (queue_ n));
  started_at ← now;
  first_sample_loop fuel queue_generation started_at timeout_seconds.

(** ** Invariant *)

Definition clock_ok (w : World) : Prop := ∀ n, 0 ≤ clock w n ≤ ticks_max.

(** [w'] is a later moment of [w]: the queue is well formed and the environment the
    same; nobody has read the clock for this thread. *)
Record later (w w' : World) : Prop := {
  later_queue : SampleQueue.wf (queue_ (native w'));
  later_clock : clock w' = clock w;
  later_readings : readings w' = readings w;
  later_schedule : schedule w' = schedule w;
  later_wakeups : wakeups w' = wakeups w
}.

Definition ok (w : World) : Prop := SampleQueue.wf (queue_ (native w)) ∧ clock_ok w.

Lemma later_refl w : ok w → later w w.
Proof. by intros [? _]. Qed.

Lemma later_compose w1 w2 w3 : later w1 w2 → later w2 w3 → later w1 w3.
Proof. intros [] []. split; congruence || done. Qed.

Lemma later_ok w w' : ok w → later w w' → ok w'.
Proof. intros [_ Hc] [Hq E _ _ _]. split; [done|]. intros n. rewrite E. apply Hc. Qed.

Lemma act_all_ok actions n :
  SampleQueue.wf (queue_ n) → ∃ n', act_all actions n = Ok n' ∧ SampleQueue.wf (queue_ n').
Proof.
  revert n. induction actions as [|[b|e|f] actions IH]; intros n Hn; [by exists n|..]; cbn [act_all act].
  - by apply IH.
  - destruct (SampleQueue.step_spec e (queue_ n) Hn) as (r & q & -> & Hq & _). simpl. by apply IH.
  - by apply IH.
Qed.

(** ** Rules of the steps *)

Lemma returns_yield w Q : ok w → (∀ w', later w w' → Q (Ok ()) w') → returns yield w Q.
Proof.
  intros [Hq Hc] HQ. unfold yield.
  destruct (act_all_ok (schedule w (yields w)) (native w) Hq) as (n & E & Hn).
  do 2 m_step. m_step. m_step. rewrite E. m_step. by apply HQ.
Qed.

Lemma returns_load {A} (f : NativeClient → A) w Q :
  ok w → (∀ w', later w w' → Q (Ok (f (native w'))) w') → returns (load f) w Q.
Proof. intros Hw HQ. unfold load, look. m_step. apply returns_yield; [done|]. intros. repeat m_step. auto. Qed.

Lemma returns_elapsed w started Q :
  ok w → 0 ≤ started ≤ ticks_max →
  Q (Ok (seconds_of_ticks (clock w (readings w) - started))) (w <| readings ::= S |>) →
  returns (elapsed started) w Q.
Proof.
  intros [_ Hc] Hs HQ. unfold elapsed, now. do 6 m_step. specialize (Hc (readings w)).
  rewrite checked_i_ok by (unfold is_i, ticks_max in *; lia). m_step. m_step. done.
Qed.

Lemma wait_loop_returns n pred w Q :
  ok w → (∀ w', later w w' → Q (Ok (pred (native w'))) w') → returns (wait_loop n pred) w Q.
Proof.
  revert w. induction n as [|n IH]; intros w Hw HQ; cbn [wait_loop]; unfold look.
  { do 3 m_step. by apply HQ, later_refl. }
  do 4 m_step. branch.
  - m_step. rewrite <-Heqb. by apply HQ, later_refl.
  - m_step. apply returns_yield; [done|]. intros w1 H1.
    apply IH; [by eapply later_ok|]. eauto using later_compose.
Qed.

Lemma returns_wait_for d pred w Q :
  ok w → (∀ w', later w w' → Q (Ok (pred (native w'))) w') → returns (wait_for d pred) w Q.
Proof. intros Hw HQ. unfold wait_for. do 2 m_step. by apply wait_loop_returns. Qed.

(** What a read of the queue for generation [g] leaves. *)
Definition queue_read_post (g : Z) (r : SampleQueue.ReadResult) (w' : World) : Prop :=
  match SampleQueue.status r with
  | SampleQueue.StSample => ∃ s q rest,
      SampleQueue.sample r = Some s ∧ SampleQueue.samples_ q = s :: rest ∧
      queue_ (native w') = q <| SampleQueue.samples_ := rest |> ∧
      SampleQueue.closed_ q = false ∧ SampleQueue.close_generation_ q = g
  | SampleQueue.StTimeout => SampleQueue.sample r = None
  | SampleQueue.StClosed => SampleQueue.sample r = None ∧
      (SampleQueue.closed_ (queue_ (native w')) = true ∨
       SampleQueue.close_generation_ (queue_ (native w')) ≠ g)
  end.

Lemma returns_queue_read_for d g w Q :
  ok w → (∀ r w', later w w' → queue_read_post g r w' → Q (Ok r) w') →
  returns (queue_read_for d g) w Q.
Proof.
  intros Hw HQ. unfold queue_read_for. m_step. apply returns_yield; [done|]. intros w1 H1.
  m_step. apply returns_wait_for; [by eapply later_ok|]. intros w2 H2. do 2 m_step.
  pose proof (later_compose _ _ _ H1 H2) as H3.
  destruct (SampleQueue.finish_read_spec _ g (queue_ (native w2)) (later_queue _ _ H3) eq_refl)
    as (r & q & E & Hq & Hr).
  m_step. m_step. rewrite E. m_step. m_step. m_step. apply HQ.
  - destruct H3. by split.
  - unfold queue_read_post. destruct (SampleQueue.status r); cbn.
    + destruct Hr as (s & rest & ? & ? & -> & ? & ?). by exists s, (queue_ (native w2)), rest.
    + by destruct Hr.
    + by destruct Hr as (? & -> & ?).
Qed.

(** ** Reading *)

(** From reading [K] of the clock on, [timeout] has passed since reading [k]. *)
Definition passed_from (K : nat) (timeout : double) (k : nat) (w : World) : Prop :=
  ∀ n, (K ≤ n)%nat → d_le timeout (seconds_of_ticks (clock w n - clock w k)) = true.

(** What [read] returns, for a call at a moment with queue generation [g] and first
    clock reading [k]. *)
Definition read_post (g : Z) (k : nat) (timeout : option double) (r : SampleQueue.ReadResult)
    (w' : World) : Prop :=
  match SampleQueue.status r with
  | SampleQueue.StSample => queue_read_post g r w'
  | SampleQueue.StTimeout => SampleQueue.sample r = None ∧
      ∃ t n, timeout = Some t ∧ readings w' = S n ∧
        d_le t (seconds_of_ticks (clock w' n - clock w' k)) = true
  | SampleQueue.StClosed => SampleQueue.sample r = None ∧
      (running_ (native w') = false ∨ faulted (client_ (native w')) = true ∨
       SampleQueue.closed_ (queue_ (native w')) = true ∨
       SampleQueue.close_generation_ (queue_ (native w')) ≠ g)
  end.

Lemma exec_then {A B} total (m : M World A) (f : A → M World B) w Q :
  returns m w (λ r w', match r with
                       | Ok a => exec total (f a) w' Q
                       | Throw e => Q (Throw e) w'
                       | UB => Q UB w'
                       end) → exec total (m ≫= f) w Q.
Proof. intros H. by apply exec_bind, exec_returns. Qed.

Lemma exec_ret {A} total (a : A) w Q : Q (Ok a) w → exec total (mret (M := M World) a) w Q.
Proof. done. Qed.

(** [w'] is a later moment, with the clock read any number of times. *)
Definition since (w w' : World) : Prop :=
  ok w' ∧ clock w' = clock w ∧ (readings w ≤ readings w')%nat.

Lemma later_since w w' : ok w → later w w' → since w w'.
Proof. intros Hw H. split; [by eapply later_ok|]. destruct H. split; [done|lia]. Qed.

Lemma since_later w w1 w2 : since w w1 → later w1 w2 → since w w2.
Proof.
  intros (Hw & Hc & Hr) H. split; [by eapply later_ok|]. destruct H. split; [congruence|lia].
Qed.

Lemma since_reading w w' : since w w' → since w (w' <| readings ::= S |>).
Proof. intros ([Hq Hc] & ? & ?). split_and!; [done|done|cbn; lia]. Qed.

(** The two tests that open an iteration of a reader, and close it. *)
Lemma exec_guard {A} total (stopped : A) (m : M World A) w0 w Q :
  since w0 w →
  (∀ w', since w0 w' → running_ (native w') = false ∨ faulted (client_ (native w')) = true →
     Q (Ok stopped) w') →
  (∀ w', since w0 w' → readings w' = readings w → exec total m w' Q) →
  exec total
    (running ← load running_;
     if negb running then mret stopped
     else faulty ← faulted_for_read; if faulty : bool then mret stopped else m) w Q.
Proof.
  intros H Hs Hm. unfold faulted_for_read.
  apply exec_then, returns_load; [apply H|]. intros w1 H1.
  destruct (running_ (native w1)) eqn:Er; simpl.
  2: { apply exec_ret, Hs; [by eapply since_later|auto]. }
  apply exec_then, returns_load; [by eapply later_ok, H1; apply H|]. intros w2 H2.
  pose proof (since_later _ _ _ H (later_compose _ _ _ H1 H2)) as H3.
  destruct (faulted (client_ (native w2))) eqn:Ef.
  - apply exec_ret, Hs; auto.
  - apply Hm; [done|]. by rewrite (later_readings _ _ H2), (later_readings _ _ H1).
Qed.

Lemma returns_wait_duration timeout started w0 w Q :
  since w0 w → 0 ≤ started ≤ ticks_max → (∀ d w', since w0 w' → Q (Ok d) w') →
  returns (match timeout with
           | Some timeout => e ← elapsed started; mret (slice timeout e)
           | None => mret kReadSlice
           end) w Q.
Proof.
  intros H Hs HQ. destruct timeout as [t|]; [|m_step; by apply HQ].
  m_step. apply returns_elapsed; [apply H|done|]. m_step. by apply HQ, since_reading.
Qed.

(** The loop returns what [read_post] says, and it returns if the timeout passes. *)
Lemma read_loop_exec total fuel g k timeout w0 w :
  since w0 w →
  (total = true → ∃ t K, timeout = Some t ∧ passed_from K t k w0 ∧ (K - readings w < fuel)%nat) →
  exec total (read_loop fuel g (clock w0 k) timeout) w (λ r w',
    ∃ res, r = Ok res ∧ since w0 w' ∧ read_post g k timeout res w').
Proof.
  intros Hw Ht.
  assert (0 ≤ clock w0 k ≤ ticks_max) as Hk.
  { destruct Hw as ([_ Hc] & E & _). rewrite <-E. apply Hc. }
  revert w Hw Ht. induction fuel as [|fuel IH]; intros w Hw Ht; cbn [read_loop].
  { destruct total; [|done]. destruct (Ht eq_refl) as (? & ? & _ & _ & ?). lia. }
  assert (∀ w', since w0 w' →
    running_ (native w') = false ∨ faulted (client_ (native w')) = true →
    ∃ res, Ok Closed = Ok res ∧ since w0 w' ∧ read_post g k timeout res w') as Hstop.
  { intros w' H' Hc. exists Closed. split_and!; [done|done|]. split; [done|]. naive_solver. }
  apply (exec_guard _ _ _ w0); [done|done|]. intros w1 H1 E1.
  apply exec_then, (returns_wait_duration _ _ w1);
    [split_and!; [apply H1|done|done]|done|]. intros d w2 (H2 & Ec2 & Er2).
  apply exec_then, returns_queue_read_for; [done|]. intros res w3 H3 Hp.
  assert (since w0 w3) as Hw3.
  { eapply since_later; [|done]. destruct H1 as (_ & ? & ?). split_and!; [done|congruence|lia]. }
  assert (readings w ≤ readings w3)%nat as Hr3 by (rewrite (later_readings _ _ H3); lia).
  destruct (SampleQueue.status res) eqn:Es;
    [rewrite bool_decide_eq_false_2 by done|rewrite bool_decide_eq_true_2 by done|
     rewrite bool_decide_eq_false_2 by done]; cbn [negb].
  - apply exec_ret. exists res. split_and!; [done|done|]. unfold read_post. by rewrite Es.
  - apply (exec_guard _ _ _ w0); [done|done|]. intros w4 H4 E4.
    assert (SampleQueue.sample res = None) as Hn by (unfold queue_read_post in Hp; by rewrite Es in Hp).
    destruct timeout as [t|].
    + apply exec_then, returns_elapsed; [apply H4|done|].
      destruct H4 as (Ho4 & Ec4 & Er4).
      destruct (d_le t (seconds_of_ticks (clock w4 (readings w4) - clock w0 k))) eqn:El.
      * apply exec_ret. exists res. split_and!; [done|by apply since_reading|].
        unfold read_post. rewrite Es. split; [done|]. exists t, (readings w4).
        split_and!; [done|done|]. cbn. by rewrite Ec4 in *.
      * apply IH; [by apply since_reading|]. intros ->.
        destruct (Ht eq_refl) as (t' & K & [= <-] & HK & Hlt). exists t, K.
        split_and!; [done|done|]. cbn.
        assert (¬ (K ≤ readings w4)%nat); [|lia].
        intros Hle. specialize (HK _ Hle). rewrite Ec4 in El. congruence.
    + apply IH; [done|]. intros ->. by destruct (Ht eq_refl) as (? & ? & ? & _).
  - apply exec_ret. exists res. split_and!; [done|done|]. unfold read_post.
    unfold queue_read_post in Hp. rewrite Es in *. naive_solver.
Qed.

(** ** Starting and stopping *)

(** [lifecycle_mutex_] is held: nobody else starts or stops the client. Its worker, the
    readers and the callers of its other methods still run. *)
Definition permitted (a : Action) : Prop :=
  match a with
  | ARunning _ | AQueue SampleQueue.EClose | AQueue SampleQueue.EReset => False
  | _ => True
  end.

Definition exclusive (w : World) : Prop :=
  ok w ∧ ∀ n, Forall permitted (schedule w n).

(** What the life cycle fixes of a client: whether it runs, whether the queue is closed,
    and its generation. *)
Definition phase (w : World) : bool * bool * Z :=
  (running_ (native w), SampleQueue.closed_ (queue_ (native w)),
   SampleQueue.close_generation_ (queue_ (native w))).

Lemma permitted_step e q r q' :
  permitted (AQueue e) → SampleQueue.wf q → SampleQueue.step e q = Ok (r, q') →
  SampleQueue.closed_ q' = SampleQueue.closed_ q ∧
  SampleQueue.close_generation_ q' = SampleQueue.close_generation_ q.
Proof.
  intros Hp Hq E. destruct e as [s| | |g]; try done; simpl in E.
  - destruct (SampleQueue.push_spec s q Hq) as (q1 & E1 & _ & _ & _ & Hg & Hc).
    rewrite E1 in E. simpl in E. by simplify_eq.
  - destruct (SampleQueue.finish_read_spec (SampleQueue.ready g q) g q Hq eq_refl)
      as (r1 & q1 & E1 & _ & Hr). rewrite E1 in E. simpl in E. simplify_eq.
    destruct (SampleQueue.status r1); [|by destruct Hr as (_ & -> & _)..].
    by destruct Hr as (? & ? & _ & _ & -> & _).
Qed.

Lemma act_all_permitted actions n :
  SampleQueue.wf (queue_ n) → Forall permitted actions →
  ∃ n', act_all actions n = Ok n' ∧ SampleQueue.wf (queue_ n') ∧ running_ n' = running_ n ∧
    SampleQueue.closed_ (queue_ n') = SampleQueue.closed_ (queue_ n) ∧
    SampleQueue.close_generation_ (queue_ n') = SampleQueue.close_generation_ (queue_ n).
Proof.
  intros Hn Ha. revert n Hn. induction Ha as [|a actions Hp Ha IH]; intros n Hn; [by exists n|].
  destruct a as [b|e|f]; [done| |]; cbn [act_all act].
  - destruct (SampleQueue.step_spec e (queue_ n) Hn) as (r & q & E & Hq & _).
    destruct (permitted_step _ _ _ _ Hp Hn E) as [<- <-]. rewrite E. simpl.
    by apply (IH {| queue_ := q; client_ := client_ n; running_ := running_ n |}).
  - by apply (IH {| queue_ := queue_ n; client_ := f (client_ n); running_ := running_ n |}).
Qed.

Lemma returns_yield_exclusive w Q :
  exclusive w → (∀ w', exclusive w' → phase w' = phase w → Q (Ok ()) w') → returns yield w Q.
Proof.
  intros [[Hq Hc] Hs] HQ. unfold yield.
  destruct (act_all_permitted (schedule w (yields w)) (native w) Hq (Hs _))
    as (n & E & Hn & Er & Eo & Eg).
  do 4 m_step. rewrite E. m_step. apply HQ.
  - by split_and!.
  - unfold phase; cbn. by rewrite Er, Eo, Eg.
Qed.

Lemma returns_load_exclusive {A} (f : NativeClient → A) w Q :
  exclusive w → (∀ w', exclusive w' → phase w' = phase w → Q (Ok (f (native w'))) w') →
  returns (load f) w Q.
Proof.
  intros Hw HQ. unfold load, look. m_step. apply returns_yield_exclusive; [done|].
  intros. repeat m_step. auto.
Qed.

(** A store of [f], which turns a phase [p] into [g p]. *)
Lemma returns_store_exclusive f g w Q :
  exclusive w →
  (∀ w', exclusive w' → let w2 := w' <| native ::= f |> in
     SampleQueue.wf (queue_ (native w2)) ∧ phase w2 = g (phase w')) →
  (∀ w', exclusive w' → phase w' = g (phase w) → Q (Ok ()) w') → returns (store f) w Q.
Proof.
  intros Hw Hf HQ. unfold store. m_step. apply returns_yield_exclusive; [done|].
  intros w1 H1 E1. m_step. destruct (Hf w1 H1) as [Hq E2]. apply HQ.
  - destruct H1 as [[_ Hc] Hs]. by split_and!.
  - by rewrite E2, E1.
Qed.

Lemma close_wf q : SampleQueue.wf q → SampleQueue.wf (SampleQueue.close q).
Proof.
  intros (? & ? & ? & ?). split_and!; [done..|]. apply (wrap_u_range 64). lia.
Qed.

Lemma reset_wf q : SampleQueue.wf q → SampleQueue.wf (SampleQueue.reset q).
Proof. intros (? & ? & ? & ?). split_and!; cbn; [done|lia|by vm_compute|done]. Qed.

Lemma returns_set_running b w Q :
  exclusive w →
  (∀ w', exclusive w' → phase w' = (b, (phase w).1.2, (phase w).2) → Q (Ok ()) w') →
  returns (store (λ n, n <| running_ := b |>)) w Q.
Proof.
  intros Hw HQ. apply (returns_store_exclusive _ (λ p, (b, p.1.2, p.2))); [done| |done].
  intros w' [[Hq _] _]. by split.
Qed.

Lemma returns_close w Q :
  exclusive w →
  (∀ w', exclusive w' → phase w' = ((phase w).1.1, true, u64 ((phase w).2 + 1)) → Q (Ok ()) w') →
  returns (store (λ n, n <| queue_ ::= SampleQueue.close |>)) w Q.
Proof.
  intros Hw HQ.
  apply (returns_store_exclusive _ (λ p, (p.1.1, true, u64 (p.2 + 1)))); [done| |done].
  intros w' [[Hq _] _]. split; [by apply close_wf|done].
Qed.

Lemma returns_reset w Q :
  exclusive w →
  (∀ w', exclusive w' → phase w' = ((phase w).1.1, false, (phase w).2) → Q (Ok ()) w') →
  returns (store (λ n, n <| queue_ ::= SampleQueue.reset |>)) w Q.
Proof.
  intros Hw HQ. apply (returns_store_exclusive _ (λ p, (p.1.1, false, p.2))); [done| |done].
  intros w' [[Hq _] _]. split; [by apply reset_wf|done].
Qed.

Lemma exclusive_client f w : exclusive w → exclusive (w <| native ::= λ n, n <| client_ ::= f |> |>).
Proof. intros [[Hq Hc] Hs]. by split_and!. Qed.

(** Starting the core client leaves the phase alone. *)
Lemma core_start_safe fuel created callback w :
  exclusive w → created ≠ UB →
  safe (core_start fuel created callback) w (λ r w',
    r ≠ UB ∧ exclusive w' ∧ phase w' = phase w).
Proof.
  intros Hw Hc. revert w Hw. induction fuel as [|fuel IH]; intros w Hw; [done|]. cbn [core_start].
  m_step. apply returns_safe, returns_load_exclusive; [done|]. intros w1 H1 E1.
  destruct (worker_ (client_ (native w1))) as [t|].
  - branch; [branch|].
    + m_step. by split_and!.
    + rewrite <-E1. by apply IH.
    + m_step. m_step. rewrite <-E1.
      eapply safe_mono; [apply IH, exclusive_client, H1|]. intros r w' (? & ? & ->). done.
  - destruct (start_worker created callback (client_ (native w1))) as [r i] eqn:Es.
    m_step. m_step. m_step. split_and!; [|by apply (exclusive_client (λ _, i))|done].
    unfold start_worker in Es. destruct created; by simplify_eq.
Qed.

(** What a call of [read] at [w] may end with. *)
Definition read_spec (w : World) (timeout : option double) (r : Res SampleQueue.ReadResult)
    (w' : World) : Prop :=
  match r with
  | Ok res => read_post (SampleQueue.generation (queue_ (native w))) (readings w) timeout res w'
  | Throw e => w' = w ∧
      ∃ t, timeout = Some t ∧ require_representable_timeout t "timeout" = Throw e
  | UB => False
  end.

Lemma require_representable_not_UB t name : require_representable_timeout t name ≠ UB.
Proof. unfold require_representable_timeout, throw. repeat case_match; done. Qed.

Lemma read_exec total fuel timeout w :
  ok w →
  (total = true → ∃ t K, timeout = Some t ∧ passed_from K t (readings w) w ∧
     (K - S (readings w) < fuel)%nat) →
  exec total (read fuel timeout) w (read_spec w timeout).
Proof.
  intros Hw Ht. unfold read.
  apply exec_then. destruct timeout as [t|].
  - m_step. destruct (require_representable_timeout t "timeout") as [[]|e|] eqn:Er.
    + apply exec_then. unfold look. do 3 m_step. apply exec_then. unfold now. do 5 m_step.
      eapply exec_mono; [apply (read_loop_exec _ _ _ (readings w) _ w)|].
      * by apply since_reading, later_since, later_refl.
      * intros Htt. destruct (Ht Htt) as (t' & K & [= <-] & HK & Hl). by exists t, K.
      * by intros r w' (res & -> & _ & H).
    + split; [done|]. by exists t.
    + by apply require_representable_not_UB in Er.
  - m_step. apply exec_then. unfold look. do 3 m_step. apply exec_then. unfold now. do 5 m_step.
    eapply exec_mono; [apply (read_loop_exec _ _ _ (readings w) _ w)|].
    + by apply since_reading, later_since, later_refl.
    + intros Htt. by destruct (Ht Htt) as (t' & K & ? & _).
    + by intros r w' (res & -> & _ & H).
Qed.

(** What [start] leaves, by its outcome, from the phase [p] before it. *)
Definition start_spec (p : bool * bool * Z) (r : Res ()) (w' : World) : Prop :=
  match r with
  | Ok _ => phase w' = p ∧ p.1.1 = true ∨ phase w' = (true, false, u64 (p.2 + 1))
  | Throw _ => phase w' = (false, true, u64 (u64 (p.2 + 1) + 1))
  | UB => False
  end.

Lemma safe_then {A B} (m : M World A) (f : A → M World B) w Q :
  returns m w (λ r w', match r with
                       | Ok a => safe (f a) w' Q
                       | Throw e => Q (Throw e) w'
                       | UB => Q UB w'
                       end) → safe (m ≫= f) w Q.
Proof. intros H. by apply safe_bind, returns_safe. Qed.

(** The part of [start] after the queue was emptied. *)
Lemma start_body_safe fuel created callback g w :
  exclusive w → created ≠ UB → phase w = (false, false, g) →
  safe (m_catch any_exception
      (_ ← core_start fuel created (Some callback); store (λ n, n <| running_ := true |>))
      (λ e, _ ← store (λ n, n <| running_ := false |>);
            _ ← store (λ n, n <| queue_ ::= SampleQueue.close |>); lift (Throw e))) w
    (λ r w', match r with
             | Ok _ => phase w' = (true, false, g)
             | Throw _ => phase w' = (false, true, u64 (g + 1))
             | UB => False
             end).
Proof.
  intros Hw Hc Hp. m_step. m_step. eapply safe_mono; [by apply core_start_safe|].
  intros r w1 (Hr & H1 & E1). rewrite Hp in E1. destruct r as [[]|e|]; [|clear Hr|done].
  - apply returns_safe, returns_set_running; [done|]. intros w2 _ E2. by rewrite E1 in E2.
  - simpl. apply safe_then, returns_set_running; [done|]. intros w2 H2 E2. rewrite E1 in E2.
    apply safe_then, returns_close; [done|]. intros w3 H3 E3. rewrite E2 in E3. m_step. done.
Qed.

(** ** Waiting for the first sample *)

(** No sample of the current session has been delivered. *)
Definition undelivered (i : Impl) : Prop := generation_ i = 0 ∨ delivered_generation_ i ≠ generation_ i.

(** No sample is delivered, now or by what other threads do. *)
Definition silent (w : World) : Prop :=
  ok w ∧ undelivered (client_ (native w)) ∧
  ∀ n f, AClient f ∈ schedule w n → ∀ i, undelivered i → undelivered (f i).

Lemma act_all_silent actions n n' :
  undelivered (client_ n) →
  (∀ f, AClient f ∈ actions → ∀ i, undelivered i → undelivered (f i)) →
  act_all actions n = Ok n' → undelivered (client_ n').
Proof.
  revert n. induction actions as [|[b|e|f] actions IH]; intros n Hn Ha E; cbn [act_all act] in E.
  - by simplify_eq/=.
  - eapply IH; [|by intros f Hf; apply Ha, elem_of_cons; right|exact E]. done.
  - res_inv. eapply IH; [|by intros f Hf; apply Ha, elem_of_cons; right|done].
    destruct (SampleQueue.step e (queue_ n)) as [[? ?]|?|]; by simplify_eq/=.
  - eapply IH; [|by intros f' Hf; apply Ha, elem_of_cons; right|exact E]. cbn. apply Ha; [|done].
    apply elem_of_cons. by left.
Qed.

Lemma returns_yield_silent w Q :
  silent w → (∀ w', silent w' → later w w' → Q (Ok ()) w') → returns yield w Q.
Proof.
  intros (Hok & Hu & Ha) HQ. pose proof Hok as [Hq Hc]. unfold yield.
  destruct (act_all_ok (schedule w (yields w)) (native w) Hq) as (n & E & Hn).
  do 4 m_step. rewrite E. m_step. apply HQ; [|done].
  split_and!; [done|exact (act_all_silent _ _ _ Hu (Ha _) E)|done].
Qed.

Lemma returns_load_silent {A} (f : NativeClient → A) w Q :
  silent w → (∀ w', silent w' → later w w' → Q (Ok (f (native w'))) w') → returns (load f) w Q.
Proof.
  intros Hw HQ. unfold load, look. m_step. apply returns_yield_silent; [done|].
  intros. repeat m_step. auto.
Qed.

Lemma returns_wait_silent d pred w Q :
  silent w → (∀ b w', silent w' → later w w' → Q (Ok b) w') → returns (wait_for d pred) w Q.
Proof.
  unfold wait_for. intros Hw HQ. do 2 m_step. generalize (wakeups w (yields w) d). intros k.
  revert w Hw HQ. induction k as [|k IH]; intros w Hw HQ; cbn [wait_loop]; unfold look.
  { do 3 m_step. apply HQ; [done|]. by apply later_refl, Hw. }
  do 4 m_step. branch.
  - m_step. apply HQ; [done|]. by apply later_refl, Hw.
  - m_step. apply returns_yield_silent; [done|]. intros w1 H1 L1.
    apply IH; [done|]. eauto using later_compose.
Qed.

Lemma silent_reading w : silent w → silent (w <| readings ::= S |>).
Proof. intros ([Hq Hc] & Hu & Ha). by split_and!. Qed.

(** The refusal of a duration. *)
Definition refused {A} (r : Res A) : Prop := ∃ msg, r = throw invalid_argument msg.

Lemma core_wait_silent d w Q :
  silent w →
  (∀ r w', r = Ok false ∨ refused r → silent w' → clock w' = clock w →
     readings w' = S (readings w) → Q r w') →
  returns (core_wait_for_first_sample d) w Q.
Proof.
  intros Hw HQ. unfold core_wait_for_first_sample. m_step. unfold now. do 5 m_step.
  pose proof (silent_reading w Hw) as Hw1. do 2 m_step.
  destruct (checked_deadline_cases (clock w (readings w)) d) as [(t & _ & -> & _)|[msg ->]].
  { apply Hw. }
  2: { apply HQ; [right; by exists msg|done|done|done]. }
  m_step. apply returns_load_silent; [done|]. intros w2 H2 L2.
  assert (∀ w3, silent w3 → later w2 w3 → Q (Ok false) w3) as Hf.
  { intros w3 H3 L3. apply HQ; [by left|done|..].
    - by rewrite (later_clock _ _ L3), (later_clock _ _ L2).
    - by rewrite (later_readings _ _ L3), (later_readings _ _ L2). }
  branch; [m_step; apply Hf; [done|]; by apply later_refl, H2|].
  m_step. apply returns_wait_silent; [done|]. intros b w3 H3 L3. unfold look. do 4 m_step.
  branch; m_step; [by apply Hf|].
  apply negb_false_iff, Z.eqb_eq in Heqb0. apply Z.eqb_neq in Heqb.
  destruct H3 as (Ho & [Hz|Hd] & Ha); [congruence|].
  rewrite (proj2 (Z.eqb_neq _ _)) by congruence. apply Hf; [|done]. split_and!; [done|by right|done].
Qed.

(** The loop ends without a sample, in at most the passes the clock allows. *)
Lemma first_sample_loop_silent fuel g k timeout K w0 w :
  passed_from K timeout k w0 → 0 ≤ clock w0 k ≤ ticks_max →
  silent w → clock w = clock w0 → (K - readings w < fuel)%nat →
  returns (first_sample_loop fuel g (clock w0 k) timeout) w (λ r _, r = Ok false ∨ refused r).
Proof.
  intros HK Hk. revert w. induction fuel as [|fuel IH]; intros w Hw Ec Hf; [lia|].
  cbn [first_sample_loop]. unfold faulted_for_read.
  m_step. apply returns_load_silent; [done|]. intros w1 H1 L1. branch; [m_step; by left|].
  m_step. apply returns_load_silent; [done|]. intros w2 H2 L2. branch; [m_step; by left|].
  m_step. apply returns_load_silent; [done|]. intros w3 H3 L3. branch; [m_step; by left|].
  pose proof (later_compose _ _ _ (later_compose _ _ _ L1 L2) L3) as L.
  m_step. apply returns_elapsed; [apply H3|done|].
  m_step. apply core_wait_silent; [by apply silent_reading|]. intros r w4 Hr H4 Ec4 Er4.
  destruct Hr as [->|[msg ->]]; [|right; by exists msg].
  m_step. apply returns_load_silent; [done|]. intros w5 H5 L5. branch; [m_step; by left|].
  assert (clock w5 = clock w0) as E5.
  { by rewrite (later_clock _ _ L5), Ec4, <-Ec, <-(later_clock _ _ L). }
  assert (readings w5 = S (S (readings w))) as R5.
  { by rewrite (later_readings _ _ L5), Er4, <-(later_readings _ _ L). }
  m_step. apply returns_elapsed; [apply H5|done|]. branch; [m_step; by left|].
  apply IH; [by apply silent_reading|done|]. cbn. rewrite R5.
  assert (¬ (K ≤ readings w5)%nat); [|lia].
  intros Hle. specialize (HK _ Hle).
  match goal with H : d_le _ _ = false |- _ => rewrite E5 in H; congruence end.
Qed.

(** ** Properties *)

(** [wait_for_first_sample] reports no sample that was not delivered. If the current
    session has delivered none and nothing other threads do delivers one, the call ends
    within the passes its timeout allows, with [false] or with the refusal of an
    unrepresentable duration. *)
Theorem first_sample_needs_delivery fuel timeout K w :
  silent w → passed_from K timeout (readings w) w → (K - S (readings w) < fuel)%nat →
  returns (wait_for_first_sample fuel timeout) w (λ r _, r = Ok false ∨ refused r).
Proof.
  intros Hw HK Hf. unfold wait_for_first_sample. do 2 m_step.
  destruct (require_representable_timeout timeout "timeout") as [[]|e|] eqn:Er.
  - unfold look, now. do 9 m_step.
    apply (first_sample_loop_silent _ _ _ _ K w); [done|apply Hw|by apply silent_reading|done|done].
  - right. unfold require_representable_timeout, throw in Er.
    repeat case_match; simplify_eq; by eexists.
  - by apply require_representable_not_UB in Er.
Qed.

(** What [read] returns, whatever other threads do meanwhile. A sample is the oldest
    of the queue generation that was current at the call, so a read never crosses a
    [stop] or a restart; [Closed] only when the client does not run, has a fault, or the
    queue was closed; [Timeout] only when the given time has passed on the clock. The
    only exception is the refusal of an unrepresentable timeout, before any effect. *)
Theorem native_read_exact fuel timeout w :
  ok w → safe (read fuel timeout) w (read_spec w timeout).
Proof. intros Hw. by apply exec_safe, read_exec. Qed.

(** A read with a timeout returns. If from its [K]-th reading on the clock shows that
    the timeout has passed, [read] ends within as many passes of its loop, whatever
    other threads do, with one of the results above. *)
Theorem native_read_returns fuel timeout K w :
  ok w → passed_from K timeout (readings w) w → (K - S (readings w) < fuel)%nat →
  returns (read fuel (Some timeout)) w (read_spec w (Some timeout)).
Proof. intros Hw HK Hf. apply exec_total, read_exec; [done|]. intros _. by exists timeout, K. Qed.

(** [start] is all or nothing for the readers. While it holds the life-cycle mutex,
    whatever the worker and the readers do: if it returns, the client runs with an open
    queue of the next generation (or was running without a fault, and nothing changed);
    if the core client throws, the exception goes on, the client does not run, and the
    queue is closed. *)
Theorem native_start_result fuel created callback w :
  exclusive w → created ≠ UB →
  safe (start fuel created callback) w (start_spec (phase w)).
Proof.
  intros Hw Hc. unfold start.
  apply safe_then, returns_load_exclusive; [done|]. intros w1 H1 E1.
  apply safe_then, returns_load_exclusive; [done|]. intros w2 H2 E2. rewrite E1 in E2.
  branch.
  { m_step. left. split; [done|]. apply andb_prop in Heqb as [Hr _]. by rewrite <-E1. }
  apply safe_then, returns_set_running; [done|]. intros w3 H3 E3. rewrite E2 in E3.
  apply safe_then, returns_close; [done|]. intros w4 H4 E4. rewrite E3 in E4.
  apply safe_then, returns_reset; [done|]. intros w5 H5 E5. rewrite E4 in E5.
  eapply safe_mono; [by apply start_body_safe|].
  intros [[]|e|] w6 H6; [by right|done|done].
Qed.

(** [stop] always returns with the client not running and the queue closed in the
    next generation, so that every reader of an earlier one ends. *)
Theorem native_stop_result w :
  exclusive w →
  returns stop w (λ r w', r = Ok () ∧ phase w' = (false, true, u64 ((phase w).2 + 1))).
Proof.
  intros Hw. unfold stop, core_stop.
  m_step. apply returns_set_running; [done|]. intros w1 H1 E1.
  m_step. apply returns_close; [done|]. intros w2 H2 E2. rewrite E1 in E2. cbn in E2.
  m_step. apply (returns_store_exclusive _ id); [done| |].
  { intros w' [[Hq _] _]. by split. }
  intros w3 H3 E3. apply (returns_store_exclusive _ id); [done| |].
  { intros w' [[Hq _] _]. by split. }
  intros w4 H4 E4. split; [done|]. by rewrite E4, E3.
Qed.

(** C32: what [read] returns, whatever other threads do meanwhile. A sample is the oldest of
    the queue generation that was current at the call, so a read never crosses a [stop] or
    a restart; [Closed] only when the client does not run, has a fault, or the queue was
    closed; [Timeout] only when the given time has passed on the clock; the only exception
    is the refusal of an unrepresentable timeout, before any effect. With a timeout it
    does return: once the clock shows from its [K]-th reading on that the time has passed,
    [read] ends within as many passes of its loop. *)
Theorem native_read_result fuel timeout w :
  ok w →
  safe (read fuel timeout) w (read_spec w timeout) ∧
  ∀ seconds K, timeout = Some seconds → passed_from K seconds (readings w) w →
    (K - S (readings w) < fuel)%nat → returns (read fuel timeout) w (read_spec w timeout).
Proof.
  intros Hw. split; [by apply native_read_exact|]. intros seconds K -> HK Hf.
  by eapply native_read_returns.
Qed.

(** [start] and [stop] are all or nothing for the readers. While [start] holds the
    life-cycle mutex, whatever the worker and the readers do: if it returns, the client
    runs with an open queue of the next generation (or was running without a fault, and
    nothing changed); if the core client throws, the exception goes on, the client does
    not run, and the queue is closed. [stop] always returns, with the client not running
    and the queue closed in the next generation, so that every earlier reader ends. *)
Theorem native_start_stop fuel created callback w :
  exclusive w → created ≠ UB →
  safe (start fuel created callback) w (start_spec (phase w)) ∧
  returns stop w (λ r w', r = Ok () ∧ phase w' = (false, true, u64 ((phase w).2 + 1))).
Proof. intros Hw Hc. split; [by apply native_start_result|by apply native_stop_result]. Qed.

End native.

(** ** A concrete client

    A queue of two samples; the worker pushes at the third yield, and the clock moves
    twenty milliseconds between readings. *)
Definition some_sample : Sample :=
  {| Sample.rdt_sequence := 1; Sample.ft_sequence := 2; Sample.status := 0;
     Sample.raw_wrench := [0; 0; 0; 0; 0; 0];
     Sample.force := [d_of_Z 0; d_of_Z 0; d_of_Z 0]; Sample.torque := [d_of_Z 0; d_of_Z 0; d_of_Z 0];
     Sample.force_unit := ForceUnit.Newton; Sample.torque_unit := TorqueUnit.NewtonMeter;
     Sample.configuration_revision := 1; Sample.received_at := 5 |}.

Definition demo (running : bool) (push_at : nat) : World :=
  {| native := {| queue_ := {| SampleQueue.capacity_ := 2; SampleQueue.samples_ := [];
                               SampleQueue.dropped_count_ := 0;
                               SampleQueue.close_generation_ := 7;
                               SampleQueue.closed_ := false |};
                  client_ := initial_impl Config.default_Config; running_ := running |};
     schedule := λ n, if (n =? push_at)%nat then [AQueue (SampleQueue.EPush some_sample)] else [];
     wakeups := λ _ _, 1%nat; yields := 0;
     clock := λ n, if (n <? 6)%nat then 20000000 * Z.of_nat n else 1000000000;
     readings := 0 |}.

Lemma demo_ok running push_at : ok (demo running push_at).
Proof.
  split; [by vm_compute|]. intros n. cbn [demo clock]. unfold ticks_max.
  destruct (Nat.ltb_spec n 6); lia.
Qed.

Lemma demo_passed running push_at : passed_from 6 (d_ratio 1 10) 0 (demo running push_at).
Proof.
  intros n Hn. cbn [demo clock]. destruct (Nat.ltb_spec n 6); [lia|]. by vm_compute.
Qed.

Lemma demo_exclusive running push_at : exclusive (demo running push_at).
Proof.
  split; [apply demo_ok|]. intros n. cbn. destruct (n =? push_at)%nat; by repeat constructor.
Qed.

Lemma native_read_result_witness :
  returns (read (P:=LinuxX86_64) 6 (Some (d_ratio 1 10))) (demo true 300)
    (read_spec (P:=LinuxX86_64) (demo true 300) (Some (d_ratio 1 10))).
Proof.
  destruct (native_read_result (P:=LinuxX86_64) 6 (Some (d_ratio 1 10)) (demo true 300)) as [_ H];
    [apply demo_ok|].
  apply (H (d_ratio 1 10) 6%nat); [reflexivity|apply demo_passed|cbn; lia].
Defined.

Lemma native_start_stop_witness :
  safe (start 3 (throw runtime_error "no thread") 7) (demo false 3) (start_spec (false, false, 7)) ∧
  returns stop (demo false 3) (λ r w', r = Ok () ∧ phase w' = (false, true, 8)).
Proof.
  apply (native_start_stop 3 (throw runtime_error "no thread") 7 (demo false 3));
    [apply demo_exclusive|discriminate].
Defined.

Lemma first_sample_needs_delivery_witness :
  returns (wait_for_first_sample (P:=LinuxX86_64) 6 (d_ratio 1 10)) (demo true 3)
    (λ r _, r = Ok false ∨ refused r).
Proof.
  apply (first_sample_needs_delivery (P:=LinuxX86_64) 6 _ 6); [|apply demo_passed|cbn; lia].
  split_and!; [apply demo_ok|by left|].
  intros n f Hf. exfalso. cbn in Hf. destruct (n =? 3)%nat.
  - apply elem_of_cons in Hf as [Hf|Hf]; [discriminate Hf|]. by apply elem_of_nil in Hf.
  - by apply elem_of_nil in Hf.
Defined.

End NativeClient.
