(* ===== verification/Bindings.v ===== *)
(** * The Python surface: bindings/python/bind_types.cpp and bindings/python/module.cpp

    The extension module declares enumerations, classes with attributes, and exception
    classes. The declarations are data, modelled as tables: the names of the enumerators,
    the accessors of the attributes, the registered exceptions. How pybind11 turns a C++
    value into a Python object is its own business and not modelled; an attribute is the
    pair of C++ functions the module hands to it. *)

From Stdlib Require Import ZArith Lia String.
From S2P Require Import Prelude Floats Clock Types Status SampleQueue.
Import Fp.

Module Bindings.

(** ** Enumerations *)

(** Source: bindings/python/bind_types.cpp:32-38, [bind_types]. *)
Definition force_unit_values : list (string * ForceUnit) :=
  [("UNKNOWN", ForceUnit.Unknown); ("POUND_FORCE", ForceUnit.PoundForce);
   ("NEWTON", ForceUnit.Newton); ("KILO_POUND_FORCE", ForceUnit.KiloPoundForce);
   ("KILO_NEWTON", ForceUnit.KiloNewton);
   ("KILOGRAM_FORCE", ForceUnit.KilogramForce)]%string.

(** Source: bindings/python/bind_types.cpp:40-48, [bind_types]. *)
Definition torque_unit_values : list (string * TorqueUnit) :=
  [("UNKNOWN", TorqueUnit.Unknown); ("POUND_FORCE_INCH", TorqueUnit.PoundForceInch);
   ("POUND_FORCE_FOOT", TorqueUnit.PoundForceFoot);
   ("NEWTON_METER", TorqueUnit.NewtonMeter);
   ("NEWTON_MILLIMETER", TorqueUnit.NewtonMillimeter);
   ("KILOGRAM_FORCE_CENTIMETER", TorqueUnit.KilogramForceCentimeter);
   ("KILO_NEWTON_METER", TorqueUnit.KiloNewtonMeter)]%string.

(** Source: bindings/python/bind_types.cpp:50-52, [bind_types]. *)
Definition calibration_source_values : list (string * CalibrationSource) :=
  [("SENSOR", CalibrationSource.Sensor); ("OVERRIDE", CalibrationSource.Override)]%string.

(** Source: bindings/python/bind_types.cpp:54-56, [bind_types]. *)
Definition recovery_policy_values : list (string * RecoveryPolicy) :=
  [("RECONNECT", RecoveryPolicy.Reconnect); ("FAIL_STOP", RecoveryPolicy.FailStop)]%string.

(** Source: bindings/python/bind_types.cpp:58-63, [bind_types]. *)
Definition client_state_values : list (string * ClientState) :=
  [("STOPPED", ClientState.Stopped); ("CONNECTING", ClientState.Connecting);
   ("STREAMING", ClientState.Streaming); ("BACKOFF", ClientState.Backoff);
   ("FAULTED", ClientState.Faulted)]%string.

(** Source: bindings/python/bind_types.cpp:65-74, [bind_types]. *)
Definition fault_code_values : list (string * FaultCode) :=
  [("NONE", FaultCode.None); ("SENSOR_CONFIGURATION", FaultCode.SensorConfiguration);
   ("TIMEOUT", FaultCode.Timeout); ("SOCKET", FaultCode.Socket);
   ("SERIOUS_STATUS", FaultCode.SeriousStatus); ("FT_STALL", FaultCode.FtStall);
   ("FT_BACKWARD", FaultCode.FtBackward); ("MALFORMED_STORM", FaultCode.MalformedStorm);
   ("CALLBACK", FaultCode.Callback)]%string.

(** Source: bindings/python/bind_types.cpp:76-79, [bind_types]. *)
Definition status_severity_values : list (string * Status.StatusSeverity) :=
  [("OK", Status.SeverityOk); ("WARN", Status.SeverityWarn);
   ("ERROR", Status.SeverityError)]%string.

(** Source: bindings/python/module.cpp:43-46, [_native]. *)
Definition read_status_values : list (string * SampleQueue.ReadStatus) :=
  [("SAMPLE", SampleQueue.StSample); ("TIMEOUT", SampleQueue.StTimeout);
   ("CLOSED", SampleQueue.StClosed)]%string.

(** ** Attributes *)

(** An attribute of the class that wraps [O]. *)
Record Attribute (O : Type) := {
  attr_name : string;
  attr_type : Type;
  getter : O → attr_type;
  setter : option (attr_type → O → O)
}.
#[global] Arguments attr_name {O} a.
#[global] Arguments attr_type {O} a.
#[global] Arguments getter {O} a o.
#[global] Arguments setter {O} a.

(** [def_readwrite], [def_property] and [def_readonly]. *)
Definition read_write {O V} (name : string) (get : O → V) (set : V → O → O) : Attribute O :=
  {| attr_name := name; attr_type := V; getter := get; setter := Some set |}.
Definition property {O V} (name : string) (get : O → V) (set : V → O → O) : Attribute O :=
  {| attr_name := name; attr_type := V; getter := get; setter := Some set |}.
Definition read_only {O V} (name : string) (get : O → V) : Attribute O :=
  {| attr_name := name; attr_type := V; getter := get; setter := None |}.

(** Source: bindings/python/bind_types.cpp:15-18, [duration_getter]: a duration is its
    count of seconds. *)
Definition duration_getter {O} (member : O → double) (owner : O) : double := member owner.

(** Source: bindings/python/bind_types.cpp:20-25, [duration_setter]. *)
Definition duration_setter {O} (member : double → O → O) (seconds : double) (owner : O) : O :=
  member seconds owner.

(** Source: bindings/python/bind_types.cpp:138-142, [bind_types]: the ticks of the steady
    clock are nanoseconds. *)
Definition received_at_ns (sample : Sample) : Z := Sample.received_at sample.

(** Source: bindings/python/bind_types.cpp:183-189, [bind_types]. *)
Definition last_record_age (health : HealthSnapshot) : option double :=
  match HealthSnapshot.last_record_age health with Some age => Some age | None => None end.

(** Source: bindings/python/bind_types.cpp:81-88, [bind_types]. *)
Definition calibration_attributes : list (Attribute Calibration) :=
  [read_write "counts_per_force_unit" Calibration.counts_per_force_unit
     (λ v o, o <| Calibration.counts_per_force_unit := v |>);
   read_write "counts_per_torque_unit" Calibration.counts_per_torque_unit
     (λ v o, o <| Calibration.counts_per_torque_unit := v |>);
   read_write "force_unit" Calibration.force_unit (λ v o, o <| Calibration.force_unit := v |>);
   read_write "torque_unit" Calibration.torque_unit
     (λ v o, o <| Calibration.torque_unit := v |>)].

(** Source: bindings/python/bind_types.cpp:90-95, [bind_types]. *)
Definition sensor_configuration_attributes : list (Attribute SensorConfiguration) :=
  [read_write "product_name" SensorConfiguration.product_name
     (λ v o, o <| SensorConfiguration.product_name := v |>);
   read_write "calibration" SensorConfiguration.calibration
     (λ v o, o <| SensorConfiguration.calibration := v |>);
   read_write "source" SensorConfiguration.source
     (λ v o, o <| SensorConfiguration.source := v |>);
   read_write "revision" SensorConfiguration.revision
     (λ v o, o <| SensorConfiguration.revision := v |>)].

(** Source: bindings/python/bind_types.cpp:97-124, [bind_types]. *)
Definition config_attributes : list (Attribute Config) :=
  [read_write "sensor_host" Config.sensor_host (λ v o, o <| Config.sensor_host := v |>);
   read_write "rdt_port" Config.rdt_port (λ v o, o <| Config.rdt_port := v |>);
   read_write "http_port" Config.http_port (λ v o, o <| Config.http_port := v |>);
   property "receive_timeout" (duration_getter Config.receive_timeout)
     (duration_setter (λ v o, o <| Config.receive_timeout := v |>));
   property "configuration_connect_timeout" (duration_getter Config.configuration_connect_timeout)
     (duration_setter (λ v o, o <| Config.configuration_connect_timeout := v |>));
   property "configuration_timeout" (duration_getter Config.configuration_timeout)
     (duration_setter (λ v o, o <| Config.configuration_timeout := v |>));
   property "reconnect_initial_delay" (duration_getter Config.reconnect_initial_delay)
     (duration_setter (λ v o, o <| Config.reconnect_initial_delay := v |>));
   property "reconnect_max_delay" (duration_getter Config.reconnect_max_delay)
     (duration_setter (λ v o, o <| Config.reconnect_max_delay := v |>));
   read_write "sample_rate_limit_hz" Config.sample_rate_limit_hz
     (λ v o, o <| Config.sample_rate_limit_hz := v |>);
   read_write "deliver_samples_with_error_status" Config.deliver_samples_with_error_status
     (λ v o, o <| Config.deliver_samples_with_error_status := v |>);
   read_write "recovery_policy" Config.recovery_policy
     (λ v o, o <| Config.recovery_policy := v |>);
   read_write "calibration_override" Config.calibration_override
     (λ v o, o <| Config.calibration_override := v |>)].

(** Source: bindings/python/bind_types.cpp:126-142, [bind_types]. *)
Definition sample_attributes : list (Attribute Sample) :=
  [read_only "rdt_sequence" Sample.rdt_sequence;
   read_only "ft_sequence" Sample.ft_sequence;
   read_only "status" Sample.status;
   read_only "raw_wrench" Sample.raw_wrench;
   read_only "force" Sample.force;
   read_only "torque" Sample.torque;
   read_only "force_unit" Sample.force_unit;
   read_only "torque_unit" Sample.torque_unit;
   read_only "configuration_revision" Sample.configuration_revision;
   read_only "received_at_ns" received_at_ns].

(** Source: bindings/python/bind_types.cpp:144-192, [bind_types]. *)
Definition health_attributes : list (Attribute HealthSnapshot) :=
  [read_only "state" HealthSnapshot.state;
   read_only "fault_code" HealthSnapshot.fault_code;
   read_only "sensor_host" HealthSnapshot.sensor_host;
   read_only "rdt_port" HealthSnapshot.rdt_port;
   read_only "sensor_configuration" HealthSnapshot.sensor_configuration;
   read_only "last_rdt_sequence" HealthSnapshot.last_rdt_sequence;
   read_only "last_ft_sequence" HealthSnapshot.last_ft_sequence;
   read_only "last_status" HealthSnapshot.last_status;
   read_only "receive_rate_hz" HealthSnapshot.receive_rate_hz;
   read_only "delivery_rate_hz" HealthSnapshot.delivery_rate_hz;
   read_only "received_count" HealthSnapshot.received_count;
   read_only "delivered_count" HealthSnapshot.delivered_count;
   read_only "rate_limited_count" HealthSnapshot.rate_limited_count;
   read_only "device_error_count" HealthSnapshot.device_error_count;
   read_only "warning_count" HealthSnapshot.warning_count;
   read_only "lost_count" HealthSnapshot.lost_count;
   read_only "duplicate_count" HealthSnapshot.duplicate_count;
   read_only "out_of_order_count" HealthSnapshot.out_of_order_count;
   read_only "malformed_count" HealthSnapshot.malformed_count;
   read_only "reconnect_count" HealthSnapshot.reconnect_count;
   read_only "timeout_count" HealthSnapshot.timeout_count;
   read_only "callback_error_count" HealthSnapshot.callback_error_count;
   read_only "ft_stall_count" HealthSnapshot.ft_stall_count;
   read_only "ft_backward_count" HealthSnapshot.ft_backward_count;
   read_only "ft_restart_count" HealthSnapshot.ft_restart_count;
   read_only "calibration_change_count" HealthSnapshot.calibration_change_count;
   read_only "last_record_age" last_record_age;
   read_only "last_error" HealthSnapshot.last_error;
   read_only "last_ft_progress" HealthSnapshot.last_ft_progress].

(** Source: bindings/python/module.cpp:48-51, [_native]. *)
Definition read_result_attributes : list (Attribute SampleQueue.ReadResult) :=
  [read_only "status" SampleQueue.status; read_only "sample" SampleQueue.sample].

(** ** Exceptions *)

(** The class an exception class derives from, among those of the model. *)
Definition base_class (k : exn_class) : option exn_class :=
  match k with
  | invalid_argument => Some logic_error
  | DiscoveryError | ProtocolError | NotConnectedError => Some runtime_error
  | _ => None
  end.

(** A handler for [k'] catches an exception of class [k]. *)
Definition derives (k k' : exn_class) : bool :=
  bool_decide (k = k') || bool_decide (base_class k = Some k').

(** Source: bindings/python/module.cpp:34-39, [_native]: the C++ class, and the Python class
    and its base. *)
Definition registered_exceptions : list (exn_class * (string * string)) :=
  [(invalid_argument, ("ValidationError", "ValueError"));
   (NotConnectedError, ("NotConnectedError", "ConnectionError"));
   (DiscoveryError, ("DiscoveryError", "ConnectionError"))]%string.

(** The translators are tried from the one registered last; an exception none of them
    catches is left to pybind11's defaults. *)
Definition translate (table : list (exn_class * (string * string))) (k : exn_class)
    : option (string * string) :=
  snd <$> List.find (λ '(k', _), derives k k') (reverse table).

(** ** Properties *)

(** A table of names that identifies each value of the type by exactly one name. *)
Definition bijective {A} (table : list (string * A)) : Prop :=
  NoDup table.*1 ∧ NoDup table.*2 ∧ ∀ a, a ∈ table.*2.

(** Attributes that behave as the members of a record: distinct names; what is written is
    read back, writing back what was read changes nothing, and no write shows in another
    attribute. *)
Definition lawful {O} (attributes : list (Attribute O)) : Prop :=
  NoDup (attr_name <$> attributes) ∧
  ∀ i a set, attributes !! i = Some a → setter a = Some set →
    (∀ v o, getter a (set v o) = v) ∧ (∀ o, set (getter a o) o = o) ∧
    ∀ j b, j ≠ i → attributes !! j = Some b → ∀ v o, getter b (set v o) = getter b o.

(** Nothing of an object is hidden: objects whose attributes agree are equal. *)
Definition complete {O} (attributes : list (Attribute O)) : Prop :=
  ∀ o o', (∀ a, a ∈ attributes → getter a o = getter a o') → o = o'.

Ltac table_bijective :=
  split; [by apply (bool_decide_unpack _); vm_compute|];
  split; [by apply (bool_decide_unpack _); vm_compute|];
  intros []; repeat first [by left | right].

(** Every enumerator of every enumeration has exactly one Python name, and every Python
    name stands for one enumerator: the tables of the eight enumerations are complete and
    free of duplicates on both sides. *)
Lemma bound_enums_bijective :
  bijective force_unit_values ∧ bijective torque_unit_values ∧
  bijective calibration_source_values ∧ bijective recovery_policy_values ∧
  bijective client_state_values ∧ bijective fault_code_values ∧
  bijective status_severity_values ∧ bijective read_status_values.
Proof. split_and!; table_bijective. Qed.

(** The [i]th attribute, for each [i]. *)
Ltac each_attribute i Hi :=
  repeat (destruct i as [|i]; [injection Hi as <-|]; [|cbn [lookup list_lookup] in Hi]);
  try discriminate Hi.

Ltac attributes_lawful :=
  split; [by apply (bool_decide_unpack _); vm_compute|];
  intros i a set Hi Hs; cbn [lookup list_lookup] in Hi; each_attribute i Hi;
  try discriminate Hs; injection Hs as <-;
  (split; [reflexivity|split; [by intros []|]]);
  intros j b Hj Hb; cbn [lookup list_lookup] in Hb; each_attribute j Hb; done.

(** Read-only attributes are lawful when their names are distinct. *)
Lemma read_only_lawful {O} (attributes : list (Attribute O)) :
  NoDup (attr_name <$> attributes) → Forall (λ a, setter a = None) attributes → lawful attributes.
Proof.
  intros Hn Hr. split; [done|]. intros i a set Hi Hs.
  apply (Forall_lookup_1 _ _ _ _ Hr) in Hi. congruence.
Qed.

Lemma complete_forall {O} (attributes : list (Attribute O)) :
  (∀ o o', Forall (λ a, getter a o = getter a o') attributes → o = o') → complete attributes.
Proof. intros H o o' Ha. by apply H, Forall_forall. Qed.

Ltac attributes_complete :=
  apply complete_forall; intros [] [] H;
  repeat (apply Forall_cons in H as [? H]); cbn in *; by subst.

(** The classes of the module are faithful views of the C++ structures. On [Config],
    [Calibration] and [SensorConfiguration], an attribute that is assigned reads back as
    assigned and no other attribute changes; [Sample], [Health] and [ReadResult] cannot be
    assigned to; attribute names are distinct; and the attributes of an object determine
    it, so that nothing of the state of the client is hidden from Python. *)
Lemma bound_attributes_faithful :
  (lawful config_attributes ∧ lawful calibration_attributes ∧
   lawful sensor_configuration_attributes ∧ lawful sample_attributes ∧
   lawful health_attributes ∧ lawful read_result_attributes) ∧
  (complete config_attributes ∧ complete calibration_attributes ∧
   complete sensor_configuration_attributes ∧ complete sample_attributes ∧
   complete health_attributes ∧ complete read_result_attributes).
Proof.
  split; split_and!.
  - unfold config_attributes. attributes_lawful.
  - unfold calibration_attributes. attributes_lawful.
  - unfold sensor_configuration_attributes. attributes_lawful.
  - apply read_only_lawful; [by apply (bool_decide_unpack _); vm_compute|by repeat constructor].
  - apply read_only_lawful; [by apply (bool_decide_unpack _); vm_compute|by repeat constructor].
  - apply read_only_lawful; [by apply (bool_decide_unpack _); vm_compute|by repeat constructor].
  - attributes_complete.
  - attributes_complete.
  - attributes_complete.
  - attributes_complete.
  - unfold health_attributes, last_record_age. apply complete_forall. intros [] [] H.
    repeat (apply Forall_cons in H as [? H]). cbn in *.
    repeat match goal with x : option double |- _ => destruct x end; simplify_eq; done.
  - attributes_complete.
Qed.

(** The Python surface is faithful. Every enumerator of the eight enumerations has
    exactly one Python name, and every name stands for one enumerator. An attribute of
    [Config], [Calibration] or [SensorConfiguration] that is assigned reads back as
    assigned and no other attribute changes; [Sample], [Health] and [ReadResult] cannot be
    assigned to; attribute names are distinct; and the attributes of an object determine
    it, so that nothing of a structure is hidden from Python. *)
Theorem python_surface_faithful :
  (bijective force_unit_values ∧ bijective torque_unit_values ∧
   bijective calibration_source_values ∧ bijective recovery_policy_values ∧
   bijective client_state_values ∧ bijective fault_code_values ∧
   bijective status_severity_values ∧ bijective read_status_values) ∧
  (lawful config_attributes ∧ lawful calibration_attributes ∧
   lawful sensor_configuration_attributes ∧ lawful sample_attributes ∧
   lawful health_attributes ∧ lawful read_result_attributes) ∧
  (complete config_attributes ∧ complete calibration_attributes ∧
   complete sensor_configuration_attributes ∧ complete sample_attributes ∧
   complete health_attributes ∧ complete read_result_attributes).
Proof. split; [exact bound_enums_bijective|exact bound_attributes_faithful]. Qed.

(** The library's three exception classes reach Python as three classes of their own,
    in whatever order their translators are registered: a rejected argument as
    [ValidationError] (a [ValueError]), an operation on a stopped client as
    [NotConnectedError] and a failed discovery as [DiscoveryError] (both
    [ConnectionError]s); no other exception of the library is caught by them. *)
Theorem exceptions_translated table k :
  table ≡ₚ registered_exceptions →
  translate table k =
    match k with
    | invalid_argument => Some ("ValidationError", "ValueError")
    | NotConnectedError => Some ("NotConnectedError", "ConnectionError")
    | DiscoveryError => Some ("DiscoveryError", "ConnectionError")
    | _ => None
    end%string.
Proof.
  intros H. symmetry in H. apply permutations_Permutation in H.
  assert (∀ t, t ∈ permutations registered_exceptions →
    translate t k = translate registered_exceptions k) as Hall.
  { apply Forall_forall. by destruct k; vm_compute; repeat constructor. }
  rewrite (Hall _ H). by destruct k.
Qed.

Lemma exceptions_translated_witness :
  translate (reverse registered_exceptions) DiscoveryError =
    Some ("DiscoveryError", "ConnectionError")%string.
Proof.
  apply (exceptions_translated (reverse registered_exceptions) DiscoveryError).
  apply reverse_Permutation.
Defined.

End Bindings.
