(* ===== verification/Conversion.v ===== *)
(** * Values across the language border: src/pynetft/types.py and src/pynetft/_conversion.py

    The package has its own immutable classes and enumerations; [_conversion.py] turns
    them into the classes of the extension module and back, field by field, enumerators
    by their names. A Python call returns a value or raises ([PyRes]). The names of the
    enumerators of the extension module are the tables of [Bindings]. A [std::string]
    that crosses the border is decoded as UTF-8, which can fail. *)

From Stdlib Require Import ZArith Lia Ascii String.
From S2P Require Import Prelude Floats Clock Types XmlConfig SampleQueue Client NativeClient Bindings.
Import Fp Clock.

Module Conversion.

(** ** Python values *)

(** A member of a public enumeration: its name and its value. *)
Record PyMember := Member { member_name : string; member_value : string }.
#[global] Instance PyMember_eq_dec : EqDecision PyMember.
Proof. solve_decision. Defined.

(** Source: src/pynetft/types.py:5-11, [ForceUnit]. *)
Definition PyForceUnit : list PyMember :=
  [Member "UNKNOWN" "unknown"; Member "POUND_FORCE" "lbf"; Member "NEWTON" "N";
   Member "KILO_POUND_FORCE" "klbf"; Member "KILO_NEWTON" "kN";
   Member "KILOGRAM_FORCE" "kgf"]%string.

(** Source: src/pynetft/types.py:14-21, [TorqueUnit]. *)
Definition PyTorqueUnit : list PyMember :=
  [Member "UNKNOWN" "unknown"; Member "POUND_FORCE_INCH" "lbf-in";
   Member "POUND_FORCE_FOOT" "lbf-ft"; Member "NEWTON_METER" "N-m";
   Member "NEWTON_MILLIMETER" "N-mm"; Member "KILOGRAM_FORCE_CENTIMETER" "kgf-cm";
   Member "KILO_NEWTON_METER" "kN-m"]%string.

(** Source: src/pynetft/types.py:24-26, [CalibrationSource]. *)
Definition PyCalibrationSource : list PyMember :=
  [Member "SENSOR" "sensor"; Member "OVERRIDE" "override"]%string.

(** Source: src/pynetft/types.py:29-31, [RecoveryPolicy]. *)
Definition PyRecoveryPolicy : list PyMember :=
  [Member "RECONNECT" "reconnect"; Member "FAIL_STOP" "fail_stop"]%string.

(** Source: src/pynetft/types.py:34-39, [ClientState]. *)
Definition PyClientState : list PyMember :=
  [Member "STOPPED" "stopped"; Member "CONNECTING" "connecting";
   Member "STREAMING" "streaming"; Member "BACKOFF" "backoff";
   Member "FAULTED" "faulted"]%string.

(** Source: src/pynetft/types.py:42-51, [FaultCode]. *)
Definition PyFaultCode : list PyMember :=
  [Member "NONE" "none"; Member "SENSOR_CONFIGURATION" "sensor_configuration";
   Member "TIMEOUT" "timeout"; Member "SOCKET" "socket";
   Member "SERIOUS_STATUS" "serious_status"; Member "FT_STALL" "ft_stall";
   Member "FT_BACKWARD" "ft_backward"; Member "MALFORMED_STORM" "malformed_storm";
   Member "CALLBACK" "callback"]%string.

(** Source: src/pynetft/types.py:54-59, [Calibration]. *)
Record PyCalibration := {
  py_counts_per_force_unit : double;
  py_counts_per_torque_unit : double;
  py_calibration_force_unit : PyMember;
  py_calibration_torque_unit : PyMember
}.

(** Source: src/pynetft/types.py:62-67, [SensorConfiguration]. *)
Record PySensorConfiguration := {
  py_product_name : string;
  py_calibration : PyCalibration;
  py_source : PyMember;
  py_revision : Z
}.

(** Source: src/pynetft/types.py:70-83, [Config]. *)
Record PyConfig := {
  py_sensor_host : string;
  py_rdt_port : Z;
  py_http_port : Z;
  py_receive_timeout : double;
  py_configuration_connect_timeout : double;
  py_configuration_timeout : double;
  py_reconnect_initial_delay : double;
  py_reconnect_max_delay : double;
  py_sample_rate_limit_hz : double;
  py_deliver_samples_with_error_status : bool;
  py_recovery_policy : PyMember;
  py_calibration_override : option PyCalibration
}.

#[global] Instance PyConfig_eta : Eta PyConfig := λ r,
  {| py_sensor_host := py_sensor_host r; py_rdt_port := py_rdt_port r;
     py_http_port := py_http_port r; py_receive_timeout := py_receive_timeout r;
     py_configuration_connect_timeout := py_configuration_connect_timeout r;
     py_configuration_timeout := py_configuration_timeout r;
     py_reconnect_initial_delay := py_reconnect_initial_delay r;
     py_reconnect_max_delay := py_reconnect_max_delay r;
     py_sample_rate_limit_hz := py_sample_rate_limit_hz r;
     py_deliver_samples_with_error_status := py_deliver_samples_with_error_status r;
     py_recovery_policy := py_recovery_policy r;
     py_calibration_override := py_calibration_override r |}.

(** Source: src/pynetft/types.py:72-83, [Config]: the defaults of the fields. *)
Definition default_PyConfig : PyConfig :=
  {| py_sensor_host := "192.168.1.1"; py_rdt_port := 49152; py_http_port := 80;
     py_receive_timeout := d_ratio 1 10;
     py_configuration_connect_timeout := d_ratio 5 10;
     py_configuration_timeout := d_ratio 10 10;
     py_reconnect_initial_delay := d_ratio 25 100;
     py_reconnect_max_delay := d_ratio 50 10;
     py_sample_rate_limit_hz := d_ratio 0 10;
     py_deliver_samples_with_error_status := false;
     py_recovery_policy := Member "RECONNECT" "reconnect";
     py_calibration_override := None |}.

(** Source: src/pynetft/types.py:86-97, [Sample]. *)
Record PySample := {
  py_rdt_sequence : Z;
  py_ft_sequence : Z;
  py_status : Z;
  py_raw_wrench : list Z;
  py_force : list double;
  py_torque : list double;
  py_force_unit : PyMember;
  py_torque_unit : PyMember;
  py_configuration_revision : Z;
  py_received_at_ns : Z
}.

(** Source: src/pynetft/types.py:99-101, [Sample.wrench]. *)
Definition wrench (self : PySample) : list double := py_force self ++ py_torque self.

(** Source: src/pynetft/types.py:104-135, [Health]. *)
Record PyHealth := {
  py_state : PyMember;
  py_fault_code : PyMember;
  py_health_sensor_host : string;
  py_health_rdt_port : Z;
  py_sensor_configuration : option PySensorConfiguration;
  py_last_rdt_sequence : option Z;
  py_last_ft_sequence : option Z;
  py_last_status : Z;
  py_receive_rate_hz : double;
  py_delivery_rate_hz : double;
  py_received_count : Z;
  py_delivered_count : Z;
  py_rate_limited_count : Z;
  py_device_error_count : Z;
  py_warning_count : Z;
  py_lost_count : Z;
  py_duplicate_count : Z;
  py_out_of_order_count : Z;
  py_malformed_count : Z;
  py_reconnect_count : Z;
  py_timeout_count : Z;
  py_callback_error_count : Z;
  py_ft_stall_count : Z;
  py_ft_backward_count : Z;
  py_ft_restart_count : Z;
  py_calibration_change_count : Z;
  py_last_record_age : option double;
  py_last_error : string;
  py_last_ft_progress : string;
  python_queue_dropped_count : Z
}.

(** Source: src/pynetft/types.py:137-170, [Health.empty]. *)
Definition Health_empty (sensor_host : string) (rdt_port : Z) : PyHealth :=
  {| py_state := Member "STOPPED" "stopped"; py_fault_code := Member "NONE" "none";
     py_health_sensor_host := sensor_host; py_health_rdt_port := rdt_port;
     py_sensor_configuration := None; py_last_rdt_sequence := None;
     py_last_ft_sequence := None; py_last_status := 0;
     py_receive_rate_hz := d_ratio 0 10; py_delivery_rate_hz := d_ratio 0 10;
     py_received_count := 0; py_delivered_count := 0; py_rate_limited_count := 0;
     py_device_error_count := 0; py_warning_count := 0; py_lost_count := 0;
     py_duplicate_count := 0; py_out_of_order_count := 0; py_malformed_count := 0;
     py_reconnect_count := 0; py_timeout_count := 0; py_callback_error_count := 0;
     py_ft_stall_count := 0; py_ft_backward_count := 0; py_ft_restart_count := 0;
     py_calibration_change_count := 0; py_last_record_age := None; py_last_error := "";
     py_last_ft_progress := "unknown"; python_queue_dropped_count := 0 |}.

(** ** Outcomes *)

(** Source: src/pynetft/exceptions.py:4-28, the exceptions of the package, with the
    built-in ones its code raises or sees; [NativeError] is an exception class of the
    extension module, [OtherError] any other exception, told apart by a number. *)
Inductive PyError :=
  | ConfigurationError (message : string)
  | PyDiscoveryError (message : string)
  | PyNotConnectedError (message : string)
  | SensorFaultError (fault_code : PyMember) (health : PyHealth)
  | CallbackError (message : string) (cause : PyError)
  | RuntimeError (message : string)
  | TimeoutError (message : string)
  | ValueError (message : string)
  | ConnectionError (message : string)
  | NativeError (class message : string)
  | UnicodeDecodeError
  | TypeError
  | AttributeError
  | KeyError
  | OtherError (n : nat).

Inductive PyRes (A : Type) := Return (a : A) | Raise (e : PyError).
#[global] Arguments Return {A} a.
#[global] Arguments Raise {A} e.

#[global] Instance PyRes_ret : MRet PyRes := λ A a, Return a.
#[global] Instance PyRes_bind : MBind PyRes := λ A B f m,
  match m with Return a => f a | Raise e => Raise e end.

(** ** Text *)

(** A [str] is represented by its UTF-8 form, in which a lone surrogate, which a [str]
    may hold, has the three bytes its number would have. *)

Definition in_bytes (low high : Z) (c : ascii) : bool :=
  (low <=? Z.of_N (N_of_ascii c)) && (Z.of_N (N_of_ascii c) <=? high).

Definition continues : ascii → bool := in_bytes 128 191.

(** The second byte after a given first one: no overlong form, no surrogate, nothing
    above U+10FFFF. *)
Definition second_of (c : ascii) : ascii → bool :=
  if in_bytes 224 224 c then in_bytes 160 191
  else if in_bytes 237 237 c then in_bytes 128 159
  else if in_bytes 240 240 c then in_bytes 144 191
  else if in_bytes 244 244 c then in_bytes 128 143
  else continues.

(** Well-formed UTF-8, as the strict codec of Python accepts it. *)
Fixpoint utf8 (s : string) : bool :=
  match s with
  | EmptyString => true
  | String c s1 =>
    if in_bytes 0 127 c then utf8 s1
    else match s1 with
    | EmptyString => false
    | String c1 s2 =>
      if in_bytes 194 223 c then continues c1 && utf8 s2
      else match s2 with
      | EmptyString => false
      | String c2 s3 =>
        if in_bytes 224 239 c then second_of c c1 && continues c2 && utf8 s3
        else match s3 with
        | EmptyString => false
        | String c3 s4 =>
          in_bytes 240 244 c && second_of c c1 && continues c2 && continues c3 && utf8 s4
        end
      end
    end
  end.

(** Source: bindings/python/bind_types.cpp:190-192, [bind_types], and lines 92 and 148:
    a [std::string] attribute read as a [str]. *)
Definition to_str (s : string) : PyRes string :=
  if utf8 s then Return s else Raise UnicodeDecodeError.

(** Source: bindings/python/bind_types.cpp:99-99, [bind_types]: a [str] assigned to a
    [std::string] attribute; one that has no UTF-8 form is refused with a [TypeError]. *)
Definition from_str (s : string) : PyRes string :=
  if utf8 s then Return s else Raise TypeError.

(** ** Conversions *)

(** Source: src/pynetft/_conversion.py:23-24, [_to_native_enum]. *)
Definition _to_native_enum {A} (target : list (string * A)) (value : PyMember) : PyRes A :=
  match List.find (λ '(n, _), String.eqb n (member_name value)) target with
  | Some (_, a) => Return a
  | None => Raise AttributeError
  end.

(** Source: src/pynetft/_conversion.py:27-28, [_to_public_enum]. [names] is the table of
    the enumeration of the extension module, which has a name for every value. *)
Definition _to_public_enum {A} `{EqDecision A} (names : list (string * A))
    (target : list PyMember) (value : A) : PyRes PyMember :=
  match List.find (λ '(_, a), bool_decide (a = value)) names with
  | Some (name, _) =>
    match List.find (λ m, String.eqb (member_name m) name) target with
    | Some m => Return m
    | None => Raise KeyError
    end
  | None => Raise AttributeError
  end.

(** A Python integer assigned to an [int] attribute: pybind11 refuses one that does not
    fit with a [TypeError]. *)
Definition to_int (z : Z) : PyRes Z :=
  if (- 2 ^ 31 <=? z) && (z <? 2 ^ 31) then Return z else Raise TypeError.

(** Source: src/pynetft/_conversion.py:31-37, [to_native_calibration]. *)
Definition to_native_calibration (value : PyCalibration) : PyRes Calibration :=
  force_unit ← _to_native_enum Bindings.force_unit_values (py_calibration_force_unit value);
  torque_unit ← _to_native_enum Bindings.torque_unit_values (py_calibration_torque_unit value);
  mret {| Calibration.counts_per_force_unit := py_counts_per_force_unit value;
          Calibration.counts_per_torque_unit := py_counts_per_torque_unit value;
          Calibration.force_unit := force_unit; Calibration.torque_unit := torque_unit |}.

(** Source: src/pynetft/_conversion.py:40-58, [to_native_config]. *)
Definition to_native_config (config : PyConfig) : PyRes Config :=
  sensor_host ← from_str (py_sensor_host config);
  rdt_port ← to_int (py_rdt_port config);
  http_port ← to_int (py_http_port config);
  recovery_policy ← _to_native_enum Bindings.recovery_policy_values (py_recovery_policy config);
  calibration_override ←
    match py_calibration_override config with
    | None => mret None
    | Some calibration => c ← to_native_calibration calibration; mret (Some c)
    end;
  mret {| Config.sensor_host := sensor_host;
          Config.rdt_port := rdt_port; Config.http_port := http_port;
          Config.receive_timeout := py_receive_timeout config;
          Config.configuration_connect_timeout := py_configuration_connect_timeout config;
          Config.configuration_timeout := py_configuration_timeout config;
          Config.reconnect_initial_delay := py_reconnect_initial_delay config;
          Config.reconnect_max_delay := py_reconnect_max_delay config;
          Config.sample_rate_limit_hz := py_sample_rate_limit_hz config;
          Config.deliver_samples_with_error_status := py_deliver_samples_with_error_status config;
          Config.recovery_policy := recovery_policy;
          Config.calibration_override := calibration_override |}.

Definition to_ForceUnit : ForceUnit → PyRes PyMember :=
  _to_public_enum Bindings.force_unit_values PyForceUnit.
Definition to_TorqueUnit : TorqueUnit → PyRes PyMember :=
  _to_public_enum Bindings.torque_unit_values PyTorqueUnit.

(** Source: src/pynetft/_conversion.py:61-78, [to_sample]. *)
Definition to_sample (value : Sample) : PyRes PySample :=
  let raw_wrench := Sample.raw_wrench value in
  let force := Sample.force value in
  let torque := Sample.torque value in
  if negb (length raw_wrench =? 6)%nat || negb (length force =? 3)%nat
     || negb (length torque =? 3)%nat
  then Raise (ValueError "native sample has invalid wrench dimensions")
  else
    force_unit ← to_ForceUnit (Sample.force_unit value);
    torque_unit ← to_TorqueUnit (Sample.torque_unit value);
    mret {| py_rdt_sequence := Sample.rdt_sequence value;
            py_ft_sequence := Sample.ft_sequence value;
            py_status := Sample.status value;
            py_raw_wrench := raw_wrench; py_force := force; py_torque := torque;
            py_force_unit := force_unit; py_torque_unit := torque_unit;
            py_configuration_revision := Sample.configuration_revision value;
            py_received_at_ns := Bindings.received_at_ns value |}.

(** Source: src/pynetft/_conversion.py:81-97, [to_sensor_configuration]. *)
Definition to_sensor_configuration (value : option SensorConfiguration)
    : PyRes (option PySensorConfiguration) :=
  match value with
  | None => mret None
  | Some value =>
    let calibration := SensorConfiguration.calibration value in
    product_name ← to_str (SensorConfiguration.product_name value);
    force_unit ← to_ForceUnit (Calibration.force_unit calibration);
    torque_unit ← to_TorqueUnit (Calibration.torque_unit calibration);
    source ← _to_public_enum Bindings.calibration_source_values PyCalibrationSource
               (SensorConfiguration.source value);
    mret (Some {| py_product_name := product_name;
      py_calibration :=
        {| py_counts_per_force_unit := Calibration.counts_per_force_unit calibration;
           py_counts_per_torque_unit := Calibration.counts_per_torque_unit calibration;
           py_calibration_force_unit := force_unit;
           py_calibration_torque_unit := torque_unit |};
      py_source := source; py_revision := SensorConfiguration.revision value |})
  end.

(** Source: src/pynetft/_conversion.py:100-101, [to_fault_code]. *)
Definition to_fault_code : FaultCode → PyRes PyMember :=
  _to_public_enum Bindings.fault_code_values PyFaultCode.

(** Source: src/pynetft/_conversion.py:104-136, [to_health]. *)
Definition to_health (value : HealthSnapshot) (queue_dropped_count : Z) : PyRes PyHealth :=
  state ← _to_public_enum Bindings.client_state_values PyClientState (HealthSnapshot.state value);
  fault_code ← to_fault_code (HealthSnapshot.fault_code value);
  sensor_host ← to_str (HealthSnapshot.sensor_host value);
  sensor_configuration ← to_sensor_configuration (HealthSnapshot.sensor_configuration value);
  last_error ← to_str (HealthSnapshot.last_error value);
  last_ft_progress ← to_str (HealthSnapshot.last_ft_progress value);
  mret {| py_state := state; py_fault_code := fault_code;
     py_health_sensor_host := sensor_host;
     py_health_rdt_port := HealthSnapshot.rdt_port value;
     py_sensor_configuration := sensor_configuration;
     py_last_rdt_sequence := HealthSnapshot.last_rdt_sequence value;
     py_last_ft_sequence := HealthSnapshot.last_ft_sequence value;
     py_last_status := HealthSnapshot.last_status value;
     py_receive_rate_hz := HealthSnapshot.receive_rate_hz value;
     py_delivery_rate_hz := HealthSnapshot.delivery_rate_hz value;
     py_received_count := HealthSnapshot.received_count value;
     py_delivered_count := HealthSnapshot.delivered_count value;
     py_rate_limited_count := HealthSnapshot.rate_limited_count value;
     py_device_error_count := HealthSnapshot.device_error_count value;
     py_warning_count := HealthSnapshot.warning_count value;
     py_lost_count := HealthSnapshot.lost_count value;
     py_duplicate_count := HealthSnapshot.duplicate_count value;
     py_out_of_order_count := HealthSnapshot.out_of_order_count value;
     py_malformed_count := HealthSnapshot.malformed_count value;
     py_reconnect_count := HealthSnapshot.reconnect_count value;
     py_timeout_count := HealthSnapshot.timeout_count value;
     py_callback_error_count := HealthSnapshot.callback_error_count value;
     py_ft_stall_count := HealthSnapshot.ft_stall_count value;
     py_ft_backward_count := HealthSnapshot.ft_backward_count value;
     py_ft_restart_count := HealthSnapshot.ft_restart_count value;
     py_calibration_change_count := HealthSnapshot.calibration_change_count value;
     py_last_record_age := Bindings.last_record_age value;
     py_last_error := last_error;
     py_last_ft_progress := last_ft_progress;
     python_queue_dropped_count := queue_dropped_count |}.

(** ** Native calls

    A method of the extension module raises the class its C++ exception is registered
    as ([Bindings.registered_exceptions]); the package turns some of them into its own. *)

(** Source: src/pynetft/client.py:83-84, [Client.__init__], lines 213-214,
    [Client._iterate_samples], and lines 425-427, [Client._dispatch_callback]. *)
Definition on_validation (k : exn_class) : option (string → PyError) :=
  match k with invalid_argument => Some ConfigurationError | _ => None end.

(** Source: src/pynetft/client.py:162-165, [Client.bias], and lines 170-173,
    [Client.wait_for_first_sample]. *)
Definition on_operation (k : exn_class) : option (string → PyError) :=
  match k with
  | invalid_argument => Some ConfigurationError
  | NotConnectedError => Some PyNotConnectedError
  | _ => None
  end.

(** Source: src/pynetft/client.py:270-275, [Client._start_iterator_locked], and lines
    331-336, [Client._start_callback_locked]. *)
Definition on_start (k : exn_class) : option (string → PyError) :=
  match k with
  | invalid_argument => Some ConfigurationError
  | DiscoveryError => Some PyDiscoveryError
  | NotConnectedError => Some PyNotConnectedError
  | _ => None
  end.

(** The exception a native call ends with: one that no handler names passes, as the
    class it is registered as or as pybind11's [RuntimeError]. Its text is that of
    [what()], up to the first NUL, if it can be decoded. *)
Definition raised (handlers : exn_class → option (string → PyError)) (e : exn) : PyError :=
  match to_str (c_str (what e)) with
  | Raise error => error
  | Return text =>
    match handlers (exn_kind e) with
    | Some error => error text
    | None =>
      match Bindings.translate Bindings.registered_exceptions (exn_kind e) with
      | Some (name, base) => NativeError name text
      | None => RuntimeError text
      end
    end
  end.

(** A native call under handlers; undefined behaviour stays what it is. *)
Definition native_call {A} (handlers : exn_class → option (string → PyError)) (r : Res A)
    : Res (PyRes A) :=
  match r with
  | Ok a => Ok (Return a)
  | Throw e => Ok (Raise (raised handlers e))
  | UB => UB
  end.

(** ** Enumerators keep their identity *)

(** The names on both sides stand for the same enumerators: every native value has a
    public member of the same name, with [spelling] as its value where the core has one,
    that converts back to it; and every public member is the image of a native value. *)
Definition agree {A} `{EqDecision A} (names : list (string * A)) (target : list PyMember)
    (spelling : A → option string) : Prop :=
  (∀ v, ∃ m, _to_public_enum names target v = Return m ∧ m ∈ target ∧
    (∀ s, spelling v = Some s → member_value m = s) ∧ _to_native_enum names m = Return v) ∧
  (∀ m, m ∈ target → ∃ v, _to_native_enum names m = Return v ∧
    _to_public_enum names target v = Return m).

Ltac enum_agrees :=
  split;
  [intros []; eexists; (split; [reflexivity|]); (split; [by apply (bool_decide_unpack _); vm_compute|]);
   (split; [by intros ? [= <-]|reflexivity])
  |intros m Hm; repeat (apply elem_of_cons in Hm as [-> |Hm]; [by eexists|]);
   by apply elem_of_nil in Hm].

Lemma force_units_agree :
  agree Bindings.force_unit_values PyForceUnit (λ v, Some (Types.ForceUnit_to_string v)).
Proof. enum_agrees. Qed.
Lemma torque_units_agree :
  agree Bindings.torque_unit_values PyTorqueUnit (λ v, Some (Types.TorqueUnit_to_string v)).
Proof. enum_agrees. Qed.
Lemma sources_agree :
  agree Bindings.calibration_source_values PyCalibrationSource (λ _, None).
Proof. enum_agrees. Qed.
Lemma policies_agree : agree Bindings.recovery_policy_values PyRecoveryPolicy (λ _, None).
Proof. enum_agrees. Qed.
Lemma states_agree :
  agree Bindings.client_state_values PyClientState (λ v, Some (Types.ClientState_to_string v)).
Proof. enum_agrees. Qed.
Lemma fault_codes_agree :
  agree Bindings.fault_code_values PyFaultCode (λ v, Some (Types.FaultCode_to_string v)).
Proof. enum_agrees. Qed.

Lemma public_inj {A} `{EqDecision A} names target spelling (v v' : A) m :
  agree names target spelling → _to_public_enum names target v = Return m →
  _to_public_enum names target v' = Return m → v = v'.
Proof.
  intros [H _] Hv Hv'. destruct (H v) as (m1 & E1 & _ & _ & B1).
  destruct (H v') as (m2 & E2 & _ & _ & B2). simplify_eq. congruence.
Qed.

Lemma native_inj {A} `{EqDecision A} names target spelling m m' (v : A) :
  agree names target spelling → m ∈ target → m' ∈ target →
  _to_native_enum names m = Return v → _to_native_enum names m' = Return v → m = m'.
Proof.
  intros [_ H] Hm Hm' E E'. destruct (H m Hm) as (v1 & E1 & B1).
  destruct (H m' Hm') as (v2 & E2 & B2). simplify_eq. congruence.
Qed.

Lemma public_total {A} `{EqDecision A} names target spelling (v : A) :
  agree names target spelling → ∃ m, _to_public_enum names target v = Return m.
Proof. intros [H _]. destruct (H v) as (m & E & _). by exists m. Qed.

Lemma native_total {A} `{EqDecision A} names target spelling m :
  agree names target spelling → m ∈ target → ∃ v : A, _to_native_enum names m = Return v.
Proof. intros [_ H] Hm. destruct (H m Hm) as (v & E & _). by exists v. Qed.

Lemma bind_Return_inv {A B} (m : PyRes A) (f : A → PyRes B) b :
  m ≫= f = Return b → ∃ a, m = Return a ∧ f a = Return b.
Proof. destruct m as [a|e]; [by exists a|done]. Qed.

Ltac py_inv :=
  repeat match goal with
  | H : mbind _ _ = Return _ |- _ => apply bind_Return_inv in H as (? & ? & H)
  | H : mret _ = Return _ |- _ => injection H; clear H; intros; subst
  | H : Return _ = Return _ |- _ => injection H; clear H; intros; subst
  end.

(** Equal members come from equal enumerators, and the other way round. *)
Ltac same_enum :=
  repeat match goal with
  | H : to_ForceUnit ?a = Return ?m, H' : to_ForceUnit ?b = Return ?m |- _ =>
    pose proof (public_inj _ _ _ _ _ _ force_units_agree H H'); clear H'
  | H : to_TorqueUnit ?a = Return ?m, H' : to_TorqueUnit ?b = Return ?m |- _ =>
    pose proof (public_inj _ _ _ _ _ _ torque_units_agree H H'); clear H'
  | H : _to_public_enum Bindings.calibration_source_values _ ?a = Return ?m,
    H' : _to_public_enum _ _ ?b = Return ?m |- _ =>
    pose proof (public_inj _ _ _ _ _ _ sources_agree H H'); clear H'
  | H : _to_public_enum Bindings.client_state_values _ ?a = Return ?m,
    H' : _to_public_enum _ _ ?b = Return ?m |- _ =>
    pose proof (public_inj _ _ _ _ _ _ states_agree H H'); clear H'
  | H : to_fault_code ?a = Return ?m, H' : to_fault_code ?b = Return ?m |- _ =>
    pose proof (public_inj _ _ _ _ _ _ fault_codes_agree H H'); clear H'
  end.

(** ** Nothing is lost in conversion *)

Lemma to_sample_total s :
  Client.sample_ok s →
  ∃ p, to_sample s = Return p ∧ wrench p = Sample.force s ++ Sample.torque s ∧
       length (wrench p) = 6%nat.
Proof.
  intros (_ & _ & _ & [Hw _] & (Hf & Ht & _) & _). unfold to_sample. rewrite Hw, Hf, Ht. simpl.
  destruct (public_total _ _ _ (Sample.force_unit s) force_units_agree) as [mf Ef].
  destruct (public_total _ _ _ (Sample.torque_unit s) torque_units_agree) as [mt Et].
  unfold to_ForceUnit, to_TorqueUnit. rewrite Ef, Et. eexists. split; [done|].
  unfold wrench. simpl. by rewrite length_app, Hf, Ht.
Qed.

Lemma to_sample_inj s s' p : to_sample s = Return p → to_sample s' = Return p → s = s'.
Proof.
  unfold to_sample, Bindings.received_at_ns. intros H H'.
  match type of H with (if ?b then _ else _) = _ => destruct b; [done|] end.
  match type of H' with (if ?b then _ else _) = _ => destruct b; [done|] end.
  py_inv. same_enum. destruct s, s'. simpl in *. by subst.
Qed.

Lemma to_str_inv s t : to_str s = Return t → t = s.
Proof. unfold to_str. by destruct (utf8 s); intros [= ->]. Qed.

(** The texts of a snapshot that become [str]s. *)
Definition configuration_text (c : option SensorConfiguration) : bool :=
  match c with Some c => utf8 (SensorConfiguration.product_name c) | None => true end.
Definition snapshot_text (h : HealthSnapshot) : bool :=
  utf8 (HealthSnapshot.sensor_host h) &&
  configuration_text (HealthSnapshot.sensor_configuration h) &&
  utf8 (HealthSnapshot.last_error h) && utf8 (HealthSnapshot.last_ft_progress h).

(** A conversion that fails only for its texts. *)
Definition converts_if {A} (text : bool) (r : PyRes A) : Prop :=
  if text then ∃ p, r = Return p else r = Raise UnicodeDecodeError.

Lemma to_sensor_configuration_cases c :
  converts_if (configuration_text c) (to_sensor_configuration c).
Proof.
  destruct c as [c|]; [|by eexists]. simpl. unfold to_ForceUnit, to_TorqueUnit, to_str.
  destruct (utf8 _); [|done]. simpl.
  destruct (public_total _ _ _ (Calibration.force_unit (SensorConfiguration.calibration c))
    force_units_agree) as [? ->].
  destruct (public_total _ _ _ (Calibration.torque_unit (SensorConfiguration.calibration c))
    torque_units_agree) as [? ->].
  destruct (public_total _ _ _ (SensorConfiguration.source c) sources_agree) as [? ->].
  by eexists.
Qed.

Lemma to_sensor_configuration_inj c c' p :
  to_sensor_configuration c = Return p → to_sensor_configuration c' = Return p → c = c'.
Proof.
  destruct c as [[? [] ? ?]|], c' as [[? [] ? ?]|]; simpl; intros H H'; py_inv; try done.
  repeat match goal with A : to_str _ = Return _ |- _ => apply to_str_inv in A end.
  same_enum. simpl in *. by subst.
Qed.

Lemma to_health_cases h n : converts_if (snapshot_text h) (to_health h n).
Proof.
  unfold to_health, to_fault_code, snapshot_text, to_str.
  destruct (public_total _ _ _ (HealthSnapshot.state h) states_agree) as [? ->].
  destruct (public_total _ _ _ (HealthSnapshot.fault_code h) fault_codes_agree) as [? ->].
  cbn [mbind PyRes_bind]. destruct (utf8 (HealthSnapshot.sensor_host h)); [|done].
  pose proof (to_sensor_configuration_cases (HealthSnapshot.sensor_configuration h)) as Hc.
  destruct (configuration_text _); [destruct Hc as [? ->]|by rewrite Hc]. cbn.
  destruct (utf8 (HealthSnapshot.last_error h)); [|done].
  destruct (utf8 (HealthSnapshot.last_ft_progress h)); [|done]. by eexists.
Qed.

Lemma to_health_inj h n h' n' p :
  to_health h n = Return p → to_health h' n' = Return p → h = h' ∧ n = n'.
Proof.
  unfold to_health, Bindings.last_record_age. intros H H'. py_inv. same_enum.
  repeat match goal with A : to_str _ = Return _ |- _ => apply to_str_inv in A end.
  match goal with
  | A : to_sensor_configuration _ = Return ?p, B : to_sensor_configuration _ = Return ?p |- _ =>
    pose proof (to_sensor_configuration_inj _ _ _ A B)
  end.
  destruct h, h'. simpl in *. repeat case_match; simplify_eq; done.
Qed.

(** The enumerators of a configuration are members of the public enumerations. *)
Definition PyCalibration_ok (c : PyCalibration) : Prop :=
  py_calibration_force_unit c ∈ PyForceUnit ∧ py_calibration_torque_unit c ∈ PyTorqueUnit.
Definition PyConfig_ok (c : PyConfig) : Prop :=
  py_recovery_policy c ∈ PyRecoveryPolicy ∧
  ∀ cal, py_calibration_override c = Some cal → PyCalibration_ok cal.

Lemma to_native_calibration_inj c c' n :
  PyCalibration_ok c → PyCalibration_ok c' →
  to_native_calibration c = Return n → to_native_calibration c' = Return n → c = c'.
Proof.
  intros [Hf Ht] [Hf' Ht']. unfold to_native_calibration. intros H H'. py_inv.
  match goal with
  | A : _to_native_enum _ (py_calibration_force_unit c) = _,
    B : _to_native_enum _ (py_calibration_force_unit c') = _,
    C : _to_native_enum _ (py_calibration_torque_unit c) = _,
    D : _to_native_enum _ (py_calibration_torque_unit c') = _ |- _ =>
    pose proof (native_inj _ _ _ _ _ _ force_units_agree Hf Hf' A B);
    pose proof (native_inj _ _ _ _ _ _ torque_units_agree Ht Ht' C D)
  end.
  destruct c, c'. simpl in *. by subst.
Qed.

Lemma to_int_inv z n : to_int z = Return n → n = z ∧ is_i 32 z.
Proof.
  unfold to_int, is_i. change (32 - 1) with 31.
  destruct (Z.leb_spec (- 2 ^ 31) z), (Z.ltb_spec z (2 ^ 31)); simpl; intros H1; simplify_eq.
  split; [done|lia].
Qed.

Lemma from_str_inv s t : from_str s = Return t → t = s ∧ utf8 s = true.
Proof. unfold from_str. by destruct (utf8 s); intros [= ->]. Qed.

Lemma to_native_config_inj c c' n :
  PyConfig_ok c → PyConfig_ok c' →
  to_native_config c = Return n → to_native_config c' = Return n → c = c'.
Proof.
  intros [Hp Ho] [Hp' Ho']. unfold to_native_config. intros H H'. py_inv.
  repeat match goal with
  | H : to_int _ = _ |- _ => apply to_int_inv in H as [? _]
  | H : from_str _ = _ |- _ => apply from_str_inv in H as [? _]
  end. subst.
  match goal with
  | A : _to_native_enum _ (py_recovery_policy c) = _,
    B : _to_native_enum _ (py_recovery_policy c') = _ |- _ =>
    pose proof (native_inj _ _ _ _ _ _ policies_agree Hp Hp' A B)
  end.
  assert (py_calibration_override c = py_calibration_override c') as E.
  { destruct (py_calibration_override c) as [cal|], (py_calibration_override c') as [cal'|];
      py_inv; try done. f_equal. eapply to_native_calibration_inj; eauto. }
  destruct c, c'. simpl in *. by subst.
Qed.

(** What makes a configuration's host or a port unfit for its C++ type. *)
Definition unfit (c : PyConfig) : Prop :=
  utf8 (py_sensor_host c) = false ∨ ¬ is_i 32 (py_rdt_port c) ∨ ¬ is_i 32 (py_http_port c).

(** A configuration converts, or has a host or a port that does not fit. *)
Lemma to_native_config_cases c :
  PyConfig_ok c →
  (∃ n, to_native_config c = Return n) ∨ to_native_config c = Raise TypeError ∧ unfit c.
Proof.
  intros [Hp Ho]. unfold to_native_config, unfit, from_str.
  destruct (utf8 (py_sensor_host c)); [|by right; split; [|left]]. cbn [mbind PyRes_bind].
  destruct (to_int (py_rdt_port c)) as [z|e] eqn:E1.
  2:{ right. unfold to_int, is_i in *. case_match eqn:B; simplify_eq. split; [done|right; left].
      intros [? ?]. apply andb_false_iff in B as [B|B]; [apply Z.leb_gt in B|apply Z.ltb_ge in B]; lia. }
  simpl. destruct (to_int (py_http_port c)) as [z'|e] eqn:E2.
  2:{ right. unfold to_int, is_i in *. clear E1. case_match eqn:B; simplify_eq. split; [done|right; right].
      intros [? ?]. apply andb_false_iff in B as [B|B]; [apply Z.leb_gt in B|apply Z.ltb_ge in B]; lia. }
  left. simpl. destruct (native_total _ _ _ _ policies_agree Hp) as [v Ev]. rewrite Ev. simpl.
  destruct (py_calibration_override c) as [cal|]; [|by eexists].
  destruct (Ho cal eq_refl) as [Hf Ht]. unfold to_native_calibration.
  destruct (native_total _ _ _ _ force_units_agree Hf) as [? Ef].
  destruct (native_total _ _ _ _ torque_units_agree Ht) as [? Et].
  rewrite Ef. simpl. rewrite Et. by eexists.
Qed.

(** Names and values of the public enumerations are the core's. For the six
    enumerations, every native enumerator converts to a public member of the same name and
    back to itself, and every public member is the image of one; the value of a member of
    [ForceUnit], [TorqueUnit], [ClientState] and [FaultCode] is the text that [to_string]
    of the C++ core gives it. *)
Theorem public_enums_agree :
  agree Bindings.force_unit_values PyForceUnit (λ v, Some (Types.ForceUnit_to_string v)) ∧
  agree Bindings.torque_unit_values PyTorqueUnit (λ v, Some (Types.TorqueUnit_to_string v)) ∧
  agree Bindings.calibration_source_values PyCalibrationSource (λ _, None) ∧
  agree Bindings.recovery_policy_values PyRecoveryPolicy (λ _, None) ∧
  agree Bindings.client_state_values PyClientState (λ v, Some (Types.ClientState_to_string v)) ∧
  agree Bindings.fault_code_values PyFaultCode (λ v, Some (Types.FaultCode_to_string v)).
Proof.
  split_and!; [apply force_units_agree|apply torque_units_agree|apply sources_agree|
    apply policies_agree|apply states_agree|apply fault_codes_agree].
Qed.


(** The document of a sensor whose product name is not UTF-8 (it ends in the byte 255, as
    a Latin-1 text may). *)
Definition latin1_document : list ascii :=
  XmlConfig.txt "<netft><prodname>Axia" ++ [ascii_of_nat 255] ++
  XmlConfig.txt "</prodname>" ++ XmlConfig.txt
    "<cfgcpf>1000000</cfgcpf><cfgcpt>1000000</cfgcpt><scfgfu>N</scfgfu><scfgtu>N-m</scfgtu></netft>".

(** Discovery accepts a product name that the package cannot show: the client streams, but
    every [health()] raises [UnicodeDecodeError], and so does the report of a fault. *)
Theorem undecodable_product_name :
  ∃ conf, XmlConfig.parse_sensor_configuration latin1_document = Ok conf ∧
    ∀ h n, HealthSnapshot.sensor_configuration h = Some conf →
      to_health h n = Raise UnicodeDecodeError.
Proof.
  destruct (XmlConfig.parse_sensor_configuration latin1_document) as [conf|e|] eqn:E;
    [|vm_compute in E; discriminate E..].
  exists conf. split; [done|]. intros h n Hc. pose proof (to_health_cases h n) as Hh.
  unfold snapshot_text in Hh. rewrite Hc in Hh. unfold configuration_text in Hh.
  assert (utf8 (SensorConfiguration.product_name conf) = false) as Hu
    by (vm_compute in E; injection E as <-; by vm_compute).
  by rewrite Hu, andb_false_r in Hh.
Qed.

Section construct.
Context `{P : Platform}.

(** A Python integer passed as a [std::size_t]. *)
Definition to_size_t (z : Z) : PyRes Z :=
  if (0 <=? z) && (z <? 2 ^ 64) then Return z else Raise TypeError.

(** Source: src/pynetft/client.py:67-84, [Client.__init__]: the native client it makes;
    the other members are in [PyClient]. *)
Definition construct (readings : nat → Z) (config : PyConfig) (queue_size : Z)
    : Res (PyRes NativeClient.NativeClient) :=
  match (native_config ← to_native_config config; size ← to_size_t queue_size;
         mret (native_config, size)) with
  | Return (native_config, size) =>
    native_call on_validation (NativeClient.make readings native_config size)
  | Raise e => Ok (Raise e)
  end.

(** ** What construction reports *)

(** The call returns or refuses its argument. *)
Definition accepts_or_refuses {A} (r : Res A) : Prop :=
  (∃ a, r = Ok a) ∨ ∃ msg, r = throw invalid_argument msg.

Lemma accepts_bind {A B} (m : Res A) (f : A → Res B) :
  accepts_or_refuses m → (∀ a, m = Ok a → accepts_or_refuses (f a)) →
  accepts_or_refuses (m ≫= f).
Proof. intros [[a ->]|[msg ->]] Hf; [by apply Hf|right; by exists msg]. Qed.

Lemma accepts_guard {A} (b : bool) msg (m : Res A) :
  accepts_or_refuses m → accepts_or_refuses (if b then throw invalid_argument msg else m).
Proof. destruct b; [right; by eexists|done]. Qed.

Lemma accepts_ok {A} (a : A) : accepts_or_refuses (Ok a).
Proof. left. by eexists. Qed.

Create HintDb accepts.
#[local] Hint Resolve accepts_bind accepts_guard accepts_ok : accepts.

Lemma positive_finite_accepts name value :
  accepts_or_refuses (Types.require_positive_finite name value).
Proof. unfold Types.require_positive_finite. eauto with accepts. Qed.

Lemma safe_timeout_accepts now name value http :
  0 ≤ now ≤ ticks_max → accepts_or_refuses (Types.require_safe_timeout now name value http).
Proof.
  intros Hn. unfold Types.require_safe_timeout.
  apply accepts_bind; [apply positive_finite_accepts|]. intros _ _.
  apply accepts_bind.
  { destruct (checked_duration_cases value) as [(t & -> & _)|[msg ->]]; [left|right]; by eexists. }
  intros ticks _. apply accepts_guard, accepts_bind; [|eauto with accepts].
  destruct (checked_deadline_cases now value Hn) as [(t & _ & -> & _)|[msg ->]];
    [left|right]; by eexists.
Qed.

Lemma calibration_accepts c : accepts_or_refuses (Types.validate_calibration c).
Proof.
  unfold Types.validate_calibration, Types.require_safe_count.
  repeat apply accepts_bind; eauto using positive_finite_accepts with accepts.
Qed.

Lemma config_accepts now c :
  (∀ n, 0 ≤ now n ≤ ticks_max) → accepts_or_refuses (Types.validate_config now c).
Proof.
  intros Hn. unfold Types.validate_config, Types.require_port. apply accepts_guard.
  do 7 (apply accepts_bind; [by eauto using safe_timeout_accepts with accepts|intros _ _]).
  do 2 apply accepts_guard.
  destruct (Config.calibration_override c); eauto using calibration_accepts with accepts.
Qed.

Lemma make_accepts now c size :
  (∀ n, 0 ≤ now n ≤ ticks_max) → accepts_or_refuses (NativeClient.make now c size).
Proof.
  intros Hn. unfold NativeClient.make, SampleQueue.make, Client.make.
  apply accepts_bind; [eauto with accepts|]. intros q _.
  apply accepts_bind; [|eauto with accepts].
  apply accepts_bind; eauto using config_accepts with accepts.
Qed.

(** What [Client(config, queue_size=n)] does with its arguments, on a clock with
    64-bit readings. Undefined behaviour is excluded; a returned client holds the
    converted, validated configuration and an empty queue of [n] places; a configuration or
    size that the native code refuses is a [ConfigurationError]; the only other exceptions
    are the [TypeError] of a host, port or size that does not fit its C++ type and the
    [UnicodeDecodeError] of a message that is not UTF-8. *)
Theorem construct_exact readings config queue_size :
  (∀ n, 0 ≤ readings n ≤ ticks_max) → PyConfig_ok config →
  match construct readings config queue_size with
  | Ok (Return native) => ∃ n,
      to_native_config config = Return n ∧ Types.validate_config readings n = Ok () ∧
      0 < queue_size < 2 ^ 64 ∧
      native = {| NativeClient.queue_ :=
                    {| SampleQueue.capacity_ := queue_size; SampleQueue.samples_ := [];
                       SampleQueue.dropped_count_ := 0; SampleQueue.close_generation_ := 0;
                       SampleQueue.closed_ := false |};
                  NativeClient.client_ := Client.initial_impl n;
                  NativeClient.running_ := false |}
  | Ok (Raise (ConfigurationError msg)) => ∃ n,
      to_native_config config = Return n ∧
      (queue_size = 0 ∨
       ∃ text, Types.validate_config readings n = throw invalid_argument text ∧ msg = c_str text)
  | Ok (Raise UnicodeDecodeError) => ∃ n text,
      to_native_config config = Return n ∧
      Types.validate_config readings n = throw invalid_argument text ∧ utf8 (c_str text) = false
  | Ok (Raise TypeError) => unfit config ∨ ¬ is_u 64 queue_size
  | _ => False
  end.
Proof.
  intros Hr Hc. unfold construct.
  destruct (to_native_config_cases config Hc) as [[n En]|[En Hp]]; rewrite En; simpl;
    [|tauto].
  unfold to_size_t. destruct (Z.leb_spec 0 queue_size), (Z.ltb_spec queue_size (2 ^ 64)); simpl;
    try (right; unfold is_u; lia).
  unfold NativeClient.make, SampleQueue.make, Client.make.
  destruct (Z.eqb_spec queue_size 0) as [->|Hz].
  { simpl. exists n. by split; [|left]. }
  simpl. destruct (config_accepts readings n Hr) as [[[] Ev]|[msg Ev]]; rewrite Ev; simpl.
  - exists n. split_and!; done || lia.
  - unfold raised, to_str. cbn -[c_str utf8].
    destruct (utf8 (c_str msg)) eqn:Eu; exists n; [|by exists msg].
    split; [done|]. right. by exists msg.
Qed.

End construct.

(** The default configuration with a queue of four. *)
Lemma construct_exact_witness :
  (∀ n : nat, 0 ≤ (λ _, 5) n ≤ ticks_max) ∧ PyConfig_ok default_PyConfig ∧
  ∃ native, construct (P:=LinuxX86_64) (λ _, 5) default_PyConfig 4 = Ok (Return native) ∧
    NativeClient.running_ native = false.
Proof.
  assert (∀ n : nat, 0 ≤ (λ _, 5) n ≤ ticks_max) as Hr by (vm_compute; split; discriminate).
  assert (PyConfig_ok default_PyConfig) as Hc.
  { split; [|done]. by apply (bool_decide_unpack _); vm_compute. }
  pose proof (construct_exact (P:=LinuxX86_64) (λ _, 5) default_PyConfig 4 Hr Hc) as H.
  split; [done|]. split; [done|].
  destruct (construct _ default_PyConfig 4) as [[native|e]|e|] eqn:E; [|exfalso; clear H..].
  - exists native. split; [done|]. by destruct H as (n & _ & _ & _ & ->).
  - vm_compute in E. discriminate E.
  - vm_compute in E. discriminate E.
  - vm_compute in E. discriminate E.
Defined.

End Conversion.
