(* ===== verification/PyClient.v ===== *)
(** * The Python client: src/pynetft/client.py

    Any number of Python threads call the methods of one client, from outside or from the
    callback its dispatcher thread runs, while dispatchers of earlier and later runs exist.
    The state machine has one step per critical section of [_lock] (every access to
    [_running], [_mode], [_run_token] and [_callback_run] is inside one), per unlocked
    access to a run object, per wait ([Thread.join], [Event.wait]) and per native read. The
    native client is what [NativeClient] proves of it: a bounded FIFO with an epoch
    ([QueueSpec.fifo_step]), a running flag and the fault of the core. *)

From Stdlib Require Import ZArith Lia String.
From stdpp Require Import functions relations.
From S2P Require Import Prelude Types SampleQueue QueueSpec Conversion.
Import Conversion.

Module PyClient.

(** ** The native client *)

Record Native := {
  n_capacity : nat;
  fifo : QueueSpec.Fifo;
  n_running : bool;
  n_faulted : bool;
  n_code : FaultCode;
  n_health : HealthSnapshot
}.
#[global] Instance Native_eta : Eta Native := λ r,
  {| n_capacity := n_capacity r; fifo := fifo r; n_running := n_running r; n_faulted := n_faulted r; n_code := n_code r;
     n_health := n_health r |}.

Definition request (r : QueueSpec.Request) (n : Native) : Native :=
  n <| fifo := (QueueSpec.fifo_step (n_capacity n) r (fifo n)).2 |>.

(** [NativeClient::stop]: the queue is closed, in the next epoch. *)
Definition native_stop (n : Native) : Native :=
  (request QueueSpec.Close n) <| n_running := false |>.

(** [NativeClient::start] that returns: nothing changes for a client that runs without a
    fault; else the queue is open and empty in the next epoch, and the fault is cleared. *)
Definition native_started (n : Native) : Native :=
  if n_running n && negb (n_faulted n) then n
  else (request QueueSpec.Reset (request QueueSpec.Close n))
         <| n_running := true |> <| n_faulted := false |>.

(** [NativeClient::start] that throws: not running, the queue closed. *)
Definition native_refused (n : Native) : Native :=
  (request QueueSpec.Close (request QueueSpec.Reset (request QueueSpec.Close n)))
    <| n_running := false |>.

(** What [NativeClient::read] of a reader of epoch [e] may return ([timed]: it has a
    timeout), and what it leaves. *)
Inductive native_read (e : nat) (timed : bool) : Native → SampleQueue.ReadResult → Native → Prop :=
  | read_sample n s f :
      QueueSpec.fifo_step (n_capacity n) (QueueSpec.Read e) (fifo n) =
        (Some {| SampleQueue.status := SampleQueue.StSample;
                 SampleQueue.sample := Some s |}, f) →
      native_read e timed n {| SampleQueue.status := SampleQueue.StSample;
                               SampleQueue.sample := Some s |} (n <| fifo := f |>)
  | read_timeout n : timed = true →
      native_read e timed n {| SampleQueue.status := SampleQueue.StTimeout;
                               SampleQueue.sample := None |} n
  | read_closed n :
      n_running n = false ∨ n_faulted n = true ∨
      QueueSpec.is_open (fifo n) = false ∨ QueueSpec.epoch (fifo n) ≠ e →
      native_read e timed n {| SampleQueue.status := SampleQueue.StClosed;
                               SampleQueue.sample := None |} n.

(** ** Run objects *)

(** A callback, told apart by a number; [is] compares numbers. *)
Abbreviation Callback := nat (only parsing).

(** A thread: one of the program's, or the dispatcher of the [r]th run object. *)
Inductive Tid := User (n : nat) | Dispatcher (r : nat).
#[global] Instance Tid_eq_dec : EqDecision Tid.
Proof. solve_decision. Defined.

(** Source: src/pynetft/client.py:25-45, [_CallbackActivation]: the event and the flag. *)
Record Activation := { ready : bool; active : bool }.
#[global] Instance Activation_eta : Eta Activation := λ r,
  {| ready := ready r; active := active r |}.

(** Source: src/pynetft/client.py:31-34, [_CallbackActivation.activate]. *)
Definition activate (a : Activation) : Activation := {| ready := true; active := true |}.

(** Source: src/pynetft/client.py:36-39, [_CallbackActivation.cancel]. *)
Definition cancel (a : Activation) : Activation := {| ready := true; active := false |}.

(** Source: src/pynetft/client.py:48-56, [_CallbackRun]. [completed] is an event. *)
Record CallbackRun := {
  token : nat;
  callback : option Callback;
  activation : Activation;
  completed : bool;
  thread : option Tid;
  callback_error : option PyError;
  failure : option PyError
}.
#[global] Instance CallbackRun_eta : Eta CallbackRun := λ r,
  {| token := token r; callback := callback r; activation := activation r;
     completed := completed r; thread := thread r; callback_error := callback_error r;
     failure := failure r |}.

(** ** State *)

Inductive Mode := Iterator | CallbackMode.
#[global] Instance Mode_eq_dec : EqDecision Mode.
Proof. solve_decision. Defined.

(** What follows the join of a run: another pass of [start()]'s loop, or the end of
    [stop()]. *)
Inductive AfterJoin := ThenStart (selected : option Callback) | ThenStop.

(** Where a thread is in a method of the client. *)
Inductive Pc :=
  | Idle
  | StartEntry (selected : option Callback)           (* line 104: about to lock *)
  | JoinRead (k : AfterJoin) (r : nat)                    (* line 124 or 150 *)
  | JoinCheck (k : AfterJoin) (r : nat) (joined : option Tid)  (* line 490 *)
  | Joining (k : AfterJoin) (r : nat) (joined : option Tid) (t : Tid)  (* line 493 *)
  | JoinLock (k : AfterJoin) (r : nat) (joined : option Tid)   (* line 126 or 152 *)
  | StartFailed (r : nat) (e : PyError)               (* line 490 *)
  | StartFailedJoin (t : Tid) (e : PyError)           (* line 493 *)
  | WaitCheck (r : nat) (timed : bool)                (* line 196 *)
  | WaitEvent (r : nat) (timed : bool)                (* line 198 *)
  | WaitJoin (r : nat)                                (* line 490 *)
  | WaitJoining (r : nat) (t : Tid)                   (* line 493 *)
  | Report (r : nat)                                  (* line 497 *)
  | IterCheck (i : nat)                               (* line 210 *)
  | IterEnter (i : nat)                               (* line 212 *)
  | IterReading (i : nat) (e : nat)                   (* line 212, in the native read *)
  | IterGot (i : nat) (res : SampleQueue.ReadResult)  (* line 215 *)
  | IterClosed (i : nat).                             (* line 225 *)

(** Where a dispatcher is in [_dispatch_callback]. *)
Inductive Dpc :=
  | Unborn                                            (* not started *)
  | Waiting                                           (* line 377 *)
  | Top                                               (* line 381 *)
  | CheckRun                                          (* line 385, holds the client *)
  | Enter                                             (* line 391 *)
  | Reading (e : nat)                                 (* line 391, in the native read *)
  | AfterRead (res : SampleQueue.ReadResult)          (* line 393 *)
  | CheckAgain (res : SampleQueue.ReadResult)         (* line 397, holds the client *)
  | CheckCall (sample : PySample)                     (* line 403, holds the client *)
  | Fetch (sample : PySample)                         (* line 405, holds the client *)
  | InCallback (c : Callback) (sample : PySample)     (* line 409, holds the client *)
  | ClosedRun                                         (* line 422, holds the client *)
  | Failed (e : PyError)                              (* line 411, 431 or 438, holds the client *)
  | Finally                                           (* line 442 *)
  | Ended                                             (* line 445: past the finally clause *)
  | Gone.                                             (* the thread has ended *)

(** A generator [samples()] returned. *)
Inductive IterState := Suspended | Executing | Exhausted.
Record Iter := { iter_token : nat; iter_timed : bool; iter_state : IterState }.
#[global] Instance Iter_eta : Eta Iter := λ r,
  {| iter_token := iter_token r; iter_timed := iter_timed r; iter_state := iter_state r |}.

(** Source: src/pynetft/client.py:67-79, [Client.__init__], the members, with the threads,
    the run objects and generators made so far, and whether the client object still
    exists. *)
Record State := {
  running : bool;
  mode : option Mode;
  run_token : nat;
  constructor_callback : option Callback;
  callback_run : option nat;
  native : Native;
  runs : nat → CallbackRun;
  made : nat;
  pcs : Tid → Pc;
  dpcs : nat → Dpc;
  iters : nat → Iter;
  generators : nat;
  collected : bool
}.
#[global] Instance State_eta : Eta State := λ r,
  {| running := running r; mode := mode r; run_token := run_token r;
     constructor_callback := constructor_callback r; callback_run := callback_run r;
     native := native r; runs := runs r; made := made r; pcs := pcs r; dpcs := dpcs r;
     iters := iters r; generators := generators r; collected := collected r |}.

Definition goto (t : Tid) (pc : Pc) (s : State) : State := s <| pcs ::= <[t := pc]> |>.
Definition dgoto (r : nat) (d : Dpc) (s : State) : State := s <| dpcs ::= <[r := d]> |>.
Definition on_run (r : nat) (f : CallbackRun → CallbackRun) (s : State) : State :=
  s <| runs ::= λ m, <[r := f (m r)]> m |>.
Definition on_iter (i : nat) (st : IterState) (s : State) : State :=
  s <| iters ::= λ m, <[i := (m i) <| iter_state := st |>]> m |>.
#[global] Arguments goto : simpl never.
#[global] Arguments dgoto : simpl never.
#[global] Arguments on_run : simpl never.
#[global] Arguments on_iter : simpl never.

(** ** Critical sections *)

(** Source: src/pynetft/client.py:502-507, [Client._stop_locked]. *)
Definition _stop_locked (s : State) : State :=
  if running s
  then s <| running := false |> <| native ::= native_stop |> <| mode := None |>
  else s.

(** Source: src/pynetft/client.py:235-236, [Client._iterator_is_current_locked]. *)
Definition _iterator_is_current (run_tok : nat) (s : State) : bool :=
  running s && bool_decide (mode s = Some Iterator) && (run_token s =? run_tok)%nat.

(** Source: src/pynetft/client.py:451-457, [Client._callback_run_is_current_locked]. *)
Definition _callback_run_is_current (r : nat) (s : State) : bool :=
  running s && bool_decide (mode s = Some CallbackMode)
  && (run_token s =? token (runs s r))%nat && bool_decide (callback_run s = Some r).

(** Source: src/pynetft/client.py:99-100, [Client.start]. *)
Definition selected_callback (c : option Callback) (s : State) : option Callback :=
  match c with None => constructor_callback s | Some c => Some c end.
Definition requested_mode (selected : option Callback) : Mode :=
  match selected with Some _ => CallbackMode | None => Iterator end.

(** What a pass of the loop of [start()] decides under the lock. *)
Inductive Decision := Refuse (e : PyError) | Already | JoinFirst (r : nat) | Go.

(** Source: src/pynetft/client.py:104-122, [Client.start]. *)
Definition start_decision (t : Tid) (selected : option Callback) (s : State) : Decision :=
  let own := match callback_run s with
             | Some r => bool_decide (thread (runs s r) = Some t)
             | None => false
             end in
  if own then Refuse (RuntimeError "a callback dispatcher cannot start its client")
  else if running s then
    if negb (bool_decide (mode s = Some (requested_mode selected)))
    then Refuse (RuntimeError "cannot change delivery mode while running")
    else
      let replaced := match callback_run s with
                      | Some r => bool_decide (requested_mode selected = CallbackMode)
                                  && negb (bool_decide (callback (runs s r) = selected))
                      | None => false
                      end in
      if replaced then Refuse (RuntimeError "cannot change callback while running") else Already
  else match callback_run s with
       | Some r => match thread (runs s r) with Some _ => JoinFirst r | None => Go end
       | None => Go
       end.

(** Source: src/pynetft/client.py:264-287, [Client._start_iterator_locked]. [r] is the
    exception of the native [start()], if it throws. *)
Definition _start_iterator_locked (r : option exn) (s : State) : PyRes () * State :=
  match r with
  | Some e =>
    (Raise (raised on_start e),
     s <| running := false |> <| mode := None |>
       <| native ::= λ n, native_stop (native_refused n) |>)
  | None =>
    (Return (),
     s <| running := true |> <| mode := Some Iterator |> <| run_token := S (run_token s) |>
       <| callback_run := None |> <| native ::= native_started |>)
  end.

(** How an attempt to start a callback run ends: the run object, the thread object or the
    thread cannot be made, the native client throws, or all goes well. *)
Inductive Attempt :=
  | NoRun (e : PyError)
  | NoThread (e : PyError)
  | NotStarted (e : PyError)
  | NativeThrows (e : exn)
  | AllWell.

(** Source: src/pynetft/client.py:48-56, [_CallbackRun]: a new run object. *)
Definition new_run (tok : nat) (c : Callback) : CallbackRun :=
  {| token := tok; callback := Some c; activation := {| ready := false; active := false |};
     completed := false; thread := None; callback_error := None; failure := None |}.

(** Source: src/pynetft/client.py:58-63, [_CallbackStartFailure]: the exception, and the run
    whose dispatcher is to be joined. *)
Record StartFailure := { error : PyError; join_dispatcher : option nat }.

(** Source: src/pynetft/client.py:289-358, [Client._start_callback_locked]. The new run is
    number [made s]. *)
Definition _start_callback_locked (c : Callback) (attempt : Attempt) (s : State)
    : option StartFailure * State :=
  let r := made s in
  let run := new_run (S (run_token s)) c in
  let spoilt := run <| activation ::= cancel |> <| callback := None |> in
  match attempt with
  | NoRun e => (Some {| error := e; join_dispatcher := None |}, s)
  | NoThread e =>
    (Some {| error := e; join_dispatcher := None |},
     on_run r (λ _, spoilt <| completed := true |>) (s <| made := S r |>))
  | NotStarted e =>
    (Some {| error := e; join_dispatcher := None |},
     on_run r (λ _, spoilt <| thread := Some (Dispatcher r) |>) (s <| made := S r |>))
  | NativeThrows e =>
    (Some {| error := raised on_start e; join_dispatcher := Some r |},
     dgoto r Waiting (on_run r (λ _, spoilt <| thread := Some (Dispatcher r) |>)
       (s <| made := S r |> <| running := false |> <| mode := None |>
          <| native ::= λ n, native_stop (native_refused n) |>)))
  | AllWell =>
    (None,
     dgoto r Waiting (on_run r (λ _, run <| thread := Some (Dispatcher r) |>
                                         <| activation ::= activate |>)
       (s <| made := S r |> <| running := true |> <| mode := Some CallbackMode |>
          <| run_token := S (run_token s) |> <| callback_run := Some r |>
          <| native ::= native_started |>)))
  end.

(** Source: src/pynetft/client.py:138-148, [Client.stop]: the critical section, and the run
    to join. *)
Definition stop_section (t : Tid) (s : State) : option nat * State :=
  (match callback_run s with
   | Some r =>
     match thread (runs s r) with
     | Some d => if bool_decide (d = t) then None else Some r
     | None => None
     end
   | None => None
   end, _stop_locked s).

(** Source: src/pynetft/client.py:126-131, [Client.start], and lines 152-157,
    [Client.stop]: the joined thread is forgotten. *)
Definition forget_thread (r : nat) (joined : option Tid) (s : State) : State :=
  if bool_decide (callback_run s = Some r) && bool_decide (thread (runs s r) = joined)
  then on_run r (λ x, x <| thread := None |>) s
  else s.

(** Source: src/pynetft/client.py:175-182, [Client.samples]: the new generator. *)
Definition samples (timed : bool) (s : State) : PyRes nat * State :=
  if bool_decide (constructor_callback s ≠ None) || bool_decide (mode s = Some CallbackMode)
  then (Raise (RuntimeError "callback and iterator delivery are mutually exclusive"), s)
  else
    let i := generators s in
    (Return i,
     s <| mode := Some (default Iterator (mode s)) |> <| generators := S i |>
       <| iters ::= <[i := {| iter_token := run_token s; iter_timed := timed;
                              iter_state := Suspended |}]> |>).

(** Source: src/pynetft/client.py:192-195, [Client.wait]. *)
Definition wait_section (s : State) : PyRes nat :=
  match callback_run s with
  | None => Raise (RuntimeError "wait is only available for callback delivery")
  | Some r =>
    if bool_decide (mode s = Some Iterator)
    then Raise (RuntimeError "wait is only available for callback delivery")
    else Return r
  end.

(** Source: src/pynetft/client.py:495-500, [Client._raise_callback_run_failure]. *)
Definition _raise_callback_run_failure (run : CallbackRun) : PyRes () :=
  match callback_error run with
  | Some e => Raise (CallbackError "sample callback failed" e)
  | None => match failure run with Some e => Raise e | None => Return () end
  end.

(** The structured fault of the native client. *)
Definition sensor_fault (s : State) : PyRes PyError :=
  health ← to_health (n_health (native s)) (Z.of_nat (QueueSpec.dropped (fifo (native s))));
  fault_code ← to_fault_code (n_code (native s));
  mret (SensorFaultError fault_code health).

(** Source: src/pynetft/client.py:238-250, [Client._fault_error_for_closed_run]. *)
Definition _fault_error_for_closed_run (run_tok : nat) (s : State)
    : PyRes (option PyError) * State :=
  if negb (_iterator_is_current run_tok s) then (Return None, s)
  else if negb (n_faulted (native s)) then (Return None, s)
  else match sensor_fault s with
       | Return e => (Return (Some e), _stop_locked s)
       | Raise e => (Raise e, s)
       end.

(** Source: src/pynetft/client.py:461-462, [Client._record_callback_error]: the first
    failure of a run is kept. *)
Definition note_error (r : nat) (e : PyError) (s : State) : State :=
  match callback_error (runs s r), failure (runs s r) with
  | None, None => on_run r (λ x, x <| callback_error := Some e |>) s
  | _, _ => s
  end.

(** Source: src/pynetft/client.py:459-464, [Client._record_callback_error], and lines
    466-471, [Client._record_dispatch_failure], whose bodies are the same. *)
Definition _record_failure (r : nat) (e : PyError) (s : State) : State :=
  let s' := note_error r e s in
  if _callback_run_is_current r s' then _stop_locked s' else s'.

(** Source: src/pynetft/client.py:473-484, [Client._finish_callback_closed]. *)
Definition _finish_callback_closed (r : nat) (s : State) : PyRes () * State :=
  if negb (_callback_run_is_current r s) then (Return (), s)
  else if n_faulted (native s) then
    match sensor_fault s with
    | Return e => (Return (), _stop_locked (on_run r (λ x, x <| failure := Some e |>) s))
    | Raise e => (Raise e, s)
    end
  else (Return (), _stop_locked s).

(** Source: src/pynetft/client.py:399-424, [Client._dispatch_callback]: what a dispatcher
    whose run is current does with the result of a read. *)
Definition dispatch_result (res : SampleQueue.ReadResult) : Dpc :=
  match SampleQueue.status res with
  | SampleQueue.StSample =>
    match SampleQueue.sample res with
    | None => Failed (RuntimeError "native sample result contains no sample")
    | Some value => match to_sample value with Return p => CheckCall p | Raise e => Failed e end
    end
  | SampleQueue.StTimeout => Top
  | SampleQueue.StClosed => ClosedRun
  end.

(** What a generator whose run is current does with the result of a read. *)
Inductive IterOutcome := Yield (p : PySample) | IterRaise (e : PyError) | IterIsClosed.

(** Source: src/pynetft/client.py:217-229, [Client._iterate_samples]. *)
Definition iterate_result (res : SampleQueue.ReadResult) : IterOutcome :=
  match SampleQueue.status res with
  | SampleQueue.StSample =>
    match SampleQueue.sample res with
    | None => IterRaise (RuntimeError "native sample result contains no sample")
    | Some value => match to_sample value with Return p => Yield p | Raise e => IterRaise e end
    end
  | SampleQueue.StTimeout => IterRaise (TimeoutError "timed out waiting for a force/torque sample")
  | SampleQueue.StClosed => IterIsClosed
  end.

(** ** Steps *)

(** Who reads from the native client: a generator, or the dispatcher of a run. *)
Inductive Consumer := ByIterator (i : nat) | ByDispatcher (r : nat).
#[global] Instance Consumer_eq_dec : EqDecision Consumer.
Proof. solve_decision. Defined.

(** What a step shows: the worker pushes a sample, a reader takes one, a method ends, a
    generator yields, the callback is called, a sample taken from the queue is dropped,
    before or after its conversion, or nothing. *)
Inductive Event :=
  | Quiet
  | Pushes (s : Sample)
  | Takes (w : Consumer) (s : Sample)
  | Ends (t : Tid) (r : PyRes ())
  | Yields (t : Tid) (i : nat) (p : PySample)
  | Calls (r : nat) (c : Callback) (p : PySample)
  | Drops (s : Sample)
  | Forgets (p : PySample).

(** Reading a result takes its sample, and dropping it drops it, if it has one. *)
Definition took (w : Consumer) (res : SampleQueue.ReadResult) : Event :=
  match SampleQueue.sample res with Some s => Takes w s | None => Quiet end.
Definition dropped (res : SampleQueue.ReadResult) : Event :=
  match SampleQueue.sample res with Some s => Drops s | None => Quiet end.

(** A thread may call a method while it is in none and the client exists: the program's
    threads always, a dispatcher while it runs the callback. *)
Definition may_call (t : Tid) (s : State) : bool :=
  negb (collected s) &&
  match pcs s t, t with
  | Idle, User _ => true
  | Idle, Dispatcher r => match dpcs s r with InCallback _ _ => true | _ => false end
  | _, _ => false
  end.

(** The thread has ended. *)
Definition is_over (s : State) (t : Tid) : bool :=
  match t with
  | User _ => false
  | Dispatcher r => match dpcs s r with Gone => true | _ => false end
  end.

(** Source: src/pynetft/client.py:486-493, [Client._join_callback_run]: the thread to join,
    if there is one and it is another. *)
Definition _join_callback_run (t : Tid) (run : CallbackRun) : option Tid :=
  match thread run with
  | Some d => if bool_decide (d = t) then None else Some d
  | None => None
  end.

Definition after_join (t : Tid) (k : AfterJoin) : Event * Pc :=
  match k with
  | ThenStart selected => (Quiet, StartEntry selected)
  | ThenStop => (Ends t (Return ()), Idle)
  end.

(** A new call. [stop()] and [samples()] begin with their critical section; [wait()] and
    [raise_if_failed()] too. A generator runs only while it is suspended. *)
Inductive call_step : Event → State → State → Prop :=
  | call_start s t c : may_call t s = true →
      call_step Quiet s (goto t (StartEntry (selected_callback c s)) s)
  | call_stop s t r s' : may_call t s = true → stop_section t s = (Some r, s') →
      call_step Quiet s (goto t (JoinRead ThenStop r) s')
  | call_stop_done s t s' : may_call t s = true → stop_section t s = (None, s') →
      call_step (Ends t (Return ())) s s'
  | call_samples s t timed i s' : may_call t s = true → samples timed s = (Return i, s') →
      call_step (Ends t (Return ())) s s'
  | call_samples_refused s t timed e s' : may_call t s = true →
      samples timed s = (Raise e, s') → call_step (Ends t (Raise e)) s s'
  | call_wait s t timed r : may_call t s = true → wait_section s = Return r →
      call_step Quiet s (goto t (WaitCheck r timed) s)
  | call_wait_refused s t e : may_call t s = true → wait_section s = Raise e →
      call_step (Ends t (Raise e)) s s
  | call_raise_if_failed s t r : may_call t s = true → callback_run s = Some r →
      call_step Quiet s (goto t (Report r) s)
  | call_raise_nothing s t : may_call t s = true → callback_run s = None →
      call_step (Ends t (Return ())) s s
  | call_next s t i : may_call t s = true → (i < generators s)%nat →
      iter_state (iters s i) = Suspended →
      call_step Quiet s (goto t (IterCheck i) (on_iter i Executing s)).

(** Source: src/pynetft/client.py:98-135, [Client.start], with lines 137-157,
    [Client.stop], from the join on, and lines 360-363,
    [Client._finish_failed_callback_start]. *)
Inductive start_stop_step : Event → State → State → Prop :=
  | start_refused s t sel e : pcs s t = StartEntry sel → start_decision t sel s = Refuse e →
      start_stop_step (Ends t (Raise e)) s (goto t Idle s)
  | start_already s t sel : pcs s t = StartEntry sel → start_decision t sel s = Already →
      start_stop_step (Ends t (Return ())) s (goto t Idle s)
  | start_join s t sel r : pcs s t = StartEntry sel → start_decision t sel s = JoinFirst r →
      start_stop_step Quiet s (goto t (JoinRead (ThenStart sel) r) s)
  | start_iterator s t x res s' : pcs s t = StartEntry None → start_decision t None s = Go →
      _start_iterator_locked x s = (res, s') →
      start_stop_step (Ends t res) s (goto t Idle s')
  | start_callback s t c a s' : pcs s t = StartEntry (Some c) →
      start_decision t (Some c) s = Go → _start_callback_locked c a s = (None, s') →
      start_stop_step (Ends t (Return ())) s (goto t Idle s')
  | start_failed s t c a e s' : pcs s t = StartEntry (Some c) →
      start_decision t (Some c) s = Go →
      _start_callback_locked c a s = (Some {| error := e; join_dispatcher := None |}, s') →
      start_stop_step (Ends t (Raise e)) s (goto t Idle s')
  | start_failed_join s t c a e r s' : pcs s t = StartEntry (Some c) →
      start_decision t (Some c) s = Go →
      _start_callback_locked c a s = (Some {| error := e; join_dispatcher := Some r |}, s') →
      start_stop_step Quiet s (goto t (StartFailed r e) s')
  | failed_join s t r e d : pcs s t = StartFailed r e → _join_callback_run t (runs s r) = Some d →
      start_stop_step Quiet s (goto t (StartFailedJoin d e) s)
  | failed_no_join s t r e : pcs s t = StartFailed r e → _join_callback_run t (runs s r) = None →
      start_stop_step (Ends t (Raise e)) s (goto t Idle s)
  | failed_joined s t d e : pcs s t = StartFailedJoin d e → is_over s d = true →
      start_stop_step (Ends t (Raise e)) s (goto t Idle s)
  | join_read s t k r : pcs s t = JoinRead k r →
      start_stop_step Quiet s (goto t (JoinCheck k r (thread (runs s r))) s)
  | join_thread s t k r j d : pcs s t = JoinCheck k r j →
      _join_callback_run t (runs s r) = Some d →
      start_stop_step Quiet s (goto t (Joining k r j d) s)
  | join_nothing s t k r j : pcs s t = JoinCheck k r j → _join_callback_run t (runs s r) = None →
      start_stop_step Quiet s (goto t (JoinLock k r j) s)
  | joined s t k r j d : pcs s t = Joining k r j d → is_over s d = true →
      start_stop_step Quiet s (goto t (JoinLock k r j) s)
  | join_lock s t k r j : pcs s t = JoinLock k r j →
      start_stop_step (after_join t k).1 s (goto t (after_join t k).2 (forget_thread r j s)).

(** Source: src/pynetft/client.py:191-207, [Client.wait] and [Client.raise_if_failed]. *)
Inductive wait_step : Event → State → State → Prop :=
  | wait_self s t r timed : pcs s t = WaitCheck r timed →
      thread (runs s r) = Some t → completed (runs s r) = false →
      wait_step (Ends t (Raise (RuntimeError "a callback dispatcher cannot wait for itself"))) s
        (goto t Idle s)
  | wait_other s t r timed : pcs s t = WaitCheck r timed →
      thread (runs s r) ≠ Some t ∨ completed (runs s r) = true →
      wait_step Quiet s (goto t (WaitEvent r timed) s)
  | wait_completed s t r timed : pcs s t = WaitEvent r timed → completed (runs s r) = true →
      wait_step Quiet s (goto t (WaitJoin r) s)
  | wait_timeout s t r : pcs s t = WaitEvent r true →
      wait_step (Ends t (Raise (TimeoutError "timed out waiting for callback delivery to stop"))) s
        (goto t Idle s)
  | wait_join s t r d : pcs s t = WaitJoin r → _join_callback_run t (runs s r) = Some d →
      wait_step Quiet s (goto t (WaitJoining r d) s)
  | wait_no_join s t r : pcs s t = WaitJoin r → _join_callback_run t (runs s r) = None →
      wait_step Quiet s (goto t (Report r) s)
  | wait_joined s t r d : pcs s t = WaitJoining r d → is_over s d = true →
      wait_step Quiet s (goto t (Report r) s)
  | report s t r : pcs s t = Report r →
      wait_step (Ends t (_raise_callback_run_failure (runs s r))) s (goto t Idle s).

(** Source: src/pynetft/client.py:209-229, [Client._iterate_samples]: one [next()] of a
    generator. The end of the generator is a return. *)
Inductive iter_step : Event → State → State → Prop :=
  | iter_over s t i : pcs s t = IterCheck i →
      _iterator_is_current (iter_token (iters s i)) s = false →
      iter_step (Ends t (Return ())) s (goto t Idle (on_iter i Exhausted s))
  | iter_current s t i : pcs s t = IterCheck i →
      _iterator_is_current (iter_token (iters s i)) s = true →
      iter_step Quiet s (goto t (IterEnter i) s)
  | iter_enter s t i : pcs s t = IterEnter i →
      iter_step Quiet s (goto t (IterReading i (QueueSpec.epoch (fifo (native s)))) s)
  | iter_refused s t i e : pcs s t = IterEnter i → iter_timed (iters s i) = true →
      iter_step (Ends t (Raise (raised on_validation e))) s (goto t Idle (on_iter i Exhausted s))
  | iter_read s t i e res n : pcs s t = IterReading i e →
      native_read e (iter_timed (iters s i)) (native s) res n →
      iter_step (took (ByIterator i) res) s (goto t (IterGot i res) (s <| native := n |>))
  | iter_stale s t i res : pcs s t = IterGot i res →
      _iterator_is_current (iter_token (iters s i)) s = false →
      iter_step (dropped res) s (goto t Idle (on_iter i Exhausted s))
  | iter_yield s t i res p : pcs s t = IterGot i res →
      _iterator_is_current (iter_token (iters s i)) s = true → iterate_result res = Yield p →
      iter_step (Yields t i p) s (goto t Idle (on_iter i Suspended s))
  | iter_raise s t i res e : pcs s t = IterGot i res →
      _iterator_is_current (iter_token (iters s i)) s = true → iterate_result res = IterRaise e →
      iter_step (Ends t (Raise e)) s (goto t Idle (on_iter i Exhausted s))
  | iter_closed s t i res : pcs s t = IterGot i res →
      _iterator_is_current (iter_token (iters s i)) s = true → iterate_result res = IterIsClosed →
      iter_step Quiet s (goto t (IterClosed i) s)
  | iter_fault s t i x s' : pcs s t = IterClosed i →
      _fault_error_for_closed_run (iter_token (iters s i)) s = (x, s') →
      iter_step (Ends t (match x with
                         | Return None => Return ()
                         | Return (Some e) | Raise e => Raise e
                         end)) s (goto t Idle (on_iter i Exhausted s')).

(** Source: src/pynetft/client.py:365-445, [Client._dispatch_callback]. The client and the
    run are reached through weak references: once the client is collected, both are
    gone. *)
Inductive dispatch_step : Event → State → State → Prop :=
  | d_no_run s r : dpcs s r = Waiting → collected s = true →
      dispatch_step Quiet s (dgoto r Finally s)
  | d_activated s r : dpcs s r = Waiting → ready (activation (runs s r)) = true →
      active (activation (runs s r)) = true → dispatch_step Quiet s (dgoto r Top s)
  | d_cancelled s r : dpcs s r = Waiting → ready (activation (runs s r)) = true →
      active (activation (runs s r)) = false → dispatch_step Quiet s (dgoto r Finally s)
  | d_no_client s r : dpcs s r = Top → collected s = true →
      dispatch_step Quiet s (dgoto r Finally s)
  | d_client s r : dpcs s r = Top → collected s = false →
      dispatch_step Quiet s (dgoto r CheckRun s)
  | d_current s r : dpcs s r = CheckRun → _callback_run_is_current r s = true →
      dispatch_step Quiet s (dgoto r Enter s)
  | d_over s r : dpcs s r = CheckRun → _callback_run_is_current r s = false →
      dispatch_step Quiet s (dgoto r Finally s)
  | d_enter s r : dpcs s r = Enter →
      dispatch_step Quiet s (dgoto r (Reading (QueueSpec.epoch (fifo (native s)))) s)
  | d_read s r e res n : dpcs s r = Reading e → native_read e false (native s) res n →
      dispatch_step (took (ByDispatcher r) res) s (dgoto r (AfterRead res) (s <| native := n |>))
  | d_read_raises s r e x : dpcs s r = Reading e → collected s = false →
      dispatch_step Quiet s (dgoto r (Failed (raised on_validation x)) s)
  | d_read_raises_alone s r e : dpcs s r = Reading e → collected s = true →
      dispatch_step Quiet s (dgoto r Finally (s <| native ::= native_stop |>))
  | d_lost_client s r res : dpcs s r = AfterRead res → collected s = true →
      dispatch_step (dropped res) s (dgoto r Finally s)
  | d_has_client s r res : dpcs s r = AfterRead res → collected s = false →
      dispatch_step Quiet s (dgoto r (CheckAgain res) s)
  | d_stale s r res : dpcs s r = CheckAgain res → _callback_run_is_current r s = false →
      dispatch_step (dropped res) s (dgoto r Finally s)
  | d_result s r res : dpcs s r = CheckAgain res → _callback_run_is_current r s = true →
      dispatch_step Quiet s (dgoto r (dispatch_result res) s)
  | d_call_over s r p : dpcs s r = CheckCall p → _callback_run_is_current r s = false →
      dispatch_step (Forgets p) s (dgoto r Finally s)
  | d_call_current s r p : dpcs s r = CheckCall p → _callback_run_is_current r s = true →
      dispatch_step Quiet s (dgoto r (Fetch p) s)
  | d_no_callback s r p : dpcs s r = Fetch p → callback (runs s r) = None →
      dispatch_step (Forgets p) s (dgoto r Finally s)
  | d_callback s r p c : dpcs s r = Fetch p → callback (runs s r) = Some c →
      dispatch_step (Calls r c p) s (dgoto r (InCallback c p) s)
  | d_returns s r c p : dpcs s r = InCallback c p → pcs s (Dispatcher r) = Idle →
      dispatch_step Quiet s (dgoto r Top s)
  | d_raises s r c p e : dpcs s r = InCallback c p → pcs s (Dispatcher r) = Idle →
      dispatch_step Quiet s (dgoto r (Failed e) s)
  | d_closed s r s' : dpcs s r = ClosedRun → _finish_callback_closed r s = (Return (), s') →
      dispatch_step Quiet s (dgoto r Finally s')
  | d_closed_raises s r e s' : dpcs s r = ClosedRun → _finish_callback_closed r s = (Raise e, s') →
      dispatch_step Quiet s (dgoto r (Failed e) s')
  | d_failed s r e : dpcs s r = Failed e →
      dispatch_step Quiet s (dgoto r Finally (_record_failure r e s))
  | d_finally s r : dpcs s r = Finally → collected s = false →
      dispatch_step Quiet s
        (dgoto r Ended (on_run r (λ x, x <| callback := None |> <| completed := true |>) s))
  | d_finally_alone s r : dpcs s r = Finally → collected s = true →
      dispatch_step Quiet s (dgoto r Ended s)
  | d_ended s r : dpcs s r = Ended → dispatch_step Quiet s (dgoto r Gone s).

(** The dispatcher has a strong reference to the client. *)
Definition holds_client (d : Dpc) : bool :=
  match d with
  | CheckRun | CheckAgain _ | CheckCall _ | Fetch _ | InCallback _ _ | ClosedRun | Failed _ => true
  | _ => false
  end.

(** The dispatcher is running. *)
Definition alive (d : Dpc) : bool := match d with Unborn | Gone => false | _ => true end.

(** The worker of the core delivers a sample, publishes a fault or changes the health
    while the native client runs; the client object is collected when nobody in it or of
    its dispatchers refers to it; the native client is destroyed, and stopped, when no
    dispatcher is left either (bindings/python/module.cpp, [NativeClientDeleter]). *)
Inductive outside_step : Event → State → State → Prop :=
  | worker_pushes s v : n_running (native s) = true →
      outside_step (Pushes v) s (s <| native ::= request (QueueSpec.Push v) |>)
  | worker_faults s c : n_running (native s) = true →
      outside_step Quiet s (s <| native ::= λ n, n <| n_faulted := true |> <| n_code := c |> |>)
  | worker_progresses s h :
      outside_step Quiet s (s <| native ::= λ n, n <| n_health := h |> |>)
  | collect s : collected s = false → (∀ t, pcs s t = Idle) →
      (∀ r, holds_client (dpcs s r) = false) →
      outside_step Quiet s (s <| collected := true |>)
  | release s : collected s = true → (∀ r, alive (dpcs s r) = false) →
      outside_step Quiet s (s <| native ::= native_stop |>).

Inductive step : Event → State → State → Prop :=
  | by_call l s s' : call_step l s s' → step l s s'
  | by_start_stop l s s' : start_stop_step l s s' → step l s s'
  | by_wait l s s' : wait_step l s s' → step l s s'
  | by_iter l s s' : iter_step l s s' → step l s s'
  | by_dispatch l s s' : dispatch_step l s s' → step l s s'
  | by_outside l s s' : outside_step l s s' → step l s s'.

Definition any_step (s s' : State) : Prop := ∃ l, step l s s'.

(** Source: src/pynetft/client.py:67-84, [Client.__init__]. *)
Definition initial (c : option Callback) (n : Native) : State :=
  {| running := false; mode := None; run_token := 0; constructor_callback := c;
     callback_run := None; native := n; runs := λ _, new_run 0 0; made := 0;
     pcs := λ _, Idle; dpcs := λ _, Unborn;
     iters := λ _, {| iter_token := 0; iter_timed := false; iter_state := Exhausted |};
     generators := 0; collected := false |}.

(** A native client as it is made: not running, with an empty queue. *)
Definition new_native (capacity : nat) (h : HealthSnapshot) : Native :=
  {| n_capacity := capacity; fifo := QueueSpec.empty_fifo; n_running := false;
     n_faulted := false; n_code := FaultCode.None; n_health := h |}.

Definition reachable (s : State) : Prop :=
  ∃ c capacity h, rtc any_step (initial c (new_native capacity h)) s.

End PyClient.
