(* ===== verification/PyClientSafety.v ===== *)
(** * Safety of the Python client

    The invariant of [PyClient] under every interleaving of the program's threads, the
    dispatchers, the core's worker and the collector, and what follows from it. Each kind
    of update has a frame lemma; a step is a composition of a few of them. *)

From Stdlib Require Import ZArith Lia String.
From stdpp Require Import functions relations.
From S2P Require Import Prelude Floats Types SampleQueue QueueSpec Conversion PyClient.
Import Conversion PyClient.

Module PyClientSafety.

(** ** Invariant *)

(** The dispatcher has not reached its finally clause. *)
Definition in_run (d : Dpc) : bool :=
  match d with Unborn | Finally | Ended | Gone => false | _ => true end.

(** The dispatcher is past its activation and not yet at its finally clause. *)
Definition serving (d : Dpc) : bool :=
  match d with Unborn | Waiting | Finally | Ended | Gone => false | _ => true end.

(** The run [start()] made current. *)
Definition published (s : State) (r : nat) : Prop :=
  callback_run s = Some r ∧ thread (runs s r) = Some (Dispatcher r) ∧
  activation (runs s r) = {| ready := true; active := true |}.

(** A run whose start failed after its dispatcher had begun. *)
Definition cancelled (s : State) (r : nat) : Prop :=
  activation (runs s r) = {| ready := true; active := false |} ∧ serving (dpcs s r) = false.

(** What the control point of a method says of the run it is about. *)
Definition about (s : State) (t : Tid) (pc : Pc) : Prop :=
  match pc with
  | JoinRead _ r | StartFailed r _ => (r < made s)%nat ∧ t ≠ Dispatcher r ∧ dpcs s r ≠ Unborn
  | JoinCheck _ r j =>
    (r < made s)%nat ∧ t ≠ Dispatcher r ∧ dpcs s r ≠ Unborn ∧
    (thread (runs s r) = None ∨ j = Some (Dispatcher r))
  | Joining _ r j d =>
    (r < made s)%nat ∧ t ≠ Dispatcher r ∧ dpcs s r ≠ Unborn ∧ d = Dispatcher r ∧
    j = Some (Dispatcher r)
  | JoinLock _ r j =>
    (r < made s)%nat ∧
    (thread (runs s r) = None ∨ dpcs s r = Gone ∧ j = Some (Dispatcher r))
  | StartFailedJoin d _ => ∃ r, d = Dispatcher r ∧ t ≠ d ∧ (r < made s)%nat ∧ dpcs s r ≠ Unborn
  | WaitCheck r _ | WaitEvent r _ | WaitJoin r => (r < made s)%nat ∧ dpcs s r ≠ Unborn
  | Report r => (r < made s)%nat
  | WaitJoining r d => (r < made s)%nat ∧ dpcs s r ≠ Unborn ∧ d = Dispatcher r ∧ t ≠ d
  | _ => True
  end.

(** The points of the methods that a call from the dispatcher [r] reaches. *)
Definition own_path (r : nat) (pc : Pc) : Prop :=
  match pc with
  | Idle | StartEntry _ | Report _ | IterCheck _ => True
  | WaitCheck r' _ => r' = r
  | _ => False
  end.

Definition pc_ok (s : State) (t : Tid) (pc : Pc) : Prop :=
  about s t pc ∧ match t with User _ => True | Dispatcher r => own_path r pc end.

(** The threads and the runs they are about. *)
Record Threads (s : State) : Prop := {
  i_fresh : ∀ r, (made s ≤ r)%nat → dpcs s r = Unborn;
  i_thread : ∀ r, (r < made s)%nat →
    thread (runs s r) = None ∨ thread (runs s r) = Some (Dispatcher r);
  i_named : ∀ r, callback_run s = Some r → (r < made s)%nat ∧ dpcs s r ≠ Unborn;
  i_active : ∀ r, callback_run s = Some r →
    activation (runs s r) = {| ready := true; active := true |};
  i_method : ∀ r, pcs s (Dispatcher r) ≠ Idle → ∃ c p, dpcs s r = InCallback c p;
  i_alive : ∀ r, alive (dpcs s r) = true → published s r ∨ cancelled s r;
  i_pcs : ∀ t, pc_ok s t (pcs s t);
  i_collected : collected s = true →
    (∀ t, pcs s t = Idle) ∧ ∀ r, holds_client (dpcs s r) = false
}.

(** What a run object says while its dispatcher runs and after. *)
Record Results (s : State) : Prop := {
  i_run : ∀ r, in_run (dpcs s r) = true →
    callback_error (runs s r) = None ∧ failure (runs s r) = None ∧
    completed (runs s r) = false ∧ (published s r → callback (runs s r) ≠ None);
  i_done : ∀ r, dpcs s r = Ended ∨ dpcs s r = Gone →
    completed (runs s r) = true ∨ collected s = true;
  i_one : ∀ r, callback_error (runs s r) = None ∨ failure (runs s r) = None;
  i_failure : ∀ r e, failure (runs s r) = Some e → ∃ c h, e = SensorFaultError c h
}.

(** What the client says of itself is so. *)
Record Serving (s : State) : Prop := {
  i_native : collected s = false → n_running (native s) = running s;
  i_mode : running s = true → mode s ≠ None;
  i_iterator : running s = true → mode s = Some Iterator → callback_run s = None;
  i_serving : running s = true → mode s = Some CallbackMode → collected s = false →
    ∃ r, callback_run s = Some r ∧ token (runs s r) = run_token s ∧ in_run (dpcs s r) = true
}.

Definition Inv (s : State) : Prop := Threads s ∧ Results s ∧ Serving s.

Lemma dpcs_dgoto r d s r' : dpcs (dgoto r d s) r' = if decide (r' = r) then d else dpcs s r'.
Proof.
  change (dpcs (dgoto r d s)) with (<[r := d]> (dpcs s)).
  destruct (decide (r' = r)) as [->|]; [by rewrite fn_lookup_insert|].
  by rewrite fn_lookup_insert_ne.
Qed.

Lemma client_pcs_goto t pc s t' : pcs (goto t pc s) t' = if decide (t' = t) then pc else pcs s t'.
Proof.
  change (pcs (goto t pc s)) with (<[t := pc]> (pcs s)).
  destruct (decide (t' = t)) as [->|]; [by rewrite fn_lookup_insert|].
  by rewrite fn_lookup_insert_ne.
Qed.

Lemma runs_on_run r f s r' :
  runs (on_run r f s) r' = if decide (r' = r) then f (runs s r) else runs s r'.
Proof.
  change (runs (on_run r f s)) with (<[r := f (runs s r)]> (runs s)).
  destruct (decide (r' = r)) as [->|]; [by rewrite fn_lookup_insert|].
  by rewrite fn_lookup_insert_ne.
Qed.

Lemma runs_dgoto r d s : runs (dgoto r d s) = runs s.
Proof. done. Qed.

Lemma py_initial_inv c n : n_running n = false → Inv (initial c n).
Proof. intros Hn. split; [split|split; split]; cbn; try done; try (intros; lia).
  - by intros [].
  - by intros r [|].
  - by left.
Qed.

(** *** Frames: what each kind of update keeps *)

Lemma not_collected s t : Inv s → pcs s t ≠ Idle → collected s = false.
Proof.
  intros (HT & _) Ht. destruct (collected s) eqn:E; [|done].
  destruct (i_collected s HT E) as [H _]. by rewrite H in Ht.
Qed.

Lemma may_call_inv t s :
  may_call t s = true → collected s = false ∧ pcs s t = Idle ∧
  match t with User _ => True | Dispatcher r => ∃ c p, dpcs s r = InCallback c p end.
Proof.
  unfold may_call. destruct (collected s); [done|]. simpl. intros H.
  destruct t as [n|r].
  - by destruct (pcs s (User n)).
  - destruct (pcs s (Dispatcher r)); try done. destruct (dpcs s r) eqn:E; try done.
    split_and!; [done..|]. by eexists _, _.
Qed.

(** The thread is, or begins to be, in a method. *)
Definition engaged (t : Tid) (s : State) : Prop := pcs s t ≠ Idle ∨ may_call t s = true.

Lemma engaged_inv t s :
  Inv s → engaged t s → collected s = false ∧
  match t with User _ => True | Dispatcher r => ∃ c p, dpcs s r = InCallback c p end.
Proof.
  intros HI [Ht|Ht].
  - split; [by eapply not_collected|]. destruct t as [|r]; [done|].
    destruct HI as [HT _]. by apply (i_method s HT).
  - apply may_call_inv in Ht as (? & _ & ?). done.
Qed.

Lemma pc_idle pc : pc = Idle ∨ pc ≠ Idle.
Proof. destruct pc; [left; reflexivity|right; discriminate..]. Qed.

Lemma goto_inv t pc s :
  Inv s → pc_ok s t pc → (pc = Idle ∨ engaged t s) → Inv (goto t pc s).
Proof.
  intros HI Hpc He.
  assert (pc ≠ Idle → collected s = false ∧
    match t with User _ => True | Dispatcher r => ∃ c p, dpcs s r = InCallback c p end) as Hn.
  { intros ?. destruct He as [|He]; [done|]. by apply engaged_inv. }
  destruct HI as (HT & HR & HS). destruct HT. split; [|split; [by destruct HR|by destruct HS]].
  split; try done.
  - intros r. rewrite client_pcs_goto. destruct (decide (Dispatcher r = t)) as [<-|]; [|by apply i_method0].
    intros Hne. by apply Hn.
  - intros t'. rewrite client_pcs_goto. destruct (decide (t' = t)) as [->|]; [done|]. apply i_pcs0.
  - intros Hc. destruct (i_collected0 Hc) as [H1 H2]. split; [|done]. intros t'.
    rewrite client_pcs_goto. destruct (decide (t' = t)) as [->|]; [|done].
    destruct (pc_idle pc) as [|Hne]; [done|]. destruct (Hn Hne) as [E _].
    change (collected s = true) in Hc. congruence.
Qed.

(** A dispatcher may go on to [d]. *)
Record d_ok (s : State) (r : nat) (d : Dpc) : Prop := {
  d_alive : alive (dpcs s r) = true;
  d_born : d ≠ Unborn;
  d_method : pcs s (Dispatcher r) = Idle ∨ ∃ c p, d = InCallback c p;
  d_serving : serving d = true → published s r;
  d_in_run : in_run d = true → in_run (dpcs s r) = true;
  d_holds : holds_client d = true → collected s = false;
  d_done : d = Ended ∨ d = Gone → completed (runs s r) = true ∨ collected s = true;
  d_over_ : in_run d = false → collected s = false → _callback_run_is_current r s = false
}.

Lemma current_iff r s :
  _callback_run_is_current r s = true ↔
  running s = true ∧ mode s = Some CallbackMode ∧ run_token s = token (runs s r) ∧
  callback_run s = Some r.
Proof.
  unfold _callback_run_is_current. rewrite !andb_true_iff, !bool_decide_eq_true, Nat.eqb_eq.
  tauto.
Qed.

Lemma iterator_current_iff k s :
  _iterator_is_current k s = true ↔
  running s = true ∧ mode s = Some Iterator ∧ run_token s = k.
Proof.
  unfold _iterator_is_current. rewrite !andb_true_iff, !bool_decide_eq_true, Nat.eqb_eq.
  tauto.
Qed.

Lemma about_dgoto s r d t pc :
  alive (dpcs s r) = true → d ≠ Unborn → about s t pc → about (dgoto r d s) t pc.
Proof.
  intros Ha Hb.
  assert (∀ r', dpcs s r' ≠ Unborn → dpcs (dgoto r d s) r' ≠ Unborn) as Hu.
  { intros r'. rewrite dpcs_dgoto. by case_decide. }
  assert (∀ r', dpcs s r' = Gone → dpcs (dgoto r d s) r' = Gone) as Hg.
  { intros r'. rewrite dpcs_dgoto. case_decide; [|done]. subst. intros E. by rewrite E in Ha. }
  destruct pc; cbn [about]; try done; intros H; try by intuition eauto.
  destruct H as (r' & ? & ? & ? & ?). exists r'. eauto.
Qed.

Lemma dgoto_inv r d s : Inv s → d_ok s r d → Inv (dgoto r d s).
Proof.
  intros (HT & HR & HS) [Ha Hb Hm Hs Hi Hh Hd Ho]. split; [|split].
  - destruct HT. split; try done.
    + intros r' Hr'. rewrite dpcs_dgoto. case_decide as E; [|by apply i_fresh0]. subst r'.
      by rewrite (i_fresh0 r Hr') in Ha.
    + intros r' Hr'. destruct (i_named0 r' Hr'). split; [done|]. rewrite dpcs_dgoto. by case_decide.
    + intros r' Hr'. rewrite dpcs_dgoto. case_decide as E; [subst r'|by apply i_method0].
      by destruct Hm as [Hm|].
    + intros r'. unfold cancelled. rewrite dpcs_dgoto. case_decide as E; [subst r'|apply i_alive0].
      intros _. destruct (i_alive0 r Ha) as [|[Hc Hv]]; [by left|]. right. split; [done|].
      destruct (serving d); [|done]. destruct (Hs eq_refl) as (_ & _ & E). cbn in Hc. congruence.
    + intros t. destruct (i_pcs0 t). split; [by apply about_dgoto|done].
    + intros Hc. destruct (i_collected0 Hc) as [H1 H2]. split; [done|]. intros r'.
      rewrite dpcs_dgoto. case_decide; [|done]. destruct (holds_client d); [|done].
      change (collected s = true) in Hc. specialize (Hh eq_refl). congruence.
  - destruct HR. split; try done.
    + intros r'. rewrite dpcs_dgoto. case_decide as E; [subst r'|apply i_run0].
      intros H. by apply i_run0, Hi.
    + intros r'. rewrite dpcs_dgoto. case_decide as E; [subst r'|apply i_done0]. done.
  - destruct HS. split; try done.
    intros H1 H2 H3. destruct (i_serving0 H1 H2 H3) as (r' & E & Et & Hr). exists r'.
    split_and!; [done..|]. rewrite dpcs_dgoto. case_decide as E'; [subst r'|done].
    destruct (in_run d); [done|]. specialize (Ho eq_refl H3).
    assert (_callback_run_is_current r s = true) as C by (by apply current_iff). congruence.
Qed.

(** Updates of the delivery state and the native client leave the threads alone. *)
Lemma fields_inv s s' :
  Inv s → made s' = made s → runs s' = runs s → callback_run s' = callback_run s →
  pcs s' = pcs s → dpcs s' = dpcs s → collected s' = collected s → Serving s' → Inv s'.
Proof.
  intros (HT & HR & _). destruct s, s'; cbn. intros -> -> -> -> -> -> HS.
  split; [|split; [|done]].
  - destruct HT; split; done.
  - destruct HR; split; done.
Qed.

Lemma stop_locked_inv s : Inv s → Inv (_stop_locked s).
Proof.
  intros HI. unfold _stop_locked. destruct (running s) eqn:E; [|done].
  eapply fields_inv; [exact HI|done..|]. by split.
Qed.

Lemma stop_locked_running s : running (_stop_locked s) = false.
Proof. unfold _stop_locked. by destruct (running s) eqn:E. Qed.

(** What a stop leaves alone. *)
Lemma stop_locked_frame s :
  pcs (_stop_locked s) = pcs s ∧ dpcs (_stop_locked s) = dpcs s ∧ runs (_stop_locked s) = runs s ∧
  made (_stop_locked s) = made s ∧ callback_run (_stop_locked s) = callback_run s ∧
  collected (_stop_locked s) = collected s.
Proof. unfold _stop_locked. by destruct (running s). Qed.

Lemma native_inv n s :
  Inv s → (collected s = false → n_running n = n_running (native s)) → Inv (s <| native := n |>).
Proof.
  intros HI Hn. eapply fields_inv; [exact HI|done..|]. destruct HI as (_ & _ & HS).
  destruct HS. split; try done. cbn. intros Hc. rewrite Hn by done. by apply i_native0.
Qed.

Lemma iter_inv i st s : Inv s → Inv (on_iter i st s).
Proof.
  intros HI. eapply fields_inv; [exact HI|done..|]. destruct HI as (_ & _ & HS). by destruct HS.
Qed.

Lemma samples_inv timed s r s' : Inv s → samples timed s = (r, s') → Inv s'.
Proof.
  intros HI. unfold samples. case_match; intros; simplify_eq; [done|].
  eapply fields_inv; [exact HI|done..|]. destruct HI as (_ & _ & HS). destruct HS.
  split; cbn; try done.
  - intros Hr Hm. apply i_iterator0; [done|]. pose proof (i_mode0 Hr). by destruct (mode s).
  - intros Hr Hm. apply i_serving0; [done|]. by destruct (mode s).
Qed.

(** [start()] begins a run only when none is under way and no thread is left to join. *)
Lemma go_inv t sel s :
  start_decision t sel s = Go →
  running s = false ∧ ∀ r, callback_run s = Some r → thread (runs s r) = None.
Proof. unfold start_decision. repeat case_match; try done; naive_solver. Qed.

Lemma start_iterator_inv x s r s' t sel :
  Inv s → collected s = false → start_decision t sel s = Go →
  _start_iterator_locked x s = (r, s') → Inv s'.
Proof.
  intros HI Hc Hg E. destruct (go_inv _ _ _ Hg) as [Hr Ht].
  unfold _start_iterator_locked in E. destruct x; simplify_eq.
  - eapply fields_inv; [exact HI|done..|]. by split.
  - destruct HI as (HT & HR & HS). split; [|split].
    + destruct HT. split; try done; cbn.
      intros r Ha. right. destruct (i_alive0 r Ha) as [(E & Et & _)|]; [|done].
      rewrite (Ht r E) in Et. done.
    + destruct HR. split; try done; cbn. intros r Ha. destruct (i_run0 r Ha) as (? & ? & ? & _).
      split_and!; try done. by intros (? & _).
    + pose proof (i_native s HS Hc) as Hn. split; try done; cbn. intros _.
      unfold native_started. by rewrite Hn, Hr.
Qed.

Lemma forget_thread_inv r j s :
  Inv s → thread (runs s r) = None ∨ dpcs s r = Gone → Inv (forget_thread r j s).
Proof.
  intros HI Hr. unfold forget_thread.
  destruct (bool_decide _ && bool_decide _) eqn:E; [|done]. clear E.
  assert (∀ r', published (on_run r (λ x, x <| thread := None |>) s) r' → published s r') as Hp.
  { intros r' (? & E & Ea). unfold published. rewrite runs_on_run in E, Ea.
    case_decide; subst; cbn in *; done. }
  destruct HI as (HT & HR & HS). split; [|split].
  - destruct HT. split; try done.
    + intros r' Hr'. rewrite runs_on_run. case_decide; [by left|by apply i_thread0].
    + intros r' Hr'. rewrite runs_on_run. case_decide; subst; by apply i_active0.
    + intros r' Ha. change (alive (dpcs s r') = true) in Ha.
      unfold published, cancelled. rewrite !runs_on_run. case_decide; [subst r'|by apply i_alive0].
      destruct (i_alive0 r Ha) as [(E & Et & _)|Hcn]; [|by right].
      destruct Hr as [Hr|Hr]; [congruence|by rewrite Hr in Ha].
    + intros t. destruct (i_pcs0 t) as [Ho Hp']. split; [|done].
      change (about (on_run r (λ x, x <| thread := None |>) s) t (pcs s t)).
      destruct (pcs s t); cbn [about] in *; try done.
      * destruct Ho as (? & ? & ? & Ho). split_and!; [done..|]. rewrite runs_on_run.
        case_decide; subst; [by left|done].
      * destruct Ho as (? & Ho). split_and!; [done..|]. rewrite runs_on_run.
        case_decide; subst; [by left|done].
  - destruct HR. split; try done.
    + intros r' Ha. destruct (i_run0 r' Ha) as (H1 & H2 & H3 & H4). rewrite runs_on_run.
      case_decide; subst; cbn; split_and!; eauto.
    + intros r'. rewrite runs_on_run. case_decide; [subst; apply i_done0|apply i_done0].
    + intros r'. rewrite runs_on_run. case_decide; [subst; apply i_one0|apply i_one0].
    + intros r' e. rewrite runs_on_run. case_decide; [subst; apply i_failure0|apply i_failure0].
  - destruct HS. split; try done. intros H1 H2 H3. destruct (i_serving0 H1 H2 H3) as (r' & E & Et & Hi).
    exists r'. split_and!; [done| |done]. rewrite runs_on_run. by case_decide; subst.
Qed.

(** A new run object [x], whose dispatcher is at [d]. *)
Record Made (s s' : State) (x : CallbackRun) (d : Dpc) : Prop := {
  m_runs : ∀ r, runs s' r = if decide (r = made s) then x else runs s r;
  m_dpcs : ∀ r, dpcs s' r = if decide (r = made s) then d else dpcs s r;
  m_made : made s' = S (made s);
  m_pcs : pcs s' = pcs s;
  m_collected : collected s = false ∧ collected s' = false;
  m_thread : thread x = None ∨ thread x = Some (Dispatcher (made s));
  m_clean : callback_error x = None ∧ failure x = None;
  m_waits : d = Unborn ∨ d = Waiting ∧ completed x = false;
  m_current :
    callback_run s' = callback_run s ∧
      (d = Waiting → activation x = {| ready := true; active := false |}) ∨
    callback_run s' = Some (made s) ∧ d = Waiting ∧ callback x ≠ None ∧
      thread x = Some (Dispatcher (made s)) ∧
      activation x = {| ready := true; active := true |} ∧
      ∀ r, callback_run s = Some r → thread (runs s r) = None
}.

Lemma made_threads s s' x d : Threads s → Made s s' x d → Threads s'.
Proof.
  intros [] [Hru Hd Hm Hp [Hc Hc'] Ht _ Hw Hcur].
  pose proof (i_fresh0 (made s) (Nat.le_refl _)) as Hun. split.
  - intros r Hr. rewrite Hd. case_decide; [lia|]. apply i_fresh0. lia.
  - intros r Hr. rewrite Hru. case_decide; [by subst|]. apply i_thread0. lia.
  - intros r Hr. rewrite Hd, Hm. destruct Hcur as [[E _]|(E & -> & _)]; rewrite E in Hr.
    + destruct (i_named0 r Hr) as [? ?]. split; [lia|]. case_decide; [lia|done].
    + injection Hr as <-. split; [lia|]. by rewrite decide_True.
  - intros r Hr. rewrite Hru. destruct Hcur as [[E _]|(E & _ & _ & _ & Ea & _)]; rewrite E in Hr.
    + destruct (i_named0 r Hr). case_decide; [lia|]. by apply i_active0.
    + injection Hr as <-. by rewrite decide_True.
  - intros r. rewrite Hp, Hd. intros Hne. destruct (i_method0 r Hne) as (c & p & E).
    case_decide; [congruence|]. by exists c, p.
  - intros r. unfold published, cancelled. rewrite Hd, Hru. case_decide as E; [subst r|].
    + intros Ha. destruct Hw as [->|[-> _]]; [done|].
      destruct Hcur as [[_ Hcan]|(E & _ & _ & Et & Ea & _)]; [right; split; auto|by left].
    + intros Ha. destruct (i_alive0 r Ha) as [(Er & Et & Ea)|]; [|by right].
      destruct Hcur as [[Ec _]|(_ & _ & _ & _ & _ & Hn)]; [left; by rewrite Ec|].
      rewrite (Hn r Er) in Et. done.
  - intros t. rewrite Hp. destruct (i_pcs0 t) as [Ho Hpp]. split; [|done].
    assert (∀ r, (r < made s)%nat → runs s' r = runs s r ∧ dpcs s' r = dpcs s r) as Hold.
    { intros r Hr. rewrite Hru, Hd. case_decide; [lia|done]. }
    assert (∀ r, (r < made s)%nat → (r < made s')%nat) as Hlt by (intros; lia).
    destruct (pcs s t); cbn [about] in *; try done;
      try (destruct Ho as [Hr Ho]; destruct (Hold _ Hr) as [E1 E2]; rewrite ?E1, ?E2;
           split; [by apply Hlt|done]).
    + destruct Ho as (r & ? & ? & Hr & ?). exists r. destruct (Hold r Hr) as [_ ->]. auto.
    + by apply Hlt.
  - congruence.
Qed.

Lemma made_results s s' x d : Threads s → Results s → Made s s' x d → Results s'.
Proof.
  intros HT [] [Hru Hd Hm Hp [Hc Hc'] Ht [He Hf] Hw Hcur].
  pose proof (i_fresh s HT (made s) (Nat.le_refl _)) as Hun. split.
  - intros r. unfold published. rewrite Hru, Hd. case_decide; [subst r|].
    + intros Hi. destruct Hw as [->|[-> Hco]]; [done|]. split_and!; [done..|].
      intros (E & Et & Ea). destruct Hcur as [[Ec Hcan]|(_ & _ & ? & _)]; [|done].
      rewrite (Hcan eq_refl) in Ea. done.
    + intros Hi. destruct (i_run0 r Hi) as (? & ? & ? & Hcb). split_and!; [done..|].
      intros (E & Et & Ea). apply Hcb. destruct Hcur as [[Ec _]|(Ec & _)]; [|congruence].
      split; [congruence|done].
  - intros r. rewrite Hru, Hd. case_decide.
    + intros [E|E]; destruct Hw as [->|[-> _]]; done.
    + intros Hr. destruct (i_done0 r Hr) as [|Hcol]; [by left|]. exfalso.
      congruence.
  - intros r. rewrite Hru. case_decide; [by left|done].
  - intros r e. rewrite Hru. case_decide; [congruence|apply i_failure0].
Qed.

Lemma made_inv s s' x d : Inv s → Made s s' x d → Serving s' → Inv s'.
Proof.
  intros (HT & HR & _) HM HS. split; [by eapply made_threads|].
  split; [by eapply made_results|done].
Qed.

Lemma idle_serving s : running s = false → n_running (native s) = false → Serving s.
Proof. intros Hr Hn. split; congruence. Qed.

Ltac made_solve Hun Hor :=
  first [ by intros r; rewrite ?runs_dgoto, runs_on_run | by intros r; rewrite dpcs_dgoto | exact Hun
        | done | by left | by right | by apply Hor | right; split_and!; done ].

(** An attempt to start a callback run leaves everything, or adds one run. *)
Lemma start_callback_made c a s o s' t sel :
  Inv s → collected s = false → start_decision t sel s = Go →
  _start_callback_locked c a s = (o, s') →
  s' = s ∨ ∃ x d, Made s s' x d ∧ Serving s' ∧
    (running s' = true → callback_run s' = Some (made s)).
Proof.
  intros HI Hc Hg E. destruct (go_inv _ _ _ Hg) as [Hr Ht].
  pose proof HI as (HT & _ & HS). pose proof (i_native s HS Hc) as Hn.
  assert (∀ r, dpcs s r = if decide (r = made s) then Unborn else dpcs s r) as Hun.
  { intros r. case_decide; [subst; by apply i_fresh|done]. }
  assert (∀ P Q R : Prop, P → Q → P ∧ Q ∨ R) as Hor by tauto.
  destruct a; simpl in E; simplify_eq; [by left|right; eexists _, _; split..].
  - instantiate (1 := Unborn). split; made_solve Hun Hor.
  - split; [by apply idle_serving; [|transitivity (running s)]|].
    change (running s = true → callback_run s = Some (made s)). congruence.
  - instantiate (1 := Unborn). split; made_solve Hun Hor.
  - split; [by apply idle_serving; [|transitivity (running s)]|].
    change (running s = true → callback_run s = Some (made s)). congruence.
  - split; made_solve Hun Hor.
  - by split.
  - split; made_solve Hun Hor.
  - split; [|done]. split; try done.
    + intros _. cbn. unfold native_started. by rewrite Hn, Hr.
    + intros _ _ _. exists (made s). split; [done|].
      split; [|by rewrite dpcs_dgoto, decide_True].
      by rewrite runs_dgoto, runs_on_run, decide_True.
Qed.

Lemma start_callback_inv c a s o s' t sel :
  Inv s → collected s = false → start_decision t sel s = Go →
  _start_callback_locked c a s = (o, s') → Inv s'.
Proof.
  intros HI Hc Hg E.
  destruct (start_callback_made c a s o s' t sel HI Hc Hg E) as [->|(x & d & HM & HS & _)]; [done|].
  by eapply made_inv.
Qed.

(** A run whose dispatcher is at its end gets its result. *)
Lemma result_inv r f s :
  Inv s → in_run (dpcs s r) = false →
  (∀ x, thread (f x) = thread x ∧ activation (f x) = activation x ∧ token (f x) = token x) →
  (completed (runs s r) = true → completed (f (runs s r)) = true) →
  callback_error (f (runs s r)) = None ∨ failure (f (runs s r)) = None →
  (∀ e, failure (f (runs s r)) = Some e → ∃ c h, e = SensorFaultError c h) →
  Inv (on_run r f s).
Proof.
  intros (HT & HR & HS) Hd Hf Hc Ho He.
  assert (∀ r', thread (runs (on_run r f s) r') = thread (runs s r') ∧
    activation (runs (on_run r f s) r') = activation (runs s r') ∧
    token (runs (on_run r f s) r') = token (runs s r')) as Hk.
  { intros r'. rewrite runs_on_run. case_decide; [subst r'; apply Hf|done]. }
  assert (∀ r', published (on_run r f s) r' ↔ published s r') as Hp.
  { intros r'. unfold published. by destruct (Hk r') as (-> & -> & _). }
  split; [|split].
  - destruct HT. split; try done.
    + intros r'. destruct (Hk r') as (-> & _). apply i_thread0.
    + intros r'. destruct (Hk r') as (_ & -> & _). apply i_active0.
    + intros r'. unfold cancelled. destruct (Hk r') as (_ & -> & _). rewrite Hp. apply i_alive0.
    + intros t. destruct (i_pcs0 t) as [Ha Hown]. split; [|done].
      change (about (on_run r f s) t (pcs s t)).
      destruct (pcs s t); cbn [about] in *; try done.
      * destruct (Hk r0) as (-> & _). done.
      * destruct (Hk r0) as (-> & _). done.
  - destruct HR. split.
    + intros r' Hi. change (in_run (dpcs s r') = true) in Hi. rewrite Hp, runs_on_run.
      case_decide; [congruence|by apply i_run0].
    + intros r'. rewrite runs_on_run. case_decide; [subst r'|apply i_done0].
      intros Hr. destruct (i_done0 r Hr) as [|]; [left; auto|by right].
    + intros r'. rewrite runs_on_run. case_decide; [by subst r'|apply i_one0].
    + intros r' e. rewrite runs_on_run. case_decide; [subst r'; apply He|apply i_failure0].
  - destruct HS. split; try done. intros H1 H2 H3.
    destruct (i_serving0 H1 H2 H3) as (r' & E & Et & Hi). exists r'.
    split_and!; [done| |done]. by destruct (Hk r') as (_ & _ & ->).
Qed.

(** *** Dispatchers *)

Lemma serving_published s r : Threads s → serving (dpcs s r) = true → published s r.
Proof.
  intros HT Hs. destruct (i_alive s HT r) as [|[_ E]]; [by destruct (dpcs s r)|done|congruence].
Qed.

Lemma dispatcher_idle s r :
  Threads s → (∀ c p, dpcs s r ≠ InCallback c p) → pcs s (Dispatcher r) = Idle.
Proof.
  intros HT H. destruct (pc_idle (pcs s (Dispatcher r))) as [|Hne]; [done|].
  destruct (i_method s HT r Hne) as (c & p & E). by apply H in E.
Qed.

Lemma holder_exists s r : Threads s → holds_client (dpcs s r) = true → collected s = false.
Proof.
  intros HT Hh. destruct (collected s) eqn:E; [|done].
  destruct (i_collected s HT E) as [_ H]. by rewrite H in Hh.
Qed.

(** A dispatcher goes on with its run. *)
Lemma continue_inv s r d :
  Inv s → published s r → in_run (dpcs s r) = true → in_run d = true →
  pcs s (Dispatcher r) = Idle ∨ (∃ c p, d = InCallback c p) →
  (holds_client d = true → collected s = false) → Inv (dgoto r d s).
Proof.
  intros HI Hp Hi Hd Hm Hh. apply dgoto_inv; [done|]. split; try done.
  - by destruct (dpcs s r).
  - by intros ->.
  - by intros [->| ->].
  - congruence.
Qed.

(** A dispatcher goes to its finally clause once its run is over. *)
Lemma leave_inv s r :
  Inv s → in_run (dpcs s r) = true → pcs s (Dispatcher r) = Idle →
  (collected s = false → _callback_run_is_current r s = false) → Inv (dgoto r Finally s).
Proof.
  intros HI Hi Hm Ho. apply dgoto_inv; [done|]. split; try done.
  - by destruct (dpcs s r).
  - by left.
  - by intros [|].
Qed.

Lemma not_current_stopped r s : running s = false → _callback_run_is_current r s = false.
Proof. intros E. unfold _callback_run_is_current. by rewrite E. Qed.

(** The run is stopped, and its dispatcher leaves with a result. *)
Lemma stop_leave_inv s r f :
  Inv s → in_run (dpcs s r) = true → pcs s (Dispatcher r) = Idle →
  (∀ x, thread (f x) = thread x ∧ activation (f x) = activation x ∧ token (f x) = token x ∧
        completed (f x) = completed x) →
  callback_error (f (runs s r)) = None ∨ failure (f (runs s r)) = None →
  (∀ e, failure (f (runs s r)) = Some e → ∃ c h, e = SensorFaultError c h) →
  let s1 := if _callback_run_is_current r s then _stop_locked s else s in
  Inv (dgoto r Finally (on_run r f s1)).
Proof.
  intros HI Hi Hm Hf Ho He s1. change (Inv (on_run r f (dgoto r Finally s1))).
  assert (pcs s1 = pcs s ∧ dpcs s1 = dpcs s ∧ runs s1 = runs s) as (Ep & Ed & Er).
  { subst s1. destruct (_callback_run_is_current r s); [|done].
    by destruct (stop_locked_frame s) as (? & ? & ? & _). }
  assert (Inv s1) as HI1.
  { subst s1. case_match; [by apply stop_locked_inv|done]. }
  apply result_inv.
  - apply leave_inv; rewrite ?Ep, ?Ed; try done. intros _. subst s1. case_match; [|done].
    apply not_current_stopped, stop_locked_running.
  - by rewrite dpcs_dgoto, decide_True.
  - intros x. destruct (Hf x) as (? & ? & ? & _). done.
  - rewrite runs_dgoto. destruct (Hf (runs s1 r)) as (_ & _ & _ & ->). done.
  - by rewrite runs_dgoto, Er.
  - by rewrite runs_dgoto, Er.
Qed.


Lemma failed_inv s r e :
  Inv s → dpcs s r = Failed e → Inv (dgoto r Finally (_record_failure r e s)).
Proof.
  intros HI E. pose proof HI as (HT & HR & _).
  destruct (i_run s HR r) as (He & Hf & _); [by rewrite E|].
  assert (_record_failure r e s = on_run r (λ x, x <| callback_error := Some e |>)
    (if _callback_run_is_current r s then _stop_locked s else s)) as ->.
  { unfold _record_failure, note_error. rewrite He, Hf.
    assert (_callback_run_is_current r (on_run r (λ x, x <| callback_error := Some e |>) s) =
      _callback_run_is_current r s) as ->.
    { unfold _callback_run_is_current. by rewrite runs_on_run, decide_True. }
    destruct (_callback_run_is_current r s); [|done].
    unfold _stop_locked. change (running (on_run _ _ s)) with (running s).
    by destruct (running s). }
  apply stop_leave_inv; try done.
  - by rewrite E.
  - apply dispatcher_idle; [done|]. by rewrite E.
  - by right.
  - cbn. congruence.
Qed.

(** The fault of the core is reported, or its health cannot be shown. *)
Lemma sensor_fault_cases s :
  sensor_fault s = Raise UnicodeDecodeError ∨
  ∃ c h, sensor_fault s = Return (SensorFaultError c h).
Proof.
  unfold sensor_fault.
  pose proof (to_health_cases (n_health (native s)) (Z.of_nat (QueueSpec.dropped (fifo (native s)))))
    as Hh. unfold converts_if in Hh. destruct (snapshot_text _); [|rewrite Hh; by left].
  destruct Hh as [h ->]. right.
  destruct (public_total _ _ _ (n_code (native s)) fault_codes_agree) as [c E].
  unfold to_fault_code. simpl. rewrite E. by exists c, h.
Qed.

Lemma closed_inv s r x s' :
  Inv s → dpcs s r = ClosedRun → _finish_callback_closed r s = (x, s') →
  Inv (dgoto r (match x with Return _ => Finally | Raise e => Failed e end) s').
Proof.
  intros HI E Hx. pose proof HI as (HT & HR & _).
  destruct (i_run s HR r) as (He & Hf & _); [by rewrite E|].
  assert (pcs s (Dispatcher r) = Idle) as Hi by (apply dispatcher_idle; [done|by rewrite E]).
  unfold _finish_callback_closed in Hx.
  destruct (_callback_run_is_current r s) eqn:Hc; cbn [negb] in Hx.
  2:{ simplify_eq. apply leave_inv; rewrite ?E; done. }
  destruct (n_faulted (native s)).
  - destruct (sensor_fault_cases s) as [Hs|(c & h & Hs)]; rewrite Hs in Hx; simplify_eq.
    { apply continue_inv; rewrite ?E; try done.
      - by apply serving_published; [|rewrite E].
      - by left.
      - intros _. by eapply holder_exists; [|rewrite E]. }
    assert (_stop_locked (on_run r (λ x, x <| failure := Some (SensorFaultError c h) |>) s) =
      on_run r (λ x, x <| failure := Some (SensorFaultError c h) |>)
        (if _callback_run_is_current r s then _stop_locked s else s)) as ->.
    { rewrite Hc. unfold _stop_locked. change (running (on_run _ _ s)) with (running s).
      by destruct (running s). }
    apply stop_leave_inv; rewrite ?E; try done.
    + by left.
    + cbn. intros e [= <-]. by exists c, h.
  - simplify_eq. apply leave_inv.
    + by apply stop_locked_inv.
    + destruct (stop_locked_frame s) as (_ & -> & _). by rewrite E.
    + by destruct (stop_locked_frame s) as (-> & _).
    + intros _. apply not_current_stopped, stop_locked_running.
Qed.

Lemma finally_inv s r :
  Inv s → dpcs s r = Finally → collected s = false →
  Inv (dgoto r Ended (on_run r (λ x, x <| callback := None |> <| completed := true |>) s)).
Proof.
  intros HI E Hc. pose proof HI as (HT & HR & HS).
  apply dgoto_inv.
  - apply result_inv; rewrite ?E; try done.
    + apply (i_one s HR).
    + apply (i_failure s HR).
  - split; try done.
    + change (alive (dpcs s r) = true). by rewrite E.
    + left. change (pcs s (Dispatcher r) = Idle). apply dispatcher_idle; [done|]. by rewrite E.
    + intros _. left. by rewrite runs_on_run, decide_True.
    + intros _ _. destruct (_callback_run_is_current r _) eqn:Hcur; [|done].
      apply current_iff in Hcur as (H1 & H2 & _ & H3).
      destruct (i_serving s HS H1 H2 Hc) as (r' & E' & _ & Hi).
      change (callback_run s = Some r) in H3. rewrite E' in H3. injection H3 as ->.
      by rewrite E in Hi.
Qed.

(** Once a dispatcher has left its loop its run is not current. *)
Lemma left_not_current s r :
  Inv s → collected s = false → in_run (dpcs s r) = false → _callback_run_is_current r s = false.
Proof.
  intros (_ & _ & HS) Hc Hi. destruct (_callback_run_is_current r s) eqn:E; [|done].
  apply current_iff in E as (H1 & H2 & _ & H3).
  destruct (i_serving s HS H1 H2 Hc) as (r' & E & _ & Hi'). congruence.
Qed.

(** Closes the conditions of [continue_inv] and [leave_inv] at a known control point. *)
Ltac at_point HT E :=
  first
    [ done
    | by rewrite E
    | by apply serving_published; [|rewrite E]
    | by apply dispatcher_idle; [|rewrite E]
    | by left; apply dispatcher_idle; [|rewrite E]
    | by intros _; eapply holder_exists; [|rewrite E]
    | by right; eexists _, _
    | by left
    | by intros H; rewrite H in * ].

Lemma native_read_running e timed n res n' :
  native_read e timed n res n' → n_running n' = n_running n ∧ n_faulted n' = n_faulted n.
Proof. by destruct 1. Qed.

Lemma dispatch_inv l s s' : dispatch_step l s s' → Inv s → Inv s'.
Proof.
  intros Hs HI. pose proof HI as (HT & HR & HS). destruct Hs.
  - apply leave_inv; try at_point HT H. congruence.
  - assert (published s r).
    { destruct (i_alive s HT r) as [|[Ha _]]; [by rewrite H|done|]. by rewrite Ha in H1. }
    apply continue_inv; at_point HT H.
  - apply leave_inv; try at_point HT H. intros _.
    destruct (_callback_run_is_current r s) eqn:E; [|done].
    apply current_iff in E as (_ & _ & _ & E). apply (i_active s HT) in E. by rewrite E in H1.
  - apply leave_inv; try at_point HT H. congruence.
  - apply continue_inv; at_point HT H.
  - apply continue_inv; at_point HT H.
  - apply leave_inv; at_point HT H.
  - apply continue_inv; at_point HT H.
  - assert (Inv (s <| native := n |>)) as HI'.
    { apply native_inv; [done|]. intros _. by apply native_read_running in H0 as [? _]. }
    assert (published s r) as Hp by at_point HT H.
    apply continue_inv; [done|exact Hp|..]; try done.
    + change (in_run (dpcs s r) = true). by rewrite H.
    + left. change (pcs s (Dispatcher r) = Idle). at_point HT H.
  - apply continue_inv; at_point HT H.
  - assert (Inv (s <| native ::= native_stop |>)) as HI'.
    { apply native_inv; [done|congruence]. }
    apply leave_inv; [done|..].
    + change (in_run (dpcs s r) = true). by rewrite H.
    + change (pcs s (Dispatcher r) = Idle). at_point HT H.
    + change (collected (s <| native ::= native_stop |>)) with (collected s). congruence.
  - apply leave_inv; try at_point HT H. congruence.
  - apply continue_inv; at_point HT H.
  - apply leave_inv; at_point HT H.
  - assert (in_run (dispatch_result res) = true).
    { unfold dispatch_result. by repeat case_match. }
    apply continue_inv; at_point HT H.
  - apply leave_inv; at_point HT H.
  - apply continue_inv; at_point HT H.
  - destruct (i_run s HR r) as (_ & _ & _ & Hcb); [by rewrite H|].
    exfalso. apply Hcb; [at_point HT H|done].
  - apply continue_inv; at_point HT H.
  - apply continue_inv; at_point HT H.
  - apply continue_inv; at_point HT H.
  - by eapply (closed_inv s r (Return ())).
  - by eapply (closed_inv s r (Raise e)).
  - by apply failed_inv.
  - by apply finally_inv.
  - apply dgoto_inv; [done|]. split; try done; try at_point HT H.
    + intros _. by right.
    + congruence.
  - apply dgoto_inv; [done|]. split; try done; try at_point HT H.
    + intros _. apply (i_done s HR). by left.
    + intros _ Hc. apply left_not_current; [done..|]. by rewrite H.
Qed.

(** *** Methods *)

(** A method that ends or goes on to a point that says nothing of a run. *)
Lemma goto_plain t pc s :
  Inv s → engaged t s →
  match pc with Idle | StartEntry _ | IterCheck _ => True | _ => False end → Inv (goto t pc s).
Proof.
  intros HI He Hp. apply goto_inv; [done| |by right].
  split; [by destruct pc|]. destruct t; [done|]. by destruct pc.
Qed.

Lemma goto_idle t s : Inv s → Inv (goto t Idle s).
Proof.
  intros HI. apply goto_inv; [done| |by left]. split; [done|]. by destruct t.
Qed.

(** A dispatcher in a method is the one of the current run. *)
Lemma own_run s r : Inv s → engaged (Dispatcher r) s → published s r ∧ completed (runs s r) = false.
Proof.
  intros HI He. destruct (engaged_inv _ _ HI He) as (_ & c & p & E). destruct HI as (HT & HR & _).
  split; [at_point HT E|]. by destruct (i_run s HR r) as (_ & _ & ? & _); [rewrite E|].
Qed.

Lemma at_pc s t pc : pcs s t = pc → pc ≠ Idle → engaged t s.
Proof. intros <- H. by left. Qed.

(** The point [pc'] follows [pc] and is about the same run. *)
Lemma goto_next t pc' s :
  Inv s → engaged t s → about s t pc' →
  (∀ r, t = Dispatcher r → published s r → completed (runs s r) = false → own_path r pc') →
  Inv (goto t pc' s).
Proof.
  intros HI He Ha Ho. apply goto_inv; [done| |by right]. split; [done|].
  destruct t as [n|r]; [done|]. destruct (own_run s r HI He). by apply Ho.
Qed.

Lemma stop_section_inv t s o s' :
  stop_section t s = (o, s') →
  s' = _stop_locked s ∧ (∀ r, o = Some r → callback_run s = Some r ∧
    ∃ d, thread (runs s r) = Some d ∧ d ≠ t).
Proof.
  unfold stop_section. intros [= <- <-]. split; [done|]. intros r Hr.
  repeat case_match; simplify_eq. split; [done|]. eexists. split; [done|].
  by apply bool_decide_eq_false in H1.
Qed.

Lemma engaged_frame t s s' :
  pcs s' = pcs s → dpcs s' = dpcs s → collected s' = collected s → engaged t s → engaged t s'.
Proof. unfold engaged, may_call. by intros -> -> ->. Qed.

Lemma call_inv l s s' : call_step l s s' → Inv s → Inv s'.
Proof.
  intros Hs HI. pose proof HI as (HT & HR & HS). destruct Hs.
  - apply goto_plain; [done|by right|done].
  - apply stop_section_inv in H0 as [-> Hr]. destruct (Hr r eq_refl) as (E & d & Et & Hd).
    destruct (i_named s HT r E) as [Hm Hu]. destruct (stop_locked_frame s) as (F1 & F2 & F3 & F4 & F5 & F6).
    assert (d = Dispatcher r) as ->.
    { destruct (i_thread s HT r Hm) as [E'|E']; congruence. }
    apply goto_next; [by apply stop_locked_inv|by eapply engaged_frame; [..|right]| |].
    + cbn. rewrite F4, F2. auto.
    + intros r' -> (E' & _). rewrite F5 in E'. congruence.
  - apply stop_section_inv in H0 as [-> _]. by apply stop_locked_inv.
  - by eapply samples_inv.
  - by eapply samples_inv.
  - assert (callback_run s = Some r) as E.
    { unfold wait_section in H0. repeat case_match; by simplify_eq. }
    apply goto_next; [done|by right|by apply (i_named s HT)|].
    intros r' -> (E' & _). cbn. congruence.
  - done.
  - apply goto_next; [done|by right|by apply (i_named s HT)|done].
  - done.
  - apply goto_plain; [by apply iter_inv|by eapply engaged_frame; [..|right]|done].
Qed.

Lemma join_target t run s r d :
  Threads s → (r < made s)%nat → run = runs s r → _join_callback_run t run = Some d →
  d = Dispatcher r ∧ t ≠ d ∧ thread (runs s r) = Some d.
Proof.
  intros HT Hr -> H. unfold _join_callback_run in H. repeat case_match; simplify_eq.
  apply bool_decide_eq_false in H1. destruct (i_thread s HT r Hr); simplify_eq.
  split_and!; congruence.
Qed.

Lemma join_none t s r :
  Threads s → (r < made s)%nat → t ≠ Dispatcher r → _join_callback_run t (runs s r) = None →
  thread (runs s r) = None.
Proof.
  intros HT Hr Ht H. unfold _join_callback_run in H. repeat case_match; simplify_eq; [|done].
  apply bool_decide_eq_true in H1. destruct (i_thread s HT r Hr); simplify_eq; congruence.
Qed.

Lemma over_gone s r : is_over s (Dispatcher r) = true → dpcs s r = Gone.
Proof. simpl. by destruct (dpcs s r). Qed.

Lemma forget_thread_frame r j s :
  pcs (forget_thread r j s) = pcs s ∧ dpcs (forget_thread r j s) = dpcs s ∧
  collected (forget_thread r j s) = collected s.
Proof. unfold forget_thread. by destruct (bool_decide _ && bool_decide _). Qed.

Lemma join_first_inv t sel s r :
  start_decision t sel s = JoinFirst r → callback_run s = Some r ∧ thread (runs s r) ≠ Some t.
Proof.
  unfold start_decision. destruct (callback_run s) as [r'|]; [|by repeat case_match].
  destruct (bool_decide (thread (runs s r') = Some t)) eqn:E; [done|].
  apply bool_decide_eq_false in E. repeat case_match; intros; simplify_eq. split; congruence.
Qed.

Lemma start_stop_inv l s s' : start_stop_step l s s' → Inv s → Inv s'.
Proof.
  intros Hs HI. pose proof HI as (HT & HR & HS).
  destruct Hs; pose proof (i_pcs s HT t) as [Ha Ho]; rewrite H in Ha, Ho; cbn [about] in Ha;
    assert (engaged t s) as He by (by eapply at_pc);
    destruct (engaged_inv _ _ HI He) as [Hc _].
  - by apply goto_idle.
  - by apply goto_idle.
  - destruct (join_first_inv _ _ _ _ H0) as [E Et].
    apply goto_next; [done..| |].
    + destruct (i_named s HT r E). split_and!; [done| |done]. intros ->.
      destruct (own_run s r HI He) as [(_ & ? & _) _]. done.
    + intros r' -> (E' & Et' & _). congruence.
  - apply goto_idle. by eapply start_iterator_inv.
  - apply goto_idle. by eapply start_callback_inv.
  - apply goto_idle. by eapply start_callback_inv.
  - assert (Inv s') as HI' by (by eapply start_callback_inv).
    assert (r = made s ∧ made s' = S r ∧ pcs s' = pcs s) as (-> & Em & Ep).
    { destruct a; simpl in H1; by simplify_eq. }
    assert (dpcs s' (made s) = Waiting) as Ew.
    { destruct a; simpl in H1; simplify_eq. by rewrite dpcs_dgoto, decide_True. }
    assert (∀ n, t ≠ Dispatcher n) as Hu.
    { intros n ->. destruct (own_run s n HI He) as [(E & Et & _) _].
      destruct (go_inv _ _ _ H0) as [_ Hn]. rewrite (Hn n E) in Et. done. }
    apply goto_next; [done|left; by rewrite Ep, H| |].
    + cbn. split_and!; [lia|apply Hu|by rewrite Ew].
    + intros n ->. by destruct (Hu n).
  - destruct Ha as (Hr & Ht & Hu). destruct (join_target t _ s r d HT Hr eq_refl H0) as (-> & Hd & Et).
    apply goto_next; [done..| |].
    + cbn. by exists r.
    + by intros n ->.
  - by apply goto_idle.
  - by apply goto_idle.
  - destruct Ha as (Hr & Ht & Hu). apply goto_next; [done..| |].
    + cbn. split_and!; [done..|]. by apply (i_thread s HT).
    + by intros n ->.
  - destruct Ha as (Hr & Ht & Hu & Hj). destruct (join_target t _ s r d HT Hr eq_refl H0) as (-> & Hd & Et).
    apply goto_next; [done..| |].
    + cbn. split_and!; try done. destruct Hj as [Hj|]; [congruence|done].
    + by intros n ->.
  - destruct Ha as (Hr & Ht & Hu & Hj). pose proof (join_none t s r HT Hr Ht H0).
    apply goto_next; [done..| |].
    + cbn. split_and!; [done..|by left].
    + by intros n ->.
  - destruct Ha as (Hr & Ht & Hu & -> & ->). apply over_gone in H0.
    apply goto_next; [done..| |].
    + cbn. split_and!; [done..|by right].
    + by intros n ->.
  - destruct Ha as (Hr & Hg).
    assert (Inv (forget_thread r j s)) as HI' by (apply forget_thread_inv; [done..|tauto]).
    destruct k as [sel|]; simpl; [|by apply goto_idle].
    apply goto_plain; [done| |done].
    destruct (forget_thread_frame r j s) as (E1 & E2 & E3).
    by eapply engaged_frame.
Qed.

Lemma wait_inv l s s' : wait_step l s s' → Inv s → Inv s'.
Proof.
  intros Hs HI. pose proof HI as (HT & HR & HS).
  destruct Hs; pose proof (i_pcs s HT t) as [Ha Ho]; rewrite H in Ha, Ho; cbn [about] in Ha;
    assert (engaged t s) as He by (by eapply at_pc).
  - by apply goto_idle.
  - apply goto_next; [done..|]. intros n -> (_ & Et & _) Hco. cbn in Ho. subst r.
    destruct H0; congruence.
  - apply goto_next; [done..|]. by intros n ->.
  - by apply goto_idle.
  - destruct Ha as [Hr Hu]. destruct (join_target t _ s r d HT Hr eq_refl H0) as (-> & Hd & Et).
    apply goto_next; [done..|]. by intros n ->.
  - apply goto_next; [done..|by destruct Ha|]. by intros n ->.
  - apply goto_next; [done..|by destruct Ha|]. by intros n ->.
  - by apply goto_idle.
Qed.

Lemma iter_step_inv l s s' : iter_step l s s' → Inv s → Inv s'.
Proof.
  intros Hs HI. pose proof HI as (HT & HR & HS).
  destruct Hs; pose proof (i_pcs s HT t) as [Ha Ho]; rewrite H in Ha, Ho; cbn [about] in Ha;
    assert (engaged t s) as He by (by eapply at_pc);
    try (by apply goto_idle, iter_inv).
  - apply goto_next; [done..|]. intros n -> (Er & _). apply iterator_current_iff in H0 as (H1 & H2 & _).
    by rewrite (i_iterator s HS H1 H2) in Er.
  - apply goto_next; [done..|]. by intros n ->.
  - apply goto_next.
    + apply native_inv; [done|]. intros _. by apply native_read_running in H0 as [? _].
    + by eapply engaged_frame.
    + done.
    + by intros q ->.
  - apply goto_next; [done..|]. by intros n ->.
  - apply goto_idle, iter_inv. unfold _fault_error_for_closed_run in H0.
    repeat case_match; simplify_eq; try done. by apply stop_locked_inv.
Qed.

Lemma outside_inv l s s' : outside_step l s s' → Inv s → Inv s'.
Proof.
  intros Hs HI. pose proof HI as (HT & HR & HS). destruct Hs.
  - by apply native_inv.
  - by apply native_inv.
  - by apply native_inv.
  - split; [|split].
    + destruct HT. by split.
    + destruct HR. split; try done. intros r Hr. destruct (i_done0 r Hr); [by left|by right].
    + destruct HS. by split.
  - apply native_inv; [done|congruence].
Qed.

Lemma py_step_inv l s s' : step l s s' → Inv s → Inv s'.
Proof.
  destruct 1; eauto using call_inv, start_stop_inv, wait_inv, iter_step_inv, dispatch_inv,
    outside_inv.
Qed.

Lemma any_steps_inv s s' : rtc any_step s s' → Inv s → Inv s'.
Proof. induction 1 as [|s1 s2 s3 [l Hl] _ IH]; [done|]. intros HI. by apply IH, (py_step_inv l s1). Qed.

Lemma py_reachable_inv s : reachable s → Inv s.
Proof. intros (c & n & h & H). eapply any_steps_inv; [exact H|]. by apply py_initial_inv. Qed.

(** ** What later states keep *)

(** Runs that are over stay so, with their results; a run that was replaced or whose thread
    was forgotten does not come back, nor does one that was stopped. *)
Record Later (s s' : State) : Prop := {
  l_made : (made s ≤ made s')%nat;
  l_gone : ∀ r, dpcs s r = Gone → dpcs s' r = Gone;
  l_over : ∀ r, (r < made s)%nat → in_run (dpcs s r) = false → in_run (dpcs s' r) = false;
  l_published : ∀ r, (r < made s)%nat → published s' r → published s r;
  l_current : ∀ r, (r < made s)%nat →
    _callback_run_is_current r s' = true → _callback_run_is_current r s = true;
  l_result : ∀ r, (r < made s)%nat → in_run (dpcs s r) = false →
    callback_error (runs s' r) = callback_error (runs s r) ∧
    failure (runs s' r) = failure (runs s r)
}.

#[global] Instance Later_preorder : PreOrder Later.
Proof.
  split; [by split|]. intros s1 s2 s3 [] []. split; eauto with lia.
  intros r Hr Hi. destruct (l_result0 r Hr Hi) as [<- <-]. apply l_result1; [lia|auto].
Qed.

(** An update of the delivery state that does not revive a run. *)
Lemma later_fields s s' :
  made s' = made s → dpcs s' = dpcs s → runs s' = runs s → callback_run s' = callback_run s →
  (running s' = true → running s = true ∧ mode s' = mode s ∧ run_token s' = run_token s) →
  Later s s'.
Proof.
  intros E1 E2 E3 E4 Hr. split; rewrite ?E1, ?E2, ?E3; try done.
  - intros r _. unfold published. by rewrite E3, E4.
  - intros r _ H. apply current_iff in H as (H1 & H2 & H3 & H4). apply current_iff.
    destruct (Hr H1) as (? & ? & ?). split_and!; congruence.
Qed.

Lemma later_goto s s' t pc : Later s s' → Later s (goto t pc s').
Proof. intros H. etrans; [exact H|]. by apply later_fields. Qed.

Lemma later_stop s : Later s (_stop_locked s).
Proof.
  destruct (stop_locked_frame s) as (? & ? & ? & ? & ? & _). apply later_fields; try done.
  by rewrite stop_locked_running.
Qed.

Lemma later_iter s s' i st : Later s s' → Later s (on_iter i st s').
Proof. intros H. etrans; [exact H|]. by apply later_fields. Qed.

Lemma later_native s n : Later s (s <| native := n |>).
Proof. by apply later_fields. Qed.

(** A dispatcher that moves on is not over, and does not begin again. *)
Lemma later_dgoto s r d :
  alive (dpcs s r) = true → (in_run d = true → in_run (dpcs s r) = true) → Later s (dgoto r d s).
Proof.
  intros Ha Hd. split; try done.
  - intros r' E. rewrite dpcs_dgoto. case_decide; [|done]. subst. by rewrite E in Ha.
  - intros r' _ E. rewrite dpcs_dgoto. case_decide; [|done]. subst.
    destruct (in_run d); [|done]. by rewrite Hd in E.
Qed.

(** A run changes its own members only. *)
Lemma later_run s r f :
  (∀ x, token (f x) = token x) →
  (in_run (dpcs s r) = false → callback_error (f (runs s r)) = callback_error (runs s r) ∧
     failure (f (runs s r)) = failure (runs s r)) →
  (published (on_run r f s) r → published s r) → Later s (on_run r f s).
Proof.
  intros Ht Hr Hp. split; try done.
  - intros r' _ H. destruct (decide (r' = r)) as [->|Hne]; [by apply Hp|].
    unfold published in *. by rewrite runs_on_run, decide_False in H.
  - intros r' _. rewrite !current_iff, runs_on_run. case_decide; [subst; by rewrite Ht|done].
  - intros r' _ Hi. rewrite runs_on_run. case_decide; [subst; by apply Hr|done].
Qed.

Lemma published_same r f s :
  (∀ x, thread (f x) = thread x ∧ activation (f x) = activation x) →
  published (on_run r f s) r → published s r.
Proof.
  intros Hf. unfold published. rewrite runs_on_run, decide_True by done.
  by destruct (Hf (runs s r)) as [-> ->].
Qed.

Lemma later_forget r j s : Later s (forget_thread r j s).
Proof.
  unfold forget_thread. case_match; [|done]. apply later_run; try done.
  intros (_ & E & _). by rewrite runs_on_run, decide_True in E.
Qed.

Lemma later_made s s' x d : Threads s → Made s s' x d →
  (running s' = true → callback_run s' ≠ callback_run s ∨ running s = true ∧ mode s' = mode s ∧ run_token s' = run_token s) →
  Later s s'.
Proof.
  intros HT [Hru Hd Hm Hp [Hc Hc'] Ht _ Hw Hcur] Hr. split.
  - lia.
  - intros r E. rewrite Hd. case_decide; [|done]. subst. by rewrite (i_fresh s HT) in E.
  - intros r Hlt E. rewrite Hd. case_decide; [lia|done].
  - intros r Hlt. unfold published. rewrite Hru. case_decide; [lia|].
    destruct Hcur as [[-> _]|(E & _)]; [done|]. rewrite E. intros ([= <-] & _). lia.
  - intros r Hlt. rewrite !current_iff, Hru. case_decide; [lia|].
    intros (H1 & H2 & H3 & H4). destruct Hcur as [[E _]|(E & _)].
    + destruct (Hr H1) as [|(? & ? & ?)]; [congruence|]. split_and!; congruence.
    + rewrite E in H4. injection H4 as <-. lia.
  - intros r Hlt E. rewrite Hru. case_decide; [lia|done].
Qed.

Lemma later_start_iterator x s r s' t sel :
  Threads s → start_decision t sel s = Go → _start_iterator_locked x s = (r, s') → Later s s'.
Proof.
  intros HT Hg E. unfold _start_iterator_locked in E. destruct x; simplify_eq.
  - by apply later_fields.
  - split; try done. by intros r _ (? & _).
Qed.

Lemma later_start_callback c a s o s' t sel :
  Inv s → collected s = false → start_decision t sel s = Go →
  _start_callback_locked c a s = (o, s') → Later s s'.
Proof.
  intros HI Hc Hg E.
  destruct (start_callback_made c a s o s' t sel HI Hc Hg E) as [->|(x & d & HM & HS & Hcur)]; [done|].
  destruct HI as [HT _]. eapply later_made; [done..|]. intros Hr. left. rewrite (Hcur Hr). intros En.
  symmetry in En. apply (i_named s HT) in En as [? _]. lia.
Qed.

Lemma later_call l s s' : Inv s → call_step l s s' → Later s s'.
Proof.
  intros (HT & _ & HS). destruct 1; try done; try by apply later_goto.
  - apply stop_section_inv in H0 as [-> _]. apply later_goto, later_stop.
  - apply stop_section_inv in H0 as [-> _]. apply later_stop.
  - unfold samples in H0. case_match; simplify_eq. apply later_fields; try done. cbn.
    intros Hr. pose proof (i_mode s HS Hr). by destruct (mode s).
  - unfold samples in H0. by case_match; simplify_eq.
Qed.

Lemma later_start_stop l s s' : Inv s → start_stop_step l s s' → Later s s'.
Proof.
  intros HI. pose proof HI as (HT & _). destruct 1; apply later_goto; try done;
    try (by eapply later_start_iterator);
    try (eapply later_start_callback; [done| |done..]; eapply not_collected; [done|by rewrite H]).
  apply later_forget.
Qed.

Lemma later_iter_step l s s' : iter_step l s s' → Later s s'.
Proof.
  destruct 1; apply later_goto; try apply later_iter; try done.
  unfold _fault_error_for_closed_run in H0. repeat case_match; simplify_eq; try done.
  apply later_stop.
Qed.

Lemma later_failed s r e :
  in_run (dpcs s r) = true → Later s (dgoto r Finally (_record_failure r e s)).
Proof.
  intros Hi. assert (Later s (note_error r e s) ∧ dpcs (note_error r e s) = dpcs s) as [H1 E].
  { unfold note_error. repeat case_match; try done. split; [|done].
    apply later_run; [done|congruence|]. by apply published_same. }
  unfold _record_failure. case_match.
  - etrans; [exact H1|]. etrans; [apply later_stop|]. apply later_dgoto; [|done].
    destruct (stop_locked_frame (note_error r e s)) as (_ & -> & _). rewrite E.
    by destruct (dpcs s r).
  - etrans; [exact H1|]. apply later_dgoto; [|done]. rewrite E. by destruct (dpcs s r).
Qed.

Lemma later_closed s r x s' d :
  in_run (dpcs s r) = true → _finish_callback_closed r s = (x, s') → in_run d = true ∨ d = Finally →
  Later s (dgoto r d s').
Proof.
  intros Hi E Hd. assert (Later s s' ∧ dpcs s' = dpcs s) as [H1 H2].
  { unfold _finish_callback_closed in E. repeat case_match; simplify_eq; try done.
    - split; [|by destruct (stop_locked_frame (on_run r (λ x, x <| failure := Some a |>) s)) as (_ & ? & _)].
      etrans; [|apply later_stop]. apply later_run; [done|congruence|]. by apply published_same.
    - split; [apply later_stop|by destruct (stop_locked_frame s) as (_ & ? & _)]. }
  etrans; [exact H1|]. apply later_dgoto; rewrite H2; [by destruct (dpcs s r)|done].
Qed.

Lemma later_dispatch l s s' : dispatch_step l s s' → Later s s'.
Proof.
  destruct 1; try (by apply later_dgoto; rewrite H);
    try (apply (later_dgoto (s <| native := _ |>)); cbn; by rewrite H).
  - etrans; [apply later_native|]. apply later_dgoto; cbn; by rewrite H.
  - etrans; [apply (later_native s (native_stop (native s)))|]. apply later_dgoto; cbn; by rewrite H.
  - eapply later_closed; [by rewrite H|done|by right].
  - eapply later_closed; [by rewrite H|done|by left].
  - apply later_failed. by rewrite H.
  - etrans; [apply (later_run s r (λ x, x <| callback := None |> <| completed := true |>)); [done|done|]|].
    + by apply published_same.
    + apply later_dgoto; [|done]. change (alive (dpcs s r) = true). by rewrite H.
Qed.

Lemma later_step l s s' : Inv s → step l s s' → Later s s'.
Proof.
  intros HI. destruct 1 as [| |l s s' Hw| | |l s s' Ho];
    eauto using later_call, later_start_stop, later_iter_step, later_dispatch.
  - destruct Hw; by apply later_goto.
  - destruct Ho; try apply later_native. by apply later_fields.
Qed.

Lemma later_steps s s' : Inv s → rtc any_step s s' → Later s s'.
Proof.
  intros HI H. induction H as [s|s1 s2 s3 [l Hl] _ IH]; [done|].
  etrans; [by eapply later_step|]. by apply IH, (py_step_inv l s1).
Qed.

(** ** Delivery *)

Lemma serving_unique s r1 r2 :
  Threads s → serving (dpcs s r1) = true → serving (dpcs s r2) = true → r1 = r2.
Proof.
  intros HT H1 H2. destruct (serving_published s r1 HT H1) as [E1 _].
  destruct (serving_published s r2 HT H2) as [E2 _]. congruence.
Qed.

Lemma iterator_alone s r :
  Inv s → running s = true → mode s = Some Iterator → serving (dpcs s r) = false.
Proof.
  intros (HT & _ & HS) Hr Hm. destruct (serving (dpcs s r)) eqn:E; [|done].
  destruct (serving_published s r HT E) as [E' _]. by rewrite (i_iterator s HS Hr Hm) in E'.
Qed.

Lemma yields_current t i p s s' :
  step (Yields t i p) s s' →
  ∃ res, pcs s t = IterGot i res ∧ _iterator_is_current (iter_token (iters s i)) s = true ∧
    iterate_result res = Yield p.
Proof.
  intros Hs. inversion Hs as [? ? ? Hx|? ? ? Hx|? ? ? Hx|? ? ? Hx|? ? ? Hx|? ? ? Hx]; subst;
    inversion Hx; subst; try (by eexists); exfalso; revert H;
    try (unfold after_join; by destruct k);
    try (unfold dropped, took; by destruct (SampleQueue.sample _)).
Qed.

(** C6: deliveries of one client never overlap. In every reachable state at most one
    dispatcher is past its activation, so callbacks of a client, of whatever runs, are
    called one at a time; and when a generator yields a sample its run is the current one
    and no dispatcher serves, so callback and iterator delivery exclude each other. *)
Theorem deliveries_exclusive s :
  reachable s →
  (∀ r1 r2, serving (dpcs s r1) = true → serving (dpcs s r2) = true → r1 = r2) ∧
  (∀ t i p s', step (Yields t i p) s s' →
     run_token s = iter_token (iters s i) ∧ ∀ r, serving (dpcs s r) = false).
Proof.
  intros HI%py_reachable_inv. split; [intros r1 r2; apply serving_unique, HI|].
  intros t i p s' (res & _ & Hc & _)%yields_current.
  apply iterator_current_iff in Hc as (Hr & Hm & Ht). split; [done|].
  intros r. by apply iterator_alone.
Qed.

(** ** Stopping *)

(** No run made so far will be served again. *)
Definition quiet (s : State) : Prop :=
  ∀ s' r, rtc any_step s s' → (r < made s)%nat → serving (dpcs s' r) = false.

Lemma unpublished_quiet s s' r :
  Inv s → rtc any_step s s' → (r < made s)%nat → ¬ published s r → serving (dpcs s' r) = false.
Proof.
  intros HI Hs Hr Hp. destruct (serving (dpcs s' r)) eqn:E; [|done]. exfalso. apply Hp.
  apply (l_published s s'); [by apply later_steps|done|].
  apply serving_published; [|done]. by destruct (any_steps_inv s s' Hs HI).
Qed.

Lemma gone_quiet s s' r : Inv s → rtc any_step s s' → dpcs s r = Gone → serving (dpcs s' r) = false.
Proof.
  intros HI Hs E. by rewrite (l_gone s s' (later_steps _ _ HI Hs) r E).
Qed.

(** C11: when [stop()] returns, delivery is over. A thread of the program that calls [stop()]
    returns from it, at once or after the join, only when no run that existed at the call
    is served, and none of them ever is again, whatever other threads do meanwhile (a
    later [start()] makes a new run). *)
Theorem stop_ends_delivery s0 n :
  reachable s0 → collected s0 = false → pcs s0 (User n) = Idle →
  (∀ s1, stop_section (User n) s0 = (None, s1) → quiet s1 ∧ made s1 = made s0) ∧
  (∀ r s1 s2 j, stop_section (User n) s0 = (Some r, s1) →
     rtc any_step (goto (User n) (JoinRead ThenStop r) s1) s2 →
     pcs s2 (User n) = JoinLock ThenStop r j →
     ∀ s3 r', rtc any_step s2 s3 → (r' < made s0)%nat → serving (dpcs s3 r') = false).
Proof.
  intros HI%py_reachable_inv Hc Hi.
  assert (may_call (User n) s0 = true) as Hm by (unfold may_call; by rewrite Hc, Hi).
  pose proof HI as (HT & _). destruct (stop_locked_frame s0) as (F1 & F2 & F3 & F4 & F5 & F6).
  split.
  - intros s1 E. pose proof (call_stop_done s0 _ _ Hm E) as Hs.
    pose proof (call_inv _ _ _ Hs HI) as HI1. apply stop_section_inv in E as E'.
    destruct E' as [-> _]. split; [|done]. intros s' r Hs' Hr. eapply unpublished_quiet; [done..|].
    intros (E1 & E2 & _). rewrite F5 in E1. rewrite F3 in E2.
    unfold stop_section in E. by rewrite E1, E2 in E.
  - intros r s1 s2 j E Hs Hj s3 r' Hs3 Hr'. pose proof (call_stop s0 _ r _ Hm E) as Hcall.
    pose proof (call_inv _ _ _ Hcall HI) as HI1. pose proof (any_steps_inv _ _ Hs HI1) as HI2.
    destruct (stop_section_inv _ _ _ _ E) as [-> Hr]. destruct (Hr r eq_refl) as [Er _].
    destruct (decide (r' = r)) as [->|Hne].
    + pose proof HI2 as (HT2 & _). destruct (i_pcs s2 HT2 (User n)) as [Ha _]. rewrite Hj in Ha.
      destruct Ha as (Hlt & [Ht|[Hg _]]); [|by eapply gone_quiet].
      eapply unpublished_quiet; [done..|]. intros (_ & E2 & _). congruence.
    + eapply (unpublished_quiet (goto (User n) (JoinRead ThenStop r) (_stop_locked s0)));
        [done|by etrans|change (r' < made (_stop_locked s0))%nat; by rewrite F4|].
      intros (E1 & _). change (callback_run (_stop_locked s0) = Some r') in E1. congruence.
Qed.

(** The client's view of itself is right. While the client object exists it considers
    itself running exactly when the native client runs; a running callback run is current,
    has its callback, no failure yet, and a dispatcher that has not left its loop, so that
    somebody serves it; a running iterator run has no dispatcher to wait for. *)
Theorem running_is_served s :
  reachable s → collected s = false →
  n_running (native s) = running s ∧
  (running s = true →
   mode s = Some Iterator ∧ callback_run s = None ∨
   mode s = Some CallbackMode ∧ ∃ r c, callback_run s = Some r ∧
     token (runs s r) = run_token s ∧ callback (runs s r) = Some c ∧
     thread (runs s r) = Some (Dispatcher r) ∧ in_run (dpcs s r) = true ∧
     callback_error (runs s r) = None ∧ failure (runs s r) = None).
Proof.
  intros (HT & HR & HS)%py_reachable_inv Hc. split; [by apply (i_native s HS)|]. intros Hr.
  pose proof (i_mode s HS Hr) as Hm. destruct (mode s) as [[]|] eqn:Em; [| |done].
  { left. split; [done|]. by apply (i_iterator s HS). }
  right. split; [done|]. destruct (i_serving s HS Hr Em Hc) as (r & E & Et & Hi).
  destruct (i_run s HR r Hi) as (He & Hf & _ & Hcb).
  assert (published s r) as Hp.
  { destruct (i_alive s HT r) as [|[A _]]; [by destruct (dpcs s r)|done|].
    by rewrite (i_active s HT r E) in A. }
  destruct (callback (runs s r)) as [c|] eqn:Ec; [|by apply Hcb in Hp].
  exists r, c. destruct Hp as (_ & ? & _). done.
Qed.

(** What a start that does not succeed leaves of the client. *)
Definition rolled_back (s s' : State) : Prop :=
  running s' = false ∧ run_token s' = run_token s ∧ callback_run s' = callback_run s ∧
  n_running (native s') = false ∧ (∀ r, (r < made s)%nat → runs s' r = runs s r) ∧
  ∀ r, serving (dpcs s' r) = false.

Lemma rolled_back_quiet t sel s s' :
  start_decision t sel s = Go → Inv s' →
  callback_run s' = callback_run s → (∀ r, (r < made s)%nat → runs s' r = runs s r) →
  Threads s → ∀ r, serving (dpcs s' r) = false.
Proof.
  intros Hg (HT' & _) Ec Er HT r. destruct (serving (dpcs s' r)) eqn:E; [|done].
  destruct (serving_published s' r HT' E) as (E1 & E2 & _). rewrite Ec in E1.
  destruct (go_inv _ _ _ Hg) as [_ Hn]. rewrite Er in E2 by by apply (i_named s HT).
  rewrite (Hn r E1) in E2. done.
Qed.

(** C30: a start that fails leaves no trace. Whether the native client throws, the dispatcher
    thread cannot be made or started, or the run object cannot be made, the client is
    stopped as before, with the same token and the same previous run (whose failure can
    still be asked for), the native client does not run, and nobody delivers; a dispatcher
    that had been started already never calls the callback. *)
Theorem start_rolls_back s t :
  reachable s →
  (∀ x res s', pcs s t = StartEntry None → start_decision t None s = Go →
     _start_iterator_locked (Some x) s = (res, s') →
     res = Raise (raised on_start x) ∧ rolled_back s s') ∧
  (∀ c a f s', pcs s t = StartEntry (Some c) → start_decision t (Some c) s = Go →
     _start_callback_locked c a s = (Some f, s') →
     rolled_back s s' ∧
     ∀ r s2, join_dispatcher f = Some r →
       rtc any_step (goto t (StartFailed r (error f)) s') s2 → serving (dpcs s2 r) = false).
Proof.
  intros HI%py_reachable_inv. pose proof HI as (HT & _ & HS). split.
  - intros x res s' Hp Hg E. assert (collected s = false) as Hc by (eapply not_collected; [done|by rewrite Hp]).
    assert (Inv s') as HI' by by eapply start_iterator_inv. simpl in E. simplify_eq.
    split; [done|]. split_and!; try done. by eapply rolled_back_quiet.
  - intros c a f s' Hp Hg E. assert (collected s = false) as Hc by (eapply not_collected; [done|by rewrite Hp]).
    assert (Inv s') as HI' by by eapply start_callback_inv.
    destruct (go_inv _ _ _ Hg) as [Hr _]. pose proof (i_native s HS Hc) as Hn.
    assert (∀ r, (r < made s)%nat → runs s' r = runs s r) as Hruns.
    { intros r Hlt. destruct a; simpl in E; simplify_eq; try done;
        rewrite ?runs_dgoto, runs_on_run, decide_False by lia; done. }
    assert (callback_run s' = callback_run s) as Ec by (destruct a; simpl in E; by simplify_eq).
    split.
    + split_and!; try done; try (destruct a; simpl in E; simplify_eq; done || congruence).
      * destruct a; simpl in E; simplify_eq; try done; exact (eq_trans Hn Hr).
      * by eapply rolled_back_quiet.
    + intros r s2 Hj Hs. assert (r = made s) as ->.
      { destruct a; simpl in E; simplify_eq; simpl in Hj; by simplify_eq. }
      assert (made s' = S (made s)) as Em.
      { destruct a; simpl in E; simplify_eq; simpl in Hj; by simplify_eq. }
      destruct f as [e j]; simpl in Hj; subst j.
      eapply (unpublished_quiet (goto t (StartFailed (made s) e) s')); [|done| |].
      * eapply start_stop_inv; [by eapply start_failed_join|done].
      * change (made s < made s')%nat. lia.
      * intros (E1 & _). change (callback_run s' = Some (made s)) in E1. rewrite Ec in E1.
        apply (i_named s HT) in E1 as [? _]. lia.
Qed.

(** ** A concrete client

    The program's first thread starts an iterator run; the second asks a generator of that
    run for a sample and is about to enter the native read when the first stops the client
    and starts a callback run, to which the worker then delivers a sample. *)
Definition a_sample : Sample :=
  {| Sample.rdt_sequence := 1; Sample.ft_sequence := 2; Sample.status := 0;
     Sample.raw_wrench := [0; 0; 0; 0; 0; 0];
     Sample.force := [Fp.d_of_Z 0; Fp.d_of_Z 0; Fp.d_of_Z 0];
     Sample.torque := [Fp.d_of_Z 0; Fp.d_of_Z 0; Fp.d_of_Z 0];
     Sample.force_unit := ForceUnit.Newton; Sample.torque_unit := TorqueUnit.NewtonMeter;
     Sample.configuration_revision := 1; Sample.received_at := 5 |}.

Definition got_sample : SampleQueue.ReadResult :=
  {| SampleQueue.status := SampleQueue.StSample; SampleQueue.sample := Some a_sample |}.

Definition x0 : State := initial None (new_native 4 HealthSnapshot.default_HealthSnapshot).
Definition x1 : State := goto (User 0) (StartEntry None) x0.
Definition x2 : State := goto (User 0) Idle (_start_iterator_locked None x1).2.
Definition x3 : State := (samples false x2).2.
Definition x4 : State := goto (User 1) (IterCheck 0) (on_iter 0 Executing x3).
Definition x5 : State := goto (User 1) (IterEnter 0) x4.
Definition x6 : State := (stop_section (User 0) x5).2.
Definition x7 : State := goto (User 0) (StartEntry (Some 7%nat)) x6.
Definition x8 : State := goto (User 0) Idle (_start_callback_locked 7 AllWell x7).2.
Definition x9 : State := x8 <| native ::= request (QueueSpec.Push a_sample) |>.

Lemma x7_reachable : reachable x7.
Proof.
  exists None, 4%nat, HealthSnapshot.default_HealthSnapshot.
  apply rtc_l with x1; [eexists; apply by_call, (call_start x0 (User 0) None); done|].
  apply rtc_l with x2; [eexists; apply by_start_stop, (start_iterator x1 (User 0) None); done|].
  apply rtc_l with x3; [eexists; apply by_call, (call_samples x2 (User 1) false 0); done|].
  apply rtc_l with x4; [eexists; apply by_call, (call_next x3 (User 1) 0); [done|cbv; lia|done]|].
  apply rtc_l with x5; [eexists; apply by_iter, (iter_current x4 (User 1) 0); done|].
  apply rtc_l with x6; [eexists; apply by_call, (call_stop_done x5 (User 0)); done|].
  apply rtc_once. eexists. by apply by_call, (call_start x6 (User 0) (Some 7%nat)).
Qed.

Lemma x9_reachable : reachable x9.
Proof.
  destruct x7_reachable as (c & n & h & H). exists c, n, h. etrans; [exact H|].
  apply rtc_l with x8; [eexists; apply by_start_stop, (start_callback x7 (User 0) 7 AllWell); done|].
  apply rtc_once. eexists. apply by_outside, (worker_pushes x8 a_sample). done.
Qed.

(** The generator goes on: it reads, and finds that its run is over. *)
Definition x10 : State := goto (User 1) (IterReading 0 (QueueSpec.epoch (fifo (native x9)))) x9.
Definition x11 : State :=
  goto (User 1) (IterGot 0 got_sample)
    (x10 <| native := (native x10) <| fifo :=
       (QueueSpec.fifo_step 4 (QueueSpec.Read (QueueSpec.epoch (fifo (native x9)))) (fifo (native x10))).2 |> |>).
Definition x12 : State := goto (User 1) Idle (on_iter 0 Exhausted x11).

(** The thread is about to read for a generator whose run is over. *)
Definition stale_reader (s : State) (t : Tid) (i : nat) : Prop :=
  pcs s t = IterEnter i ∧ (iter_token (iters s i) < run_token s)%nat.

(** C39: a generator of an earlier run can take a sample of the current one and drop it. The
    check of a generator that its run is current and its native read are not atomic: when
    the client is stopped and started again between the two, the read enters the new
    run's queue, takes its sample, and only then the generator finds out and ends. The
    current run, here a callback run, never gets the sample, and no counter shows it. *)
Theorem stale_iterator_takes_sample :
  ∃ s0 s1 s2 v t i r,
    reachable s0 ∧ _callback_run_is_current r s0 = true ∧
    QueueSpec.buffer (fifo (native s0)) = [v] ∧
    stale_reader s0 t i ∧
    rtc any_step s0 s1 ∧ step (Drops v) s1 s2 ∧
    _callback_run_is_current r s2 = true ∧ QueueSpec.buffer (fifo (native s2)) = [] ∧
    QueueSpec.dropped (fifo (native s2)) = 0%nat.
Proof.
  exists x9, x11, x12, a_sample, (User 1), 0%nat, 0%nat.
  split; [apply x9_reachable|]. split; [reflexivity|]. split; [reflexivity|].
  split; [split; [reflexivity|cbv; lia]|]. split_and!; try reflexivity.
  - apply rtc_l with x10; [eexists; apply by_iter, (iter_enter x9 (User 1) 0); done|].
    apply rtc_once. eexists. eapply by_iter, (iter_read x10 (User 1) 0); [done|].
    by apply read_sample.
  - apply by_iter. change (Drops a_sample) with (dropped got_sample). by apply iter_stale.
Qed.

(** Instead, the dispatcher of the callback run serves the sample, and the callback is
    called. *)
Definition read_epoch : nat := QueueSpec.epoch (fifo (native x9)).
Definition converted : PySample :=
  match to_sample a_sample with
  | Return p => p
  | Raise _ => {| py_rdt_sequence := 0; py_ft_sequence := 0; py_status := 0; py_raw_wrench := [];
                  py_force := []; py_torque := []; py_force_unit := Member "" "";
                  py_torque_unit := Member "" ""; py_configuration_revision := 0;
                  py_received_at_ns := 0 |}
  end.
Definition y1 : State := dgoto 0 Top x9.
Definition y2 : State := dgoto 0 CheckRun y1.
Definition y3 : State := dgoto 0 Enter y2.
Definition y4 : State := dgoto 0 (Reading read_epoch) y3.
Definition y5 : State :=
  dgoto 0 (AfterRead got_sample) (y4 <| native := (native y4) <| fifo :=
    (QueueSpec.fifo_step (n_capacity (native y4)) (QueueSpec.Read read_epoch) (fifo (native y4))).2 |> |>).
Definition y6 : State := dgoto 0 (CheckAgain got_sample) y5.
Definition y7 : State := dgoto 0 (CheckCall converted) y6.
Definition y8 : State := dgoto 0 (Fetch converted) y7.
Definition y9 : State := dgoto 0 (InCallback 7 converted) y8.

Lemma y9_reachable : reachable y9.
Proof.
  destruct x9_reachable as (c & n & h & H). exists c, n, h. etrans; [exact H|].
  apply rtc_l with y1; [eexists; apply by_dispatch, (d_activated x9 0); reflexivity|].
  apply rtc_l with y2; [eexists; apply by_dispatch, (d_client y1 0); reflexivity|].
  apply rtc_l with y3; [eexists; apply by_dispatch, (d_current y2 0); reflexivity|].
  apply rtc_l with y4; [eexists; apply by_dispatch, (d_enter y3 0); reflexivity|].
  apply rtc_l with y5;
    [eexists; apply by_dispatch, (d_read y4 0 read_epoch got_sample);
     [reflexivity|apply read_sample; reflexivity]|].
  apply rtc_l with y6; [eexists; apply by_dispatch, (d_has_client y5 0 got_sample); reflexivity|].
  apply rtc_l with y7; [eexists; apply by_dispatch, (d_result y6 0 got_sample); reflexivity|].
  apply rtc_l with y8; [eexists; apply by_dispatch, (d_call_current y7 0 converted); reflexivity|].
  apply rtc_once. eexists. apply by_dispatch, (d_callback y8 0 converted 7); reflexivity.
Qed.

Lemma deliveries_exclusive_witness :
  reachable y9 ∧ serving (dpcs y9 0) = true ∧ ∀ r, serving (dpcs y9 r) = true → r = 0%nat.
Proof.
  split; [apply y9_reachable|]. split; [done|]. intros r Hr.
  by apply (proj1 (deliveries_exclusive y9 y9_reachable)).
Defined.

Lemma running_is_served_witness :
  reachable x9 ∧ collected x9 = false ∧ n_running (native x9) = running x9.
Proof.
  split; [apply x9_reachable|]. split; [done|].
  by apply (proj1 (running_is_served x9 x9_reachable eq_refl)).
Defined.

(** The callback raises. *)
Definition y10 : State := dgoto 0 (Failed (OtherError 3)) y9.
Definition y11 : State := dgoto 0 Finally (_record_failure 0 (OtherError 3) y10).

Lemma y10_reachable : reachable y10.
Proof.
  destruct y9_reachable as (c & n & h & H). exists c, n, h. etrans; [exact H|].
  apply rtc_once. eexists. by apply by_dispatch, (d_raises y9 0 7 converted).
Qed.

(** The first thread stops the client during the callback, which then returns. *)
Definition z1 : State := goto (User 0) (JoinRead ThenStop 0) (stop_section (User 0) y9).2.
Definition z3 : State :=
  goto (User 0) (Joining ThenStop 0 (Some (Dispatcher 0)) (Dispatcher 0))
    (goto (User 0) (JoinCheck ThenStop 0 (Some (Dispatcher 0))) z1).
Definition z6 : State := dgoto 0 Finally (dgoto 0 CheckRun (dgoto 0 Top z3)).
Definition z8 : State :=
  dgoto 0 Gone (dgoto 0 Ended (on_run 0 (λ x, x <| callback := None |> <| completed := true |>) z6)).
Definition z9 : State := goto (User 0) (JoinLock ThenStop 0 (Some (Dispatcher 0))) z8.

Lemma z3_steps : rtc any_step y9 z3 ∧ rtc any_step z1 z3.
Proof.
  assert (rtc any_step z1 z3) as H.
  { eapply rtc_l; [eexists; apply by_start_stop, (join_read z1 (User 0) ThenStop 0); done|].
    apply rtc_once. eexists. by apply by_start_stop, (join_thread _ (User 0) ThenStop 0 (Some (Dispatcher 0)) (Dispatcher 0)). }
  split; [|done]. eapply rtc_l; [|exact H]. eexists. by apply by_call, (call_stop y9 (User 0) 0).
Qed.

Lemma z3_reachable : reachable z3.
Proof.
  destruct y9_reachable as (c & n & h & H). exists c, n, h. etrans; [exact H|].
  apply z3_steps.
Qed.

Lemma z9_steps : rtc any_step z3 z9.
Proof.
  eapply rtc_l; [eexists; apply by_dispatch, (d_returns z3 0 7 converted); done|].
  eapply rtc_l; [eexists; apply by_dispatch, (d_client _ 0); done|].
  eapply rtc_l; [eexists; apply by_dispatch, (d_over _ 0); done|].
  eapply rtc_l; [eexists; apply by_dispatch, (d_finally z6 0); done|].
  eapply rtc_l; [eexists; apply by_dispatch, (d_ended _ 0); done|].
  apply rtc_once. eexists. by apply by_start_stop, (joined z8 (User 0) ThenStop 0 (Some (Dispatcher 0)) (Dispatcher 0)).
Qed.

Lemma stop_ends_delivery_witness :
  reachable y9 ∧ serving (dpcs y9 0) = true ∧ pcs z9 (User 0) = JoinLock ThenStop 0 (Some (Dispatcher 0)) ∧
  ∀ s r, rtc any_step z9 s → (r < 1)%nat → serving (dpcs s r) = false.
Proof.
  split; [apply y9_reachable|]. split; [done|]. split; [done|]. intros s r Hs Hr.
  eapply (proj2 (stop_ends_delivery y9 0 y9_reachable eq_refl eq_refl) 0%nat
    (stop_section (User 0) y9).2 z9); [reflexivity| |reflexivity|exact Hs|exact Hr].
  etrans; [apply z3_steps|apply z9_steps].
Defined.

Lemma start_rolls_back_witness :
  reachable x7 ∧
  rolled_back x7 (_start_callback_locked 7 (NativeThrows (Exn DiscoveryError "no answer")) x7).2.
Proof.
  split; [apply x7_reachable|].
  by apply (proj1 (proj2 (start_rolls_back x7 (User 0) x7_reachable) 7%nat
    (NativeThrows (Exn DiscoveryError "no answer")) _ _ eq_refl eq_refl eq_refl)).
Defined.

End PyClientSafety.
