(* ===== verification/PyLiveness.v ===== *)
(** * Liveness of the Python client

    What the threads inside the methods of [PyClient] and its dispatchers get done: they
    are never stuck, what they do is bounded, and the failure of a run reaches whoever
    asks for it. *)

From Stdlib Require Import ZArith Lia String.
From stdpp Require Import functions relations.
From S2P Require Import Prelude Floats Types SampleQueue QueueSpec Conversion PyClient.
From S2P Require Import PyClientSafety.
Import Conversion PyClient PyClientSafety.

Module PyLiveness.

(** ** Progress *)

Definition thread_moves (s : State) (t : Tid) : Prop :=
  ∃ l s', (start_stop_step l s s' ∨ wait_step l s s' ∨ iter_step l s s') ∧ pcs s' t ≠ pcs s t.

Definition dispatcher_moves (s : State) (r : nat) : Prop :=
  ∃ l s', dispatch_step l s s' ∧ dpcs s' r ≠ dpcs s r.

(** The dispatcher runs the callback, outside the client. *)
Definition in_user_code (s : State) (r : nat) : Prop :=
  (∃ c p, dpcs s r = InCallback c p) ∧ pcs s (Dispatcher r) = Idle.

(** The thread waits until the dispatcher [r] ends or completes its run. *)
Definition waits_for (s : State) (t : Tid) (r : nat) : Prop :=
  match pcs s t with
  | Joining _ _ _ d | StartFailedJoin d _ | WaitJoining _ d => d = Dispatcher r
  | WaitEvent r' _ => r' = r
  | _ => False
  end.

Lemma goto_moves s s' t pc :
  (∃ l, start_stop_step l s (goto t pc s') ∨ wait_step l s (goto t pc s') ∨ iter_step l s (goto t pc s')) →
  pcs s t ≠ pc → thread_moves s t.
Proof.
  intros [l H] Hp. exists l, (goto t pc s'). split; [done|].
  rewrite client_pcs_goto, decide_True by done. congruence.
Qed.

Lemma dgoto_moves s s' r d l : dispatch_step l s (dgoto r d s') → dpcs s r ≠ d → dispatcher_moves s r.
Proof.
  intros H Hd. exists l, (dgoto r d s'). split; [done|].
  rewrite dpcs_dgoto, decide_True by done. congruence.
Qed.

(** A dispatcher outside the callback moves, or reads from a client that runs. *)
Lemma dispatcher_progress s r :
  Inv s → collected s = false → alive (dpcs s r) = true →
  dispatcher_moves s r ∨ (∃ c p, dpcs s r = InCallback c p) ∨
  (∃ e, dpcs s r = Reading e) ∧ running s = true.
Proof.
  intros HI Hc Ha. pose proof HI as (HT & HR & HS). destruct (dpcs s r) eqn:E; try done.
  - left. destruct (i_alive s HT r) as [(_ & _ & A)|[A _]]; [by rewrite E| |].
    + eapply dgoto_moves; [eapply d_activated; by rewrite ?A|by rewrite E].
    + eapply dgoto_moves; [eapply d_cancelled; by rewrite ?A|by rewrite E].
  - left. eapply dgoto_moves; [by eapply d_client|by rewrite E].
  - left. destruct (_callback_run_is_current r s) eqn:Hcur;
      (eapply dgoto_moves; [first [by eapply d_current|by eapply d_over]|by rewrite E]).
  - left. eapply dgoto_moves; [by eapply d_enter|by rewrite E].
  - destruct (running s) eqn:Hr; [right; right; by eauto|]. left.
    eapply dgoto_moves; [eapply d_read; [done|]|by rewrite E]. apply read_closed.
    left. by rewrite (i_native s HS Hc).
  - left. eapply dgoto_moves; [by eapply d_has_client|by rewrite E].
  - left. destruct (_callback_run_is_current r s) eqn:Hcur.
    + eapply dgoto_moves; [by eapply d_result|]. rewrite E. unfold dispatch_result.
      by repeat case_match.
    + eapply dgoto_moves; [by eapply d_stale|by rewrite E].
  - left. destruct (_callback_run_is_current r s) eqn:Hcur;
      (eapply dgoto_moves; [first [by eapply d_call_current|by eapply d_call_over]|by rewrite E]).
  - left. destruct (callback (runs s r)) eqn:Hcb;
      (eapply dgoto_moves; [first [by eapply d_callback|by eapply d_no_callback]|by rewrite E]).
  - right. left. by eexists _, _.
  - left. destruct (_finish_callback_closed r s) as [[[]|e] s'] eqn:Hf;
      (eapply dgoto_moves; [first [by eapply d_closed|by eapply d_closed_raises]|by rewrite E]).
  - left. eapply dgoto_moves; [by eapply d_failed|by rewrite E].
  - left. eapply dgoto_moves; [by eapply d_finally|by rewrite E].
  - left. eapply dgoto_moves; [by eapply d_ended|by rewrite E].
Qed.

Ltac moves tac :=
  eapply goto_moves; [eexists; tac|first [congruence | simpl; congruence]].

Lemma start_moves s t sel : pcs s t = StartEntry sel → thread_moves s t.
Proof.
  intros E. destruct (start_decision t sel s) eqn:Hd.
  - moves ltac:(left; by eapply start_refused).
  - moves ltac:(left; by eapply start_already).
  - moves ltac:(left; by eapply start_join).
  - destruct sel as [c|].
    + moves ltac:(left; by eapply (start_callback s t c AllWell)).
    + moves ltac:(left; by eapply (start_iterator s t None)).
Qed.

Lemma iter_check_moves s t i : pcs s t = IterCheck i → thread_moves s t.
Proof.
  intros E. destruct (_iterator_is_current (iter_token (iters s i)) s) eqn:Hc.
  - moves ltac:(right; right; by eapply iter_current).
  - moves ltac:(right; right; by eapply iter_over).
Qed.

Lemma iter_got_moves s t i res : pcs s t = IterGot i res → thread_moves s t.
Proof.
  intros E. destruct (_iterator_is_current (iter_token (iters s i)) s) eqn:Hcur.
  - destruct (iterate_result res) eqn:Hres; moves ltac:(right; right;
      first [by eapply iter_yield|by eapply iter_raise|by eapply iter_closed]).
  - moves ltac:(right; right; by eapply iter_stale).
Qed.

Lemma iter_closed_moves s t i : pcs s t = IterClosed i → thread_moves s t.
Proof.
  intros E. destruct (_fault_error_for_closed_run (iter_token (iters s i)) s) as [x s'] eqn:Hf.
  moves ltac:(right; right; by eapply iter_fault).
Qed.

(** A dispatcher that called a method of its own client moves on in it. *)
Lemma own_moves s r : Inv s → pcs s (Dispatcher r) ≠ Idle → thread_moves s (Dispatcher r).
Proof.
  intros HI Hne. destruct (own_run s r HI) as [(_ & Et & _) Hco]; [by left|].
  destruct HI as (HT & _). destruct (i_pcs s HT (Dispatcher r)) as [_ Ho].
  destruct (pcs s (Dispatcher r)) eqn:E; try done.
  - by eapply start_moves.
  - simpl in Ho. subst r0. moves ltac:(right; left; by eapply wait_self).
  - moves ltac:(right; left; by eapply report).
  - by eapply iter_check_moves.
Qed.

(** What a dispatcher that is waited for does. *)
Definition goes_on (s : State) (r : nat) : Prop :=
  dispatcher_moves s r ∨ thread_moves s (Dispatcher r) ∨ in_user_code s r ∨
  (∃ e, dpcs s r = Reading e) ∧ running s = true.

Lemma alive_goes_on s r :
  Inv s → collected s = false → alive (dpcs s r) = true → goes_on s r.
Proof.
  intros HI Hc Ha. destruct (dispatcher_progress s r HI Hc Ha) as [|[Hcb|]].
  - by left.
  - destruct (pc_idle (pcs s (Dispatcher r))).
    + right; right; left. by split.
    + right; left. by apply own_moves.
  - by right; right; right.
Qed.

(** A join of the dispatcher [r] ends, or the dispatcher goes on. *)
Lemma join_progress s t r :
  Inv s → collected s = false → dpcs s r ≠ Unborn → Dispatcher r ≠ t →
  (is_over s (Dispatcher r) = true → thread_moves s t) → waits_for s t r →
  thread_moves s t ∨ (∃ i e, pcs s t = IterReading i e ∧ running s = true) ∨
  ∃ r, waits_for s t r ∧ Dispatcher r ≠ t ∧ goes_on s r.
Proof.
  intros HI Hc Hu Ht Hm Hw. destruct (is_over s (Dispatcher r)) eqn:E; [left; auto|].
  right; right. exists r. split_and!; [done..|]. apply alive_goes_on; [done..|].
  simpl in E. by destruct (dpcs s r).
Qed.

(** A thread inside a method goes on, or waits for somebody who does. *)
Lemma inside_progress s t :
  Inv s → pcs s t ≠ Idle →
  thread_moves s t ∨ (∃ i e, pcs s t = IterReading i e ∧ running s = true) ∨
  ∃ r, waits_for s t r ∧ Dispatcher r ≠ t ∧ goes_on s r.
Proof.
  intros HI Hne. pose proof (not_collected s t HI Hne) as Hc.
  pose proof HI as (HT & HR & HS). destruct (i_pcs s HT t) as [Ha Ho].
  assert (∃ pc, pcs s t = pc) as [pc E] by eauto. rewrite E in Ha, Ho, Hne.
  destruct pc; try done; cbn [about] in Ha.
  - left. by eapply start_moves.
  - left. moves ltac:(left; by eapply join_read).
  - left. destruct (_join_callback_run t (runs s r)) eqn:Hj;
      moves ltac:(left; first [by eapply join_thread|by eapply join_nothing]).
  - destruct Ha as (_ & Ht & Hu & -> & _). eapply (join_progress s t r); [done..| |].
    + intros. moves ltac:(left; by eapply joined).
    + unfold waits_for. by rewrite E.
  - left. destruct k; moves ltac:(left; by eapply join_lock).
  - left. destruct (_join_callback_run t (runs s r)) eqn:Hj;
      moves ltac:(left; first [by eapply failed_join|by eapply failed_no_join]).
  - destruct Ha as (r & -> & Ht & _ & Hu). eapply (join_progress s t r); [done..| |].
    + intros. moves ltac:(left; by eapply failed_joined).
    + unfold waits_for. by rewrite E.
  - left. destruct (decide (thread (runs s r) = Some t)), (completed (runs s r)) eqn:Hco;
      moves ltac:(right; left; first [by eapply wait_self|by eapply wait_other; [done|auto]]).
  - destruct Ha as (Hr & Hu). destruct (completed (runs s r)) eqn:Hco.
    { left. moves ltac:(right; left; by eapply wait_completed). }
    eapply (join_progress s t r); [done..| | |].
    + by intros <-.
    + intros Hg%over_gone. destruct (i_done s HR r); [by right|congruence..].
    + unfold waits_for. by rewrite E.
  - left. destruct (_join_callback_run t (runs s r)) eqn:Hj;
      moves ltac:(right; left; first [by eapply wait_join|by eapply wait_no_join]).
  - destruct Ha as (Hr & Hu & -> & Ht). eapply (join_progress s t r); [done..| |].
    + intros. moves ltac:(right; left; by eapply wait_joined).
    + unfold waits_for. by rewrite E.
  - left. moves ltac:(right; left; by eapply report).
  - left. by eapply iter_check_moves.
  - left. moves ltac:(right; right; by eapply iter_enter).
  - destruct (running s) eqn:Hr; [right; left; by eauto|]. left.
    moves ltac:(right; right; eapply iter_read; [done|]; apply read_closed; left;
      by rewrite (i_native s HS Hc)).
  - left. by eapply iter_got_moves.
  - left. by eapply iter_closed_moves.
Qed.

(** ** Results *)

Lemma record_failure_dpcs r e s : dpcs (_record_failure r e s) = dpcs s.
Proof.
  unfold _record_failure. assert (dpcs (note_error r e s) = dpcs s) as E.
  { unfold note_error. by repeat case_match. }
  case_match; [|done]. by destruct (stop_locked_frame (note_error r e s)) as (_ & -> & _).
Qed.

Lemma finish_closed_dpcs r s x s' : _finish_callback_closed r s = (x, s') → dpcs s' = dpcs s.
Proof.
  unfold _finish_callback_closed. intros E. repeat case_match; simplify_eq; try done.
  - by destruct (stop_locked_frame (on_run r (λ x, x <| failure := Some a |>) s)) as (_ & -> & _).
  - by destruct (stop_locked_frame s) as (_ & -> & _).
Qed.

(** A step of a dispatcher moves it and no other. *)
Lemma dispatch_one l s s' r :
  dispatch_step l s s' → dpcs s' r ≠ dpcs s r →
  match dpcs s r with
  | Failed e => s' = dgoto r Finally (_record_failure r e s)
  | ClosedRun => ∃ x s1, _finish_callback_closed r s = (x, s1) ∧
      s' = dgoto r match x with Return _ => Finally | Raise e => Failed e end s1
  | _ => True
  end.
Proof.
  destruct 1 as [s q|s q|s q|s q|s q|s q|s q|s q|s q ? ? n|s q|s q|s q|s q|s q|s q|s q|s q|s q|s q|
                 s q|s q|s q s1 Hd Hf|s q e s1 Hd Hf|s q|s q|s q|s q];
    rewrite dpcs_dgoto; case_decide as Hq; try done;
    try (subst q; match goal with H : dpcs s r = _ |- _ => by rewrite H end).
  - subst q. rewrite Hd. intros _. by exists (Return ()), s1.
  - by rewrite (finish_closed_dpcs _ _ _ _ Hf).
  - subst q. rewrite Hd. intros _. by exists (Raise e), s1.
  - by rewrite (finish_closed_dpcs _ _ _ _ Hf).
  - by rewrite record_failure_dpcs.
Qed.

Lemma record_failure_sets s r e :
  callback_error (runs s r) = None → failure (runs s r) = None →
  callback_error (runs (_record_failure r e s) r) = Some e ∧
  _callback_run_is_current r (_record_failure r e s) = false.
Proof.
  intros He Hf. unfold _record_failure, note_error. rewrite He, Hf.
  case_match eqn:Hc; [|split; [by rewrite runs_on_run, decide_True|done]].
  split; [|apply not_current_stopped, stop_locked_running].
  destruct (stop_locked_frame (on_run r (λ x, x <| callback_error := Some e |>) s)) as (_ & _ & -> & _).
  by rewrite runs_on_run, decide_True.
Qed.

(** The results of a run that is over are what [wait()] reports from then on. *)
Lemma result_kept s s' r :
  Inv s → (r < made s)%nat → in_run (dpcs s r) = false → rtc any_step s s' →
  _raise_callback_run_failure (runs s' r) = _raise_callback_run_failure (runs s r).
Proof.
  intros HI Hr Hi Hs. destruct (l_result s s' (later_steps s s' HI Hs) r Hr Hi) as [E1 E2].
  unfold _raise_callback_run_failure. by rewrite E1, E2.
Qed.

Lemma in_run_made s r : Threads s → in_run (dpcs s r) = true → (r < made s)%nat.
Proof.
  intros HT Hi. destruct (decide (r < made s)%nat) as [|Hn]; [done|].
  rewrite (i_fresh s HT) in Hi by lia. done.
Qed.

(** ** Who moves *)

Lemma start_iterator_pcs x s r s' : _start_iterator_locked x s = (r, s') → pcs s' = pcs s.
Proof. by destruct x; intros [= _ <-]. Qed.

Lemma start_callback_pcs c a s o s' : _start_callback_locked c a s = (o, s') → pcs s' = pcs s.
Proof. by destruct a; intros [= _ <-]. Qed.

Lemma forget_thread_pcs r j s : pcs (forget_thread r j s) = pcs s.
Proof. unfold forget_thread. by case_match. Qed.

Lemma closed_run_pcs k s x s' : _fault_error_for_closed_run k s = (x, s') → pcs s' = pcs s.
Proof.
  unfold _fault_error_for_closed_run. intros E. repeat case_match; simplify_eq; try done.
  by destruct (stop_locked_frame s) as (-> & _).
Qed.

Lemma record_failure_pcs r e s : pcs (_record_failure r e s) = pcs s.
Proof.
  unfold _record_failure. assert (pcs (note_error r e s) = pcs s) as E.
  { unfold note_error. by repeat case_match. }
  case_match; [|done]. by destruct (stop_locked_frame (note_error r e s)) as (-> & _).
Qed.

Lemma finish_closed_pcs r s x s' : _finish_callback_closed r s = (x, s') → pcs s' = pcs s.
Proof.
  unfold _finish_callback_closed. intros E. repeat case_match; simplify_eq; try done.
  - by destruct (stop_locked_frame (on_run r (λ x, x <| failure := Some a |>) s)) as (-> & _).
  - by destruct (stop_locked_frame s) as (-> & _).
Qed.

Lemma dispatch_pcs l s s' : dispatch_step l s s' → pcs s' = pcs s.
Proof.
  destruct 1; try done.
  - by apply finish_closed_pcs in H0.
  - by apply finish_closed_pcs in H0.
  - apply record_failure_pcs.
Qed.

(** A thread inside a method moves by a step of that method. *)
Lemma inside_moves l s s' t :
  step l s s' → pcs s t ≠ Idle → pcs s' t ≠ pcs s t →
  start_stop_step l s s' ∨ wait_step l s s' ∨ iter_step l s s'.
Proof.
  intros Hs Hi Hm. destruct Hs as [l s s' H|l s s' H|l s s' H|l s s' H|l s s' H|l s s' H]; auto.
  - exfalso. apply Hm. pose proof (stop_locked_frame s) as (F & _).
    destruct H; try done; try (unfold stop_section in *; simplify_eq);
      try (unfold samples in *; case_match; simplify_eq; done);
      rewrite ?client_pcs_goto, ?F; try done;
      (case_decide; [|done]); subst; unfold may_call in *;
      destruct (pcs s _); by destruct (collected s).
  - by rewrite (dispatch_pcs _ _ _ H) in Hm.
  - by destruct H.
Qed.

(** ** What a thread inside a method still has to do *)

(** An earlier run whose dispatcher [start()] would have to join first. *)
Definition pending (s : State) (r : nat) : Prop :=
  callback_run s = Some r ∧ thread (runs s r) ≠ None.

Definition pending_but (s : State) (q : option nat) : bool :=
  match callback_run s with
  | Some r => bool_decide (thread (runs s r) ≠ None) && bool_decide (q ≠ Some r)
  | None => false
  end.

(** The passes of [start()]'s loop that can follow: one more join if a run other than [q],
    which is being joined, is pending. *)
Definition passes (s : State) (q : option nat) : nat := if pending_but s q then 8 else 3.

Definition after (s : State) (k : AfterJoin) (r : nat) : nat :=
  match k with ThenStart _ => passes s (Some r) | ThenStop => 0 end.

(** A bound of the steps that the thread itself still takes in its method. *)
Definition budget (s : State) (t : Tid) : nat :=
  match pcs s t with
  | Idle => 0
  | StartEntry _ => passes s None
  | JoinRead k r => 4 + after s k r
  | JoinCheck k r _ => 3 + after s k r
  | Joining k r _ _ => 2 + after s k r
  | JoinLock k r _ => 1 + after s k r
  | StartFailed _ _ => 2
  | StartFailedJoin _ _ => 1
  | WaitCheck _ _ => 6 | WaitEvent _ _ => 5 | WaitJoin _ => 4 | WaitJoining _ _ => 3
  | Report _ => 1
  | IterCheck _ => 5 | IterEnter _ => 4 | IterReading _ _ => 3 | IterGot _ _ => 2
  | IterClosed _ => 1
  end.

Lemma passes_range s q : (3 ≤ passes s q ≤ 8)%nat.
Proof. unfold passes. case_match; lia. Qed.

Lemma passes_le s s' q q' :
  (∀ r, pending s' r → q' ≠ Some r → pending s r ∧ q ≠ Some r) →
  (passes s' q' ≤ passes s q)%nat.
Proof.
  intros H. unfold passes, pending_but, pending in *.
  destruct (callback_run s') as [r|]; [|repeat case_match; lia].
  destruct (bool_decide_reflect (thread (runs s' r) ≠ None)) as [H1|], (bool_decide_reflect (q' ≠ Some r)) as [H2|];
    cbn; try (repeat case_match; lia).
  destruct (H r (conj eq_refl H1) H2) as [[-> H3] H4].
  by rewrite !bool_decide_eq_true_2.
Qed.

Lemma passes_none s q : (∀ r, pending s r → q = Some r) → passes s q = 3%nat.
Proof.
  intros H. unfold passes, pending_but, pending in *. destruct (callback_run s) as [r|]; [|done].
  destruct (bool_decide_reflect (thread (runs s r) ≠ None)) as [H1|]; [|done].
  by rewrite (H r (conj eq_refl H1)), bool_decide_eq_false_2 by tauto.
Qed.

(** No step but one that makes a run makes a run pending. *)
Lemma pending_same s s' r :
  callback_run s' = callback_run s →
  (∀ q, thread (runs s' q) = thread (runs s q) ∨ thread (runs s' q) = None) →
  pending s' r → pending s r.
Proof. intros E H [H1 H2]. split; [by rewrite <-E|]. destruct (H r) as [<-|]; done. Qed.

Lemma on_run_threads r f s q :
  (∀ x, thread (f x) = thread x ∨ thread (f x) = None) →
  thread (runs (on_run r f s) q) = thread (runs s q) ∨ thread (runs (on_run r f s) q) = None.
Proof. intros H. rewrite runs_on_run. case_decide; [subst; apply H|by left]. Qed.

Lemma stop_pending s r : pending (_stop_locked s) r → pending s r.
Proof.
  destruct (stop_locked_frame s) as (_ & _ & F3 & _ & F5 & _). unfold pending. by rewrite F3, F5.
Qed.

Lemma forget_pending q j s r : pending (forget_thread q j s) r → pending s r.
Proof.
  unfold forget_thread. case_match; [|done]. apply pending_same; [done|]. intros.
  apply on_run_threads. by right.
Qed.

Lemma record_pending q e s r : pending (_record_failure q e s) r → pending s r.
Proof.
  assert (pending (note_error q e s) r → pending s r) as H.
  { unfold note_error. repeat case_match; try done. apply pending_same; [done|]. intros.
    apply on_run_threads. by left. }
  unfold _record_failure. case_match; [intros ?%stop_pending|]; auto.
Qed.

Lemma finish_pending q s x s' r :
  _finish_callback_closed q s = (x, s') → pending s' r → pending s r.
Proof.
  unfold _finish_callback_closed. intros E. repeat case_match; simplify_eq; try done.
  - intros Hp%stop_pending. revert Hp. apply pending_same; [done|]. intros.
    apply on_run_threads. by left.
  - apply stop_pending.
Qed.

Lemma start_in_call c a s o s' r :
  _start_callback_locked c a s = (o, s') → made s' = made s → pending s' r → pending s r.
Proof. destruct a; intros [= _ <-] Hm; try done; change (S (made s) = made s) in Hm; lia. Qed.

Lemma pending_kept l s s' r :
  step l s s' → made s' = made s → pending s' r → pending s r.
Proof.
  intros Hs Hm. destruct Hs as [l s s' H|l s s' H|l s s' H|l s s' H|l s s' H|l s s' H].
  - destruct H; try done; try (unfold stop_section in *; simplify_eq; apply stop_pending).
    all: unfold samples in *; case_match; simplify_eq; done.
  - destruct H; try done.
    + destruct x; simplify_eq/=; try done. by intros [? _].
    + exact (start_in_call _ _ _ _ _ _ H1 Hm).
    + exact (start_in_call _ _ _ _ _ _ H1 Hm).
    + exact (start_in_call _ _ _ _ _ _ H1 Hm).
    + apply forget_pending.
  - by destruct H.
  - destruct H; try done. unfold _fault_error_for_closed_run in *.
    repeat case_match; simplify_eq; try done; apply stop_pending.
  - destruct H; try done.
    + exact (finish_pending _ _ _ _ _ H0).
    + exact (finish_pending _ _ _ _ _ H0).
    + apply record_pending.
    + apply pending_same; [done|]. intros. apply on_run_threads. by left.
  - by destruct H.
Qed.

(** While other threads move, the bound grows only with the runs they make. *)
Lemma budget_others l s s' t :
  Inv s → step l s s' → pcs s' t = pcs s t →
  (budget s' t ≤ budget s t + 5 * (made s' - made s))%nat.
Proof.
  intros HI Hs E. pose proof (l_made _ _ (later_step _ _ _ HI Hs)) as Hmade. unfold budget. rewrite E.
  assert (∀ q, passes s' q ≤ passes s q + 5 * (made s' - made s))%nat as Hp.
  { intros q. pose proof (passes_range s q). pose proof (passes_range s' q).
    destruct (decide (made s' = made s)) as [Hm|]; [|lia].
    enough (passes s' q ≤ passes s q)%nat by lia. apply passes_le. intros r Hr Hq.
    split; [by eapply pending_kept|done]. }
  destruct (pcs s t) as [| |k r|k r|k r|k r| | | | | | | | | | | |]; try lia; try apply Hp;
    destruct k; cbn [after]; try lia; specialize (Hp (Some r)); lia.
Qed.

Lemma join_first_passes t sel s r :
  start_decision t sel s = JoinFirst r → passes s None = 8%nat ∧ passes s (Some r) = 3%nat.
Proof.
  intros H. assert (callback_run s = Some r ∧ thread (runs s r) ≠ None) as [E1 E2].
  { unfold start_decision in H. repeat case_match; simplify_eq. by split; [|congruence]. }
  unfold passes, pending_but. rewrite E1. split.
  - by rewrite !bool_decide_eq_true_2.
  - by rewrite (bool_decide_eq_false_2 (Some r ≠ Some r)), andb_false_r by tauto.
Qed.

(** The thread that was joined is not waited for again. *)
Lemma forget_passes s t k r j :
  Threads s → pcs s t = JoinLock k r j → (passes (forget_thread r j s) None ≤ passes s (Some r))%nat.
Proof.
  intros HT E. destruct (i_pcs s HT t) as [Ha _]. rewrite E in Ha. destruct Ha as [Hr Hj].
  apply passes_le. intros q Hq _. pose proof (forget_pending _ _ _ _ Hq) as [Hc Ht].
  split; [by split|]. intros [= <-]. destruct Hq as [_ Hq]. apply Hq.
  destruct (i_thread s HT r Hr) as [Hn|Hn]; [done|].
  destruct Hj as [|[_ ->]]; [congruence|]. unfold forget_thread.
  rewrite Hc, Hn, !bool_decide_eq_true_2 by done. cbn. by rewrite runs_on_run, decide_True.
Qed.

(** The step is one of the thread [t], which it takes to the point [pc]. *)
Lemma mover (u t : Tid) (pc : Pc) (s s' : State) :
  pcs s' = pcs s → pcs (goto u pc s') t ≠ pcs s t → t = u ∧ pcs (goto u pc s') t = pc.
Proof. intros E. rewrite client_pcs_goto, E. by case_decide. Qed.

(** Every step of the thread itself lowers its bound. *)
Ltac spend :=
  match goal with
  | H : pcs ?s ?u = _, Hm : pcs (goto ?u ?pc ?s1) ?t ≠ pcs ?s ?t |- _ =>
    let E := fresh "E" in
    apply mover in Hm as [-> E]; [|first
      [done|by eapply start_iterator_pcs|by eapply start_callback_pcs
      |apply forget_thread_pcs
      |match goal with Hf : _fault_error_for_closed_run _ _ = _ |- _ =>
         exact (closed_run_pcs _ _ _ _ Hf) end]];
    unfold budget; rewrite E, H;
    try change (after (goto u pc s1)) with (after s1); cbn [after]; try lia;
    try (pose proof (passes_range s None); lia)
  end.

Lemma budget_start_stop l s s' t :
  Threads s → start_stop_step l s s' → pcs s' t ≠ pcs s t → (budget s' t < budget s t)%nat.
Proof.
  intros HT Hs Hm. destruct Hs; try (spend; done).
  - spend. destruct (join_first_passes _ _ _ _ H0) as [-> E2].
    change (4 + passes s (Some r) < 8)%nat. lia.
  - destruct k; cbn [after_join fst snd] in *; spend.
    pose proof (forget_passes s t0 _ r j HT H).
    change (passes (forget_thread r j s) None < 1 + passes s (Some r))%nat. lia.
Qed.

Lemma budget_own l s s' t :
  Inv s → step l s s' → pcs s t ≠ Idle → pcs s' t ≠ pcs s t → (budget s' t < budget s t)%nat.
Proof.
  intros (HT & _) Hs Hi Hm. destruct (inside_moves l s s' t Hs Hi Hm) as [H|[H|H]].
  - by eapply budget_start_stop.
  - destruct H; spend.
  - destruct H; spend.
Qed.

(** An execution in which the thread [t] takes [n] steps within one call, whatever the
    others do meanwhile. *)
Inductive within (t : Tid) : State → nat → State → Prop :=
  | within_here s : within t s 0 s
  | within_own l s s1 n s2 : step l s s1 → pcs s t ≠ Idle → pcs s1 t ≠ pcs s t →
      within t s1 n s2 → within t s (S n) s2
  | within_other l s s1 n s2 : step l s s1 → pcs s1 t = pcs s t →
      within t s1 n s2 → within t s n s2.

Lemma within_budget t s n s' :
  within t s n s' → Inv s →
  (n + budget s' t ≤ budget s t + 5 * (made s' - made s))%nat ∧ (made s ≤ made s')%nat.
Proof.
  induction 1 as [s|l s s1 n s2 Hs Hi Hm _ IH|l s s1 n s2 Hs Hm _ IH]; intros HI.
  - lia.
  - destruct (IH (py_step_inv _ _ _ Hs HI)) as [H1 H2].
    pose proof (budget_own _ _ _ t HI Hs Hi Hm).
    pose proof (l_made _ _ (later_step _ _ _ HI Hs)). lia.
  - destruct (IH (py_step_inv _ _ _ Hs HI)) as [H1 H2].
    pose proof (budget_others _ _ _ t HI Hs Hm).
    pose proof (l_made _ _ (later_step _ _ _ HI Hs)). lia.
Qed.

(** ** What a dispatcher whose run is over still has to do *)

(** The run is stopped or replaced, or its client is gone. *)
Definition over (s : State) (r : nat) : Prop :=
  (r < made s)%nat ∧ (_callback_run_is_current r s = false ∨ collected s = true).

(** A bound of the steps the dispatcher itself still takes. *)
Definition rest (d : Dpc) : nat :=
  match d with
  | Fetch _ => 13 | InCallback _ _ => 12
  | Waiting => 11 | Top => 10 | CheckRun => 9 | Enter => 8 | Reading _ => 7 | AfterRead _ => 6
  | CheckAgain _ => 5 | CheckCall _ => 5 | ClosedRun => 4 | Failed _ => 3
  | Finally => 2 | Ended => 1 | Unborn | Gone => 0
  end.

Lemma collected_kept l s s' : step l s s' → collected s = true → collected s' = true.
Proof.
  intros Hs. destruct Hs as [l s s' H|l s s' H|l s s' H|l s s' H|l s s' H|l s s' H];
    destruct H; try done; try (unfold stop_section in *; simplify_eq).
  all: try (by destruct (stop_locked_frame s) as (_ & _ & _ & _ & _ & ->)).
  all: unfold samples, _start_iterator_locked, _start_callback_locked, forget_thread,
    _fault_error_for_closed_run, _finish_callback_closed, _record_failure, note_error, _stop_locked in *.
  all: repeat case_match; simplify_eq; done.
Qed.

Lemma over_kept l s s' r : Inv s → step l s s' → over s r → over s' r.
Proof.
  intros HI Hs [Hr Ho]. pose proof (later_step _ _ _ HI Hs) as HL. split.
  - pose proof (l_made _ _ HL). lia.
  - destruct Ho as [Ho|Ho]; [left|right; by eapply collected_kept].
    destruct (_callback_run_is_current r s') eqn:E; [|done].
    by rewrite (l_current _ _ HL r Hr E) in Ho.
Qed.

Lemma dispatcher_mover (q r : nat) (d : Dpc) (s s' : State) :
  dpcs s' = dpcs s → dpcs (dgoto q d s') r ≠ dpcs s r → r = q ∧ dpcs (dgoto q d s') r = d.
Proof. intros E. rewrite dpcs_dgoto, E. by case_decide. Qed.

Lemma rest_dispatch l s s' r :
  Inv s → over s r → dispatch_step l s s' → dpcs s' r ≠ dpcs s r →
  (rest (dpcs s' r) < rest (dpcs s r))%nat.
Proof.
  intros (HT & _) [_ Ho] Hs Hm.
  assert (holds_client (dpcs s r) = true → _callback_run_is_current r s = false) as Hc.
  { intros Hh. destruct Ho as [|Ho]; [done|]. by rewrite (holder_exists s r HT Hh) in Ho. }
  destruct Hs;
    (apply dispatcher_mover in Hm as [-> E];
     [rewrite E, H in *; cbn [rest]; try lia; cbn [holds_client] in Hc
     |first [done|by eapply finish_closed_dpcs|apply record_failure_dpcs]]).
  all: try (rewrite Hc in * by done; done).
Qed.

Lemma start_callback_dpcs c a s o s' r :
  _start_callback_locked c a s = (o, s') → (r < made s)%nat → dpcs s' r = dpcs s r.
Proof.
  intros H Hr. destruct a; injection H as _ <-; try done; rewrite dpcs_dgoto, decide_False; done || lia.
Qed.

(** Only a dispatcher's own step moves it. *)
Lemma dispatcher_own l s s' r :
  step l s s' → (r < made s)%nat → dpcs s' r ≠ dpcs s r → dispatch_step l s s'.
Proof.
  intros Hs Hr Hm. destruct Hs as [l s s' H|l s s' H|l s s' H|l s s' H|l s s' H|l s s' H];
    [exfalso; apply Hm; clear Hm..|done|exfalso; apply Hm; clear Hm];
    pose proof (stop_locked_frame s) as (_ & F & _); apply (f_equal (λ f, f r)) in F.
  - destruct H; try done; unfold stop_section, samples in *; simplify_eq; try exact F.
    all: case_match; simplify_eq; done.
  - destruct H; try done.
    + by destruct x; injection H1 as _ <-.
    + exact (start_callback_dpcs _ _ _ _ _ _ H1 Hr).
    + exact (start_callback_dpcs _ _ _ _ _ _ H1 Hr).
    + exact (start_callback_dpcs _ _ _ _ _ _ H1 Hr).
    + unfold forget_thread. by case_match.
  - by destruct H.
  - destruct H; try done. unfold _fault_error_for_closed_run in *.
    repeat case_match; simplify_eq; first [done|exact F].
  - by destruct H.
Qed.

(** An execution in which the dispatcher of run [r] takes [n] steps. *)
Inductive serves (r : nat) : State → nat → State → Prop :=
  | serves_here s : serves r s 0 s
  | serves_own l s s1 n s2 : step l s s1 → dpcs s1 r ≠ dpcs s r →
      serves r s1 n s2 → serves r s (S n) s2
  | serves_other l s s1 n s2 : step l s s1 → dpcs s1 r = dpcs s r →
      serves r s1 n s2 → serves r s n s2.

Lemma serves_rest r s n s' :
  serves r s n s' → Inv s → over s r → (n + rest (dpcs s' r) ≤ rest (dpcs s r))%nat.
Proof.
  induction 1 as [s|l s s1 n s2 Hs Hm _ IH|l s s1 n s2 Hs Hm _ IH]; intros HI Ho; [lia|..];
    specialize (IH (py_step_inv _ _ _ Hs HI) (over_kept _ _ _ _ HI Hs Ho)).
  - pose proof (rest_dispatch _ _ _ r HI Ho (dispatcher_own _ _ _ _ Hs (proj1 Ho) Hm) Hm). lia.
  - by rewrite Hm in IH.
Qed.

(** ** Whom a join waits for *)

Definition joins (pc : Pc) : option nat :=
  match pc with
  | JoinRead _ r | JoinCheck _ r _ | Joining _ r _ _ | JoinLock _ r _ | StartFailed r _
  | StartFailedJoin (Dispatcher r) _ | WaitJoin r | WaitJoining r _ => Some r
  | _ => None
  end.

Lemma stopped_over s r : (r < made s)%nat → running s = false → over s r.
Proof. intros. split; [done|]. left. by apply not_current_stopped. Qed.

Lemma joins_call l s s' t r :
  Inv s → call_step l s s' → pcs s' t ≠ pcs s t → joins (pcs s' t) = Some r → over s' r.
Proof.
  intros (HT & _) H Hm Hj. pose proof (stop_locked_frame s) as (F1 & _ & _ & F4 & F5 & _).
  destruct H; try done; try (apply mover in Hm as [-> E]; [by rewrite E in Hj|done]).
  - apply stop_section_inv in H0 as [-> Hr]. destruct (Hr _ eq_refl) as [Ec _].
    apply mover in Hm as [-> E]; [|done]. rewrite E in Hj. injection Hj as <-.
    destruct (i_named s HT _ Ec) as [Hlt _].
    apply stopped_over; [change (r0 < made (_stop_locked s))%nat; by rewrite F4|].
    apply (stop_locked_running s).
  - apply stop_section_inv in H0 as [-> _]. by rewrite F1 in Hm.
  - unfold samples in *. case_match; simplify_eq; done.
  - unfold samples in *. case_match; simplify_eq; done.
Qed.

Lemma join_first_over t sel s r : Inv s → start_decision t sel s = JoinFirst r → over s r.
Proof.
  intros (HT & _) H.
  assert (callback_run s = Some r ∧ running s = false) as [E1 E2]
    by (unfold start_decision in H; repeat case_match; by simplify_eq).
  apply stopped_over; [by apply (i_named s HT)|done].
Qed.

Lemma start_failed_over c a s e r s' :
  _start_callback_locked c a s = (Some {| error := e; join_dispatcher := Some r |}, s') → over s' r.
Proof.
  intros H. destruct a; simplify_eq. injection H as _ <- <-.
  apply stopped_over; [|done]. change (made s < S (made s))%nat. lia.
Qed.

(** A thread in a method comes to a join of the run it already joins, or of one that is
    over. *)
Lemma joins_inside l s s' t r :
  Inv s → start_stop_step l s s' ∨ wait_step l s s' ∨ iter_step l s s' →
  pcs s' t ≠ pcs s t → joins (pcs s' t) = Some r →
  joins (pcs s t) = Some r ∨ over s r ∨ over s' r.
Proof.
  intros HI Hs Hm Hj. pose proof HI as (HT & HR & _). destruct Hs as [H|[H|H]].
  - destruct H; try (destruct k; cbn [after_join fst snd] in Hm, Hj);
      (apply mover in Hm as [-> E];
       [rewrite E in Hj; try discriminate Hj|first
       [done|by eapply start_iterator_pcs|by eapply start_callback_pcs|apply forget_thread_pcs]]);
      rewrite H; cbn in *; simplify_eq; try (by left).
    + right; left. by eapply join_first_over.
    + right; right. exact (start_failed_over _ _ _ _ _ _ H1).
    + left. destruct (i_pcs s HT t0) as [Ha _]. rewrite H in Ha. destruct Ha as (Hr & _).
      destruct (join_target t0 _ s r0 d HT Hr eq_refl H0) as (-> & _). done.
  - destruct H; (apply mover in Hm as [-> E]; [rewrite E in Hj; try discriminate Hj|done]);
      rewrite H; cbn in *; simplify_eq; try (by left).
    right; left. destruct (i_pcs s HT t0) as [Ha _]. rewrite H in Ha. destruct Ha as (Hr & _).
    split; [done|]. left. apply left_not_current; [done|..].
    + apply (not_collected s t0); [done|]. by rewrite H.
    + destruct (in_run (dpcs s r)) eqn:Ei; [|done].
      destruct (i_run s HR r Ei) as (_ & _ & Hco & _). congruence.
  - destruct H; (apply mover in Hm as [-> E]; [rewrite E in Hj; discriminate Hj|]);
      try done. exact (closed_run_pcs _ _ _ _ H0).
Qed.

Definition Joins (s : State) : Prop := ∀ t r, joins (pcs s t) = Some r → over s r.

Lemma joins_step l s s' : Inv s → Joins s → step l s s' → Joins s'.
Proof.
  intros HI HJ Hs t r Hj. destruct (decide (joins (pcs s' t) = joins (pcs s t))) as [E|Hne].
  { rewrite E in Hj. by eapply over_kept; eauto. }
  assert (pcs s' t ≠ pcs s t) as Hm by congruence.
  assert (start_stop_step l s s' ∨ wait_step l s s' ∨ iter_step l s s' → over s' r) as Hin.
  { intros H. destruct (joins_inside l s s' t r HI H Hm Hj) as [|[|]]; [|by eapply over_kept|done].
    eapply over_kept; eauto. }
  pose proof Hs as Hs'. destruct Hs' as [l s s' H|l s s' H|l s s' H|l s s' H|l s s' H|l s s' H]; auto.
  - by eapply joins_call.
  - by rewrite (dispatch_pcs _ _ _ H) in Hm.
  - by destruct H.
Qed.

Lemma reachable_joins s : reachable s → Joins s.
Proof.
  intros (c & n & h & Hs). remember (initial c (new_native n h)) as s0 eqn:E0.
  assert (Inv s0 ∧ Joins s0) as [HI HJ] by (subst; split; [by apply py_initial_inv|done]).
  clear E0. induction Hs as [|s0 s1 s2 [l Hs] _ IH]; [done|].
  apply IH; [by eapply py_step_inv|by eapply joins_step].
Qed.

(** A thread that waits for a dispatcher waits for one whose run is over, except in
    [wait()]. *)
Lemma waits_for_over s t r :
  reachable s → waits_for s t r → (∃ timed, pcs s t = WaitEvent r timed) ∨ over s r.
Proof.
  intros Hr Hw. pose proof (reachable_joins s Hr t) as HJ.
  apply py_reachable_inv in Hr as (HT & _). destruct (i_pcs s HT t) as [Ha _].
  unfold waits_for in Hw. destruct (pcs s t) eqn:E; try done; cbn [about] in Ha.
  - right. apply HJ. cbn. destruct Ha as (_ & _ & _ & -> & _). by simplify_eq.
  - right. apply HJ. cbn. by rewrite Hw.
  - left. subst. by eexists.
  - right. apply HJ. cbn. destruct Ha as (_ & _ & -> & _). by simplify_eq.
Qed.

(** A dispatcher whose run is over is not kept by a read. *)
Lemma over_goes_on s r :
  Inv s → collected s = false → over s r → alive (dpcs s r) = true →
  dispatcher_moves s r ∨ thread_moves s (Dispatcher r) ∨ in_user_code s r.
Proof.
  intros HI Hc [_ Ho] Ha. destruct (alive_goes_on s r HI Hc Ha) as [|[|[|[[e E] Hrun]]]]; auto.
  exfalso. destruct Ho as [Ho|]; [|congruence]. pose proof HI as (HT & _ & HS).
  destruct (serving_published s r HT) as (Ecb & _); [by rewrite E|].
  destruct (mode s) as [[]|] eqn:Em.
  - by rewrite (i_iterator s HS Hrun Em) in Ecb.
  - destruct (i_serving s HS Hrun Em Hc) as (r' & E' & Et & _). simplify_eq.
    enough (_callback_run_is_current r s = true) by congruence. apply current_iff. done.
  - by apply (i_mode s HS Hrun).
Qed.

(** C18: the client never deadlocks, and nobody goes round in it. In every reachable state
    a thread inside a method takes a step, or reads from a client that runs, or waits for a
    dispatcher that is not itself and that goes on: it takes a step, or runs the program's
    callback, or reads from a client that runs. Whatever the other threads do, a thread
    takes at most 12 steps in one call, and five more for each run that is made meanwhile
    (a [start()] that must join it too). The dispatcher that a [start()], a [stop()] or the
    end of a [wait()] joins has a run that is over; such a dispatcher takes at most 13 more
    steps, and until it has ended it can take one unless it runs the program's callback. So
    once the client is stopped, only the program's own callback can keep a thread in it. *)
Theorem python_client_progress s t :
  reachable s →
  (pcs s t ≠ Idle →
   thread_moves s t ∨ (∃ i e, pcs s t = IterReading i e ∧ running s = true) ∨
   ∃ r, waits_for s t r ∧ Dispatcher r ≠ t ∧ goes_on s r) ∧
  (∀ n s', within t s n s' → (n ≤ 12 + 5 * (made s' - made s))%nat) ∧
  (∀ r, waits_for s t r → (∃ timed, pcs s t = WaitEvent r timed) ∨ over s r) ∧
  (∀ r, over s r →
     (∀ n s', serves r s n s' → (n ≤ 13)%nat) ∧
     (collected s = false → alive (dpcs s r) = true →
      dispatcher_moves s r ∨ thread_moves s (Dispatcher r) ∨ in_user_code s r)).
Proof.
  intros Hr. pose proof (py_reachable_inv s Hr) as HI. split_and!.
  - by apply inside_progress.
  - intros n s' H. destruct (within_budget t s n s' H HI) as [Hb _].
    enough (budget s t ≤ 12)%nat by lia. unfold budget, after.
    pose proof (passes_range s None). repeat case_match; try lia;
      match goal with |- context [passes s ?q] => pose proof (passes_range s q); lia end.
  - intros r. by apply waits_for_over.
  - intros r Ho. split; [|by intros; apply over_goes_on]. intros n s' H.
    pose proof (serves_rest r s n s' H HI Ho).
    assert (rest (dpcs s r) ≤ 13)%nat by (destruct (dpcs s r); cbn; lia). lia.
Qed.

(** ** Failures *)

(** The thread is inside [wait()] or [raise_if_failed()] of run [r]. *)
Definition asks (r : nat) (pc : Pc) : Prop :=
  match pc with
  | WaitCheck r' _ | WaitEvent r' _ | WaitJoin r' | WaitJoining r' _ | Report r' => r' = r
  | _ => False
  end.

(** How such a call may end when the failure of the run is [e]: with [e], or before the
    failure is looked at with the time-out of a timed [wait()], or with the refusal of a
    dispatcher that would wait for itself. *)
Definition answer (s : State) (t : Tid) (r : nat) (e : PyError) (res : PyRes ()) : Prop :=
  res = Raise e ∨
  res = Raise (TimeoutError "timed out waiting for callback delivery to stop") ∧
    pcs s t = WaitEvent r true ∨
  res = Raise (RuntimeError "a callback dispatcher cannot wait for itself") ∧
    t = Dispatcher r ∧ ∃ timed, pcs s t = WaitCheck r timed.

(** From now on every [wait()] and [raise_if_failed()] of run [r] reports [e]: as long as
    the run is the client's last one they can be called, a thread inside one stays inside
    until the call ends with an answer as above, and at the last point, where both look at
    the run, with [e] itself. *)
Definition reports (s : State) (r : nat) (e : PyError) : Prop :=
  ∀ s1, rtc any_step s s1 →
  (∀ t, may_call t s1 = true → callback_run s1 = Some r →
     step Quiet s1 (goto t (Report r) s1) ∧
     (mode s1 ≠ Some Iterator → ∀ timed, step Quiet s1 (goto t (WaitCheck r timed) s1))) ∧
  (∀ l s2 t, step l s1 s2 → pcs s2 t ≠ pcs s1 t → asks r (pcs s1 t) →
     asks r (pcs s2 t) ∧ l = Quiet ∧ pcs s1 t ≠ Report r ∨
     pcs s2 t = Idle ∧ ∃ res, l = Ends t res ∧ answer s1 t r e res ∧
       (pcs s1 t = Report r → res = Raise e)).

Lemma asks_moves l s s' t r :
  step l s s' → pcs s' t ≠ pcs s t → asks r (pcs s t) → wait_step l s s'.
Proof.
  intros Hs Hm Ha. assert (pcs s t ≠ Idle) as Hne by (intros E; by rewrite E in Ha).
  destruct (inside_moves l s s' t Hs Hne Hm) as [H|[H|H]]; [exfalso|done|exfalso].
  - destruct H; try (destruct k; cbn [after_join fst snd] in Hm);
      (apply mover in Hm as [-> E]; [by rewrite H in Ha|first
       [done|by eapply start_iterator_pcs|by eapply start_callback_pcs|apply forget_thread_pcs]]).
  - destruct H; (apply mover in Hm as [-> E]; [by rewrite H in Ha|]);
      try done; exact (closed_run_pcs _ _ _ _ H0).
Qed.

(** The failure of a run, once there, is what every call reports. *)
Lemma failure_reports s r e :
  Inv s → (∀ s1, rtc any_step s s1 → _raise_callback_run_failure (runs s1 r) = Raise e) →
  reports s r e.
Proof.
  intros HI He s1 Hs1. pose proof (any_steps_inv _ _ Hs1 HI) as (HT & _). split.
  - intros t Hm Hc. split; [by apply by_call, call_raise_if_failed|]. intros Hi timed.
    apply by_call, call_wait; [done|]. unfold wait_section.
    by rewrite Hc, bool_decide_eq_false_2.
  - intros l s2 t Hs Hm Ha.
    pose proof (asks_moves _ _ _ _ _ Hs Hm Ha) as H. specialize (He s1 Hs1).
    destruct H; (apply mover in Hm as [-> E]; [|done]); rewrite E;
      destruct (i_pcs _ HT t0) as [Hp _]; rewrite H in *; cbn in Ha, Hp; subst;
      try (left; done); right; (split; [done|]); eexists; (split; [done|]); (split; [|done]);
      unfold answer; rewrite ?H; eauto.
    + right; right. split; [done|].
      split; [|by eexists]. destruct Hp as [Hr _]. destruct (i_thread _ HT r Hr); congruence.
Qed.

(** The dispatcher's last step has stored [e]: the run is over, and stays so with it. *)
Lemma stored_reports s r e :
  Inv s → (r < made s)%nat → in_run (dpcs s r) = false →
  _raise_callback_run_failure (runs s r) = Raise e → reports s r e.
Proof.
  intros HI Hr Hi He. apply failure_reports; [done|]. intros s1 Hs1.
  by rewrite (result_kept s s1 r HI Hr Hi Hs1).
Qed.

(** C21: a failure of a run reaches whoever asks for it. When the callback (or the
    dispatcher itself) has raised [e], the dispatcher's next step stops the run, and from
    then on [wait()] and [raise_if_failed()] of that run raise [CallbackError] with cause
    [e], whatever happens later (a [wait()] can end earlier with its own time-out, or with
    the refusal of a dispatcher waiting for itself). When the core has latched a fault, it
    is [SensorFaultError] with the core's fault code and health of that moment; if that
    health cannot be shown because a text in it is not UTF-8, the dispatcher goes on with
    the [UnicodeDecodeError], which is then reported as above. *)
Theorem failures_reported s s' l r :
  reachable s → dispatch_step l s s' → dpcs s' r ≠ dpcs s r →
  match dpcs s r with
  | Failed e =>
    _callback_run_is_current r s' = false ∧
    reports s' r (CallbackError "sample callback failed" e)
  | ClosedRun =>
    n_faulted (native s) = true → _callback_run_is_current r s = true →
    if snapshot_text (n_health (native s))
    then ∃ c h, to_fault_code (n_code (native s)) = Return c ∧
      to_health (n_health (native s)) (Z.of_nat (QueueSpec.dropped (fifo (native s)))) = Return h ∧
      _callback_run_is_current r s' = false ∧ reports s' r (SensorFaultError c h)
    else s' = dgoto r (Failed UnicodeDecodeError) s
  | _ => True
  end.
Proof.
  intros HI%py_reachable_inv Hs Hm. pose proof (dispatch_inv _ _ _ Hs HI) as HI'.
  pose proof HI as (HT & HR & _). pose proof (dispatch_one l s s' r Hs Hm) as Hone.
  pose proof (l_made _ _ (later_dispatch _ _ _ Hs)) as Hle.
  destruct (dpcs s r) eqn:E; try done.
  - destruct Hone as (x & s1 & Hf & ->). intros Hflt Hcur.
    destruct (i_run s HR r) as (He & Hfl & _); [by rewrite E|].
    pose proof (in_run_made s r HT ltac:(by rewrite E)) as Hr.
    unfold _finish_callback_closed in Hf. rewrite Hcur, Hflt in Hf. cbn [negb] in Hf.
    pose proof (to_health_cases (n_health (native s))
                  (Z.of_nat (QueueSpec.dropped (fifo (native s))))) as Hh.
    unfold converts_if, sensor_fault in *.
    destruct (snapshot_text _); [|rewrite Hh in Hf; by simplify_eq/=].
    destruct Hh as [h Hh]. rewrite Hh in Hf.
    destruct (public_total _ _ _ (n_code (native s)) fault_codes_agree) as [c Hc].
    unfold to_fault_code in *. cbn [mbind PyRes_bind] in Hf. rewrite Hc in Hf. simplify_eq/=.
    exists c, h. set (s2 := on_run _ _ s) in *.
    destruct (stop_locked_frame s2) as (_ & F2 & F3 & F4 & _).
    split_and!; [done..|apply not_current_stopped, stop_locked_running|].
    apply stored_reports; [done|change (r < made (_stop_locked s2))%nat; lia|by rewrite dpcs_dgoto, decide_True|].
    rewrite runs_dgoto, F3. unfold s2. rewrite runs_on_run, decide_True by done.
    unfold _raise_callback_run_failure. cbn. by rewrite He.
  - subst s'. assert (in_run (dpcs s r) = true) as Hi by by rewrite E.
    destruct (i_run s HR r Hi) as (He & Hfl & _). pose proof (in_run_made s r HT Hi).
    destruct (record_failure_sets s r e He Hfl) as [Hset Hcur]. split; [done|].
    apply stored_reports; [done|lia|by rewrite dpcs_dgoto, decide_True|].
    rewrite runs_dgoto. unfold _raise_callback_run_failure. by rewrite Hset.
Qed.

(** The callback raised; a thread then asks with [raise_if_failed()]. *)
Lemma failures_reported_witness :
  reachable y10 ∧ dispatch_step Quiet y10 y11 ∧
  reports y11 0 (CallbackError "sample callback failed" (OtherError 3)) ∧
  ∃ s, step Quiet y11 s ∧ pcs s (User 5) = Report 0.
Proof.
  assert (dispatch_step Quiet y10 y11) as Hs by by apply d_failed.
  destruct (failures_reported y10 y11 Quiet 0 y10_reachable Hs ltac:(done)) as [_ H].
  split; [apply y10_reachable|]. split; [done|]. split; [exact H|].
  destruct (H y11 ltac:(apply rtc_refl)) as [Hcall _].
  destruct (Hcall (User 5) eq_refl eq_refl) as [Hstep _]. eexists. split; [exact Hstep|done].
Defined.

Lemma python_client_progress_witness :
  reachable z3 ∧ pcs z3 (User 0) ≠ Idle ∧ over z3 0 ∧
  (thread_moves z3 (User 0) ∨ (∃ i e, pcs z3 (User 0) = IterReading i e ∧ running z3 = true) ∨
   ∃ r, waits_for z3 (User 0) r ∧ Dispatcher r ≠ User 0 ∧ goes_on z3 r) ∧
  (∀ n s', serves 0 z3 n s' → (n ≤ 13)%nat).
Proof.
  destruct (python_client_progress z3 (User 0) z3_reachable) as (H1 & _ & H3 & H4).
  assert (over z3 0) as Ho by (destruct (H3 0%nat eq_refl) as [[timed E]|]; [discriminate E|done]).
  split; [apply z3_reachable|]. split; [done|]. split; [done|]. split; [by apply H1|].
  by apply (H4 0%nat Ho).
Defined.

End PyLiveness.
