(* ===== verification/PyDelivery.v ===== *)
(** * What reaches Python: the samples of src/pynetft/client.py, over whole runs

    The histories of the Python client: what the worker pushed, what each generator and each
    dispatcher took from the queue, what was yielded and what callbacks were called with.
    Every delivered sample is the conversion of one that its reader took, in order and at
    most once, and every sample taken was pushed, in order and at most once. *)

From Stdlib Require Import ZArith Lia.
From stdpp Require Import functions relations.
From S2P Require Import Prelude Types SampleQueue QueueSpec Conversion PyClient PyClientSafety.
Import Conversion PyClient PyClientSafety.

Module PyDelivery.

(** ** Histories *)

(** A history: each event with the number of the run it happened in ([run_token]). *)
Inductive trace (s0 : State) : list (nat * Event) → State → Prop :=
  | trace_start : trace s0 [] s0
  | trace_step ls l s s' :
      trace s0 ls s → step l s s' → trace s0 (ls ++ [(run_token s, l)]) s'.

(** The events of some runs. *)
Definition during (K : nat → bool) (ls : list (nat * Event)) : list Event :=
  omap (λ x, if K x.1 then Some x.2 else None) ls.

(** The samples the worker pushed, those that were taken, and those that [w] took. *)
Definition pushes (ls : list Event) : list Sample :=
  omap (λ l, match l with Pushes v => Some v | _ => None end) ls.
Definition takes (ls : list Event) : list Sample :=
  omap (λ l, match l with Takes _ v => Some v | _ => None end) ls.
Definition taken_by (w : Consumer) (l : Event) : option Sample :=
  match l with Takes w' v => if decide (w' = w) then Some v else None | _ => None end.
Definition takes_of (w : Consumer) (ls : list Event) : list Sample := omap (taken_by w) ls.

(** What a step delivers, through [w]. *)
Definition delivery (w : Consumer) (l : Event) : option PySample :=
  match l, w with
  | Yields _ i p, ByIterator i' => if decide (i = i') then Some p else None
  | Calls r _ p, ByDispatcher r' => if decide (r = r') then Some p else None
  | _, _ => None
  end.
Definition deliveries (w : Consumer) (ls : list Event) : list PySample := omap (delivery w) ls.
(** What callbacks were called with, by whatever dispatcher. *)
Definition calls (ls : list Event) : list PySample :=
  omap (λ l, match l with Calls _ _ p => Some p | _ => None end) ls.

Definition converts (v : Sample) (p : PySample) : Prop := to_sample v = Return p.

Abbreviation buffered s := (QueueSpec.buffer (fifo (native s))).

(** ** The queue *)

Lemma lastn_sublist {A} n (l : list A) : lastn n l `sublist_of` l.
Proof. apply sublist_drop. Qed.

(** A critical section of the client changes nothing of its threads, generators and
    dispatchers but to start one, and leaves the queue as it is or empties it. *)
Record Calm (s s' : State) : Prop := {
  m_pcs : pcs s' = pcs s;
  m_iters : iters s' = iters s;
  m_generators : generators s' = generators s;
  m_dpcs : ∀ r, dpcs s' r = dpcs s r ∨ r = made s ∧ dpcs s' r = Waiting;
  m_buffer : buffered s' `sublist_of` buffered s;
  m_token : (run_token s ≤ run_token s')%nat
}.

Lemma calm_refl s : Calm s s.
Proof. split; auto. Qed.

Lemma calm_stop_locked s : Calm s (_stop_locked s).
Proof. unfold _stop_locked. destruct (running s); split; cbn; auto. Qed.

Lemma calm_stop_section t s o s' : stop_section t s = (o, s') → Calm s s'.
Proof. unfold stop_section. intros [= _ <-]. apply calm_stop_locked. Qed.

Lemma calm_start_iterator x s res s' : _start_iterator_locked x s = (res, s') → Calm s s'.
Proof.
  destruct x; intros [= _ <-]; split; cbn; auto using sublist_nil_l.
  unfold native_started. destruct (_ && _); cbn; auto using sublist_nil_l.
Qed.

Lemma calm_start_callback c a s o s' : _start_callback_locked c a s = (o, s') → Calm s s'.
Proof.
  unfold _start_callback_locked. destruct a; intros [= _ <-]; split; cbn; try lia;
    auto using sublist_nil_l.
  - intros r. unfold dgoto; cbn. destruct (decide (r = made s)) as [->|].
    + right. split; [done|]. apply fn_lookup_insert.
    + left. by rewrite fn_lookup_insert_ne.
  - intros r. unfold dgoto; cbn. destruct (decide (r = made s)) as [->|].
    + right. split; [done|]. apply fn_lookup_insert.
    + left. by rewrite fn_lookup_insert_ne.
  - unfold native_started. destruct (_ && _); cbn; auto using sublist_nil_l.
  - apply Nat.le_succ_diag_r.
Qed.

Lemma calm_forget r j s : Calm s (forget_thread r j s).
Proof. unfold forget_thread. destruct (_ && _); split; cbn; auto. Qed.

Lemma calm_fault k s x s' : _fault_error_for_closed_run k s = (x, s') → Calm s s'.
Proof.
  unfold _fault_error_for_closed_run. intros E. repeat case_match; simplify_eq;
    auto using calm_refl, calm_stop_locked.
Qed.

Lemma calm_run r f s s' : Calm (on_run r f s) s' → Calm s s'.
Proof. intros []. by split. Qed.

Lemma calm_closed r s x s' : _finish_callback_closed r s = (x, s') → Calm s s'.
Proof.
  unfold _finish_callback_closed. intros E. repeat case_match; simplify_eq;
    eauto using calm_refl, calm_stop_locked, calm_run.
Qed.

Lemma calm_record r e s : Calm s (_record_failure r e s).
Proof.
  unfold _record_failure, note_error. repeat case_match;
    eauto using calm_refl, calm_stop_locked, calm_run.
Qed.

(** The sections a step may consist of. *)
Create HintDb calm.
#[export] Hint Resolve calm_refl calm_stop_section calm_start_iterator calm_start_callback
  calm_forget calm_fault calm_closed calm_record : calm.

Lemma native_read_takes e timed n res n' :
  native_read e timed n res n' →
  match SampleQueue.sample res with
  | Some v => QueueSpec.buffer (fifo n) = v :: QueueSpec.buffer (fifo n')
  | None => n' = n
  end.
Proof.
  intros [? ? f E| |]; cbn; [|done..]. cbn in E.
  destruct (_ && _); [|done]. destruct (QueueSpec.buffer (fifo n0)); by simplify_eq/=.
Qed.

(** A result with a sample says so. *)
Definition read_ok (res : SampleQueue.ReadResult) : Prop :=
  ∀ v, SampleQueue.sample res = Some v → SampleQueue.status res = SampleQueue.StSample.

Lemma native_read_ok e timed n res n' : native_read e timed n res n' → read_ok res.
Proof. by intros [] v Hv. Qed.

Lemma samples_frame timed s x s' :
  samples timed s = (x, s') →
  native s' = native s ∧ pcs s' = pcs s ∧ dpcs s' = dpcs s ∧
  (iters s' = iters s ∧ generators s' = generators s ∨
   ∃ g, iters s' = <[generators s := g]> (iters s) ∧ generators s' = S (generators s)).
Proof. unfold samples. destruct (_ || _); intros [= _ <-]; cbn; naive_solver. Qed.

(** Program counters and generators are neither the queue nor dispatchers nor runs. *)
Ltac strip := repeat match goal with
  | |- context [native (goto ?t ?pc ?s)] => change (native (goto t pc s)) with (native s)
  | |- context [native (dgoto ?r ?d ?s)] => change (native (dgoto r d s)) with (native s)
  | |- context [native (on_iter ?i ?x ?s)] => change (native (on_iter i x s)) with (native s)
  | |- context [dpcs (goto ?t ?pc ?s)] => change (dpcs (goto t pc s)) with (dpcs s)
  | |- context [dpcs (on_iter ?i ?x ?s)] => change (dpcs (on_iter i x s)) with (dpcs s)
  | |- context [run_token (goto ?t ?pc ?s)] => change (run_token (goto t pc s)) with (run_token s)
  | |- context [run_token (dgoto ?r ?d ?s)] => change (run_token (dgoto r d s)) with (run_token s)
  | |- context [run_token (on_iter ?i ?x ?s)] =>
    change (run_token (on_iter i x s)) with (run_token s)
  end.

(** One step at the queue: a push may displace older samples, a reader takes the oldest
    one, nothing else adds or reorders. *)
Lemma step_buffer l s s' :
  step l s s' →
  match l with
  | Pushes v => buffered s' `sublist_of` buffered s ++ [v]
  | Takes _ v => buffered s = v :: buffered s'
  | _ => buffered s' `sublist_of` buffered s
  end.
Proof.
  intros Hs. destruct Hs as [l s s' H|l s s' H|l s s' H|l s s' H|l s s' H|l s s' H]; destruct H;
    try done; strip; try (apply (m_buffer s); solve [eauto with calm]).
  - by destruct (samples_frame _ _ _ _ H0) as (-> & _).
  - by destruct (samples_frame _ _ _ _ H0) as (-> & _).
  - destruct k; apply (m_buffer s); eauto with calm.
  - pose proof (native_read_takes _ _ _ _ _ H0) as Hr. unfold took.
    destruct (SampleQueue.sample res); [done|]. by subst n.
  - unfold dropped. by destruct (SampleQueue.sample res).
  - pose proof (native_read_takes _ _ _ _ _ H0) as Hr. unfold took.
    destruct (SampleQueue.sample res); [done|]. by subst n.
  - unfold dropped. by destruct (SampleQueue.sample res).
  - unfold dropped. by destruct (SampleQueue.sample res).
  - apply lastn_sublist.
Qed.

(** Sections other than those of [start()] stay in the run. *)
Lemma token_stop_locked s : run_token (_stop_locked s) = run_token s.
Proof. unfold _stop_locked. by destruct (running s). Qed.

Lemma token_stop_section t s o s' : stop_section t s = (o, s') → run_token s' = run_token s.
Proof. unfold stop_section. intros [= _ <-]. apply token_stop_locked. Qed.

Lemma token_forget r j s : run_token (forget_thread r j s) = run_token s.
Proof. unfold forget_thread. by destruct (_ && _). Qed.

Lemma token_samples timed s x s' : samples timed s = (x, s') → run_token s' = run_token s.
Proof. unfold samples. by destruct (_ || _); intros [= _ <-]. Qed.

Lemma token_fault k s x s' : _fault_error_for_closed_run k s = (x, s') → run_token s' = run_token s.
Proof.
  unfold _fault_error_for_closed_run. intros E. repeat case_match; simplify_eq;
    auto using token_stop_locked.
Qed.

Lemma token_run r f s s' : run_token s' = run_token (on_run r f s) → run_token s' = run_token s.
Proof. done. Qed.

Lemma token_closed r s x s' : _finish_callback_closed r s = (x, s') → run_token s' = run_token s.
Proof.
  unfold _finish_callback_closed. intros E. repeat case_match; simplify_eq;
    eauto using token_stop_locked, token_run.
Qed.

Lemma token_record r e s : run_token (_record_failure r e s) = run_token s.
Proof.
  unfold _record_failure, note_error. repeat case_match;
    eauto using token_stop_locked, token_run.
Qed.

#[export] Hint Resolve token_stop_section token_forget token_samples token_fault token_closed
  token_record : calm.

(** A step begins another run only in [start()], with the queue empty, or none. *)
Lemma step_token l s s' :
  Inv s → step l s s' →
  run_token s' = run_token s ∨
  run_token s' = S (run_token s) ∧ buffered s' = [] ∧ (∃ t x, l = Ends t x) ∧
  ∀ r, serving (dpcs s r) = false.
Proof.
  intros HI Hs.
  assert (∀ t sel, start_decision t sel s = Go → pcs s t ≠ Idle →
    buffered (s <| native := native_started (native s) |>) = [] ∧
    ∀ r, serving (dpcs s r) = false) as Hgo.
  { intros t sel Hg Ht. pose proof (not_collected _ _ HI Ht) as Hc. destruct (go_inv _ _ _ Hg) as [Hr Hj].
    destruct HI as (HT & _ & HS). split.
    - cbn. unfold native_started. by rewrite (i_native s HS Hc), Hr.
    - intros r. destruct (serving (dpcs s r)) eqn:E; [|done].
      destruct (serving_published s r HT E) as (E1 & E2 & _). by rewrite (Hj r E1) in E2. }
  destruct Hs as [l s s' H|l s s' H|l s s' H|l s s' H|l s s' H|l s s' H]; destruct H;
    try (by left); try (left; strip; solve [eauto with calm]); strip.
  - destruct x; simplify_eq/=; [by left|right]. destruct (Hgo t None) as [? ?]; [done|congruence|].
    split_and!; eauto.
  - destruct a; simplify_eq/=. right. destruct (Hgo t (Some c)) as [? ?]; [done|congruence|].
    split_and!; eauto.
  - left. by destruct a; simplify_eq/=.
  - left. by destruct a; simplify_eq/=.
Qed.

Lemma history_snoc {A} (f : Event → option A) ls l :
  omap f (ls ++ [l]) = omap f ls ++ option_list (f l).
Proof. rewrite omap_app. cbn. by destruct (f l). Qed.

Lemma during_snoc K ls k l :
  during K (ls ++ [(k, l)]) = if K k then during K ls ++ [l] else during K ls.
Proof. unfold during. rewrite omap_app. cbn. destruct (K k); [done|apply app_nil_r]. Qed.

(** What was taken in some runs was pushed in them, less what was displaced or left behind. *)
Lemma taken_pushed K c n ls s :
  n_running n = false → QueueSpec.buffer (fifo n) = [] → trace (initial c n) ls s →
  Inv s ∧
  takes (during K ls) ++ (if K (run_token s) then buffered s else []) `sublist_of`
  pushes (during K ls).
Proof.
  intros Hr Hn. induction 1 as [|ls l s s' _ [HI IH] Hs].
  { split; [by apply py_initial_inv|]. cbn. rewrite Hn. by destruct (K 0%nat). }
  split; [by eapply py_step_inv|]. rewrite during_snoc.
  destruct (step_token _ _ _ HI Hs) as [->|(_ & -> & (t & x & ->) & _)].
  2: { assert (takes (during K ls) `sublist_of` pushes (during K ls)) as H
         by (etrans; [by apply sublist_inserts_r|done]).
       destruct (K (run_token s)), (K (run_token s')); unfold takes, pushes;
         rewrite ?history_snoc; cbn; by rewrite !app_nil_r. }
  destruct (K (run_token s)); [|done].
  pose proof (step_buffer _ _ _ Hs) as Hb. unfold takes, pushes in *. rewrite !history_snoc.
  destruct l; cbn; rewrite ?app_nil_r; try (etrans; [by apply sublist_app|done]).
  - etrans; [by apply sublist_app; [|exact Hb]|]. rewrite app_assoc. by apply sublist_app.
  - rewrite <- app_assoc. cbn. by rewrite <- Hb.
Qed.

Lemma taken_by_self w v : taken_by w (Takes w v) = Some v.
Proof. cbn. by rewrite decide_True. Qed.

(** ** Dispatchers *)

(** A sample on its way, before or after its conversion. *)
Definition stands (x : Sample + PySample) (v : Sample) : Prop :=
  match x with inl v' => v' = v | inr p => converts v p end.

Definition carried (d : Dpc) : option (Sample + PySample) :=
  match d with
  | AfterRead res | CheckAgain res => inl <$> SampleQueue.sample res
  | CheckCall p | Fetch p => Some (inr p)
  | _ => None
  end.

Lemma dispatch_result_carried res x :
  carried (dispatch_result res) = Some x →
  ∃ v, SampleQueue.sample res = Some v ∧ stands x v.
Proof.
  unfold dispatch_result. destruct (SampleQueue.status res), (SampleQueue.sample res) as [v|]; cbn;
    try done. destruct (to_sample v) eqn:E; cbn; [|done]. intros [= <-]. by exists v.
Qed.

(** Only a dispatcher moves itself, apart from being started, and only it calls. *)
Lemma others_dpcs l s s' :
  step l s s' →
  dispatch_step l s s' ∨
  (∀ r, dpcs s' r = dpcs s r ∨ r = made s ∧ dpcs s' r = Waiting) ∧ ∀ r, delivery (ByDispatcher r) l = None.
Proof.
  intros Hs. destruct Hs as [l s s' H|l s s' H|l s s' H|l s s' H|l s s' H|l s s' H];
    [..|by left|]; right; destruct H; (split; [|try done]); strip; try (by left);
    try (apply (m_dpcs s); solve [eauto with calm]).
  all: try (destruct (samples_frame _ _ _ _ H0) as (_ & _ & -> & _); by left).
  all: try (unfold took, dropped; by destruct (SampleQueue.sample res)).
  all: try by destruct k.
Qed.

(** A dispatcher that carries nothing, or just what it carried before, perhaps converted,
    or what it took. *)
Definition carries_on (w : Consumer) (l : Event) (before after : option (Sample + PySample))
    : Prop :=
  match after with
  | None => True
  | Some x =>
    delivery w l = None ∧
    ((∃ x0, before = Some x0 ∧ ∀ v, stands x0 v → stands x v) ∨
     ∃ v, x = inl v ∧ l = Takes w v)
  end.

Lemma carries_same w l x : delivery w l = None → carries_on w l x x.
Proof. destruct x; [|done]. intros. split; [done|]. left. eauto. Qed.

(** The dispatcher that moves. *)
Lemma mover_carries l s s' :
  dispatch_step l s s' →
  ∃ r, carries_on (ByDispatcher r) l (carried (dpcs s r)) (carried (dpcs s' r)) ∧
    ∀ r', r' ≠ r → delivery (ByDispatcher r') l = None ∧
      (dpcs s' r' = dpcs s r' ∨ r' = made s ∧ dpcs s' r' = Waiting).
Proof.
  destruct 1; exists r; rewrite dpcs_dgoto, decide_True by done;
    (split; [|intros r' Hr; rewrite dpcs_dgoto, decide_False by done; split]);
    try done; try (by left); try (apply (m_dpcs s); solve [eauto with calm]);
    try (unfold took, dropped; by destruct (SampleQueue.sample res)).
  - unfold took. cbn. destruct (SampleQueue.sample res) as [v|]; [|done]. split; [done|right; eauto].
  - rewrite H. by apply carries_same.
  - rewrite H. destruct (carried (dispatch_result res)) as [x|] eqn:E; [|done].
    destruct (dispatch_result_carried _ _ E) as (v & Hv & Hx). split; [done|]. left.
    exists (inl v). cbn. rewrite Hv. split; [done|]. by intros ? ->.
  - rewrite H. by apply carries_same.
  - cbn. by rewrite decide_False.
Qed.

(** A sample a dispatcher carries is the one it carried, perhaps converted, or the one it
    just took; and it is not being delivered. *)
Lemma dispatch_carried l s s' r :
  step l s s' →
  carries_on (ByDispatcher r) l (carried (dpcs s r)) (carried (dpcs s' r)).
Proof.
  intros Hs. destruct (others_dpcs _ _ _ Hs) as [H|[Hd Hl]].
  - destruct (mover_carries _ _ _ H) as (r0 & H0 & Ho). destruct (decide (r = r0)) as [->|E]; [done|].
    destruct (Ho r E) as [Hl [->|[_ ->]]]; [by apply carries_same|done].
  - destruct (Hd r) as [->|[_ ->]]; [by apply carries_same|done].
Qed.

Lemma call_carried s s' r c p :
  step (Calls r c p) s s' → carried (dpcs s r) = Some (inr p) ∧ dpcs s' r = InCallback c p.
Proof.
  intros Hs. inversion Hs as [? ? ? Hx|? ? ? Hx|? ? ? Hx|? ? ? Hx|? ? ? Hx|? ? ? Hx]; subst;
    inversion Hx; subst;
    try (exfalso; revert H; unfold after_join; by destruct k);
    try (exfalso; revert H; unfold dropped, took; by destruct (SampleQueue.sample _)).
  rewrite dpcs_dgoto, decide_True by done.
  by match goal with H : dpcs s r = Fetch p |- _ => rewrite H end.
Qed.

Lemma carried_serving d x : carried d = Some x → serving d = true.
Proof. by destruct d. Qed.

(** What a dispatcher has on its way stays in its run. *)
Lemma dispatch_hold_step l s s' r x :
  Inv s → step l s s' → carried (dpcs s' r) = Some x →
  run_token s' = run_token s ∧ delivery (ByDispatcher r) l = None ∧
  ((∃ x0, carried (dpcs s r) = Some x0 ∧ ∀ v, stands x0 v → stands x v) ∨
   ∃ v, x = inl v ∧ l = Takes (ByDispatcher r) v).
Proof.
  intros HI Hs Hx. pose proof (dispatch_carried _ _ _ r Hs) as H. rewrite Hx in H.
  destruct H as [Hl H]. split_and!; [|done..].
  destruct (step_token _ _ _ HI Hs) as [|(_ & _ & (t & y & ->) & Hno)]; [done|].
  destruct H as [(x0 & E%carried_serving & _)|(v & _ & ?)]; [|done]. by rewrite Hno in E.
Qed.

(** ** Generators *)

(** The generator a thread executes. *)
Definition iter_of (pc : Pc) : option nat :=
  match pc with
  | IterCheck i | IterEnter i | IterReading i _ | IterGot i _ | IterClosed i => Some i
  | _ => None
  end.

(** A generator is executed by one thread at most, and says that it is executing. *)
Record Engaged (s : State) : Prop := {
  g_executing : ∀ t i, iter_of (pcs s t) = Some i →
    (i < generators s)%nat ∧ iter_state (iters s i) = Executing;
  g_unique : ∀ t1 t2 i, iter_of (pcs s t1) = Some i → iter_of (pcs s t2) = Some i → t1 = t2
}.

Lemma executing_frame s s' :
  Engaged s → pcs s' = pcs s → (generators s ≤ generators s')%nat →
  (∀ i, (i < generators s)%nat → iters s' i = iters s i) → Engaged s'.
Proof.
  intros [He Hu] Hp Hg Hi. split; rewrite Hp; [|done].
  intros t i H. destruct (He t i H). rewrite Hi by done. split; [lia|done].
Qed.

Lemma engaged_calm s s' : Calm s s' → Engaged s → Engaged s'.
Proof.
  intros [Hp Hi Hg _ _ _] HE. eapply executing_frame; [done..|by rewrite Hg|].
  intros; by rewrite Hi.
Qed.

Lemma engaged_goto t pc s :
  Engaged s → iter_of pc = None ∨ iter_of pc = iter_of (pcs s t) → Engaged (goto t pc s).
Proof.
  intros [He Hu] Hpc.
  assert (∀ t' i, iter_of (pcs (goto t pc s) t') = Some i → iter_of (pcs s t') = Some i) as H.
  { intros t' i. rewrite client_pcs_goto. case_decide; [subst|done].
    by destruct Hpc as [->| ->]. }
  split; [intros; by eapply He, H|intros; by eapply Hu; apply H].
Qed.

Lemma iters_on_iter t pc i st s j :
  iters (goto t pc (on_iter i st s)) j =
  if decide (j = i) then (iters s i) <| iter_state := st |> else iters s j.
Proof.
  change (iters (goto t pc (on_iter i st s)))
    with (<[i := (iters s i) <| iter_state := st |>]> (iters s)).
  case_decide; [subst; apply fn_lookup_insert|by apply fn_lookup_insert_ne].
Qed.

(** The thread that executes [i] leaves it. *)
Lemma engaged_leave t i st s :
  Engaged s → iter_of (pcs s t) = Some i → Engaged (goto t Idle (on_iter i st s)).
Proof.
  intros [He Hu] Ht.
  assert (∀ t' j, iter_of (pcs (goto t Idle (on_iter i st s)) t') = Some j →
    iter_of (pcs s t') = Some j ∧ j ≠ i) as H.
  { intros t' j. rewrite client_pcs_goto. case_decide as E; [done|]. intros H. split; [done|].
    intros ->. apply E. by eapply Hu. }
  split.
  - intros t' j Hj. destruct (H _ _ Hj) as [Hj' Hne]. destruct (He _ _ Hj').
    split; [done|]. by rewrite iters_on_iter, decide_False.
  - intros t1 t2 j H1 H2. destruct (H _ _ H1), (H _ _ H2). by eapply Hu.
Qed.

(** An idle thread begins to execute [i], which nobody does. *)
Lemma engaged_next t i s :
  Engaged s → (i < generators s)%nat → iter_state (iters s i) = Suspended →
  Engaged (goto t (IterCheck i) (on_iter i Executing s)).
Proof.
  intros [He Hu] Hi Hs.
  assert (∀ t' j, iter_of (pcs (goto t (IterCheck i) (on_iter i Executing s)) t') = Some j →
    t' = t ∧ j = i ∨ t' ≠ t ∧ j ≠ i ∧ iter_of (pcs s t') = Some j) as H.
  { intros t' j. rewrite client_pcs_goto. case_decide as E; cbn [iter_of]; [intros [= <-]; by left|].
    intros H. right. split_and!; [done| |done]. intros ->. destruct (He _ _ H). congruence. }
  split.
  - intros t' j Hj. rewrite iters_on_iter. destruct (H _ _ Hj) as [[-> ->]|(_ & Hne & Hj')].
    + by rewrite decide_True.
    + rewrite decide_False by done. by apply (He t').
  - intros t1 t2 j H1 H2. destruct (H _ _ H1) as [[]|(? & ? & ?)], (H _ _ H2) as [[]|(? & ? & ?)];
      subst; try done. by eapply Hu.
Qed.

Lemma engaged_samples timed s x s' : samples timed s = (x, s') → Engaged s → Engaged s'.
Proof.
  intros E HE. destruct (samples_frame _ _ _ _ E) as (_ & Hp & _ & [[Hi Hg]|(g & Hi & Hg)]).
  - eapply executing_frame; [done..|by rewrite Hg|]. by rewrite Hi.
  - eapply executing_frame; [done..|rewrite Hg; lia|]. intros i H.
    rewrite Hi, fn_lookup_insert_ne; [done|lia].
Qed.

(** A critical section, after which the thread is in no generator or in the same one. *)
Lemma engaged_section t pc s s' :
  Engaged s → Calm s s' → iter_of pc = None ∨ iter_of pc = iter_of (pcs s t) →
  Engaged (goto t pc s').
Proof.
  intros HE HC Hpc. apply engaged_goto; [by eapply engaged_calm|]. by rewrite (m_pcs s s').
Qed.

Lemma engaged_section_leave t i st s s' :
  Engaged s → Calm s s' → iter_of (pcs s t) = Some i → Engaged (goto t Idle (on_iter i st s')).
Proof.
  intros HE HC Hpc. apply engaged_leave; [by eapply engaged_calm|]. by rewrite (m_pcs s s').
Qed.

Lemma dispatch_frame l s s' :
  dispatch_step l s s' → pcs s' = pcs s ∧ iters s' = iters s ∧ generators s' = generators s.
Proof.
  assert (∀ r d s0, Calm s s0 → pcs (dgoto r d s0) = pcs s ∧ iters (dgoto r d s0) = iters s ∧
    generators (dgoto r d s0) = generators s) as Hc by (by intros r d s0 []).
  destruct 1; try done; apply Hc; eauto with calm.
Qed.

Lemma engaged_step l s s' : step l s s' → Engaged s → Engaged s'.
Proof.
  intros Hs HE. destruct Hs as [l s s' H|l s s' H|l s s' H|l s s' H|l s s' H|l s s' H].
  - destruct H; eauto using engaged_samples, engaged_next, engaged_calm, engaged_section with calm.
  - destruct H; try (eapply engaged_section; [done|solve [eauto with calm]|by left]).
    eapply engaged_section; [done|solve [eauto with calm]|]. left. by destruct k.
  - destruct H; by apply engaged_goto; [|left].
  - destruct H;
      first [eapply engaged_section_leave; [done|solve [eauto with calm]|by rewrite H]
            |apply engaged_goto; [|right; cbn; by rewrite H]; by apply (executing_frame s)].
  - destruct (dispatch_frame _ _ _ H) as (Hp & Hi & Hg).
    eapply executing_frame; [done..|by rewrite Hg|by rewrite Hi].
  - destruct H; by apply (executing_frame s).
Qed.
(** What a step does to the tokens: that of the client grows, those of generators stay, and
    a new generator has that of the client. *)
Record Dates (s s' : State) : Prop := {
  t_grows : (run_token s ≤ run_token s')%nat;
  t_keeps : ∀ i, (i < generators s)%nat → iter_token (iters s' i) = iter_token (iters s i);
  t_new : ∀ i, (generators s ≤ i < generators s')%nat → iter_token (iters s' i) = run_token s'
}.

Lemma dates_frame s s' :
  (run_token s ≤ run_token s')%nat → iters s' = iters s → generators s' = generators s → Dates s s'.
Proof. intros ? Hi Hg. split; [done|by rewrite Hi|]. rewrite Hg. lia. Qed.

Lemma calm_dates t pc s s' : Calm s s' → Dates s (goto t pc s').
Proof.
  intros [_ Hi Hg _ _ Ht]. unfold goto. split; cbn; [done|by rewrite Hi|]. rewrite Hg. lia.
Qed.

Lemma samples_dates timed s x s' : samples timed s = (x, s') → Dates s s'.
Proof.
  unfold samples. destruct (_ || _); intros [= _ <-]; split; cbn; intros; try lia.
  - rewrite fn_lookup_insert_ne; [done|lia].
  - replace i with (generators s) by lia. by rewrite fn_lookup_insert.
Qed.

Lemma on_iter_dates t pc i st s s' : Calm s s' → Dates s (goto t pc (on_iter i st s')).
Proof.
  intros [_ Hi Hg _ _ Ht]. split; [done| |].
  - intros j _. rewrite iters_on_iter, Hi. by case_decide; subst.
  - unfold goto, on_iter. cbn. rewrite Hg. lia.
Qed.

Lemma step_dates l s s' : step l s s' → Dates s s'.
Proof.
  intros Hs. destruct Hs as [l s s' H|l s s' H|l s s' H|l s s' H|l s s' H|l s s' H].
  - destruct H; eauto using samples_dates, calm_dates, on_iter_dates with calm;
      try by apply dates_frame.
    apply calm_stop_section in H0 as []. by apply dates_frame.
  - destruct H; eauto using calm_dates with calm.
  - destruct H; eauto using calm_dates with calm.
  - destruct H; eauto using calm_dates, on_iter_dates with calm. by apply dates_frame.
  - destruct (dispatch_frame _ _ _ H) as (_ & ? & ?). apply dates_frame; [|done..].
    destruct H; try done; strip; apply (m_token s); eauto with calm.
  - by destruct H; apply dates_frame.
Qed.

(** No generator is of a run to come. *)
Definition Dated (s : State) : Prop :=
  ∀ i, (i < generators s)%nat → (iter_token (iters s i) ≤ run_token s)%nat.

Lemma dated_step l s s' : step l s s' → Dated s → Dated s'.
Proof.
  intros [Hg Hk Hn]%step_dates HD i Hi. destruct (decide (i < generators s)%nat) as [E|].
  - rewrite Hk by done. specialize (HD i E). lia.
  - rewrite Hn; lia.
Qed.

(** A sample a thread holds for the generator [i] was taken for it, before or just now. *)
Lemma got_taken l s s' t i res :
  step l s s' → pcs s' t = IterGot i res →
  pcs s t = IterGot i res ∨
  (∃ e, pcs s t = IterReading i e) ∧ l = took (ByIterator i) res ∧ read_ok res.
Proof.
  assert (∀ s0 s1, Calm s0 s1 → pcs s1 t = IterGot i res → pcs s0 t = IterGot i res) as Hc.
  { intros s0 s1 [-> _ _ _ _ _]. done. }
  intros Hs. destruct Hs as [l s s' H|l s s' H|l s s' H|l s s' H|l s s' H|l s s' H];
    [| | | |by left; destruct (dispatch_frame _ _ _ H) as (<- & _)|by left; destruct H].
  all: destruct H; try rewrite client_pcs_goto; repeat case_decide; subst; try done;
    try (left; by eauto with calm).
  - destruct (samples_frame _ _ _ _ H0) as (_ & -> & _). by left.
  - destruct (samples_frame _ _ _ _ H0) as (_ & -> & _). by left.
  - by destruct k.
  - intros [= -> ->]. right. split_and!; [by exists e|done|by eapply native_read_ok].
Qed.

Lemma yields_idle t i p s s' : step (Yields t i p) s s' → pcs s' t = Idle.
Proof.
  intros Hs. inversion Hs as [? ? ? Hx|? ? ? Hx|? ? ? Hx|? ? ? Hx|? ? ? Hx|? ? ? Hx]; subst;
    inversion Hx; subst;
    try (exfalso; revert H; unfold after_join; by destruct k);
    try (exfalso; revert H; unfold dropped, took; by destruct (SampleQueue.sample _)).
  by rewrite client_pcs_goto, decide_True.
Qed.

(** What the generator [i] has on its way. *)
Definition iter_has (i : nat) (s : State) (x : Sample + PySample) : Prop :=
  ∃ t res v, pcs s t = IterGot i res ∧ SampleQueue.sample res = Some v ∧ x = inl v.

(** It was so before, or was just taken; and it is not being delivered. *)
Lemma iter_has_step i l s s' x :
  Engaged s → step l s s' → iter_has i s' x →
  (i < generators s)%nat ∧ delivery (ByIterator i) l = None ∧
  (iter_has i s x ∨ ∃ v, x = inl v ∧ l = Takes (ByIterator i) v).
Proof.
  intros HE Hs (t & res & v & Ht & Hv & ->).
  pose proof (got_taken _ _ _ _ _ _ Hs Ht) as Hgot. split.
  { apply (g_executing s HE t). destruct Hgot as [->|[[e ->] _]]; done. }
  destruct Hgot as [E|(_ & -> & _)].
  2: { unfold took. rewrite Hv. split; [done|]. right. eauto. }
  split; [|left; by exists t, res, v].
  destruct l; cbn; try done. case_decide; [subst|done]. exfalso.
  destruct (yields_current _ _ _ _ _ Hs) as (res' & E' & _).
  assert (t = t0) as -> by (eapply (g_unique s HE); [by rewrite E|by rewrite E']).
  rewrite (yields_idle _ _ _ _ _ Hs) in Ht. done.
Qed.

(** The same, if the run of the generator is current and one of [K]. *)
Definition iter_holds (K : nat → bool) (i : nat) (s : State) (x : Sample + PySample) : Prop :=
  K (run_token s) = true ∧ iter_token (iters s i) = run_token s ∧ iter_has i s x.

Lemma iter_hold_step K i l s s' x :
  Engaged s ∧ Dated s → step l s s' → iter_holds K i s' x →
  K (run_token s) = true ∧ delivery (ByIterator i) l = None ∧
  ((∃ x0, iter_holds K i s x0 ∧ ∀ v, stands x0 v → stands x v) ∨
   ∃ v, x = inl v ∧ taken_by (ByIterator i) l = Some v).
Proof.
  intros [HE HD] Hs (Hk & Hi & Hx).
  destruct (iter_has_step _ _ _ _ _ HE Hs Hx) as (Hlt & Hl & H).
  destruct (step_dates _ _ _ Hs) as [Hg Hkeep _]. rewrite (Hkeep i Hlt) in Hi.
  assert (run_token s' = run_token s) as Er by (specialize (HD i Hlt); lia).
  rewrite Er in Hk, Hi. split_and!; [done..|]. destruct H as [H|(v & -> & ->)].
  - left. by exists x.
  - right. exists v. by rewrite taken_by_self.
Qed.

Lemma iter_delivers K i l s s' p :
  step l s s' → K (run_token s) = true → delivery (ByIterator i) l = Some p →
  ∃ x, iter_holds K i s x ∧ ∀ v, stands x v → converts v p.
Proof.
  intros Hs Hk. destruct l; cbn; try done. case_decide; [subst|done]. intros [= ->].
  destruct (yields_current _ _ _ _ _ Hs) as (res & E & Hc & Ey).
  apply iterator_current_iff in Hc as (_ & _ & Hc). unfold iterate_result in Ey.
  destruct (SampleQueue.status res); try done.
  destruct (SampleQueue.sample res) as [v|] eqn:Ev; [|done].
  destruct (to_sample v) eqn:Ec; simplify_eq/=.
  exists (inl v). split; [by split_and!; [..|exists t, res, v]|]. by intros ? <-.
Qed.

(** ** Histories of deliveries *)

Section Histories.
(** What is on its way through a reader in runs of [K], what a step delivers and what it
    takes, in states that satisfy [P]. *)
Context (K : nat → bool) (P : State → Prop) (hold : State → Sample + PySample → Prop).
Context (deliver : Event → option PySample) (taken : Event → option Sample).
Hypothesis P_step : ∀ l s s', step l s s' → P s → P s'.
Hypothesis hold_step : ∀ l s s' x, P s → step l s s' → hold s' x →
  K (run_token s) = true ∧ deliver l = None ∧
  ((∃ x0, hold s x0 ∧ ∀ v, stands x0 v → stands x v) ∨ ∃ v, x = inl v ∧ taken l = Some v).
Hypothesis deliver_held : ∀ l s s' p, P s → step l s s' → K (run_token s) = true →
  deliver l = Some p → ∃ x, hold s x ∧ ∀ v, stands x v → converts v p.

(** Deliveries are conversions of what was taken, in order; what is on its way comes next. *)
Lemma history s0 ls s :
  P s0 → (∀ x, ¬ hold s0 x) → trace s0 ls s →
  P s ∧ ∃ vs, Forall2 converts vs (omap deliver (during K ls)) ∧
    vs `sublist_of` omap taken (during K ls) ∧
    ∀ x, hold s x → ∃ v, stands x v ∧ vs ++ [v] `sublist_of` omap taken (during K ls).
Proof.
  intros H0 Hn. induction 1 as [|ls l s s' _ IH Hs].
  { split; [done|]. exists []. split_and!; [constructor|done|]. intros x Hx. by destruct (Hn x). }
  destruct IH as (HP & vs & Hc & Hsub & Hh). split; [by eapply P_step|]. rewrite during_snoc.
  destruct (K (run_token s)) eqn:Ek.
  2: { exists vs. split_and!; [done..|]. intros x Hx.
       destruct (hold_step _ _ _ _ HP Hs Hx) as [? _]. congruence. }
  rewrite !history_snoc. set (us := omap taken (during K ls)) in *.
  assert (∀ ws, ws `sublist_of` us → ws `sublist_of` us ++ option_list (taken l)) as Hmore
    by (intros; by apply sublist_inserts_r).
  destruct (deliver l) as [p|] eqn:El; cbn [option_list].
  - destruct (deliver_held _ _ _ _ HP Hs Ek El) as (x & Hx & Hp).
    destruct (Hh x Hx) as (v & Hv & Hvs). exists (vs ++ [v]). split_and!; [|by apply Hmore|].
    + apply Forall2_app; [done|]. constructor; [by apply Hp|constructor].
    + intros y Hy. destruct (hold_step _ _ _ _ HP Hs Hy) as (_ & ? & _). congruence.
  - exists vs. rewrite app_nil_r. split_and!; [done|by apply Hmore|]. intros y Hy.
    destruct (hold_step _ _ _ _ HP Hs Hy) as (_ & _ & [(x & Hx & Hxy)|(v & -> & ->)]).
    + destruct (Hh x Hx) as (v & ? & ?). exists v. auto.
    + exists v. split; [done|]. by apply sublist_app.
Qed.
End Histories.

Lemma initial_engaged c n : Engaged (initial c n).
Proof. by split. Qed.

(** A generator. *)
Lemma iterator_history K c n ls s i :
  trace (initial c n) ls s →
  ∃ vs, Forall2 converts vs (deliveries (ByIterator i) (during K ls)) ∧
    vs `sublist_of` takes_of (ByIterator i) (during K ls).
Proof.
  intros Ht.
  edestruct (history K (λ s, Engaged s ∧ Dated s) (iter_holds K i) (delivery (ByIterator i))
    (taken_by (ByIterator i))) as (_ & vs & ? & ? & _); [..|exact Ht|by exists vs].
  - intros l s1 s2 Hs []. split; [by eapply engaged_step|by eapply dated_step].
  - apply iter_hold_step.
  - intros l s1 s2 p _. apply iter_delivers.
  - split; [apply initial_engaged|]. intros j Hj. cbn in Hj. lia.
  - by intros x (_ & _ & t & res & v & ? & _).
Qed.

(** The dispatcher of a run. *)
Lemma dispatcher_history K c n ls s r :
  n_running n = false → trace (initial c n) ls s →
  ∃ vs, Forall2 converts vs (deliveries (ByDispatcher r) (during K ls)) ∧
    vs `sublist_of` takes_of (ByDispatcher r) (during K ls).
Proof.
  intros Hn Ht.
  edestruct (history K Inv (λ s x, K (run_token s) = true ∧ carried (dpcs s r) = Some x)
    (delivery (ByDispatcher r)) (taken_by (ByDispatcher r)))
    as (_ & vs & ? & ? & _); [..|exact Ht|by exists vs].
  - apply py_step_inv.
  - intros l s1 s2 x HI Hs [Hk Hx].
    destruct (dispatch_hold_step _ _ _ _ _ HI Hs Hx) as (E & Hl & H). rewrite E in Hk.
    split_and!; [done..|]. destruct H as [(x0 & ? & ?)|(v & -> & ->)]; [by eauto|].
    right. exists v. by rewrite taken_by_self.
  - intros l s1 s2 p _ Hs Hk. destruct l; cbn; try done. case_decide; [subst|done]. intros [= ->].
    destruct (call_carried _ _ _ _ _ Hs) as [? _]. by exists (inr p).
  - by apply py_initial_inv.
  - by intros x (_ & ?).
Qed.

(** The callback calls of all dispatchers. *)
Lemma calls_history K c n ls s :
  n_running n = false → trace (initial c n) ls s →
  ∃ vs, Forall2 converts vs (calls (during K ls)) ∧ vs `sublist_of` takes (during K ls).
Proof.
  intros Hn Ht.
  edestruct (history K Inv (λ s x, K (run_token s) = true ∧ ∃ r, carried (dpcs s r) = Some x)
    (λ l, match l with Calls _ _ p => Some p | _ => None end)
    (λ l, match l with Takes _ v => Some v | _ => None end))
    as (_ & vs & ? & ? & _); [..|exact Ht|by exists vs].
  - apply py_step_inv.
  - intros l s1 s2 x HI Hs (Hk & r & Hr).
    destruct (dispatch_hold_step _ _ _ _ _ HI Hs Hr) as (E & _ & Hx). rewrite E in Hk.
    split_and!; [done|..].
    + destruct l as [| | | | |r0 c0 p0| |]; try done. exfalso.
      destruct (call_carried _ _ _ _ _ Hs) as [_ Hd].
      destruct (py_step_inv _ _ _ Hs HI) as (HT & _).
      assert (r = r0) as ->; [|by rewrite Hd in Hr].
      apply (serving_unique s2 _ _ HT); [by eapply carried_serving|by rewrite Hd].
    + destruct Hx as [(x0 & ? & ?)|(v & -> & ->)]; eauto 6.
  - intros l s1 s2 p _ Hs Hk. destruct l as [| | | | |r0 c0 p0| |]; try done. intros [= ->].
    destruct (call_carried _ _ _ _ _ Hs) as [? _]. exists (inr p). eauto.
  - by apply py_initial_inv.
  - by intros x (_ & r & ?).
Qed.

(** C7: what reaches Python, over every run of any number of threads. In each set [K] of
    runs of the client (one run, or all), the samples readers took from the native queue
    are a subsequence of those the worker pushed in the same runs: none is invented,
    repeated, reordered or carried over a restart. What a generator yielded and what a
    dispatcher called its callback with are the conversions, in order, of a subsequence of
    what that reader took in these runs; and so are all callback calls together, of
    whatever dispatchers, of what was taken. *)
Theorem python_deliveries K c capacity h ls s :
  trace (initial c (new_native capacity h)) ls s →
  let ls := during K ls in
  takes ls `sublist_of` pushes ls ∧
  (∀ w, ∃ vs, Forall2 converts vs (deliveries w ls) ∧ vs `sublist_of` takes_of w ls) ∧
  ∃ vs, Forall2 converts vs (calls ls) ∧ vs `sublist_of` takes ls.
Proof.
  intros Ht. split_and!.
  - destruct (taken_pushed K c (new_native capacity h) ls s eq_refl eq_refl Ht) as [_ H].
    etrans; [by apply sublist_inserts_r|exact H].
  - intros [i|r]; [by eapply iterator_history|].
    by apply (dispatcher_history K c (new_native capacity h) _ s).
  - by apply (calls_history K c (new_native capacity h) _ s).
Qed.

(** An iterator run, then a callback run in which one sample is pushed, taken and served. *)
Definition one_call : list (nat * Event) :=
  [(0, Quiet); (0, Ends (User 0) (Return ())); (1, Ends (User 1) (Return ())); (1, Quiet);
   (1, Quiet); (1, Ends (User 0) (Return ())); (1, Quiet); (1, Ends (User 0) (Return ()));
   (2, Pushes a_sample); (2, Quiet); (2, Quiet); (2, Quiet); (2, Quiet);
   (2, Takes (ByDispatcher 0) a_sample); (2, Quiet); (2, Quiet); (2, Quiet);
   (2, Calls 0 7 PyClientSafety.converted)]%nat.

Lemma trace_next s0 ls k l s s' :
  trace s0 ls s → step l s s' → k = run_token s → trace s0 (ls ++ [(k, l)]) s'.
Proof. intros ? ? ->. by eapply trace_step. Qed.

Lemma y9_trace : trace x0 one_call y9.
Proof.
  apply (trace_next x0 (take 17 one_call) 2 (Calls 0 7 PyClientSafety.converted) y8);
    [|by apply by_dispatch, d_callback|done].
  apply (trace_next x0 (take 16 one_call) 2 Quiet y7);
    [|by apply by_dispatch, d_call_current|done].
  apply (trace_next x0 (take 15 one_call) 2 Quiet y6);
    [|by apply by_dispatch, (d_result y6 0 got_sample)|done].
  apply (trace_next x0 (take 14 one_call) 2 Quiet y5); [|by apply by_dispatch, d_has_client|done].
  apply (trace_next x0 (take 13 one_call) 2 (took (ByDispatcher 0) got_sample) y4);
    [|apply by_dispatch, (d_read y4 0 read_epoch); [done|by apply read_sample]|done].
  apply (trace_next x0 (take 12 one_call) 2 Quiet y3); [|by apply by_dispatch, d_enter|done].
  apply (trace_next x0 (take 11 one_call) 2 Quiet y2); [|by apply by_dispatch, d_current|done].
  apply (trace_next x0 (take 10 one_call) 2 Quiet y1); [|by apply by_dispatch, d_client|done].
  apply (trace_next x0 (take 9 one_call) 2 Quiet x9); [|by apply by_dispatch, d_activated|done].
  apply (trace_next x0 (take 8 one_call) 2 (Pushes a_sample) x8);
    [|by apply by_outside, worker_pushes|done].
  apply (trace_next x0 (take 7 one_call) 1 (Ends (User 0) (Return ())) x7);
    [|by apply by_start_stop, (start_callback x7 (User 0) 7 AllWell)|done].
  apply (trace_next x0 (take 6 one_call) 1 Quiet x6);
    [|by apply by_call, (call_start x6 (User 0) (Some 7%nat))|done].
  apply (trace_next x0 (take 5 one_call) 1 (Ends (User 0) (Return ())) x5);
    [|by apply by_call, call_stop_done|done].
  apply (trace_next x0 (take 4 one_call) 1 Quiet x4); [|by apply by_iter, iter_current|done].
  apply (trace_next x0 (take 3 one_call) 1 Quiet x3);
    [|apply by_call, call_next; [done|cbv; lia|done]|done].
  apply (trace_next x0 (take 2 one_call) 1 (Ends (User 1) (Return ())) x2);
    [|by apply by_call, (call_samples x2 (User 1) false 0)|done].
  apply (trace_next x0 (take 1 one_call) 0 (Ends (User 0) (Return ())) x1);
    [|by apply by_start_stop, (start_iterator x1 (User 0) None)|done].
  apply (trace_next x0 [] 0 Quiet x0); [|by apply by_call, (call_start x0 (User 0) None)|done].
  constructor.
Qed.

Lemma python_deliveries_witness :
  let ls := during (λ k, k =? 2)%nat one_call in
  calls ls = [PyClientSafety.converted] ∧ pushes ls = [a_sample] ∧
  ∃ vs, Forall2 converts vs (calls ls) ∧ vs `sublist_of` takes ls.
Proof.
  split; [reflexivity|]. split; [reflexivity|].
  by apply (proj2 (proj2 (python_deliveries (λ k, k =? 2)%nat None 4
    HealthSnapshot.default_HealthSnapshot one_call y9 y9_trace))).
Defined.

End PyDelivery.
