(* ===== verification/PyLossless.v ===== *)
(** * Nothing is lost on the way to Python

    The converse of [PyDelivery]: a sample a generator or a dispatcher took from the native
    queue is delivered, unless the reader's run is over when it looks again. The samples a
    reader took are, in order, those it delivered and at most one that is on its way. *)

From Stdlib Require Import ZArith Lia.
From stdpp Require Import functions relations.
From S2P Require Import Prelude Types SampleQueue QueueSpec Conversion Client PyClient PyClientSafety PyDelivery.
Import Conversion PyClient PyClientSafety PyDelivery.

Module PyLossless.

(** A step that drops no sample. *)
Definition kept (l : Event) : bool :=
  match l with Drops _ | Forgets _ => false | _ => true end.

(** What is on its way through a reader. *)
Definition holding (w : Consumer) (s : State) (x : Sample + PySample) : Prop :=
  match w with
  | ByIterator i => iter_has i s x
  | ByDispatcher r => carried (dpcs s r) = Some x
  end.

(** The run of the reader is over, or the client is gone. *)
Definition over (s : State) (w : Consumer) : bool :=
  match w with
  | ByIterator i => negb (_iterator_is_current (iter_token (iters s i)) s)
  | ByDispatcher r => collected s || negb (_callback_run_is_current r s)
  end.

Definition convertible (v : Sample) : Prop := ∃ p, converts v p.

(** ** Results under way *)

Record Reads (s : State) : Prop := {
  r_iter : ∀ t i res, pcs s t = IterGot i res → read_ok res;
  r_dispatch : ∀ r res, dpcs s r = AfterRead res ∨ dpcs s r = CheckAgain res → read_ok res
}.

Lemma dispatch_reads l s s' r res :
  step l s s' → dpcs s' r = AfterRead res ∨ dpcs s' r = CheckAgain res →
  (dpcs s r = AfterRead res ∨ dpcs s r = CheckAgain res) ∨ read_ok res.
Proof.
  intros Hs. destruct (others_dpcs _ _ _ Hs) as [H|[Hd _]].
  2: { destruct (Hd r) as [->|[_ ->]]; [by left|by intros []]. }
  assert (∀ s0, Calm s s0 → dpcs s0 r = AfterRead res ∨ dpcs s0 r = CheckAgain res →
    (dpcs s r = AfterRead res ∨ dpcs s r = CheckAgain res) ∨ read_ok res) as Hc.
  { intros s0 HC. destruct (m_dpcs s s0 HC r) as [->|[_ ->]]; [by left|by intros []]. }
  destruct H; rewrite dpcs_dgoto; case_decide; subst; try (by intros [[=]|[=]]); try (by left);
    eauto using calm_closed, calm_record.
  - intros [[= ->]|[=]]. right. by eapply native_read_ok.
  - intros [[=]|[= ->]]. by left; left.
  - unfold dispatch_result. by repeat case_match; intros [|].
Qed.

Lemma reads_step l s s' : step l s s' → Reads s → Reads s'.
Proof.
  intros Hs [Hi Hd]. split.
  - intros t i res E. destruct (got_taken _ _ _ _ _ _ Hs E) as [E'|(_ & _ & ?)]; eauto.
  - intros r res E. destruct (dispatch_reads _ _ _ _ _ Hs E); eauto.
Qed.

(** ** Taking *)

Lemma take_inv w v s s' :
  step (Takes w v) s s' →
  match w with
  | ByIterator i => ∃ t e res, pcs s t = IterReading i e ∧ pcs s' t = IterGot i res ∧
      SampleQueue.sample res = Some v
  | ByDispatcher r => ∃ e res, dpcs s r = Reading e ∧ dpcs s' r = AfterRead res ∧
      SampleQueue.sample res = Some v
  end.
Proof.
  intros Hs. inversion Hs as [? ? ? Hx|? ? ? Hx|? ? ? Hx|? ? ? Hx|? ? ? Hx|? ? ? Hx]; subst;
    inversion Hx; subst; try (exfalso; revert H; unfold after_join; by destruct k);
    try (exfalso; revert H; unfold dropped; by destruct (SampleQueue.sample _)).
  - revert H. unfold took. destruct (SampleQueue.sample res) eqn:E; [|done]. intros [= <- <-].
    exists t, e, res. split_and!; [done|by rewrite client_pcs_goto, decide_True|done].
  - revert H. unfold took. destruct (SampleQueue.sample res) eqn:E; [|done]. intros [= <- <-].
    exists e, res. split_and!; [done|by rewrite dpcs_dgoto, decide_True|done].
Qed.

Lemma take_holds w v s s' :
  Engaged s → step (Takes w v) s s' → (∀ x, ¬ holding w s x) ∧ holding w s' (inl v).
Proof.
  intros HE Hs. pose proof (take_inv _ _ _ _ Hs) as H. destruct w as [i|r]; cbn [holding].
  - destruct H as (t & e & res & E & E' & Hv). split; [|by exists t, res, v].
    intros x (t' & res' & v' & Et & _).
    assert (t' = t) as -> by (eapply (g_unique s HE); [by rewrite Et|by rewrite E]). congruence.
  - destruct H as (e & res & E & E' & Hv). rewrite E, E'. cbn. by rewrite Hv.
Qed.

(** ** Keeping *)

(** A generator's sample is still there after a step that neither drops nor yields it. *)
Lemma iter_keeps l s s' t i res v :
  step l s s' → pcs s t = IterGot i res → SampleQueue.sample res = Some v → read_ok res →
  convertible v → kept l = true → delivery (ByIterator i) l = None → pcs s' t = IterGot i res.
Proof.
  intros Hs Ht Hv Hok [p Hp] Hk Hd.
  assert (iterate_result res = Yield p) as Hy.
  { unfold iterate_result. rewrite (Hok v Hv), Hv. unfold converts in Hp. by rewrite Hp. }
  assert (∀ t0, may_call t0 s = true → t0 ≠ t) as Hm.
  { intros t0 (_ & E & _)%may_call_inv ->. congruence. }
  assert (∀ t0 pc s0, t0 ≠ t → pcs s0 = pcs s → pcs (goto t0 pc s0) t = IterGot i res) as Hc.
  { intros t0 pc s0 Hne E. by rewrite client_pcs_goto, decide_False, E. }
  destruct Hs as [l s s' H|l s s' H|l s s' H|l s s' H|l s s' H|l s s' H].
  - destruct H; try done; try (apply Hc; [by apply Hm|]); try done.
    + by apply m_pcs, (calm_stop_section t0 s (Some r)).
    + by rewrite (m_pcs _ _ (calm_stop_section _ _ _ _ H0)).
    + by destruct (samples_frame _ _ _ _ H0) as (_ & -> & _).
    + by destruct (samples_frame _ _ _ _ H0) as (_ & -> & _).
  - destruct H; (apply Hc; [intros ->; congruence|]); try done; apply m_pcs; eauto with calm.
  - destruct H; (apply Hc; [intros ->; congruence|]); done.
  - destruct H; destruct (decide (t0 = t)) as [->|Hne]; try congruence; try (by apply Hc);
      try (rewrite Ht in H; simplify_eq).
    + revert Hk. unfold dropped. by rewrite Hv.
    + cbn in Hd. by rewrite decide_True in Hd.
    + apply Hc; [done|]. exact (m_pcs _ _ (calm_fault _ _ _ _ H0)).
  - by destruct (dispatch_frame _ _ _ H) as (-> & _).
  - by destruct H.
Qed.

(** So is a dispatcher's, perhaps converted. *)
Lemma dispatch_keeps l s s' r x v :
  Inv s → Reads s → step l s s' → carried (dpcs s r) = Some x → stands x v → convertible v →
  kept l = true → delivery (ByDispatcher r) l = None →
  ∃ x', carried (dpcs s' r) = Some x' ∧ stands x' v.
Proof.
  intros (HT & _) HR Hs Hx Hv [p Hp] Hk Hd.
  assert (dpcs s' r = dpcs s r ∨ r = made s ∧ dpcs s' r = Waiting →
    ∃ x', carried (dpcs s' r) = Some x' ∧ stands x' v) as Hsame.
  { intros [->|[-> _]]; [by eauto|]. by rewrite (i_fresh s HT) in Hx. }
  destruct (others_dpcs _ _ _ Hs) as [H|[Ho _]]; [|by apply Hsame].
  destruct H; (destruct (decide (r = r0)) as [->|Hne];
    [|apply Hsame; rewrite dpcs_dgoto, decide_False by done; try (by left)]);
    rewrite ?H in Hx; try done; rewrite ?dpcs_dgoto, ?decide_True by done.
  - revert Hk. unfold dropped. cbn in Hx. by destruct (SampleQueue.sample res).
  - by exists x.
  - revert Hk. unfold dropped. cbn in Hx. by destruct (SampleQueue.sample res).
  - cbn in Hx. destruct (SampleQueue.sample res) as [v'|] eqn:E; simplify_eq/=. exists (inr p).
    unfold dispatch_result. rewrite (r_dispatch s HR r0 res (or_intror H) v E), E.
    unfold converts in Hp. by rewrite Hp.
  - by exists x.
  - cbn in Hd. by rewrite decide_True in Hd.
  - exact (m_dpcs _ _ (calm_closed _ _ _ _ H0) r).
  - exact (m_dpcs _ _ (calm_closed _ _ _ _ H0) r).
  - exact (m_dpcs _ _ (calm_record _ _ _) r).
Qed.

(** ** Accounting *)

(** The states the accounting is about. *)
Definition Sound (s : State) : Prop := Inv s ∧ Engaged s ∧ Reads s.

Lemma sound_step l s s' : step l s s' → Sound s → Sound s'.
Proof.
  intros Hs (? & ? & ?).
  split_and!; [by eapply py_step_inv|by eapply engaged_step|by eapply reads_step].
Qed.

Lemma sound_initial c n : n_running n = false → Sound (initial c n).
Proof. intros. split_and!; [by apply py_initial_inv|apply initial_engaged|]. by split; [|intros ? ? []]. Qed.

Lemma holding_keeps w l s s' x v :
  Sound s → step l s s' → holding w s x → stands x v → convertible v →
  kept l = true → delivery w l = None → ∃ x', holding w s' x' ∧ stands x' v.
Proof.
  intros (HI & HE & HR) Hs Hx Hv Hc Hk Hd. destruct w as [i|r]; [|by eapply dispatch_keeps].
  destruct Hx as (t & res & u & Ht & Hu & ->). cbn in Hv. subst u. exists (inl v).
  split; [|done]. exists t, res, v. split_and!; [|done..].
  eapply iter_keeps; try done. by eapply r_iter.
Qed.

Lemma holding_step w l s s' x :
  Sound s → step l s s' → holding w s' x →
  delivery w l = None ∧ ((∃ x0, holding w s x0) ∨ ∃ v, x = inl v ∧ l = Takes w v).
Proof.
  intros (HI & HE & _) Hs Hx. destruct w as [i|r].
  - destruct (iter_has_step _ _ _ _ _ HE Hs Hx) as (_ & ? & [|]); eauto.
  - destruct (dispatch_hold_step _ _ _ _ _ HI Hs Hx) as (_ & ? & [(x0 & ? & _)|?]); eauto.
Qed.

Lemma holding_unique w s x y : Sound s → holding w s x → holding w s y → x = y.
Proof.
  intros (_ & HE & _). destruct w as [i|r]; [|cbn; congruence].
  intros (t & res & v & Ht & Hv & ->) (t' & res' & v' & Ht' & Hv' & ->).
  assert (t' = t) as -> by (eapply (g_unique s HE); [by rewrite Ht'|by rewrite Ht]). congruence.
Qed.

Lemma delivery_held w l s s' p :
  step l s s' → delivery w l = Some p → ∃ x, holding w s x ∧ ∀ v, stands x v → converts v p.
Proof.
  intros Hs. destruct w as [i|r].
  - intros Hl. destruct (iter_delivers (λ _, true) i l s s' p Hs eq_refl Hl) as (x & (_ & _ & ?) & ?).
    by exists x.
  - destruct l; cbn; try done. case_decide; [subst|done]. intros [= ->].
    destruct (call_carried _ _ _ _ _ Hs) as [? _]. by exists (inr p).
Qed.

(** A reader's samples, accounted for: those it delivered, and one on its way or none. *)
Definition accounted (w : Consumer) (ls : list Event) (s : State) : Prop :=
  ∃ vs rest, takes_of w ls = vs ++ rest ∧ Forall2 converts vs (deliveries w ls) ∧
    (rest = [] ∧ (∀ x, ¬ holding w s x) ∨ ∃ x v, rest = [v] ∧ holding w s x ∧ stands x v).

Lemma accounted_take w v ls s s' :
  Sound s → step (Takes w v) s s' → accounted w ls s → accounted w (ls ++ [Takes w v]) s'.
Proof.
  intros (HI & HE & _) Hs (vs & rest & Ht & Hd & Hr).
  destruct (take_holds _ _ _ _ HE Hs) as [Hno Hh].
  destruct Hr as [[-> _]|(x & u & _ & Hx & _)]; [|by destruct (Hno x)].
  exists vs, [v]. unfold takes_of, deliveries in *. rewrite !history_snoc, taken_by_self, Ht.
  cbn. rewrite !app_nil_r. split_and!; [done|by destruct w|]. right. by exists (inl v), v.
Qed.

Lemma accounted_delivery w l p ls s s' :
  Sound s → step l s s' → delivery w l = Some p → accounted w ls s → accounted w (ls ++ [l]) s'.
Proof.
  intros HS Hs Hl (vs & rest & Ht & Hd & Hr).
  destruct (delivery_held _ _ _ _ _ Hs Hl) as (x & Hx & Hp).
  destruct Hr as [[_ Hno]|(y & v & -> & Hy & Hv)]; [by destruct (Hno x)|].
  rewrite (holding_unique _ _ _ _ HS Hy Hx) in Hv.
  assert (taken_by w l = None) as Hn by (by destruct l, w).
  exists (vs ++ [v]), []. unfold takes_of, deliveries in *. rewrite !history_snoc, Ht, Hl, Hn.
  cbn. rewrite !app_nil_r. split_and!; [done| |].
  - apply Forall2_app; [done|]. constructor; [by apply Hp|constructor].
  - left. split; [done|]. intros z Hz. destruct (holding_step _ _ _ _ _ HS Hs Hz). congruence.
Qed.

Lemma accounted_other w l ls s s' :
  Sound s → step l s s' → kept l = true → Forall convertible (takes_of w ls) →
  delivery w l = None → taken_by w l = None → accounted w ls s → accounted w (ls ++ [l]) s'.
Proof.
  intros HS Hs Hk Hc Hl Hn (vs & rest & Ht & Hd & Hr). exists vs, rest.
  rewrite Ht in Hc. unfold takes_of, deliveries in *. rewrite !history_snoc, Ht, Hl, Hn.
  cbn. rewrite !app_nil_r. split_and!; [done..|].
  destruct Hr as [[-> Hno]|(x & v & -> & Hx & Hv)].
  - left. split; [done|]. intros z Hz.
    destruct (holding_step _ _ _ _ _ HS Hs Hz) as [_ [(y & Hy)|(v & _ & ->)]].
    + by apply (Hno y).
    + by rewrite taken_by_self in Hn.
  - right. apply Forall_app in Hc as [_ Hc]. inversion Hc; subst.
    edestruct holding_keeps as (x' & ? & ?); [done..|]. by exists x', v.
Qed.

(** ** Dropping *)

(** Only a reader whose run is over drops what it took. *)
Lemma drops_over l s s' :
  Inv s → step l s s' → kept l = false → ∃ w x, holding w s x ∧ over s w = true.
Proof.
  intros (HT & HR & _) Hs Hk.
  assert (∀ res, kept (dropped res) = false → ∃ v, SampleQueue.sample res = Some v) as Hdrop.
  { intros res. unfold dropped. destruct (SampleQueue.sample res); [by eauto|done]. }
  destruct Hs as [l s s' H|l s s' H|l s s' H|l s s' H|l s s' H|l s s' H]; destruct H; try done;
    try (revert Hk; unfold took; by destruct (SampleQueue.sample res)).
  - by destruct k.
  - destruct (Hdrop res Hk) as [v Hv]. exists (ByIterator i), (inl v).
    split; [by exists t, res, v|]. cbn. by rewrite H0.
  - destruct (Hdrop res Hk) as [v Hv]. exists (ByDispatcher r), (inl v). cbn.
    rewrite H, H0. cbn. by rewrite Hv.
  - destruct (Hdrop res Hk) as [v Hv]. exists (ByDispatcher r), (inl v). cbn.
    rewrite H, H0. cbn. rewrite Hv, orb_true_r. done.
  - exists (ByDispatcher r), (inr p). cbn. rewrite H, H0. cbn. by rewrite orb_true_r.
  - exfalso. assert (serving (dpcs s r) = true) as Hser by (by rewrite H).
    pose proof (serving_published s r HT Hser) as Hp.
    assert (in_run (dpcs s r) = true) as Hin by (by rewrite H).
    by destruct (i_run s HR r Hin) as (_ & _ & _ & Hcb); apply (Hcb Hp).
Qed.

Lemma during_all ls : during (λ _, true) ls = ls.*2.
Proof. induction ls as [|[k l] ls IH]; [done|]. cbn. by rewrite <- IH. Qed.

Lemma takes_of_takes w ls : takes_of w ls `sublist_of` takes ls.
Proof.
  unfold takes_of, takes. induction ls as [|l ls IH]; [done|]. cbn.
  destruct l; cbn; try done. case_decide; [by apply sublist_skip|by apply sublist_cons].
Qed.

Lemma history_accounted c n ls s w :
  n_running n = false → QueueSpec.buffer (fifo n) = [] → trace (initial c n) ls s →
  Forall convertible (pushes ls.*2) → Forall (λ l, kept l = true) ls.*2 →
  Sound s ∧ accounted w ls.*2 s.
Proof.
  intros Hr Hn. induction 1 as [|ls l s s' Ht IH Hs]; intros Hc Hk.
  { split; [by apply sound_initial|]. exists [], []. split_and!; [done|constructor|]. left.
    split; [done|]. destruct w as [i|r]; [|done]. by intros x (t & res & v & ? & _). }
  rewrite fmap_app in Hc, Hk |- *. unfold pushes in Hc. rewrite omap_app in Hc.
  apply Forall_app in Hc as [Hc _], Hk as [Hk Hk1]. cbn in Hk1 |- *. inversion Hk1; subst.
  destruct (IH Hc Hk) as [HS Ha]. split; [by eapply sound_step|].
  destruct (delivery w l) as [p|] eqn:Hl; [by eapply accounted_delivery|].
  destruct (taken_by w l) as [v|] eqn:Hv.
  - destruct l; try done. cbn in Hv. case_decide; simplify_eq. by apply (accounted_take w v _ s).
  - apply (accounted_other w l _ s); try done.
    destruct (taken_pushed (λ _, true) c n ls s Hr Hn Ht) as [_ Hsub]. rewrite during_all in Hsub.
    rewrite Forall_forall in Hc |- *. intros v Hin. apply Hc.
    eapply elem_of_sublist; [exact Hin|]. etrans; [apply takes_of_takes|].
    etrans; [by apply sublist_inserts_r|exact Hsub].
Qed.

(** C8: nothing is lost on the way to Python. If the samples pushed are well typed, as
    those the core delivers are, and the history drops none, the samples each generator
    and each dispatcher took are exactly, in order, those it delivered, followed by the one
    on its way if there is one. And a sample is dropped only by a reader whose
    run is over at that moment, or whose client is gone: while its run lasts, a reader
    delivers all it takes. *)
Theorem python_lossless c capacity h ls s :
  trace (initial c (new_native capacity h)) ls s →
  (Forall Client.sample_ok (pushes ls.*2) → Forall (λ l, kept l = true) ls.*2 →
   ∀ w, accounted w ls.*2 s) ∧
  ∀ l s', step l s s' → kept l = false → ∃ w x, holding w s x ∧ over s w = true.
Proof.
  intros Ht. split.
  - intros Hc Hk w. eapply (history_accounted c (new_native capacity h)); [done..| |done].
    eapply Forall_impl; [exact Hc|]. intros v Hv.
    destruct (to_sample_total v Hv) as (p & Hp & _). by exists p.
  - intros l s' Hs Hk. eapply drops_over; [|done..].
    by destruct (taken_pushed (λ _, true) c (new_native capacity h) ls s eq_refl eq_refl Ht).
Qed.

Lemma python_lossless_witness :
  takes_of (ByDispatcher 0) one_call.*2 = [a_sample] ∧
  deliveries (ByDispatcher 0) one_call.*2 = [PyClientSafety.converted] ∧
  accounted (ByDispatcher 0) one_call.*2 y9.
Proof.
  split; [reflexivity|]. split; [reflexivity|].
  apply (proj1 (python_lossless None 4 HealthSnapshot.default_HealthSnapshot one_call y9 y9_trace)).
  - constructor; [|constructor]. unfold Client.sample_ok. split_and!; try done; try (cbn; lia);
      repeat constructor; vm_compute; done.
  - by repeat constructor.
Defined.

End PyLossless.
