(* ===== verification/PyNative.v ===== *)
(** * What the Python client assumes of the native one

    [PyClient] models the native client as a FIFO with an epoch, a running flag and a fault.
    The theorem of this file shows that the operations of [NativeClient], under every
    interleaving, do what that model says: they refine it. An abstract client follows the
    native one through every step that other threads take between those of an operation. *)

From Stdlib Require Import ZArith Lia String.
From stdpp Require Import relations.
From S2P Require Import Prelude Effects Floats Clock Types FaultLatch SampleQueue QueueSpec Client.
From S2P Require Import NativeClient Conversion PyClient.
Import Clock NativeClient PyClient.

Module PyNative.

(** ** The abstract client follows *)

(** The abstract client stands for the native one: the samples, the drop count, the epoch
    and whether the queue is open, its capacity, the running flag and the fault. (The
    fault code and the health are only passed on; the model lets them change at any
    time.) *)
Record stands_for (n : Native) (c : NativeClient.NativeClient) : Prop := {
  sf_queue : QueueSpec.represents (fifo n) (queue_ c);
  sf_capacity : n_capacity n = Z.to_nat (SampleQueue.capacity_ (queue_ c));
  sf_running : n_running n = running_ c;
  sf_faulted : n_faulted n = Client.faulted (client_ c)
}.

(** The epoch that a reader of generation [g] belongs to: the current one, or another. *)
Definition epoch_of (g : Z) (n : Native) : nat :=
  if wrap_u 64 (Z.of_nat (QueueSpec.epoch (fifo n))) =? g
  then QueueSpec.epoch (fifo n) else S (QueueSpec.epoch (fifo n)).

(** What a step of another thread is for the abstract client. *)
Definition effect (a : Action) (n n' : Native) : Prop :=
  match a with
  | ARunning b => n' = n <| n_running := b |>
  | AQueue (SampleQueue.EPush s) => n' = request (QueueSpec.Push s) n
  | AQueue SampleQueue.EClose => n' = request QueueSpec.Close n
  | AQueue SampleQueue.EReset => n' = request QueueSpec.Reset n
  | AQueue (SampleQueue.ERead g) => n' = request (QueueSpec.Read (epoch_of g n)) n
  | AClient f => ∃ i, Client.faulted i = n_faulted n ∧
      n' = n <| n_faulted := Client.faulted (f i) |>
  end.

(** A step that some action of the schedule causes. *)
Definition caused (S : nat → list Action) (n n' : Native) : Prop :=
  ∃ k a, a ∈ S k ∧ effect a n n'.

Lemma represents_request f q r o q' :
  QueueSpec.represents f q → QueueSpec.in_time r f = true →
  SampleQueue.step (QueueSpec.event_of r) q = Ok (o, q') →
  QueueSpec.represents (QueueSpec.fifo_step (Z.to_nat (SampleQueue.capacity_ q)) r f).2 q' ∧
  SampleQueue.capacity_ q' = SampleQueue.capacity_ q.
Proof.
  intros HR Ht E. destruct (QueueSpec.step_simulates f q r HR Ht) as (o1 & q1 & E1 & Hc & _ & HR').
  rewrite E1 in E. by simplify_eq.
Qed.

(** A read of an epoch that is over leaves everything as it is. *)
Lemma stale_read q g :
  SampleQueue.wf q → SampleQueue.close_generation_ q ≠ g →
  ∃ o, SampleQueue.step (SampleQueue.ERead g) q = Ok (o, q).
Proof.
  intros Hq Hg. cbn. unfold SampleQueue.ready, SampleQueue.finish_read.
  rewrite (proj2 (Z.eqb_neq _ _) Hg). destruct (SampleQueue.closed_ q); by eexists.
Qed.

Lemma request_stands n c r o q :
  stands_for n c → QueueSpec.in_time r (fifo n) = true →
  SampleQueue.step (QueueSpec.event_of r) (queue_ c) = Ok (o, q) →
  stands_for (request r n) (c <| queue_ := q |>).
Proof.
  intros [Hq Hc Hr Hf] Ht E. destruct (represents_request _ _ _ _ _ Hq Ht E) as [HR Hcap].
  split; try done; cbn.
  - by rewrite Hc.
  - by rewrite Hcap.
Qed.

(** The abstract client follows a step of another thread. *)
Lemma act_follows a n c c' :
  stands_for n c → act a c = Ok c' → ∃ n', effect a n n' ∧ stands_for n' c'.
Proof.
  intros Hn E. destruct a as [b|[s| | |g]|f]; cbn [act] in E.
  - simplify_eq. eexists. split; [done|]. by destruct Hn.
  - destruct (SampleQueue.step _ _) as [[o q]| |] eqn:Es; simplify_eq/=. eexists. split; [done|].
    by eapply (request_stands n c (QueueSpec.Push s)).
  - simplify_eq/=. eexists. split; [done|]. by eapply (request_stands n c QueueSpec.Close).
  - simplify_eq/=. eexists. split; [done|]. by eapply (request_stands n c QueueSpec.Reset).
  - destruct (SampleQueue.step _ _) as [[o q]| |] eqn:Es; simplify_eq/=. eexists. split; [done|].
    pose proof (sf_queue _ _ Hn) as Hq. unfold epoch_of. rewrite <-(QueueSpec.r_epoch _ _ Hq).
    destruct (Z.eqb_spec (SampleQueue.close_generation_ (queue_ c)) g) as [Eg|Eg].
    + eapply (request_stands n c); [done| |].
      * cbn. rewrite Nat.leb_refl, Nat.sub_diag. done.
      * cbn. rewrite <-(QueueSpec.r_epoch _ _ Hq), Eg. exact Es.
    + destruct (stale_read _ g (QueueSpec.r_wf _ _ Hq) Eg) as [o' Es'].
      cbn in Es'. rewrite Es' in Es. simplify_eq.
      destruct Hn. unfold request. cbn. rewrite bool_decide_eq_false_2, andb_false_r by lia.
      by split; cbn.
  - simplify_eq. eexists. split; [by exists (client_ c); split; [symmetry; apply Hn|]|].
    by destruct Hn.
Qed.

Lemma act_all_follows S k n c :
  stands_for n c → ∃ n' c', act_all (S k) c = Ok c' ∧ rtc (caused S) n n' ∧ stands_for n' c'.
Proof.
  assert (∀ l, (∀ a, a ∈ l → a ∈ S k) → ∀ n c, stands_for n c →
    ∃ n' c', act_all l c = Ok c' ∧ rtc (caused S) n n' ∧ stands_for n' c') as H; [|by apply H].
  induction l as [|a l IH]; intros Hl n1 c1 Hn1; [by exists n1, c1|]. cbn [act_all].
  destruct (act_all_ok [a] c1) as (c2 & E & _); [apply Hn1|]. cbn [act_all] in E.
  apply bind_Ok_inv in E as (c3 & E & [= ->]). rewrite E. cbn.
  destruct (act_follows a n1 c1 c2 Hn1 E) as (n2 & He & Hn2).
  destruct (IH ltac:(intros b Hb; apply Hl; by right) n2 c2 Hn2) as (n' & c' & E' & Hr & Hn').
  exists n', c'. split_and!; [done| |done]. eapply rtc_l; [|done].
  exists k, a. split; [apply Hl; by left|done].
Qed.

(** The world [w], some steps of other threads after the abstract client was [n]. *)
Definition follows (S : nat → list Action) (n : Native) (w : World) : Prop :=
  ok w ∧ schedule w = S ∧ ∃ n', rtc (caused S) n n' ∧ stands_for n' (NativeClient.native w).

Section reading.
Context `{P : Platform} (S : nat → list Action).

Lemma yield_follows n w Q :
  follows S n w → (∀ w', follows S n w' → Q (Ok ()) w') → returns yield w Q.
Proof.
  intros ([Hq Hc] & Hs & n1 & Hr & Hn) HQ. unfold yield. rewrite <-Hs in Hr.
  destruct (act_all_follows (schedule w) (yields w) n1 (NativeClient.native w) Hn)
    as (n2 & c & E & Hr2 & Hn2).
  do 4 m_step. rewrite E. m_step. apply HQ. split_and!.
  - split; [apply Hn2|exact Hc].
  - exact Hs.
  - exists n2. split; [|exact Hn2]. rewrite <-Hs. by etrans.
Qed.

Lemma load_follows {A} (f : NativeClient.NativeClient → A) n w Q :
  follows S n w → (∀ w', follows S n w' → Q (Ok (f (NativeClient.native w'))) w') →
  returns (load f) w Q.
Proof.
  intros Hw HQ. unfold load, look. m_step. apply (yield_follows n); [done|]. intros.
  repeat m_step. auto.
Qed.

Lemma follows_reading n w : follows S n w → follows S n (w <| readings ::= Datatypes.S |>).
Proof. intros ([? ?] & ? & ?). by split_and!. Qed.

Lemma wait_follows d pred n w Q :
  follows S n w → (∀ w', follows S n w' → Q (Ok (pred (NativeClient.native w'))) w') →
  returns (wait_for d pred) w Q.
Proof.
  intros Hw HQ. unfold wait_for. do 2 m_step. generalize (wakeups w (yields w) d). intros k.
  revert w Hw. induction k as [|k IH]; intros w Hw; cbn [wait_loop]; unfold look.
  { do 3 m_step. by apply HQ. }
  do 4 m_step. branch.
  - m_step. rewrite <-Heqb. by apply HQ.
  - m_step. apply (yield_follows n); [done|]. intros w1 H1. by apply IH.
Qed.

(** What the abstract client allows a reader of the epoch of [n] to get, some steps of
    other threads after [n]. *)
Definition read_refines (n : Native) (timed : bool) (res : SampleQueue.ReadResult) (w' : World)
    : Prop :=
  ∃ n1 n', rtc (caused S) n n1 ∧ stands_for n' (NativeClient.native w') ∧
    (QueueSpec.in_time (QueueSpec.Read (QueueSpec.epoch (fifo n))) (fifo n1) = true →
     native_read (QueueSpec.epoch (fifo n)) timed n1 res n').

(** The read of the queue itself. *)
Lemma queue_read_refines d n w Q :
  follows S n w →
  (∀ res w', (SampleQueue.status res = SampleQueue.StTimeout → SampleQueue.sample res = None ∧ follows S n w') →
     (SampleQueue.status res ≠ SampleQueue.StTimeout → ∀ timed, read_refines n timed res w') →
     Q (Ok res) w') →
  returns (queue_read_for d (wrap_u 64 (Z.of_nat (QueueSpec.epoch (fifo n))))) w Q.
Proof.
  set (e := QueueSpec.epoch (fifo n)). intros Hw HQ. unfold queue_read_for.
  m_step. apply (yield_follows n); [done|]. intros w1 H1.
  m_step. apply (wait_follows _ _ n); [done|]. intros w2 ([Hq2 Hc2] & Hs2 & n1 & Hr & Hn).
  do 4 m_step. destruct (SampleQueue.finish_read_spec _ (wrap_u 64 (Z.of_nat e))
    (queue_ (NativeClient.native w2)) Hq2 eq_refl) as (r & q & E & Hq & Hp).
  rewrite E. do 3 m_step. destruct r as [[] sm]; cbn in Hp; apply HQ; cbn; try done.
  - intros _ timed. destruct Hp as (s & rest & -> & Hb & -> & Hcl & Hg).
    pose proof Hn as [HR Hcap Hrun Hf]. pose proof HR as [_ Rb Rd Re Ro].
    eexists n1, (n1 <| fifo := {| QueueSpec.buffer := rest; QueueSpec.dropped := QueueSpec.dropped (fifo n1);
        QueueSpec.epoch := QueueSpec.epoch (fifo n1); QueueSpec.is_open := QueueSpec.is_open (fifo n1) |} |>).
    split_and!; [done|split; try done; by split|]. intros Ht. apply read_sample.
    pose proof (QueueSpec.epoch_eqb _ _ _ HR Ht) as He. cbn. rewrite Hg, Z.eqb_refl in He.
    rewrite <-He, andb_true_r. rewrite Hcl in Ro. destruct (QueueSpec.is_open (fifo n1)); [|done].
    by rewrite <-Rb, Hb.
  - intros _. destruct Hp as (-> & -> & _). split; [done|]. split_and!; [done..|].
    exists n1. split; [done|]. by destruct Hn.
  - intros _ timed. destruct Hp as (-> & -> & Hd). exists n1, n1. split_and!; [done|by destruct Hn|].
    intros _. apply read_closed. right; right. destruct Hn as [[_ _ _ Re Ro] _ _ _].
    destruct Hd as [Hd|Hd]; [left|right].
    + rewrite Ro in Hd. by destruct (QueueSpec.is_open (fifo n1)).
    + intros Ee. apply Hd. by rewrite Re, Ee.
Qed.

(** The two tests around a read. *)
Lemma guard_follows {A} (stopped : A) (m : M World A) n w Q :
  follows S n w →
  (∀ w', follows S n w' →
     running_ (NativeClient.native w') = false ∨ Client.faulted (client_ (NativeClient.native w')) = true →
     Q (Ok stopped) w') →
  (∀ w', follows S n w' → safe m w' Q) →
  safe (running ← load running_;
        if negb running then mret stopped
        else faulty ← faulted_for_read; if faulty : bool then mret stopped else m) w Q.
Proof.
  intros H Hs Hm. unfold faulted_for_read.
  apply safe_then, (load_follows _ n); [done|]. intros w1 H1.
  destruct (running_ (NativeClient.native w1)) eqn:Er; simpl; [|m_step; auto].
  apply safe_then, (load_follows _ n); [done|]. intros w2 H2.
  destruct (Client.faulted (client_ (NativeClient.native w2))) eqn:Ef; [m_step; auto|auto].
Qed.

Lemma closed_refines n timed w :
  follows S n w →
  running_ (NativeClient.native w) = false ∨ Client.faulted (client_ (NativeClient.native w)) = true →
  read_refines n timed Closed w.
Proof.
  intros (_ & _ & n1 & Hr & Hn) Hd. exists n1, n1. split_and!; [done..|]. intros _.
  apply read_closed. destruct Hn as [_ _ Er Ef]. rewrite Er, Ef. tauto.
Qed.

Lemma read_loop_refines fuel started timeout n w :
  follows S n w → 0 ≤ started ≤ ticks_max →
  safe (read_loop fuel (wrap_u 64 (Z.of_nat (QueueSpec.epoch (fifo n)))) started timeout) w
    (λ r w', ∃ res, r = Ok res ∧ read_refines n (bool_decide (timeout ≠ None)) res w').
Proof.
  intros Hw Hst. revert w Hw. induction fuel as [|fuel IH]; intros w Hw; cbn [read_loop]; [done|].
  assert (∀ w', follows S n w' → running_ (NativeClient.native w') = false ∨
    Client.faulted (client_ (NativeClient.native w')) = true →
    ∃ res, Ok Closed = Ok res ∧ read_refines n (bool_decide (timeout ≠ None)) res w') as Hstop.
  { intros w' H' Hd. exists Closed. split; [done|by apply closed_refines]. }
  apply (guard_follows _ _ n); [done|done|]. intros w1 H1. apply safe_then.
  assert (∀ Q : Res Fp.double → World → Prop, (∀ d w', follows S n w' → Q (Ok d) w') →
    returns (match timeout with
             | Some timeout => e ← elapsed started; mret (slice timeout e)
             | None => mret kReadSlice
             end) w1 Q) as Hdur.
  { intros Q HQ. destruct timeout as [t|]; [|m_step; auto]. m_step.
    apply returns_elapsed; [apply H1|done|]. m_step. by apply HQ, follows_reading. }
  apply Hdur. intros d w2 H2. apply safe_then, (queue_read_refines _ n); [done|].
  intros res w3 Hto Hno. cbv beta iota.
  destruct (bool_decide_reflect (SampleQueue.status res = SampleQueue.StTimeout)) as [Es|Es]; cbn [negb].
  2:{ m_step. exists res. split; [done|]. by apply Hno. }
  destruct (Hto Es) as [Hnone H3]. apply (guard_follows _ _ n); [done|done|]. intros w4 H4.
  destruct timeout as [t|]; [|by apply IH].
  apply safe_then, returns_elapsed; [apply H4|done|]. branch; [|by apply IH, follows_reading].
  m_step. exists res. split; [done|]. destruct H4 as (_ & _ & n1 & Hr & Hn). exists n1, n1.
  split_and!; [done..|]. intros _. destruct res as [st sm]. cbn in Es, Hnone. subst.
  by apply read_timeout.
Qed.

(** [read()] of a client that stands for [n]. *)
Lemma read_refinement fuel timeout n w :
  ok w → schedule w = S → stands_for n (NativeClient.native w) →
  safe (read fuel timeout) w (λ r w',
    match r with
    | Ok res => read_refines n (bool_decide (timeout ≠ None)) res w'
    | Throw _ => timeout ≠ None ∧ w' = w
    | UB => False
    end).
Proof.
  intros Hw Hs Hn. assert (follows S n w) as H by (split_and!; [done..|by exists n]).
  assert (safe (queue_generation ← look (λ n, SampleQueue.generation (queue_ n));
                started_at ← now; read_loop fuel queue_generation started_at timeout) w
    (λ r w', ∃ res, r = Ok res ∧ read_refines n (bool_decide (timeout ≠ None)) res w')) as Hbody.
  { unfold look, now. do 9 m_step. unfold SampleQueue.generation.
    rewrite (QueueSpec.r_epoch _ _ (sf_queue _ _ Hn)).
    apply read_loop_refines; [by apply follows_reading|]. apply Hw. }
  unfold read. destruct timeout as [t|]; m_step; m_step.
  - destruct (require_representable_timeout t "timeout") as [[]|e|] eqn:Er; [|done|].
    + eapply safe_mono; [exact Hbody|]. by intros r w' (res & -> & ?).
    + by apply require_representable_not_UB in Er.
  - eapply safe_mono; [exact Hbody|]. by intros r w' (res & -> & ?).
Qed.

End reading.


(** ** Starting and stopping *)

Section lifecycle.
Context `{P : Platform} (S : nat → list Action) (HS : ∀ k, Forall permitted (S k)).

Lemma caused_permitted n n' :
  caused S n n' → ∃ k a, a ∈ S k ∧ permitted a ∧ effect a n n'.
Proof.
  intros (k & a & Ha & He). exists k, a. split_and!; [done| |done].
  by apply (proj1 (Forall_forall _ _) (HS k)).
Qed.

(** What nobody changes while the life-cycle mutex is held. *)
Definition held (n : Native) : nat * bool * nat * bool * FaultCode * HealthSnapshot :=
  (n_capacity n, n_running n, QueueSpec.epoch (fifo n), QueueSpec.is_open (fifo n),
   n_code n, n_health n).

Lemma request_held n r :
  match r with QueueSpec.Push _ | QueueSpec.Read _ => True | _ => False end →
  held (request r n) = held n ∧ n_faulted (request r n) = n_faulted n.
Proof.
  unfold held, request. destruct r; try done. intros _. cbn. repeat case_match; done.
Qed.

Lemma caused_held n n' : rtc (caused S) n n' → held n' = held n.
Proof.
  induction 1 as [|n n1 n2 Hc _ IH]; [done|]. rewrite IH.
  apply caused_permitted in Hc as (k & a & _ & Hp & He).
  destruct a as [b|[s| | |g]|f]; try done; cbn in He.
  - subst. by apply request_held.
  - subst. by apply request_held.
  - by destruct He as (i & _ & ->).
Qed.

(** The steps of other threads do not look at the running flag. *)
Lemma caused_running n n' b :
  rtc (caused S) n n' → rtc (caused S) (n <| n_running := b |>) (n' <| n_running := b |>).
Proof.
  induction 1 as [|n n1 n2 Hc _ IH]; [done|]. eapply rtc_l; [|exact IH].
  apply caused_permitted in Hc as (k & a & Ha & Hp & He). exists k, a. split; [done|].
  destruct a as [c|[s| | |g]|f]; try done; cbn in He |- *.
  - by subst.
  - by subst.
  - destruct He as (i & Ei & ->). by exists i.
Qed.

(** The steps that concern the queue alone. *)
Lemma caused_faulted n n' b :
  rtc (caused S) n n' → rtc (caused S) (n <| n_faulted := b |>) (n' <| n_faulted := b |>).
Proof.
  induction 1 as [|n n1 n2 Hc _ IH]; [done|].
  apply caused_permitted in Hc as (k & a & Ha & Hp & He).
  destruct a as [c|[s| | |g]|f]; try done; cbn in He.
  - eapply rtc_l; [|exact IH]. exists k, (AQueue (SampleQueue.EPush s)). split; [done|]. by subst.
  - eapply rtc_l; [|exact IH]. exists k, (AQueue (SampleQueue.ERead g)). split; [done|]. by subst.
  - by destruct He as (i & Ei & ->).
Qed.

(** The steps that concern the fault alone. *)
Lemma caused_fault_only n n' m :
  rtc (caused S) n n' → n_faulted m = n_faulted n →
  rtc (caused S) m (m <| n_faulted := n_faulted n' |>).
Proof.
  intros H. revert m. induction H as [n|n n1 n2 Hc _ IH]; intros m Hm.
  - rewrite <-Hm. by destruct m.
  - apply caused_permitted in Hc as (k & a & Ha & Hp & He).
    destruct a as [c|[s| | |g]|f]; try done; cbn in He.
    + apply IH. subst. rewrite Hm. by destruct (request_held n (QueueSpec.Push s)).
    + apply IH. subst. rewrite Hm. by destruct (request_held n (QueueSpec.Read (epoch_of g n))).
    + destruct He as (i & Ei & ->).
      pose (m' := m <| n_faulted := Client.faulted (f i) |>). apply (rtc_l _ m m').
      { exists k, (AClient f). split; [done|]. exists i. split; [congruence|done]. }
      exact (IH m' eq_refl).
Qed.

Lemma caused_fault_set n n' m :
  rtc (caused S) n n' →
  rtc (caused S) (m <| n_faulted := n_faulted n |>) (m <| n_faulted := n_faulted n' |>).
Proof.
  intros H. set (m1 := m <| n_faulted := n_faulted n |>).
  exact (caused_fault_only n n' m1 H eq_refl).
Qed.

Lemma store_follows f g n w Q :
  follows S n w → (∀ m c, stands_for m c → stands_for (g m) (f c)) →
  (∀ m w', rtc (caused S) n m → follows S (g m) w' → Q (Ok ()) w') → returns (store f) w Q.
Proof.
  intros Hw Hf HQ. unfold store. m_step. apply (yield_follows S n); [done|].
  intros w1 ([Hq Hc] & Hs & m & Hr & Hm). m_step. apply (HQ m); [done|]. split_and!.
  - split; [apply (Hf _ _ Hm)|done].
  - done.
  - exists (g m). split; [done|by apply Hf].
Qed.

Lemma stands_running b m c : stands_for m c → stands_for (m <| n_running := b |>) (c <| running_ := b |>).
Proof. intros []. by split. Qed.

Lemma stands_close m c :
  stands_for m c → stands_for (request QueueSpec.Close m) (c <| queue_ ::= SampleQueue.close |>).
Proof. intros H. by eapply (request_stands m c QueueSpec.Close). Qed.

Lemma stands_reset m c :
  stands_for m c → stands_for (request QueueSpec.Reset m) (c <| queue_ ::= SampleQueue.reset |>).
Proof. intros H. by eapply (request_stands m c QueueSpec.Reset). Qed.

Lemma stands_client m c f :
  stands_for m c → Client.faulted (f (client_ c)) = Client.faulted (client_ c) →
  stands_for m (c <| client_ ::= f |>).
Proof. intros [] E. split; try done. cbn. by rewrite E. Qed.

Lemma follows_trans n m w : rtc (caused S) n m → follows S m w → follows S n w.
Proof. intros Hr (H1 & H2 & n' & H3 & H4). split_and!; [done..|]. exists n'. split; [by etrans|done]. Qed.

(** The two stores that stop the client are the model's [native_stop], at one moment. *)
Lemma halt_follows n w (k : M World ()) Q :
  follows S n w →
  (∀ m w', rtc (caused S) n m → follows S (native_stop m) w' → returns k w' Q) →
  returns (_ ← store (λ n, n <| running_ := false |>);
           _ ← store (λ n, n <| queue_ ::= SampleQueue.close |>); k) w Q.
Proof.
  intros Hw HQ. m_step.
  apply (store_follows _ (λ m, m <| n_running := false |>) n); [done|apply stands_running|].
  intros m1 w1 H1 F1. m_step.
  apply (store_follows _ (request QueueSpec.Close) (m1 <| n_running := false |>));
    [done|apply stands_close|].
  intros m2 w2 H2 F2. pose proof (caused_held _ _ H2) as Hh.
  apply (caused_running _ _ (n_running m1)) in H2.
  replace ((m1 <| n_running := false |>) <| n_running := n_running m1 |>) with m1 in H2
    by by destruct m1.
  apply (HQ (m2 <| n_running := n_running m1 |>)); [by etrans|].
  replace (native_stop (m2 <| n_running := n_running m1 |>)) with (request QueueSpec.Close m2);
    [done|]. destruct m2. by injection Hh as _ -> _ _ _ _.
Qed.

(** The queue is open and empty in the next epoch, and the client does not run. *)
Definition reopened (n : Native) : Native :=
  (request QueueSpec.Reset (request QueueSpec.Close n)) <| n_running := false |>.

Lemma follows_running n w : follows S n w → running_ (NativeClient.native w) = n_running n.
Proof.
  intros (_ & _ & n' & Hr & Hn). rewrite <-(sf_running _ _ Hn). apply caused_held in Hr.
  by injection Hr as _ -> _ _ _ _.
Qed.

(** What was there before the queue was emptied leaves no trace but the fault. *)
Lemma reopened_after n x1 x2 x3 :
  rtc (caused S) n x1 → rtc (caused S) (x1 <| n_running := false |>) x2 →
  rtc (caused S) (request QueueSpec.Close x2) x3 →
  rtc (caused S) (reopened n) (request QueueSpec.Reset x3).
Proof.
  intros H1 H2 H3.
  pose proof (caused_held _ _ H1) as E1. pose proof (caused_held _ _ H2) as E2.
  pose proof (caused_held _ _ H3) as E3. unfold held in E1, E2, E3. cbn in E1, E2, E3.
  replace (request QueueSpec.Reset x3) with ((reopened n) <| n_faulted := n_faulted x3 |>).
  2:{ destruct n, x1, x2, x3. cbn in *. simplify_eq. unfold reopened, request. cbn. congruence. }
  change (reopened n) with ((reopened n) <| n_faulted := n_faulted n |>) at 1.
  etrans; [exact (caused_fault_set _ _ (reopened n) H1)|].
  etrans; [exact (caused_fault_set _ _ (reopened n) H2)|].
  exact (caused_fault_set _ _ (reopened n) H3).
Qed.

Lemma reopen_follows n w (k : M World ()) Q :
  follows S n w → (∀ w', follows S (reopened n) w' → safe k w' Q) →
  safe (_ ← store (λ n, n <| running_ := false |>);
        _ ← store (λ n, n <| queue_ ::= SampleQueue.close |>);
        _ ← store (λ n, n <| queue_ ::= SampleQueue.reset |>); k) w Q.
Proof.
  intros Hw HQ. apply safe_then.
  apply (store_follows _ (λ m, m <| n_running := false |>) n); [done|apply stands_running|].
  intros x1 w1 H1 F1. apply safe_then.
  apply (store_follows _ (request QueueSpec.Close) (x1 <| n_running := false |>));
    [done|apply stands_close|].
  intros x2 w2 H2 F2. apply safe_then.
  apply (store_follows _ (request QueueSpec.Reset) (request QueueSpec.Close x2));
    [done|apply stands_reset|].
  intros x3 w3 H3 F3. apply HQ. eapply follows_trans; [|exact F3]. by eapply reopened_after.
Qed.

Lemma follows_client n w f :
  follows S n w →
  Client.faulted (f (client_ (NativeClient.native w))) = Client.faulted (client_ (NativeClient.native w)) →
  follows S n (w <| NativeClient.native ::= λ c, c <| client_ ::= f |> |>).
Proof.
  intros ([? ?] & ? & n' & ? & ?) E. split_and!; [done..|]. exists n'. split; [done|].
  by apply stands_client.
Qed.

Lemma start_worker_fault created callback i r i' :
  Client.start_worker created callback i = (r, i') →
  match r with
  | Ok _ => Client.faulted i' = false
  | Throw _ => Client.faulted i' = Client.faulted i
  | UB => created = UB
  end.
Proof.
  unfold Client.start_worker. destruct created as [t|e|]; intros [= <- <-]; [done| |done].
  unfold Client.rollback, Client.faulted, Client.fault_code, FaultLatch.faulted, FaultLatch.code.
  destruct (bool_decide_reflect (FaultLatch.code_ (Client.fault_latch_ i) ≠ FaultCode.None)) as [E|E];
    cbn; [by rewrite bool_decide_eq_true_2|done].
Qed.

(** Starting the core clears the fault, or leaves it. *)
Lemma core_start_follows fuel created callback n w :
  follows S n w → created ≠ UB →
  safe (core_start fuel created callback) w (λ r w',
    match r with
    | Ok _ => ∃ m, rtc (caused S) n m ∧ follows S (m <| n_faulted := false |>) w'
    | Throw _ => follows S n w'
    | UB => False
    end).
Proof.
  intros Hw Hc. revert w Hw. induction fuel as [|fuel IH]; intros w Hw; [done|]. cbn [core_start].
  apply safe_then, (load_follows S _ n); [done|]. intros w1 H1. cbv beta iota.
  destruct (Client.worker_ (client_ (NativeClient.native w1))) as [t|].
  - branch; [branch|].
    + by m_step.
    + by apply IH.
    + m_step. m_step. apply IH. by apply follows_client.
  - destruct (Client.start_worker created callback _) as [r i] eqn:Es.
    pose proof (start_worker_fault _ _ _ _ _ Es) as Hf. m_step. m_step. m_step.
    destruct r as [[]|e|]; [| |done].
    + destruct H1 as ([? ?] & ? & m & Hr & []). exists m. split; [done|]. split_and!; [done..|].
      eexists. split; [done|]. by split.
    + by apply (follows_client n w1 (λ _, i)).
Qed.

(** The operation happens at one moment, between steps of other threads. *)
Definition atomically (op : Native → Native) (n : Native) (w' : World) : Prop :=
  ∃ m, rtc (caused S) n m ∧ follows S (op m) w'.

Lemma stop_refinement n w :
  follows S n w → returns stop w (λ r w', r = Ok () ∧ atomically native_stop n w').
Proof.
  intros Hw. unfold stop. apply (halt_follows n); [done|]. intros m w1 Hm F1. unfold core_stop.
  m_step. apply (store_follows _ id (native_stop m)); [done| |].
  { intros m' c Hs. by apply stands_client. }
  intros m2 w2 H2 F2. apply (store_follows _ id m2); [done| |].
  { intros m' c Hs. apply stands_client; [done|]. cbv zeta beta. by case_match. }
  intros m3 w3 H3 F3. split; [done|]. exists m. split; [done|].
  eapply follows_trans; [|exact F3]. by etrans.
Qed.

Lemma start_refinement fuel created callback n w :
  follows S n w → created ≠ UB →
  safe (start fuel created callback) w (λ r w',
    match r with
    | Ok _ => atomically native_started n w'
    | Throw _ => ∃ m, rtc (caused S) n m ∧ atomically native_stop (reopened m) w'
    | UB => False
    end).
Proof.
  intros Hw Hc. unfold start.
  apply safe_then, (load_follows S _ n); [done|]. intros w1 H1.
  apply safe_then, (load_follows S _ n); [done|]. intros w2 H2. cbv beta iota.
  rewrite (follows_running _ _ H1). rewrite <-(follows_running _ _ H2).
  destruct H2 as (Ho & Hs & m & Hr & Hm). rewrite <-(sf_running _ _ Hm), <-(sf_faulted _ _ Hm).
  assert (follows S m w2) as F2 by (split_and!; [done..|by exists m]).
  branch.
  { m_step. exists m. split; [done|]. unfold native_started. by rewrite Heqb. }
  apply (reopen_follows m); [done|]. intros w3 F3. m_step. m_step.
  eapply safe_mono; [by apply core_start_follows|]. intros [[]|e|] w4 H4; cbv beta iota; [| |done].
  - destruct H4 as (x & Hx & F4). apply returns_safe.
    apply (store_follows _ (λ m, m <| n_running := true |>) (x <| n_faulted := false |>));
      [done|apply stands_running|].
    intros y w5 Hy F5. exists m. split; [done|]. eapply follows_trans; [|exact F5].
    replace (native_started m) with (((reopened m) <| n_faulted := false |>) <| n_running := true |>)
      by (unfold native_started; by rewrite Heqb).
    apply caused_running. etrans; [by apply caused_faulted|done].
  - cbn [any_exception]. apply returns_safe, (halt_follows (reopened m)); [done|].
    intros y w5 Hy F5. m_step. exists m. split; [done|]. by exists y.
Qed.

End lifecycle.

(** C17: the native client refines what the Python client takes it for. The abstract client
    (samples, drop count, epoch, open or closed, capacity, running flag, fault) follows the
    native one through every step other threads take meanwhile. [read()], whatever they do,
    running or not: its result is one that [native_read] of the model allows, for a reader
    of the epoch at the call, at one moment reached by steps of other threads, and what it
    leaves is what the model leaves (no reader being 2^64 closes late); a read without
    timeout raises nothing, and one with a timeout only refuses it, before any effect.
    [start()] and [stop()] hold the life-cycle mutex, so nobody else starts or stops the
    client, but the worker pushes and faults and readers take: [stop()] returns, and is the
    model's [native_stop] at one moment between such steps; so is a [start()] that returns
    the model's [native_started]; one that throws reopens the queue and closes it again,
    which together is the model's [native_refused]. *)
Theorem native_refines_model `{P : Platform} fuel created callback timeout w n :
  ok w → stands_for n (NativeClient.native w) →
  let S := schedule w in
  safe (read fuel timeout) w (λ r w',
    match r with
    | Ok res => ∃ n1 n', rtc (caused S) n n1 ∧ stands_for n' (NativeClient.native w') ∧
        (QueueSpec.in_time (QueueSpec.Read (QueueSpec.epoch (fifo n))) (fifo n1) = true →
         native_read (QueueSpec.epoch (fifo n)) (bool_decide (timeout ≠ None)) n1 res n')
    | Throw _ => timeout ≠ None ∧ w' = w
    | UB => False
    end) ∧
  ((∀ k, Forall permitted (S k)) → created ≠ UB →
   safe (start fuel created callback) w (λ r w',
     match r with
     | Ok _ => ∃ m n', rtc (caused S) n m ∧ rtc (caused S) (native_started m) n' ∧
         stands_for n' (NativeClient.native w')
     | Throw _ => ∃ m m' n', rtc (caused S) n m ∧ rtc (caused S) (reopened m) m' ∧
         rtc (caused S) (native_stop m') n' ∧ stands_for n' (NativeClient.native w')
     | UB => False
     end) ∧
   returns stop w (λ r w', r = Ok () ∧
     ∃ m n', rtc (caused S) n m ∧ rtc (caused S) (native_stop m) n' ∧
       stands_for n' (NativeClient.native w'))) ∧
  ∀ m, native_stop (reopened m) = native_refused m.
Proof.
  intros Hw Hn S. assert (follows S n w) as F by (split_and!; [done..|by exists n]).
  split_and!; [|intros HS Hc; split|done].
  - by apply read_refinement.
  - eapply safe_mono; [by apply (start_refinement S HS)|]. intros [[]|e|] w'; [| |done].
    + intros (m & Hm & _ & _ & n' & Hn'). exists m, n'. tauto.
    + intros (m & Hm & m' & Hm' & _ & _ & n' & Hn'). exists m, m', n'. tauto.
  - eapply returns_mono; [by apply (stop_refinement S HS)|].
    intros r w' (-> & m & Hm & _ & _ & n' & Hn'). split; [done|]. exists m, n'. tauto.
Qed.

(** A running client whose queue was closed seven times and reset, and whose worker pushes
    at the third yield. *)
Definition demo_native (running : bool) : Native :=
  {| n_capacity := 2;
     fifo := {| QueueSpec.buffer := []; QueueSpec.dropped := 0; QueueSpec.epoch := 7;
                QueueSpec.is_open := true |};
     n_running := running; n_faulted := false; n_code := FaultCode.None;
     n_health := HealthSnapshot.default_HealthSnapshot |}.

Lemma demo_stands running : stands_for (demo_native running) (NativeClient.native (demo running 3)).
Proof. split; [|done..]. by split. Qed.

(** The read returns the sample that is pushed while it waits; the stop stops. *)
Lemma native_refines_model_witness :
  (∃ n1 n', rtc (caused (schedule (demo true 3))) (demo_native true) n1 ∧
     native_read 7 true n1 {| SampleQueue.status := SampleQueue.StSample;
                              SampleQueue.sample := Some some_sample |} n') ∧
  returns stop (demo true 3) (λ r w', r = Ok () ∧
    ∃ m n', rtc (caused (schedule (demo true 3))) (demo_native true) m ∧
      rtc (caused (schedule (demo true 3))) (native_stop m) n' ∧
      stands_for n' (NativeClient.native w')).
Proof.
  destruct (native_refines_model (P:=LinuxX86_64) 6 (Ok 5%nat) 7 (Some (Fp.d_ratio 1 10)) (demo true 3)
              (demo_native true) (demo_ok true 3) (demo_stands true)) as (Hread & Hlife & _).
  split.
  - unfold safe in Hread.
    destruct (read 6 (Some (Fp.d_ratio 1 10)) (demo true 3)) as [[r w']|] eqn:E;
      [|vm_compute in E; discriminate E].
    assert (r = Ok {| SampleQueue.status := SampleQueue.StSample;
                      SampleQueue.sample := Some some_sample |}) as ->.
    { assert (fst <$> read (P:=LinuxX86_64) 6 (Some (Fp.d_ratio 1 10)) (demo true 3) =
              Some (Ok {| SampleQueue.status := SampleQueue.StSample;
                          SampleQueue.sample := Some some_sample |})) as E' by (vm_compute; reflexivity).
      rewrite E in E'. by injection E' as ->. }
    destruct Hread as (n1 & n' & Hr & _ & Ha). exists n1, n'. split; [exact Hr|]. apply Ha.
    apply caused_held in Hr; [|intros k; by apply (proj2 (demo_exclusive true 3))].
    assert (QueueSpec.epoch (fifo n1) = 7%nat) as E7 by (by injection Hr).
    cbn [QueueSpec.in_time]. rewrite E7. reflexivity.
  - apply Hlife; [|discriminate]. intros k. by apply (proj2 (demo_exclusive true 3)).
Defined.

End PyNative.
