(* ===== verification/Legacy.v ===== *)
(** * The adapter for the 1.x interface: src/pynetft/_legacy.py

    [NetFT] wraps a [Client] in iterator delivery. One thread uses it; the state of its
    client is a [PyClient.State], on which the adapter runs the critical sections of
    client.py in the order a call reaches them. What the native client answers to
    [start()] and [read()] are arguments. *)

From Stdlib Require Import ZArith Lia String.
From stdpp Require Import functions.
From S2P Require Import Prelude Floats Clock Types SampleQueue QueueSpec Conversion.
From S2P Require Import PyClient PyClientSafety.
Import Fp Clock Conversion PyClient.

Module Legacy.

(** What a call of the adapter raises, [StopIteration] of [next()] included. *)
Inductive Outcome (A : Type) := Returns (a : A) | Raises (e : PyError) | StopIteration.
#[global] Arguments Returns {A} a.
#[global] Arguments Raises {A} e.
#[global] Arguments StopIteration {A}.

(** Source: src/pynetft/_legacy.py:11-16, [Response]; [FTData] has integers or floats. *)
Record Response := {
  rdt_sequence : Z;
  ft_sequence : Z;
  status : Z;
  FTData : list Z + list double
}.
Definition no_response : Response :=
  {| rdt_sequence := 0; ft_sequence := 0; status := 0; FTData := inl (replicate 6 0%Z) |}.

(** Source: src/pynetft/_legacy.py:54-68, [NetFT.__init__]: the members that change. *)
Record NetFT := { response : Response; is_connected : bool; modern_client : State }.
#[global] Instance NetFT_eta : Eta NetFT := λ r,
  {| response := response r; is_connected := is_connected r; modern_client := modern_client r |}.

(** Source: src/pynetft/_legacy.py:45-52, [NetFT.__init__], with lines 30-31: the override. *)
Definition calibration_override (count_per_force count_per_torque : option double)
    : PyRes (option PyCalibration) :=
  match count_per_force, count_per_torque with
  | Some f, Some t =>
    Return (Some {| py_counts_per_force_unit := f; py_counts_per_torque_unit := t;
                    py_calibration_force_unit := Member "NEWTON" "N";
                    py_calibration_torque_unit := Member "NEWTON_MILLIMETER" "N-mm" |})
  | None, None => Return None
  | _, _ => Raise (ValueError "count_per_force and count_per_torque must be provided together")
  end.

(** Source: src/pynetft/_legacy.py:62-68, [NetFT.__init__]: the configuration of the client. *)
Definition config (host : string) (port : Z) (count_per_force count_per_torque : option double)
    : PyRes PyConfig :=
  override ← calibration_override count_per_force count_per_torque;
  mret (default_PyConfig <| py_sensor_host := host |> <| py_rdt_port := port |>
          <| py_calibration_override := override |>).

(** Source: src/pynetft/_legacy.py:60-68, [NetFT.__init__], given the native client that
    [Client(...)] made. *)
Definition make (n : Native) : NetFT :=
  {| response := no_response; is_connected := false; modern_client := initial None n |}.

(** [Client.start()] on the only thread that uses the client; [None] where it would join a
    dispatcher, which a client in iterator delivery does not have. *)
Definition client_start (t : Tid) (r : option exn) (s : State) : option (PyRes () * State) :=
  match start_decision t (selected_callback None s) s with
  | Refuse e => Some (Raise e, s)
  | Already => Some (Return (), s)
  | JoinFirst _ => None
  | Go => Some (_start_iterator_locked r s)
  end.

(** Source: src/pynetft/_legacy.py:70-72, [NetFT.connect]. *)
Definition connect (t : Tid) (r : option exn) (self : NetFT) : option (Outcome () * NetFT) :=
  '(x, s) ← client_start t r (modern_client self);
  Some (match x with
        | Return _ => (Returns (), self <| modern_client := s |> <| is_connected := true |>)
        | Raise e => (Raises e, self <| modern_client := s |>)
        end).

(** Source: src/pynetft/_legacy.py:74-78, [NetFT.disconnect]; [Client.stop()] joins nothing. *)
Definition disconnect (self : NetFT) : NetFT :=
  if negb (is_connected self) then self
  else self <| modern_client ::= _stop_locked |> <| is_connected := false |>.

(** A native [read()] without a timeout: from the epoch it is called in and the client at
    that moment, what it returns and the client then. *)
Abbreviation Reader := (nat → Native → SampleQueue.ReadResult * Native) (only parsing).

(** [next(client.samples())] on the only thread that uses the client. *)
Definition client_next (read : Reader) (s : State) : Outcome PySample * State :=
  match samples false s with
  | (Raise e, s) => (Raises e, s)
  | (Return i, s) =>
    let tok := iter_token (iters s i) in
    if negb (_iterator_is_current tok s) then (StopIteration, s)
    else
      let '(res, n) := read (QueueSpec.epoch (fifo (native s))) (native s) in
      let s := s <| native := n |> in
      match iterate_result res with
      | Yield p => (Returns p, s)
      | IterRaise e => (Raises e, s)
      | IterIsClosed =>
        match _fault_error_for_closed_run tok s with
        | (Return (Some e), s) => (Raises e, s)
        | (Return None, s) => (StopIteration, s)
        | (Raise e, s) => (Raises e, s)
        end
      end
  end.

(** Source: src/pynetft/_legacy.py:101-107, [NetFT._next_sample] and
    [NetFT._require_connection]. *)
Definition _next_sample (read : Reader) (self : NetFT) : Outcome PySample * NetFT :=
  if negb (is_connected self)
  then (Raises (ConnectionError "Not connected; call connect() first"), self)
  else let '(x, s) := client_next read (modern_client self) in (x, self <| modern_client := s |>).

(** Source: src/pynetft/_legacy.py:109-119, [NetFT._response_from_sample]. *)
Definition _response_from_sample (raw : bool) (p : PySample) : Response :=
  {| rdt_sequence := py_rdt_sequence p; ft_sequence := py_ft_sequence p; status := py_status p;
     FTData := if raw then inl (py_raw_wrench p) else inr (wrench p) |}.

(** Source: src/pynetft/_legacy.py:84-88, [NetFT.get_data] and [NetFT.get_converted_data]. *)
Definition get_data (raw : bool) (read : Reader) (self : NetFT) : Outcome Response * NetFT :=
  match _next_sample read self with
  | (Returns p, self) =>
    let r := _response_from_sample raw p in (Returns r, self <| response := r |>)
  | (Raises e, self) => (Raises e, self)
  | (StopIteration, self) => (StopIteration, self)
  end.

(** Source: src/pynetft/_legacy.py:80-82, [NetFT.bias]; [r] is the result of [Client.bias()]. *)
Definition bias (r : PyRes ()) (self : NetFT) : Outcome () :=
  if negb (is_connected self)
  then Raises (ConnectionError "Not connected; call connect() first")
  else match r with Return _ => Returns () | Raise e => Raises e end.

(** Source: src/pynetft/_legacy.py:90-99, [NetFT.start_streaming]: [within k] tells whether the
    clock allows pass [k], [reads k] is what its read finds; [None] is a loop that has not
    ended. What it prints is left out. *)
Fixpoint start_streaming (fuel k : nat) (within : nat → bool) (reads : nat → Reader)
    (self : NetFT) : option (Outcome () * NetFT) :=
  match fuel with
  | O => None
  | S fuel =>
    if negb (within k) then Some (Returns (), self)
    else match get_data false (reads k) self with
         | (Returns _, self) => start_streaming fuel (S k) within reads self
         | (Raises e, self) => Some (Raises e, self)
         | (StopIteration, self) => Some (StopIteration, self)
         end
  end.

(** ** Theorems *)

(** What holds of an adapter between calls: no callback anywhere, and a client that runs only
    while the adapter counts as connected. *)
Record Owned (self : NetFT) : Prop := {
  o_constructor : constructor_callback (modern_client self) = None;
  o_run : callback_run (modern_client self) = None;
  o_mode : mode (modern_client self) ≠ Some CallbackMode;
  o_running : running (modern_client self) = true →
    is_connected self = true ∧ mode (modern_client self) = Some Iterator
}.

Lemma make_owned n : Owned (make n).
Proof. by split. Qed.

Lemma connect_owned t r self : Owned self → ∃ x self', connect t r self = Some (x, self') ∧ Owned self'.
Proof.
  intros [H1 H2 H3 H4]. unfold connect, client_start, start_decision, selected_callback.
  rewrite H1, H2. cbn. destruct (running (modern_client self)) eqn:Hr.
  - destruct (H4 eq_refl) as [Hc Hm]. rewrite Hm. cbn. do 2 eexists. split; [done|].
    split; cbn; try congruence. by rewrite Hm.
  - destruct r; cbn; do 2 eexists; (split; [done|]); split; cbn; first [congruence|by auto].
Qed.

Lemma disconnect_owned self : Owned self → Owned (disconnect self) ∧
  running (modern_client (disconnect self)) = false.
Proof.
  intros [H1 H2 H3 H4]. unfold disconnect, _stop_locked. destruct (is_connected self) eqn:Hc; cbn.
  - destruct (running (modern_client self)) eqn:Hr; cbn; (split; [split|]; cbn; congruence).
  - destruct (running (modern_client self)) eqn:Hr; [naive_solver|]. split; [split|]; congruence.
Qed.

(** [samples()] never refuses an adapter. *)
Lemma samples_owned self :
  Owned self → ∃ s, samples false (modern_client self) = (Return (generators (modern_client self)), s) ∧
    iter_token (iters s (generators (modern_client self))) = run_token (modern_client self) ∧
    running s = running (modern_client self) ∧ mode s = Some Iterator ∧
    run_token s = run_token (modern_client self) ∧ native s = native (modern_client self) ∧
    constructor_callback s = None ∧ callback_run s = None.
Proof.
  intros [H1 H2 H3 _]. unfold samples. rewrite bool_decide_eq_false_2 by naive_solver.
  rewrite bool_decide_eq_false_2 by done. cbn. eexists. split; [done|]. cbn.
  rewrite fn_lookup_insert. cbn. destruct (mode (modern_client self)) as [[]|]; done.
Qed.

(** A client that does not run has no sample to give. *)
Lemma next_stopped read self :
  Owned self → is_connected self = true → running (modern_client self) = false →
  ∀ raw, (get_data raw read self).1 = StopIteration.
Proof.
  intros HO Hc Hr raw. destruct (samples_owned self HO) as (s & Hs & Ht & Hr' & _).
  unfold get_data, _next_sample, client_next. rewrite Hc. cbn. rewrite Hs.
  unfold _iterator_is_current. by rewrite Hr', Hr.
Qed.

(** A read result raises no sensor fault by itself. *)
Lemma iterate_no_fault res c h : iterate_result res ≠ IterRaise (SensorFaultError c h).
Proof.
  destruct res as [[] [v|]]; cbn; try done. unfold to_sample. destruct (_ || _ || _); [done|].
  by destruct (Sample.force_unit v), (Sample.torque_unit v).
Qed.

(** A generator that raises the fault of the sensor has stopped its client. *)
Lemma fault_stops tok s c h s' :
  _fault_error_for_closed_run tok s = (Return (Some (SensorFaultError c h)), s') →
  s' = s <| running := false |> <| native ::= native_stop |> <| mode := None |>.
Proof.
  unfold _fault_error_for_closed_run. destruct (_iterator_is_current tok s) eqn:Hi; [|done].
  destruct (n_faulted (native s)); [|done]. destruct (sensor_fault s); [|done]. cbn.
  intros [= _ <-]. unfold _stop_locked. unfold _iterator_is_current in Hi. by destruct (running s).
Qed.

Lemma closed_raises tok s e s' :
  _fault_error_for_closed_run tok s = (Raise e, s') → e = UnicodeDecodeError.
Proof.
  unfold _fault_error_for_closed_run.
  destruct (PyClientSafety.sensor_fault_cases s) as [->|(c & h & ->)];
    repeat case_match; intros; by simplify_eq.
Qed.

(** A call that raises the fault leaves an adapter whose client is stopped. *)
Lemma next_fault read self c h self' :
  Owned self → _next_sample read self = (Raises (SensorFaultError c h), self') →
  is_connected self = true ∧ is_connected self' = true ∧ Owned self' ∧
  running (modern_client self') = false.
Proof.
  intros HO. pose proof (samples_owned self HO) as (s & Hs & _ & _ & Hm & _ & _ & Hc & Hcb).
  unfold _next_sample. destruct (is_connected self) eqn:Hic; cbn; [|done].
  unfold client_next. rewrite Hs. destruct (_iterator_is_current _ s); cbn; [|done].
  destruct (read _ _) as [res n]. destruct (iterate_result res) as [p|e|] eqn:Hi; [done| |].
  { intros [= -> <-]. by apply iterate_no_fault in Hi. }
  destruct (_fault_error_for_closed_run _ _) as [[[e|]|e] s'] eqn:Hf; try done.
  - intros [= -> <-]. apply fault_stops in Hf as ->. cbn. by repeat split.
  - intros [= -> _]. by apply closed_raises in Hf.
Qed.

(** A running client that finds its queue closed by a fault raises it. *)
Lemma data_fault raw read self :
  Owned self → is_connected self = true → running (modern_client self) = true →
  ∀ n,
  read (QueueSpec.epoch (fifo (native (modern_client self)))) (native (modern_client self)) =
    ({| SampleQueue.status := SampleQueue.StClosed; SampleQueue.sample := None |}, n) →
  n_faulted n = true → snapshot_text (n_health n) = true →
  ∃ c h self', get_data raw read self = (Raises (SensorFaultError c h), self').
Proof.
  intros HO Hc Hr n Hread Hf Ht8.
  destruct (samples_owned self HO) as (s & Hs & Ht & Hr' & Hm & Htok & Hn & _).
  unfold get_data, _next_sample, client_next, _fault_error_for_closed_run, _iterator_is_current.
  rewrite Hc, Hs, Hr', Hr, Hm, Ht, Htok, Hn, Nat.eqb_refl, Hread.
  rewrite (bool_decide_eq_true_2 _ eq_refl). cbn -[sensor_fault].
  rewrite Hr', Hr, Hm, Htok, Nat.eqb_refl, Hf, (bool_decide_eq_true_2 _ eq_refl). cbn -[sensor_fault].
  match goal with |- context [sensor_fault ?x] =>
    destruct (PyClientSafety.sensor_fault_cases x) as [Hx|(c & h & ->)] end; [|by do 3 eexists].
  exfalso. unfold sensor_fault in Hx. cbn [native] in Hx.
  match type of Hx with (to_health ?h ?k ≫= _) = _ =>
    pose proof (to_health_cases h k) as Hh; change (snapshot_text h) with (snapshot_text (n_health n)) in Hh end.
  rewrite Ht8 in Hh. destruct Hh as [p Hp]. rewrite Hp in Hx. cbn in Hx.
  by destruct (n_code n).
Qed.

(** What [get_data()] and [get_converted_data()] return: nothing but a [ConnectionError], with
    nothing asked of the client, before [connect()]; of a running client the next sample,
    with its raw counts or its force and torque, kept as [response]. *)
Theorem legacy_data raw read self :
  Owned self →
  (is_connected self = false →
     get_data raw read self =
       (Raises (ConnectionError "Not connected; call connect() first"), self)) ∧
  (∀ v n p, is_connected self = true → running (modern_client self) = true →
     read (QueueSpec.epoch (fifo (native (modern_client self)))) (native (modern_client self)) =
       ({| SampleQueue.status := SampleQueue.StSample; SampleQueue.sample := Some v |}, n) →
     to_sample v = Return p →
     ∃ self', get_data raw read self = (Returns (_response_from_sample raw p), self') ∧
       response self' = _response_from_sample raw p ∧ native (modern_client self') = n ∧
       is_connected self' = true).
Proof.
  intros HO. split.
  - intros Hc. unfold get_data, _next_sample. by rewrite Hc.
  - intros v n p Hc Hr Hread Hp.
    destruct (samples_owned self HO) as (s & Hs & Ht & Hr' & Hm & Htok & Hn & _).
    unfold get_data, _next_sample, client_next, _iterator_is_current.
    rewrite Hc, Hs, Hr', Hr, Hm, Ht, Htok, Hn, Nat.eqb_refl, Hread. rewrite (bool_decide_eq_true_2 _ eq_refl). cbn. rewrite Hp.
    eexists. split; [reflexivity|]. by cbn; rewrite Hc.
Qed.

(** The samples a call of [start_streaming()] took, one per pass. *)
Inductive streamed (reads : nat → Reader) : nat → NetFT → nat → NetFT → Prop :=
  | streamed_none k self : streamed reads k self k self
  | streamed_one k self r self1 k' self2 :
      get_data false (reads k) self = (Returns r, self1) → response self1 = r →
      streamed reads (S k) self1 k' self2 → streamed reads k self k' self2.

Lemma get_data_response raw read self r self' :
  get_data raw read self = (Returns r, self') → response self' = r.
Proof. unfold get_data. destruct (_next_sample read self) as [[p|e|] s1]; [|done..]. by intros [= <- <-]. Qed.

(** [start_streaming()] ends, once the clock is past its duration or a read fails: it has
    taken one sample per pass, kept each as [response], and reports the failure. *)
Theorem streaming_ends within reads k n self :
  within (k + n)%nat = false →
  ∃ x self', start_streaming (S n) k within reads self = Some (x, self') ∧
    ∃ k' last, streamed reads k self k' last ∧ (k' ≤ k + n)%nat ∧
      match x with
      | Returns _ => self' = last ∧ within k' = false
      | Raises e => get_data false (reads k') last = (Raises e, self')
      | StopIteration => get_data false (reads k') last = (StopIteration, self')
      end.
Proof.
  revert k self. induction n as [|n IH]; intros k self Hn; cbn [start_streaming];
    destruct (within k) eqn:Hk; cbn [negb].
  1: by rewrite Nat.add_0_r, Hk in Hn.
  1,3: (do 2 eexists; split; [done|]; exists k, self; split; [constructor|]; split; [lia|done]).
  destruct (get_data false (reads k) self) as [[r|e|] self1] eqn:Hg.
  - destruct (IH (S k) self1) as (x & self' & Hx & k' & last & Hs & Hle & Hr);
      [by rewrite Nat.add_succ_comm|].
    exists x, self'. split; [exact Hx|]. exists k', last. split; [|split; [lia|done]].
    eapply streamed_one; [done|by eapply get_data_response|done].
  - do 2 eexists. split; [done|]. exists k, self. split; [constructor|]. split; [lia|done].
  - do 2 eexists. split; [done|]. exists k, self. split; [constructor|]. split; [lia|done].
Qed.

(** A native read that finds the queue closed. *)
Definition closed (e : nat) (n : Native) : SampleQueue.ReadResult * Native :=
  ({| SampleQueue.status := SampleQueue.StClosed; SampleQueue.sample := None |}, n).

Lemma legacy_data_witness :
  get_data true closed
    (make (new_native 1 HealthSnapshot.default_HealthSnapshot)) =
  (Raises (ConnectionError "Not connected; call connect() first"),
   make (new_native 1 HealthSnapshot.default_HealthSnapshot)).
Proof.
  apply (legacy_data true _ (make (new_native 1 HealthSnapshot.default_HealthSnapshot)));
    [apply make_owned|reflexivity].
Defined.

(** After a fault of the sensor the adapter still counts as connected, although its client is
    stopped: every further [get_data()] raises [StopIteration], which is no error of the
    package, until [connect()] starts the client again. *)
Theorem legacy_after_fault t raw read self c h self' :
  Owned self → get_data raw read self = (Raises (SensorFaultError c h), self') →
  is_connected self' = true ∧
  (∀ raw' read', (get_data raw' read' self').1 = StopIteration) ∧
  ∃ self'', connect t None self' = Some (Returns (), self'') ∧
    running (modern_client self'') = true.
Proof.
  intros HO. unfold get_data at 1.
  destruct (_next_sample read self) as [[p|e|] s1] eqn:Hn; try done.
  intros [= -> <-]. destruct (next_fault read self c h s1 HO Hn) as (_ & Hc & HO' & Hr).
  split; [done|]. split; [intros; by apply next_stopped|].
  unfold connect, client_start, start_decision, selected_callback.
  rewrite (o_constructor _ HO'), (o_run _ HO'), Hr. cbn. by eexists.
Qed.

(** The client has connected, and its core has faulted. *)
Definition faulted_adapter : NetFT :=
  {| response := no_response; is_connected := true;
     modern_client := (_start_iterator_locked None
       (initial None (new_native 1 HealthSnapshot.default_HealthSnapshot))).2
       <| native ::= λ n, n <| n_faulted := true |> <| n_code := FaultCode.Socket |> |> |}.

Lemma legacy_after_fault_witness :
  ∃ c h self', get_data true closed faulted_adapter = (Raises (SensorFaultError c h), self') ∧
    is_connected self' = true.
Proof.
  assert (Owned faulted_adapter) as HO by (split; done).
  destruct (data_fault true closed faulted_adapter HO eq_refl eq_refl (native (modern_client faulted_adapter)))
    as (c & h & self' & E); [reflexivity..|].
  exists c, h, self'. split; [exact E|].
  exact (proj1 (legacy_after_fault (User 0) true closed faulted_adapter c h self' HO E)).
Defined.

End Legacy.
