(* ===== verification/System.v ===== *)
(** * From the datagram to the reader

    The worker calls the binding's callback, which pushes the sample to the queue; readers
    take samples from it. This file composes the theorems of the parts: what a reader
    gets was decoded from a datagram, scaled with a validated calibration, and comes in
    the order in which the worker delivered it, whatever the network, the other threads
    and the readers do. *)

From Stdlib Require Import ZArith Lia String Strings.Byte.
From S2P Require Import Prelude Effects Floats Clock Types Protocol Sequence Discovery Transport.
From S2P Require Import Client Worker WorkerSafety SampleQueue.
Import Fp Clock.

Module System.

(** The samples pushed by a sequence of events. *)
Definition pushes (events : list SampleQueue.Event) : list Sample :=
  omap (λ e, match e with SampleQueue.EPush s => Some s | _ => None end) events.

(** The queue is reset only when the client is started, before its worker runs. *)
Definition no_reset (events : list SampleQueue.Event) : bool :=
  forallb (λ e, match e with SampleQueue.EReset => false | _ => true end) events.

(** Source: bindings/python/native_client.cpp:46-46, [NativeClient::start]: the callback
    pushes each sample, so the pushes are the samples the worker gave to it, in order,
    up to the point the events reach. *)
Definition fed_by (events : list SampleQueue.Event) (w : Worker.World) : Prop :=
  pushes events `prefix_of` Worker.invocations w.

Lemma history_pushed events q h q' h' :
  no_reset events = true → SampleQueue.exec_history events q h = Ok (q', h') →
  SampleQueue.pushed h' = SampleQueue.pushed h ++ pushes events.
Proof.
  revert q h. induction events as [|e events IH]; intros q h Hn E.
  { injection E as <- <-. by rewrite app_nil_r. }
  cbn [no_reset forallb] in Hn. apply andb_prop in Hn as [He Hn]. cbn [SampleQueue.exec_history] in E.
  apply bind_Ok_inv in E as ([r q1] & _ & E). rewrite (IH _ _ Hn E). destruct e as [s| | |g]; try done.
  - cbn. by rewrite <- app_assoc.
  - cbn. destruct r as [[st [s|]]|]; done.
Qed.

Section system.
Context `{P : Platform} `{Ops : Transport.UdpTransportOps} `{Laws : !Transport.UdpTransportLaws Ops}.

Lemma run_genuine fuel w r w' :
  WorkerSafety.Inv WorkerSafety.NoFault w → Worker.run fuel w = Some (r, w') →
  Forall WorkerSafety.genuine (Worker.invocations w').
Proof.
  intros Hw E. pose proof (WorkerSafety.run_exec false 0 fuel w) as H. unfold exec in H.
  rewrite E in H. destruct H as (_ & _ & _ & f & Hi & _); [by intros ?|done|by intros ?|].
  apply (WorkerSafety.inv_genuine _ _ Hi).
Qed.

(** C3: From the datagram to the reader. Let a worker run, under any schedule, network and
    callback behaviour, and let the queue go through any interleaving of the worker's
    pushes with reads and closes. The samples the readers have got are, in order and
    without repetition, samples the worker delivered; each is the scaling, by a validated
    calibration, of the record some datagram decodes to; and each is well typed: fields
    within their widths, six counts, six finite values, known units. *)
Theorem samples_end_to_end fuel w r w' capacity q events :
  WorkerSafety.Inv WorkerSafety.NoFault w → Worker.run fuel w = Some (r, w') →
  is_u 64 capacity → SampleQueue.make capacity = Ok q →
  no_reset events = true → fed_by events w' →
  ∃ q' h, SampleQueue.exec_history events q SampleQueue.no_history = Ok (q', h) ∧
    sublist (SampleQueue.taken h) (Worker.invocations w') ∧
    Forall WorkerSafety.genuine (SampleQueue.taken h) ∧
    Forall Client.sample_ok (SampleQueue.taken h).
Proof.
  intros Hw Hr Hc Hm Hn Hf. destruct (SampleQueue.make_wf _ _ Hc Hm) as (Hq & _ & Hs & Hd & _).
  assert (SampleQueue.conserved q SampleQueue.no_history) as Hcons.
  { unfold SampleQueue.conserved. rewrite Hs, Hd. split_and!; done. }
  destruct (SampleQueue.history_conserved events q _ Hq Hcons) as (q' & h & E & _ & _ & _ & Hh).
  exists q', h. split; [done|].
  assert (sublist (SampleQueue.taken h) (Worker.invocations w')) as Hsub.
  { apply SampleQueue.conserved_result in Hh as (_ & Hsub & _).
    rewrite (history_pushed _ _ _ _ _ Hn E) in Hsub. cbn [SampleQueue.pushed app] in Hsub.
    destruct Hf as [rest Hf]. rewrite Hf. apply sublist_inserts_r.
    transitivity (SampleQueue.taken h ++ SampleQueue.samples_ q'); [by apply sublist_inserts_r|done]. }
  split; [done|].
  assert (Forall WorkerSafety.genuine (SampleQueue.taken h)) as Hg.
  { pose proof (run_genuine _ _ _ _ Hw Hr) as Hall. rewrite Forall_forall in Hall |- *.
    intros s Hin. apply Hall. by eapply elem_of_sublist. }
  split; [done|]. eapply Forall_impl; [exact Hg|]. apply WorkerSafety.genuine_ok.
Qed.
End system.

(** ** A session with data *)

(** The kernel hands out a record with every receive, numbered by the system calls. *)
Definition streaming_os : Transport.Os :=
  Transport.quiet_os <| Transport.reply := λ n c,
    let r := Transport.quiet_reply n c in
    match c with
    | Transport.Recv _ _ =>
      {| Transport.ret := 36; Transport.err := 0; Transport.revents := 1; Transport.value := 0;
         Transport.bytes := Rdt.encode_record (Client.record_with (Z.of_nat n) 0);
         Transport.addresses := 1 |}
    | _ => r
    end |>.

(** The client streams until another thread stops it. *)
Definition streaming_world : Worker.World :=
  WorkerSafety.new_world
    (Client.start_worker (Ok 1%nat) (Some 7%nat) (Client.initial_impl Client.override_config)).2
    streaming_os (λ _, Discovery.fake_server)
    (λ k, if (k =? 40)%nat then [Worker.AStopping; Worker.AStopCommand] else [])
    (λ _ _, true) (λ _ _, Worker.CbReturn).

Lemma streaming_world_inv : WorkerSafety.Inv (P:=LinuxX86_64) WorkerSafety.NoFault streaming_world.
Proof.
  apply (WorkerSafety.first_start_inv (P:=LinuxX86_64) 1 (Some 7%nat)) with (now := λ _, 5)
    (config := Client.override_config);
    [exact WorkerSafety.override_config_ok|intros cal [= <-]; by vm_compute| |done].
  destruct Transport.quiet_os_ok as (H1 & H2 & H3 & H4). by split_and!.
Qed.

(** A reader takes every sample as it comes. *)
Definition fed (l : list Sample) : list SampleQueue.Event :=
  l ≫= λ s, [SampleQueue.EPush s; SampleQueue.ERead 0].

Lemma fed_pushes l : pushes (fed l) = l ∧ no_reset (fed l) = true.
Proof. induction l as [|s l [IH1 IH2]]; [done|]. cbn. split; [|done]. f_equal. exact IH1. Qed.

(** Five records arrive and are read, in order, and typed. *)
Lemma samples_end_to_end_witness :
  ∃ w' q' h,
    Worker.run (P:=LinuxX86_64) (Ops:=WorkerSafety.linux_ops) 50 streaming_world = Some (Ok (), w') ∧
    SampleQueue.exec_history (fed (Worker.invocations w')) SampleQueue.queue2
      SampleQueue.no_history = Ok (q', h) ∧
    Sample.rdt_sequence <$> SampleQueue.taken h = [5; 7; 9; 11; 13] ∧
    Forall Client.sample_ok (SampleQueue.taken h).
Proof.
  assert (match Worker.run (P:=LinuxX86_64) (Ops:=WorkerSafety.linux_ops) 50 streaming_world with
          | Some (Ok (), w') =>
            match SampleQueue.exec_history (fed (Worker.invocations w')) SampleQueue.queue2
                    SampleQueue.no_history with
            | Ok (_, h) => Sample.rdt_sequence <$> SampleQueue.taken h = [5; 7; 9; 11; 13]
            | _ => False
            end
          | _ => False
          end) as Hrun by (vm_compute; reflexivity).
  destruct (Worker.run (P:=LinuxX86_64) (Ops:=WorkerSafety.linux_ops) 50 streaming_world)
    as [[[[]|e|] w']|] eqn:E; [|destruct Hrun..].
  destruct (samples_end_to_end (P:=LinuxX86_64) (Laws := Transport.posix_laws (P:=LinuxX86_64)) 50 streaming_world
    (Ok ()) w' 2 SampleQueue.queue2 (fed (Worker.invocations w'))) as (q' & h & Eh & _ & _ & Hok);
    [exact streaming_world_inv|exact E|vm_compute; split; congruence|reflexivity
    |apply fed_pushes|unfold fed_by; rewrite (proj1 (fed_pushes _)); reflexivity|].
  rewrite Eh in Hrun. exists w', q', h. split_and!; [reflexivity|exact Eh|exact Hrun|exact Hok].
Defined.

End System.
